(* ===== verification/_CoqProject ===== *)
-Q . S2P
Prelude.v
Skb.v
Nlattr.v
MathLib.v
Filter.v
Cred.v
Commoncap.v
SetId.v
Groups.v
CredContract.v
CredSteps.v
Acl.v
Permission.v
Locks.v
LockTable.v
LockSteps.v
Lease.v
Sem.v
SemInv.v
SemSteps.v
SemWakeup.v
Kstrtox.v
Printf.v
PrintfDigits.v
PrintfSpec.v
PrintfPtr.v
PrintfLoop.v
Rwsem.v
ListSort.v
Sort.v
Extable.v
Buddy.v
BuddyInv.v
Pcp.v
Rbtree.v
RbtreeInv.v
RbtreeBal.v
RbtreeList.v
Timerqueue.v
RtcLib.v
RtcCore.v
RtcInv.v
RtcWork.v
RtcSteps.v
RtcOmap.v
RtcDevice.v
