(* ===== verification/Prelude.v ===== *)
(** * Linux 3.2.0 for the AM335x: a verification development

    The program is the kernel under src/linux-3.2.0. It is far too large to
    model as a whole; the development takes parts that decide something (who
    may do what, which request is granted, which program is accepted) or keep
    a shared structure consistent, models each of them whole, and connects
    them the way the code calls them.

    ** Conventions

    C integers are [Z], reduced to their width ([u8] .. [u64], [s32], [s64])
    where C stores or converts; the machine is 32 bit ARM ([long] and pointers
    have 32 bits, [loff_t] 64). A function that can fail returns [cres]: [Ret],
    [Err e] for the C value [-e], or [UB] for an access outside an object, an
    uninitialised read, or a failed [BUG_ON]. "Safe" theorems say that [UB] is
    not reached. Linked structures are lists in which an element has its
    address as identity. Allocations, user copies, the clock and what other
    processes do while a lock is dropped are arguments of the definitions.
    Files under include/ contribute constants and small inline functions.
    Options are those of am335x_evm_defconfig: CONFIG_FS_POSIX_ACL,
    CONFIG_FILE_LOCKING, CONFIG_SYSVIPC, HZ = 100, one processor; the
    capability module is the only security module. Interleavings are modelled
    at a grain that also covers several processors.

    ** Files

    - Prelude.v: integers, outcomes, arrays, tactics, hint databases.
    - Skb.v: packet buffers (net/core/skbuff.c): [skb_copy_bits] over linear
      data, page fragments and fragment lists, [skb_header_pointer],
      [skb_put]. Nlattr.v: netlink attributes (lib/nlattr.c): finding,
      validating against a policy, parsing, writing. MathLib.v: reciprocal
      division (lib/reciprocal_div.c). Filter.v: the checker and the
      interpreter of socket filters (net/core/filter.c), which use the three.
    - Cred.v: credentials, user namespaces, [cap_capable], [commit_creds], and
      the state monad [sysM] of a task with a weakest precondition calculus
      (kernel/cred.c, kernel/capability.c). Commoncap.v: the capability module
      (security/commoncap.c) and capget/capset. SetId.v: the set*id calls
      (kernel/sys.c). Groups.v: supplementary groups (kernel/groups.c).
      CredContract.v: what every call promises about credentials.
      CredSteps.v: sequences of calls including execve (fs/exec.c).
    - Acl.v: POSIX ACLs (fs/posix_acl.c, fs/xattr_acl.c). Permission.v: access
      to inodes, deletion, creation, attribute changes (fs/namei.c, fs/attr.c,
      fs/inode.c, fs/libfs.c) and System V IPC access (ipc/util.c); built on
      the credentials, groups and ACLs.
    - Locks.v: POSIX and flock locks, mandatory locking, fcntl and flock
      (fs/locks.c). LockTable.v: the abstract table of locks, one entry for
      each owner and byte, and the proof that [__posix_lock_file] implements
      it. LockSteps.v: sequences of lock operations. Lease.v: leases, the
      second half of the file.
    - Sem.v: System V semaphores (ipc/sem.c). SemInv.v: the invariant of an
      array and what the waiting queue guarantees. SemSteps.v: sequences of
      calls; uses the IPC access check of Permission.v. SemWakeup.v: the
      lockless wakeup protocol of the same file, as an interleaving.
    - Kstrtox.v: numbers from text (lib/kstrtox.c, and the simple_strto
      functions of lib/vsprintf.c). Printf.v: formatted output
      (lib/vsprintf.c): conversion of numbers, the extensions of %p, the format
      decoder and [vsnprintf]. PrintfDigits.v: the decimal conversion without
      division. PrintfSpec.v: the text a number has to have, and that
      kstrtox reads it back. PrintfPtr.v: the extensions of %p stay inside
      their arrays. PrintfLoop.v: [vsnprintf] as a whole.
    - Rwsem.v: reader-writer semaphores (lib/rwsem-spinlock.c) with the
      waiting loops of their callers, as an interleaving.
    - ListSort.v: [list_sort] on a memory of list nodes (lib/list_sort.c).
      Sort.v: heap sort and binary search on bytes (lib/sort.c, lib/bsearch.c).
      Extable.v: exception tables (lib/extable.c, kernel/extable.c,
      arch/arm/mm/extable.c, parts of kernel/module.c), which are sorted by the
      former and searched when the kernel faults.
    - Buddy.v: the buddy system of a zone (mm/page_alloc.c). BuddyInv.v: its
      invariant and what allocating and freeing a block do. Pcp.v: the
      per-cpu lists above it, and sequences of allocations and frees.
    - Rbtree.v: red-black trees (lib/rbtree.c, include/linux/rbtree.h), as
      programs on a memory of nodes. RbtreeInv.v: a program logic for them, with
      trees and the path to a place in a tree (a zipper) as assertions.
      RbtreeBal.v: insertion and erasure keep the balance. RbtreeList.v: a
      tree seen as the list of its nodes, which is what its users need.
    - Timerqueue.v: timer queues (lib/timerqueue.c), a user of the trees.
      RtcLib.v: dates and seconds (drivers/rtc/rtc-lib.c, kernel/time.c).
      RtcCore.v: the RTC core (drivers/rtc/interface.c), a user of both.
      RtcInv.v: its invariant, and the class [rtc_chip] of what it expects
      from the driver of a chip. RtcWork.v: the work that expires timers.
      RtcSteps.v: sequences of calls. RtcOmap.v: the driver of the AM335x clock
      (drivers/rtc/rtc-omap.c), an instance of [rtc_chip]. RtcDevice.v: a
      clock from its registration on (drivers/rtc/class.c).

    ** What is shown

    Filters: an accepted program terminates within one step per instruction
    and stays inside program, scratch memory and packet (the nested netlink
    loads excepted, see below); packet copies equal slices of the flat packet;
    attribute parsing stays inside its input; what is written is found again.

    Credentials: along any sequence of calls the effective set stays inside
    the permitted one, ids and capabilities are gained only in the ways the
    rules allow, setuid drops root for good (with the usual secure bits), the
    bounding set and the locked secure bits hold (an execve still clears
    KEEP_CAPS), and an execve under a tracer gains nothing. The
    functional theorems describe setresuid, the group functions and the
    namespace walk completely.

    Files: the ACL check decides as POSIX.1e says, ACL changes keep ACLs valid
    and in step with the mode, and access, deletion and attribute changes need
    exactly the rights they should.

    Locks: a request changes the table of locks as specified and nothing else;
    conflicting locks never coexist; a blocked request is blocked by a lock
    it conflicts with until it is woken or withdrawn; closing releases; EDEADLK is given exactly for
    short cycles. Leases: an exclusive lease is the only one, an open goes
    through only when no lease is in its way, and the deadline removes leases
    nobody gives back.

    Semaphores: calls are all or nothing; the selective scanning of the queues
    never forgets an operation that could proceed; values stay in range; every
    call terminates; exits undo; a wakeup never touches a dead stack frame.
    Reader-writer semaphores: writers are alone, waiters are served in order
    and none sleeps on a free semaphore, whatever the interleaving.

    Text: the number parsers accept exactly the texts of numbers in range
    (minus zero is not one of them) and give their value; what a conversion
    of a number writes is given exactly, with the cases in which it is the text
    of C99, and it is read back from the buffer; [vsnprintf] writes one text that does not depend on the size of
    the buffer, cut off where the buffer ends, and overruns no array.

    Sorting: [list_sort] is a stable sort that leaves a well-formed list, heap
    sort sorts, a binary search finds what is there, and a fault at a covered
    instruction finds its fix-up, also while a module is loaded or trimmed.

    Pages: blocks handed out are aligned, disjoint and not free, nothing is
    lost, free buddies are merged, an allocation fails only when no block of the
    size is free, over every sequence of calls.

    Timers: red-black trees are lists with balanced access; timer queues are
    kept in the order of expiry and arrival; the RTC core, from registration on,
    has the alarm of the chip set for the first timer or its work scheduled,
    unless that time is beyond what the clock can show or the alarm interrupt was
    switched off while other timers wait; the work fires exactly the timers that
    are due, as often as they are; dates and seconds are converted without loss. The driver of the AM335x meets what the core
    expects from a chip.

    ** Bounds and fuel

    Loops that are not structural have fuel that the theorems show sufficient:
    the filter interpreter has one step per instruction (jumps go forward),
    the Shell sort and the binary search the length of the array, the scan of
    waiting semaphore operations the number of waiting operations plus one
    (each restart removes one). The deadlock check has the bound of the code
    itself. Waiting loops take the list of events that happen while the
    process sleeps. The format loop of [vsnprintf] has twice the length of the
    format (each round consumes a byte or ends a directive), the conversion
    of a number as many rounds as a 64-bit number has digits. The merges of
    [list_sort] have the number of nodes in memory, heap sort and binary
    search the number of elements, the loops of the page allocator
    [MAX_ORDER], the number of pages of a block or the length of a per-cpu
    list. Walks in a red-black tree and in the timer queue have the number of
    nodes in memory plus one; the theorem on timer queues shows that twice the
    logarithm of the number of timers is enough. The work of the RTC core
    repeats at most once per second that the clock still can show, and its inner
    loop once for each time a timer is due by then ([work_rounds],
    [work_fuel]). [__rtc_read_alarm] repeats when the minute changes between
    two readings; for a chip that gives complete alarms one round is enough.

    ** Not modelled

    Hardware, interrupts, memory barriers, reference counts and RCU; the
    scheduler; virtual memory; the file systems, most drivers and the
    protocols. Lock managers (lockd) and the file systems' own lock, ACL and
    permission methods are outside the models, as are other security modules.
    Locks are modelled for one inode with all waiters, semaphores for one
    array; the tables that map identifiers to objects are not modelled. Each
    [open] is taken to break leases before it counts as a user of the inode;
    the window between the two in the code is not examined. Of [vsnprintf]
    the recursive extension %pV is outside, and the texts that
    kernel/kallsyms.c makes from the generated symbol table are a parameter. The page allocator is one zone: the choice of a
    zone by watermarks, reclaim, compound pages and the sanity checks on
    struct page are not modelled. The [rb_augment] functions of the trees
    call a function of their user on a path and are left out. The theorems on
    the RTC core hold for times before 2038, where its 32-bit seconds end, and
    for chips that give complete alarms. That setting the clock can jump over an
    alarm, and that switching the alarm interrupt off stops the other timers,
    is shown by examples in RtcDevice.v. The list of all parts of the kernel with the reason why each is
    left out is in PROJECT.json. *)

From Stdlib Require Export ZArith Lia Bool.
From stdpp Require Export base tactics numbers list list_numbers option gmap.

#[global] Open Scope Z_scope.
#[global] Set Default Goal Selector "!".

(** ** C integers

    A w-bit unsigned object is a [Z] in [0, 2^w); arithmetic on it is done in
    [Z] and reduced by one of these conversions at the points where C stores
    or converts. *)
Definition u8 (x : Z) : Z := x `mod` 2 ^ 8.
Definition u16 (x : Z) : Z := x `mod` 2 ^ 16.
Definition u32 (x : Z) : Z := x `mod` 2 ^ 32.
Definition u64 (x : Z) : Z := x `mod` 2 ^ 64.

(** conversion to a two's complement [int] *)
Definition s32 (x : Z) : Z := (x + 2 ^ 31) `mod` 2 ^ 32 - 2 ^ 31.
Definition s16 (x : Z) : Z := (x + 2 ^ 15) `mod` 2 ^ 16 - 2 ^ 15.
Definition s64 (x : Z) : Z := (x + 2 ^ 63) `mod` 2 ^ 64 - 2 ^ 63.

Definition is_u8 (x : Z) : Prop := 0 ≤ x < 2 ^ 8.
Definition is_u16 (x : Z) : Prop := 0 ≤ x < 2 ^ 16.
Definition is_u32 (x : Z) : Prop := 0 ≤ x < 2 ^ 32.
Definition is_u64 (x : Z) : Prop := 0 ≤ x < 2 ^ 64.
Definition is_s16 (x : Z) : Prop := - 2 ^ 15 ≤ x < 2 ^ 15.
Definition is_s32 (x : Z) : Prop := - 2 ^ 31 ≤ x < 2 ^ 31.

(** C truth value of an integer, and the integer of a C comparison *)
Definition truth (x : Z) : bool := negb (x =? 0).
Definition c_bool (b : bool) : Z := if b then 1 else 0.

(** ** Error numbers (include/asm-generic/errno-base.h, errno.h) *)
Definition EPERM : Z := 1.
Definition ENOENT : Z := 2.
Definition ESRCH : Z := 3.
Definition EINTR : Z := 4.
Definition EIO : Z := 5.
Definition ENXIO : Z := 6.
Definition E2BIG : Z := 7.
Definition EBADF : Z := 9.
Definition EAGAIN : Z := 11.
Definition ENOMEM : Z := 12.
Definition EACCES : Z := 13.
Definition EFAULT : Z := 14.
Definition EBUSY : Z := 16.
Definition EEXIST : Z := 17.
Definition ENODEV : Z := 19.
Definition EINVAL : Z := 22.
Definition EFBIG : Z := 27.
Definition ENOSPC : Z := 28.
Definition EDOM : Z := 33.
Definition ERANGE : Z := 34.

(** ** Outcomes of a C function

    [Ret a] is a normal return with value [a], [Err e] the return of the error
    [-e] (or of [ERR_PTR(-e)]), [UB] an access outside an object, a read of an
    uninitialised cell or another undefined behaviour of C. *)
Inductive cres (A : Type) : Type :=
  | Ret (a : A)
  | Err (e : Z)
  | UB.
Arguments Ret {A} _.
Arguments Err {A} _.
Arguments UB {A}.

#[global] Instance cres_ret : MRet cres := λ A a, Ret a.
#[global] Instance cres_bind : MBind cres := λ A B f m,
  match m with Ret a => f a | Err e => Err e | UB => UB end.
#[global] Instance cres_fmap : FMap cres := λ A B f m,
  match m with Ret a => Ret (f a) | Err e => Err e | UB => UB end.

(** the function does not reach undefined behaviour *)
Definition safe {A} (m : cres A) : Prop := m ≠ UB.

(** ** Arrays indexed by a C integer *)
Definition zlookup {A} (l : list A) (i : Z) : option A :=
  if 0 <=? i then l !! Z.to_nat i else None.
Definition zlength {A} (l : list A) : Z := Z.of_nat (length l).
Definition array_get {A} (l : list A) (i : Z) : cres A :=
  match zlookup l i with Some a => Ret a | None => UB end.
Definition array_set {A} (l : list A) (i : Z) (a : A) : cres (list A) :=
  match zlookup l i with Some _ => Ret (<[Z.to_nat i := a]> l) | None => UB end.

(** [len] elements from offset [off] *)
Definition slice {A} (off len : Z) (l : list A) : list A :=
  take (Z.to_nat len) (drop (Z.to_nat off) l).
Definition array_read {A} (l : list A) (off len : Z) : cres (list A) :=
  if (0 <=? off) && (0 <=? len) && (off + len <=? zlength l)
  then Ret (slice off len l) else UB.

Definition array_write {A} (l : list A) (off : Z) (bs : list A) : cres (list A) :=
  if (0 <=? off) && (off + zlength bs <=? zlength l)
  then Ret (take (Z.to_nat off) l ++ bs ++ drop (Z.to_nat (off + zlength bs)) l) else UB.

(** numbers as the bytes of memory, which is little endian *)
Definition cpu_to_le16 (x : Z) : list Z := [u8 x; u8 (Z.shiftr x 8)].
Definition cpu_to_le32 (x : Z) : list Z :=
  [u8 x; u8 (Z.shiftr x 8); u8 (Z.shiftr x 16); u8 (Z.shiftr x 24)].
Definition le16_to_cpu (l : list Z) : cres Z :=
  match l with [a; b] => Ret (a + 256 * b) | _ => UB end.
Definition le32_to_cpu (l : list Z) : cres Z :=
  match l with [a; b; c; d] => Ret (a + 256 * (b + 256 * (c + 256 * d))) | _ => UB end.

(** ** Comparison functions

    What a caller of the sorting and searching functions promises about its
    [cmp]: the sign of the result is that of a total preorder. *)
Record cmp_order {A} (cmp : A → A → Z) : Prop := {
  cmp_sym : ∀ a b, Z.sgn (cmp b a) = - Z.sgn (cmp a b);
  cmp_trans : ∀ a b c, cmp a b ≤ 0 → cmp b c ≤ 0 → cmp a c ≤ 0
}.
Arguments cmp_sym {A cmp} _ _ _.
Arguments cmp_trans {A cmp} _ _ _ _ _ _.

(** ** Tactics *)

(** turn boolean tests into propositions everywhere *)
Ltac bprop :=
  repeat match goal with
  | H : _ && _ = true |- _ => apply andb_prop in H; destruct H
  | H : _ && _ = false |- _ => apply andb_false_iff in H
  | H : _ || _ = false |- _ => apply orb_false_elim in H; destruct H
  | H : _ || _ = true |- _ => apply orb_true_iff in H
  | H : negb _ = true |- _ => apply negb_true_iff in H
  | H : negb _ = false |- _ => apply negb_false_iff in H
  | H : (_ =? _) = true |- _ => apply Z.eqb_eq in H
  | H : (_ =? _) = false |- _ => apply Z.eqb_neq in H
  | H : (_ <? _) = true |- _ => apply Z.ltb_lt in H
  | H : (_ <? _) = false |- _ => apply Z.ltb_ge in H
  | H : (_ <=? _) = true |- _ => apply Z.leb_le in H
  | H : (_ <=? _) = false |- _ => apply Z.leb_gt in H
  | H : (_ >? _) = _ |- _ => rewrite Z.gtb_ltb in H
  | H : (_ >=? _) = _ |- _ => rewrite Z.geb_leb in H
  end.

(** case analysis on the innermost test of the goal or of a hypothesis *)
Ltac case_test :=
  match goal with
  | |- context [if ?b then _ else _] =>
      lazymatch b with context [if _ then _ else _] => fail | _ => idtac end;
      let E := fresh "E" in destruct b eqn:E
  | H : context [if ?b then _ else _] |- _ =>
      lazymatch b with context [if _ then _ else _] => fail | _ => idtac end;
      let E := fresh "E" in destruct b eqn:E
  end.

(** the same by rewriting, under connectives too *)
Ltac bool_props :=
  repeat progress rewrite ?orb_true_iff, ?orb_false_iff, ?andb_true_iff, ?andb_false_iff,
    ?negb_true_iff, ?negb_false_iff, ?Z.eqb_eq, ?Z.eqb_neq, ?Z.ltb_lt, ?Z.ltb_ge,
    ?Z.leb_le, ?Z.leb_gt in *.

(** equality up to linear arithmetic in the arguments *)
Ltac zcong := repeat first [reflexivity | lia | progress f_equal].

Ltac unfold_ranges :=
  unfold is_u8, is_u16, is_u32, is_u64, is_s32 in *.

(** ** Lemmas on integers *)

Lemma u8_range x : is_u8 (u8 x).
Proof. apply Z.mod_pos_bound; lia. Qed.
Lemma u16_range x : is_u16 (u16 x).
Proof. apply Z.mod_pos_bound; lia. Qed.
Lemma u32_range x : is_u32 (u32 x).
Proof. apply Z.mod_pos_bound; lia. Qed.
Lemma u64_range x : is_u64 (u64 x).
Proof. apply Z.mod_pos_bound; lia. Qed.
Lemma s32_range x : is_s32 (s32 x).
Proof.
  unfold is_s32, s32.
  pose proof (Z.mod_pos_bound (x + 2 ^ 31) (2 ^ 32)). lia.
Qed.

Lemma s16_range x : is_s16 (s16 x).
Proof. unfold is_s16, s16. pose proof (Z.mod_pos_bound (x + 2 ^ 15) (2 ^ 16)). lia. Qed.

Lemma u8_id x : is_u8 x → u8 x = x.
Proof. apply Z.mod_small. Qed.
Lemma u16_id x : is_u16 x → u16 x = x.
Proof. apply Z.mod_small. Qed.
Lemma u32_id x : is_u32 x → u32 x = x.
Proof. apply Z.mod_small. Qed.
Lemma u64_id x : is_u64 x → u64 x = x.
Proof. apply Z.mod_small. Qed.
Lemma s32_id x : is_s32 x → s32 x = x.
Proof.
  unfold is_s32, s32. intros ?. rewrite Z.mod_small by lia. lia.
Qed.
Lemma s16_id x : is_s16 x → s16 x = x.
Proof. unfold is_s16, s16. intros ?. rewrite Z.mod_small by lia. lia. Qed.
Lemma s64_id x : - 2 ^ 63 ≤ x < 2 ^ 63 → s64 x = x.
Proof. intros Hx. unfold s64. rewrite Z.mod_small; lia. Qed.
Lemma s32_u32 x : s32 (u32 x) = s32 x.
Proof. unfold s32, u32. by rewrite Zplus_mod_idemp_l. Qed.

Create HintDb cint.
Create Rewrite HintDb cint.
#[export] Hint Resolve u8_range u16_range u32_range u64_range s32_range : cint.
#[export] Hint Rewrite u8_id u16_id u32_id u64_id s32_id
  using (unfold_ranges; lia) : cint.

(** bounds and bits *)
Lemma bits_above n x i : 0 ≤ x < 2 ^ n → n ≤ i → Z.testbit x i = false.
Proof.
  intros Hx Hi. destruct (Z.lt_ge_cases n 0) as [Hn|Hn].
  { rewrite Z.pow_neg_r in Hx by lia. lia. }
  rewrite <- (Z.mod_small x (2 ^ n)) by lia.
  apply Z.mod_pow2_bits_high. lia.
Qed.

Lemma bits_bound n x :
  0 ≤ n → 0 ≤ x → (∀ i, n ≤ i → Z.testbit x i = false) → 0 ≤ x < 2 ^ n.
Proof.
  intros Hn Hx Hi. assert (x `mod` 2 ^ n = x) as <-.
  { apply Z.bits_inj'. intros i ?. destruct (Z.lt_ge_cases i n).
    - by apply Z.mod_pow2_bits_low.
    - rewrite Z.mod_pow2_bits_high by lia. by rewrite Hi. }
  apply Z.mod_pos_bound, Z.pow_pos_nonneg; lia.
Qed.

Lemma land_bound n x y : 0 ≤ n → 0 ≤ x < 2 ^ n → 0 ≤ Z.land x y < 2 ^ n.
Proof.
  intros Hn Hx. apply bits_bound; [lia|apply Z.land_nonneg; lia|].
  intros i Hi. by rewrite Z.land_spec, (bits_above n x i).
Qed.

Lemma lor_bound n x y :
  0 ≤ n → 0 ≤ x < 2 ^ n → 0 ≤ y < 2 ^ n → 0 ≤ Z.lor x y < 2 ^ n.
Proof.
  intros Hn Hx Hy. apply bits_bound; [lia|apply Z.lor_nonneg; lia|].
  intros i Hi. by rewrite Z.lor_spec, (bits_above n x i), (bits_above n y i).
Qed.

Lemma shiftr_bound n x k : 0 ≤ n → 0 ≤ k → 0 ≤ x < 2 ^ n → 0 ≤ Z.shiftr x k < 2 ^ n.
Proof.
  intros Hn Hk Hx. rewrite Z.shiftr_div_pow2 by lia.
  assert (0 < 2 ^ k) by (apply Z.pow_pos_nonneg; lia).
  split; [apply Z.div_pos; lia|].
  apply Z.le_lt_trans with x; [|lia]. apply Z.div_le_upper_bound; nia.
Qed.

(** ** Lemmas on arrays *)

Lemma zlookup_Some {A} (l : list A) i a :
  zlookup l i = Some a → 0 ≤ i < zlength l.
Proof.
  unfold zlookup, zlength. case_test; [|done]. bprop. intros ?%lookup_lt_Some. lia.
Qed.

Lemma zlookup_is_Some {A} (l : list A) i :
  0 ≤ i < zlength l → ∃ a, zlookup l i = Some a.
Proof.
  unfold zlookup, zlength. intros ?. rewrite (proj2 (Z.leb_le 0 i)) by lia.
  apply lookup_lt_is_Some. lia.
Qed.

Lemma zlookup_nat {A} (l : list A) (n : nat) : zlookup l (Z.of_nat n) = l !! n.
Proof.
  unfold zlookup. rewrite (proj2 (Z.leb_le _ _)) by lia. by rewrite Nat2Z.id.
Qed.

Lemma zlookup_cons_pos {A} (x : A) (l : list A) i :
  0 < i → zlookup (x :: l) i = zlookup l (i - 1).
Proof.
  intros Hi. unfold zlookup. rewrite !(proj2 (Z.leb_le _ _)) by lia.
  by replace (Z.to_nat i) with (S (Z.to_nat (i - 1))) by lia.
Qed.

Lemma Forall_zlookup {A} (P : A → Prop) (l : list A) i a :
  Forall P l → zlookup l i = Some a → P a.
Proof. unfold zlookup. intros Hl. case_test; [|done]. by apply Forall_lookup_1. Qed.

Lemma array_get_Ret {A} (l : list A) i a :
  array_get l i = Ret a ↔ zlookup l i = Some a.
Proof. unfold array_get. destruct (zlookup l i); naive_solver. Qed.

Lemma array_get_in {A} (l : list A) i :
  0 ≤ i < zlength l → ∃ a, array_get l i = Ret a ∧ zlookup l i = Some a.
Proof.
  intros [a Ha]%zlookup_is_Some. exists a. by rewrite array_get_Ret.
Qed.

Lemma array_set_in {A} (l : list A) i a :
  0 ≤ i < zlength l → array_set l i a = Ret (<[Z.to_nat i := a]> l).
Proof. intros [b Hb]%zlookup_is_Some. unfold array_set. by rewrite Hb. Qed.

Lemma zlength_insert {A} (l : list A) i a : zlength (<[i := a]> l) = zlength l.
Proof. unfold zlength. by rewrite length_insert. Qed.

Lemma zlookup_insert_eq {A} (l : list A) i a :
  0 ≤ i < zlength l → zlookup (<[Z.to_nat i := a]> l) i = Some a.
Proof.
  unfold zlookup, zlength. intros ?. rewrite (proj2 (Z.leb_le 0 i)) by lia.
  apply list_lookup_insert_eq. lia.
Qed.

Lemma zlookup_insert_ne {A} (l : list A) i j a :
  0 ≤ i → i ≠ j → zlookup (<[Z.to_nat i := a]> l) j = zlookup l j.
Proof.
  unfold zlookup. intros ??. case_test; [|done]. bprop.
  apply list_lookup_insert_ne. lia.
Qed.

Lemma array_read_in {A} (l : list A) off len :
  0 ≤ off → 0 ≤ len → off + len ≤ zlength l →
  array_read l off len = Ret (slice off len l).
Proof.
  intros. unfold array_read.
  rewrite !(proj2 (Z.leb_le _ _)) by lia. done.
Qed.

Lemma length_slice {A} (l : list A) off len :
  0 ≤ off → 0 ≤ len → off + len ≤ zlength l → zlength (slice off len l) = len.
Proof.
  unfold slice, zlength. intros. rewrite length_take, length_drop. lia.
Qed.

Lemma zlength_app {A} (a b : list A) : zlength (a ++ b) = zlength a + zlength b.
Proof. unfold zlength. rewrite length_app. lia. Qed.

Lemma zlength_nonneg {A} (l : list A) : 0 ≤ zlength l.
Proof. unfold zlength. lia. Qed.

Lemma zlength_cons {A} (x : A) l : zlength (x :: l) = 1 + zlength l.
Proof. unfold zlength. simpl. lia. Qed.

Lemma zlength_nil {A} : zlength (@nil A) = 0.
Proof. done. Qed.

Lemma zlength_replicate {A} n (x : A) : 0 ≤ n → zlength (replicate (Z.to_nat n) x) = n.
Proof. intros. unfold zlength. rewrite length_replicate. lia. Qed.

Lemma slice_app_l {A} (a b : list A) off len :
  0 ≤ off → 0 ≤ len → off + len ≤ zlength a → slice off len (a ++ b) = slice off len a.
Proof.
  unfold slice, zlength. intros. rewrite drop_app, take_app, length_drop.
  replace (Z.to_nat len - (length a - Z.to_nat off))%nat with 0%nat by lia.
  by rewrite take_0, app_nil_r.
Qed.

Lemma slice_app_r {A} (a b : list A) off len :
  zlength a ≤ off → slice off len (a ++ b) = slice (off - zlength a) len b.
Proof.
  unfold slice, zlength. intros. rewrite drop_app, drop_ge by lia. simpl.
  do 2 f_equal. lia.
Qed.

Lemma slice_app_split {A} (a b : list A) off len :
  0 ≤ off ≤ zlength a → zlength a ≤ off + len →
  slice off len (a ++ b) = slice off (zlength a - off) a ++ slice 0 (off + len - zlength a) b.
Proof.
  unfold slice, zlength. intros. rewrite drop_app, take_app, length_drop.
  replace (Z.to_nat off - length a)%nat with 0%nat by lia. rewrite !drop_0.
  f_equal.
  - rewrite !take_ge by (rewrite length_drop; lia). done.
  - f_equal. lia.
Qed.

Lemma slice_0_drop {A} (l : list A) off : 0 ≤ off → slice off (zlength l - off) l = drop (Z.to_nat off) l.
Proof. unfold slice, zlength. intros. apply take_ge. rewrite length_drop. lia. Qed.

Lemma slice_slice {A} (l : list A) o1 n1 o2 n2 :
  0 ≤ o1 → 0 ≤ o2 → 0 ≤ n2 → o2 + n2 ≤ n1 →
  slice o2 n2 (slice o1 n1 l) = slice (o1 + o2) n2 l.
Proof.
  unfold slice. intros. rewrite skipn_firstn_comm, take_take, drop_drop.
  f_equal; [lia|f_equal; lia].
Qed.

Lemma zlength_replicate_nat {A} n (x : A) : zlength (replicate n x) = Z.of_nat n.
Proof. unfold zlength. by rewrite length_replicate. Qed.

Lemma zlength_rev {A} (l : list A) : zlength (rev l) = zlength l.
Proof. unfold zlength. by rewrite length_rev. Qed.

Lemma zlength_fmap {A B} (f : A → B) (l : list A) : zlength (f <$> l) = zlength l.
Proof. unfold zlength. by rewrite length_fmap. Qed.

Lemma zlookup_ext {A} (l k : list A) : (∀ i, 0 ≤ i → zlookup l i = zlookup k i) → l = k.
Proof.
  intros H. apply list_eq. intros i. specialize (H (Z.of_nat i)). rewrite !zlookup_nat in H.
  apply H. lia.
Qed.

Lemma zlookup_app {A} (l k : list A) i : 0 ≤ i →
  zlookup (l ++ k) i = if i <? zlength l then zlookup l i else zlookup k (i - zlength l).
Proof.
  intros Hi. unfold zlookup, zlength. rewrite (proj2 (Z.leb_le 0 i)) by lia.
  destruct (Z.ltb_spec i (Z.of_nat (length l))).
  - apply lookup_app_l. lia.
  - rewrite lookup_app_r, (proj2 (Z.leb_le _ _)) by lia. f_equal. lia.
Qed.
Lemma zlookup_take {A} (l : list A) n i : 0 ≤ n →
  zlookup (take (Z.to_nat n) l) i = if i <? n then zlookup l i else None.
Proof.
  intros Hn. unfold zlookup. destruct (Z.leb_spec 0 i); [|by case_test].
  destruct (Z.ltb_spec i n); [apply lookup_take_lt; lia|apply lookup_take_ge; lia].
Qed.
Lemma zlookup_drop {A} (l : list A) n i : 0 ≤ n → 0 ≤ i →
  zlookup (drop (Z.to_nat n) l) i = zlookup l (n + i).
Proof.
  intros Hn Hi. unfold zlookup. rewrite !(proj2 (Z.leb_le _ _)) by lia.
  rewrite lookup_drop. f_equal. lia.
Qed.
Lemma zlength_take {A} (l : list A) n : 0 ≤ n ≤ zlength l → zlength (take (Z.to_nat n) l) = n.
Proof. unfold zlength. rewrite length_take. lia. Qed.

Lemma array_write_mid {A} (a b c bs : list A) off :
  off = zlength a → zlength b = zlength bs →
  array_write (a ++ b ++ c) off bs = Ret (a ++ bs ++ c).
Proof.
  intros -> Hl. pose proof (zlength_nonneg a). pose proof (zlength_nonneg c).
  pose proof (zlength_nonneg b). unfold array_write. rewrite !zlength_app.
  rewrite !(proj2 (Z.leb_le _ _)) by lia. simpl. unfold zlength in *.
  rewrite take_app_length' by lia. f_equal. f_equal. f_equal.
  rewrite app_assoc, drop_app_length'; [done|]. rewrite length_app. lia.
Qed.

(** ** Numbers in memory *)

Lemma u8_digit x k : 0 ≤ k → u8 (Z.shiftr x k) = (x / 2 ^ k) `mod` 256.
Proof. intros. unfold u8. rewrite Z.shiftr_div_pow2 by lia. reflexivity. Qed.

Lemma le32_roundtrip x : is_u32 x → le32_to_cpu (cpu_to_le32 x) = Ret x.
Proof.
  intros Hx. unfold cpu_to_le32, le32_to_cpu. rewrite !u8_digit by lia. unfold u8.
  f_equal. unfold is_u32 in Hx. change (2 ^ 8) with 256. change (2 ^ 16) with (256 * 256).
  change (2 ^ 24) with (256 * 256 * 256). rewrite <- !Z.div_div by lia.
  pose proof (Z.div_mod x 256). pose proof (Z.div_mod (x / 256) 256).
  pose proof (Z.div_mod (x / 256 / 256) 256).
  rewrite (Z.mod_small (x / 256 / 256 / 256) 256); [lia|].
  split; [repeat apply Z.div_pos; lia|]. repeat apply Z.div_lt_upper_bound; lia.
Qed.

Lemma le16_roundtrip x : is_u16 x → le16_to_cpu (cpu_to_le16 x) = Ret x.
Proof.
  intros Hx. unfold cpu_to_le16, le16_to_cpu. rewrite u8_digit by lia. unfold u8, is_u16 in *.
  change (2 ^ 8) with 256. f_equal. rewrite (Z.mod_small (x / 256) 256);
    [pose proof (Z.div_mod x 256); lia|].
  split; [apply Z.div_pos; lia|apply Z.div_lt_upper_bound; lia].
Qed.

Create Rewrite HintDb zlen.
#[export] Hint Rewrite @zlength_app @zlength_cons @zlength_nil @zlength_insert
  @zlength_replicate_nat @zlength_rev @zlength_fmap : zlen.

Lemma array_get_middle {A} (pre : list A) x l : array_get (pre ++ x :: l) (zlength pre) = Ret x.
Proof.
  apply array_get_Ret. unfold zlength. rewrite zlookup_nat. by apply list_lookup_middle.
Qed.
Lemma array_set_middle {A} (pre : list A) x y l :
  array_set (pre ++ x :: l) (zlength pre) y = Ret (pre ++ y :: l).
Proof.
  rewrite array_set_in by (autorewrite with zlen; pose proof (zlength_nonneg pre);
    pose proof (zlength_nonneg l); lia).
  unfold zlength. rewrite Nat2Z.id. by rewrite insert_app_r_alt, Nat.sub_diag by done.
Qed.

Lemma array_read_mid {A} (pre e post : list A) off len :
  off = zlength pre → len = zlength e → array_read (pre ++ e ++ post) off len = Ret e.
Proof.
  intros -> ->. rewrite array_read_in; autorewrite with zlen;
    [|pose proof (zlength_nonneg pre); pose proof (zlength_nonneg e); pose proof (zlength_nonneg post); lia..].
  f_equal. rewrite slice_app_r by lia. rewrite Z.sub_diag. unfold slice, zlength.
  rewrite Nat2Z.id. cbn. by rewrite drop_0, take_app_length.
Qed.

(** ** Filters *)

Lemma filter_all {A} (P : A → Prop) `{!∀ x, Decision (P x)} (l : list A) : Forall P l → filter P l = l.
Proof. induction 1; [done|]. rewrite filter_cons_True by done. by f_equal. Qed.
Lemma filter_none {A} (P : A → Prop) `{!∀ x, Decision (P x)} (l : list A) :
  Forall (λ x, ¬ P x) l → filter P l = [].
Proof. induction 1; [done|]. by rewrite filter_cons_False. Qed.

(** ** Maps *)

(** different keys of a map are no more than its entries *)
Lemma nodup_size `{Countable K} {V} (m : gmap K V) (l : list K) :
  NoDup l → (∀ x, x ∈ l → is_Some (m !! x)) → (length l ≤ size m)%nat.
Proof.
  intros Hnd Hd. rewrite <- (size_list_to_set (C := gset K) l Hnd), <- (size_dom (D := gset K) m).
  apply subseteq_size. intros x Hx%elem_of_list_to_set. by apply elem_of_dom, Hd.
Qed.
