(* ===== verification/Skb.v ===== *)
(** * Socket buffers: linear area, page fragments and fragment lists

    Models [struct sk_buff] (include/linux/skbuff.h) as far as the packet
    filter and [skb_copy_bits] (net/core/skbuff.c) read it.  A pointer into
    the linear area is an offset from [skb->head]; the bytes that may be read
    are the ones between [skb->head] and [skb_tail_pointer(skb)].  The
    reference meaning of a buffer is the flat byte string [skb_bytes];
    [skb_copy_bits_spec] shows that the chunk-by-chunk copy implements
    slicing of that string. *)

From S2P Require Import Prelude.
#[local] Set Warnings "-register-all".

(** ** Data *)

Record net_device := NetDevice { ifindex : Z; dev_type : Z }.

Record skb_frag := SkbFrag {
  frag_page : list Z;      (* bytes of the page *)
  page_offset : Z;
  frag_size : Z
}.

Inductive sk_buff := SkBuff {
  skb_head : list Z;       (* the allocation, bytes from head to end *)
  skb_data : Z;            (* data - head *)
  skb_tail : Z;            (* tail - head *)
  skb_len : Z;
  data_len : Z;
  mac_header : Z;          (* offsets from head *)
  network_header : Z;
  skb_protocol : Z;        (* network byte order *)
  pkt_type : Z;
  skb_dev : option net_device;
  skb_mark : Z;
  queue_mapping : Z;
  rxhash : Z;
  frags : list skb_frag;
  frag_list : list sk_buff
}.

(** ** Operations *)

(** the bytes that have been filled in: from [skb->head] to the tail pointer *)
Definition skb_lin (skb : sk_buff) : list Z :=
  take (Z.to_nat (skb_tail skb)) (skb_head skb).

Definition skb_is_nonlinear (skb : sk_buff) : bool := truth (data_len skb).

Definition skb_headlen (skb : sk_buff) : Z := u32 (skb_len skb - data_len skb).

(** state of the copy loops of [skb_copy_bits]: returned 0 with the bytes
    written to [to], or still [len] bytes to copy *)
Inductive copy_ctl :=
  | Done (to : list Z)
  | More (start offset len : Z) (to : list Z).

Definition skb_copy_header (skb : sk_buff) (offset len : Z) : cres copy_ctl :=
  let start := s32 (skb_headlen skb) in
  let copy := start - offset in
  if copy >? 0 then
    let copy := if copy >? len then len else copy in
    bs ← array_read (skb_lin skb) (skb_data skb + offset) copy;
    if len - copy =? 0 then Ret (Done bs)
    else Ret (More start (offset + copy) (len - copy) bs)
  else Ret (More start offset len []).

Fixpoint skb_copy_frags (fs : list skb_frag) (start offset len : Z) (to : list Z)
    : cres copy_ctl :=
  match fs with
  | [] => Ret (More start offset len to)
  | f :: fs' =>
      let end_ := start + frag_size f in
      let copy := end_ - offset in
      if copy >? 0 then
        let copy := if copy >? len then len else copy in
        bs ← array_read (frag_page f) (page_offset f + offset - start) copy;
        if len - copy =? 0 then Ret (Done (to ++ bs))
        else skb_copy_frags fs' end_ (offset + copy) (len - copy) (to ++ bs)
      else skb_copy_frags fs' end_ offset len to
  end.

(** the walk over [frag_list], with the recursive call as an argument *)
Fixpoint skb_walk_frags (copy_bits : sk_buff → Z → Z → cres (list Z)) (l : list sk_buff)
    (start offset len : Z) (to : list Z) : cres (list Z) :=
  match l with
  | [] => if len =? 0 then Ret to else Err EFAULT
  | frag_iter :: l' =>
      let end_ := start + skb_len frag_iter in
      let copy := end_ - offset in
      if copy >? 0 then
        let copy := if copy >? len then len else copy in
        match copy_bits frag_iter (offset - start) copy with
        | UB => UB
        | Err _ => Err EFAULT
        | Ret bs =>
            if len - copy =? 0 then Ret (to ++ bs)
            else skb_walk_frags copy_bits l' end_ (offset + copy) (len - copy) (to ++ bs)
        end
      else skb_walk_frags copy_bits l' end_ offset len to
  end.

Fixpoint skb_copy_bits (skb : sk_buff) (offset len : Z) {struct skb} : cres (list Z) :=
  if offset >? s32 (skb_len skb) - len then Err EFAULT else
  ctl ← skb_copy_header skb offset len;
  match ctl with
  | Done to => Ret to
  | More start offset len to =>
    ctl ← skb_copy_frags (frags skb) start offset len to;
    match ctl with
    | Done to => Ret to
    | More start offset len to =>
        skb_walk_frags skb_copy_bits (frag_list skb) start offset len to
    end
  end.

(** result of a function returning a pointer into a buffer *)
Inductive pointer :=
  | NULL
  | InHead (off : Z)                (* skb->head + off *)
  | InBuffer (bytes : list Z).      (* the caller's scratch buffer *)

#[global] Instance pointer_eq_dec : EqDecision pointer.
Proof. solve_decision. Defined.

Definition skb_header_pointer (skb : sk_buff) (offset len : Z) : cres pointer :=
  let hlen := s32 (skb_headlen skb) in
  if hlen - offset >=? len then Ret (InHead (skb_data skb + offset)) else
  match skb_copy_bits skb offset len with
  | UB => UB
  | Err _ => Ret NULL
  | Ret buffer => Ret (InBuffer buffer)
  end.

(** reading [len] bytes through such a pointer *)
Definition deref (skb : sk_buff) (p : pointer) (len : Z) : cres (list Z) :=
  match p with
  | NULL => UB
  | InHead off => array_read (skb_lin skb) off len
  | InBuffer bytes => array_read bytes 0 len
  end.

(** ** Reference meaning and well-formedness *)

Definition frag_bytes (f : skb_frag) : list Z :=
  slice (page_offset f) (frag_size f) (frag_page f).

Definition frag_wf (f : skb_frag) : Prop :=
  0 ≤ page_offset f ∧ 0 ≤ frag_size f ∧
  page_offset f + frag_size f ≤ zlength (frag_page f) ∧ Forall is_u8 (frag_page f).

Fixpoint skb_bytes (skb : sk_buff) : list Z :=
  drop (Z.to_nat (skb_data skb)) (skb_lin skb)
  ++ concat (map frag_bytes (frags skb)) ++ concat (map skb_bytes (frag_list skb)).

Definition sum_with {A} (f : A → Z) (l : list A) : Z := foldr (λ x s, f x + s) 0 l.

Fixpoint skb_wf (skb : sk_buff) : Prop :=
  (0 ≤ skb_data skb ≤ skb_tail skb ∧ skb_tail skb ≤ zlength (skb_head skb) ∧
   0 ≤ data_len skb ∧
   skb_len skb = (skb_tail skb - skb_data skb) + data_len skb ∧
   skb_len skb < 2 ^ 31 ∧
   data_len skb = sum_with frag_size (frags skb) + sum_with skb_len (frag_list skb) ∧
   Forall is_u8 (skb_head skb) ∧
   Forall frag_wf (frags skb)) ∧
  (fix all (l : list sk_buff) : Prop :=
     match l with [] => True | s :: l' => skb_wf s ∧ all l' end) (frag_list skb).

Definition skb_local_wf (skb : sk_buff) : Prop :=
  0 ≤ skb_data skb ≤ skb_tail skb ∧ skb_tail skb ≤ zlength (skb_head skb) ∧
  0 ≤ data_len skb ∧
  skb_len skb = (skb_tail skb - skb_data skb) + data_len skb ∧
  skb_len skb < 2 ^ 31 ∧
  data_len skb = sum_with frag_size (frags skb) + sum_with skb_len (frag_list skb) ∧
  Forall is_u8 (skb_head skb) ∧
  Forall frag_wf (frags skb).

(** the copy as a function of a flat chunk that starts at [start] *)
Definition copy_chunk (c : list Z) (start offset len : Z) (to : list Z) : copy_ctl :=
  let end_ := start + zlength c in
  if offset <? end_ then
    if offset + len <=? end_ then Done (to ++ slice (offset - start) len c)
    else More end_ end_ (offset + len - end_)
           (to ++ slice (offset - start) (end_ - offset) c)
  else More end_ offset len to.

(** ** Lemmas *)

(** induction that reaches the buffers of the fragment list *)
Lemma sk_buff_nested_ind (P : sk_buff → Prop) :
  (∀ skb, Forall P (frag_list skb) → P skb) → ∀ skb, P skb.
Proof.
  intros Hstep. fix IH 1. intros skb. apply Hstep.
  destruct skb as [? ? ? ? ? ? ? ? ? ? ? ? ? ? fl]; simpl.
  induction fl; constructor; [apply IH|done].
Qed.

Lemma skb_wf_unfold skb :
  skb_wf skb ↔ skb_local_wf skb ∧ Forall skb_wf (frag_list skb).
Proof.
  assert (∀ l, (fix all (l : list sk_buff) : Prop :=
     match l with [] => True | s :: l' => skb_wf s ∧ all l' end) l ↔ Forall skb_wf l) as Hall.
  { induction l as [|s l IH]; [done|]. rewrite Forall_cons, <- IH. done. }
  destruct skb. unfold skb_local_wf. simpl. rewrite Hall. done.
Qed.

Lemma zlength_lin skb :
  0 ≤ skb_tail skb ≤ zlength (skb_head skb) → zlength (skb_lin skb) = skb_tail skb.
Proof. unfold skb_lin, zlength. intros. rewrite length_take. lia. Qed.

(** copying from a concatenation is copying from the parts in turn *)
Lemma copy_chunk_app c1 c2 start offset len to :
  start ≤ offset → 0 ≤ len →
  copy_chunk (c1 ++ c2) start offset len to =
  match copy_chunk c1 start offset len to with
  | Done to => Done to
  | More start offset len to => copy_chunk c2 start offset len to
  end.
Proof.
  intros Hs Hl. unfold copy_chunk. rewrite zlength_app.
  pose proof (zlength_nonneg c1). pose proof (zlength_nonneg c2).
  destruct (Z.ltb_spec offset (start + zlength c1)).
  - rewrite (proj2 (Z.ltb_lt offset _)) by lia.
    destruct (Z.leb_spec (offset + len) (start + zlength c1)).
    + rewrite (proj2 (Z.leb_le (offset + len) _)) by lia.
      by rewrite slice_app_l by lia.
    + destruct (Z.leb_spec (offset + len) (start + (zlength c1 + zlength c2))).
      * rewrite (proj2 (Z.ltb_lt _ _)), (proj2 (Z.leb_le _ _)) by lia.
        rewrite slice_app_split by lia. rewrite <- app_assoc. zcong.
      * destruct (Z.ltb_spec (start + zlength c1) (start + zlength c1 + zlength c2)).
        -- rewrite (proj2 (Z.leb_gt _ _)) by lia.
           rewrite slice_app_split by lia. rewrite <- app_assoc. zcong.
        -- assert (c2 = []) as -> by (destruct c2; [done|unfold zlength in *; simpl in *; lia]).
           rewrite app_nil_r. change (zlength []) with 0. rewrite !Z.add_0_r. zcong.
  - destruct (Z.ltb_spec offset (start + (zlength c1 + zlength c2))).
    + rewrite (proj2 (Z.ltb_lt offset _)) by lia.
      replace (start + zlength c1 + zlength c2) with (start + (zlength c1 + zlength c2)) by lia.
      destruct (Z.leb_spec (offset + len) (start + (zlength c1 + zlength c2))).
      * rewrite slice_app_r by lia. zcong.
      * rewrite slice_app_r by lia. zcong.
    + rewrite (proj2 (Z.ltb_ge offset _)) by lia. zcong.
Qed.

(** a raw read of part of a chunk, as the loops do it *)
Lemma copy_frags_chunk fs start offset len to :
  Forall frag_wf fs → start ≤ offset → 0 ≤ len →
  skb_copy_frags fs start offset len to =
  Ret (copy_chunk (concat (map frag_bytes fs)) start offset len to).
Proof.
  intros Hfs. revert start offset len to.
  induction Hfs as [|f fs (Hpo & Hsz & Hend & _) Hfs IH]; intros start offset len to Hs Hl; simpl.
  { unfold copy_chunk. change (zlength []) with 0.
    rewrite (proj2 (Z.ltb_ge _ _)) by lia. by rewrite Z.add_0_r. }
  assert (zlength (frag_bytes f) = frag_size f) as Hzl by (apply length_slice; lia).
  rewrite copy_chunk_app by lia. unfold copy_chunk at 1. rewrite Hzl.
  rewrite Z.gtb_ltb. destruct (Z.ltb_spec 0 (start + frag_size f - offset)).
  - rewrite (proj2 (Z.ltb_lt offset _)) by lia. rewrite Z.gtb_ltb.
    destruct (Z.ltb_spec len (start + frag_size f - offset)).
    + rewrite array_read_in by lia. simpl.
      rewrite Z.sub_diag, (proj2 (Z.leb_le _ _)) by lia. simpl.
      unfold frag_bytes. rewrite slice_slice by lia. zcong.
    + rewrite array_read_in by lia. simpl.
      assert (slice (page_offset f + offset - start) (start + frag_size f - offset) (frag_page f)
              = slice (offset - start) (start + frag_size f - offset) (frag_bytes f)) as ->.
      { unfold frag_bytes. rewrite slice_slice by lia. f_equal; lia. }
      destruct (Z.eqb_spec (len - (start + frag_size f - offset)) 0).
      * rewrite (proj2 (Z.leb_le _ _)) by lia. zcong.
      * rewrite (proj2 (Z.leb_gt _ _)) by lia. rewrite IH by lia. zcong.
  - rewrite (proj2 (Z.ltb_ge offset _)) by lia. by rewrite IH by lia.
Qed.

Lemma copy_header_chunk skb offset len :
  skb_local_wf skb → 0 ≤ offset → 0 ≤ len →
  skb_copy_header skb offset len =
  Ret (copy_chunk (drop (Z.to_nat (skb_data skb)) (skb_lin skb)) 0 offset len []).
Proof.
  intros (Hd & Htl & Hdl & Hlen & Hmax & _) Ho Hl.
  assert (zlength (skb_lin skb) = skb_tail skb) as Hlin by (apply zlength_lin; lia).
  assert (zlength (drop (Z.to_nat (skb_data skb)) (skb_lin skb))
          = skb_len skb - data_len skb) as Hz.
  { unfold zlength in *. rewrite length_drop. lia. }
  assert (s32 (skb_headlen skb) = skb_len skb - data_len skb) as Hh.
  { unfold skb_headlen. rewrite u32_id by (unfold is_u32; lia).
    apply s32_id. unfold is_s32. lia. }
  unfold skb_copy_header, copy_chunk. rewrite Hz, Hh, Z.add_0_l.
  rewrite Z.gtb_ltb. destruct (Z.ltb_spec 0 (skb_len skb - data_len skb - offset)).
  - rewrite (proj2 (Z.ltb_lt offset _)) by lia. rewrite Z.gtb_ltb.
    assert (∀ n, 0 ≤ n → slice (skb_data skb + offset) n (skb_lin skb)
      = slice (offset - 0) n (drop (Z.to_nat (skb_data skb)) (skb_lin skb))) as Hsl.
    { intros n Hn. unfold slice. rewrite drop_drop. do 2 f_equal. lia. }
    destruct (Z.ltb_spec len (skb_len skb - data_len skb - offset)).
    + rewrite array_read_in by lia. simpl. rewrite Hsl by lia.
      by rewrite Z.sub_diag, (proj2 (Z.leb_le _ _)) by lia.
    + rewrite array_read_in by lia. simpl. rewrite Hsl by lia.
      destruct (Z.eqb_spec (len - (skb_len skb - data_len skb - offset)) 0).
      * rewrite (proj2 (Z.leb_le _ _)) by lia. zcong.
      * rewrite (proj2 (Z.leb_gt _ _)) by lia. zcong.
  - by rewrite (proj2 (Z.ltb_ge offset _)) by lia.
Qed.

Lemma zlength_concat_frags fs :
  Forall frag_wf fs → zlength (concat (map frag_bytes fs)) = sum_with frag_size fs.
Proof.
  induction 1 as [|f fs (Hpo & Hsz & Hend & _) _ IH]; [done|].
  simpl. rewrite zlength_app, IH. unfold frag_bytes. by rewrite length_slice by lia.
Qed.

Lemma skb_bytes_len skb : skb_wf skb → zlength (skb_bytes skb) = skb_len skb.
Proof.
  induction skb as [skb IH] using sk_buff_nested_ind. rewrite skb_wf_unfold.
  intros [(Hd & Htl & Hdl & Hlen & Hmax & Hsum & _ & Hfs) Hfl].
  assert (zlength (concat (map skb_bytes (frag_list skb))) = sum_with skb_len (frag_list skb)) as Hz.
  { clear -IH Hfl. induction IH as [|s l Hs _ IHl]; [done|].
    apply Forall_cons in Hfl as [??]. simpl. rewrite zlength_app, Hs, IHl; done. }
  assert (skb_bytes skb = drop (Z.to_nat (skb_data skb)) (skb_lin skb)
    ++ concat (map frag_bytes (frags skb)) ++ concat (map skb_bytes (frag_list skb))) as ->
    by (by destruct skb).
  rewrite !zlength_app, zlength_concat_frags, Hz by done.
  pose proof (zlength_lin skb). unfold zlength in *. rewrite length_drop. lia.
Qed.

Lemma copy_chunk_in c start offset len to :
  start ≤ offset → 0 ≤ len → offset + len ≤ start + zlength c →
  match copy_chunk c start offset len to with
  | Done to' => to' = to ++ slice (offset - start) len c
  | More _ _ len' to' => len' = 0 ∧ to' = to ++ slice (offset - start) len c
  end.
Proof.
  intros. unfold copy_chunk. case_test; bprop.
  - by rewrite (proj2 (Z.leb_le _ _)) by lia.
  - assert (len = 0) as -> by lia. by rewrite app_nil_r.
Qed.

Lemma skb_copy_bits_unfold skb offset len :
  skb_copy_bits skb offset len =
  if offset >? s32 (skb_len skb) - len then Err EFAULT else
  ctl ← skb_copy_header skb offset len;
  match ctl with
  | Done to => Ret to
  | More start offset len to =>
    ctl ← skb_copy_frags (frags skb) start offset len to;
    match ctl with
    | Done to => Ret to
    | More start offset len to =>
        skb_walk_frags skb_copy_bits (frag_list skb) start offset len to
    end
  end.
Proof. by destruct skb. Qed.

(** what the copy of [len] bytes at [offset] has to return *)
Definition copy_result (skb : sk_buff) (offset len : Z) : cres (list Z) :=
  if offset + len <=? skb_len skb then Ret (slice offset len (skb_bytes skb)) else Err EFAULT.

Lemma walk_frags_chunk (copy_bits : sk_buff → Z → Z → cres (list Z)) l start offset len to :
  Forall (λ s, zlength (skb_bytes s) = skb_len s) l →
  Forall (λ s, ∀ o n, 0 ≤ o → 0 ≤ n → copy_bits s o n = copy_result s o n) l →
  start ≤ offset → 0 ≤ len →
  skb_walk_frags copy_bits l start offset len to =
  match copy_chunk (concat (map skb_bytes l)) start offset len to with
  | Done to => Ret to
  | More _ _ len to => if len =? 0 then Ret to else Err EFAULT
  end.
Proof.
  intros Hlen Hcopy. revert start offset len to.
  induction Hcopy as [|s l Hs Hcopy IH]; intros start offset len to Hso Hl; simpl.
  { unfold copy_chunk. change (zlength []) with 0. by rewrite (proj2 (Z.ltb_ge _ _)) by lia. }
  apply Forall_cons in Hlen as [Hls Hlen]. specialize (IH Hlen).
  rewrite copy_chunk_app by lia. unfold copy_chunk at 1. rewrite Hls.
  rewrite Z.gtb_ltb. destruct (Z.ltb_spec 0 (start + skb_len s - offset)).
  2: { rewrite (proj2 (Z.ltb_ge offset _)) by lia. by apply IH; lia. }
  rewrite (proj2 (Z.ltb_lt offset _)) by lia. rewrite Z.gtb_ltb.
  destruct (Z.ltb_spec len (start + skb_len s - offset)).
  - rewrite Hs by lia. unfold copy_result. rewrite !(proj2 (Z.leb_le _ _)) by lia.
    by rewrite Z.sub_diag.
  - rewrite Hs by lia. unfold copy_result at 1. rewrite (proj2 (Z.leb_le _ (skb_len s))) by lia.
    destruct (Z.eqb_spec (len - (start + skb_len s - offset)) 0).
    + rewrite (proj2 (Z.leb_le _ _)) by lia. zcong.
    + rewrite (proj2 (Z.leb_gt _ _)) by lia. rewrite IH by lia.
      replace (offset + (start + skb_len s - offset)) with (start + skb_len s) by lia.
      by replace (len - (start + skb_len s - offset)) with (offset + len - (start + skb_len s)) by lia.
Qed.

Lemma copy_chunk_start c start offset len to :
  start ≤ offset → 0 ≤ len →
  match copy_chunk c start offset len to with
  | Done _ => True
  | More start' offset' len' _ => start' ≤ offset' ∧ 0 ≤ len'
  end.
Proof. intros. unfold copy_chunk. repeat case_test; bprop; lia. Qed.

(** copying [len] bytes at [offset] returns the bytes of the packet, or
    -EFAULT when the range is not inside the packet *)
Lemma skb_copy_bits_correct skb offset len :
  skb_wf skb → 0 ≤ offset → 0 ≤ len →
  skb_copy_bits skb offset len = copy_result skb offset len.
Proof.
  revert offset len. induction skb as [skb IH] using sk_buff_nested_ind. intros offset len Hwf Ho Hl.
  pose proof (skb_bytes_len skb Hwf) as Htot.
  apply skb_wf_unfold in Hwf as [Hloc Hfl].
  pose proof Hloc as (Hd & Htl & Hdl & Hlen & Hmax & _ & _ & Hfs).
  assert (skb_bytes skb = (drop (Z.to_nat (skb_data skb)) (skb_lin skb)
    ++ concat (map frag_bytes (frags skb))) ++ concat (map skb_bytes (frag_list skb))) as Hb
    by (rewrite <- app_assoc; by destruct skb).
  rewrite skb_copy_bits_unfold, s32_id, Z.gtb_ltb by (unfold is_s32; lia).
  unfold copy_result. destruct (Z.leb_spec (offset + len) (skb_len skb)).
  2: { by rewrite (proj2 (Z.ltb_lt _ _)) by lia. }
  rewrite (proj2 (Z.ltb_ge _ _)) by lia. rewrite copy_header_chunk by done.
  pose proof (copy_chunk_in (skb_bytes skb) 0 offset len [] ltac:(lia) Hl ltac:(lia)) as Hres.
  rewrite Z.sub_0_r, app_nil_l, Hb, copy_chunk_app, copy_chunk_app in Hres by lia.
  set (hd := drop (Z.to_nat (skb_data skb)) (skb_lin skb)) in *. rewrite Hb.
  pose proof (copy_chunk_start hd 0 offset len [] ltac:(lia) Hl) as Hst.
  cbn [mbind cres_bind].
  destruct (copy_chunk hd 0 offset len []) as [to|st o n to]; [by subst|].
  rewrite copy_frags_chunk by (done || lia). cbn [mbind cres_bind].
  pose proof (copy_chunk_start (concat (map frag_bytes (frags skb))) st o n to
    ltac:(lia) ltac:(lia)) as Hst2.
  destruct (copy_chunk (concat (map frag_bytes (frags skb))) st o n to) as [to2|st2 o2 n2 to2];
    [by subst|].
  rewrite walk_frags_chunk; [|..|lia|lia].
  - destruct (copy_chunk _ st2 o2 n2 to2) as [to3|? ? n3 to3]; [by subst|].
    by destruct Hres as [-> ->].
  - eapply Forall_impl; [exact Hfl|]. apply skb_bytes_len.
  - clear -IH Hfl. induction IH; [constructor|].
    apply Forall_cons in Hfl as [??]. constructor; auto.
Qed.

Lemma skb_bytes_u8 skb : skb_wf skb → Forall is_u8 (skb_bytes skb).
Proof.
  induction skb as [skb IH] using sk_buff_nested_ind. rewrite skb_wf_unfold.
  intros [(_ & _ & _ & _ & _ & _ & Hhd & Hfs) Hfl].
  assert (skb_bytes skb = drop (Z.to_nat (skb_data skb)) (skb_lin skb)
    ++ concat (map frag_bytes (frags skb)) ++ concat (map skb_bytes (frag_list skb))) as ->
    by (by destruct skb).
  rewrite !Forall_app. split_and!.
  - by apply Forall_drop, Forall_take.
  - clear -Hfs. induction Hfs as [|f fs (_ & _ & _ & Hb) _ IHl]; simpl; [constructor|].
    apply Forall_app. split; [by apply Forall_take, Forall_drop|done].
  - clear -IH Hfl. induction IH as [|s l Hs _ IHl]; simpl; [constructor|].
    apply Forall_cons in Hfl as [??]. apply Forall_app. auto.
Qed.

Lemma skb_headlen_lin skb :
  skb_local_wf skb → s32 (skb_headlen skb) = skb_tail skb - skb_data skb.
Proof.
  intros (Hd & Htl & Hdl & Hlen & Hmax & _). unfold skb_headlen.
  rewrite u32_id by (unfold is_u32; lia). rewrite s32_id by (unfold is_s32; lia). lia.
Qed.

(** what [skb_header_pointer] promises: [NULL], or a pointer through which
    [len] bytes of the packet at [offset] can be read *)
Lemma skb_header_pointer_correct skb offset len :
  skb_wf skb → 0 ≤ offset → 0 ≤ len →
  ∃ p, skb_header_pointer skb offset len = Ret p ∧
  (p = NULL ↔ skb_len skb < offset + len) ∧
  (p ≠ NULL → deref skb p len = Ret (slice offset len (skb_bytes skb))).
Proof.
  intros Hwf Ho Hl. pose proof Hwf as [Hloc _]%skb_wf_unfold.
  unfold skb_header_pointer. rewrite skb_headlen_lin by done.
  destruct Hloc as (Hd & Htl & Hdl & Hlen & Hmax & _).
  rewrite Z.geb_leb. destruct (Z.leb_spec len (skb_tail skb - skb_data skb - offset)).
  - eexists; split; [done|]. split; [split; [done|lia]|]. intros _. simpl.
    pose proof (zlength_lin skb ltac:(lia)) as Hlin.
    rewrite array_read_in by lia. f_equal.
    assert (skb_bytes skb = drop (Z.to_nat (skb_data skb)) (skb_lin skb)
      ++ concat (map frag_bytes (frags skb)) ++ concat (map skb_bytes (frag_list skb))) as ->
      by (by destruct skb).
    assert (zlength (drop (Z.to_nat (skb_data skb)) (skb_lin skb)) = skb_tail skb - skb_data skb).
    { unfold zlength in *. rewrite length_drop. lia. }
    rewrite slice_app_l by lia. unfold slice. rewrite drop_drop. do 2 f_equal. lia.
  - rewrite skb_copy_bits_correct by done. unfold copy_result.
    pose proof (skb_bytes_len skb Hwf) as Htot.
    destruct (Z.leb_spec (offset + len) (skb_len skb)).
    + eexists; split; [done|]. split; [split; [done|lia]|]. intros _. simpl.
      rewrite array_read_in by (try rewrite length_slice by lia; lia).
      rewrite slice_slice by lia. do 2 f_equal. lia.
    + eexists; split; [done|]. split; [split; [lia|done]|done].
Qed.

(** ** Properties *)

(** C38: [skb_copy_bits] copies the bytes of the packet, whatever mixture of
    linear data, page fragments and fragment-list buffers holds them, and
    returns -EFAULT exactly when the range does not lie inside the packet; no
    chunk is read outside its bounds. *)
Theorem skb_copy_bits_spec skb offset len :
  skb_wf skb → 0 ≤ offset → 0 ≤ len →
  skb_copy_bits skb offset len =
  if offset + len <=? skb_len skb then Ret (slice offset len (skb_bytes skb)) else Err EFAULT.
Proof. apply skb_copy_bits_correct. Qed.

(** two linear bytes, two bytes in a page, one in a fragment-list buffer *)
Definition ex_frag_skb : sk_buff :=
  SkBuff [0; 10; 11] 1 3 5 3 0 0 8 0 None 0 0 0 [SkbFrag [0; 12; 13; 0] 1 2]
    [SkBuff [14] 0 1 1 0 0 0 8 0 None 0 0 0 [] []].

Lemma ex_frag_skb_wf : skb_wf ex_frag_skb.
Proof.
  unfold ex_frag_skb. simpl. unfold frag_wf, sum_with, zlength, is_u8. simpl.
  split_and!; try lia; repeat constructor; simpl; try lia; repeat constructor; lia.
Qed.

Lemma skb_copy_bits_spec_witness : skb_copy_bits ex_frag_skb 1 4 = Ret [11; 12; 13; 14].
Proof.
  etransitivity; [apply (skb_copy_bits_spec ex_frag_skb 1 4); [apply ex_frag_skb_wf|lia|lia]|].
  vm_compute. reflexivity.
Defined.
