(* ===== verification/Nlattr.v ===== *)
(** * Netlink attributes

    Models lib/nlattr.c and the inline accessors of include/net/netlink.h.
    A stream of attributes lies in a byte array; a [struct nlattr *] is an
    offset into it.  The machine is little endian (AM335x), so the two 16-bit
    header fields are read and written low byte first.  [BUG_ON] counts as
    undefined behaviour. *)

From S2P Require Import Prelude Skb.

(** ** Data *)

Definition NLA_F_NESTED : Z := Z.shiftl 1 15.
Definition NLA_F_NET_BYTEORDER : Z := Z.shiftl 1 14.
Definition NLA_TYPE_MASK : Z := Z.lnot (Z.lor NLA_F_NESTED NLA_F_NET_BYTEORDER).
Definition NLA_ALIGNTO : Z := 4.
Definition NLA_ALIGN (len : Z) : Z :=
  Z.land (len + NLA_ALIGNTO - 1) (Z.lnot (NLA_ALIGNTO - 1)).
Definition sizeof_nlattr : Z := 4.
Definition NLA_HDRLEN : Z := NLA_ALIGN sizeof_nlattr.

Definition NLA_UNSPEC : Z := 0.
Definition NLA_U8 : Z := 1.
Definition NLA_U16 : Z := 2.
Definition NLA_U32 : Z := 3.
Definition NLA_U64 : Z := 4.
Definition NLA_STRING : Z := 5.
Definition NLA_FLAG : Z := 6.
Definition NLA_MSECS : Z := 7.
Definition NLA_NESTED : Z := 8.
Definition NLA_NESTED_COMPAT : Z := 9.
Definition NLA_NUL_STRING : Z := 10.
Definition NLA_BINARY : Z := 11.
Definition NLA_TYPE_MAX : Z := 11.

Record nla_policy := NlaPolicy { pol_type : Z; pol_len : Z }.

(** [nla_attr_minlen]: entries not named in the initialiser are 0 *)
Definition nla_attr_minlen : list Z :=
  [0; 1; 2; 4; 8; 0; 0; 8; NLA_HDRLEN; 0; 0; 0].

(** ** Accessors *)

Definition load_le16 (mem : list Z) (off : Z) : cres Z :=
  bs ← array_read mem off 2;
  match bs with [lo; hi] => Ret (lo + 256 * hi) | _ => UB end.

Definition get_nla_len (mem : list Z) (nla : Z) : cres Z := load_le16 mem nla.
Definition get_nla_type (mem : list Z) (nla : Z) : cres Z := load_le16 mem (nla + 2).

Definition nla_type (mem : list Z) (nla : Z) : cres Z :=
  t ← get_nla_type mem nla; Ret (Z.land t NLA_TYPE_MASK).
Definition nla_data (nla : Z) : Z := nla + NLA_HDRLEN.
Definition nla_len (mem : list Z) (nla : Z) : cres Z :=
  l ← get_nla_len mem nla; Ret (l - NLA_HDRLEN).
Definition nla_attr_size (payload : Z) : Z := NLA_HDRLEN + payload.
Definition nla_total_size (payload : Z) : Z := NLA_ALIGN (nla_attr_size payload).
Definition nla_padlen (payload : Z) : Z := nla_total_size payload - nla_attr_size payload.

(** the length field is only read when the header itself fits *)
Definition nla_ok (mem : list Z) (nla remaining : Z) : cres bool :=
  if remaining >=? sizeof_nlattr then
    l ← get_nla_len mem nla;
    Ret ((l >=? sizeof_nlattr) && (l <=? remaining))
  else Ret false.

Definition nla_next (mem : list Z) (nla remaining : Z) : cres (Z * Z) :=
  l ← get_nla_len mem nla;
  let totlen := NLA_ALIGN l in
  Ret (nla + totlen, remaining - totlen).

(** ** The loop macro

    [nla_for_each_attr]: [body] either goes on with a new loop state or leaves
    the loop with a result; at the end of the stream [fin] gets the loop state.
    Every round consumes at least four bytes, so [1 + len] rounds are enough;
    running out of them would show as [UB]. *)
Inductive loop (S R : Type) := Next (s : S) | Break (r : R).
Arguments Next {S R} _.
Arguments Break {S R} _.

Fixpoint nla_for_each_attr {S R : Type} (fuel : nat) (mem : list Z) (pos rem : Z)
    (body : Z → S → cres (loop S R)) (fin : S → R) (s : S) : cres R :=
  match fuel with
  | O => UB
  | Datatypes.S fuel' =>
      ok ← nla_ok mem pos rem;
      if (ok : bool) then
        c ← body pos s;
        match c with
        | Break r => Ret r
        | Next s' =>
            '(pos', rem') ← nla_next mem pos rem;
            nla_for_each_attr fuel' mem pos' rem' body fin s'
        end
      else Ret (fin s)
  end.

Definition nla_fuel (len : Z) : nat := S (Z.to_nat len).

(** ** Reading a stream *)

Definition nla_find (mem : list Z) (head len attrtype : Z) : cres (option Z) :=
  nla_for_each_attr (nla_fuel len) mem head len
    (λ nla (_ : unit),
       t ← nla_type mem nla;
       if t =? attrtype then Ret (Break (Some nla)) else Ret (Next tt))
    (λ _, None) tt.

Definition nla_find_nested (mem : list Z) (nla attrtype : Z) : cres (option Z) :=
  l ← nla_len mem nla;
  nla_find mem (nla_data nla) l attrtype.

Definition memchr0 (mem : list Z) (off len : Z) : cres bool :=
  bs ← array_read mem off len; Ret (existsb (Z.eqb 0) bs).

(** the checks shared by NLA_NUL_STRING and NLA_STRING *)
Definition validate_string (mem : list Z) (nla attrlen : Z) (pt : nla_policy) : cres unit :=
  if attrlen <? 1 then Err ERANGE else
  if truth (pol_len pt) then
    last ← array_get mem (nla_data nla + (attrlen - 1));
    let attrlen := if (last : Z) =? 0 then attrlen - 1 else attrlen in
    if attrlen >? pol_len pt then Err ERANGE else Ret tt
  else Ret tt.

Definition validate_nla (mem : list Z) (nla maxtype : Z) (policy : list nla_policy)
    : cres unit :=
  attrlen ← nla_len mem nla;
  type ← nla_type mem nla;
  if (type <=? 0) || (type >? maxtype) then Ret tt else
  pt ← array_get policy type;
  if pol_type pt >? NLA_TYPE_MAX then UB (* BUG_ON *) else
  let default :=
    minlen ← (if truth (pol_len pt) then Ret (pol_len pt)
              else if negb (pol_type pt =? NLA_UNSPEC)
                   then array_get nla_attr_minlen (pol_type pt)
                   else Ret 0);
    if attrlen <? minlen then Err ERANGE else Ret tt in
  if pol_type pt =? NLA_FLAG then
    if attrlen >? 0 then Err ERANGE else Ret tt
  else if pol_type pt =? NLA_NUL_STRING then
    let minlen := if truth (pol_len pt) then Z.min attrlen (pol_len pt + 1) else attrlen in
    if minlen =? 0 then Err EINVAL else
    found ← memchr0 mem (nla_data nla) minlen;
    if negb found then Err EINVAL else validate_string mem nla attrlen pt
  else if pol_type pt =? NLA_STRING then validate_string mem nla attrlen pt
  else if pol_type pt =? NLA_BINARY then
    if truth (pol_len pt) && (attrlen >? pol_len pt) then Err ERANGE else Ret tt
  else if pol_type pt =? NLA_NESTED_COMPAT then
    if attrlen <? pol_len pt then Err ERANGE else
    if attrlen <? NLA_ALIGN (pol_len pt) then Ret tt else
    if attrlen <? NLA_ALIGN (pol_len pt) + NLA_HDRLEN then Err ERANGE else
    l ← nla_len mem (nla_data nla + NLA_ALIGN (pol_len pt));
    if attrlen <? NLA_ALIGN (pol_len pt) + NLA_HDRLEN + l then Err ERANGE else Ret tt
  else if pol_type pt =? NLA_NESTED then
    if attrlen =? 0 then Ret tt else default
  else default.

Definition nla_validate (mem : list Z) (head len maxtype : Z) (policy : list nla_policy)
    : cres unit :=
  nla_for_each_attr (nla_fuel len) mem head len
    (λ nla (_ : unit), validate_nla mem nla maxtype policy;; Ret (Next tt))
    (λ _, tt) tt.

Fixpoint nla_policy_len (p : list nla_policy) (len : Z) : cres Z :=
  match p with
  | [] => Ret len
  | pt :: p' =>
      if truth (pol_len pt) then nla_policy_len p' (len + nla_total_size (pol_len pt))
      else
        m ← array_get nla_attr_minlen (pol_type pt);
        nla_policy_len p' (if truth m then len + nla_total_size m else len)
  end.

(** [tb] is an array of [maxtype + 1] pointers; an entry of the result is the
    attribute stored for that type *)
Definition nla_parse (maxtype : Z) (mem : list Z) (head len : Z)
    (policy : option (list nla_policy)) : cres (list (option Z)) :=
  let tb := replicate (Z.to_nat (maxtype + 1)) None in
  nla_for_each_attr (nla_fuel len) mem head len
    (λ nla (tb : list (option Z)),
       type ← nla_type mem nla;
       let type := u16 type in
       if (type >? 0) && (type <=? maxtype) then
         match policy with
         | Some pol => validate_nla mem nla maxtype pol
         | None => Ret tt
         end;;
         tb' ← array_set tb type (Some nla);
         Ret (Next tb')
       else Ret (Next tb))
    (λ tb, tb) tb.

(** [nla_strlcpy]: the returned pair is the destination and the result *)
Definition nla_strlcpy (mem : list Z) (nla dstsize : Z) : cres (list Z * Z) :=
  srclen ← nla_len mem nla;
  let srclen := u32 srclen in
  srclen ← (if srclen >? 0 then
              c ← array_get mem (nla_data nla + (srclen - 1));
              Ret (if (c : Z) =? 0 then srclen - 1 else srclen)
            else Ret srclen);
  if dstsize >? 0 then
    let len := if srclen >=? dstsize then dstsize - 1 else srclen in
    bs ← array_read mem (nla_data nla) len;
    Ret (bs ++ replicate (Z.to_nat (dstsize - len)) 0, srclen)
  else Ret ([], srclen).

Definition nla_memcpy (mem : list Z) (src count : Z) : cres (list Z * Z) :=
  l ← nla_len mem src;
  let minlen := Z.min count l in
  bs ← array_read mem (nla_data src) minlen;
  Ret (bs, minlen).

(** on as many bytes of both *)
Fixpoint memcmp (cs ct : list Z) : Z :=
  match cs, ct with
  | a :: cs, b :: ct => let res := a - b in if truth res then res else memcmp cs ct
  | _, _ => 0
  end.

Definition nla_memcmp (mem : list Z) (nla : Z) (data : list Z) : cres Z :=
  l ← nla_len mem nla;
  let size := zlength data in
  let d := s32 (u32 (l - size)) in
  if d =? 0 then bs ← array_read mem (nla_data nla) size; Ret (memcmp bs data) else Ret d.

(** [str] without its NUL byte *)
Definition nla_strcmp (mem : list Z) (nla : Z) (str : list Z) : cres Z :=
  l ← nla_len mem nla;
  let len := zlength str + 1 in
  let d := l - len in
  if d =? 0 then bs ← array_read mem (nla_data nla) len; Ret (memcmp bs (str ++ [0])) else Ret d.

(** ** Writing to a socket buffer *)

Definition EMSGSIZE : Z := 90.

Definition skb_set_buf (skb : sk_buff) (head : list Z) (tail len : Z) : sk_buff :=
  SkBuff head (skb_data skb) tail len (data_len skb) (mac_header skb) (network_header skb)
    (skb_protocol skb) (pkt_type skb) (skb_dev skb) (skb_mark skb) (queue_mapping skb)
    (rxhash skb) (frags skb) (frag_list skb).

Definition skb_write (skb : sk_buff) (off : Z) (bs : list Z) : cres sk_buff :=
  h ← array_write (skb_head skb) off bs;
  Ret (skb_set_buf skb h (skb_tail skb) (skb_len skb)).

Definition skb_tailroom (skb : sk_buff) : Z :=
  if skb_is_nonlinear skb then 0 else zlength (skb_head skb) - skb_tail skb.

(** a non-linear buffer is a [BUG], an overrun [skb_over_panic] *)
Definition skb_put (skb : sk_buff) (len : Z) : cres (sk_buff * Z) :=
  if skb_is_nonlinear skb then UB else
  if skb_tail skb + len >? zlength (skb_head skb) then UB else
  Ret (skb_set_buf skb (skb_head skb) (skb_tail skb + len) (u32 (skb_len skb + len)),
       skb_tail skb).

Definition le16 (v : Z) : list Z := [Z.land v 255; Z.land (Z.shiftr v 8) 255].

Definition __nla_reserve (skb : sk_buff) (attrtype attrlen : Z) : cres (sk_buff * Z) :=
  '(skb, nla) ← skb_put skb (nla_total_size attrlen);
  skb ← skb_write skb (nla + 2) (le16 (u16 attrtype));
  let len := u16 (nla_attr_size attrlen) in
  skb ← skb_write skb nla (le16 len);
  skb ← skb_write skb (nla + len) (replicate (Z.to_nat (nla_padlen attrlen)) 0);
  Ret (skb, nla).

Definition __nla_reserve_nohdr (skb : sk_buff) (attrlen : Z) : cres (sk_buff * Z) :=
  '(skb, start) ← skb_put skb (NLA_ALIGN attrlen);
  skb ← skb_write skb start (replicate (Z.to_nat (NLA_ALIGN attrlen)) 0);
  Ret (skb, start).

Definition nla_reserve (skb : sk_buff) (attrtype attrlen : Z) : cres (option (sk_buff * Z)) :=
  if skb_tailroom skb <? nla_total_size attrlen then Ret None
  else r ← __nla_reserve skb attrtype attrlen; Ret (Some r).

Definition nla_reserve_nohdr (skb : sk_buff) (attrlen : Z) : cres (option (sk_buff * Z)) :=
  if skb_tailroom skb <? NLA_ALIGN attrlen then Ret None
  else r ← __nla_reserve_nohdr skb attrlen; Ret (Some r).

(** [data] holds the [attrlen] bytes that are copied *)
Definition __nla_put (skb : sk_buff) (attrtype attrlen : Z) (data : list Z) : cres sk_buff :=
  '(skb, nla) ← __nla_reserve skb attrtype attrlen;
  bs ← array_read data 0 attrlen;
  skb_write skb (nla_data nla) bs.

Definition __nla_put_nohdr (skb : sk_buff) (attrlen : Z) (data : list Z) : cres sk_buff :=
  '(skb, start) ← __nla_reserve_nohdr skb attrlen;
  bs ← array_read data 0 attrlen;
  skb_write skb start bs.

Definition nla_put (skb : sk_buff) (attrtype attrlen : Z) (data : list Z) : cres sk_buff :=
  if skb_tailroom skb <? nla_total_size attrlen then Err EMSGSIZE
  else __nla_put skb attrtype attrlen data.

Definition nla_put_nohdr (skb : sk_buff) (attrlen : Z) (data : list Z) : cres sk_buff :=
  if skb_tailroom skb <? NLA_ALIGN attrlen then Err EMSGSIZE
  else __nla_put_nohdr skb attrlen data.

Definition nla_append (skb : sk_buff) (attrlen : Z) (data : list Z) : cres sk_buff :=
  if skb_tailroom skb <? NLA_ALIGN attrlen then Err EMSGSIZE else
  '(skb, p) ← skb_put skb attrlen;
  bs ← array_read data 0 attrlen;
  skb_write skb p bs.

(** ** Specification side *)

(** an attribute lies at [pos], with its whole length between [lo] and [lim] *)
Definition attr_at (mem : list Z) (lo lim pos : Z) : Prop :=
  lo ≤ pos ∧ ∃ l, get_nla_len mem pos = Ret l ∧ sizeof_nlattr ≤ l ∧ pos + l ≤ lim.

Definition policy_wf (maxtype : Z) (policy : list nla_policy) : Prop :=
  zlength policy = maxtype + 1 ∧
  Forall (λ p, 0 ≤ pol_type p ≤ NLA_TYPE_MAX ∧ is_u16 (pol_len p)) policy.

(** the bytes of one attribute *)
Definition attr_bytes (t : Z) (d : list Z) : list Z :=
  le16 (nla_attr_size (zlength d)) ++ le16 t ++ d
  ++ replicate (Z.to_nat (nla_padlen (zlength d))) 0.

Fixpoint nla_put_all (skb : sk_buff) (attrs : list (Z * list Z)) : cres sk_buff :=
  match attrs with
  | [] => Ret skb
  | (t, d) :: attrs' =>
      skb ← nla_put skb t (zlength d) d; nla_put_all skb attrs'
  end.

(** position of the first attribute of type [t] when the stream starts at [pos] *)
Fixpoint first_attr (pos : Z) (attrs : list (Z * list Z)) (t : Z) : option (Z * list Z) :=
  match attrs with
  | [] => None
  | (t', d) :: attrs' =>
      if t' =? t then Some (pos, d)
      else first_attr (pos + nla_total_size (zlength d)) attrs' t
  end.

(** ** Lemmas *)

Lemma NLA_ALIGN_eq x : NLA_ALIGN x = 4 * ((x + 3) `div` 4).
Proof.
  unfold NLA_ALIGN, NLA_ALIGNTO. replace (x + 4 - 1) with (x + 3) by lia.
  change (4 - 1) with (Z.ones 2). rewrite <- Z.ldiff_land, Z.ldiff_ones_r by lia.
  rewrite Z.shiftl_mul_pow2, Z.shiftr_div_pow2 by lia. change (2 ^ 2) with 4. lia.
Qed.

Lemma NLA_ALIGN_bounds x : x ≤ NLA_ALIGN x < x + 4.
Proof. rewrite NLA_ALIGN_eq. pose proof (Z.div_mod (x + 3) 4). pose proof (Z.mod_pos_bound (x + 3) 4). lia. Qed.

Lemma load_le16_in mem off :
  Forall is_u8 mem → 0 ≤ off → off + 2 ≤ zlength mem →
  ∃ v, load_le16 mem off = Ret v ∧ is_u16 v.
Proof.
  intros Hb Ho Hl. unfold load_le16. rewrite array_read_in by lia. simpl.
  pose proof (length_slice mem off 2 Ho ltac:(lia) Hl) as Hlen.
  assert (Forall is_u8 (slice off 2 mem)) as Hs by (by apply Forall_take, Forall_drop).
  destruct (slice off 2 mem) as [|a [|b [|c l]]]; unfold zlength in Hlen; simpl in Hlen; try lia.
  exists (a + 256 * b). split; [done|].
  inversion Hs as [|?? Ha Hs']; subst. inversion Hs' as [|?? Hb' _]; subst.
  unfold is_u8, is_u16 in *. lia.
Qed.

(** the loop rule: [I] holds of the loop state at every attribute reached *)
Lemma nla_for_each_rule {S R} (mem : list Z) (lo lim : Z) (body : Z → S → cres (loop S R)) (fin : S → R)
    (I : S → Prop) (Q : R → Prop) (E : Z → Prop) :
  Forall is_u8 mem → 0 ≤ lo → lim ≤ zlength mem →
  (∀ pos s, attr_at mem lo lim pos → I s →
     match body pos s with
     | Ret (Next s') => I s' | Ret (Break r) => Q r | Err e => E e | UB => False end) →
  (∀ s, I s → Q (fin s)) →
  ∀ fuel pos rem s, lo ≤ pos → pos + rem = lim → (Z.to_nat rem < fuel)%nat → I s →
  match nla_for_each_attr fuel mem pos rem body fin s with
  | Ret r => Q r | Err e => E e | UB => False end.
Proof.
  intros Hb Hlo Hlim Hbody Hfin fuel. induction fuel as [|fuel IH]; intros pos rem s Hp Hr Hf Hs; [lia|].
  simpl. unfold nla_ok. rewrite Z.geb_leb.
  destruct (Z.leb_spec sizeof_nlattr rem) as [Hrem|Hrem]; simpl; [|by apply Hfin].
  unfold sizeof_nlattr in Hrem.
  destruct (load_le16_in mem pos Hb ltac:(lia) ltac:(lia)) as (l & Hl & Hlr).
  unfold nla_next, get_nla_len. rewrite Hl. simpl. rewrite Z.geb_leb.
  destruct ((sizeof_nlattr <=? l) && (l <=? rem)) eqn:Eok; [|by apply Hfin].
  bprop. assert (attr_at mem lo lim pos) as Hat by (split; [done|]; exists l; split_and!; [exact Hl|lia|lia]).
  specialize (Hbody pos s Hat Hs). destruct (body pos s) as [[s'|r]| |]; try done.
  simpl. pose proof (NLA_ALIGN_bounds l). unfold sizeof_nlattr in *. apply IH; try done; lia.
Qed.

Lemma attr_at_fields mem lo lim pos :
  Forall is_u8 mem → 0 ≤ lo → lim ≤ zlength mem → attr_at mem lo lim pos →
  ∃ l t, get_nla_len mem pos = Ret l ∧ sizeof_nlattr ≤ l ≤ 65535 ∧ pos + l ≤ lim ∧
         nla_type mem pos = Ret t ∧ is_u16 t.
Proof.
  intros Hb Hlo Hlim (Hp & l & Hl & Hge & Hle). unfold sizeof_nlattr in *.
  destruct (load_le16_in mem pos Hb ltac:(lia) ltac:(lia)) as (l' & Hl' & Hr).
  unfold get_nla_len in *. rewrite Hl in Hl'. simplify_eq.
  destruct (load_le16_in mem (pos + 2) Hb ltac:(lia) ltac:(lia)) as (t & Ht & Htr).
  exists l', (Z.land t NLA_TYPE_MASK). unfold nla_type, get_nla_type. rewrite Ht.
  unfold is_u16 in *. split_and!; try done; try lia; apply (land_bound 16); lia.
Qed.

Lemma validate_string_safe mem lim pos l pt :
  Forall is_u8 mem → lim ≤ zlength mem → 0 ≤ pos → pos + l ≤ lim →
  safe (validate_string mem pos (l - NLA_HDRLEN) pt).
Proof.
  intros Hb Hlim Hp Hl. unfold safe, validate_string. case_test; [done|].
  case_test; [|done]. bprop. change NLA_HDRLEN with 4 in *.
  destruct (array_get_in mem (nla_data pos + (l - 4 - 1))) as (c & Hc & _).
  { unfold nla_data. change NLA_HDRLEN with 4. lia. }
  rewrite Hc. simpl. by repeat case_test.
Qed.

(** the policy check never reads outside the attribute *)
Lemma validate_nla_safe mem lo lim pos maxtype policy :
  Forall is_u8 mem → 0 ≤ lo → lim ≤ zlength mem → attr_at mem lo lim pos → policy_wf maxtype policy →
  safe (validate_nla mem pos maxtype policy).
Proof.
  intros Hb Hlo Hlim Hat [Hpl Hpol].
  destruct (attr_at_fields mem lo lim pos Hb Hlo Hlim Hat) as (l & t & Hl & Hlr & Hend & Ht & Htr).
  assert (0 ≤ pos) as Hp by (destruct Hat; lia). unfold safe, validate_nla, nla_len. rewrite Hl, Ht. simpl.
  destruct ((t <=? 0) || (t >? maxtype)) eqn:Et; [done|]. bprop.
  destruct (array_get_in policy t ltac:(lia)) as (pt & Hpt & Hlk). rewrite Hpt. simpl.
  assert (0 ≤ pol_type pt ≤ NLA_TYPE_MAX ∧ is_u16 (pol_len pt)) as [Hty Hln].
  { apply (Forall_zlookup _ _ _ _ Hpol Hlk). }
  unfold NLA_TYPE_MAX in *. destruct (pol_type pt >? 11) eqn:E11; [bprop; lia|].
  pose proof (validate_string_safe mem lim pos l pt Hb Hlim Hp Hend) as Hstr.
  unfold sizeof_nlattr in *. change NLA_HDRLEN with 4 in *.
  assert (∀ A (k : Z → cres A), (∀ m, k m ≠ UB) →
    mbind k (if truth (pol_len pt) then Ret (pol_len pt)
              else if negb (pol_type pt =? NLA_UNSPEC)
                   then array_get nla_attr_minlen (pol_type pt) else Ret 0) ≠ UB) as Hdef.
  { intros A k Hk. case_test; [apply Hk|]. case_test; [|apply Hk].
    destruct (array_get_in nla_attr_minlen (pol_type pt)) as (m & -> & _);
      [unfold zlength; simpl; lia|apply Hk]. }
  assert (∀ m : Z, (if l - 4 <? m then Err ERANGE else Ret tt) ≠ UB) as Hk by (intros; by case_test).
  case_test; [by case_test|]. case_test.
  { set (ml := if truth (pol_len pt) then Z.min _ _ else _).
    destruct (ml =? 0); [done|]. unfold memchr0.
    assert (0 ≤ ml ≤ l - 4). { unfold ml, is_u16 in *. case_test; lia. }
    rewrite array_read_in by (unfold nla_data; change NLA_HDRLEN with 4; lia). simpl.
    by case_test. }
  case_test; [done|]. case_test; [by case_test|]. case_test.
  { case_test; [done|]. case_test; [done|]. case_test; [done|]. bprop.
    pose proof (NLA_ALIGN_bounds (pol_len pt)). unfold is_u16 in *.
    destruct (load_le16_in mem (nla_data pos + NLA_ALIGN (pol_len pt)) Hb) as (v & Hv & _);
      [unfold nla_data; change NLA_HDRLEN with 4; lia..|].
    unfold nla_len, get_nla_len. rewrite Hv. simpl. by case_test. }
  case_test; [case_test; [done|]|]; by apply Hdef.
Qed.

(** looking for an attribute inside the buffer always gives an answer *)
Lemma nla_find_in mem head len t :
  Forall is_u8 mem → 0 ≤ head → head + len ≤ zlength mem →
  ∃ r, nla_find mem head len t = Ret r.
Proof.
  intros Hb Hh Hlim.
  assert (match nla_find mem head len t with
          | Ret _ => True | Err _ => False | UB => False end) as Hr.
  { apply (nla_for_each_rule mem head (head + len) _ _ (λ _, True) (λ _, True) (λ _, False) Hb Hh Hlim);
      unfold nla_fuel; try done; [|lia].
    intros pos s Hat _.
    destruct (attr_at_fields mem head (head + len) pos Hb Hh Hlim Hat) as (l & ty & _ & _ & _ & -> & _).
    simpl. by case_test. }
  destruct (nla_find mem head len t); naive_solver.
Qed.

(** *** Encoding *)

Lemma split_len {A} (l : list A) n :
  0 ≤ n ≤ zlength l → ∃ b c, l = b ++ c ∧ zlength b = n.
Proof.
  intros Hn. exists (take (Z.to_nat n) l), (drop (Z.to_nat n) l).
  split; [by rewrite take_drop|]. unfold zlength in *. rewrite length_take. lia.
Qed.

Lemma zlength_le16 v : zlength (le16 v) = 2.
Proof. done. Qed.

Lemma nla_padlen_bounds n : 0 ≤ nla_padlen n < 4.
Proof.
  unfold nla_padlen, nla_total_size. pose proof (NLA_ALIGN_bounds (nla_attr_size n)). lia.
Qed.

Lemma skb_lin_split skb :
  0 ≤ skb_tail skb ≤ zlength (skb_head skb) →
  ∃ room, skb_head skb = skb_lin skb ++ room ∧ zlength room = zlength (skb_head skb) - skb_tail skb.
Proof.
  intros Ht. exists (drop (Z.to_nat (skb_tail skb)) (skb_head skb)). unfold skb_lin.
  split; [by rewrite take_drop|]. unfold zlength in *. rewrite length_drop. lia.
Qed.

(** the buffer can be appended to *)
Definition skb_room_ok (skb : sk_buff) : Prop :=
  data_len skb = 0 ∧ 0 ≤ skb_tail skb ≤ zlength (skb_head skb).

Lemma skb_write_mid skb a b c bs off :
  skb_head skb = a ++ b ++ c → off = zlength a → zlength b = zlength bs →
  ∃ skb', skb_write skb off bs = Ret skb' ∧ skb_head skb' = a ++ bs ++ c ∧
    skb_tail skb' = skb_tail skb ∧ data_len skb' = data_len skb.
Proof.
  intros Hh Ho Hl. unfold skb_write. rewrite Hh, array_write_mid by done.
  eexists. split; [reflexivity|done].
Qed.

(** [nla_put] appends exactly the bytes of the attribute *)
Lemma nla_put_append skb t d :
  skb_room_ok skb → nla_attr_size (zlength d) ≤ 65535 → is_u16 t →
  nla_total_size (zlength d) ≤ zlength (skb_head skb) - skb_tail skb →
  ∃ skb', nla_put skb t (zlength d) d = Ret skb' ∧ skb_room_ok skb' ∧
    zlength (skb_head skb') = zlength (skb_head skb) ∧
    skb_tail skb' = skb_tail skb + nla_total_size (zlength d) ∧
    skb_lin skb' = skb_lin skb ++ attr_bytes t d.
Proof.
  intros [Hdl Ht] Hsz Hty Hroom.
  destruct (skb_lin_split skb Ht) as (room & Hhd & Hrl).
  pose proof (nla_padlen_bounds (zlength d)) as Hpad. pose proof (zlength_nonneg d).
  assert (nla_total_size (zlength d) = 4 + zlength d + nla_padlen (zlength d)) as Htot.
  { unfold nla_padlen, nla_attr_size. change NLA_HDRLEN with 4. lia. }
  unfold nla_attr_size in Hsz. change NLA_HDRLEN with 4 in Hsz.
  destruct (split_len room 2 ltac:(lia)) as (b1 & r1 & -> & Hb1). rewrite zlength_app in Hrl.
  destruct (split_len r1 2 ltac:(lia)) as (b2 & r2 & -> & Hb2). rewrite zlength_app in Hrl.
  destruct (split_len r2 (zlength d) ltac:(lia)) as (b3 & r3 & -> & Hb3). rewrite zlength_app in Hrl.
  destruct (split_len r3 (nla_padlen (zlength d)) ltac:(lia)) as (b4 & r4 & -> & Hb4).
  pose proof (zlength_lin skb Ht) as Hlin. set (L := skb_lin skb) in *.
  set (hl := le16 (nla_attr_size (zlength d))). set (ht := le16 t).
  set (pad := replicate (Z.to_nat (nla_padlen (zlength d))) 0).
  assert (zlength hl = 2 ∧ zlength ht = 2 ∧ zlength pad = nla_padlen (zlength d)) as (Hhl & Hht & Hpl).
  { split_and!; try done. unfold pad. by rewrite zlength_replicate by lia. }
  assert (skb_is_nonlinear skb = false) as Hnl by (unfold skb_is_nonlinear; by rewrite Hdl).
  unfold nla_put, skb_tailroom. rewrite Hnl, (proj2 (Z.ltb_ge _ _)) by lia.
  unfold __nla_put, __nla_reserve, skb_put. rewrite Hnl, Z.gtb_ltb, (proj2 (Z.ltb_ge _ _)) by lia.
  cbn [mbind cres_bind].
  set (s0 := skb_set_buf skb _ _ _).
  rewrite (u16_id t), (u16_id (nla_attr_size _))
    by (unfold is_u16, nla_attr_size in *; change NLA_HDRLEN with 4; lia).
  fold hl ht pad.
  destruct (skb_write_mid s0 (L ++ b1) b2 (b3 ++ b4 ++ r4) ht (skb_tail skb + 2))
    as (s1 & -> & Hh1 & Ht1 & Hd1);
    [by rewrite <- app_assoc|rewrite zlength_app; lia|lia|]. cbn [mbind cres_bind].
  destruct (skb_write_mid s1 L b1 (ht ++ b3 ++ b4 ++ r4) hl (skb_tail skb))
    as (s2 & -> & Hh2 & Ht2 & Hd2);
    [by rewrite Hh1, <- app_assoc|lia|lia|]. cbn [mbind cres_bind].
  destruct (skb_write_mid s2 (L ++ hl ++ ht ++ b3) b4 r4 pad (skb_tail skb + nla_attr_size (zlength d)))
    as (s3 & -> & Hh3 & Ht3 & Hd3);
    [by rewrite Hh2, <- !app_assoc
    |rewrite !zlength_app; unfold nla_attr_size; change NLA_HDRLEN with 4; lia|lia|].
  cbn [mbind cres_bind]. rewrite array_read_in by lia. cbn [mbind cres_bind].
  assert (slice 0 (zlength d) d = d) as ->.
  { unfold slice, zlength. rewrite drop_0. apply take_ge. lia. }
  destruct (skb_write_mid s3 (L ++ hl ++ ht) b3 (pad ++ r4) d (nla_data (skb_tail skb)))
    as (s4 & -> & Hh4 & Ht4 & Hd4);
    [by rewrite Hh3, <- !app_assoc
    |rewrite !zlength_app; unfold nla_data; change NLA_HDRLEN with 4; lia|lia|].
  assert (skb_tail s0 = skb_tail skb + nla_total_size (zlength d)) as Ht0 by done.
  assert (data_len s0 = data_len skb) as Hd0 by done.
  assert (zlength (skb_head s4) = zlength (skb_head skb)) as Hzl.
  { rewrite Hh4, Hhd, !zlength_app. rewrite zlength_app in Hrl. lia. }
  exists s4. unfold skb_room_ok. split_and!; try done; try lia.
  unfold skb_lin at 1. rewrite Hh4.
  replace ((L ++ hl ++ ht) ++ d ++ pad ++ r4) with ((L ++ attr_bytes t d) ++ r4)
    by (unfold attr_bytes; fold hl ht pad; by rewrite <- !app_assoc).
  apply take_app_length'. apply Nat2Z.inj. change (Z.of_nat (length ?l)) with (zlength l).
  unfold attr_bytes. fold hl ht pad. rewrite !zlength_app. lia.
Qed.

(** *** Decoding what was encoded *)

(** attributes as the callers make them: the type leaves the two flag bits
    clear, and the length fits the 16-bit header field *)
Definition attr_wf (a : Z * list Z) : Prop :=
  0 ≤ a.1 < 2 ^ 14 ∧ nla_attr_size (zlength a.2) ≤ 65535 ∧ Forall is_u8 a.2.

Definition stream_bytes (attrs : list (Z * list Z)) : list Z :=
  concat (map (λ a, attr_bytes a.1 a.2) attrs).

Lemma load_le16_mid (a c : list Z) v off :
  off = zlength a → is_u16 v → load_le16 (a ++ le16 v ++ c) off = Ret v.
Proof.
  intros Ho Hv. unfold load_le16. rewrite array_read_mid by done. simpl. f_equal.
  change 255 with (Z.ones 8). rewrite !Z.land_ones, Z.shiftr_div_pow2 by lia.
  unfold is_u16 in Hv. rewrite (Z.mod_small (v / 2 ^ 8))
    by (split; [apply Z.div_pos; lia|apply Z.div_lt_upper_bound; lia]).
  change (2 ^ 8) with 256. pose proof (Z.div_mod v 256). lia.
Qed.

Lemma type_mask_id t : 0 ≤ t < 2 ^ 14 → Z.land t NLA_TYPE_MASK = t.
Proof.
  intros Ht. apply Z.bits_inj'. intros i Hi. rewrite Z.land_spec.
  destruct (Z.lt_ge_cases i 14).
  - unfold NLA_TYPE_MASK. rewrite Z.lnot_spec by lia.
    change (Z.lor NLA_F_NESTED NLA_F_NET_BYTEORDER) with (3 * 2 ^ 14).
    rewrite Z.mul_pow2_bits_low by lia. by rewrite andb_true_r.
  - by rewrite (bits_above 14 t i).
Qed.

Lemma zlength_attr_bytes t d : zlength (attr_bytes t d) = nla_total_size (zlength d).
Proof.
  pose proof (nla_padlen_bounds (zlength d)). unfold attr_bytes.
  rewrite !zlength_app, zlength_replicate by lia. rewrite !zlength_le16.
  unfold nla_padlen, nla_attr_size in *. change NLA_HDRLEN with 4. lia.
Qed.

Lemma attr_header (pre post : list Z) a :
  attr_wf a →
  get_nla_len (pre ++ attr_bytes a.1 a.2 ++ post) (zlength pre) = Ret (nla_attr_size (zlength a.2)) ∧
  nla_type (pre ++ attr_bytes a.1 a.2 ++ post) (zlength pre) = Ret a.1 ∧
  array_read (pre ++ attr_bytes a.1 a.2 ++ post) (nla_data (zlength pre)) (zlength a.2) = Ret a.2.
Proof.
  destruct a as [t d]. intros (Ht & Hl & _). cbn [fst snd] in *. pose proof (zlength_nonneg d).
  unfold attr_bytes. set (hl := le16 (nla_attr_size _)). set (pad := replicate _ 0).
  assert (is_u16 (nla_attr_size (zlength d))).
  { unfold is_u16, nla_attr_size in *. change NLA_HDRLEN with 4 in *. lia. }
  split_and!.
  - rewrite <- app_assoc. by apply load_le16_mid.
  - unfold nla_type, get_nla_type.
    replace (pre ++ (hl ++ le16 t ++ d ++ pad) ++ post)
      with ((pre ++ hl) ++ le16 t ++ (d ++ pad ++ post)) by (by rewrite <- !app_assoc).
    rewrite load_le16_mid; [|by rewrite zlength_app|unfold is_u16; lia].
    simpl. by rewrite type_mask_id.
  - replace (pre ++ (hl ++ le16 t ++ d ++ pad) ++ post)
      with ((pre ++ hl ++ le16 t) ++ d ++ (pad ++ post)) by (by rewrite <- !app_assoc).
    apply array_read_mid; [|done]. rewrite !zlength_app. change (zlength hl) with 2.
    rewrite zlength_le16. unfold nla_data. change NLA_HDRLEN with 4. lia.
Qed.

Lemma find_encoded attrs : ∀ fuel pre post t,
  Forall attr_wf attrs → (Z.to_nat (zlength (stream_bytes attrs)) < fuel)%nat →
  nla_for_each_attr fuel (pre ++ stream_bytes attrs ++ post) (zlength pre)
    (zlength (stream_bytes attrs))
    (λ nla (_ : unit),
       ty ← nla_type (pre ++ stream_bytes attrs ++ post) nla;
       if ty =? t then Ret (Break (Some nla)) else Ret (Next tt))
    (λ _, None) tt = Ret (fst <$> first_attr (zlength pre) attrs t).
Proof.
  induction attrs as [|a attrs IH]; intros fuel pre post t Hwf Hf; (destruct fuel; [simpl in Hf; lia|]).
  { done. }
  apply Forall_cons in Hwf as [Ha Hwf].
  change (stream_bytes (a :: attrs)) with (attr_bytes a.1 a.2 ++ stream_bytes attrs) in *.
  rewrite <- app_assoc.
  destruct (attr_header pre (stream_bytes attrs ++ post) a Ha) as (Hl & Ht & _).
  pose proof (zlength_nonneg (stream_bytes attrs)). pose proof (zlength_nonneg a.2).
  assert (nla_attr_size (zlength a.2) ≤ nla_total_size (zlength a.2)) as Hle
    by apply NLA_ALIGN_bounds.
  assert (4 ≤ nla_attr_size (zlength a.2)) by (unfold nla_attr_size; change NLA_HDRLEN with 4; lia).
  rewrite zlength_app, zlength_attr_bytes in *.
  cbn [nla_for_each_attr]. unfold nla_ok, nla_next, sizeof_nlattr.
  rewrite Z.geb_leb, (proj2 (Z.leb_le _ _)) by lia. rewrite Hl. cbn [mbind cres_bind].
  rewrite Z.geb_leb, !(proj2 (Z.leb_le _ _)) by lia. cbn [andb]. rewrite Ht. cbn [mbind cres_bind].
  destruct a as [ta da]; cbn [fst snd first_attr] in *. destruct (Z.eqb_spec ta t) as [->|Hne]; [done|].
  cbn [mbind cres_bind]. fold (nla_total_size (zlength da)).
  replace (nla_total_size (zlength da) + zlength (stream_bytes attrs) - nla_total_size (zlength da))
    with (zlength (stream_bytes attrs)) by lia.
  specialize (IH fuel (pre ++ attr_bytes ta da) post t Hwf ltac:(lia)).
  rewrite zlength_app, zlength_attr_bytes in IH. rewrite <- app_assoc in IH. exact IH.
Qed.

Lemma put_all_append attrs : ∀ skb,
  skb_room_ok skb → Forall attr_wf attrs →
  zlength (stream_bytes attrs) ≤ zlength (skb_head skb) - skb_tail skb →
  ∃ skb', nla_put_all skb attrs = Ret skb' ∧ skb_room_ok skb' ∧
    skb_lin skb' = skb_lin skb ++ stream_bytes attrs.
Proof.
  induction attrs as [|[t d] attrs IH]; intros skb Hok Hwf Hroom.
  { exists skb. split_and!; try done. unfold stream_bytes. simpl. by rewrite app_nil_r. }
  apply Forall_cons in Hwf as [(Ht & Hl & Hb) Hwf]. simpl in *.
  change (stream_bytes ((t, d) :: attrs)) with (attr_bytes t d ++ stream_bytes attrs) in *.
  rewrite zlength_app, zlength_attr_bytes in Hroom. pose proof (zlength_nonneg (stream_bytes attrs)).
  destruct (nla_put_append skb t d) as (s1 & -> & Hok1 & Hz1 & Ht1 & Hl1);
    [done|done|unfold is_u16; lia|lia|]. simpl.
  destruct (IH s1 Hok1 Hwf ltac:(lia)) as (s2 & Hp & Hok2 & Hl2).
  exists s2. split_and!; try done. by rewrite Hl2, Hl1, <- app_assoc.
Qed.

Lemma first_attr_payload attrs : ∀ pre post t pos d,
  Forall attr_wf attrs → first_attr (zlength pre) attrs t = Some (pos, d) →
  array_read (pre ++ stream_bytes attrs ++ post) (nla_data pos) (zlength d) = Ret d.
Proof.
  induction attrs as [|a attrs IH]; intros pre post t pos d Hwf; [done|].
  apply Forall_cons in Hwf as [Ha Hwf].
  change (stream_bytes (a :: attrs)) with (attr_bytes a.1 a.2 ++ stream_bytes attrs).
  rewrite <- app_assoc. destruct a as [ta da]. simpl. case_test.
  - intros [= <- <-]. apply (attr_header pre _ (ta, da) Ha).
  - intros Hf. specialize (IH (pre ++ attr_bytes ta da) post t pos d Hwf).
    rewrite zlength_app, zlength_attr_bytes, <- app_assoc in IH. by apply IH.
Qed.

(** the empty stream and the attributes in one round trip *)
Definition found (skb : sk_buff) (pos0 t : Z) (attrs : list (Z * list Z)) : Prop :=
  nla_find (skb_lin skb) pos0 (skb_tail skb - pos0) t = Ret (fst <$> first_attr pos0 attrs t) ∧
  ∀ pos d, first_attr pos0 attrs t = Some (pos, d) →
    array_read (skb_lin skb) (nla_data pos) (zlength d) = Ret d.

(** ** Properties *)

(** C39: parsing an arbitrary byte stream against a well-formed policy is safe
    and terminates; on success the table has one entry per type, and every
    attribute it holds lies inside the stream, has the type it is filed under
    and passed its policy. *)
Theorem nla_parse_safe mem head len maxtype policy :
  Forall is_u8 mem → 0 ≤ head → head + len ≤ zlength mem →
  0 ≤ maxtype < 2 ^ 14 → policy_wf maxtype policy →
  nla_parse maxtype mem head len (Some policy) ≠ UB ∧
  ∀ tb, nla_parse maxtype mem head len (Some policy) = Ret tb →
    zlength tb = maxtype + 1 ∧
    ∀ t nla, zlookup tb t = Some (Some nla) →
      attr_at mem head (head + len) nla ∧ nla_type mem nla = Ret t ∧
      validate_nla mem nla maxtype policy = Ret tt.
Proof.
  intros Hb Hh Hlim Hmax Hpol.
  set (I := λ tb : list (option Z), zlength tb = maxtype + 1 ∧
    ∀ t nla, zlookup tb t = Some (Some nla) →
      attr_at mem head (head + len) nla ∧ nla_type mem nla = Ret t ∧
      validate_nla mem nla maxtype policy = Ret tt).
  assert (match nla_parse maxtype mem head len (Some policy) with
          | Ret tb => I tb | Err _ => True | UB => False end) as Hall.
  2: { destruct (nla_parse maxtype mem head len (Some policy)); try done.
       split; [done|]. intros ? [= <-]. done. }
  apply (nla_for_each_rule mem head (head + len) _ _ I I (λ _, True) Hb Hh Hlim); unfold nla_fuel; try done; [|lia|].
  - intros pos tb Hat [Hlen Htb].
    destruct (attr_at_fields mem head (head + len) pos Hb Hh Hlim Hat) as (l & t & _ & _ & _ & Ht & Htr).
    rewrite Ht. simpl. rewrite u16_id by done. rewrite Z.gtb_ltb.
    destruct ((0 <? t) && (t <=? maxtype)) eqn:E; [|done]. bprop.
    pose proof (validate_nla_safe mem head (head + len) pos maxtype policy Hb Hh Hlim Hat Hpol) as Hv.
    destruct (validate_nla mem pos maxtype policy) as [[]| |] eqn:Ev; try done. simpl.
    rewrite array_set_in by lia. simpl. split; [by rewrite zlength_insert|].
    intros t' nla. destruct (decide (t = t')) as [<-|Hne].
    + rewrite zlookup_insert_eq by lia. intros [= <-]. done.
    + rewrite zlookup_insert_ne by lia. apply Htb.
  - split.
    + unfold zlength. rewrite length_replicate. lia.
    + intros t nla. unfold zlookup. case_test; [|done].
      intros [? _]%lookup_replicate. done.
Qed.

(** C40: attributes written one after the other with [nla_put] into a buffer
    with enough tailroom are all stored, and [nla_find] on the bytes written
    returns the first attribute of the requested type, whose payload is the
    data that was put (or nothing if no such attribute was put). *)
Theorem nla_put_find skb attrs :
  skb_room_ok skb → Forall attr_wf attrs →
  zlength (stream_bytes attrs) ≤ skb_tailroom skb →
  ∃ skb', nla_put_all skb attrs = Ret skb' ∧ ∀ t, found skb' (skb_tail skb) t attrs.
Proof.
  intros Hok Hwf Hroom.
  assert (skb_is_nonlinear skb = false) as Hnl.
  { unfold skb_is_nonlinear. by rewrite (proj1 Hok). }
  unfold skb_tailroom in Hroom. rewrite Hnl in Hroom.
  destruct (put_all_append attrs skb Hok Hwf Hroom) as (s & Hp & Hok' & Hl).
  exists s. split; [done|]. intros t.
  pose proof (zlength_lin skb (proj2 Hok)) as Hz. pose proof (zlength_lin s (proj2 Hok')) as Hz'.
  assert (skb_tail s - skb_tail skb = zlength (stream_bytes attrs)) as Hd.
  { rewrite <- Hz, <- Hz', Hl, zlength_app. lia. }
  unfold found. rewrite Hd, <- Hz, Hl.
  assert (skb_lin skb ++ stream_bytes attrs = skb_lin skb ++ stream_bytes attrs ++ []) as ->
    by (by rewrite app_nil_r). split.
  - unfold nla_find. rewrite find_encoded; [done|done|]. unfold nla_fuel. lia.
  - intros pos d. by apply first_attr_payload.
Qed.

(** ** Witnesses *)

Definition ex_stream : list Z := [8; 0; 1; 0; 7; 0; 0; 0; 5; 0; 2; 0; 9; 0; 0; 0].
Definition ex_policy : list nla_policy := [NlaPolicy 0 0; NlaPolicy 3 0; NlaPolicy 1 0].

Lemma nla_parse_safe_witness :
  nla_parse 2 ex_stream 0 16 (Some ex_policy) ≠ UB ∧
  ∀ tb, nla_parse 2 ex_stream 0 16 (Some ex_policy) = Ret tb →
    zlength tb = 2 + 1 ∧
    ∀ t nla, zlookup tb t = Some (Some nla) →
      attr_at ex_stream 0 (0 + 16) nla ∧ nla_type ex_stream nla = Ret t ∧
      validate_nla ex_stream nla 2 ex_policy = Ret tt.
Proof.
  apply (nla_parse_safe ex_stream 0 16 2 ex_policy).
  - repeat constructor; unfold is_u8; lia.
  - lia.
  - vm_compute. discriminate.
  - lia.
  - split; [reflexivity|]. repeat constructor; unfold is_u16, NLA_TYPE_MAX; simpl; lia.
Defined.

Example ex_parse : nla_parse 2 ex_stream 0 16 (Some ex_policy) = Ret [None; Some 0; Some 8].
Proof. vm_compute. reflexivity. Qed.

Definition ex_room : sk_buff := SkBuff (replicate 32 0) 0 4 4 0 0 0 8 0 None 0 0 0 [] [].

Lemma nla_put_find_witness :
  ∃ skb', nla_put_all ex_room [(1, [7; 7]); (2, [9])] = Ret skb' ∧
    ∀ t, found skb' (skb_tail ex_room) t [(1, [7; 7]); (2, [9])].
Proof.
  apply (nla_put_find ex_room [(1, [7; 7]); (2, [9])]).
  - split; vm_compute; split; discriminate || reflexivity.
  - repeat constructor; vm_compute; try split; discriminate || reflexivity.
  - vm_compute. discriminate.
Defined.

(** ** Comparisons *)
Lemma memcmp_eq cs ct : length cs = length ct → memcmp cs ct = 0 ↔ cs = ct.
Proof.
  revert ct. induction cs as [|a cs IH]; intros [|b ct] Hl; try done. cbn [memcmp]. unfold truth.
  destruct (Z.eqb_spec (a - b) 0) as [E|E]; cbn [negb]; [|split; [lia|intros [= ]; lia]].
  rewrite IH by (cbn in Hl; lia). replace b with a by lia. split; [by intros ->|by intros [= ]].
Qed.

(** the comparisons give 0 exactly when the payload is the given data *)
Lemma nla_memcmp_eq mem nla bs data :
  nla_len mem nla = Ret (zlength bs) → array_read mem (nla_data nla) (zlength bs) = Ret bs →
  zlength bs < 2 ^ 31 → zlength data < 2 ^ 31 → ∃ r, nla_memcmp mem nla data = Ret r ∧ (r = 0 ↔ bs = data).
Proof.
  intros El Er Hb Hd. pose proof (zlength_nonneg bs). pose proof (zlength_nonneg data).
  unfold nla_memcmp. rewrite El. cbn [mbind cres_bind]. rewrite s32_u32, s32_id by (unfold_ranges; lia).
  destruct (Z.eqb_spec (zlength bs - zlength data) 0) as [E|E].
  - replace (zlength data) with (zlength bs) by lia. rewrite Er. cbn [mbind cres_bind]. eexists. split; [reflexivity|].
    apply memcmp_eq. unfold zlength in *. lia.
  - eexists. split; [reflexivity|]. split; [done|]. intros ->. lia.
Qed.

Lemma nla_strcmp_eq mem nla bs str :
  nla_len mem nla = Ret (zlength bs) → array_read mem (nla_data nla) (zlength bs) = Ret bs →
  ∃ r, nla_strcmp mem nla str = Ret r ∧ (r = 0 ↔ bs = str ++ [0]).
Proof.
  intros El Er. unfold nla_strcmp. rewrite El. cbn [mbind cres_bind].
  assert (zlength (str ++ [0]) = zlength str + 1) as Hz by (rewrite zlength_app; done).
  destruct (Z.eqb_spec (zlength bs - (zlength str + 1)) 0) as [E|E].
  - replace (zlength str + 1) with (zlength bs) by lia. rewrite Er. cbn [mbind cres_bind]. eexists. split; [reflexivity|].
    apply memcmp_eq. unfold zlength in *. lia.
  - eexists. split; [reflexivity|]. split; [done|]. intros ->. lia.
Qed.
