(* ===== verification/MathLib.v ===== *)
(** * Arithmetic helpers of lib/

    [Reciprocal] models lib/reciprocal_div.c and its inline companion in
    include/linux/reciprocal_div.h, which the packet filter uses to turn a
    division by a constant into a multiplication. *)

From S2P Require Import Prelude.

Module Reciprocal.

(** [do_div(val, k)] divides the 64-bit [val] in place *)
Definition reciprocal_value (k : Z) : Z :=
  let val := u64 (Z.shiftl 1 32 + u32 (k - 1)) in
  u32 (val / k).

Definition reciprocal_divide (A R : Z) : Z :=
  u32 (Z.shiftr (u64 (A * R)) 32).

(** the exact quotient that [reciprocal_value] computes, before truncation *)
Lemma reciprocal_value_eq k :
  2 ≤ k < 2 ^ 32 → reciprocal_value k = (2 ^ 32 + (k - 1)) / k.
Proof.
  intros Hk. unfold reciprocal_value.
  rewrite (u32_id (k - 1)), u64_id by (unfold_ranges; change (Z.shiftl 1 32) with (2 ^ 32); lia).
  change (Z.shiftl 1 32) with (2 ^ 32). apply u32_id. unfold is_u32. split.
  - apply Z.div_pos; lia.
  - apply Z.div_lt_upper_bound; lia.
Qed.

Lemma reciprocal_divide_eq A R :
  is_u32 A → is_u32 R → reciprocal_divide A R = A * R / 2 ^ 32.
Proof.
  unfold is_u32. intros HA HR. unfold reciprocal_divide.
  rewrite u64_id by (unfold is_u64; nia). rewrite Z.shiftr_div_pow2 by lia.
  apply u32_id. unfold is_u32. split; [apply Z.div_pos; nia|apply Z.div_lt_upper_bound; nia].
Qed.

(** the error term: R k = 2^32 + e with 0 <= e < k *)
Lemma reciprocal_error k :
  2 ≤ k < 2 ^ 32 → ∃ e, 0 ≤ e < k ∧ reciprocal_value k * k = 2 ^ 32 + e.
Proof.
  intros Hk. rewrite reciprocal_value_eq by done.
  pose proof (Z.div_mod (2 ^ 32 + (k - 1)) k ltac:(lia)) as Hd.
  pose proof (Z.mod_pos_bound (2 ^ 32 + (k - 1)) k ltac:(lia)) as Hm.
  exists (k - 1 - (2 ^ 32 + (k - 1)) `mod` k). nia.
Qed.

Lemma reciprocal_value_u32 k : is_u32 (reciprocal_value k).
Proof. apply u32_range. Qed.

(** for a divisor [k >= 2] the reciprocal division is the quotient or one
    more than it, and it is exact as long as [A * k <= 2^32] (in particular
    when both fit in 16 bits). *)
Theorem reciprocal_divide_bounds A k :
  is_u32 A → 2 ≤ k < 2 ^ 32 →
  A / k ≤ reciprocal_divide A (reciprocal_value k) ≤ A / k + 1 ∧
  (A * k ≤ 2 ^ 32 → reciprocal_divide A (reciprocal_value k) = A / k).
Proof.
  intros HA Hk. rewrite reciprocal_divide_eq by (done || apply reciprocal_value_u32).
  destruct (reciprocal_error k Hk) as (e & He & HR). set (R := reciprocal_value k) in *.
  unfold is_u32 in HA.
  pose proof (Z.div_mod A k ltac:(lia)) as Hd. pose proof (Z.mod_pos_bound A k ltac:(lia)) as Hm.
  set (q := A / k) in *. set (r := A `mod` k) in *.
  assert (0 ≤ q) by (apply Z.div_pos; lia).
  pose proof (Z.div_mod (A * R) (2 ^ 32) ltac:(lia)) as Hd2.
  pose proof (Z.mod_pos_bound (A * R) (2 ^ 32) ltac:(lia)) as Hm2.
  set (p := A * R / 2 ^ 32) in *. set (s := (A * R) `mod` 2 ^ 32) in *.
  (* k * A * R = A * 2^32 + A * e *)
  assert (k * (2 ^ 32 * p + s) = A * 2 ^ 32 + A * e) as Hkey by nia.
  assert (q ≤ p) as Hlo by nia.
  split; [split; [done|nia]|]. intros HAk.
  assert (A * e < 2 ^ 32) by nia. nia.
Qed.

Lemma reciprocal_divide_bounds_witness :
  1000 / 7 ≤ reciprocal_divide 1000 (reciprocal_value 7) ≤ 1000 / 7 + 1 ∧
  (1000 * 7 ≤ 2 ^ 32 → reciprocal_divide 1000 (reciprocal_value 7) = 1000 / 7).
Proof. apply (reciprocal_divide_bounds 1000 7); [unfold is_u32; lia|lia]. Defined.

(** the reciprocal of 1 is 2^32, which does not fit: dividing by the constant
    1 gives 0 *)
Theorem reciprocal_one A : is_u32 A → reciprocal_divide A (reciprocal_value 1) = 0.
Proof. intros HA. change (reciprocal_value 1) with 0. unfold reciprocal_divide. by rewrite Z.mul_0_r. Qed.

End Reciprocal.
