(* ===== verification/Filter.v ===== *)
(** * The socket filter: checker and interpreter of classic BPF

    Models net/core/filter.c with the instruction format and the two opcode
    sets of include/linux/filter.h.  User space supplies instructions with
    BPF opcodes; [sk_chk_filter] rejects bad programs and rewrites the
    opcodes in place to the internal [BPF_S_*] numbers; [sk_run_filter]
    interprets the rewritten program on a packet without any further check.
    The interpreter here reports what C would leave undefined as a [fault]:
    an instruction fetch outside the program, an access outside the scratch
    array, a read of a scratch cell never written, a read outside the packet
    buffer.  [bpf_chk_run_safe] shows that the checker excludes the first
    three for every accepted program, and termination. *)

From S2P Require Import Prelude Skb Nlattr MathLib.
Import Reciprocal.

(** ** Instructions *)

Record sock_filter := SockFilter {
  code : Z;   (* u16 *)
  jt : Z;     (* u8 *)
  jf : Z;     (* u8 *)
  k : Z       (* u32 *)
}.

(** instruction classes, sizes, modes and operations *)
Definition BPF_LD : Z := 0.
Definition BPF_LDX : Z := 1.
Definition BPF_ST : Z := 2.
Definition BPF_STX : Z := 3.
Definition BPF_ALU : Z := 4.
Definition BPF_JMP : Z := 5.
Definition BPF_RET : Z := 6.
Definition BPF_MISC : Z := 7.
Definition BPF_W : Z := 0.
Definition BPF_H : Z := 8.
Definition BPF_B : Z := 16.
Definition BPF_IMM : Z := 0.
Definition BPF_ABS : Z := 32.
Definition BPF_IND : Z := 64.
Definition BPF_MEM : Z := 96.
Definition BPF_LEN : Z := 128.
Definition BPF_MSH : Z := 160.
Definition BPF_ADD : Z := 0.
Definition BPF_SUB : Z := 16.
Definition BPF_MUL : Z := 32.
Definition BPF_DIV : Z := 48.
Definition BPF_OR : Z := 64.
Definition BPF_AND : Z := 80.
Definition BPF_LSH : Z := 96.
Definition BPF_RSH : Z := 112.
Definition BPF_NEG : Z := 128.
Definition BPF_JA : Z := 0.
Definition BPF_JEQ : Z := 16.
Definition BPF_JGT : Z := 32.
Definition BPF_JGE : Z := 48.
Definition BPF_JSET : Z := 64.
Definition BPF_K : Z := 0.
Definition BPF_X : Z := 8.
Definition BPF_A : Z := 16.
Definition BPF_TAX : Z := 0.
Definition BPF_TXA : Z := 128.
Definition BPF_MAXINSNS : Z := 4096.
Definition BPF_MEMWORDS : Z := 16.

Definition SKF_AD_OFF : Z := -4096.
Definition SKF_AD_PROTOCOL : Z := 0.
Definition SKF_AD_PKTTYPE : Z := 4.
Definition SKF_AD_IFINDEX : Z := 8.
Definition SKF_AD_NLATTR : Z := 12.
Definition SKF_AD_NLATTR_NEST : Z := 16.
Definition SKF_AD_MARK : Z := 20.
Definition SKF_AD_QUEUE : Z := 24.
Definition SKF_AD_HATYPE : Z := 28.
Definition SKF_AD_RXHASH : Z := 32.
Definition SKF_AD_CPU : Z := 36.
Definition SKF_NET_OFF : Z := -1048576.
Definition SKF_LL_OFF : Z := -2097152.

(** the internal opcodes, an enum that starts at 1 *)
Inductive bpf_s :=
  | BPF_S_RET_K | BPF_S_RET_A
  | BPF_S_ALU_ADD_K | BPF_S_ALU_ADD_X | BPF_S_ALU_SUB_K | BPF_S_ALU_SUB_X
  | BPF_S_ALU_MUL_K | BPF_S_ALU_MUL_X | BPF_S_ALU_DIV_X
  | BPF_S_ALU_AND_K | BPF_S_ALU_AND_X | BPF_S_ALU_OR_K | BPF_S_ALU_OR_X
  | BPF_S_ALU_LSH_K | BPF_S_ALU_LSH_X | BPF_S_ALU_RSH_K | BPF_S_ALU_RSH_X
  | BPF_S_ALU_NEG
  | BPF_S_LD_W_ABS | BPF_S_LD_H_ABS | BPF_S_LD_B_ABS | BPF_S_LD_W_LEN
  | BPF_S_LD_W_IND | BPF_S_LD_H_IND | BPF_S_LD_B_IND | BPF_S_LD_IMM
  | BPF_S_LDX_W_LEN | BPF_S_LDX_B_MSH | BPF_S_LDX_IMM
  | BPF_S_MISC_TAX | BPF_S_MISC_TXA | BPF_S_ALU_DIV_K
  | BPF_S_LD_MEM | BPF_S_LDX_MEM | BPF_S_ST | BPF_S_STX
  | BPF_S_JMP_JA | BPF_S_JMP_JEQ_K | BPF_S_JMP_JEQ_X
  | BPF_S_JMP_JGE_K | BPF_S_JMP_JGE_X | BPF_S_JMP_JGT_K | BPF_S_JMP_JGT_X
  | BPF_S_JMP_JSET_K | BPF_S_JMP_JSET_X
  | BPF_S_ANC_PROTOCOL | BPF_S_ANC_PKTTYPE | BPF_S_ANC_IFINDEX
  | BPF_S_ANC_NLATTR | BPF_S_ANC_NLATTR_NEST | BPF_S_ANC_MARK | BPF_S_ANC_QUEUE
  | BPF_S_ANC_HATYPE | BPF_S_ANC_RXHASH | BPF_S_ANC_CPU.

Definition bpf_s_enum : list bpf_s :=
  [BPF_S_RET_K; BPF_S_RET_A;
   BPF_S_ALU_ADD_K; BPF_S_ALU_ADD_X; BPF_S_ALU_SUB_K; BPF_S_ALU_SUB_X;
   BPF_S_ALU_MUL_K; BPF_S_ALU_MUL_X; BPF_S_ALU_DIV_X;
   BPF_S_ALU_AND_K; BPF_S_ALU_AND_X; BPF_S_ALU_OR_K; BPF_S_ALU_OR_X;
   BPF_S_ALU_LSH_K; BPF_S_ALU_LSH_X; BPF_S_ALU_RSH_K; BPF_S_ALU_RSH_X;
   BPF_S_ALU_NEG;
   BPF_S_LD_W_ABS; BPF_S_LD_H_ABS; BPF_S_LD_B_ABS; BPF_S_LD_W_LEN;
   BPF_S_LD_W_IND; BPF_S_LD_H_IND; BPF_S_LD_B_IND; BPF_S_LD_IMM;
   BPF_S_LDX_W_LEN; BPF_S_LDX_B_MSH; BPF_S_LDX_IMM;
   BPF_S_MISC_TAX; BPF_S_MISC_TXA; BPF_S_ALU_DIV_K;
   BPF_S_LD_MEM; BPF_S_LDX_MEM; BPF_S_ST; BPF_S_STX;
   BPF_S_JMP_JA; BPF_S_JMP_JEQ_K; BPF_S_JMP_JEQ_X;
   BPF_S_JMP_JGE_K; BPF_S_JMP_JGE_X; BPF_S_JMP_JGT_K; BPF_S_JMP_JGT_X;
   BPF_S_JMP_JSET_K; BPF_S_JMP_JSET_X;
   BPF_S_ANC_PROTOCOL; BPF_S_ANC_PKTTYPE; BPF_S_ANC_IFINDEX;
   BPF_S_ANC_NLATTR; BPF_S_ANC_NLATTR_NEST; BPF_S_ANC_MARK; BPF_S_ANC_QUEUE;
   BPF_S_ANC_HATYPE; BPF_S_ANC_RXHASH; BPF_S_ANC_CPU].

#[global] Instance bpf_s_eq_dec : EqDecision bpf_s.
Proof. solve_decision. Defined.

(** enumerator of a number, number of an enumerator *)
Definition bpf_s_of (n : Z) : option bpf_s := zlookup bpf_s_enum (n - 1).

Fixpoint index_of (op : bpf_s) (l : list bpf_s) (i : Z) : Z :=
  match l with
  | [] => 0
  | x :: l' => if decide (x = op) then i else index_of op l' (i + 1)
  end.
Definition bpf_s_num (op : bpf_s) : Z := index_of op bpf_s_enum 1.

(** ** Packet access *)

Definition __load_pointer (skb : sk_buff) (k size : Z) : pointer :=
  let ptr :=
    if k >=? SKF_NET_OFF then Some (network_header skb + k - SKF_NET_OFF)
    else if k >=? SKF_LL_OFF then Some (mac_header skb + k - SKF_LL_OFF)
    else None in
  match ptr with
  | Some off =>
      if (off >=? 0) && (off + size <=? skb_tail skb) then InHead off else NULL
  | None => NULL
  end.

Definition load_pointer (skb : sk_buff) (k size : Z) : cres pointer :=
  if k >=? 0 then skb_header_pointer skb k size
  else Ret (__load_pointer skb k size).

(** big-endian value of a byte string *)
Definition be_value (bs : list Z) : Z := foldl (λ v b, v * 256 + b) 0 bs.

(** ** The interpreter *)

Inductive fault := BadFetch | BadCell | UninitCell | BadLoad.

Record bpf_state := BpfState {
  pc : Z;                       (* fentry - filter *)
  regA : Z;
  regX : Z;
  cells : list (option Z)       (* mem[]; None: not written yet *)
}.

Inductive step_res :=
  | SNext (st : bpf_state)
  | SRet (v : Z)
  | SFault (f : fault).

(** what the interpreter does not find in its arguments: the CPU it runs on,
    and the results of shifts by 32 or more, which C leaves undefined *)
Record bpf_env := BpfEnv {
  env_cpu : Z;
  env_shl : Z → Z → Z;
  env_shr : Z → Z → Z
}.

Definition shl32 (env : bpf_env) (a n : Z) : Z :=
  if n <? 32 then u32 (Z.shiftl a n) else u32 (env_shl env a n).
Definition shr32 (env : bpf_env) (a n : Z) : Z :=
  if n <? 32 then Z.shiftr a n else u32 (env_shr env a n).

(** [continue]: the loop increments [fentry] *)
Definition goA (st : bpf_state) (A : Z) : step_res :=
  SNext (BpfState (pc st + 1) A (regX st) (cells st)).
Definition goX (st : bpf_state) (X : Z) : step_res :=
  SNext (BpfState (pc st + 1) (regA st) X (cells st)).
Definition jump (st : bpf_state) (off : Z) : step_res :=
  SNext (BpfState (pc st + off + 1) (regA st) (regX st) (cells st)).

Definition load_cell (st : bpf_state) (K : Z) (cont : Z → step_res) : step_res :=
  match zlookup (cells st) K with
  | None => SFault BadCell
  | Some None => SFault UninitCell
  | Some (Some v) => cont v
  end.

Definition store_cell (st : bpf_state) (K v : Z) : step_res :=
  match zlookup (cells st) K with
  | None => SFault BadCell
  | Some _ => SNext (BpfState (pc st + 1) (regA st) (regX st)
                              (<[Z.to_nat K := Some v]> (cells st)))
  end.

(** [load_w], [load_h], [load_b]: leave the filter with 0 when the bytes are
    not there *)
Definition load_bytes (skb : sk_buff) (k size : Z) (cont : Z → step_res) : step_res :=
  match load_pointer skb k size with
  | UB => SFault BadLoad
  | Err _ => SRet 0
  | Ret NULL => SRet 0
  | Ret ptr =>
      match deref skb ptr size with
      | Ret bs => cont (be_value bs)
      | _ => SFault BadLoad
      end
  end.

Definition ntohs (x : Z) : Z := Z.lor (Z.shiftl (Z.land x 255) 8) (Z.shiftr x 8).

Definition find_result (skb : sk_buff) (st : bpf_state) (r : cres (option Z)) : step_res :=
  match r with
  | Ret (Some nla) => goA st (u32 (nla - skb_data skb))
  | Ret None => goA st 0
  | _ => SFault BadLoad
  end.

Definition step_anc (env : bpf_env) (skb : sk_buff) (op : bpf_s) (st : bpf_state) : step_res :=
  let A := regA st in
  let X := regX st in
  match op with
  | BPF_S_ANC_PROTOCOL => goA st (ntohs (skb_protocol skb))
  | BPF_S_ANC_PKTTYPE => goA st (pkt_type skb)
  | BPF_S_ANC_IFINDEX =>
      match skb_dev skb with None => SRet 0 | Some dev => goA st (u32 (ifindex dev)) end
  | BPF_S_ANC_MARK => goA st (skb_mark skb)
  | BPF_S_ANC_QUEUE => goA st (queue_mapping skb)
  | BPF_S_ANC_HATYPE =>
      match skb_dev skb with None => SRet 0 | Some dev => goA st (dev_type dev) end
  | BPF_S_ANC_RXHASH => goA st (rxhash skb)
  | BPF_S_ANC_CPU => goA st (u32 (env_cpu env))
  | BPF_S_ANC_NLATTR =>
      if skb_is_nonlinear skb then SRet 0 else
      if A >? u32 (skb_len skb - sizeof_nlattr) then SRet 0 else
      find_result skb st
        (nla_find (skb_lin skb) (skb_data skb + A) (s32 (skb_len skb - A)) (s32 X))
  | BPF_S_ANC_NLATTR_NEST =>
      if skb_is_nonlinear skb then SRet 0 else
      if A >? u32 (skb_len skb - sizeof_nlattr) then SRet 0 else
      let nla := skb_data skb + A in
      match get_nla_len (skb_lin skb) nla with
      | Ret len =>
          if len >? u32 (A - skb_len skb) then SRet 0 else
          find_result skb st (nla_find_nested (skb_lin skb) nla (s32 X))
      | _ => SFault BadLoad
      end
  | _ => SRet 0       (* default: WARN_RATELIMIT *)
  end.

Definition step_ld (env : bpf_env) (skb : sk_buff) (op : bpf_s) (K : Z) (st : bpf_state)
    : step_res :=
  let A := regA st in
  let X := regX st in
  match op with
  | BPF_S_LD_W_ABS => load_bytes skb (s32 K) 4 (goA st)
  | BPF_S_LD_H_ABS => load_bytes skb (s32 K) 2 (goA st)
  | BPF_S_LD_B_ABS => load_bytes skb (s32 K) 1 (goA st)
  | BPF_S_LD_W_LEN => goA st (skb_len skb)
  | BPF_S_LDX_W_LEN => goX st (skb_len skb)
  | BPF_S_LD_W_IND => load_bytes skb (s32 (X + K)) 4 (goA st)
  | BPF_S_LD_H_IND => load_bytes skb (s32 (X + K)) 2 (goA st)
  | BPF_S_LD_B_IND => load_bytes skb (s32 (X + K)) 1 (goA st)
  | BPF_S_LDX_B_MSH =>
      load_bytes skb (s32 K) 1 (λ b, goX st (Z.shiftl (Z.land b 15) 2))
  | BPF_S_LD_IMM => goA st K
  | BPF_S_LDX_IMM => goX st K
  | BPF_S_LD_MEM => load_cell st K (goA st)
  | BPF_S_LDX_MEM => load_cell st K (goX st)
  | BPF_S_MISC_TAX => goX st A
  | BPF_S_MISC_TXA => goA st X
  | BPF_S_RET_K => SRet K
  | BPF_S_RET_A => SRet A
  | BPF_S_ST => store_cell st K A
  | BPF_S_STX => store_cell st K X
  | _ => step_anc env skb op st
  end.

Definition step_jmp (env : bpf_env) (skb : sk_buff) (op : bpf_s) (f : sock_filter)
    (st : bpf_state) : step_res :=
  let A := regA st in
  let X := regX st in
  let K := k f in
  let cond (b : bool) := jump st (if b then jt f else jf f) in
  match op with
  | BPF_S_JMP_JA => jump st K
  | BPF_S_JMP_JGT_K => cond (A >? K)
  | BPF_S_JMP_JGE_K => cond (A >=? K)
  | BPF_S_JMP_JEQ_K => cond (A =? K)
  | BPF_S_JMP_JSET_K => cond (truth (Z.land A K))
  | BPF_S_JMP_JGT_X => cond (A >? X)
  | BPF_S_JMP_JGE_X => cond (A >=? X)
  | BPF_S_JMP_JEQ_X => cond (A =? X)
  | BPF_S_JMP_JSET_X => cond (truth (Z.land A X))
  | _ => step_ld env skb op K st
  end.

Definition step_alu (env : bpf_env) (skb : sk_buff) (op : bpf_s) (f : sock_filter)
    (st : bpf_state) : step_res :=
  let A := regA st in
  let X := regX st in
  let K := k f in
  match op with
  | BPF_S_ALU_ADD_X => goA st (u32 (A + X))
  | BPF_S_ALU_ADD_K => goA st (u32 (A + K))
  | BPF_S_ALU_SUB_X => goA st (u32 (A - X))
  | BPF_S_ALU_SUB_K => goA st (u32 (A - K))
  | BPF_S_ALU_MUL_X => goA st (u32 (A * X))
  | BPF_S_ALU_MUL_K => goA st (u32 (A * K))
  | BPF_S_ALU_DIV_X => if X =? 0 then SRet 0 else goA st (A / X)
  | BPF_S_ALU_DIV_K => goA st (reciprocal_divide A K)
  | BPF_S_ALU_AND_X => goA st (Z.land A X)
  | BPF_S_ALU_AND_K => goA st (Z.land A K)
  | BPF_S_ALU_OR_X => goA st (Z.lor A X)
  | BPF_S_ALU_OR_K => goA st (Z.lor A K)
  | BPF_S_ALU_LSH_X => goA st (shl32 env A X)
  | BPF_S_ALU_LSH_K => goA st (shl32 env A K)
  | BPF_S_ALU_RSH_X => goA st (shr32 env A X)
  | BPF_S_ALU_RSH_K => goA st (shr32 env A K)
  | BPF_S_ALU_NEG => goA st (u32 (- A))
  | _ => step_jmp env skb op f st
  end.

(** one round of the loop *)
Definition sk_step (env : bpf_env) (skb : sk_buff) (filter : list sock_filter)
    (st : bpf_state) : step_res :=
  match zlookup filter (pc st) with
  | None => SFault BadFetch
  | Some fentry =>
      match bpf_s_of (code fentry) with
      | Some op => step_alu env skb op fentry st
      | None => SRet 0     (* default: WARN_RATELIMIT *)
      end
  end.

Inductive run_res := Returned (v : Z) | Faulted (f : fault) | OutOfFuel.

Fixpoint sk_run (fuel : nat) (env : bpf_env) (skb : sk_buff) (filter : list sock_filter)
    (st : bpf_state) : run_res :=
  match fuel with
  | O => OutOfFuel
  | S fuel' =>
      match sk_step env skb filter st with
      | SRet v => Returned v
      | SFault f => Faulted f
      | SNext st' => sk_run fuel' env skb filter st'
      end
  end.

Definition bpf_init : bpf_state :=
  BpfState 0 0 0 (replicate (Z.to_nat BPF_MEMWORDS) None).

(** [length filter] rounds: one per instruction, since jumps go forward *)
Definition sk_run_filter (env : bpf_env) (skb : sk_buff) (filter : list sock_filter) : run_res :=
  sk_run (length filter) env skb filter bpf_init.

(** ** The checker *)

(** the designated initialisers of [codes] *)
Definition codes_init : list (Z * bpf_s) :=
  [(Z.lor (Z.lor BPF_ALU BPF_ADD) BPF_K, BPF_S_ALU_ADD_K);
   (Z.lor (Z.lor BPF_ALU BPF_ADD) BPF_X, BPF_S_ALU_ADD_X);
   (Z.lor (Z.lor BPF_ALU BPF_SUB) BPF_K, BPF_S_ALU_SUB_K);
   (Z.lor (Z.lor BPF_ALU BPF_SUB) BPF_X, BPF_S_ALU_SUB_X);
   (Z.lor (Z.lor BPF_ALU BPF_MUL) BPF_K, BPF_S_ALU_MUL_K);
   (Z.lor (Z.lor BPF_ALU BPF_MUL) BPF_X, BPF_S_ALU_MUL_X);
   (Z.lor (Z.lor BPF_ALU BPF_DIV) BPF_X, BPF_S_ALU_DIV_X);
   (Z.lor (Z.lor BPF_ALU BPF_AND) BPF_K, BPF_S_ALU_AND_K);
   (Z.lor (Z.lor BPF_ALU BPF_AND) BPF_X, BPF_S_ALU_AND_X);
   (Z.lor (Z.lor BPF_ALU BPF_OR) BPF_K, BPF_S_ALU_OR_K);
   (Z.lor (Z.lor BPF_ALU BPF_OR) BPF_X, BPF_S_ALU_OR_X);
   (Z.lor (Z.lor BPF_ALU BPF_LSH) BPF_K, BPF_S_ALU_LSH_K);
   (Z.lor (Z.lor BPF_ALU BPF_LSH) BPF_X, BPF_S_ALU_LSH_X);
   (Z.lor (Z.lor BPF_ALU BPF_RSH) BPF_K, BPF_S_ALU_RSH_K);
   (Z.lor (Z.lor BPF_ALU BPF_RSH) BPF_X, BPF_S_ALU_RSH_X);
   (Z.lor BPF_ALU BPF_NEG, BPF_S_ALU_NEG);
   (Z.lor (Z.lor BPF_LD BPF_W) BPF_ABS, BPF_S_LD_W_ABS);
   (Z.lor (Z.lor BPF_LD BPF_H) BPF_ABS, BPF_S_LD_H_ABS);
   (Z.lor (Z.lor BPF_LD BPF_B) BPF_ABS, BPF_S_LD_B_ABS);
   (Z.lor (Z.lor BPF_LD BPF_W) BPF_LEN, BPF_S_LD_W_LEN);
   (Z.lor (Z.lor BPF_LD BPF_W) BPF_IND, BPF_S_LD_W_IND);
   (Z.lor (Z.lor BPF_LD BPF_H) BPF_IND, BPF_S_LD_H_IND);
   (Z.lor (Z.lor BPF_LD BPF_B) BPF_IND, BPF_S_LD_B_IND);
   (Z.lor BPF_LD BPF_IMM, BPF_S_LD_IMM);
   (Z.lor (Z.lor BPF_LDX BPF_W) BPF_LEN, BPF_S_LDX_W_LEN);
   (Z.lor (Z.lor BPF_LDX BPF_B) BPF_MSH, BPF_S_LDX_B_MSH);
   (Z.lor BPF_LDX BPF_IMM, BPF_S_LDX_IMM);
   (Z.lor BPF_MISC BPF_TAX, BPF_S_MISC_TAX);
   (Z.lor BPF_MISC BPF_TXA, BPF_S_MISC_TXA);
   (Z.lor BPF_RET BPF_K, BPF_S_RET_K);
   (Z.lor BPF_RET BPF_A, BPF_S_RET_A);
   (Z.lor (Z.lor BPF_ALU BPF_DIV) BPF_K, BPF_S_ALU_DIV_K);
   (Z.lor BPF_LD BPF_MEM, BPF_S_LD_MEM);
   (Z.lor BPF_LDX BPF_MEM, BPF_S_LDX_MEM);
   (BPF_ST, BPF_S_ST);
   (BPF_STX, BPF_S_STX);
   (Z.lor BPF_JMP BPF_JA, BPF_S_JMP_JA);
   (Z.lor (Z.lor BPF_JMP BPF_JEQ) BPF_K, BPF_S_JMP_JEQ_K);
   (Z.lor (Z.lor BPF_JMP BPF_JEQ) BPF_X, BPF_S_JMP_JEQ_X);
   (Z.lor (Z.lor BPF_JMP BPF_JGE) BPF_K, BPF_S_JMP_JGE_K);
   (Z.lor (Z.lor BPF_JMP BPF_JGE) BPF_X, BPF_S_JMP_JGE_X);
   (Z.lor (Z.lor BPF_JMP BPF_JGT) BPF_K, BPF_S_JMP_JGT_K);
   (Z.lor (Z.lor BPF_JMP BPF_JGT) BPF_X, BPF_S_JMP_JGT_X);
   (Z.lor (Z.lor BPF_JMP BPF_JSET) BPF_K, BPF_S_JMP_JSET_K);
   (Z.lor (Z.lor BPF_JMP BPF_JSET) BPF_X, BPF_S_JMP_JSET_X)].

(** the array: indices without an initialiser hold 0 *)
Definition codes_size : Z := 1 + foldr (λ e m, Z.max (fst e) m) 0 codes_init.
Definition codes (i : Z) : Z :=
  match filter (λ e, e.1 = i) codes_init with
  | (_, op) :: _ => bpf_s_num op
  | [] => 0
  end.

(** the inner [switch (ftest->k)] on ancillary offsets; [k] is a u32, the
    offsets are negative ints converted to it *)
Definition ancillary (k : Z) : option bpf_s :=
  let ad (off : Z) := k =? u32 (SKF_AD_OFF + off) in
  if ad SKF_AD_PROTOCOL then Some BPF_S_ANC_PROTOCOL
  else if ad SKF_AD_PKTTYPE then Some BPF_S_ANC_PKTTYPE
  else if ad SKF_AD_IFINDEX then Some BPF_S_ANC_IFINDEX
  else if ad SKF_AD_NLATTR then Some BPF_S_ANC_NLATTR
  else if ad SKF_AD_NLATTR_NEST then Some BPF_S_ANC_NLATTR_NEST
  else if ad SKF_AD_MARK then Some BPF_S_ANC_MARK
  else if ad SKF_AD_QUEUE then Some BPF_S_ANC_QUEUE
  else if ad SKF_AD_HATYPE then Some BPF_S_ANC_HATYPE
  else if ad SKF_AD_RXHASH then Some BPF_S_ANC_RXHASH
  else if ad SKF_AD_CPU then Some BPF_S_ANC_CPU
  else None.

(** one round of the loop of [sk_chk_filter]: the rewritten instruction *)
Definition chk_insn (flen pc : Z) (ftest : sock_filter) : cres sock_filter :=
  if code ftest >=? codes_size then Err EINVAL else
  let c := codes (code ftest) in
  if c =? 0 then Err EINVAL else
  let set_code c := SockFilter c (jt ftest) (jf ftest) (k ftest) in
  match bpf_s_of c with
  | Some BPF_S_ALU_DIV_K =>
      if k ftest =? 0 then Err EINVAL
      else Ret (SockFilter c (jt ftest) (jf ftest) (reciprocal_value (k ftest)))
  | Some (BPF_S_LD_MEM | BPF_S_LDX_MEM | BPF_S_ST | BPF_S_STX) =>
      if k ftest >=? BPF_MEMWORDS then Err EINVAL else Ret (set_code c)
  | Some BPF_S_JMP_JA =>
      if k ftest >=? u32 (flen - pc - 1) then Err EINVAL else Ret (set_code c)
  | Some (BPF_S_JMP_JEQ_K | BPF_S_JMP_JEQ_X | BPF_S_JMP_JGE_K | BPF_S_JMP_JGE_X
         | BPF_S_JMP_JGT_K | BPF_S_JMP_JGT_X | BPF_S_JMP_JSET_X | BPF_S_JMP_JSET_K) =>
      if (pc + jt ftest + 1 >=? flen) || (pc + jf ftest + 1 >=? flen)
      then Err EINVAL else Ret (set_code c)
  | Some (BPF_S_LD_W_ABS | BPF_S_LD_H_ABS | BPF_S_LD_B_ABS) =>
      match ancillary (k ftest) with
      | Some a => Ret (set_code (bpf_s_num a))
      | None => Ret (set_code c)
      end
  | _ => Ret (set_code c)
  end.

Fixpoint chk_insns (flen pc : Z) (filter : list sock_filter) : cres (list sock_filter) :=
  match filter with
  | [] => Ret []
  | f :: filter' =>
      f' ← chk_insn flen pc f;
      fs ← chk_insns flen (pc + 1) filter';
      Ret (f' :: fs)
  end.

(** [masks[i] &= v] *)
Definition mask_and (masks : list Z) (i v : Z) : cres (list Z) :=
  m ← array_get masks i; array_set masks i (Z.land m v).

(** one round of [check_load_and_stores], after [memvalid &= masks[pc]] *)
Definition cls_insn (masks : list Z) (memvalid pc : Z) (f : sock_filter)
    : cres (list Z * Z) :=
  match bpf_s_of (code f) with
  | Some (BPF_S_ST | BPF_S_STX) =>
      Ret (masks, u16 (Z.lor memvalid (Z.shiftl 1 (k f))))
  | Some (BPF_S_LD_MEM | BPF_S_LDX_MEM) =>
      if truth (Z.land memvalid (Z.shiftl 1 (k f))) then Ret (masks, memvalid) else Err EINVAL
  | Some BPF_S_JMP_JA =>
      masks ← mask_and masks (pc + 1 + k f) memvalid;
      Ret (masks, u16 (Z.lnot 0))
  | Some (BPF_S_JMP_JEQ_K | BPF_S_JMP_JEQ_X | BPF_S_JMP_JGE_K | BPF_S_JMP_JGE_X
         | BPF_S_JMP_JGT_K | BPF_S_JMP_JGT_X | BPF_S_JMP_JSET_X | BPF_S_JMP_JSET_K) =>
      masks ← mask_and masks (pc + 1 + jt f) memvalid;
      masks ← mask_and masks (pc + 1 + jf f) memvalid;
      Ret (masks, u16 (Z.lnot 0))
  | _ => Ret (masks, memvalid)
  end.

Fixpoint cls_loop (masks : list Z) (memvalid pc : Z) (filter : list sock_filter) : cres unit :=
  match filter with
  | [] => Ret tt
  | f :: filter' =>
      m ← array_get masks pc;
      '(masks, memvalid) ← cls_insn masks (Z.land memvalid m) pc f;
      cls_loop masks memvalid (pc + 1) filter'
  end.

(** [alloc_ok]: whether the [kmalloc] of the mask array succeeds *)
Definition check_load_and_stores (alloc_ok : bool) (filter : list sock_filter) : cres unit :=
  if negb alloc_ok then Err ENOMEM else
  cls_loop (replicate (length filter) (u16 (-1))) 0 0 filter.

Definition sk_chk_filter (alloc_ok : bool) (filter : list sock_filter)
    : cres (list sock_filter) :=
  let flen := zlength filter in
  if (flen =? 0) || (flen >? BPF_MAXINSNS) then Err EINVAL else
  fs ← chk_insns flen 0 filter;
  last ← array_get fs (flen - 1);
  match bpf_s_of (code last) with
  | Some (BPF_S_RET_K | BPF_S_RET_A) =>
      check_load_and_stores alloc_ok fs;; Ret fs
  | _ => Err EINVAL
  end.

(** a program for the examples: accept IPv4 packets only *)
Definition ex_prog : list sock_filter :=
  [SockFilter 40 0 0 12; SockFilter 21 0 1 2048; SockFilter 6 0 0 65535; SockFilter 6 0 0 0].
Example ex_chk : match sk_chk_filter true ex_prog with Ret fs => code <$> fs = [20; 38; 1; 1] | _ => False end.
Proof. vm_compute. reflexivity. Qed.

(** ** Well-formedness *)

Definition is_mem_op (op : bpf_s) : bool :=
  match op with BPF_S_LD_MEM | BPF_S_LDX_MEM | BPF_S_ST | BPF_S_STX => true | _ => false end.
Definition is_store_op (op : bpf_s) : bool :=
  match op with BPF_S_ST | BPF_S_STX => true | _ => false end.
Definition is_cond_op (op : bpf_s) : bool :=
  match op with
  | BPF_S_JMP_JEQ_K | BPF_S_JMP_JEQ_X | BPF_S_JMP_JGE_K | BPF_S_JMP_JGE_X
  | BPF_S_JMP_JGT_K | BPF_S_JMP_JGT_X | BPF_S_JMP_JSET_X | BPF_S_JMP_JSET_K => true
  | _ => false
  end.
Definition is_ret_op (op : bpf_s) : bool :=
  match op with BPF_S_RET_K | BPF_S_RET_A => true | _ => false end.
(** the two netlink loads are not protected by the checker: the nested one
    never is, the other one only when the packet holds an attribute header *)
Definition nlattr_unsafe (skb : sk_buff) (op : bpf_s) : bool :=
  match op with
  | BPF_S_ANC_NLATTR => skb_len skb <? sizeof_nlattr
  | BPF_S_ANC_NLATTR_NEST => true
  | _ => false
  end.

(** an instruction as it arrives from user space *)
Definition sock_filter_wf (f : sock_filter) : Prop :=
  is_u16 (code f) ∧ is_u8 (jt f) ∧ is_u8 (jf f) ∧ is_u32 (k f).

(** what the checker has established of instruction [pc] *)
Definition insn_ok (flen pc : Z) (f : sock_filter) (op : bpf_s) : Prop :=
  bpf_s_of (code f) = Some op ∧ is_u32 (k f) ∧
  (is_mem_op op → 0 ≤ k f < BPF_MEMWORDS) ∧
  (op = BPF_S_JMP_JA → 0 ≤ k f ∧ pc + 1 + k f < flen) ∧
  (is_cond_op op → 0 ≤ jt f ∧ pc + 1 + jt f < flen ∧ 0 ≤ jf f ∧ pc + 1 + jf f < flen).

Definition cell_wf (c : option Z) : Prop := match c with Some v => is_u32 v | None => True end.

Definition st_wf (st : bpf_state) : Prop :=
  is_u32 (regA st) ∧ is_u32 (regX st) ∧ Forall cell_wf (cells st) ∧
  zlength (cells st) = BPF_MEMWORDS.

(** a packet as the stack hands it to the filter *)
Definition skb_ok (skb : sk_buff) : Prop :=
  skb_wf skb ∧ is_u16 (skb_protocol skb) ∧ is_u32 (pkt_type skb) ∧ is_u32 (skb_mark skb) ∧
  is_u32 (queue_mapping skb) ∧ is_u32 (rxhash skb) ∧
  match skb_dev skb with Some dev => is_u32 (dev_type dev) | None => True end.

(** how one step moves the program counter and the scratch cells *)
Definition step_shape (op : bpf_s) (f : sock_filter) (st st' : bpf_state) : Prop :=
  if is_store_op op then
    pc st' = pc st + 1 ∧ ∃ v, cells st' = <[Z.to_nat (k f) := Some v]> (cells st)
  else cells st' = cells st ∧
    if decide (op = BPF_S_JMP_JA) then pc st' = pc st + 1 + k f
    else if is_cond_op op then pc st' = pc st + 1 + jt f ∨ pc st' = pc st + 1 + jf f
    else pc st' = pc st + 1 ∧ is_ret_op op = false.

(** ** Lemmas: the opcode tables *)

Lemma bpf_s_of_num op : bpf_s_of (bpf_s_num op) = Some op.
Proof. by destruct op. Qed.

Lemma codes_op i : codes i = 0 ∨ ∃ op, codes i = bpf_s_num op.
Proof. unfold codes. destruct (filter _ _) as [|[? op] ?]; eauto. Qed.

Lemma chk_insn_ok flen pc f f' :
  sock_filter_wf f → 0 ≤ pc < flen → flen ≤ BPF_MAXINSNS →
  chk_insn flen pc f = Ret f' → ∃ op, insn_ok flen pc f' op.
Proof.
  intros (Hc & Hjt & Hjf & Hk) Hpc Hflen. unfold chk_insn, BPF_MAXINSNS in *.
  destruct (_ >=? _); [done|]. destruct (codes_op (code f)) as [->|[op ->]]; [done|].
  destruct (bpf_s_num op =? 0); [done|]. rewrite bpf_s_of_num.
  assert (is_u32 (flen - pc - 1)) by (unfold is_u32; lia).
  rewrite (u32_id (flen - pc - 1)) by done.
  unfold is_u8, is_u32, insn_ok in *.
  destruct op; try destruct (ancillary (k f)) as [a|] eqn:Ea;
    repeat case_test; bprop; intros [= <-]; cbn [code k jt jf];
    (eexists; split; [apply bpf_s_of_num|]);
    (split; [first [apply u32_range | done]|]);
    try (split_and!; simpl; unfold BPF_MEMWORDS in *; intros; first [lia | done | discriminate]).
  all: assert (is_mem_op a = false ∧ is_cond_op a = false ∧ a ≠ BPF_S_JMP_JA) as (-> & -> & ?)
      by (revert Ea; unfold ancillary; repeat case_match; intros [= <-]; done);
    split_and!; done.
Qed.

(** ** Lemmas: one step *)

Lemma be_value_bound bs : Forall is_u8 bs → 0 ≤ be_value bs < 256 ^ zlength bs.
Proof.
  unfold be_value.
  assert (∀ acc n, 0 ≤ n → 0 ≤ acc < 256 ^ n → Forall is_u8 bs →
    0 ≤ foldl (λ v b, v * 256 + b) acc bs < 256 ^ (n + zlength bs)) as Hgen.
  { induction bs as [|b bs IH]; intros acc n Hn Hacc Hb; simpl.
    - unfold zlength. simpl. by rewrite Z.add_0_r.
    - apply Forall_cons in Hb as [Hb Hbs]. unfold is_u8 in Hb.
      replace (n + zlength (b :: bs)) with ((n + 1) + zlength bs) by (unfold zlength; simpl; lia).
      apply IH; [lia| |done]. rewrite Z.pow_add_r by lia. lia. }
  intros Hb. specialize (Hgen 0 0 ltac:(lia) ltac:(lia) Hb). by rewrite Z.add_0_l in Hgen.
Qed.

(** a load either leaves the filter or yields a value of its size *)
Lemma load_bytes_cases skb ofs size cont :
  skb_wf skb → is_s32 ofs → 0 < size ≤ 4 →
  load_bytes skb ofs size cont = SRet 0 ∨
  ∃ v, 0 ≤ v < 256 ^ size ∧ load_bytes skb ofs size cont = cont v.
Proof.
  intros Hwf Hk Hsz. unfold load_bytes, load_pointer. rewrite Z.geb_leb.
  destruct (Z.leb_spec 0 ofs) as [Hpos|Hneg].
  - destruct (skb_header_pointer_correct skb ofs size Hwf Hpos ltac:(lia)) as (p & -> & Hnull & Hd).
    destruct (decide (p = NULL)) as [->|Hne]; [by left|right].
    rewrite (Hd Hne).
    assert (¬ skb_len skb < ofs + size) as Hin by tauto.
    pose proof (skb_bytes_len skb Hwf) as Hlen.
    exists (be_value (slice ofs size (skb_bytes skb))). split; [|by destruct p].
    rewrite <- (length_slice (skb_bytes skb) ofs size) at 3 by lia.
    apply be_value_bound, Forall_take, Forall_drop, skb_bytes_u8, Hwf.
  - pose proof Hwf as [(Hd & Htl & _ & _ & _ & _ & Hu8 & _) _]%skb_wf_unfold.
    unfold __load_pointer. set (ptr := if _ >=? _ then _ else _).
    destruct ptr as [off|]; [|by left].
    destruct ((off >=? 0) && (off + size <=? skb_tail skb)) eqn:E; [|by left]. bprop. right.
    pose proof (zlength_lin skb ltac:(lia)) as Hlin.
    simpl. rewrite array_read_in by lia.
    exists (be_value (slice off size (skb_lin skb))). split; [|done].
    rewrite <- (length_slice (skb_lin skb) off size) at 3 by lia.
    by apply be_value_bound, Forall_take, Forall_drop, Forall_take.
Qed.

Lemma pow256_4 size v : 0 < size ≤ 4 → 0 ≤ v < 256 ^ size → is_u32 v.
Proof.
  intros Hs Hv. unfold is_u32. change (2 ^ 32) with (256 ^ 4).
  assert (256 ^ size ≤ 256 ^ 4) by (apply Z.pow_le_mono_r; lia). lia.
Qed.

Lemma find_result_cases skb st r :
  (∃ v, is_u32 v ∧ find_result skb st r = goA st v) ∨
  (find_result skb st r = SFault BadLoad ∧ ∀ o, r ≠ Ret o).
Proof.
  unfold find_result. destruct r as [[nla|]| |]; eauto using u32_range.
  left. exists 0. split; [unfold is_u32; lia|done].
Qed.

(** the unnested search stays inside a packet of at least four bytes *)
Lemma anc_nlattr_safe skb A t :
  skb_wf skb → skb_is_nonlinear skb = false → sizeof_nlattr ≤ skb_len skb →
  0 ≤ A ≤ u32 (skb_len skb - sizeof_nlattr) →
  ∃ r, nla_find (skb_lin skb) (skb_data skb + A) (s32 (skb_len skb - A)) t = Ret r.
Proof.
  intros Hwf Hlin Hlen HA.
  pose proof Hwf as [(Hd & Htl & Hdl & Hl & Hmax & _ & Hu8 & _) _]%skb_wf_unfold.
  unfold skb_is_nonlinear, truth in Hlin. bprop. unfold sizeof_nlattr in *.
  rewrite u32_id in HA by (unfold is_u32; lia). rewrite s32_id by (unfold is_s32; lia).
  apply nla_find_in; [by apply Forall_take|lia|]. rewrite zlength_lin by lia. lia.
Qed.

Lemma u32_ops env a x :
  is_u32 a → is_u32 x →
  is_u32 (Z.land a x) ∧ is_u32 (Z.lor a x) ∧ is_u32 (shl32 env a x) ∧ is_u32 (shr32 env a x) ∧
  (x ≠ 0 → is_u32 (a / x)).
Proof.
  intros Ha Hx. split; [|split; [|split; [|split]]].
  - by apply (land_bound 32).
  - by apply (lor_bound 32).
  - unfold shl32. case_test; apply u32_range.
  - unfold shr32. case_test; [|apply u32_range]. unfold is_u32 in *. apply (shiftr_bound 32); lia.
  - unfold is_u32 in *. intros. split; [apply Z.div_pos; lia|apply Z.div_lt_upper_bound; nia].
Qed.

(** what one step of a checked instruction can do *)
Definition step_post (skb : sk_buff) (op : bpf_s) (f : sock_filter) (st : bpf_state)
    (r : step_res) : Prop :=
  match r with
  | SRet v => is_u32 v
  | SFault BadLoad => nlattr_unsafe skb op = true
  | SFault UninitCell =>
      is_mem_op op = true ∧ is_store_op op = false ∧ zlookup (cells st) (k f) = Some None
  | SFault _ => False
  | SNext st' => st_wf st' ∧ step_shape op f st st'
  end.

Section step.
Context (skb : sk_buff) (f : sock_filter) (st : bpf_state) (op : bpf_s).
Hypothesis Hwf : st_wf st.

Lemma goA_post v :
  is_u32 v → is_store_op op = false → is_cond_op op = false → op ≠ BPF_S_JMP_JA →
  is_ret_op op = false → step_post skb op f st (goA st v).
Proof.
  destruct Hwf as (? & ? & ? & ?). intros ? Hs Hc Hj Hr. unfold goA, step_post, step_shape, st_wf.
  rewrite Hs, decide_False, Hc by done. done.
Qed.

Lemma goX_post v :
  is_u32 v → is_store_op op = false → is_cond_op op = false → op ≠ BPF_S_JMP_JA →
  is_ret_op op = false → step_post skb op f st (goX st v).
Proof.
  destruct Hwf as (? & ? & ? & ?). intros ? Hs Hc Hj Hr. unfold goX, step_post, step_shape, st_wf.
  rewrite Hs, decide_False, Hc by done. done.
Qed.

Lemma load_cell_post cont :
  is_mem_op op = true → is_store_op op = false → 0 ≤ k f < BPF_MEMWORDS →
  (∀ v, is_u32 v → step_post skb op f st (cont v)) →
  step_post skb op f st (load_cell st (k f) cont).
Proof.
  destruct Hwf as (? & ? & Hcells & Hlen). intros Hm Hs Hk Hcont. unfold load_cell.
  destruct (zlookup_is_Some (cells st) (k f) ltac:(lia)) as [[v|] Hc]; rewrite Hc.
  - apply Hcont. apply (Forall_zlookup _ _ _ _ Hcells Hc).
  - done.
Qed.

Lemma store_cell_post v :
  is_store_op op = true → 0 ≤ k f < BPF_MEMWORDS → is_u32 v →
  step_post skb op f st (store_cell st (k f) v).
Proof.
  destruct Hwf as (? & ? & Hcells & Hlen). intros Hs Hk Hv. unfold store_cell.
  destruct (zlookup_is_Some (cells st) (k f) ltac:(lia)) as [c ->].
  unfold step_post, step_shape, st_wf. cbn [regA regX cells pc]. rewrite Hs, zlength_insert.
  split_and!; try done; [|by eexists]. by apply Forall_insert.
Qed.

Lemma load_bytes_post ofs size cont :
  skb_wf skb → is_s32 ofs → 0 < size ≤ 4 →
  (∀ v, 0 ≤ v < 256 ^ size → step_post skb op f st (cont v)) →
  step_post skb op f st (load_bytes skb ofs size cont).
Proof.
  intros Hskb Hofs Hsz Hcont.
  destruct (load_bytes_cases skb ofs size cont Hskb Hofs Hsz) as [->|(v & Hv & ->)].
  - simpl. unfold is_u32. lia.
  - by apply Hcont.
Qed.

Lemma jump_post off :
  is_store_op op = false →
  (if decide (op = BPF_S_JMP_JA) then off = k f
   else is_cond_op op = true ∧ (off = jt f ∨ off = jf f)) →
  step_post skb op f st (jump st off).
Proof.
  destruct Hwf as (? & ? & ? & ?). intros Hs Hoff. unfold jump, step_post, step_shape, st_wf.
  rewrite Hs. cbn [regA regX cells pc]. split_and!; try done.
  case_decide; [lia|]. destruct Hoff as [-> ?]. lia.
Qed.
End step.

Lemma step_alu_post env skb op f st flen :
  st_wf st → skb_ok skb → insn_ok flen (pc st) f op → step_post skb op f st (step_alu env skb op f st).
Proof.
  intros Hst (Hskb & Hproto & Hpkt & Hmark & Hq & Hrx & Hdev) (Hop & Hk & Hmem & _ & _).
  pose proof Hst as (HA & HX & _ & _).
  pose proof Hskb as [(? & ? & ? & ? & ? & _) _]%skb_wf_unfold.
  assert (is_u32 (skb_len skb)) as Hlen by (unfold is_u32; lia).
  assert (is_u32 (ntohs (skb_protocol skb))) as Hnp.
  { unfold is_u32, is_u16, ntohs in *. change 255 with (Z.ones 8).
    rewrite Z.land_ones, Z.shiftl_mul_pow2 by lia.
    pose proof (Z.mod_pos_bound (skb_protocol skb) (2 ^ 8)).
    apply (lor_bound 32); [lia|lia|apply (shiftr_bound 32); lia]. }
  destruct (u32_ops env (regA st) (regX st) HA HX) as (Hop1 & Hop2 & Hop3 & Hop4 & Hop5).
  destruct (u32_ops env (regA st) (k f) HA Hk) as (Hop6 & Hop7 & Hop8 & Hop9 & _).
  destruct op; cbv beta iota zeta delta [step_alu step_jmp step_ld step_anc];
    try (apply goA_post; first [done | apply u32_range]);
    try (apply goX_post; first [done | apply u32_range]);
    try (apply load_cell_post; [done|done|done|by apply Hmem|];
         intros; first [by apply goA_post | by apply goX_post]);
    try (apply store_cell_post; [done|done|by apply Hmem|done]);
    try (apply jump_post; [done|done|simpl; first [done | split; [done|]; case_test; auto]]);
    try (apply load_bytes_post; [done|apply s32_range|done|];
         intros; apply goA_post; try done; eapply pow256_4; eauto; done);
    try done.
  - case_test; [done|]. bprop. apply goA_post; try done. by apply Hop5.
  - apply load_bytes_post; [done|apply s32_range|done|]. intros v Hv. apply goX_post; try done.
    change 15 with (Z.ones 4). rewrite Z.land_ones, Z.shiftl_mul_pow2 by lia.
    pose proof (Z.mod_pos_bound v (2 ^ 4)). unfold is_u32. lia.
  - destruct (skb_dev skb); [apply goA_post; first [done|apply u32_range]|done].
  - case_test; [done|]. case_test; [done|]. bprop.
    edestruct find_result_cases as [(v & Hv & ->)|[-> Hno]]; [by apply goA_post|]. simpl.
    apply Z.ltb_lt. destruct (Z.lt_ge_cases (skb_len skb) sizeof_nlattr) as [|Hge]; [done|].
    destruct HA. edestruct anc_nlattr_safe as [r Hr]; [exact Hskb|done|exact Hge| |by destruct (Hno r)].
    lia.
  - case_test; [done|]. case_test; [done|]. destruct (get_nla_len _ _); try done.
    case_test; [done|]. edestruct find_result_cases as [(v & Hv & ->)|[-> _]]; [by apply goA_post|done].
  - destruct (skb_dev skb); [by apply goA_post|done].
Qed.

(** ** Lemmas: the scan of [check_load_and_stores] *)

Definition bits_le (a b : Z) : Prop := ∀ i, Z.testbit a i = true → Z.testbit b i = true.
Definition masks_le (m m' : list Z) : Prop :=
  zlength m = zlength m' ∧
  ∀ i a, zlookup m i = Some a → ∃ b, zlookup m' i = Some b ∧ bits_le a b.
Definition target_le (masks : list Z) (i v : Z) : Prop :=
  ∀ m, zlookup masks i = Some m → bits_le m v.
(** every cell whose bit is set in [v] has been written *)
Definition init_bits (v : Z) (cs : list (option Z)) : Prop :=
  ∀ i, 0 ≤ i < BPF_MEMWORDS → Z.testbit v i = true → ∃ x, zlookup cs i = Some (Some x).

#[global] Instance bits_le_preorder : PreOrder bits_le.
Proof. split; unfold bits_le; intros ?; auto. Qed.

Lemma bits_le_land_l a b : bits_le (Z.land a b) a.
Proof. intros i. rewrite Z.land_spec. by intros [? _]%andb_prop. Qed.
Lemma bits_le_land_r a b : bits_le (Z.land a b) b.
Proof. intros i. rewrite Z.land_spec. by intros [_ ?]%andb_prop. Qed.

Lemma init_bits_le a b cs : bits_le a b → init_bits b cs → init_bits a cs.
Proof. intros Hab Hb i Hi Ha. apply Hb; auto. Qed.

Lemma masks_le_refl m : masks_le m m.
Proof. split; [done|]. intros i a Ha. exists a. done. Qed.

Lemma masks_le_trans m1 m2 m3 : masks_le m1 m2 → masks_le m2 m3 → masks_le m1 m3.
Proof.
  intros [H1 H1'] [H2 H2']. split; [lia|]. intros i a Ha.
  destruct (H1' i a Ha) as (b & Hb & Hab). destruct (H2' i b Hb) as (c & Hc & Hbc).
  exists c. split; [done|]. by transitivity b.
Qed.

Lemma target_le_mono m m' i v : masks_le m m' → target_le m' i v → target_le m i v.
Proof.
  intros [_ Hm] Ht a Ha. destruct (Hm i a Ha) as (b & Hb & Hab).
  transitivity b; [done|]. by apply Ht.
Qed.

Lemma mask_and_spec masks i v masks' :
  mask_and masks i v = Ret masks' → masks_le masks' masks ∧ target_le masks' i v.
Proof.
  unfold mask_and, array_get, array_set. destruct (zlookup masks i) as [m|] eqn:Hm; [|done].
  simpl. intros [= <-]. pose proof (zlookup_Some _ _ _ Hm) as Hi. split; [split|].
  - by rewrite zlength_insert.
  - intros j a. destruct (decide (i = j)) as [<-|Hne].
    + rewrite zlookup_insert_eq by lia. intros [= <-]. exists m. split; [done|]. apply bits_le_land_l.
    + rewrite zlookup_insert_ne by lia. intros Ha. by exists a.
  - intros a. rewrite zlookup_insert_eq by lia. intros [= <-]. apply bits_le_land_r.
Qed.

Lemma mask_and_in masks i v :
  0 ≤ i < zlength masks → ∃ masks', mask_and masks i v = Ret masks'.
Proof.
  intros Hi. unfold mask_and. destruct (array_get_in masks i Hi) as (m & -> & _). simpl.
  rewrite array_set_in by done. eauto.
Qed.

Lemma testbit_shiftl1 n i : 0 ≤ n → Z.testbit (Z.shiftl 1 n) i = (i =? n).
Proof.
  intros Hn. rewrite Z.shiftl_mul_pow2, Z.mul_1_l by lia.
  rewrite Z.pow2_bits_eqb by lia. apply Z.eqb_sym.
Qed.

Lemma truth_land_bit v n : 0 ≤ n → truth (Z.land v (Z.shiftl 1 n)) = Z.testbit v n.
Proof.
  intros Hn. unfold truth. destruct (Z.testbit v n) eqn:E.
  - destruct (Z.eqb_spec (Z.land v (Z.shiftl 1 n)) 0) as [H0|]; [|done].
    assert (Z.testbit (Z.land v (Z.shiftl 1 n)) n = true) as Hb.
    { rewrite Z.land_spec, E, testbit_shiftl1, Z.eqb_refl by lia. done. }
    rewrite H0, Z.testbit_0_l in Hb. done.
  - destruct (Z.eqb_spec (Z.land v (Z.shiftl 1 n)) 0) as [|H0]; [done|]. destruct H0.
    apply Z.bits_inj'. intros i Hi. rewrite Z.land_spec, testbit_shiftl1, Z.testbit_0_l by lia.
    destruct (Z.eqb_spec i n) as [->|]; [by rewrite E|]. by rewrite andb_false_r.
Qed.

(** one round of the scan, by kind of instruction *)
Definition cls_post (op : bpf_s) (masks : list Z) (v p : Z) (f : sock_filter)
    (masks' : list Z) (mv' : Z) : Prop :=
  masks_le masks' masks ∧
  (is_store_op op = true → mv' = u16 (Z.lor v (Z.shiftl 1 (k f)))) ∧
  (op = BPF_S_JMP_JA → target_le masks' (p + 1 + k f) v) ∧
  (is_cond_op op = true → target_le masks' (p + 1 + jt f) v ∧ target_le masks' (p + 1 + jf f) v) ∧
  (is_mem_op op = true → is_store_op op = false → 0 ≤ k f → Z.testbit v (k f) = true) ∧
  (is_store_op op = false → op ≠ BPF_S_JMP_JA → is_cond_op op = false → mv' = v).

Lemma cls_insn_post masks v p f op masks' mv' :
  bpf_s_of (code f) = Some op → is_u32 (k f) →
  cls_insn masks v p f = Ret (masks', mv') → cls_post op masks v p f masks' mv'.
Proof.
  intros Hop [Hk _]. unfold cls_insn, cls_post. rewrite Hop.
  assert (∀ a b : Z,
    (masks0 ← mask_and masks a v; masks1 ← mask_and masks0 b v; Ret (masks1, u16 (Z.lnot 0)))
      = Ret (masks', mv') →
    masks_le masks' masks ∧ target_le masks' a v ∧ target_le masks' b v) as Hjmp.
  { intros a b. destruct (mask_and masks a v) as [m1| |] eqn:E1; try done. simpl.
    destruct (mask_and m1 b v) as [m2| |] eqn:E2; try done. simpl. intros [= <- <-].
    apply mask_and_spec in E1 as [H1 H1']. apply mask_and_spec in E2 as [H2 H2'].
    split; [by eapply masks_le_trans|]. split; [|done]. by eapply target_le_mono. }
  destruct op; simpl;
    try (intros [= <- <-]; split_and!; first [apply masks_le_refl | done]);
    try (intros (Hm & Ht & Hf)%Hjmp; split_and!; done).
  - rewrite truth_land_bit by done. destruct (Z.testbit v (k f)) eqn:E; [|done].
    intros [= <- <-]. split_and!; first [apply masks_le_refl | done].
  - rewrite truth_land_bit by done. destruct (Z.testbit v (k f)) eqn:E; [|done].
    intros [= <- <-]. split_and!; first [apply masks_le_refl | done].
  - destruct (mask_and masks (p + 1 + k f) v) as [m1| |] eqn:E1; try done. simpl.
    intros [= <- <-]. apply mask_and_spec in E1 as [H1 H1']. split_and!; done.
Qed.

(** the scan does not leave its mask array *)
Lemma cls_insn_safe masks v p f op flen :
  insn_ok flen p f op → zlength masks = flen → 0 ≤ p → safe (cls_insn masks v p f).
Proof.
  intros (Hop & Hk & _ & Hja & Hcond) Hlen Hp. unfold safe, cls_insn. rewrite Hop.
  assert (∀ a b : Z, 0 ≤ a < flen → 0 ≤ b < flen →
    (masks0 ← mask_and masks a v; masks1 ← mask_and masks0 b v; Ret (masks1, u16 (Z.lnot 0)))
      ≠ UB) as Hjmp.
  { intros a b Ha Hb. destruct (mask_and_in masks a v) as [m1 E1]; [lia|]. rewrite E1. simpl.
    apply mask_and_spec in E1 as [[Hl _] _].
    destruct (mask_and_in m1 b v) as [m2 ->]; [lia|]. done. }
  destruct op; try done; try (by case_test); try (destruct (Hcond I) as (? & ? & ? & ?); apply Hjmp; lia).
  destruct (Hja eq_refl). destruct (mask_and_in masks (p + 1 + k f) v) as [m1 E1]; [lia|]. by rewrite E1.
Qed.

(** ** Lemmas: the scan follows every execution *)

Definition uses_nlattr (skb : sk_buff) (filter : list sock_filter) : bool :=
  existsb (λ f, match bpf_s_of (code f) with
                | Some op => nlattr_unsafe skb op | None => false end) filter.

Definition run_post (skb : sk_buff) (filter : list sock_filter) (r : run_res) : Prop :=
  match r with
  | Returned v => is_u32 v
  | Faulted BadLoad => uses_nlattr skb filter = true
  | _ => False
  end.

(** a program the checker accepted *)
Record prog_ok (filter : list sock_filter) : Prop := {
  po_insns : ∀ i f, zlookup filter i = Some f → ∃ op, insn_ok (zlength filter) i f op;
  po_last : ∀ f op, zlookup filter (zlength filter - 1) = Some f →
    bpf_s_of (code f) = Some op → is_ret_op op = true
}.

Lemma zlookup_drop_cons {A} (l : list A) p x l' :
  0 ≤ p → drop (Z.to_nat p) l = x :: l' →
  zlookup l p = Some x ∧ drop (Z.to_nat (p + 1)) l = l'.
Proof.
  intros Hp Hd. split.
  - unfold zlookup. rewrite (proj2 (Z.leb_le _ _)) by done.
    replace (Z.to_nat p) with (Z.to_nat p + 0)%nat by lia. by rewrite <- lookup_drop, Hd.
  - replace (Z.to_nat (p + 1)) with (Z.to_nat p + 1)%nat by lia. by rewrite <- drop_drop, Hd.
Qed.

Lemma uses_nlattr_in skb filter i f op :
  zlookup filter i = Some f → bpf_s_of (code f) = Some op → nlattr_unsafe skb op = true →
  uses_nlattr skb filter = true.
Proof.
  intros Hf Hop Hn. apply existsb_exists. exists f. rewrite Hop. split; [|done].
  unfold zlookup in Hf. case_test; [|done]. apply list_elem_of_In. by eapply list_elem_of_lookup_2.
Qed.

(** after a store the new bit and the old ones are covered *)
Lemma init_bits_store v m k0 x cs :
  0 ≤ k0 < BPF_MEMWORDS → zlength cs = BPF_MEMWORDS → init_bits v cs →
  init_bits (Z.land (u16 (Z.lor v (Z.shiftl 1 k0))) m) (<[Z.to_nat k0 := Some x]> cs).
Proof.
  intros Hk Hlen Hv i Hi. rewrite Z.land_spec. intros [Hb _]%andb_prop.
  destruct (decide (k0 = i)) as [<-|Hne].
  - exists x. rewrite zlookup_insert_eq; [done|lia].
  - rewrite zlookup_insert_ne by lia. apply Hv; [done|]. unfold u16, BPF_MEMWORDS in *.
    rewrite Z.mod_pow2_bits_low, Z.lor_spec, testbit_shiftl1 in Hb by lia.
    destruct (Z.eqb_spec i k0); [lia|]. by rewrite orb_false_r in Hb.
Qed.

Section scan.
Context (env : bpf_env) (skb : sk_buff) (filter : list sock_filter).
Hypothesis Hskb : skb_ok skb.
Hypothesis Hprog : prog_ok filter.

(** the cells the scan knows to be written when execution stands at [pc st]
    and the scan at [p] *)
Definition covered (masks : list Z) (mv p : Z) (st : bpf_state) : Prop :=
  ∀ m, zlookup masks (pc st) = Some m →
    init_bits (if pc st =? p then Z.land mv m else m) (cells st).

Lemma covered_target masks mv p st v :
  target_le masks (pc st) v → init_bits v (cells st) → covered masks mv p st.
Proof.
  intros Ht Hv m Hm. specialize (Ht m Hm). case_test.
  - eapply init_bits_le; [|exact Hv]. transitivity m; [apply bits_le_land_r|done].
  - by eapply init_bits_le.
Qed.

Lemma cls_run suffix : ∀ p masks mv fuel st,
  0 ≤ p → drop (Z.to_nat p) filter = suffix → zlength masks = zlength filter →
  cls_loop masks mv p suffix = Ret tt →
  st_wf st → p ≤ pc st < zlength filter → (Z.to_nat (zlength filter - pc st) ≤ fuel)%nat →
  covered masks mv p st → run_post skb filter (sk_run fuel env skb filter st).
Proof.
  induction suffix as [|f suffix IH]; intros p masks mv fuel st Hp Hdrop Hlen Hcls Hst Hpc Hfuel Hcov.
  { assert (length (drop (Z.to_nat p) filter) = 0%nat) as H0 by by rewrite Hdrop.
    rewrite length_drop in H0. unfold zlength in *. lia. }
  apply zlookup_drop_cons in Hdrop as [Hf Hdrop]; [|done].
  destruct (po_insns _ Hprog p f Hf) as (op & Hok).
  simpl in Hcls. destruct (array_get_in masks p ltac:(lia)) as (m & Em & Hm).
  rewrite Em in Hcls. simpl in Hcls.
  destruct (cls_insn masks (Z.land mv m) p f) as [[masks' mv']| |] eqn:Ei; try done.
  simpl in Hcls. pose proof Hok as (Hop & Hk & Hmem & Hja & Hcond).
  pose proof (cls_insn_post _ _ _ _ _ _ _ Hop Hk Ei) as (Hle & Hstore & Hjat & Hct & Hld & Hother).
  pose proof Hle as [Hlen' Hle'].
  destruct (decide (pc st = p)) as [Heq|Hne].
  2: { eapply (IH (p + 1) masks' mv' fuel st); [lia|done|lia|done|done|lia|done|].
       intros m' Hm'. destruct (Hle' _ _ Hm') as (m0 & Hm0 & Hbits). specialize (Hcov m0 Hm0).
       rewrite (proj2 (Z.eqb_neq (pc st) p)) in Hcov by done.
       case_test; (eapply init_bits_le; [|exact Hcov]); [|done].
       transitivity m'; [apply bits_le_land_r|done]. }
  destruct fuel as [|fuel]; [lia|]. simpl. unfold sk_step. rewrite Heq, Hf, Hop.
  rewrite <- Heq in Hok. pose proof (step_alu_post env skb op f st _ Hst Hskb Hok) as Hpost.
  specialize (Hcov m). rewrite Heq, Z.eqb_refl in Hcov. specialize (Hcov Hm).
  destruct (step_alu env skb op f st) as [st'|v|[]]; simpl in Hpost; try done.
  2: { destruct Hpost as (Hm1 & Hs1 & Hnone). exfalso. destruct (Hmem ltac:(by rewrite Hm1)).
       destruct (Hcov (k f)) as [x Hx]; [done|by apply Hld|]. congruence. }
  2: { by eapply uses_nlattr_in. }
  destruct Hpost as [Hst' Hshape]. unfold step_shape in Hshape.
  assert (is_ret_op op = false → p + 1 < zlength filter) as Hlast.
  { intros Hr. destruct (decide (p = zlength filter - 1)) as [->|]; [|lia].
    rewrite (po_last _ Hprog f op Hf Hop) in Hr. done. }
  destruct (is_store_op op) eqn:Es.
  { destruct Hshape as (Hpc' & x & Hcells). assert (is_mem_op op = true) as Hmo by by destruct op.
    destruct Hst as (_ & _ & _ & Hcl).
    assert (p + 1 < zlength filter) by (apply Hlast; by destruct op).
    eapply (IH (p + 1) masks' mv' fuel st'); try done; try lia.
    intros m' Hm'. rewrite Hpc', Heq, Z.eqb_refl, Hcells, (Hstore eq_refl).
    apply init_bits_store; [apply Hmem; by rewrite Hmo|done|done]. }
  destruct Hshape as [Hcells Hshape]. case_decide as Hj.
  { destruct (Hja Hj). eapply (IH (p + 1) masks' mv' fuel st'); try done; try lia.
    eapply (covered_target _ _ _ _ (Z.land mv m)); [|by rewrite Hcells].
    rewrite Hshape, Heq. by apply Hjat. }
  destruct (is_cond_op op) eqn:Ec.
  { destruct (Hcond ltac:(done)) as (? & ? & ? & ?). destruct (Hct eq_refl) as [Hct1 Hct2].
    eapply (IH (p + 1) masks' mv' fuel st'); try done; try lia.
    eapply (covered_target _ _ _ _ (Z.land mv m)); [|by rewrite Hcells].
    destruct Hshape as [-> | ->]; by rewrite Heq. }
  destruct Hshape as [Hpc' Hr]. specialize (Hlast Hr).
  eapply (IH (p + 1) masks' mv' fuel st'); try done; try lia.
  intros m' _. rewrite Hpc', Heq, Z.eqb_refl, Hcells, (Hother eq_refl Hj eq_refl).
  eapply init_bits_le; [apply bits_le_land_l|done].
Qed.
End scan.

(** ** Lemmas: accepted programs *)

Lemma chk_insns_spec flen filter : ∀ pc fs,
  Forall sock_filter_wf filter → 0 ≤ pc → pc + zlength filter = flen → flen ≤ BPF_MAXINSNS →
  chk_insns flen pc filter = Ret fs →
  zlength fs = zlength filter ∧
  ∀ i f, zlookup fs i = Some f → ∃ op, insn_ok flen (pc + i) f op.
Proof.
  induction filter as [|f0 filter IH]; intros pc fs Hwf Hpc Hflen Hmax; simpl.
  { intros [= <-]. split; [done|]. intros i f Hf%zlookup_Some. unfold zlength in Hf. simpl in Hf. lia. }
  apply Forall_cons in Hwf as [Hf0 Hwf].
  assert (zlength (f0 :: filter) = zlength filter + 1) as Hz by (unfold zlength; simpl; lia).
  pose proof (zlength_nonneg filter).
  destruct (chk_insn flen pc f0) as [f'| |] eqn:E; try done. simpl.
  destruct (chk_insns flen (pc + 1) filter) as [fs'| |] eqn:Es; try done. simpl. intros [= <-].
  destruct (IH (pc + 1) fs' Hwf ltac:(lia) ltac:(lia) Hmax Es) as [Hlen Hall].
  split; [unfold zlength in *; simpl; lia|]. intros i f.
  destruct (decide (i = 0)) as [->|Hne].
  - intros [= <-]. rewrite Z.add_0_r. eapply chk_insn_ok; [exact Hf0| |done|done]. lia.
  - intros Hf. pose proof (zlookup_Some _ _ _ Hf).
    rewrite zlookup_cons_pos in Hf by lia.
    replace (pc + i) with (pc + 1 + (i - 1)) by lia. by apply Hall.
Qed.

Lemma chk_filter_ok alloc filter fs :
  Forall sock_filter_wf filter → sk_chk_filter alloc filter = Ret fs →
  prog_ok fs ∧ 0 < zlength fs ∧
  cls_loop (replicate (length fs) (u16 (-1))) 0 0 fs = Ret tt.
Proof.
  intros Hwf. unfold sk_chk_filter. destruct (_ || _) eqn:E0; [done|]. bprop.
  pose proof (zlength_nonneg filter).
  destruct (chk_insns (zlength filter) 0 filter) as [fs'| |] eqn:E; try done. simpl.
  destruct (chk_insns_spec (zlength filter) filter 0 _ Hwf ltac:(lia) ltac:(lia) ltac:(lia) E) as [Hlen Hall].
  destruct (array_get fs' (zlength filter - 1)) as [last| |] eqn:El; try done. simpl.
  apply array_get_Ret in El.
  destruct (bpf_s_of (code last)) as [op|] eqn:Eop; [|done].
  assert (∀ A (x y : cres A), (match op with BPF_S_RET_K | BPF_S_RET_A => x | _ => y end)
    = if is_ret_op op then x else y) as -> by (intros; by destruct op).
  destruct (is_ret_op op) eqn:Er; [|done]. unfold check_load_and_stores.
  destruct alloc; simpl; [|done].
  destruct (cls_loop _ _ _ fs') as [[]| |] eqn:Ec; try done. simpl. intros [= <-].
  split; [|split; [lia|done]]. split.
  - intros i f Hf. rewrite Hlen. by apply Hall.
  - intros f op' Hf Hop'. rewrite Hlen in Hf. congruence.
Qed.

Lemma bpf_run_post env skb alloc filter fs :
  Forall sock_filter_wf filter → sk_chk_filter alloc filter = Ret fs → skb_ok skb →
  run_post skb fs (sk_run_filter env skb fs).
Proof.
  intros Hwf Hchk Hskb. destruct (chk_filter_ok _ _ _ Hwf Hchk) as (Hprog & Hlen & Hcls).
  unfold sk_run_filter.
  eapply (cls_run env skb fs Hskb Hprog fs 0 _ 0 _ bpf_init);
    [done|done| |exact Hcls| |simpl; lia|unfold zlength; simpl; lia|].
  - unfold zlength. by rewrite length_replicate.
  - split; [done|]. split; [done|]. split; [by repeat constructor|done].
  - intros m _. simpl. rewrite Z.land_0_l. intros i _ Hb. by rewrite Z.testbit_0_l in Hb.
Qed.

(** the checker itself never leaves its arrays, and fails only with EINVAL or
    (when the mask array cannot be allocated) ENOMEM *)
Lemma cls_loop_result suffix : ∀ filter masks mv p,
  0 ≤ p → drop (Z.to_nat p) filter = suffix → zlength masks = zlength filter →
  (∀ i f, zlookup filter i = Some f → ∃ op, insn_ok (zlength filter) i f op) →
  cls_loop masks mv p suffix = Ret tt ∨ cls_loop masks mv p suffix = Err EINVAL.
Proof.
  induction suffix as [|f suffix IH]; intros filter masks mv p Hp Hdrop Hlen Hok; [by left|].
  apply zlookup_drop_cons in Hdrop as [Hf Hdrop]; [|done].
  destruct (Hok p f Hf) as (op & Hi). simpl.
  destruct (array_get_in masks p) as (m & -> & _); [rewrite Hlen; by eapply zlookup_Some|]. simpl.
  pose proof (cls_insn_safe masks (Z.land mv m) p f op _ Hi Hlen Hp) as Hs.
  destruct (cls_insn masks (Z.land mv m) p f) as [[masks' mv']|e|] eqn:E; [|right|done].
  - simpl. destruct Hi as (Hop & Hk & _).
    destruct (cls_insn_post _ _ _ _ _ _ _ Hop Hk E) as ([Hl _] & _).
    eapply (IH filter); [lia|done|lia|done].
  - simpl. f_equal. revert E. unfold cls_insn, mask_and, array_get, array_set.
    repeat (case_match; simpl; try done); by intros [= <-].
Qed.

Lemma chk_insns_err flen filter : ∀ pc,
  chk_insns flen pc filter = Err EINVAL ∨ ∃ fs, chk_insns flen pc filter = Ret fs.
Proof.
  induction filter as [|f filter IH]; intros pc; simpl; [eauto|].
  assert (chk_insn flen pc f = Err EINVAL ∨ ∃ f', chk_insn flen pc f = Ret f') as [->|[f' ->]].
  { unfold chk_insn. repeat case_match; eauto. }
  - by left.
  - simpl. destruct (IH (pc + 1)) as [->|[fs ->]]; simpl; eauto.
Qed.

(** the program contains the nested netlink load *)
Definition uses_nest (filter : list sock_filter) : bool :=
  existsb (λ f, bool_decide (bpf_s_of (code f) = Some BPF_S_ANC_NLATTR_NEST)) filter.

(** ** Properties *)

(** C1: a program that [sk_chk_filter] accepts runs to completion on every
    well-formed packet, in at most one step per instruction, and returns a
    32-bit length: it never fetches an instruction outside the program, never
    touches a scratch cell outside [mem[]] and never reads a cell that was not
    written.  The only reads that can leave the packet buffer are those of the
    two netlink ancillary loads (see [nlattr_unsafe]). *)
Theorem bpf_chk_run_safe env skb alloc filter fs :
  Forall sock_filter_wf filter → sk_chk_filter alloc filter = Ret fs → skb_ok skb →
  match sk_run_filter env skb fs with
  | Returned v => is_u32 v
  | Faulted f => f = BadLoad ∧ uses_nlattr skb fs = true
  | OutOfFuel => False
  end.
Proof.
  intros Hwf Hchk Hskb. pose proof (bpf_run_post env skb alloc filter fs Hwf Hchk Hskb) as Hr.
  destruct (sk_run_filter env skb fs) as [v|[]|]; done.
Qed.

(** C29: the checker terminates without undefined behaviour on every program
    user space can supply; it accepts, or fails with -EINVAL, or with -ENOMEM
    when the allocation of its mask array failed. *)
Theorem sk_chk_filter_total alloc filter :
  Forall sock_filter_wf filter →
  (∃ fs, sk_chk_filter alloc filter = Ret fs) ∨
  sk_chk_filter alloc filter = Err EINVAL ∨
  (alloc = false ∧ sk_chk_filter alloc filter = Err ENOMEM).
Proof.
  intros Hwf. unfold sk_chk_filter. destruct (_ || _) eqn:E0; [eauto|]. bprop.
  pose proof (zlength_nonneg filter).
  destruct (chk_insns_err (zlength filter) filter 0) as [->|[fs E]]; [eauto|].
  destruct (chk_insns_spec (zlength filter) filter 0 _ Hwf ltac:(lia) ltac:(lia) ltac:(lia) E) as [Hlen Hall].
  rewrite E. cbn [mbind cres_bind].
  destruct (array_get_in fs (zlength filter - 1) ltac:(lia)) as (last & -> & _).
  cbn [mbind cres_bind]. unfold check_load_and_stores.
  assert ((cls_loop (replicate (length fs) (u16 (-1))) 0 0 fs = Ret tt) ∨
          (cls_loop (replicate (length fs) (u16 (-1))) 0 0 fs = Err EINVAL)) as Hcls.
  { apply (cls_loop_result fs fs); [lia|done|by unfold zlength; rewrite length_replicate|].
    intros i f Hf. rewrite Hlen. by apply Hall. }
  destruct alloc; destruct Hcls as [-> | ->]; simpl; repeat case_match; eauto.
Qed.

(** on packets of at least four bytes, an accepted program without the
    nested netlink load always returns a length: no fault of any kind. *)
Theorem bpf_no_fault env skb alloc filter fs :
  Forall sock_filter_wf filter → sk_chk_filter alloc filter = Ret fs → skb_ok skb →
  sizeof_nlattr ≤ skb_len skb →
  uses_nest fs = false →
  ∃ v, sk_run_filter env skb fs = Returned v ∧ is_u32 v.
Proof.
  intros Hwf Hchk Hskb Hlen Hnest.
  pose proof (bpf_run_post env skb alloc filter fs Hwf Hchk Hskb) as Hr.
  destruct (sk_run_filter env skb fs) as [v|[]|]; try done; [by exists v|]. exfalso.
  simpl in Hr. unfold uses_nlattr in Hr. apply existsb_exists in Hr as (f & Hin & Hop).
  destruct (bpf_s_of (code f)) as [[]|] eqn:Ef; try done; simpl in Hop; bprop; [lia|].
  assert (uses_nest fs = true); [|congruence]. apply existsb_exists. exists f.
  by rewrite Ef.
Qed.

(** ** Witnesses *)

Definition ex_env : bpf_env := BpfEnv 0 (λ _ _, 0) (λ _ _, 0).

(** a 14-byte Ethernet header of an IPv4 packet, linear *)
Definition ex_skb : sk_buff :=
  SkBuff [1; 2; 3; 4; 5; 6; 7; 8; 9; 10; 11; 12; 8; 0] 0 14 14 0 0 14 8 0 None 0 0 0 [] [].

Lemma ex_skb_ok : skb_ok ex_skb.
Proof.
  unfold skb_ok. rewrite skb_wf_unfold. unfold skb_local_wf, ex_skb, zlength, is_u8, is_u16, is_u32.
  simpl. split_and!; try lia; repeat constructor; lia.
Qed.

Lemma ex_prog_wf : Forall sock_filter_wf ex_prog.
Proof. repeat constructor; unfold is_u8, is_u16, is_u32; simpl; lia. Qed.

Definition ex_checked : list sock_filter :=
  match sk_chk_filter true ex_prog with Ret fs => fs | _ => [] end.

Lemma bpf_chk_run_safe_witness :
  match sk_run_filter ex_env ex_skb ex_checked with
  | Returned v => is_u32 v
  | Faulted f => f = BadLoad ∧ uses_nlattr ex_skb ex_checked = true
  | OutOfFuel => False
  end.
Proof.
  apply (bpf_chk_run_safe ex_env ex_skb true ex_prog ex_checked);
    [apply ex_prog_wf|vm_compute; reflexivity|apply ex_skb_ok].
Defined.

Lemma sk_chk_filter_total_witness :
  (∃ fs, sk_chk_filter true ex_prog = Ret fs) ∨
  sk_chk_filter true ex_prog = Err EINVAL ∨
  (true = false ∧ sk_chk_filter true ex_prog = Err ENOMEM).
Proof. apply (sk_chk_filter_total true ex_prog). apply ex_prog_wf. Defined.

Lemma bpf_no_fault_witness : ∃ v, sk_run_filter ex_env ex_skb ex_checked = Returned v ∧ is_u32 v.
Proof.
  apply (bpf_no_fault ex_env ex_skb true ex_prog ex_checked);
    [apply ex_prog_wf|vm_compute; reflexivity|apply ex_skb_ok|vm_compute; discriminate|].
  vm_compute. reflexivity.
Defined.

Example ex_run_accepts : sk_run_filter ex_env ex_skb ex_checked = Returned 65535.
Proof. vm_compute. reflexivity. Qed.

(** ** What the checker does not protect *)

(** A = 0; X = 99; A = nested attribute; return A *)
Definition nest_prog : list sock_filter :=
  [SockFilter 0 0 0 0; SockFilter 1 0 0 99;
   SockFilter 32 0 0 (u32 (SKF_AD_OFF + SKF_AD_NLATTR_NEST)); SockFilter 22 0 0 0].
(** an attribute that claims 65535 bytes, in a packet of eight *)
Definition nest_skb : sk_buff :=
  SkBuff [255; 255; 1; 0; 4; 0; 2; 0] 0 8 8 0 0 0 8 0 None 0 0 0 [] [].

(** the nested netlink load compares the attribute length with [A - skb->len],
    which wraps around, instead of [skb->len - A]: an accepted program reads
    past the end of the packet *)
Theorem nlattr_nest_reads_outside :
  ∃ fs, sk_chk_filter true nest_prog = Ret fs ∧
        sk_run_filter ex_env nest_skb fs = Faulted BadLoad.
Proof. eexists. split; [vm_compute; reflexivity|]. vm_compute. reflexivity. Qed.

Definition short_prog : list sock_filter :=
  [SockFilter 0 0 0 4294967196; SockFilter 1 0 0 99;
   SockFilter 32 0 0 (u32 (SKF_AD_OFF + SKF_AD_NLATTR)); SockFilter 22 0 0 0].
Definition short_skb : sk_buff := SkBuff [] 0 0 0 0 0 0 8 0 None 0 0 0 [] [].

(** [skb->len - sizeof(struct nlattr)] wraps around for packets shorter than
    an attribute header, so the bound on [A] does not hold there *)
Theorem nlattr_short_reads_outside :
  ∃ fs, sk_chk_filter true short_prog = Ret fs ∧
        sk_run_filter ex_env short_skb fs = Faulted BadLoad.
Proof. eexists. split; [vm_compute; reflexivity|]. vm_compute. reflexivity. Qed.
