(* ===== verification/Cred.v ===== *)
(** * Credentials and capability sets

    The data of the access control core: capability sets
    (include/linux/capability.h), user namespaces (include/linux/sched.h,
    kernel/user_namespace.c), [struct cred] and the part of [task_struct] the
    credential calls change (include/linux/cred.h), the operations of
    kernel/cred.c on them, [cap_capable] of security/commoncap.c and the
    queries of kernel/capability.c built on it.

    Reference counts, RCU publication, the thread keyring and the process
    event connector are not part of the state. *)

From S2P Require Import Prelude.

(** ** Capability sets *)

(** [kernel_cap_t]: [_KERNEL_CAPABILITY_U32S] = 2 words *)
Record kernel_cap_t := MkCaps { cap0 : Z; cap1 : Z }.

Definition CAP_SETGID : Z := 6.
Definition CAP_SETUID : Z := 7.
Definition CAP_SETPCAP : Z := 8.
Definition CAP_SYS_RAWIO : Z := 17.
Definition CAP_SYS_PTRACE : Z := 19.
Definition CAP_SYS_ADMIN : Z := 21.
Definition CAP_SYS_NICE : Z := 23.
Definition CAP_SYS_TIME : Z := 25.
Definition CAP_SETFCAP : Z := 31.
Definition CAP_LAST_CAP : Z := 35.

Definition CAP_TO_INDEX (x : Z) : Z := Z.shiftr x 5.
Definition CAP_TO_MASK (x : Z) : Z := Z.shiftl 1 (Z.land x 31).

Definition cap_valid (x : Z) : bool := (0 <=? x) && (x <=? CAP_LAST_CAP).

(** word [i] of the array, for the two indices it has *)
Definition cap_word (c : kernel_cap_t) (i : Z) : Z :=
  if i =? 0 then cap0 c else if i =? 1 then cap1 c else 0.

Definition cap_raised (c : kernel_cap_t) (flag : Z) : bool :=
  truth (Z.land (cap_word c (CAP_TO_INDEX flag)) (CAP_TO_MASK flag)).
Definition cap_lower (c : kernel_cap_t) (flag : Z) : kernel_cap_t :=
  let m := Z.lnot (CAP_TO_MASK flag) in
  if CAP_TO_INDEX flag =? 0 then MkCaps (Z.land (cap0 c) m) (cap1 c)
  else if CAP_TO_INDEX flag =? 1 then MkCaps (cap0 c) (Z.land (cap1 c) m)
  else c.

Definition CAP_BOP_ALL (op : Z → Z → Z) (a b : kernel_cap_t) : kernel_cap_t :=
  MkCaps (op (cap0 a) (cap0 b)) (op (cap1 a) (cap1 b)).

Definition CAP_EMPTY_SET : kernel_cap_t := MkCaps 0 0.
Definition CAP_FULL_SET : kernel_cap_t := MkCaps (2 ^ 32 - 1) (2 ^ 32 - 1).
(** CAP_CHOWN, CAP_DAC_OVERRIDE, CAP_DAC_READ_SEARCH, CAP_FOWNER, CAP_FSETID,
    CAP_LINUX_IMMUTABLE and CAP_MKNOD; CAP_MAC_OVERRIDE in the second word *)
Definition CAP_FS_SET : kernel_cap_t :=
  MkCaps (foldr (λ x m, Z.lor (CAP_TO_MASK x) m) 0 [0; 27; 1; 2; 3; 4; 9])
         (CAP_TO_MASK 32).

Definition cap_combine := CAP_BOP_ALL Z.lor.
Definition cap_intersect := CAP_BOP_ALL Z.land.
Definition cap_drop := CAP_BOP_ALL (λ a d, Z.land a (Z.lnot d)).

Definition cap_isclear (a : kernel_cap_t) : bool :=
  if truth (cap0 a) then false else if truth (cap1 a) then false else true.
Definition cap_issubset (a set : kernel_cap_t) : bool :=
  cap_isclear (cap_drop a set).

Definition cap_drop_fs_set (a : kernel_cap_t) : kernel_cap_t :=
  cap_drop a CAP_FS_SET.
Definition cap_raise_fs_set (a permitted : kernel_cap_t) : kernel_cap_t :=
  cap_combine a (cap_intersect permitted CAP_FS_SET).

(** ** User namespaces *)

(** A namespace other than the initial one has a creator; a user lives in a
    namespace.  [alloc_uid] keeps one [user_struct] per user id and namespace
    (kernel/user.c), so pointer equality is equality of these values; a
    namespace carries an identity of its own. *)
Inductive user_namespace :=
  | init_user_ns
  | MkNs (ns_id : Z) (creator : user_struct)
with user_struct :=
  | MkUser (user_uid : Z) (user_ns : user_namespace).

Definition user_ns (u : user_struct) : user_namespace :=
  match u with MkUser _ ns => ns end.

Fixpoint ns_eqb (a b : user_namespace) {struct a} : bool :=
  match a, b with
  | init_user_ns, init_user_ns => true
  | MkNs i u, MkNs j v => (i =? j) && user_eqb u v
  | _, _ => false
  end
with user_eqb (a b : user_struct) {struct a} : bool :=
  match a, b with MkUser i n, MkUser j m => (i =? j) && ns_eqb n m end.

(** [root_user] of kernel/user.c *)
Definition INIT_USER : user_struct := MkUser 0 init_user_ns.

(** ** Credentials *)

Record cred := MkCred {
  cr_uid : Z;
  cr_gid : Z;
  cr_suid : Z;
  cr_sgid : Z;
  cr_euid : Z;
  cr_egid : Z;
  cr_fsuid : Z;
  cr_fsgid : Z;
  cr_securebits : Z;
  cr_cap_inheritable : kernel_cap_t;
  cr_cap_permitted : kernel_cap_t;
  cr_cap_effective : kernel_cap_t;
  cr_cap_bset : kernel_cap_t;
  cr_user : user_struct;
  cr_group_info : list Z
}.

Definition set_uid (v : Z) (c : cred) : cred :=
  MkCred v (cr_gid c) (cr_suid c) (cr_sgid c) (cr_euid c) (cr_egid c)
    (cr_fsuid c) (cr_fsgid c) (cr_securebits c) (cr_cap_inheritable c)
    (cr_cap_permitted c) (cr_cap_effective c) (cr_cap_bset c) (cr_user c)
    (cr_group_info c).
Definition set_gid (v : Z) (c : cred) : cred :=
  MkCred (cr_uid c) v (cr_suid c) (cr_sgid c) (cr_euid c) (cr_egid c)
    (cr_fsuid c) (cr_fsgid c) (cr_securebits c) (cr_cap_inheritable c)
    (cr_cap_permitted c) (cr_cap_effective c) (cr_cap_bset c) (cr_user c)
    (cr_group_info c).
Definition set_suid (v : Z) (c : cred) : cred :=
  MkCred (cr_uid c) (cr_gid c) v (cr_sgid c) (cr_euid c) (cr_egid c)
    (cr_fsuid c) (cr_fsgid c) (cr_securebits c) (cr_cap_inheritable c)
    (cr_cap_permitted c) (cr_cap_effective c) (cr_cap_bset c) (cr_user c)
    (cr_group_info c).
Definition set_sgid (v : Z) (c : cred) : cred :=
  MkCred (cr_uid c) (cr_gid c) (cr_suid c) v (cr_euid c) (cr_egid c)
    (cr_fsuid c) (cr_fsgid c) (cr_securebits c) (cr_cap_inheritable c)
    (cr_cap_permitted c) (cr_cap_effective c) (cr_cap_bset c) (cr_user c)
    (cr_group_info c).
Definition set_euid (v : Z) (c : cred) : cred :=
  MkCred (cr_uid c) (cr_gid c) (cr_suid c) (cr_sgid c) v (cr_egid c)
    (cr_fsuid c) (cr_fsgid c) (cr_securebits c) (cr_cap_inheritable c)
    (cr_cap_permitted c) (cr_cap_effective c) (cr_cap_bset c) (cr_user c)
    (cr_group_info c).
Definition set_egid (v : Z) (c : cred) : cred :=
  MkCred (cr_uid c) (cr_gid c) (cr_suid c) (cr_sgid c) (cr_euid c) v
    (cr_fsuid c) (cr_fsgid c) (cr_securebits c) (cr_cap_inheritable c)
    (cr_cap_permitted c) (cr_cap_effective c) (cr_cap_bset c) (cr_user c)
    (cr_group_info c).
Definition set_fsuid (v : Z) (c : cred) : cred :=
  MkCred (cr_uid c) (cr_gid c) (cr_suid c) (cr_sgid c) (cr_euid c) (cr_egid
    c) v (cr_fsgid c) (cr_securebits c) (cr_cap_inheritable c)
    (cr_cap_permitted c) (cr_cap_effective c) (cr_cap_bset c) (cr_user c)
    (cr_group_info c).
Definition set_fsgid (v : Z) (c : cred) : cred :=
  MkCred (cr_uid c) (cr_gid c) (cr_suid c) (cr_sgid c) (cr_euid c) (cr_egid
    c) (cr_fsuid c) v (cr_securebits c) (cr_cap_inheritable c)
    (cr_cap_permitted c) (cr_cap_effective c) (cr_cap_bset c) (cr_user c)
    (cr_group_info c).
Definition set_securebits (v : Z) (c : cred) : cred :=
  MkCred (cr_uid c) (cr_gid c) (cr_suid c) (cr_sgid c) (cr_euid c) (cr_egid
    c) (cr_fsuid c) (cr_fsgid c) v (cr_cap_inheritable c) (cr_cap_permitted
    c) (cr_cap_effective c) (cr_cap_bset c) (cr_user c) (cr_group_info c).
Definition set_cap_inheritable (v : kernel_cap_t) (c : cred) : cred :=
  MkCred (cr_uid c) (cr_gid c) (cr_suid c) (cr_sgid c) (cr_euid c) (cr_egid
    c) (cr_fsuid c) (cr_fsgid c) (cr_securebits c) v (cr_cap_permitted c)
    (cr_cap_effective c) (cr_cap_bset c) (cr_user c) (cr_group_info c).
Definition set_cap_permitted (v : kernel_cap_t) (c : cred) : cred :=
  MkCred (cr_uid c) (cr_gid c) (cr_suid c) (cr_sgid c) (cr_euid c) (cr_egid
    c) (cr_fsuid c) (cr_fsgid c) (cr_securebits c) (cr_cap_inheritable c) v
    (cr_cap_effective c) (cr_cap_bset c) (cr_user c) (cr_group_info c).
Definition set_cap_effective (v : kernel_cap_t) (c : cred) : cred :=
  MkCred (cr_uid c) (cr_gid c) (cr_suid c) (cr_sgid c) (cr_euid c) (cr_egid
    c) (cr_fsuid c) (cr_fsgid c) (cr_securebits c) (cr_cap_inheritable c)
    (cr_cap_permitted c) v (cr_cap_bset c) (cr_user c) (cr_group_info c).
Definition set_cap_bset (v : kernel_cap_t) (c : cred) : cred :=
  MkCred (cr_uid c) (cr_gid c) (cr_suid c) (cr_sgid c) (cr_euid c) (cr_egid
    c) (cr_fsuid c) (cr_fsgid c) (cr_securebits c) (cr_cap_inheritable c)
    (cr_cap_permitted c) (cr_cap_effective c) v (cr_user c) (cr_group_info
    c).
Definition set_cred_user (v : user_struct) (c : cred) : cred :=
  MkCred (cr_uid c) (cr_gid c) (cr_suid c) (cr_sgid c) (cr_euid c) (cr_egid
    c) (cr_fsuid c) (cr_fsgid c) (cr_securebits c) (cr_cap_inheritable c)
    (cr_cap_permitted c) (cr_cap_effective c) (cr_cap_bset c) v
    (cr_group_info c).
Definition set_group_info (v : list Z) (c : cred) : cred :=
  MkCred (cr_uid c) (cr_gid c) (cr_suid c) (cr_sgid c) (cr_euid c) (cr_egid
    c) (cr_fsuid c) (cr_fsgid c) (cr_securebits c) (cr_cap_inheritable c)
    (cr_cap_permitted c) (cr_cap_effective c) (cr_cap_bset c) (cr_user c) v.

(** bits of [securebits] *)
Definition SECURE_NOROOT : Z := 0.
Definition SECURE_NOROOT_LOCKED : Z := 1.
Definition SECURE_NO_SETUID_FIXUP : Z := 2.
Definition SECURE_NO_SETUID_FIXUP_LOCKED : Z := 3.
Definition SECURE_KEEP_CAPS : Z := 4.
Definition SECURE_KEEP_CAPS_LOCKED : Z := 5.
Definition issecure_mask (x : Z) : Z := Z.shiftl 1 x.
Definition SECURE_ALL_BITS : Z :=
  Z.lor (Z.lor (issecure_mask SECURE_NOROOT)
               (issecure_mask SECURE_NO_SETUID_FIXUP))
        (issecure_mask SECURE_KEEP_CAPS).
Definition SECURE_ALL_LOCKS : Z := Z.shiftl SECURE_ALL_BITS 1.

Definition PF_SUPERPRIV : Z := 256.
Definition PF_NPROC_EXCEEDED : Z := 4096.

(** The running task and what the credential calls read and write outside
    it: the process count of each user, the [suid_dumpable] sysctl and the
    task's RLIMIT_NPROC. [mm_dumpable] is [None] for a kernel thread. *)
Record sys := MkSys {
  t_cred : cred;
  t_flags : Z;
  mm_dumpable : option Z;
  pdeath_signal : Z;
  processes : user_struct → Z;
  suid_dumpable : Z;
  rlimit_nproc : Z
}.

Definition with_cred (c : cred) (s : sys) : sys :=
  MkSys c (t_flags s) (mm_dumpable s) (pdeath_signal s) (processes s)
    (suid_dumpable s) (rlimit_nproc s).
Definition with_flags (f : Z) (s : sys) : sys :=
  MkSys (t_cred s) f (mm_dumpable s) (pdeath_signal s) (processes s)
    (suid_dumpable s) (rlimit_nproc s).

(** ** The monad of a system call
    A call reads and changes [sys] and returns, fails or hits [BUG]. *)

Definition sysM (A : Type) : Type := sys → cres A * sys.

#[global] Instance sysM_ret : MRet sysM := λ A a s, (Ret a, s).
#[global] Instance sysM_bind : MBind sysM := λ A B f m s,
  match m s with
  | (Ret a, s') => f a s'
  | (Err e, s') => (Err e, s')
  | (UB, s') => (UB, s')
  end.
Definition fails {A} (e : Z) : sysM A := λ s, (Err e, s).
Definition bug {A} : sysM A := λ s, (UB, s).
Definition gets {A} (f : sys → A) : sysM A := λ s, (Ret (f s), s).
(** a step that neither reads nor changes the state *)
Definition lift {A} (m : cres A) : sysM A := λ s, (m, s).
Definition modify (f : sys → sys) : sysM () := λ s, (Ret tt, f s).
(** the value of a comma-free [if (e) goto error;] *)
Definition guard_err (b : bool) (e : Z) : sysM () :=
  if b then fails e else mret tt.

Definition current_cred : sysM cred := gets t_cred.
Definition issecure (x : Z) : sysM bool :=
  c ← current_cred; mret (truth (Z.land (issecure_mask x) (cr_securebits c))).

(** outcomes of the allocations a call makes *)
Record allocs := MkAllocs { cred_alloc : bool; uid_alloc : bool }.

(** ** kernel/cred.c *)

(** a copy of the current credentials, [NULL] when the allocation fails *)
Definition prepare_creds (al : allocs) : sysM (option cred) :=
  c ← current_cred; mret (if cred_alloc al then Some c else None).

Definition inc_user (u : user_struct) (d : Z) (p : user_struct → Z) :
    user_struct → Z := λ v, if user_eqb v u then p v + d else p v.

Definition commit_creds (new : cred) : sysM () :=
  old ← current_cred;
  (if negb (cr_euid old =? cr_euid new) || negb (cr_egid old =? cr_egid new)
      || negb (cr_fsuid old =? cr_fsuid new)
      || negb (cr_fsgid old =? cr_fsgid new)
      || negb (cap_issubset (cr_cap_permitted new) (cr_cap_permitted old))
   then modify (λ s,
     MkSys (t_cred s) (t_flags s)
       (match mm_dumpable s with Some _ => Some (suid_dumpable s) | None => None end)
       0 (processes s) (suid_dumpable s) (rlimit_nproc s))
   else mret tt);;
  modify (λ s,
    MkSys new (t_flags s) (mm_dumpable s) (pdeath_signal s)
      (if user_eqb (cr_user new) (cr_user old) then processes s
       else inc_user (cr_user old) (-1) (inc_user (cr_user new) 1 (processes s)))
      (suid_dumpable s) (rlimit_nproc s)).

(** ** [cap_capable] and kernel/capability.c *)

(** the loop of [cap_capable], up the chain of creators *)
Fixpoint cap_capable (c : cred) (targ_ns : user_namespace) (cap : Z) : bool :=
  if match targ_ns with
     | init_user_ns => false
     | MkNs _ creator => user_eqb creator (cr_user c)
     end then true
  else if ns_eqb targ_ns (user_ns (cr_user c)) then cap_raised (cr_cap_effective c) cap
  else match targ_ns with
       | init_user_ns => false
       | MkNs _ (MkUser _ parent) => cap_capable c parent cap
       end.

Definition ns_capable (ns : user_namespace) (cap : Z) : sysM bool :=
  if negb (cap_valid cap) then bug else
  c ← current_cred;
  if cap_capable c ns cap then
    modify (λ s, with_flags (Z.lor (t_flags s) PF_SUPERPRIV) s);; mret true
  else mret false.

Definition capable (cap : Z) : sysM bool := ns_capable init_user_ns cap.
Definition nsown_capable (cap : Z) : sysM bool :=
  c ← current_cred; ns_capable (user_ns (cr_user c)) cap.
Definition task_ns_capable (t : cred) (cap : Z) : sysM bool :=
  ns_capable (user_ns (cr_user t)) cap.
Definition has_capability (t : cred) (cap : Z) : bool :=
  cap_capable t init_user_ns cap.
Definition has_ns_capability (t : cred) (ns : user_namespace) (cap : Z) : bool :=
  cap_capable t ns cap.

(** [a || nsown_capable(cap)], evaluated left to right *)
Definition or_nsown (b : bool) (cap : Z) : sysM bool :=
  if b then mret true else nsown_capable cap.

(** ** Capability sets as sets
    A capability set is the set of the capability numbers whose bit is
    raised; the operations of capability.h are the set operations, which
    [set_solver] then decides. *)

#[global] Instance caps_elem_of : ElemOf Z kernel_cap_t := λ c s,
  0 ≤ c < 64 ∧ cap_raised s c = true.

(** the words are 32 bits wide *)
Definition caps_wf (s : kernel_cap_t) : Prop := is_u32 (cap0 s) ∧ is_u32 (cap1 s).

Definition cap_bit (s : kernel_cap_t) (c : Z) : bool :=
  if c <? 32 then Z.testbit (cap0 s) c else Z.testbit (cap1 s) (c - 32).

Lemma truth_land_shiftl x i : 0 ≤ i → truth (Z.land x (Z.shiftl 1 i)) = Z.testbit x i.
Proof.
  intros Hi. rewrite Z.shiftl_1_l. unfold truth.
  assert (∀ j, Z.testbit (Z.land x (2 ^ i)) j = Z.testbit x j && (i =? j)) as Hb.
  { intros j. by rewrite Z.land_spec, Z.pow2_bits_eqb. }
  destruct (Z.testbit x i) eqn:E.
  - apply negb_true_iff, Z.eqb_neq. intros H0. specialize (Hb i).
    rewrite H0, E, Z.eqb_refl, Z.bits_0 in Hb. done.
  - apply negb_false_iff, Z.eqb_eq, Z.bits_inj_0. intros j. rewrite Hb.
    destruct (Z.eqb_spec i j) as [<-|]; [by rewrite E|by rewrite andb_false_r].
Qed.

Lemma cap_index_low c : 0 ≤ c < 32 → CAP_TO_INDEX c = 0.
Proof. intros. unfold CAP_TO_INDEX. rewrite Z.shiftr_div_pow2 by lia. apply Z.div_small. lia. Qed.
Lemma cap_index_high c : 32 ≤ c < 64 → CAP_TO_INDEX c = 1.
Proof.
  intros. unfold CAP_TO_INDEX. rewrite Z.shiftr_div_pow2 by lia.
  change (2 ^ 5) with 32. symmetry. apply (Z.div_unique _ _ _ (c - 32)); lia.
Qed.
Lemma cap_mask_low c : 0 ≤ c < 32 → CAP_TO_MASK c = Z.shiftl 1 c.
Proof.
  intros. unfold CAP_TO_MASK. f_equal. change 31 with (Z.ones 5).
  rewrite Z.land_ones by lia. apply Z.mod_small. lia.
Qed.
Lemma cap_mask_high c : 32 ≤ c < 64 → CAP_TO_MASK c = Z.shiftl 1 (c - 32).
Proof.
  intros. unfold CAP_TO_MASK. f_equal. change 31 with (Z.ones 5).
  rewrite Z.land_ones by lia. change (2 ^ 5) with 32.
  symmetry. apply (Z.mod_unique _ _ 1); lia.
Qed.

Lemma cap_raised_bit s c : 0 ≤ c < 64 → cap_raised s c = cap_bit s c.
Proof.
  intros Hc. unfold cap_raised, cap_bit, cap_word. destruct (Z.ltb_spec c 32).
  - rewrite cap_index_low, cap_mask_low by lia. apply truth_land_shiftl. lia.
  - rewrite cap_index_high, cap_mask_high by lia. cbn. apply truth_land_shiftl. lia.
Qed.

Lemma elem_of_caps c s : c ∈ s ↔ 0 ≤ c < 64 ∧ cap_bit s c = true.
Proof.
  unfold elem_of, caps_elem_of. split; intros [? H]; split; try done.
  - by rewrite <- cap_raised_bit.
  - by rewrite cap_raised_bit.
Qed.

Lemma cap_raised_elem s c : 0 ≤ c < 64 → cap_raised s c = true ↔ c ∈ s.
Proof. intros. unfold elem_of, caps_elem_of. tauto. Qed.

Ltac cap_bits :=
  intros; rewrite ?elem_of_caps; unfold cap_bit, CAP_BOP_ALL; simpl;
  case_test; bprop;
  rewrite ?Z.lor_spec, ?Z.land_spec, ?Z.lnot_spec, ?Z.bits_0 by lia;
  rewrite ?orb_true_iff, ?andb_true_iff, ?negb_true_iff; intuition congruence.

#[global] Instance set_unfold_cap_combine c a b P Q :
  SetUnfoldElemOf c a P → SetUnfoldElemOf c b Q →
  SetUnfoldElemOf c (cap_combine a b) (P ∨ Q).
Proof.
  intros [Ha] [Hb]. constructor. rewrite <- Ha, <- Hb. unfold cap_combine. cap_bits.
Qed.
#[global] Instance set_unfold_cap_intersect c a b P Q :
  SetUnfoldElemOf c a P → SetUnfoldElemOf c b Q →
  SetUnfoldElemOf c (cap_intersect a b) (P ∧ Q).
Proof.
  intros [Ha] [Hb]. constructor. rewrite <- Ha, <- Hb. unfold cap_intersect. cap_bits.
Qed.
Lemma elem_of_cap_drop c a b : c ∈ cap_drop a b ↔ c ∈ a ∧ c ∉ b.
Proof.
  rewrite !elem_of_caps. unfold cap_bit, cap_drop, CAP_BOP_ALL. simpl.
  split.
  - intros [Hc H]. case_test; bprop; rewrite Z.land_spec, Z.lnot_spec in H by lia;
      bprop; (split; [done|intros [_ ?]; congruence]).
  - intros [[Hc H] Hn]. split; [done|]. case_test; bprop;
      rewrite Z.land_spec, Z.lnot_spec, H by lia; simpl;
      apply negb_true_iff, not_true_is_false; intros ?; by apply Hn.
Qed.
#[global] Instance set_unfold_cap_drop c a b P Q :
  SetUnfoldElemOf c a P → SetUnfoldElemOf c b Q →
  SetUnfoldElemOf c (cap_drop a b) (P ∧ ¬ Q).
Proof. intros [Ha] [Hb]. constructor. by rewrite elem_of_cap_drop, Ha, Hb. Qed.
#[global] Instance set_unfold_cap_empty c : SetUnfoldElemOf c CAP_EMPTY_SET False.
Proof. constructor. cap_bits. Qed.

Lemma not_elem_of_cap_empty c : c ∉ CAP_EMPTY_SET.
Proof. set_solver. Qed.

Lemma cap_lower_drop c s : 0 ≤ c < 64 →
  cap_lower s c = cap_drop s (if c <? 32 then MkCaps (CAP_TO_MASK c) 0
                              else MkCaps 0 (CAP_TO_MASK c)).
Proof.
  intros Hc. unfold cap_lower, cap_drop, CAP_BOP_ALL. destruct (Z.ltb_spec c 32).
  - rewrite cap_index_low by lia. cbn [Z.eqb cap0 cap1]. by rewrite Z.land_m1_r.
  - rewrite cap_index_high by lia. cbn [Z.eqb cap0 cap1]. by rewrite Z.land_m1_r.
Qed.

Lemma elem_of_cap_lower x c s :
  0 ≤ c < 64 → x ∈ cap_lower s c ↔ x ∈ s ∧ x ≠ c.
Proof.
  intros Hc. rewrite cap_lower_drop, elem_of_cap_drop by done.
  destruct (Z.ltb_spec c 32).
  - rewrite cap_mask_low by lia.
    rewrite (elem_of_caps x (MkCaps _ _)). unfold cap_bit. simpl.
    split; (intros [Hx Hn]; split; [done|]); [intros ->; apply Hn|intros [? E]; apply Hn].
    + rewrite (proj2 (Z.ltb_lt c 32)) by lia. rewrite Z.shiftl_1_l, Z.pow2_bits_true; lia.
    + case_test; [|by rewrite Z.bits_0 in E]. rewrite Z.shiftl_1_l, Z.pow2_bits_eqb in E by lia.
      bprop. lia.
  - rewrite cap_mask_high by lia.
    rewrite (elem_of_caps x (MkCaps _ _)). unfold cap_bit. simpl.
    split; (intros [Hx Hn]; split; [done|]); [intros ->; apply Hn|intros [? E]; apply Hn].
    + rewrite (proj2 (Z.ltb_ge c 32)) by lia. rewrite Z.shiftl_1_l, Z.pow2_bits_true; lia.
    + case_test; [by rewrite Z.bits_0 in E|]. rewrite Z.shiftl_1_l, Z.pow2_bits_eqb in E by lia.
      bprop. lia.
Qed.

#[global] Instance caps_subseteq_preorder : PreOrder (⊆@{kernel_cap_t}).
Proof. split; [by intros a c|intros a b c H1 H2 x Hx; by apply H2, H1]. Qed.
Lemma caps_not_elem (a b : kernel_cap_t) c : a ⊆ b → c ∉ b → c ∉ a.
Proof. intros H Hn Hc. by apply Hn, H. Qed.

(** a word of 32 bits without a bit is 0 *)
Lemma word_clear x : is_u32 x → (∀ i, 0 ≤ i < 32 → Z.testbit x i = false) → x = 0.
Proof.
  intros Hx H. apply Z.bits_inj_0. intros i.
  destruct (Z.lt_ge_cases i 0); [by apply Z.testbit_neg_r|].
  destruct (Z.lt_ge_cases i 32); [apply H; lia|by apply (bits_above 32)].
Qed.

Lemma cap_isclear_elem s : caps_wf s → cap_isclear s = true ↔ ∀ c, c ∉ s.
Proof.
  intros [H0 H1]. split.
  - unfold cap_isclear, truth. intros H c. rewrite elem_of_caps. unfold cap_bit.
    repeat case_test; bprop; try done; rewrite ?E, ?E0, ?E1, ?Z.bits_0 in *;
      intros [? ?]; congruence.
  - intros H. assert (cap0 s = 0 ∧ cap1 s = 0) as [E0 E1].
    { split; apply word_clear; try done; intros i Hi; apply not_true_is_false; intros E.
      - apply (H i), elem_of_caps. unfold cap_bit.
        rewrite (proj2 (Z.ltb_lt i 32)) by lia. split; [lia|done].
      - apply (H (i + 32)), elem_of_caps. unfold cap_bit.
        rewrite (proj2 (Z.ltb_ge (i + 32) 32)), Z.add_simpl_r by lia. split; [lia|done]. }
    unfold cap_isclear. by rewrite E0, E1.
Qed.

Lemma caps_wf_combine a b : caps_wf a → caps_wf b → caps_wf (cap_combine a b).
Proof. intros [??] [??]; split; by apply (lor_bound 32). Qed.
Lemma caps_wf_intersect a b : caps_wf a → caps_wf (cap_intersect a b).
Proof. intros [??]; split; by apply (land_bound 32). Qed.
Lemma caps_wf_drop a b : caps_wf a → caps_wf (cap_drop a b).
Proof. intros [??]; split; by apply (land_bound 32). Qed.
Lemma caps_wf_lower a c : caps_wf a → caps_wf (cap_lower a c).
Proof.
  intros [??]. unfold cap_lower. repeat case_test; split; try done;
    by apply (land_bound 32).
Qed.
Lemma caps_wf_empty : caps_wf CAP_EMPTY_SET.
Proof. by split. Qed.

(** [cap_issubset] is inclusion *)
Lemma cap_issubset_spec a b : caps_wf a → cap_issubset a b = true ↔ a ⊆ b.
Proof.
  intros Ha. unfold cap_issubset. rewrite cap_isclear_elem by by apply caps_wf_drop.
  split.
  - intros H c Hc. destruct (cap_raised b c) eqn:E; [by destruct Hc|].
    destruct (H c). apply elem_of_cap_drop. split; [done|].
    intros [_ ?]. congruence.
  - intros H c [Hc Hn]%elem_of_cap_drop. by apply Hn, H.
Qed.

Create HintDb caps.
#[export] Hint Resolve caps_wf_combine caps_wf_intersect caps_wf_drop
  caps_wf_lower caps_wf_empty : caps.

(** ** Users and namespaces *)

Scheme ns_mut := Induction for user_namespace Sort Prop
  with user_mut := Induction for user_struct Sort Prop.

Lemma ns_user_eqb_eq :
  (∀ a b, ns_eqb a b = true ↔ a = b).
Proof.
  apply (ns_mut (λ a, ∀ b, ns_eqb a b = true ↔ a = b)
                (λ a, ∀ b, user_eqb a b = true ↔ a = b)).
  - intros []; simpl; split; intros; congruence.
  - intros i u IH [|j v]; simpl; [split; intros; congruence|].
    rewrite andb_true_iff, Z.eqb_eq, IH. split; [by intros [-> ->]|by intros [=]].
  - intros i n IH [j m]; simpl. rewrite andb_true_iff, Z.eqb_eq, IH.
    split; [by intros [-> ->]|by intros [=]].
Qed.

Lemma user_eqb_eq a b : user_eqb a b = true ↔ a = b.
Proof.
  destruct a as [i n], b as [j m]. simpl.
  rewrite andb_true_iff, Z.eqb_eq, ns_user_eqb_eq.
  split; [by intros [-> ->]|by intros [=]].
Qed.

Lemma user_eqb_refl u : user_eqb u u = true.
Proof. by apply user_eqb_eq. Qed.

(** the depth of a namespace below the initial one *)
Fixpoint ns_depth (n : user_namespace) : nat :=
  match n with init_user_ns => 0 | MkNs _ (MkUser _ p) => S (ns_depth p) end.

(** Nobody created a namespace they live in, so over one's own namespace a
    capability is the bit of the effective set. *)
Lemma cap_capable_own c cap :
  cap_capable c (user_ns (cr_user c)) cap = cap_raised (cr_cap_effective c) cap.
Proof.
  destruct (cr_user c) as [i n] eqn:E. simpl.
  assert (ns_eqb n n = true) as Hn by by apply ns_user_eqb_eq.
  destruct n as [|j u]; simpl; rewrite E; simpl; [done|].
  destruct (user_eqb u (MkUser i (MkNs j u))) eqn:Eu.
  { apply user_eqb_eq in Eu. apply (f_equal (λ u, ns_depth (MkNs j u))) in Eu.
    destruct u as [k m]. simpl in Eu. injection Eu. intros Hd.
    exfalso. clear -Hd. simpl in Hd. lia. }
  by rewrite Z.eqb_refl, user_eqb_refl.
Qed.

(** What [cap_capable] decides: the holder created the target namespace or
    one of the namespaces around it, or lives in one of these and has the
    capability raised. *)
Inductive ns_privileged (c : cred) (cap : Z) : user_namespace → Prop :=
  | priv_creator i u : u = cr_user c → ns_privileged c cap (MkNs i u)
  | priv_member n : n = user_ns (cr_user c) →
      cap_raised (cr_cap_effective c) cap = true → ns_privileged c cap n
  | priv_parent i k p : ns_privileged c cap p → ns_privileged c cap (MkNs i (MkUser k p)).

Lemma ns_privileged_depth c cap n :
  ns_privileged c cap n →
  (ns_depth (user_ns (cr_user c)) < ns_depth n)%nat ∨
  (n = user_ns (cr_user c) ∧ cap_raised (cr_cap_effective c) cap = true).
Proof.
  induction 1 as [i u ->|n -> Hr|i k p _ IH].
  - left. destruct (cr_user c). simpl. lia.
  - by right.
  - left. simpl. destruct IH as [|[-> _]]; lia.
Qed.

Lemma cap_capable_step c i k p cap :
  cap_capable c (MkNs i (MkUser k p)) cap =
  if user_eqb (MkUser k p) (cr_user c) then true
  else if ns_eqb (MkNs i (MkUser k p)) (user_ns (cr_user c))
  then cap_raised (cr_cap_effective c) cap
  else cap_capable c p cap.
Proof. done. Qed.

Lemma cap_capable_sound c cap :
  ∀ n, cap_capable c n cap = true → ns_privileged c cap n.
Proof.
  fix IH 1. intros [|i [k p]].
  - change (cap_capable c init_user_ns cap) with
      (if ns_eqb init_user_ns (user_ns (cr_user c))
       then cap_raised (cr_cap_effective c) cap else false).
    case_test; [|done]. apply ns_user_eqb_eq in E. intros. by apply priv_member.
  - rewrite cap_capable_step. case_test; [intros _; by apply priv_creator, user_eqb_eq|].
    case_test; [apply ns_user_eqb_eq in E0; intros; by apply priv_member|].
    intros H. apply priv_parent, IH, H.
Qed.

(** a credential is capable over a namespace exactly when its user
    created that namespace or an enclosing one, or is a member of one of
    these with the capability in its effective set. *)
Theorem cap_capable_spec c targ_ns cap :
  cap_capable c targ_ns cap = true ↔ ns_privileged c cap targ_ns.
Proof.
  split; [apply cap_capable_sound|].
  induction 1 as [i u ->|n -> Hr|i k p Hp IH].
  - simpl. by rewrite user_eqb_refl.
  - by rewrite cap_capable_own.
  - rewrite cap_capable_step, IH. case_test; [done|]. case_test; [|done].
    apply ns_user_eqb_eq in E0.
    apply ns_privileged_depth in Hp as [Hd|[Hd _]].
    + rewrite <- E0 in Hd. simpl in Hd. lia.
    + apply (f_equal ns_depth) in Hd. rewrite <- E0 in Hd. simpl in Hd. lia.
Qed.

(** ** Reasoning about system calls
    [wp m Q E s]: run from [s], [m] does not reach [BUG]; it returns a value
    and a state in [Q], or fails with an error in a state in [E]. *)

Definition wp {A} (m : sysM A) (Q : A → sys → Prop) (E : Z → sys → Prop)
    (s : sys) : Prop :=
  match m s with
  | (Ret a, s') => Q a s'
  | (Err e, s') => E e s'
  | (UB, _) => False
  end.

Lemma wp_bind {A B} (m : sysM A) (f : A → sysM B) Q E s :
  wp m (λ a, wp (f a) Q E) E s → wp (m ≫= f) Q E s.
Proof. unfold wp, mbind, sysM_bind. by destruct (m s) as [[a|e|] s']. Qed.
Lemma wp_ret {A} (a : A) Q E s : Q a s → wp (mret a) Q E s.
Proof. done. Qed.
Lemma wp_fails {A} e (Q : A → sys → Prop) E s : E e s → wp (fails e) Q E s.
Proof. done. Qed.
Lemma wp_gets {A} (f : sys → A) Q E s : Q (f s) s → wp (gets f) Q E s.
Proof. done. Qed.
Lemma wp_modify f Q E s : Q tt (f s) → wp (modify f) Q E s.
Proof. done. Qed.
Lemma wp_guard b e Q E s :
  (b = true → E e s) → (b = false → Q tt s) → wp (guard_err b e) Q E s.
Proof. unfold guard_err. destruct b; naive_solver. Qed.
Lemma wp_mono {A} (m : sysM A) (Q Q' : A → sys → Prop) (E E' : Z → sys → Prop) s :
  wp m Q E s → (∀ a s', Q a s' → Q' a s') → (∀ e s', E e s' → E' e s') → wp m Q' E' s.
Proof. unfold wp. destruct (m s) as [[a|e|] s']; naive_solver. Qed.

(** the credentials are the same; only flags, dumpability and the like moved *)
Definition same_cred (s s' : sys) : Prop := t_cred s' = t_cred s.

Lemma wp_ns_capable ns cap Q E s :
  cap_valid cap = true →
  (∀ s', same_cred s s' → Q (cap_capable (t_cred s) ns cap) s') →
  wp (ns_capable ns cap) Q E s.
Proof.
  intros Hv HQ. unfold ns_capable. rewrite Hv. simpl. apply wp_bind, wp_gets.
  specialize (HQ (if cap_capable (t_cred s) ns cap
    then with_flags (Z.lor (t_flags s) PF_SUPERPRIV) s else s)).
  destruct (cap_capable (t_cred s) ns cap); by apply HQ.
Qed.

Lemma wp_nsown cap Q E s :
  cap_valid cap = true →
  (∀ s', same_cred s s' → Q (cap_raised (cr_cap_effective (t_cred s)) cap) s') →
  wp (nsown_capable cap) Q E s.
Proof.
  intros Hv HQ. apply wp_bind, wp_gets, wp_ns_capable; [done|].
  intros s' Hs. rewrite cap_capable_own. by apply HQ.
Qed.

Lemma wp_or_nsown b cap Q E s :
  cap_valid cap = true →
  (∀ s', same_cred s s' → Q (b || cap_raised (cr_cap_effective (t_cred s)) cap) s') →
  wp (or_nsown b cap) Q E s.
Proof.
  intros Hv HQ. unfold or_nsown. destruct b; [by apply wp_ret, HQ|].
  by apply wp_nsown.
Qed.

Lemma wp_prepare_creds al Q E s :
  Q (if cred_alloc al then Some (t_cred s) else None) s → wp (prepare_creds al) Q E s.
Proof. done. Qed.

Lemma wp_issecure x Q E s :
  Q (truth (Z.land (issecure_mask x) (cr_securebits (t_cred s)))) s →
  wp (issecure x) Q E s.
Proof. done. Qed.

Lemma wp_commit new Q E s :
  (∀ s', t_cred s' = new → Q tt s') → wp (commit_creds new) Q E s.
Proof.
  intros HQ. unfold commit_creds. apply wp_bind, wp_gets, wp_bind.
  case_test; apply wp_modify; by apply HQ.
Qed.
