(* ===== verification/Commoncap.v ===== *)
(** * The capability security module and the capability calls

    security/commoncap.c, the default security operations of this
    configuration (CONFIG_SECURITY with no other module selected), the
    [capget] and [capset] system calls of kernel/capability.c, and the part
    of fs/exec.c that prepares and installs the credentials of a new program.
    Audit records (CONFIG_AUDIT is off) and the printk warnings are left out. *)

From S2P Require Import Prelude Cred.

Definition ENODATA : Z := 61.
Definition EOPNOTSUPP : Z := 95.
Definition ENOSYS : Z := 38.

(** ** Checks on other tasks *)

Definition cap_netlink_recv (cap : Z) : sysM () :=
  c ← current_cred; guard_err (negb (cap_raised (cr_cap_effective c) cap)) EPERM.

Definition cap_settime : sysM () :=
  b ← capable CAP_SYS_TIME; guard_err (negb b) EPERM.

Definition cap_ptrace_access_check (child : cred) : sysM () :=
  c ← current_cred;
  if ns_eqb (user_ns (cr_user c)) (user_ns (cr_user child))
     && cap_issubset (cr_cap_permitted child) (cr_cap_permitted c)
  then mret tt else
  b ← ns_capable (user_ns (cr_user child)) CAP_SYS_PTRACE;
  guard_err (negb b) EPERM.

Definition cap_ptrace_traceme (parent : cred) : sysM () :=
  child ← current_cred;
  if ns_eqb (user_ns (cr_user parent)) (user_ns (cr_user child))
     && cap_issubset (cr_cap_permitted child) (cr_cap_permitted parent)
  then mret tt else
  guard_err (negb (has_ns_capability parent (user_ns (cr_user child)) CAP_SYS_PTRACE))
    EPERM.

Definition cap_safe_nice (p : cred) : sysM () :=
  c ← current_cred;
  let is_subset := cap_issubset (cr_cap_permitted p) (cr_cap_permitted c) in
  if is_subset then mret tt else
  b ← capable CAP_SYS_NICE; guard_err (negb b) EPERM.

(** returns with [PF_SUPERPRIV] set when a low mapping is allowed *)
Definition cap_file_mmap (dac_mmap_min_addr addr : Z) : sysM () :=
  if addr <? dac_mmap_min_addr then
    c ← current_cred;
    if cap_capable c init_user_ns CAP_SYS_RAWIO
    then modify (λ s, with_flags (Z.lor (t_flags s) PF_SUPERPRIV) s)
    else fails EPERM
  else mret tt.

(** ** capget and capset *)

Definition cap_capget (c : cred) : kernel_cap_t * kernel_cap_t * kernel_cap_t :=
  (cr_cap_effective c, cr_cap_inheritable c, cr_cap_permitted c).

Definition cap_inh_is_capped : sysM bool :=
  c ← current_cred;
  mret (if cap_capable c (user_ns (cr_user c)) CAP_SETPCAP then false else true).

Definition cap_capset (new old : cred) (effective inheritable permitted : kernel_cap_t) :
    sysM cred :=
  capped ← cap_inh_is_capped;
  guard_err (capped && negb (cap_issubset inheritable
      (cap_combine (cr_cap_inheritable old) (cr_cap_permitted old)))) EPERM;;
  guard_err (negb (cap_issubset inheritable
      (cap_combine (cr_cap_inheritable old) (cr_cap_bset old)))) EPERM;;
  guard_err (negb (cap_issubset permitted (cr_cap_permitted old))) EPERM;;
  guard_err (negb (cap_issubset effective permitted)) EPERM;;
  mret (set_cap_permitted permitted
         (set_cap_inheritable inheritable (set_cap_effective effective new))).

Definition _LINUX_CAPABILITY_VERSION_1 : Z := 0x19980330.
Definition _LINUX_CAPABILITY_VERSION_2 : Z := 0x20071026.
Definition _LINUX_CAPABILITY_VERSION_3 : Z := 0x20080522.

(** user memory: [None] is an address that faults *)
Record cap_header := MkCapHeader {
  hd_version : option Z;         (* header->version, readable *)
  hd_version_writable : bool;    (* put_user(&header->version) succeeds *)
  hd_pid : option Z
}.
Record cap_data := MkCapData { d_effective : Z; d_permitted : Z; d_inheritable : Z }.

Definition cap_validate_magic (header : cap_header) : cres Z :=
  match hd_version header with
  | None => Err EFAULT
  | Some version =>
      if version =? _LINUX_CAPABILITY_VERSION_1 then Ret 1
      else if (version =? _LINUX_CAPABILITY_VERSION_2)
           || (version =? _LINUX_CAPABILITY_VERSION_3) then Ret 2
      else if negb (hd_version_writable header) then Err EFAULT
      else Err EINVAL
  end.

(** [find_task_by_vpid] is the parameter [find_task]; [self] is the pid of
    the caller *)
Definition cap_get_target_pid (find_task : Z → option cred) (self pid : Z) :
    sysM (kernel_cap_t * kernel_cap_t * kernel_cap_t) :=
  if truth pid && negb (pid =? self) then
    match find_task pid with
    | None => fails ESRCH
    | Some target => mret (cap_capget target)
    end
  else c ← current_cred; mret (cap_capget c).

(** [data] is whether the result can be written and for how many words *)
Definition sys_capget (find_task : Z → option cred) (self : Z) (header : cap_header)
    (dataptr : option bool) : sysM (list cap_data) :=
  match dataptr, cap_validate_magic header with
  | None, Err e => if e =? EINVAL then mret [] else fails e
  | None, Ret _ => mret []
  | _, UB => bug
  | Some _, Err e => fails e
  | Some writable, Ret tocopy =>
      match hd_pid header with
      | None => fails EFAULT
      | Some pid =>
          guard_err (pid <? 0) EINVAL;;
          r ← cap_get_target_pid find_task self pid;
          let '(pE, pI, pP) := r in
          let kdata := map (λ i, MkCapData (cap_word pE i) (cap_word pP i) (cap_word pI i))
                         (seqZ 0 tocopy) in
          guard_err (negb writable) EFAULT;;
          mret kdata
      end
  end.

(** word [i] of a set whose words come from user data; 0 past [tocopy] *)
Definition caps_from_user (f : cap_data → Z) (kdata : list cap_data) : kernel_cap_t :=
  let w i := match kdata !! i with Some d => f d | None => 0 end in
  MkCaps (w 0%nat) (w 1%nat).

(** [copy_from_user] reads [tocopy] entries of the array at [data] *)
Definition copy_caps_from_user (data : option (list cap_data)) (tocopy : Z) :
    cres (list cap_data) :=
  match data with
  | Some l => if tocopy <=? zlength l then Ret (take (Z.to_nat tocopy) l) else Err EFAULT
  | None => Err EFAULT
  end.

Definition sys_capset (al : allocs) (self : Z) (header : cap_header)
    (data : option (list cap_data)) : sysM () :=
  tocopy ← lift (cap_validate_magic header);
  match hd_pid header with
  | None => fails EFAULT
  | Some pid =>
      guard_err (truth pid && negb (pid =? self)) EPERM;;
      guard_err (2 * 12 <? tocopy * 12) EFAULT;;
      kdata ← lift (copy_caps_from_user data tocopy);
      let effective := caps_from_user d_effective kdata in
      let permitted := caps_from_user d_permitted kdata in
      let inheritable := caps_from_user d_inheritable kdata in
      n ← prepare_creds al;
      match n with
      | None => fails ENOMEM
      | Some new =>
          old ← current_cred;
          new ← cap_capset new old effective inheritable permitted;
          commit_creds new
      end
  end.

(** ** execve *)

(** [struct cpu_vfs_cap_data] *)
Record cpu_vfs_cap_data := MkVfsCaps {
  magic_etc : Z; v_permitted : kernel_cap_t; v_inheritable : kernel_cap_t }.

Definition VFS_CAP_REVISION_MASK : Z := 0xFF000000.
Definition VFS_CAP_REVISION_1 : Z := 0x01000000.
Definition VFS_CAP_REVISION_2 : Z := 0x02000000.
Definition VFS_CAP_FLAGS_EFFECTIVE : Z := 1.
Definition XATTR_CAPS_SZ_1 : Z := 4 * (1 + 2 * 1).
Definition XATTR_CAPS_SZ_2 : Z := 4 * (1 + 2 * 2).

(** the executable: its inode, its mount and its capability attribute *)
Record exec_file := MkExecFile {
  f_has_op : bool;                        (* file->f_op != NULL *)
  i_mode : Z; i_uid : Z; i_gid : Z;
  mnt_nosuid : bool;
  (* what inode->i_op->getxattr answers for XATTR_NAME_CAPS and a buffer of
     XATTR_CAPS_SZ bytes: [None] when the inode has no such operation, else an
     error or the bytes stored *)
  i_getxattr : option (Z + list Z)
}.

Definition le32_at (v : list Z) (off : Z) : Z :=
  let b i := default 0 (zlookup v (off + i)) in
  Z.lor (b 0) (Z.lor (Z.shiftl (b 1) 8)
    (Z.lor (Z.shiftl (b 2) 16) (Z.shiftl (b 3) 24))).

Definition get_vfs_caps_from_disk (f : exec_file) : cres cpu_vfs_cap_data :=
  match i_getxattr f with
  | None => Err ENODATA
  | Some x =>
      match x with
      | inl e => if (e =? ENODATA) || (e =? EOPNOTSUPP) then Err ENODATA else Err e
      | inr v =>
          let size := zlength v in
          if size <? 4 then Err EINVAL else
          let magic := le32_at v 0 in
          let rev := Z.land magic VFS_CAP_REVISION_MASK in
          tocopy ← (if rev =? VFS_CAP_REVISION_1 then
                      if negb (size =? XATTR_CAPS_SZ_1) then Err EINVAL else Ret 1
                    else if rev =? VFS_CAP_REVISION_2 then
                      if negb (size =? XATTR_CAPS_SZ_2) then Err EINVAL else Ret 2
                    else Err EINVAL);
          Ret (MkVfsCaps magic
            (MkCaps (le32_at v 4) (if 2 <=? tocopy then le32_at v 12 else 0))
            (MkCaps (le32_at v 8) (if 2 <=? tocopy then le32_at v 16 else 0)))
      end
  end.

(** [effective], [has_cap] and [bprm->cred->cap_permitted] after the call, and
    its error. The error is returned only when the file sets [effective]. *)
Definition bprm_caps_from_vfs_caps (caps : cpu_vfs_cap_data) (new : cred)
    (effective has_cap : bool) : cred * bool * bool * bool :=
  let effective := if truth (Z.land (magic_etc caps) VFS_CAP_FLAGS_EFFECTIVE)
                   then true else effective in
  let has_cap := if truth (Z.land (magic_etc caps) VFS_CAP_REVISION_MASK)
                 then true else has_cap in
  let word i := Z.lor (Z.land (cap_word (cr_cap_bset new) i)
                              (cap_word (v_permitted caps) i))
                      (Z.land (cap_word (cr_cap_inheritable new) i)
                              (cap_word (v_inheritable caps) i)) in
  let insufficient i := truth (Z.land (cap_word (v_permitted caps) i) (Z.lnot (word i))) in
  (set_cap_permitted (MkCaps (word 0) (word 1)) new, effective, has_cap,
   effective && (insufficient 0 || insufficient 1)).

Record linux_binprm := MkBinprm {
  bprm_cred : cred; bprm_unsafe : Z; bprm_cap_effective : bool }.

Definition bprm_clear_caps (new : cred) : cred := set_cap_permitted CAP_EMPTY_SET new.

(** the new credentials, [effective] and [has_cap] *)
Definition get_file_caps (file_caps_enabled : bool) (f : exec_file) (new : cred) :
    cres (cred * bool * bool) :=
  let new := bprm_clear_caps new in
  if negb file_caps_enabled then Ret (new, false, false) else
  if mnt_nosuid f then Ret (new, false, false) else
  match get_vfs_caps_from_disk f with
  | UB => UB
  | Err e => if e =? ENODATA then Ret (new, false, false) else Err e
  | Ret vcaps =>
      let '(new', effective, has_cap, bad) :=
        bprm_caps_from_vfs_caps vcaps new false false in
      if bad then Err EPERM else Ret (new', effective, has_cap)
  end.

Definition LSM_UNSAFE_PTRACE_CAP : Z := 4.

(** the tail of [cap_bprm_set_creds]: the saved and file system ids follow
    the effective ones, the effective set follows the permitted one or is
    cleared, and KEEP_CAPS is reset *)
Definition bprm_finish (new : cred) (effective : bool) : cred :=
  let new := set_suid (cr_euid new) (set_fsuid (cr_euid new) new) in
  let new := set_sgid (cr_egid new) (set_fsgid (cr_egid new) new) in
  let new := set_cap_effective
    (if effective then cr_cap_permitted new else CAP_EMPTY_SET) new in
  set_securebits
    (Z.land (cr_securebits new) (Z.lnot (issecure_mask SECURE_KEEP_CAPS))) new.

Definition cap_bprm_set_creds (file_caps_enabled : bool) (f : exec_file)
    (bprm : linux_binprm) : sysM linux_binprm :=
  old ← current_cred;
  r ← lift (get_file_caps file_caps_enabled f (bprm_cred bprm));
  let '(new, effective, has_cap) := r in
  noroot ← issecure SECURE_NOROOT;
  let '(new, effective) :=
    if negb noroot
       && negb (has_cap && negb (cr_uid new =? 0) && (cr_euid new =? 0)) then
      ((if (cr_euid new =? 0) || (cr_uid new =? 0)
        then set_cap_permitted
               (cap_combine (cr_cap_bset old) (cr_cap_inheritable old)) new
        else new),
       if cr_euid new =? 0 then true else effective)
    else (new, effective) in
  new ← (if (negb (cr_euid new =? cr_uid old) || negb (cr_egid new =? cr_gid old)
             || negb (cap_issubset (cr_cap_permitted new) (cr_cap_permitted old)))
            && truth (Z.land (bprm_unsafe bprm) (Z.lnot LSM_UNSAFE_PTRACE_CAP))
         then b ← capable CAP_SETUID;
              let new := if b : bool then new
                         else set_egid (cr_gid new) (set_euid (cr_uid new) new) in
              mret (set_cap_permitted
                      (cap_intersect (cr_cap_permitted new) (cr_cap_permitted old)) new)
         else mret new);
  mret (MkBinprm (bprm_finish new effective) (bprm_unsafe bprm) effective).

Definition cap_bprm_secureexec (cap_effective : bool) : sysM bool :=
  c ← current_cred;
  if negb (cr_uid c =? 0) && (cap_effective || negb (cap_isclear (cr_cap_permitted c)))
  then mret true
  else mret (negb (cr_euid c =? cr_uid c) || negb (cr_egid c =? cr_gid c)).

Definition S_ISUID : Z := 2048.
Definition S_ISGID : Z := 1024.
Definition S_IXGRP : Z := 8.

(** the credential part of [prepare_binprm] (fs/exec.c) *)
Definition prepare_binprm (file_caps_enabled : bool) (f : exec_file)
    (bprm : linux_binprm) : sysM linux_binprm :=
  guard_err (negb (f_has_op f)) EACCES;;
  c ← current_cred;
  let new := set_egid (cr_egid c) (set_euid (cr_euid c) (bprm_cred bprm)) in
  let new :=
    if negb (mnt_nosuid f) then
      let new := if truth (Z.land (i_mode f) S_ISUID) then set_euid (i_uid f) new else new in
      if Z.land (i_mode f) (Z.lor S_ISGID S_IXGRP) =? Z.lor S_ISGID S_IXGRP
      then set_egid (i_gid f) new else new
    else new in
  cap_bprm_set_creds file_caps_enabled f
    (MkBinprm new (bprm_unsafe bprm) (bprm_cap_effective bprm)).

(** The credential path of an execve that succeeds: [prepare_bprm_creds],
    [prepare_binprm] on each file of the interpreter chain, then
    [install_exec_creds]. [unsafe] is what [check_unsafe_exec] found. *)
Fixpoint prepare_chain (file_caps_enabled : bool) (fs : list exec_file)
    (bprm : linux_binprm) : sysM linux_binprm :=
  match fs with
  | [] => mret bprm
  | f :: fs => bprm ← prepare_binprm file_caps_enabled f bprm;
               prepare_chain file_caps_enabled fs bprm
  end.

Definition exec_creds (al : allocs) (file_caps_enabled : bool) (unsafe : Z)
    (f : exec_file) (fs : list exec_file) : sysM bool :=
  n ← prepare_creds al;
  match n with
  | None => fails ENOMEM
  | Some new =>
      bprm ← prepare_chain file_caps_enabled (f :: fs) (MkBinprm new unsafe false);
      commit_creds (bprm_cred bprm);;
      cap_bprm_secureexec (bprm_cap_effective bprm)
  end.

(** ** Changes of user id *)

Inductive setid_flags := LSM_SETID_ID | LSM_SETID_RE | LSM_SETID_RES | LSM_SETID_FS.

Definition cap_emulate_setxuid (new old : cred) : sysM cred :=
  keep ← issecure SECURE_KEEP_CAPS;
  let new :=
    if ((cr_uid old =? 0) || (cr_euid old =? 0) || (cr_suid old =? 0))
       && (negb (cr_uid new =? 0) && negb (cr_euid new =? 0) && negb (cr_suid new =? 0))
       && negb keep
    then set_cap_effective CAP_EMPTY_SET (set_cap_permitted CAP_EMPTY_SET new)
    else new in
  let new :=
    if (cr_euid old =? 0) && negb (cr_euid new =? 0)
    then set_cap_effective CAP_EMPTY_SET new else new in
  mret (if negb (cr_euid old =? 0) && (cr_euid new =? 0)
        then set_cap_effective (cr_cap_permitted new) new else new).

Definition cap_task_fix_setuid (new old : cred) (flags : setid_flags) : sysM cred :=
  nofix ← issecure SECURE_NO_SETUID_FIXUP;
  match flags with
  | LSM_SETID_RE | LSM_SETID_ID | LSM_SETID_RES =>
      if negb nofix then cap_emulate_setxuid new old else mret new
  | LSM_SETID_FS =>
      if negb nofix then
        let new :=
          if (cr_fsuid old =? 0) && negb (cr_fsuid new =? 0)
          then set_cap_effective (cap_drop_fs_set (cr_cap_effective new)) new else new in
        mret (if negb (cr_fsuid old =? 0) && (cr_fsuid new =? 0)
              then set_cap_effective (cap_raise_fs_set (cr_cap_effective new)
                     (cr_cap_permitted new)) new
              else new)
      else mret new
  end.

(** ** prctl *)

Definition PR_GET_KEEPCAPS : Z := 7.
Definition PR_SET_KEEPCAPS : Z := 8.
Definition PR_CAPBSET_READ : Z := 23.
Definition PR_CAPBSET_DROP : Z := 24.
Definition PR_GET_SECUREBITS : Z := 27.
Definition PR_SET_SECUREBITS : Z := 28.

Definition cap_prctl_drop (new : cred) (cap : Z) : sysM cred :=
  b ← capable CAP_SETPCAP;
  guard_err (negb b) EPERM;;
  guard_err (negb (cap_valid cap)) EINVAL;;
  mret (set_cap_bset (cap_lower (cr_cap_bset new) cap) new).

(** [arg2] is an unsigned long (32 bits) *)
Definition cap_task_prctl (al : allocs) (option : Z) (arg2 : Z) : sysM Z :=
  n ← prepare_creds al;
  match n with
  | None => fails ENOMEM
  | Some new =>
      if option =? PR_CAPBSET_READ then
        guard_err (negb (cap_valid arg2)) EINVAL;;
        mret (c_bool (cap_raised (cr_cap_bset new) arg2))
      else if option =? PR_CAPBSET_DROP then
        new ← cap_prctl_drop new arg2;
        commit_creds new;; mret 0
      else if option =? PR_SET_SECUREBITS then
        c ← current_cred;
        let sb := cr_securebits new in
        guard_err
          (truth (Z.land (Z.shiftr (Z.land sb SECURE_ALL_LOCKS) 1) (Z.lxor sb arg2))
           || truth (Z.land (Z.land sb SECURE_ALL_LOCKS) (Z.lnot arg2))
           || truth (Z.land arg2 (Z.lnot (Z.lor SECURE_ALL_LOCKS SECURE_ALL_BITS)))
           || negb (cap_capable c (user_ns (cr_user c)) CAP_SETPCAP)) EPERM;;
        commit_creds (set_securebits arg2 new);; mret 0
      else if option =? PR_GET_SECUREBITS then mret (cr_securebits new)
      else if option =? PR_GET_KEEPCAPS then
        k ← issecure SECURE_KEEP_CAPS; mret (c_bool k)
      else if option =? PR_SET_KEEPCAPS then
        guard_err (1 <? arg2) EINVAL;;
        locked ← issecure SECURE_KEEP_CAPS_LOCKED;
        guard_err locked EPERM;;
        let sb := cr_securebits new in
        commit_creds (set_securebits
          (if truth arg2 then Z.lor sb (issecure_mask SECURE_KEEP_CAPS)
           else Z.land sb (Z.lnot (issecure_mask SECURE_KEEP_CAPS))) new);;
        mret 0
      else fails ENOSYS
  end.
