(* ===== verification/SetId.v ===== *)
(** * The user and group id calls

    setregid, setgid, setreuid, setuid, setresuid, setresgid, setfsuid and
    setfsgid of kernel/sys.c with [set_user], and set_groups / setgroups of
    kernel/groups.c. The type uid_t is an unsigned 32-bit integer and
    [(uid_t) -1] means "leave unchanged". *)

From S2P Require Import Prelude Cred Commoncap.

Definition no_id : Z := 2 ^ 32 - 1.

(** [new = prepare_creds(); if (!new) return -ENOMEM; old = current_cred();] *)
Definition with_new {A} (al : allocs) (k : cred → cred → sysM A) : sysM A :=
  n ← prepare_creds al;
  match n with
  | None => fails ENOMEM
  | Some new => old ← current_cred; k new old
  end.

(** ** Group ids *)

Definition sys_setregid (al : allocs) (rgid egid : Z) : sysM () :=
  with_new al (λ new old,
    new ← (if negb (rgid =? no_id) then
             b ← or_nsown ((cr_gid old =? rgid) || (cr_egid old =? rgid)) CAP_SETGID;
             if b : bool then mret (set_gid rgid new) else fails EPERM
           else mret new);
    new ← (if negb (egid =? no_id) then
             b ← or_nsown ((cr_gid old =? egid) || (cr_egid old =? egid)
                           || (cr_sgid old =? egid)) CAP_SETGID;
             if b : bool then mret (set_egid egid new) else fails EPERM
           else mret new);
    let new := if negb (rgid =? no_id)
                  || (negb (egid =? no_id) && negb (egid =? cr_gid old))
               then set_sgid (cr_egid new) new else new in
    let new := set_fsgid (cr_egid new) new in
    commit_creds new).

Definition sys_setgid (al : allocs) (gid : Z) : sysM () :=
  with_new al (λ new old,
    b ← nsown_capable CAP_SETGID;
    if b : bool then
      commit_creds (set_gid gid (set_egid gid (set_sgid gid (set_fsgid gid new))))
    else if (gid =? cr_gid old) || (gid =? cr_sgid old) then
      commit_creds (set_egid gid (set_fsgid gid new))
    else fails EPERM).

Definition sys_setresgid (al : allocs) (rgid egid sgid : Z) : sysM () :=
  with_new al (λ new old,
    let bad x := negb (x =? no_id) && negb (x =? cr_gid old)
                 && negb (x =? cr_egid old) && negb (x =? cr_sgid old) in
    b ← nsown_capable CAP_SETGID;
    (if negb b then guard_err (bad rgid) EPERM;; guard_err (bad egid) EPERM;;
                    guard_err (bad sgid) EPERM
     else mret tt);;
    let new := if negb (rgid =? no_id) then set_gid rgid new else new in
    let new := if negb (egid =? no_id) then set_egid egid new else new in
    let new := if negb (sgid =? no_id) then set_sgid sgid new else new in
    let new := set_fsgid (cr_egid new) new in
    commit_creds new).

(** returns the previous fsgid, whatever happens *)
Definition sys_setfsgid (al : allocs) (gid : Z) : sysM Z :=
  n ← prepare_creds al;
  match n with
  | None => c ← current_cred; mret (cr_fsgid c)
  | Some new =>
      old ← current_cred;
      b ← or_nsown ((gid =? cr_gid old) || (gid =? cr_egid old)
                    || (gid =? cr_sgid old) || (gid =? cr_fsgid old)) CAP_SETGID;
      if b && negb (gid =? cr_fsgid old) then
        commit_creds (set_fsgid gid new);; mret (cr_fsgid old)
      else mret (cr_fsgid old)
  end.

(** ** User ids *)

(** [alloc_uid]: the user of this id in this namespace, [NULL] when it is not
    there and cannot be allocated *)
Definition alloc_uid (al : allocs) (ns : user_namespace) (uid : Z) : option user_struct :=
  if uid_alloc al then Some (MkUser uid ns) else None.

Definition set_user (al : allocs) (new : cred) : sysM cred :=
  c ← current_cred;
  match alloc_uid al (user_ns (cr_user c)) (cr_uid new) with
  | None => fails EAGAIN
  | Some new_user =>
      modify (λ s, with_flags
        (if (rlimit_nproc s <=? u32 (processes s new_user))
            && negb (user_eqb new_user INIT_USER)
         then Z.lor (t_flags s) PF_NPROC_EXCEEDED
         else Z.land (t_flags s) (Z.lnot PF_NPROC_EXCEEDED)) s);;
      mret (set_cred_user new_user new)
  end.

Definition sys_setreuid (al : allocs) (ruid euid : Z) : sysM () :=
  with_new al (λ new old,
    new ← (if negb (ruid =? no_id) then
             b ← or_nsown ((cr_uid old =? ruid) || (cr_euid old =? ruid)) CAP_SETUID;
             guard_err (negb b) EPERM;; mret (set_uid ruid new)
           else mret new);
    new ← (if negb (euid =? no_id) then
             b ← or_nsown ((cr_uid old =? euid) || (cr_euid old =? euid)
                           || (cr_suid old =? euid)) CAP_SETUID;
             guard_err (negb b) EPERM;; mret (set_euid euid new)
           else mret new);
    new ← (if negb (cr_uid new =? cr_uid old) then set_user al new else mret new);
    let new := if negb (ruid =? no_id)
                  || (negb (euid =? no_id) && negb (euid =? cr_uid old))
               then set_suid (cr_euid new) new else new in
    let new := set_fsuid (cr_euid new) new in
    new ← cap_task_fix_setuid new old LSM_SETID_RE;
    commit_creds new).

Definition sys_setuid (al : allocs) (uid : Z) : sysM () :=
  with_new al (λ new old,
    b ← nsown_capable CAP_SETUID;
    new ← (if b : bool then
             let new := set_suid uid (set_uid uid new) in
             if negb (uid =? cr_uid old) then set_user al new else mret new
           else if negb (uid =? cr_uid old) && negb (uid =? cr_suid new) then fails EPERM
           else mret new);
    let new := set_fsuid uid (set_euid uid new) in
    new ← cap_task_fix_setuid new old LSM_SETID_ID;
    commit_creds new).

Definition sys_setresuid (al : allocs) (ruid euid suid : Z) : sysM () :=
  with_new al (λ new old,
    let bad x := negb (x =? no_id) && negb (x =? cr_uid old)
                 && negb (x =? cr_euid old) && negb (x =? cr_suid old) in
    b ← nsown_capable CAP_SETUID;
    (if negb b then guard_err (bad ruid) EPERM;; guard_err (bad euid) EPERM;;
                    guard_err (bad suid) EPERM
     else mret tt);;
    new ← (if negb (ruid =? no_id) then
             let new := set_uid ruid new in
             if negb (ruid =? cr_uid old) then set_user al new else mret new
           else mret new);
    let new := if negb (euid =? no_id) then set_euid euid new else new in
    let new := if negb (suid =? no_id) then set_suid suid new else new in
    let new := set_fsuid (cr_euid new) new in
    new ← cap_task_fix_setuid new old LSM_SETID_RES;
    commit_creds new).

(** returns the previous fsuid, whatever happens *)
Definition sys_setfsuid (al : allocs) (uid : Z) : sysM Z :=
  n ← prepare_creds al;
  match n with
  | None => c ← current_cred; mret (cr_fsuid c)
  | Some new =>
      old ← current_cred;
      b ← or_nsown ((uid =? cr_uid old) || (uid =? cr_euid old)
                    || (uid =? cr_suid old) || (uid =? cr_fsuid old)) CAP_SETUID;
      if b && negb (uid =? cr_fsuid old) then
        new ← cap_task_fix_setuid (set_fsuid uid new) old LSM_SETID_FS;
        commit_creds new;; mret (cr_fsuid old)
      else mret (cr_fsuid old)
  end.
