(* ===== verification/Groups.v ===== *)
(** * Supplementary groups (kernel/groups.c)

    A [group_info] is the list of its [ngroups] ids: the pages of
    NGROUPS_PER_BLOCK ids the code indexes through GROUP_AT are concatenated.
    Sorting and searching are executed on that array with its bounds checked. *)

From stdpp Require Import sorting.
From S2P Require Import Prelude Cred.

Definition NGROUPS_MAX : Z := 65536.

(** ** Sorting *)

(** [for (stride = 1; stride < gidsetsize; stride = 3 * stride + 1);] *)
Fixpoint first_stride (fuel : nat) (gidsetsize stride : Z) : Z :=
  match fuel with
  | O => stride
  | S fuel => if stride <? gidsetsize
              then first_stride fuel gidsetsize (3 * stride + 1) else stride
  end.

(** the inner [while], then the store of [tmp] *)
Fixpoint groups_insert (fuel : nat) (g : list Z) (stride left right tmp : Z) :
    cres (list Z) :=
  match fuel with
  | O => UB
  | S fuel =>
      if 0 <=? left then
        x ← array_get g left;
        if x >? tmp then
          g ← array_set g right x;
          groups_insert fuel g stride (left - stride) left tmp
        else array_set g right tmp
      else array_set g right tmp
  end.

(** the [for] over [base], for the [n] values that remain *)
Fixpoint groups_pass (n : nat) (g : list Z) (stride base : Z) : cres (list Z) :=
  match n with
  | O => Ret g
  | S n =>
      let left := base in
      let right := left + stride in
      tmp ← array_get g right;
      g ← groups_insert (S (Z.to_nat (left + 1))) g stride left right tmp;
      groups_pass n g stride (base + 1)
  end.

Fixpoint groups_passes (fuel : nat) (g : list Z) (stride : Z) : cres (list Z) :=
  match fuel with
  | O => UB
  | S fuel =>
      if truth stride then
        let max := zlength g - stride in
        g ← groups_pass (Z.to_nat max) g stride 0;
        groups_passes fuel g (stride ÷ 3)
      else Ret g
  end.

Definition groups_sort (g : list Z) : cres (list Z) :=
  let gidsetsize := zlength g in
  let stride := first_stride (Z.to_nat gidsetsize) gidsetsize 1 in
  groups_passes (S (Z.to_nat stride)) g (stride ÷ 3).

(** ** Searching *)

Fixpoint groups_bsearch (fuel : nat) (g : list Z) (grp left right : Z) : cres bool :=
  match fuel with
  | O => UB
  | S fuel =>
      if left <? right then
        let mid := u32 (left + right) / 2 in
        x ← array_get g mid;
        if grp >? x then groups_bsearch fuel g grp (mid + 1) right
        else if grp <? x then groups_bsearch fuel g grp left mid
        else Ret true
      else Ret false
  end.

(** [None] is a null [group_info] *)
Definition groups_search (gi : option (list Z)) (grp : Z) : cres bool :=
  match gi with
  | None => Ret false
  | Some g => groups_bsearch (S (length g)) g grp 0 (zlength g)
  end.

Definition in_group_p (c : cred) (grp : Z) : cres bool :=
  if negb (grp =? cr_fsgid c) then groups_search (Some (cr_group_info c)) grp else Ret true.
Definition in_egroup_p (c : cred) (grp : Z) : cres bool :=
  if negb (grp =? cr_egid c) then groups_search (Some (cr_group_info c)) grp else Ret true.

(** ** The system calls *)

Definition set_groups (new : cred) (g : list Z) : sysM cred :=
  g ← lift (groups_sort g); mret (set_group_info g new).

Definition set_current_groups (al : allocs) (g : list Z) : sysM () :=
  n ← prepare_creds al;
  match n with
  | None => fails ENOMEM
  | Some new => new ← set_groups new g; commit_creds new
  end.

(** [user] is the array at [grouplist], [None] when it faults; [galloc] the
    outcome of [groups_alloc] *)
Definition sys_setgroups (al : allocs) (galloc : bool) (gidsetsize : Z)
    (user : option (list Z)) : sysM () :=
  b ← nsown_capable CAP_SETGID;
  guard_err (negb b) EPERM;;
  guard_err (u32 gidsetsize >? NGROUPS_MAX) EINVAL;;
  guard_err (negb galloc) ENOMEM;;
  match user with
  | Some l =>
      if gidsetsize <=? zlength l
      then set_current_groups al (take (Z.to_nat gidsetsize) l)
      else fails EFAULT
  | None => if gidsetsize =? 0 then set_current_groups al [] else fails EFAULT
  end.

(** [room] is whether the user buffer can be written *)
Definition sys_getgroups (gidsetsize : Z) (room : bool) : sysM (Z * list Z) :=
  c ← current_cred;
  guard_err (gidsetsize <? 0) EINVAL;;
  let i := zlength (cr_group_info c) in
  if truth gidsetsize then
    guard_err (i >? gidsetsize) EINVAL;;
    guard_err (negb room) EFAULT;;
    mret (i, cr_group_info c)
  else mret (i, []).

(** ** The sort *)

(** element [i], for an index in range *)
Definition at_ (g : list Z) (i : Z) : Z := g !!! Z.to_nat i.

Lemma array_get_at g i : 0 ≤ i < zlength g → array_get g i = Ret (at_ g i).
Proof.
  intros Hi. destruct (array_get_in g i Hi) as (a & -> & Ha). f_equal.
  unfold at_, zlookup in *. rewrite (proj2 (Z.leb_le 0 i)) in Ha by lia.
  symmetry. by apply list_lookup_total_correct.
Qed.
Lemma at_insert_eq g i x : 0 ≤ i < zlength g → at_ (<[Z.to_nat i := x]> g) i = x.
Proof. unfold at_, zlength. intros. apply list_lookup_total_insert_eq. lia. Qed.
Lemma at_insert_ne g i j x :
  0 ≤ i → 0 ≤ j → i ≠ j → at_ (<[Z.to_nat i := x]> g) j = at_ g j.
Proof. unfold at_. intros. apply list_lookup_total_insert_ne. lia. Qed.

Lemma swap_perm (l : list Z) (i j : nat) a b :
  l !! i = Some a → l !! j = Some b → <[i := b]> (<[j := a]> l) ≡ₚ l.
Proof.
  intros Hi Hj. apply Permutation_inj. split; [by rewrite !length_insert|].
  exists (λ k, if decide (k = i) then j else if decide (k = j) then i else k).
  split.
  - intros x y. repeat case_decide; congruence.
  - intros k.
    pose proof (lookup_lt_Some _ _ _ Hi). pose proof (lookup_lt_Some _ _ _ Hj).
    case_decide as Ei; [subst; by rewrite list_lookup_insert_eq by (rewrite length_insert; lia)|].
    rewrite list_lookup_insert_ne by done.
    case_decide as Ej; [subst; by rewrite list_lookup_insert_eq|].
    by rewrite list_lookup_insert_ne.
Qed.

(** moving an element into the hole moves the hole *)
Lemma hole_perm g left right tmp :
  0 ≤ left → 0 ≤ right → left ≠ right → left < zlength g → right < zlength g →
  <[Z.to_nat left := tmp]> (<[Z.to_nat right := at_ g left]> g)
  ≡ₚ <[Z.to_nat right := tmp]> g.
Proof.
  unfold zlength, at_. intros.
  rewrite <- (swap_perm (<[Z.to_nat right := tmp]> g) (Z.to_nat left) (Z.to_nat right)
    (g !!! Z.to_nat left) tmp).
  - by rewrite list_insert_insert_eq.
  - rewrite list_lookup_insert_ne by lia. apply list_lookup_lookup_total_lt. lia.
  - apply list_lookup_insert_eq. lia.
Qed.

(** indices up to [m] are in order, the hole at [right] apart, and [tmp]
    belongs before what follows the hole *)
Definition ordered_but (g : list Z) (right m tmp : Z) : Prop :=
  (∀ i j, 0 ≤ i < j → j ≤ m → i ≠ right → j ≠ right → at_ g i ≤ at_ g j) ∧
  (∀ j, right < j ≤ m → tmp ≤ at_ g j).
Definition ordered_upto (g : list Z) (m : Z) : Prop :=
  ∀ i j, 0 ≤ i < j → j ≤ m → at_ g i ≤ at_ g j.

Lemma hole_shift g left m tmp :
  0 ≤ left → left + 1 ≤ m < zlength g → at_ g left > tmp →
  ordered_but g (left + 1) m tmp →
  ordered_but (<[Z.to_nat (left + 1) := at_ g left]> g) left m tmp.
Proof.
  intros Hl Hm Hx [Ho Ht]. split.
  - intros i j Hij Hj Hi1 Hj1.
    destruct (decide (i = left + 1)) as [->|]; [|destruct (decide (j = left + 1)) as [->|]].
    + rewrite at_insert_eq, at_insert_ne by lia. apply Ho; lia.
    + rewrite at_insert_eq, at_insert_ne by lia. apply Ho; lia.
    + rewrite !at_insert_ne by lia. apply Ho; lia.
  - intros j Hj. destruct (decide (j = left + 1)) as [->|].
    + rewrite at_insert_eq by lia. lia.
    + rewrite at_insert_ne by lia. apply Ht. lia.
Qed.

Lemma hole_fill g left m tmp :
  -1 ≤ left → left + 1 ≤ m < zlength g → (left = -1 ∨ at_ g left ≤ tmp) →
  ordered_but g (left + 1) m tmp →
  ordered_upto (<[Z.to_nat (left + 1) := tmp]> g) m.
Proof.
  intros Hl Hm Hx [Ho Ht] i j Hij Hj.
  destruct (decide (i = left + 1)) as [->|]; [|destruct (decide (j = left + 1)) as [->|]].
  - rewrite at_insert_eq, at_insert_ne by lia. apply Ht. lia.
  - rewrite at_insert_eq, at_insert_ne by lia. destruct Hx; [lia|].
    destruct (decide (i = left)) as [->|]; [done|].
    transitivity (at_ g left); [apply Ho; lia|done].
  - rewrite !at_insert_ne by lia. apply Ho; lia.
Qed.

Lemma groups_insert_spec fuel g stride left right tmp :
  0 < stride → right = left + stride → - stride ≤ left → right < zlength g →
  Z.max 0 (left + 1) < Z.of_nat fuel →
  ∃ g', groups_insert fuel g stride left right tmp = Ret g' ∧
    g' ≡ₚ <[Z.to_nat right := tmp]> g ∧
    (∀ m, stride = 1 → right ≤ m < zlength g →
      ordered_but g right m tmp → ordered_upto g' m).
Proof.
  revert g left right. induction fuel as [|fuel IH]; intros g left right Hs -> Hl Hr Hf;
    [lia|]. simpl. destruct (Z.leb_spec 0 left).
  - rewrite array_get_at by lia. simpl. destruct (at_ g left >? tmp) eqn:E; bprop.
    + rewrite array_set_in by lia. simpl.
      destruct (IH (<[Z.to_nat (left + stride) := at_ g left]> g) (left - stride) left)
        as (g' & -> & Hp & Ho); [lia|lia|lia|rewrite zlength_insert; lia|lia|].
      exists g'. split_and!; [done|rewrite Hp; apply hole_perm; lia|].
      intros m -> Hm Hb. apply Ho; [done|rewrite zlength_insert; lia|].
      apply hole_shift; [lia|lia|lia|done].
    + rewrite array_set_in by lia. eexists. split_and!; [done|done|].
      intros m -> Hm Hb. apply hole_fill; [lia|lia|right; lia|done].
  - rewrite array_set_in by lia. eexists. split_and!; [done|done|].
    intros m -> Hm Hb. apply hole_fill; [lia|lia|left; lia|done].
Qed.

Lemma insert_at_id g i : 0 ≤ i < zlength g → <[Z.to_nat i := at_ g i]> g = g.
Proof.
  unfold zlength, at_. intros. apply list_insert_id, list_lookup_lookup_total_lt. lia.
Qed.

Lemma groups_pass_spec n g stride base :
  0 < stride → 0 ≤ base → base + stride + Z.of_nat n ≤ zlength g →
  ∃ g', groups_pass n g stride base = Ret g' ∧ g' ≡ₚ g ∧
    (stride = 1 → ordered_upto g base → ordered_upto g' (base + Z.of_nat n)).
Proof.
  revert g base. induction n as [|n IH]; intros g base Hs Hb Hn.
  { exists g. split_and!; [done|done|]. intros _ ?. by rewrite Z.add_0_r. }
  cbn [groups_pass]. rewrite array_get_at by lia. cbn [mbind cres_bind].
  destruct (groups_insert_spec (S (Z.to_nat (base + 1))) g stride base (base + stride)
    (at_ g (base + stride))) as (g1 & -> & Hp & Ho); [lia..|].
  rewrite insert_at_id in Hp by lia. cbn [mbind cres_bind].
  assert (zlength g1 = zlength g) as Hlen by (unfold zlength; by rewrite Hp).
  destruct (IH g1 (base + 1)) as (g' & -> & Hp' & Ho'); [lia|lia|lia|].
  exists g'. split_and!; [done|by rewrite Hp'|].
  intros -> Hu. replace (base + Z.of_nat (S n)) with (base + 1 + Z.of_nat n) by lia.
  apply Ho'; [done|]. apply Ho; [done|lia|]. split.
  - intros i j ????. apply Hu; lia.
  - intros j ?. lia.
Qed.

(** the strides are 1, 4, 13, 40, ... *)
Inductive shell_stride : Z → Prop :=
  | stride_one : shell_stride 1
  | stride_next s : shell_stride s → shell_stride (3 * s + 1).

Lemma shell_stride_pos s : shell_stride s → 0 < s.
Proof. induction 1; lia. Qed.

Lemma first_stride_spec fuel n s :
  shell_stride s → n ≤ s + Z.of_nat fuel →
  shell_stride (first_stride fuel n s) ∧ n ≤ first_stride fuel n s ∧
  (first_stride fuel n s = s ∨ first_stride fuel n s ≤ 3 * (n - 1) + 1).
Proof.
  revert s. induction fuel as [|fuel IH]; intros s Hs Hn; simpl;
    [split_and!; [done|lia|by left]|].
  destruct (Z.ltb_spec s n); [|split_and!; [done|lia|by left]].
  pose proof (shell_stride_pos s Hs).
  destruct (IH (3 * s + 1)) as (H1 & H2 & H3); [by constructor|lia|].
  split_and!; [done|done|]. right. lia.
Qed.

(** A shell stride no longer than the array: every pass permutes, and the
    last one, of stride 1, sorts. *)
Lemma groups_passes_spec fuel g s :
  shell_stride s → s ≤ zlength g → s < Z.of_nat fuel →
  ∃ g', groups_passes fuel g s = Ret g' ∧ g' ≡ₚ g ∧ ordered_upto g' (zlength g - 1).
Proof.
  intros Hs. revert fuel g.
  induction Hs as [|s Hs IH]; intros [|fuel] g Hlen Hf; try lia; cbn [groups_passes].
  - destruct (groups_pass_spec (Z.to_nat (zlength g - 1)) g 1 0) as (g' & E & Hp & Ho);
      [lia|lia|lia|].
    cbn [truth Z.eqb negb]. rewrite E. cbn [mbind cres_bind].
    destruct fuel as [|fuel]; [lia|]. simpl. exists g'. split_and!; [done|done|].
    rewrite Z2Nat.id in Ho by lia. apply Ho; [done|]. intros i j ??. lia.
  - pose proof (shell_stride_pos s Hs). lia.
  - pose proof (shell_stride_pos s Hs).
    assert (truth (3 * s + 1) = true) as -> by (unfold truth; by rewrite (proj2 (Z.eqb_neq _ _)) by lia).
    destruct (groups_pass_spec (Z.to_nat (zlength g - (3 * s + 1))) g (3 * s + 1) 0)
      as (g1 & -> & Hp & _); [lia|lia|lia|]. cbn [mbind cres_bind].
    assert (zlength g1 = zlength g) as Hl by (unfold zlength; by rewrite Hp).
    replace ((3 * s + 1) ÷ 3) with s
      by (rewrite Z.quot_div_nonneg by lia; apply (Z.div_unique _ _ _ 1); lia).
    destruct (IH fuel g1) as (g' & -> & Hp' & Ho); [lia|lia|].
    exists g'. rewrite Hl in Ho. split_and!; [done|by rewrite Hp'|done].
Qed.

Lemma ordered_sorted g : ordered_upto g (zlength g - 1) → StronglySorted Z.le g.
Proof.
  induction g as [|x g IH]; intros H; constructor.
  - apply IH. intros i j ??. specialize (H (i + 1) (j + 1)).
    unfold at_, zlength in *. simpl in H. rewrite !Z2Nat.inj_add in H by lia.
    rewrite !Nat.add_1_r in H. apply H; lia.
  - apply Forall_lookup. intros k y Hk. specialize (H 0 (Z.of_nat (S k))).
    pose proof (lookup_lt_Some _ _ _ Hk). unfold at_, zlength in H.
    rewrite Nat2Z.id in H. simpl in H.
    rewrite (list_lookup_total_correct _ _ _ Hk) in H. apply H; lia.
Qed.

Lemma groups_sort_ok g :
  ∃ g', groups_sort g = Ret g' ∧ g' ≡ₚ g ∧ StronglySorted Z.le g'.
Proof.
  unfold groups_sort. set (n := zlength g).
  assert (0 ≤ n) by (unfold n, zlength; lia).
  destruct (first_stride_spec (Z.to_nat n) n 1) as (Hs & Hn & Hm); [constructor|lia|].
  destruct (first_stride (Z.to_nat n) n 1) as [|p|p] eqn:E;
    [apply shell_stride_pos in Hs; lia| |apply shell_stride_pos in Hs; lia].
  rewrite <- E in *. clear E p. remember (first_stride (Z.to_nat n) n 1) as st.
  inversion Hs as [E|s Hs' E].
  - simpl. exists g. split_and!; [done|done|]. apply ordered_sorted.
    intros i j ??. fold n in H1. lia.
  - pose proof (shell_stride_pos s Hs').
    replace ((3 * s + 1) ÷ 3) with s
      by (rewrite Z.quot_div_nonneg by lia; apply (Z.div_unique _ _ _ 1); lia).
    destruct (groups_passes_spec (S (Z.to_nat (3 * s + 1))) g s) as (g' & -> & Hp & Ho);
      [done|fold n; lia|lia|].
    exists g'. split_and!; [done|done|]. apply ordered_sorted.
    assert (zlength g' = zlength g) as -> by (unfold zlength; by rewrite Hp). done.
Qed.

(** ** The search *)

Lemma sorted_at_le g i j :
  StronglySorted Z.le g → 0 ≤ i ≤ j → j < zlength g → at_ g i ≤ at_ g j.
Proof.
  intros Hg Hi Hj. unfold at_, zlength in *.
  rewrite <- (take_drop (Z.to_nat j) g) in Hg.
  destruct (decide (i = j)) as [->|]; [done|].
  apply (StronglySorted_app_1_elem_of _ _ _ _ _ Hg).
  - apply list_elem_of_lookup. exists (Z.to_nat i).
    rewrite lookup_take_lt by lia. apply list_lookup_lookup_total_lt. lia.
  - apply list_elem_of_lookup. exists 0%nat.
    rewrite lookup_drop, Nat.add_0_r. apply list_lookup_lookup_total_lt. lia.
Qed.

Lemma at_elem g x : x ∈ g ↔ ∃ i, 0 ≤ i < zlength g ∧ at_ g i = x.
Proof.
  rewrite list_elem_of_lookup. unfold at_, zlength. split.
  - intros [k Hk]. exists (Z.of_nat k). pose proof (lookup_lt_Some _ _ _ Hk).
    rewrite Nat2Z.id. split; [lia|by apply list_lookup_total_correct].
  - intros (i & Hi & <-). exists (Z.to_nat i). apply list_lookup_lookup_total_lt. lia.
Qed.

Lemma groups_bsearch_spec fuel g grp left right :
  StronglySorted Z.le g → 0 ≤ left ≤ right → right ≤ zlength g → zlength g < 2 ^ 31 →
  right - left < Z.of_nat fuel →
  ∃ b, groups_bsearch fuel g grp left right = Ret b ∧
    (b = true ↔ ∃ i, left ≤ i < right ∧ at_ g i = grp).
Proof.
  intros Hg. revert left right. induction fuel as [|fuel IH]; intros left right Hl Hr Hz Hf;
    [lia|]. cbn [groups_bsearch]. destruct (Z.ltb_spec left right) as [Hlt|Hge].
  2: { exists false. split; [done|]. split; [done|]. intros (i & ? & _). lia. }
  rewrite u32_id by (unfold is_u32; lia).
  set (mid := (left + right) / 2).
  assert (left ≤ mid < right) as Hmid.
  { unfold mid. split; [apply Z.div_le_lower_bound; lia|apply Z.div_lt_upper_bound; lia]. }
  rewrite array_get_at by lia. cbn [mbind cres_bind].
  destruct (grp >? at_ g mid) eqn:E1; bprop; [|destruct (grp <? at_ g mid) eqn:E2; bprop].
  - destruct (IH (mid + 1) right) as (b & -> & Hb); [lia..|]. exists b. split; [done|].
    rewrite Hb. split; intros (i & ? & Hi); exists i; (split; [|done]); [lia|].
    destruct (Z.le_gt_cases i mid); [|lia]. pose proof (sorted_at_le g i mid Hg). lia.
  - destruct (IH left mid) as (b & -> & Hb); [lia..|]. exists b. split; [done|].
    rewrite Hb. split; intros (i & ? & Hi); exists i; (split; [|done]); [lia|].
    destruct (Z.le_gt_cases mid i); [|lia]. pose proof (sorted_at_le g mid i Hg). lia.
  - exists true. split; [done|]. split; [|done]. intros _. exists mid. lia.
Qed.

Lemma groups_search_ok g grp :
  StronglySorted Z.le g → zlength g < 2 ^ 31 →
  groups_search (Some g) grp = Ret (bool_decide (grp ∈ g)).
Proof.
  intros Hg Hz. unfold groups_search, zlength in *.
  destruct (groups_bsearch_spec (S (length g)) g grp 0 (Z.of_nat (length g)))
    as (b & -> & Hb); unfold zlength; [done|lia..|].
  f_equal. apply eq_bool_prop_intro. rewrite bool_decide_spec.
  rewrite at_elem, Is_true_true. exact Hb.
Qed.

(** the group list of a credential is sorted and within NGROUPS_MAX *)
Definition groups_wf (g : list Z) : Prop :=
  StronglySorted Z.le g ∧ zlength g ≤ NGROUPS_MAX.

(** the Shell sort returns, within the bounds of the array, the same ids
    in increasing order, for a list of any length. *)
Theorem groups_sort_spec g :
  ∃ g', groups_sort g = Ret g' ∧ g' ≡ₚ g ∧ StronglySorted Z.le g'.
Proof. apply groups_sort_ok. Qed.

Lemma in_group_p_ok c grp :
  groups_wf (cr_group_info c) →
  in_group_p c grp = Ret (bool_decide (grp = cr_fsgid c ∨ grp ∈ cr_group_info c)).
Proof.
  intros [Hs Hl]. unfold in_group_p. destruct (Z.eqb_spec grp (cr_fsgid c)); cbn [negb].
  - rewrite bool_decide_true; [done|by left].
  - rewrite groups_search_ok by (done || (unfold NGROUPS_MAX in Hl; lia)).
    f_equal. apply bool_decide_ext. naive_solver.
Qed.

(** on a well-formed group list [in_group_p] decides membership in the
    file system group or the supplementary groups, without leaving the
    array. *)
Theorem in_group_p_spec c grp :
  groups_wf (cr_group_info c) →
  in_group_p c grp = Ret (bool_decide (grp = cr_fsgid c ∨ grp ∈ cr_group_info c)).
Proof. apply in_group_p_ok. Qed.

Definition example_cred (gs : list Z) : cred :=
  MkCred 1000 1000 1000 1000 1000 1000 1000 1000 0 CAP_EMPTY_SET CAP_EMPTY_SET
    CAP_EMPTY_SET CAP_FULL_SET (MkUser 1000 init_user_ns) gs.

Lemma in_group_p_witness : in_group_p (example_cred [4; 24; 46]) 24 = Ret true.
Proof.
  rewrite (in_group_p_spec (example_cred [4; 24; 46]) 24); [done|].
  split; [repeat constructor; lia|done].
Defined.
