(* ===== verification/CredContract.v ===== *)
(** * The contract of the credential calls

    [cred_wf] is the invariant of a credential, [cred_ok] what a call other
    than execve may do to it; each set*id call, setgroups, capset and prctl
    keeps the contract and leaves the credentials alone when it fails. *)

From stdpp Require Import sorting.
From S2P Require Import Prelude Cred Commoncap SetId Groups.

(** ** Well-formed credentials *)

Record cred_wf (c : cred) : Prop := {
  wf_inh : caps_wf (cr_cap_inheritable c);
  wf_perm : caps_wf (cr_cap_permitted c);
  wf_eff : caps_wf (cr_cap_effective c);
  wf_bset : caps_wf (cr_cap_bset c);
  wf_sub : cr_cap_effective c ⊆ cr_cap_permitted c;
  wf_groups : groups_wf (cr_group_info c);
  wf_secure : is_u32 (cr_securebits c)
}.

Definition uids (c : cred) : list Z := [cr_uid c; cr_euid c; cr_suid c; cr_fsuid c].
Definition gids (c : cred) : list Z := [cr_gid c; cr_egid c; cr_sgid c; cr_fsgid c].

(** a secure bit that is locked keeps its value and its lock *)
Definition secure_locked (b : Z) (sb sb' : Z) : Prop :=
  Z.testbit sb (b + 1) = true →
  Z.testbit sb' (b + 1) = true ∧ Z.testbit sb' b = Z.testbit sb b.

(** ** The contract of a credential call
    What any call other than execve may do to the credentials. *)

Record cred_ok (old new : cred) : Prop := {
  ok_wf : cred_wf new;
  ok_perm : cr_cap_permitted new ⊆ cr_cap_permitted old;
  ok_bset : cr_cap_bset new ⊆ cr_cap_bset old;
  ok_inh : cr_cap_inheritable new ⊆ cap_combine (cr_cap_inheritable old) (cr_cap_bset old);
  ok_uids : CAP_SETUID ∉ cr_cap_effective old → uids new ⊆ uids old;
  ok_gids : CAP_SETGID ∉ cr_cap_effective old →
    gids new ⊆ gids old ∧ cr_group_info new = cr_group_info old;
  ok_secure : ∀ b, b ∈ [SECURE_NOROOT; SECURE_NO_SETUID_FIXUP; SECURE_KEEP_CAPS] →
    secure_locked b (cr_securebits old) (cr_securebits new)
}.

(** ** Set id calls *)

(** symbolic execution of a call *)
Ltac wp_step :=
  lazymatch goal with
  | |- wp (mbind _ _) _ _ _ => apply wp_bind
  | |- wp (mret _) _ _ _ => apply wp_ret
  | |- wp (fails _) _ _ _ => apply wp_fails
  | |- wp (guard_err _ _) _ _ _ => apply wp_guard; intros ?
  | |- wp current_cred _ _ _ => apply wp_gets
  | |- wp (modify _) _ _ _ => apply wp_modify
  | |- wp (issecure _) _ _ _ => apply wp_issecure
  | |- wp (prepare_creds _) _ _ _ => apply wp_prepare_creds
  | |- wp (nsown_capable _) _ _ _ => apply wp_nsown; [reflexivity|intros ? ?]
  | |- wp (capable _) _ _ _ => apply wp_ns_capable; [reflexivity|intros ? ?]
  | |- wp (or_nsown _ _) _ _ _ => apply wp_or_nsown; [reflexivity|intros ? ?]
  | |- wp (commit_creds _) _ _ _ => apply wp_commit; intros ? ?
  | |- wp (let _ := _ in _) _ _ _ => cbv zeta
  | |- wp (if ?b then _ else _) _ _ _ => let E := fresh "E" in destruct b eqn:E
  end.

Lemma cred_ok_refl c : cred_wf c → cred_ok c c.
Proof.
  intros Hwf. constructor; try done; try set_solver.
Qed.

Lemma wp_with_new {A} al (k : cred → cred → sysM A) Q E s :
  E ENOMEM s → wp (k (t_cred s) (t_cred s)) Q E s → wp (with_new al k) Q E s.
Proof.
  intros HE HQ. unfold with_new. wp_step. apply wp_prepare_creds.
  destruct (cred_alloc al); [wp_step; by apply wp_gets|by apply wp_fails].
Qed.

(** everything but the group ids is kept *)
Definition keeps_but_gids (old new : cred) : Prop :=
  uids new = uids old ∧ cr_securebits new = cr_securebits old ∧
  cr_cap_inheritable new = cr_cap_inheritable old ∧
  cr_cap_permitted new = cr_cap_permitted old ∧
  cr_cap_effective new = cr_cap_effective old ∧ cr_cap_bset new = cr_cap_bset old ∧
  cr_group_info new = cr_group_info old.

Lemma cred_ok_gids old new :
  cred_wf old → keeps_but_gids old new →
  (CAP_SETGID ∉ cr_cap_effective old → gids new ⊆ gids old) → cred_ok old new.
Proof.
  intros [] (Hu & Hs & Hi & Hp & He & Hb & Hg) Hgid.
  constructor; rewrite ?Hi, ?Hp, ?Hb, ?Hs, ?Hg, ?Hu; try set_solver.
  - constructor; rewrite ?Hi, ?Hp, ?Hb, ?He, ?Hs, ?Hg; done.
  - intros b _. done.
Qed.

(** an id is allowed by a test on the old ids or by the capability *)
Lemma not_raised c s : 0 ≤ c < 64 → c ∉ s → cap_raised s c = false.
Proof.
  intros Hc Hn. apply not_true_is_false. rewrite cap_raised_elem by done. done.
Qed.

Lemma no_setgid s : CAP_SETGID ∉ s → cap_raised s CAP_SETGID = false.
Proof. apply not_raised. unfold CAP_SETGID. lia. Qed.
Lemma no_setuid s : CAP_SETUID ∉ s → cap_raised s CAP_SETUID = false.
Proof. apply not_raised. unfold CAP_SETUID. lia. Qed.

(** the postconditions of every call: the contract on return, no change of
    the credentials on error *)
Definition keeps_contract {A} (m : sysM A) (s : sys) : Prop :=
  wp m (λ _ s', cred_ok (t_cred s) (t_cred s')) (λ _ s', same_cred s s') s.

(** rewrite a state with the same credentials into the first one *)
Ltac same_creds :=
  unfold same_cred in *;
  repeat match goal with
  | H : t_cred ?s' = t_cred _ |- _ => rewrite ?H in *; clear H
  end.

Ltac gid_case1 :=
  apply cred_ok_gids; [done|repeat split|];
  let Hn := fresh "Hn" in intros Hn; apply no_setgid in Hn; rewrite ?Hn in *;
  unfold gids in *; simpl in *; try discriminate; bool_props; simpl; set_solver.
Ltac gid_case :=
  same_creds; simplify_eq;
  repeat match goal with H : t_cred _ = _ |- _ => rewrite H; clear H end;
  cbn [orb andb negb]; repeat case_test; gid_case1.

Lemma sys_setgid_ok al gid s :
  cred_wf (t_cred s) → keeps_contract (sys_setgid al gid) s.
Proof.
  intros Hwf. unfold keeps_contract. apply wp_with_new; [done|].
  wp_step. wp_step. wp_step; [wp_step; gid_case|].
  wp_step; [wp_step; gid_case|wp_step; done].
Qed.

Lemma sys_setregid_ok al rgid egid s :
  cred_wf (t_cred s) → keeps_contract (sys_setregid al rgid egid) s.
Proof.
  intros Hwf. unfold keeps_contract. apply wp_with_new; [done|].
  do 2 wp_step; repeat wp_step; try by same_creds.
  all: gid_case.
Qed.

Lemma sys_setresgid_ok al rgid egid sgid s :
  cred_wf (t_cred s) → keeps_contract (sys_setresgid al rgid egid sgid) s.
Proof.
  intros Hwf. unfold keeps_contract. apply wp_with_new; [done|].
  repeat wp_step; try by same_creds.
  all: gid_case.
Qed.

Lemma sys_setfsgid_ok al gid s :
  cred_wf (t_cred s) → keeps_contract (sys_setfsgid al gid) s.
Proof.
  intros Hwf. unfold keeps_contract, sys_setfsgid. wp_step. wp_step.
  destruct (cred_alloc al); repeat wp_step; try (same_creds; by apply cred_ok_refl).
  gid_case.
Qed.

(** what the capability fixup may do *)
Record fixes_caps (new new' : cred) : Prop := {
  fix_uids : uids new' = uids new;
  fix_gids : gids new' = gids new;
  fix_secure : cr_securebits new' = cr_securebits new;
  fix_inh : cr_cap_inheritable new' = cr_cap_inheritable new;
  fix_bset : cr_cap_bset new' = cr_cap_bset new;
  fix_groups : cr_group_info new' = cr_group_info new;
  fix_perm : cr_cap_permitted new' = cr_cap_permitted new ∨
             cr_cap_permitted new' = CAP_EMPTY_SET;
  fix_eff_wf : caps_wf (cr_cap_permitted new) → caps_wf (cr_cap_effective new) →
               caps_wf (cr_cap_effective new');
  fix_sub : cr_cap_effective new ⊆ cr_cap_permitted new →
            cr_cap_effective new' ⊆ cr_cap_permitted new'
}.

Lemma wp_fix_setuid new old fl Q E s :
  (∀ new', fixes_caps new new' → Q new' s) → wp (cap_task_fix_setuid new old fl) Q E s.
Proof.
  intros HQ. unfold cap_task_fix_setuid. do 2 wp_step.
  destruct fl; cbv beta iota; wp_step; try (apply wp_ret, HQ; constructor; by auto).
  1-3: unfold cap_emulate_setxuid; do 3 wp_step; apply HQ; repeat case_test;
    (constructor; simpl; auto with caps; set_solver).
  wp_step. apply HQ. unfold cap_drop_fs_set, cap_raise_fs_set.
  repeat case_test; (constructor; simpl; auto with caps; set_solver).
Qed.

(** everything but the user ids is kept *)
Definition keeps_but_uids (old new : cred) : Prop :=
  gids new = gids old ∧ cr_securebits new = cr_securebits old ∧
  cr_cap_inheritable new = cr_cap_inheritable old ∧
  cr_cap_permitted new = cr_cap_permitted old ∧
  cr_cap_effective new = cr_cap_effective old ∧ cr_cap_bset new = cr_cap_bset old ∧
  cr_group_info new = cr_group_info old.

Lemma cred_ok_uids old new new' :
  cred_wf old → keeps_but_uids old new → fixes_caps new new' →
  (CAP_SETUID ∉ cr_cap_effective old → uids new ⊆ uids old) → cred_ok old new'.
Proof.
  intros [] (Hg & Hs & Hi & Hp & He & Hb & Hgi) [fu fg fs fi fb fgr fp fe fsub] Hu.
  rewrite ?Hg, ?Hs, ?Hi, ?Hp, ?He, ?Hb, ?Hgi in *.
  constructor; rewrite ?fu, ?fg, ?fs, ?fi, ?fb, ?fgr; try done.
  - constructor; rewrite ?fi, ?fb, ?fs, ?fgr; try done.
    + destruct fp as [-> | ->]; auto with caps.
    + auto.
    + auto.
  - destruct fp as [-> | ->]; set_solver.
  - set_solver.
Qed.

Ltac uid_case1 :=
  eapply cred_ok_uids; [done| |eassumption|]; [repeat split|];
  let Hn := fresh "Hn" in intros Hn; apply no_setuid in Hn; rewrite ?Hn in *;
  unfold uids in *; simpl in *; try discriminate; bool_props; simpl; set_solver.
Ltac uid_case :=
  same_creds; simplify_eq;
  repeat match goal with H : t_cred _ = _ |- _ => rewrite H; clear H end;
  cbn [orb andb negb] in *; repeat case_test; uid_case1.

Lemma wp_set_user al new Q E s :
  (uid_alloc al = false → ∀ s', same_cred s s' → E EAGAIN s') →
  (∀ u s', same_cred s s' → Q (set_cred_user u new) s') →
  wp (set_user al new) Q E s.
Proof.
  intros HE HQ. unfold set_user. do 2 wp_step. unfold alloc_uid.
  destruct (uid_alloc al) eqn:Eu; [|by apply HE]. do 2 wp_step. by apply wp_ret, HQ.
Qed.

(** run a set*uid call to its end *)
Ltac wp_uid :=
  repeat first
    [ wp_step
    | apply wp_set_user; intros
    | apply wp_fix_setuid; intros ? ?
    | cbv beta ];
  try (by same_creds); try uid_case.

Lemma sys_setuid_ok al uid s :
  cred_wf (t_cred s) → keeps_contract (sys_setuid al uid) s.
Proof.
  intros Hwf. unfold keeps_contract. apply wp_with_new; [done|]. wp_uid.
Qed.

Lemma sys_setreuid_ok al ruid euid s :
  cred_wf (t_cred s) → keeps_contract (sys_setreuid al ruid euid) s.
Proof.
  intros Hwf. unfold keeps_contract. apply wp_with_new; [done|]. wp_uid.
Qed.

Lemma sys_setresuid_ok al ruid euid suid s :
  cred_wf (t_cred s) → keeps_contract (sys_setresuid al ruid euid suid) s.
Proof.
  intros Hwf. unfold keeps_contract. apply wp_with_new; [done|]. wp_uid.
Qed.

Lemma sys_setfsuid_ok al uid s :
  cred_wf (t_cred s) → keeps_contract (sys_setfsuid al uid) s.
Proof.
  intros Hwf. unfold keeps_contract, sys_setfsuid. wp_step. wp_step.
  destruct (cred_alloc al); wp_uid; same_creds; by apply cred_ok_refl.
Qed.

(** ** setgroups, capset and prctl *)

Lemma wp_lift {A} (m : cres A) Q E s :
  match m with Ret a => Q a s | Err e => E e s | UB => False end → wp (lift m) Q E s.
Proof. unfold wp, lift. by destruct m. Qed.

Lemma set_current_groups_ok al g s :
  cred_wf (t_cred s) → zlength g ≤ NGROUPS_MAX →
  CAP_SETGID ∈ cr_cap_effective (t_cred s) → keeps_contract (set_current_groups al g) s.
Proof.
  intros Hwf Hg Hcap. unfold keeps_contract, set_current_groups. do 2 wp_step.
  destruct (cred_alloc al); [|by wp_step]. wp_step. unfold set_groups. wp_step.
  apply wp_lift. destruct (groups_sort_ok g) as (g' & -> & Hp & Hs). wp_step. wp_step.
  destruct Hwf. rewrite H. constructor; simpl; try set_solver.
  - constructor; simpl; try done. split; [done|]. unfold zlength in *. by rewrite Hp.
  - intros b _. done.
Qed.

Lemma sys_setgroups_ok al galloc n user s :
  is_s32 n → cred_wf (t_cred s) → keeps_contract (sys_setgroups al galloc n user) s.
Proof.
  intros Hn Hwf. unfold keeps_contract, sys_setgroups. do 4 wp_step; [by same_creds|].
  bool_props. apply cap_raised_elem in H0; [|by unfold CAP_SETGID].
  do 2 wp_step; [by same_creds|]. do 2 wp_step; [by same_creds|].
  assert (∀ g, zlength g ≤ NGROUPS_MAX →
    wp (set_current_groups al g) (λ _ s'', cred_ok (t_cred s) (t_cred s''))
      (λ _ s'', same_cred s s'') s') as Hset.
  { intros g Hg. eapply wp_mono; [apply set_current_groups_ok; try done|..];
      unfold same_cred in *; rewrite ?H; naive_solver. }
  bprop. destruct user as [l|];
    (wp_step; [bprop; apply Hset; [|done..]|wp_step; by same_creds]); [|done].
  unfold zlength, u32, NGROUPS_MAX in *. rewrite length_take.
  unfold is_s32 in Hn. destruct (Z.le_gt_cases 0 n); [|lia].
  rewrite Z.mod_small in H1; lia.
Qed.

Lemma caps_from_user_wf f kdata :
  Forall (λ d, is_u32 (f d)) kdata → caps_wf (caps_from_user f kdata).
Proof.
  intros H. unfold caps_from_user. split; simpl.
  - destruct (kdata !! 0%nat) eqn:E; [by apply (Forall_lookup_1 _ _ _ _ H E)|done].
  - destruct (kdata !! 1%nat) eqn:E; [by apply (Forall_lookup_1 _ _ _ _ H E)|done].
Qed.

Definition cap_data_wf (d : cap_data) : Prop :=
  is_u32 (d_effective d) ∧ is_u32 (d_permitted d) ∧ is_u32 (d_inheritable d).

Lemma cap_capset_ok old e i p s :
  t_cred s = old → cred_wf old → caps_wf e → caps_wf i → caps_wf p →
  wp (cap_capset old old e i p) (λ new s', same_cred s s' ∧ cred_ok old new)
    (λ x s', x = EPERM ∧ same_cred s s') s.
Proof.
  intros Hs Hwf He Hi Hp. unfold cap_capset. wp_step. unfold cap_inh_is_capped.
  do 3 wp_step. do 2 wp_step; [done|]. do 2 wp_step; [done|].
  do 2 wp_step; [done|]. do 2 wp_step; [done|]. wp_step. split; [done|].
  bool_props. rewrite !cap_issubset_spec in * by done. destruct Hwf.
  constructor; simpl; try done; try set_solver.
Qed.

Lemma sys_capset_ok al self header data s :
  (∀ l, data = Some l → Forall cap_data_wf l) →
  cred_wf (t_cred s) → keeps_contract (sys_capset al self header data) s.
Proof.
  intros Hd Hwf. unfold keeps_contract, sys_capset. wp_step. apply wp_lift.
  destruct (cap_validate_magic header) eqn:E; [|done|].
  2: { unfold cap_validate_magic in E. by repeat case_match. }
  destruct (hd_pid header) as [pid|]; [|done].
  do 2 wp_step; [done|]. do 2 wp_step; [done|]. wp_step. apply wp_lift.
  unfold copy_caps_from_user. destruct data as [l|]; [|done]. case_test; [|done].
  do 2 wp_step. destruct (cred_alloc al); [|done]. do 2 wp_step. wp_step.
  specialize (Hd l eq_refl). apply (Forall_take _ (Z.to_nat a)) in Hd.
  eapply wp_mono; [apply cap_capset_ok; try done|..].
  1-3: apply caps_from_user_wf; eapply Forall_impl; [done|]; by intros ? (?&?&?).
  - intros new s' [Hs Hok]. wp_step. by rewrite H1.
  - naive_solver.
Qed.

(** ** prctl *)

Lemma truth_true x : truth x = true ↔ x ≠ 0.
Proof. unfold truth. by rewrite negb_true_iff, Z.eqb_neq. Qed.
Lemma truth_false x : truth x = false ↔ x = 0.
Proof. unfold truth. by rewrite negb_false_iff, Z.eqb_eq. Qed.

(** the tests of PR_SET_SECUREBITS protect the locked bits *)
Lemma securebits_tests sb arg b :
  b ∈ [SECURE_NOROOT; SECURE_NO_SETUID_FIXUP; SECURE_KEEP_CAPS] →
  truth (Z.land (Z.shiftr (Z.land sb SECURE_ALL_LOCKS) 1) (Z.lxor sb arg)) = false →
  truth (Z.land (Z.land sb SECURE_ALL_LOCKS) (Z.lnot arg)) = false →
  secure_locked b sb arg.
Proof.
  intros Hb H1 H2 Hl. apply truth_false in H1, H2.
  assert (0 ≤ b ∧ Z.testbit SECURE_ALL_LOCKS (b + 1) = true) as [H0 Hm]
    by (set_unfold in Hb; destruct_or?; subst; done).
  apply (f_equal (λ x, Z.testbit x b)) in H1.
  apply (f_equal (λ x, Z.testbit x (b + 1))) in H2.
  rewrite Z.land_spec, Z.shiftr_spec, Z.land_spec, Z.lxor_spec, Hl, Hm, Z.bits_0 in H1 by lia.
  rewrite !Z.land_spec, Z.lnot_spec, Hl, Hm, Z.bits_0 in H2 by lia.
  destruct (Z.testbit arg (b + 1)); [|done]. split; [done|].
  by destruct (Z.testbit sb b), (Z.testbit arg b).
Qed.

(** the KEEPCAPS calls change bit 4 only, and not when it is locked *)
Lemma keepcaps_locked sb sb' b :
  b ∈ [SECURE_NOROOT; SECURE_NO_SETUID_FIXUP; SECURE_KEEP_CAPS] →
  truth (Z.land (issecure_mask SECURE_KEEP_CAPS_LOCKED) sb) = false →
  sb' = Z.lor sb (issecure_mask SECURE_KEEP_CAPS) ∨
  sb' = Z.land sb (Z.lnot (issecure_mask SECURE_KEEP_CAPS)) →
  secure_locked b sb sb'.
Proof.
  intros Hb Hk Hs Hl. rewrite Z.land_comm in Hk. unfold issecure_mask in Hk.
  rewrite truth_land_shiftl in Hk by done.
  assert (b = 0 ∨ b = 2) as Hb'.
  { set_unfold in Hb. destruct Hb as [->|[->|[->|[]]]]; [by left|by right|].
    change (SECURE_KEEP_CAPS + 1) with SECURE_KEEP_CAPS_LOCKED in Hl. congruence. }
  destruct Hb' as [-> | ->], Hs as [-> | ->];
    rewrite ?Z.lor_spec, ?Z.land_spec, ?Z.lnot_spec by lia; simpl;
    rewrite ?orb_false_r, ?andb_true_r; auto.
Qed.

(** a change of the secure bits alone *)
Lemma cred_ok_secure old sb :
  cred_wf old → is_u32 sb →
  (∀ b, b ∈ [SECURE_NOROOT; SECURE_NO_SETUID_FIXUP; SECURE_KEEP_CAPS] →
    secure_locked b (cr_securebits old) sb) →
  cred_ok old (set_securebits sb old).
Proof.
  intros [] Hs Hl. constructor; simpl; try done; try set_solver.
Qed.

Lemma cred_ok_bset old cap :
  cred_wf old → cap_valid cap = true →
  cred_ok old (set_cap_bset (cap_lower (cr_cap_bset old) cap) old).
Proof.
  intros [] Hc. unfold cap_valid, CAP_LAST_CAP in Hc. bprop.
  constructor; simpl; try done; try set_solver.
  - constructor; simpl; auto with caps.
  - intros x. rewrite elem_of_cap_lower by lia. tauto.
Qed.

Lemma cap_task_prctl_ok al option arg2 s :
  is_u32 arg2 → cred_wf (t_cred s) → keeps_contract (cap_task_prctl al option arg2) s.
Proof.
  intros Ha Hwf. unfold keeps_contract, cap_task_prctl. do 2 wp_step.
  destruct (cred_alloc al); [|by wp_step].
  repeat (wp_step; [repeat wp_step; try by same_creds; try by (same_creds; apply cred_ok_refl)|]);
    try done.
  - unfold cap_prctl_drop. repeat wp_step; try by same_creds.
    bool_props. rewrite H2. by apply cred_ok_bset.
  - rewrite H0. bool_props. destruct H as [[[? ?] ?] ?].
    apply cred_ok_secure; [done|done|]. intros. by apply securebits_tests.
  - rewrite H1. apply cred_ok_secure; [done| |].
    + pose proof (wf_secure _ Hwf). case_test; [apply (lor_bound 32)|apply (land_bound 32)]; done.
    + intros b Hb. apply keepcaps_locked; try done. case_test; auto.
Qed.
