(* ===== verification/CredSteps.v ===== *)
(** * Privilege over the life of a process

    The credential calls as steps of one process, and what the contract of
    the calls gives for every sequence of them: a process without privilege
    stays confined to its ids, capability sets only shrink between two
    programs, the bounding set bounds what any program can gain, secure bits
    that are locked stay locked. *)

From stdpp Require Import sorting relations.
From S2P Require Import Prelude Cred Commoncap SetId Groups CredContract.

(** the steps of a running program *)
Inductive call_step : sys → sys → Prop :=
  | step_setregid al rgid egid s : call_step s (sys_setregid al rgid egid s).2
  | step_setgid al gid s : call_step s (sys_setgid al gid s).2
  | step_setresgid al rgid egid sgid s : call_step s (sys_setresgid al rgid egid sgid s).2
  | step_setfsgid al gid s : call_step s (sys_setfsgid al gid s).2
  | step_setreuid al ruid euid s : call_step s (sys_setreuid al ruid euid s).2
  | step_setuid al uid s : call_step s (sys_setuid al uid s).2
  | step_setresuid al ruid euid suid s : call_step s (sys_setresuid al ruid euid suid s).2
  | step_setfsuid al uid s : call_step s (sys_setfsuid al uid s).2
  | step_setgroups al galloc n user s : is_s32 n → call_step s (sys_setgroups al galloc n user s).2
  | step_capset al self header data s :
      (∀ l, data = Some l → Forall cap_data_wf l) →
      call_step s (sys_capset al self header data s).2
  | step_prctl al option arg2 s :
      is_u32 arg2 → call_step s (cap_task_prctl al option arg2 s).2.

(** the program is replaced *)
Inductive exec_step : sys → sys → Prop :=
  | step_exec al fcaps unsafe f fs s :
      exec_step s (exec_creds al fcaps unsafe f fs s).2.

Lemma contract_step {A} (m : sysM A) s :
  cred_wf (t_cred s) → keeps_contract m s → cred_ok (t_cred s) (t_cred (m s).2).
Proof.
  unfold keeps_contract, wp. destruct (m s) as [[a|e|] s']; simpl; [done| |done].
  intros Hwf ->. by apply cred_ok_refl.
Qed.

Lemma call_step_ok s s' :
  call_step s s' → cred_wf (t_cred s) → cred_ok (t_cred s) (t_cred s').
Proof.
  destruct 1; intros Hwf; apply contract_step; try done.
  - by apply sys_setregid_ok.
  - by apply sys_setgid_ok.
  - by apply sys_setresgid_ok.
  - by apply sys_setfsgid_ok.
  - by apply sys_setreuid_ok.
  - by apply sys_setuid_ok.
  - by apply sys_setresuid_ok.
  - by apply sys_setfsuid_ok.
  - by apply sys_setgroups_ok.
  - by apply sys_capset_ok.
  - by apply cap_task_prctl_ok.
Qed.

(** ** execve *)

(** the credentials under construction for a new program *)
Record exec_pre (old new : cred) : Prop := {
  pre_uid : cr_uid new = cr_uid old;
  pre_gid : cr_gid new = cr_gid old;
  pre_inh : cr_cap_inheritable new = cr_cap_inheritable old;
  pre_bset : cr_cap_bset new = cr_cap_bset old;
  pre_groups : cr_group_info new = cr_group_info old;
  pre_secure : cr_securebits new = cr_securebits old ∨
    cr_securebits new =
      Z.land (cr_securebits old) (Z.lnot (issecure_mask SECURE_KEEP_CAPS))
}.

(** the credentials of the new program *)
Record exec_ok (old new : cred) : Prop := {
  ex_wf : cred_wf new;
  ex_pre : exec_pre old new;
  ex_secure : cr_securebits new =
    Z.land (cr_securebits old) (Z.lnot (issecure_mask SECURE_KEEP_CAPS));
  ex_perm : cr_cap_permitted new ⊆
    cap_combine (cr_cap_bset old) (cr_cap_inheritable old);
  ex_saved : cr_suid new = cr_euid new ∧ cr_fsuid new = cr_euid new ∧
             cr_sgid new = cr_egid new ∧ cr_fsgid new = cr_egid new
}.

(** file capabilities: pP' = (bset & fP) | (pI & fI) *)
Lemma bprm_caps_formula caps new eff has :
  (bprm_caps_from_vfs_caps caps new eff has).1.1.1 =
  set_cap_permitted (cap_combine (cap_intersect (cr_cap_bset new) (v_permitted caps))
    (cap_intersect (cr_cap_inheritable new) (v_inheritable caps))) new.
Proof. done. Qed.

Lemma get_file_caps_ok fcaps f new r :
  caps_wf (cr_cap_bset new) → caps_wf (cr_cap_inheritable new) →
  get_file_caps fcaps f new = Ret r →
  ∃ p, r.1.1 = set_cap_permitted p new ∧ caps_wf p ∧
    p ⊆ cap_combine (cr_cap_bset new) (cr_cap_inheritable new).
Proof.
  intros Hb Hi. unfold get_file_caps, bprm_clear_caps.
  assert (∃ p, set_cap_permitted CAP_EMPTY_SET new = set_cap_permitted p new ∧ caps_wf p ∧
    p ⊆ cap_combine (cr_cap_bset new) (cr_cap_inheritable new)) as Hclear.
  { exists CAP_EMPTY_SET. split_and!; [done|auto with caps|set_solver]. }
  case_test; [by intros [= <-]|]. case_test; [by intros [= <-]|].
  destruct (get_vfs_caps_from_disk f) as [caps|e|] eqn:Ec; [|by case_test; intros [= <-]|done].
  pose proof (bprm_caps_formula caps (set_cap_permitted CAP_EMPTY_SET new) false false) as Hf.
  destruct (bprm_caps_from_vfs_caps _ _ _ _) as [[[n' e'] h'] bad].
  case_test; [done|]. intros [= <-]. simpl in *. rewrite Hf.
  eexists. split_and!; [reflexivity|auto with caps|set_solver].
Qed.

Lemma get_file_caps_total fcaps f new : get_file_caps fcaps f new ≠ UB.
Proof.
  unfold get_file_caps, get_vfs_caps_from_disk. intros H.
  repeat (case_match; simplify_eq/=; try done).
Qed.

Lemma exec_ok_finish old new eff :
  cred_wf old → exec_pre old new → caps_wf (cr_cap_permitted new) →
  cr_cap_permitted new ⊆ cap_combine (cr_cap_bset old) (cr_cap_inheritable old) →
  exec_ok old (bprm_finish new eff).
Proof.
  intros [] [] Hw Hp.
  assert (Z.land (cr_securebits new) (Z.lnot (issecure_mask SECURE_KEEP_CAPS)) =
    Z.land (cr_securebits old) (Z.lnot (issecure_mask SECURE_KEEP_CAPS))) as Hsec.
  { destruct pre_secure0 as [-> | ->]; [done|]. by rewrite <- Z.land_assoc, Z.land_diag. }
  constructor; [constructor|constructor|..]; simpl; try congruence; try done.
  - destruct eff; auto with caps.
  - destruct eff; set_solver.
  - rewrite Hsec. by apply (land_bound 32).
  - rewrite Hsec. by right.
Qed.

Lemma exec_pre_changes old new p ei gi :
  exec_pre old new →
  exec_pre old (set_cap_permitted p new) ∧
  exec_pre old (set_cap_permitted p (set_egid gi (set_euid ei new))).
Proof. intros []. by split; constructor. Qed.

Lemma cap_bprm_set_creds_ok fcaps f bprm old s :
  t_cred s = old → cred_wf old → exec_pre old (bprm_cred bprm) →
  wp (cap_bprm_set_creds fcaps f bprm)
    (λ bprm' s', same_cred s s' ∧ exec_ok old (bprm_cred bprm'))
    (λ _ s', same_cred s s') s.
Proof.
  intros Hs Hwf Hpre. pose proof Hwf as []. pose proof Hpre as [].
  unfold cap_bprm_set_creds. do 3 wp_step. apply wp_lift.
  destruct (get_file_caps fcaps f (bprm_cred bprm)) as [r|e|] eqn:Eg;
    [|done|by apply get_file_caps_total in Eg].
  apply get_file_caps_ok in Eg as (p & Hr & Hpw & Hps); [|congruence..].
  destruct r as [[new eff] has]. simpl in Hr. subst new. rewrite pre_bset0, pre_inh0 in Hps.
  cbv beta iota. do 2 wp_step. rewrite Hs.
  set (pr := if _ && _ then _ else _).
  assert (∃ p1 e1, pr = (set_cap_permitted p1 (bprm_cred bprm), e1) ∧ caps_wf p1 ∧
    p1 ⊆ cap_combine (cr_cap_bset old) (cr_cap_inheritable old)) as (p1 & e1 & -> & Hw1 & Hp1).
  { unfold pr. repeat case_test; eexists _, _;
      (split_and!; [reflexivity|auto with caps|first [done|set_solver]]). }
  cbv beta iota. wp_step.
  wp_step; [do 3 wp_step; destruct (cap_capable _ _ _)|]; wp_step; (split; [done|]); apply exec_ok_finish;
    try done; simpl; auto with caps; try set_solver; by apply exec_pre_changes.
Qed.

Lemma prepare_binprm_ok fcaps f bprm old s :
  t_cred s = old → cred_wf old → exec_pre old (bprm_cred bprm) →
  wp (prepare_binprm fcaps f bprm)
    (λ bprm' s', same_cred s s' ∧ exec_ok old (bprm_cred bprm'))
    (λ _ s', same_cred s s') s.
Proof.
  intros Hs Hwf Hpre. unfold prepare_binprm. do 2 wp_step; [done|]. do 2 wp_step.
  apply cap_bprm_set_creds_ok; [done|done|].
  simpl. repeat case_test; destruct Hpre; by constructor.
Qed.

Lemma prepare_chain_ok fcaps fs bprm old s :
  t_cred s = old → cred_wf old → exec_ok old (bprm_cred bprm) →
  wp (prepare_chain fcaps fs bprm)
    (λ bprm' s', same_cred s s' ∧ exec_ok old (bprm_cred bprm'))
    (λ _ s', same_cred s s') s.
Proof.
  revert bprm s. induction fs as [|f fs IH]; intros bprm s Hs Hwf Hok; simpl; [by wp_step|].
  wp_step. eapply wp_mono; [apply prepare_binprm_ok; [done|done|apply Hok]|..].
  - intros b1 s1 [Hs1 Hok1]. unfold same_cred in *.
    eapply wp_mono; [apply (IH b1 s1); congruence|..]; unfold same_cred.
    + intros b2 s2 [Hs2 Hok2]. split; congruence.
    + intros _ s2 Hs2. congruence.
  - done.
Qed.

Lemma exec_pre_refl c : exec_pre c c.
Proof. constructor; auto. Qed.

Lemma exec_creds_ok al fcaps unsafe f fs s :
  cred_wf (t_cred s) →
  wp (exec_creds al fcaps unsafe f fs) (λ _ s', exec_ok (t_cred s) (t_cred s'))
    (λ _ s', same_cred s s') s.
Proof.
  intros Hwf. unfold exec_creds. do 2 wp_step. destruct (cred_alloc al); [|by wp_step].
  wp_step. cbn [prepare_chain]. wp_step.
  eapply wp_mono; [apply prepare_binprm_ok; [done|done|apply exec_pre_refl]|..]; [|done].
  intros b1 s1 [Hs1 Hok1]. eapply wp_mono;
    [apply (prepare_chain_ok _ _ _ (t_cred s)); done|..];
    unfold same_cred in *; [|intros; congruence].
  intros b2 s2 [Hs2 Hok2]. wp_step. wp_step. unfold cap_bprm_secureexec. do 2 wp_step.
  wp_step; wp_step; by rewrite H.
Qed.

Lemma exec_step_ok s s' :
  exec_step s s' → cred_wf (t_cred s) →
  exec_ok (t_cred s) (t_cred s') ∨ t_cred s' = t_cred s.
Proof.
  intros [al fcaps unsafe f fs s0] Hwf.
  pose proof (exec_creds_ok al fcaps unsafe f fs s0 Hwf) as H. unfold wp in H.
  destruct (exec_creds _ _ _ _ _ _) as [[r|e|] s1]; [by left|by right|done].
Qed.

(** ** Sequences of calls *)

Definition any_step (s s' : sys) : Prop := call_step s s' ∨ exec_step s s'.

Lemma any_step_wf s s' : any_step s s' → cred_wf (t_cred s) → cred_wf (t_cred s').
Proof.
  intros [H|H] Hwf; [by apply (ok_wf _ _ (call_step_ok _ _ H Hwf))|].
  destruct (exec_step_ok _ _ H Hwf) as [[]| ->]; done.
Qed.

(** a property of credentials that every step keeps, kept by a sequence *)
Lemma rtc_cred_ind (R : sys → sys → Prop) (P : cred → Prop) :
  (∀ s s', R s s' → cred_wf (t_cred s) → cred_wf (t_cred s')) →
  (∀ s s', R s s' → cred_wf (t_cred s) → P (t_cred s) → P (t_cred s')) →
  ∀ s s', rtc R s s' → cred_wf (t_cred s) → P (t_cred s) →
  cred_wf (t_cred s') ∧ P (t_cred s').
Proof.
  intros Hw HP s s'. induction 1 as [s|s s1 s' H _ IH]; [done|].
  intros Hwf Hp. apply IH; eauto.
Qed.

Lemma calls_confined s s' :
  rtc call_step s s' → cred_wf (t_cred s) →
  cred_wf (t_cred s') ∧ cr_cap_permitted (t_cred s') ⊆ cr_cap_permitted (t_cred s) ∧
  (CAP_SETUID ∉ cr_cap_permitted (t_cred s) → uids (t_cred s') ⊆ uids (t_cred s)) ∧
  (CAP_SETGID ∉ cr_cap_permitted (t_cred s) →
    gids (t_cred s') ⊆ gids (t_cred s) ∧
    cr_group_info (t_cred s') = cr_group_info (t_cred s)).
Proof.
  induction 1 as [s|s s1 s' H _ IH]; intros Hwf; [by split_and!|].
  pose proof (call_step_ok _ _ H Hwf) as [].
  destruct (IH ok_wf) as (Hwf' & Hp & Hu & Hg). pose proof (wf_sub _ Hwf) as Hsub.
  split_and!; [done|by etransitivity| |].
  - intros Hn. transitivity (uids (t_cred s1)); [apply Hu|apply ok_uids];
      by eapply caps_not_elem.
  - intros Hn. destruct Hg as [Hg1 Hg2]; [by eapply caps_not_elem|].
    destruct ok_gids as [Hg3 Hg4]; [by eapply caps_not_elem|].
    split; [by etransitivity|congruence].
Qed.

(** C4: whatever sequence of credential calls and execve's a process makes,
    its effective set stays within its permitted set, the words of its sets
    stay 32 bits wide and its supplementary groups stay sorted. *)
Theorem cred_invariant s s' :
  rtc any_step s s' → cred_wf (t_cred s) → cred_wf (t_cred s').
Proof.
  intros H Hwf. by destruct (rtc_cred_ind any_step (λ _, True) any_step_wf
    (λ _ _ _ _ _, I) s s' H Hwf I).
Qed.

(** C17: by any sequence of calls other than execve a process never enlarges
    its permitted set; if CAP_SETUID (CAP_SETGID) is not in that set, it only
    takes user ids (group ids) it already holds, and without CAP_SETGID its
    supplementary groups stay. An execve of a set-id file is outside the
    statement: it does give a new id. *)
Theorem unprivileged_confined s s' :
  rtc call_step s s' → cred_wf (t_cred s) →
  cr_cap_permitted (t_cred s') ⊆ cr_cap_permitted (t_cred s) ∧
  (CAP_SETUID ∉ cr_cap_permitted (t_cred s) → uids (t_cred s') ⊆ uids (t_cred s)) ∧
  (CAP_SETGID ∉ cr_cap_permitted (t_cred s) →
    gids (t_cred s') ⊆ gids (t_cred s) ∧
    cr_group_info (t_cred s') = cr_group_info (t_cred s)).
Proof. intros H Hwf. by apply calls_confined. Qed.

(** [cap] is out of reach of the process and of the programs it executes *)
Definition cap_gone (cap : Z) (c : cred) : Prop :=
  (cap ∉ cr_cap_permitted c) ∧ (cap ∉ cr_cap_inheritable c) ∧ (cap ∉ cr_cap_bset c).

Lemma cap_gone_step cap s s' :
  any_step s s' → cred_wf (t_cred s) → cap_gone cap (t_cred s) → cap_gone cap (t_cred s').
Proof.
  unfold cap_gone. intros [H|H] Hwf Hc.
  - pose proof (call_step_ok _ _ H Hwf) as []. set_solver.
  - destruct (exec_step_ok _ _ H Hwf) as [[_ [] _ Hp _]| ->]; [|done].
    rewrite pre_inh0, pre_bset0. set_solver.
Qed.

(** C27: a capability outside the bounding, inheritable and permitted sets
    never comes back, whatever programs are executed afterwards, set-user-id
    root programs and programs with file capabilities included. *)
Theorem bounding_set_bounds cap s s' :
  rtc any_step s s' → cred_wf (t_cred s) → cap_gone cap (t_cred s) →
  cap_gone cap (t_cred s') ∧ (cap ∉ cr_cap_effective (t_cred s')).
Proof.
  intros H Hwf Hc.
  destruct (rtc_cred_ind any_step (cap_gone cap) any_step_wf (cap_gone_step cap)
    s s' H Hwf Hc) as [[] Hc'].
  split; [done|]. unfold cap_gone in Hc'. set_solver.
Qed.

(** the locks of the secure bits, and what they protect *)
Record locks_kept (c c' : cred) : Prop := {
  kept_noroot : secure_locked SECURE_NOROOT (cr_securebits c) (cr_securebits c');
  kept_fixup : secure_locked SECURE_NO_SETUID_FIXUP (cr_securebits c) (cr_securebits c');
  (* execve clears KEEP_CAPS, locked or not *)
  kept_keep : Z.testbit (cr_securebits c) SECURE_KEEP_CAPS_LOCKED = true →
    Z.testbit (cr_securebits c') SECURE_KEEP_CAPS_LOCKED = true ∧
    (Z.testbit (cr_securebits c) SECURE_KEEP_CAPS = false →
     Z.testbit (cr_securebits c') SECURE_KEEP_CAPS = false)
}.

#[global] Instance locks_kept_preorder : PreOrder locks_kept.
Proof.
  split.
  - intros c. by constructor.
  - intros a b c [H1 H2 H3] [H4 H5 H6]. constructor; unfold secure_locked in *; naive_solver.
Qed.

Lemma keep_cleared sb i :
  0 ≤ i → i ≠ SECURE_KEEP_CAPS →
  Z.testbit (Z.land sb (Z.lnot (issecure_mask SECURE_KEEP_CAPS))) i = Z.testbit sb i.
Proof.
  intros Hi Hn. rewrite Z.land_spec, Z.lnot_spec by done. unfold issecure_mask.
  rewrite Z.shiftl_1_l, Z.pow2_bits_false by done. by rewrite andb_true_r.
Qed.

Lemma locks_kept_step s s' :
  any_step s s' → cred_wf (t_cred s) → locks_kept (t_cred s) (t_cred s').
Proof.
  intros [H|H] Hwf.
  - pose proof (ok_secure _ _ (call_step_ok _ _ H Hwf)) as Hs.
    constructor; [apply Hs; set_solver..|].
    intros Hl. destruct (Hs SECURE_KEEP_CAPS) as [H1 H2]; [set_solver|done|].
    split; [done|]. by rewrite H2.
  - destruct (exec_step_ok _ _ H Hwf) as [[_ _ Hs _ _]| ->]; [|done].
    constructor; rewrite Hs; unfold secure_locked.
    + rewrite !keep_cleared by done. done.
    + rewrite !keep_cleared by done. done.
    + rewrite keep_cleared by done. intros ->. split; [done|].
      rewrite Z.land_spec. by intros ->.
Qed.

Lemma locks_kept_steps s s' :
  rtc any_step s s' → cred_wf (t_cred s) → locks_kept (t_cred s) (t_cred s').
Proof.
  induction 1 as [s|s s1 s' H _ IH]; intros Hwf; [done|].
  transitivity (t_cred s1); [by apply locks_kept_step|].
  apply IH. by apply (any_step_wf s).
Qed.

Lemma secure_locked_calls b s s' :
  b ∈ [SECURE_NOROOT; SECURE_NO_SETUID_FIXUP; SECURE_KEEP_CAPS] →
  rtc call_step s s' → cred_wf (t_cred s) →
  secure_locked b (cr_securebits (t_cred s)) (cr_securebits (t_cred s')).
Proof.
  intros Hb. induction 1 as [s|s s1 s' H _ IH]; intros Hwf; [done|].
  pose proof (ok_secure _ _ (call_step_ok _ _ H Hwf) b Hb) as Hs.
  assert (cred_wf (t_cred s1)) as Hwf1 by (apply (any_step_wf s); [by left|done]).
  specialize (IH Hwf1). unfold secure_locked in *. naive_solver.
Qed.

(** C37: no sequence of calls and execve's clears the lock of a secure bit or
    changes a locked NOROOT or NO_SETUID_FIXUP. A locked KEEP_CAPS is never
    set; it can be cleared, but only by execve: the calls leave it alone as
    well. *)
Theorem securebits_locked s s' :
  cred_wf (t_cred s) →
  (rtc any_step s s' → locks_kept (t_cred s) (t_cred s')) ∧
  (rtc call_step s s' → ∀ b, b ∈ [SECURE_NOROOT; SECURE_NO_SETUID_FIXUP; SECURE_KEEP_CAPS] →
     secure_locked b (cr_securebits (t_cred s)) (cr_securebits (t_cred s'))).
Proof.
  intros Hwf. split; [by intros; apply locks_kept_steps|]. intros H b Hb. by apply secure_locked_calls.
Qed.

(** ** setuid drops privilege for good *)

(** bit [x] of the secure bits of the caller *)
Lemma secure_bit x sb : 0 ≤ x → truth (Z.land (issecure_mask x) sb) = Z.testbit sb x.
Proof. intros Hx. rewrite Z.land_comm. by apply truth_land_shiftl. Qed.

(** leaving user id 0 for good clears the permitted and effective sets *)
Lemma fix_setuid_drops fl new old s Q E :
  fl ≠ LSM_SETID_FS → 0 ∈ take 3 (uids old) → 0 ∉ take 3 (uids new) →
  Z.testbit (cr_securebits (t_cred s)) SECURE_NO_SETUID_FIXUP = false →
  Z.testbit (cr_securebits (t_cred s)) SECURE_KEEP_CAPS = false →
  Q (set_cap_effective CAP_EMPTY_SET (set_cap_permitted CAP_EMPTY_SET new)) s →
  wp (cap_task_fix_setuid new old fl) Q E s.
Proof.
  intros Hfl Ho Hn Hf Hk HQ. unfold cap_task_fix_setuid. do 2 wp_step.
  rewrite secure_bit, Hf by done.
  assert (wp (cap_emulate_setxuid new old) Q E s) as He; [|by destruct fl].
  unfold cap_emulate_setxuid. do 3 wp_step. rewrite secure_bit, Hk by done.
  assert ((cr_uid old =? 0) || (cr_euid old =? 0) || (cr_suid old =? 0) = true) as ->.
  { rewrite !orb_true_iff, !Z.eqb_eq. unfold uids in Ho. simpl in Ho. set_solver. }
  unfold uids in Hn. simpl in Hn. rewrite !not_elem_of_cons in Hn.
  destruct Hn as (H1 & H2 & H3 & _).
  rewrite (proj2 (Z.eqb_neq (cr_uid new) 0)), (proj2 (Z.eqb_neq (cr_euid new) 0)),
    (proj2 (Z.eqb_neq (cr_suid new) 0)) by done. simpl.
  rewrite (proj2 (Z.eqb_neq (cr_euid new) 0)) by done.
  destruct (cr_euid old =? 0); simpl; by rewrite ?(proj2 (Z.eqb_neq (cr_euid new) 0)).
Qed.

(** what [setuid] does to a process that has been root and may change its id *)
Lemma sys_setuid_root al u s :
  CAP_SETUID ∈ cr_cap_effective (t_cred s) → u ≠ 0 → 0 ∈ take 3 (uids (t_cred s)) →
  Z.testbit (cr_securebits (t_cred s)) SECURE_NO_SETUID_FIXUP = false →
  Z.testbit (cr_securebits (t_cred s)) SECURE_KEEP_CAPS = false →
  wp (sys_setuid al u)
    (λ _ s', uids (t_cred s') = [u; u; u; u] ∧
       cr_cap_permitted (t_cred s') = CAP_EMPTY_SET)
    (λ e s', same_cred s s' ∧
       (e = ENOMEM ∧ cred_alloc al = false ∨ e = EAGAIN ∧ uid_alloc al = false)) s.
Proof.
  intros Hcap Hu H0 Hfix Hkeep. apply cap_raised_elem in Hcap; [|by unfold CAP_SETUID].
  unfold sys_setuid, with_new. do 2 wp_step.
  destruct (cred_alloc al) eqn:Ea; [|wp_step; split; [done|by left]].
  do 4 wp_step. rewrite Hcap. wp_step. cbv zeta. wp_step.
  - unfold set_user. do 2 wp_step. unfold alloc_uid.
    destruct (uid_alloc al) eqn:Eu; [|wp_step; split; [done|by right]].
    wp_step. wp_step. wp_step. wp_step. apply fix_setuid_drops; try done.
    4: { wp_step. by rewrite H1. }
    all: rewrite ?H; simpl; try rewrite H; try done; set_solver.
  - wp_step. wp_step. apply fix_setuid_drops; try done.
    4: { wp_step. by rewrite H1. }
    all: rewrite ?H; try done; set_solver.
Qed.

(** C19: let a process with CAP_SETUID effective and user id 0 among its real,
    effective and saved ids have the secure bits KEEP_CAPS and NO_SETUID_FIXUP
    clear, and let its setuid(u), u not 0, succeed. It has then given up user
    id 0 and every capability for good: after any further sequence of calls
    other than execve all its user ids are u and its permitted and effective
    sets are empty. *)
Theorem setuid_drops_for_good al u s s1 s2 :
  cred_wf (t_cred s) →
  CAP_SETUID ∈ cr_cap_effective (t_cred s) → u ≠ 0 → 0 ∈ take 3 (uids (t_cred s)) →
  Z.testbit (cr_securebits (t_cred s)) SECURE_NO_SETUID_FIXUP = false →
  Z.testbit (cr_securebits (t_cred s)) SECURE_KEEP_CAPS = false →
  sys_setuid al u s = (Ret tt, s1) → rtc call_step s1 s2 →
  uids (t_cred s2) = [u; u; u; u] ∧
  ∀ c, (c ∉ cr_cap_permitted (t_cred s2)) ∧ (c ∉ cr_cap_effective (t_cred s2)).
Proof.
  intros Hwf Hcap Hu H0 Hf Hk Hrun Hsteps.
  pose proof (sys_setuid_root al u s Hcap Hu H0 Hf Hk) as H. unfold wp in H.
  pose proof (contract_step _ s Hwf (sys_setuid_ok al u s Hwf)) as Hok.
  rewrite Hrun in H, Hok. simpl in Hok. destruct H as [Hids Hperm].
  destruct (calls_confined s1 s2 Hsteps (ok_wf _ _ Hok)) as (Hwf2 & Hp & Hid & _).
  rewrite Hperm in Hp, Hid. rewrite Hids in Hid. pose proof (wf_sub _ Hwf2) as Hs.
  split; [|intros x; split; intros Hx%Hs || intros Hx; apply Hp in Hx; set_solver].
  assert (uids (t_cred s2) ⊆ [u; u; u; u]) as Hx 
    by (apply Hid, not_elem_of_cap_empty).
  assert (∀ x, x ∈ uids (t_cred s2) → x = u) as Hall.
  { intros x Hin%Hx. rewrite !elem_of_cons, elem_of_nil in Hin. tauto. }
  unfold uids in *. repeat f_equal; apply Hall; rewrite !elem_of_cons; tauto.
Qed.

(** ** setresuid and execve in full *)

(** the new value of an id argument *)
Definition pick (x old : Z) : Z := if x =? no_id then old else x.

(** the caller may set an id to [x] *)
Definition id_allowed (c : cred) (x : Z) : Prop :=
  x = no_id ∨ x = cr_uid c ∨ x = cr_euid c ∨ x = cr_suid c.

(** setresuid sets each id that is not -1, and the file system id to the
    effective one, when the caller has CAP_SETUID or asks only for ids it
    holds; otherwise it fails with EPERM. The other failures are those of
    the two allocations, and a failure changes no credential. *)
Theorem sys_setresuid_spec al r e u s :
  let c := t_cred s in
  let allowed := CAP_SETUID ∈ cr_cap_effective c ∨
    (id_allowed c r ∧ id_allowed c e ∧ id_allowed c u) in
  wp (sys_setresuid al r e u)
    (λ _ s', allowed ∧
       uids (t_cred s') = [pick r (cr_uid c); pick e (cr_euid c);
                           pick u (cr_suid c); pick e (cr_euid c)])
    (λ x s', same_cred s s' ∧
       (x = ENOMEM ∧ cred_alloc al = false ∨ x = EPERM ∧ ¬ allowed ∨
        x = EAGAIN ∧ uid_alloc al = false ∧ r ≠ cr_uid c)) s.
Proof.
  intros c allowed. unfold sys_setresuid, with_new. do 2 wp_step.
  destruct (cred_alloc al) eqn:Ea; [|wp_step; split; [done|by left]].
  do 2 wp_step. cbv zeta. wp_step. wp_step. wp_step.
  eapply wp_mono with (Q := λ _ s', same_cred s s' ∧ allowed)
    (E := λ x s', same_cred s s' ∧ x = EPERM ∧ ¬ allowed); [| |by intros ? ? (?&?&?); auto].
  - destruct (cap_raised _ _) eqn:Ec; simpl.
    { wp_step. split; [done|]. left. apply cap_raised_elem; [by unfold CAP_SETUID|done]. }
    assert (CAP_SETUID ∉ cr_cap_effective c) as Hn.
    { intros [_ ?]. fold c in Ec. congruence. }
    fold c. unfold allowed, id_allowed.
    repeat wp_step; (split; [done|]); bool_props; [split; [done|]; tauto..|].
    right. tauto.
  - intros _ s1 [Hs1 Hal]. fold c. wp_step.
    eapply wp_mono with (Q := λ new s', same_cred s s' ∧ cr_uid new = pick r (cr_uid c) ∧
        cr_euid new = cr_euid c ∧ cr_suid new = cr_suid c)
      (E := λ x s', same_cred s s' ∧ x = EAGAIN ∧ uid_alloc al = false ∧ r ≠ cr_uid c);
      [| |by intros ? ? (?&?&?&?); split; [done|]; right; right].
    + unfold pick. repeat wp_step; [apply wp_set_user| |]; intros; bool_props; same_creds;
        rewrite ?E, ?(proj2 (Z.eqb_neq r no_id)) by done; by split_and!.
    + intros new s2 (Hs2 & H1 & H2 & H3). wp_step. apply wp_fix_setuid.
      intros new' []. wp_step. split; [done|]. rewrite H0, fix_uids.
      unfold uids, pick in *. by repeat case_test; simplify_eq/=; rewrite ?H1, ?H2, ?H3.
Qed.

(** the caller is traced, or shares its file system state, and is not trusted *)
Definition unsafe_exec (unsafe : Z) : bool :=
  truth (Z.land unsafe (Z.lnot LSM_UNSAFE_PTRACE_CAP)).

(** [new] has the real ids of [old] as all its ids, the groups of [old], and no
    capability [old] is not permitted *)
Definition harmless (old new : cred) : Prop :=
  uids new = replicate 4 (cr_uid old) ∧ gids new = replicate 4 (cr_gid old) ∧
  cr_group_info new = cr_group_info old ∧
  cr_cap_permitted new ⊆ cr_cap_permitted old ∧ cr_cap_effective new ⊆ cr_cap_permitted old.

Definition no_gain (old : cred) (unsafe : Z) (b : linux_binprm) : Prop :=
  bprm_unsafe b = unsafe ∧ harmless old (bprm_cred b).

Lemma harmless_finish old new eff :
  cr_uid new = cr_uid old → cr_gid new = cr_gid old → cr_group_info new = cr_group_info old →
  cr_euid new = cr_uid old → cr_egid new = cr_gid old →
  cr_cap_permitted new ⊆ cr_cap_permitted old → harmless old (bprm_finish new eff).
Proof.
  intros Hu Hg Hgr Heu Heg Hp. unfold harmless, uids, gids, bprm_finish. simpl. rewrite Hu, Hg, Heu, Heg.
  split_and!; try done. destruct eff; [done|]. intros c Hc. by destruct (not_elem_of_cap_empty c).
Qed.

Lemma cap_bprm_no_gain fcaps f bprm old s :
  t_cred s = old → cred_wf old → exec_pre old (bprm_cred bprm) →
  unsafe_exec (bprm_unsafe bprm) = true → cap_capable old init_user_ns CAP_SETUID = false →
  wp (cap_bprm_set_creds fcaps f bprm)
    (λ b s', same_cred s s' ∧ no_gain old (bprm_unsafe bprm) b) (λ _ s', same_cred s s') s.
Proof.
  intros Hs Hwf Hpre Hun Hcap. pose proof Hwf as []. pose proof Hpre as [].
  unfold cap_bprm_set_creds. do 3 wp_step. apply wp_lift.
  destruct (get_file_caps fcaps f (bprm_cred bprm)) as [r|e|] eqn:Eg;
    [|done|by apply get_file_caps_total in Eg].
  apply get_file_caps_ok in Eg as (p & Hr & Hpw & Hps); [|congruence..].
  destruct r as [[new eff] has]. simpl in Hr. subst new.
  cbv beta iota. do 2 wp_step. rewrite Hs.
  set (pr := if _ && _ then _ else _).
  assert (∃ p1 e1, pr = (set_cap_permitted p1 (bprm_cred bprm), e1) ∧ caps_wf p1)
    as (p1 & e1 & -> & Hw1).
  { unfold pr. repeat case_test; eexists _, _; (split; [reflexivity|auto with caps]). }
  cbv beta iota. wp_step. unfold unsafe_exec in Hun. rewrite Hun, andb_true_r.
  wp_step; [do 3 wp_step; rewrite Hs, Hcap|]; wp_step; (split; [done|]); unfold no_gain; (split; [done|]).
  - apply harmless_finish; simpl; [congruence..|set_solver].
  - simpl in E. bool_props. destruct E as [[? ?] Hsub]. apply cap_issubset_spec in Hsub; [|auto].
    apply harmless_finish; simpl; [congruence..|done].
Qed.

Lemma prepare_chain_no_gain fcaps unsafe fs bprm old s :
  t_cred s = old → cred_wf old → exec_pre old (bprm_cred bprm) →
  bprm_unsafe bprm = unsafe → unsafe_exec unsafe = true →
  cap_capable old init_user_ns CAP_SETUID = false →
  fs ≠ [] ∨ no_gain old unsafe bprm →
  wp (prepare_chain fcaps fs bprm)
    (λ b s', same_cred s s' ∧ no_gain old unsafe b) (λ _ s', same_cred s s') s.
Proof.
  intros Hs Hwf Hpre Hu Hun Hcap. revert bprm s Hs Hpre Hu.
  induction fs as [|f fs IH]; intros bprm s Hs Hpre Hu Hor; simpl.
  { wp_step. split; [done|]. naive_solver. }
  wp_step. pose proof (prepare_binprm_ok fcaps f bprm old s Hs Hwf Hpre) as Hok.
  assert (wp (prepare_binprm fcaps f bprm) (λ b s', same_cred s s' ∧ no_gain old unsafe b)
    (λ _ s', same_cred s s') s) as Hng.
  { unfold prepare_binprm. do 2 wp_step; [done|]. do 2 wp_step. rewrite <- Hu.
    apply (cap_bprm_no_gain _ _ (MkBinprm _ _ _)); try done; [|simpl; by rewrite Hu].
    simpl. repeat case_test; destruct Hpre; by constructor. }
  unfold wp in *. destruct (prepare_binprm fcaps f bprm s) as [[b1|e|] s1]; try done.
  destruct Hok as [Hs1 [_ Hpre1 _ _ _]], Hng as [_ Hng].
  specialize (IH b1 s1). unfold same_cred in *. rewrite Hs1 in IH.
  apply IH; try done; [by destruct Hng|by right].
Qed.

(** C28: an execve by a process that is traced by an unprivileged tracer, or
    shares its file system state, and lacks CAP_SETUID gives no privilege: the
    real, effective, saved and file system ids are all the old real id, the
    groups stay, and the permitted and effective sets are within the old
    permitted set, whatever set-id bits and capabilities the files have. A
    failed execve changes nothing. *)
Theorem unsafe_exec_gains_nothing al fcaps unsafe f fs s :
  cred_wf (t_cred s) → unsafe_exec unsafe = true →
  cap_capable (t_cred s) init_user_ns CAP_SETUID = false →
  wp (exec_creds al fcaps unsafe f fs)
    (λ _ s', harmless (t_cred s) (t_cred s')) (λ _ s', same_cred s s') s.
Proof.
  intros Hwf Hun Hcap. unfold exec_creds. do 2 wp_step. destruct (cred_alloc al); [|by wp_step].
  wp_step. eapply wp_mono; [apply (prepare_chain_no_gain _ unsafe _ _ (t_cred s));
    [done|done|apply exec_pre_refl|done|done|done|by left]|..]; [|done].
  intros b s1 [Hs1 [_ Hh]]. do 2 wp_step.
  unfold cap_bprm_secureexec. do 3 wp_step; wp_step; by rewrite H.
Qed.

(** an executable without set-id bits and without a capability attribute *)
Definition plain_file (f : exec_file) : Prop :=
  f_has_op f = true ∧ Z.land (i_mode f) S_ISUID = 0 ∧ Z.land (i_mode f) S_ISGID = 0 ∧
  (i_getxattr f = None ∨ i_getxattr f = Some (inl ENODATA)).

Lemma plain_file_caps fcaps f new :
  plain_file f → get_file_caps fcaps f new = Ret (bprm_clear_caps new, false, false).
Proof.
  intros (_ & _ & _ & Hx). unfold get_file_caps, get_vfs_caps_from_disk.
  repeat case_test; try done. by destruct Hx as [-> | ->].
Qed.

Lemma plain_file_sgid f :
  plain_file f → (Z.land (i_mode f) (Z.lor S_ISGID S_IXGRP) =? Z.lor S_ISGID S_IXGRP) = false.
Proof.
  intros (_ & _ & Hg & _). apply Z.eqb_neq. intros H.
  apply (f_equal (λ x, Z.testbit x 10)) in H, Hg. rewrite Z.land_spec in H, Hg.
  rewrite Z.bits_0 in Hg. simpl in H, Hg. congruence.
Qed.

(** executing an ordinary file: a process that is neither really nor
    effectively root, or is in NOROOT mode, ends with empty permitted and
    effective sets; a root process gets bset | pI as permitted set, effective
    if it is effectively root. Ids and the other sets are kept, the call
    succeeds whenever the allocation does. *)
Theorem exec_plain_file al fcaps f s :
  let c := t_cred s in
  let root := negb (Z.testbit (cr_securebits c) SECURE_NOROOT) &&
              ((cr_euid c =? 0) || (cr_uid c =? 0)) in
  plain_file f → cred_alloc al = true →
  wp (exec_creds al fcaps 0 f [])
    (λ _ s', exec_pre c (t_cred s') ∧
       cr_euid (t_cred s') = cr_euid c ∧ cr_egid (t_cred s') = cr_egid c ∧
       cr_cap_permitted (t_cred s') =
         (if root then cap_combine (cr_cap_bset c) (cr_cap_inheritable c)
          else CAP_EMPTY_SET) ∧
       cr_cap_effective (t_cred s') =
         (if root && (cr_euid c =? 0)
          then cr_cap_permitted (t_cred s') else CAP_EMPTY_SET))
    (λ _ _, False) s.
Proof.
  intros c root Hf Ha. unfold exec_creds. do 2 wp_step. rewrite Ha. fold c. wp_step.
  cbn [prepare_chain]. wp_step. unfold prepare_binprm.
  pose proof Hf as (Hop & Hu & _ & _). rewrite Hop. do 2 wp_step; [done|]. do 2 wp_step.
  rewrite plain_file_sgid, Hu by done. fold c. cbn [bprm_cred truth Z.eqb negb].
  replace (if negb (mnt_nosuid f) then _ else _)
    with (set_egid (cr_egid c) (set_euid (cr_euid c) c)) by by destruct (mnt_nosuid f).
  unfold cap_bprm_set_creds. do 3 wp_step. apply wp_lift.
  rewrite plain_file_caps by done. do 2 wp_step. fold c. rewrite secure_bit by done.
  set (pr := if _ && _ then _ else _).
  assert (pr = (set_cap_permitted
      (if root then cap_combine (cr_cap_bset c) (cr_cap_inheritable c) else CAP_EMPTY_SET)
      (set_egid (cr_egid c) (set_euid (cr_euid c) c)), root && (cr_euid c =? 0))) as ->.
  { unfold pr, root. destruct (Z.testbit _ _); [done|]. simpl.
    by destruct (cr_euid c =? 0), (cr_uid c =? 0). }
  cbv beta iota. wp_step. cbn [bprm_unsafe Z.land truth Z.eqb negb]. rewrite andb_false_r.
  unfold cap_bprm_secureexec.
  repeat wp_step; match goal with Hc : t_cred _ = _ |- _ => rewrite Hc end;
    (split; [|done]); constructor; simpl; auto.
Qed.

(** ** capget and capset *)

Lemma caps_words s : MkCaps (cap_word s 0) (cap_word s 1) = s.
Proof. by destruct s. Qed.

Lemma issubset_combine a b : caps_wf a → cap_issubset a (cap_combine a b) = true.
Proof. intros. apply cap_issubset_spec; [done|set_solver]. Qed.

Lemma cap_capset_same c s Q E :
  cred_wf c → Q c s →
  wp (cap_capset c c (cr_cap_effective c) (cr_cap_inheritable c) (cr_cap_permitted c)) Q E s.
Proof.
  intros [Hi Hp He Hb Hsub _ _] HQ. unfold cap_capset. wp_step.
  unfold cap_inh_is_capped. do 3 wp_step.
  rewrite !issubset_combine by done.
  rewrite (proj2 (cap_issubset_spec (cr_cap_permitted c) _ Hp)) by done.
  rewrite (proj2 (cap_issubset_spec (cr_cap_effective c) _ He)) by done.
  rewrite andb_false_r. do 4 (wp_step; wp_step; [done|]). wp_step. by destruct c.
Qed.

(** a header that asks for the caller itself *)
Definition self_header (w : bool) : cap_header :=
  MkCapHeader (Some _LINUX_CAPABILITY_VERSION_3) w (Some 0).

(** what capget (version 3 of the interface) reports of the caller, given
    back to capset, is accepted and leaves all credentials as they were. *)
Theorem capget_capset_roundtrip al find_task self w s :
  cred_wf (t_cred s) → cred_alloc al = true →
  ∃ kdata, sys_capget find_task self (self_header w) (Some true) s = (Ret kdata, s) ∧
    wp (sys_capset al self (self_header w) (Some kdata)) (λ _ s', t_cred s' = t_cred s)
      (λ _ _, False) s.
Proof.
  intros Hwf Ha. eexists. split; [reflexivity|].
  unfold sys_capset. wp_step. apply wp_lift. simpl. repeat first [wp_step; [done|] | wp_step].
  apply wp_lift. simpl. do 2 wp_step. rewrite Ha. do 3 wp_step. unfold caps_from_user. simpl. rewrite !caps_words.
  apply cap_capset_same; [done|]. by wp_step.
Qed.

(** ** Instances *)

(** root on the console, and an ordinary user *)
Definition root_cred : cred :=
  MkCred 0 0 0 0 0 0 0 0 0 CAP_EMPTY_SET CAP_FULL_SET CAP_FULL_SET CAP_FULL_SET
    INIT_USER [].
Definition user_cred (g : list Z) : cred :=
  MkCred 1000 100 1000 100 1000 100 1000 100 0 CAP_EMPTY_SET CAP_EMPTY_SET CAP_EMPTY_SET
    CAP_FULL_SET (MkUser 1000 init_user_ns) g.
Definition example_sys (c : cred) : sys := MkSys c 0 (Some 1) 0 (λ _, 1) 0 1024.
Definition allocs_ok : allocs := MkAllocs true true.

Lemma root_wf : cred_wf root_cred.
Proof. constructor; simpl; try done; try (by split). split; [constructor|done]. Qed.
Lemma user_wf : cred_wf (user_cred [4; 24; 46]).
Proof.
  constructor; simpl; try done; try (by split). split; [repeat constructor; lia|done].
Qed.

Lemma cred_invariant_witness :
  cred_wf (t_cred (sys_setuid allocs_ok 1000 (example_sys root_cred)).2).
Proof.
  refine (cred_invariant (example_sys root_cred) _ _ root_wf).
  apply rtc_once. left. apply step_setuid.
Defined.

Lemma unprivileged_confined_witness :
  uids (t_cred (sys_setresuid allocs_ok 0 0 0 (example_sys (user_cred [4; 24; 46]))).2)
  ⊆ [1000; 1000; 1000; 1000].
Proof.
  refine (proj1 (proj2 (unprivileged_confined (example_sys (user_cred [4; 24; 46])) _ _ _)) _).
  - apply rtc_once, step_setresuid.
  - apply user_wf.
  - apply not_elem_of_cap_empty.
Defined.

Lemma bounding_set_bounds_witness :
  cap_gone CAP_SYS_ADMIN (t_cred (exec_creds allocs_ok true 0
    (MkExecFile true 2541 0 0 false None) []
    (example_sys (set_cap_bset CAP_EMPTY_SET (user_cred [4; 24; 46])))).2).
Proof.
  refine (proj1 (bounding_set_bounds CAP_SYS_ADMIN
    (example_sys (set_cap_bset CAP_EMPTY_SET (user_cred [4; 24; 46]))) _ _ _ _)).
  - apply rtc_once. right. apply step_exec.
  - constructor; simpl; try done; try (by split). split; [repeat constructor; lia|done].
  - split_and!; apply not_elem_of_cap_empty.
Defined.

Lemma securebits_locked_witness :
  let s := (cap_task_prctl allocs_ok PR_SET_SECUREBITS 47 (example_sys root_cred)).2 in
  let s' := (cap_task_prctl allocs_ok PR_SET_SECUREBITS 0 s).2 in
  locks_kept (t_cred s) (t_cred s') ∧
  secure_locked SECURE_KEEP_CAPS (cr_securebits (t_cred s)) (cr_securebits (t_cred s')).
Proof.
  intros s s'. assert (call_step (example_sys root_cred) s) as H1 by by apply step_prctl.
  assert (call_step s s') as H2 by by apply step_prctl.
  destruct (securebits_locked s s') as [Hany Hcalls].
  { apply (any_step_wf (example_sys root_cred)); [by left|apply root_wf]. }
  split; [apply Hany, rtc_once; by left|]. apply Hcalls; [by apply rtc_once|].
  repeat (apply list_elem_of_here || apply list_elem_of_further).
Defined.

Lemma setuid_drops_for_good_witness :
  uids (t_cred (sys_setuid allocs_ok 1000 (example_sys root_cred)).2)
  = [1000; 1000; 1000; 1000].
Proof.
  refine (proj1 (setuid_drops_for_good allocs_ok 1000 (example_sys root_cred)
    (sys_setuid allocs_ok 1000 (example_sys root_cred)).2
    (sys_setuid allocs_ok 1000 (example_sys root_cred)).2
    root_wf _ _ _ _ _ _ (rtc_refl _ _))).
  - by split.
  - lia.
  - apply list_elem_of_here.
  - reflexivity.
  - reflexivity.
  - vm_compute. reflexivity.
Defined.

Lemma unsafe_exec_witness :
  wp (exec_creds allocs_ok true 2 (MkExecFile true 2541 0 0 false None) [])
    (λ _ s', harmless (user_cred [4; 24; 46]) (t_cred s'))
    (λ _ s', same_cred (example_sys (user_cred [4; 24; 46])) s')
    (example_sys (user_cred [4; 24; 46])).
Proof.
  exact (unsafe_exec_gains_nothing allocs_ok true 2 (MkExecFile true 2541 0 0 false None) []
    (example_sys (user_cred [4; 24; 46])) user_wf eq_refl eq_refl).
Defined.

Lemma exec_plain_file_witness :
  wp (exec_creds allocs_ok true 0 (MkExecFile true 493 0 0 false None) [])
    (λ _ s', cr_cap_permitted (t_cred s') = CAP_FULL_SET) (λ _ _, False)
    (example_sys root_cred).
Proof.
  refine (wp_mono _ _ _ _ _ _ (exec_plain_file allocs_ok true
    (MkExecFile true 493 0 0 false None) (example_sys root_cred) _ eq_refl) _ (λ _ _ H, H));
    [by repeat split; left|].
  intros _ s' (_ & _ & _ & -> & _). reflexivity.
Defined.

Lemma capget_capset_witness :
  ∃ kdata, sys_capget (λ _, None) 42
    (MkCapHeader (Some _LINUX_CAPABILITY_VERSION_3) true (Some 0)) (Some true)
    (example_sys root_cred) = (Ret kdata, example_sys root_cred).
Proof.
  destruct (capget_capset_roundtrip allocs_ok (λ _, None) 42 true (example_sys root_cred)
    root_wf eq_refl) as (kdata & H & _). by exists kdata.
Defined.
