(* ===== verification/Acl.v ===== *)
(** * POSIX access control lists

    fs/posix_acl.c and the extended attribute form of fs/xattr_acl.c: entries
    with a tag, a permission and an id; validity, the correspondence with file
    mode bits, the access decision, and the changes made by create and chmod.
    An ACL is the list of its [a_entries]; reference counts are left out and
    the allocation of a copy succeeds or fails by a boolean argument. *)

From stdpp Require Import sorting.
From S2P Require Import Prelude Cred Groups.

Definition EOPNOTSUPP : Z := 95.

Definition ACL_UNDEFINED_ID : Z := 2 ^ 32 - 1.
Definition ACL_USER_OBJ : Z := 1.
Definition ACL_USER : Z := 2.
Definition ACL_GROUP_OBJ : Z := 4.
Definition ACL_GROUP : Z := 8.
Definition ACL_MASK : Z := 16.
Definition ACL_OTHER : Z := 32.

Definition S_IRWXU : Z := 448.
Definition S_IRWXG : Z := 56.
Definition S_IRWXO : Z := 7.
Definition S_IRWXUGO : Z := 511.

Definition MAY_EXEC : Z := 1.
Definition MAY_WRITE : Z := 2.
Definition MAY_READ : Z := 4.
Definition MAY_NOT_BLOCK : Z := 128.

Record posix_acl_entry := MkEntry { e_tag : Z; e_perm : Z; e_id : Z }.
Definition posix_acl : Type := list posix_acl_entry.

Definition set_perm (p : Z) (e : posix_acl_entry) : posix_acl_entry :=
  MkEntry (e_tag e) p (e_id e).

(** ** Validity *)

(** the loop of [posix_acl_valid] from [state], [id] and [needs_mask]; the
    state it ends in *)
Fixpoint acl_valid_loop (acl : posix_acl) (state id : Z) (needs_mask : bool) : cres Z :=
  match acl with
  | [] => Ret state
  | pa :: acl =>
      if truth (Z.land (e_perm pa) (Z.lnot 7)) then Err EINVAL else
      if e_tag pa =? ACL_USER_OBJ then
        if state =? ACL_USER_OBJ then acl_valid_loop acl ACL_USER 0 needs_mask
        else Err EINVAL
      else if e_tag pa =? ACL_USER then
        if negb (state =? ACL_USER) then Err EINVAL else
        if (e_id pa =? ACL_UNDEFINED_ID) || (e_id pa <? id) then Err EINVAL else
        acl_valid_loop acl state (u32 (e_id pa + 1)) true
      else if e_tag pa =? ACL_GROUP_OBJ then
        if state =? ACL_USER then acl_valid_loop acl ACL_GROUP 0 needs_mask
        else Err EINVAL
      else if e_tag pa =? ACL_GROUP then
        if negb (state =? ACL_GROUP) then Err EINVAL else
        if (e_id pa =? ACL_UNDEFINED_ID) || (e_id pa <? id) then Err EINVAL else
        acl_valid_loop acl state (u32 (e_id pa + 1)) true
      else if e_tag pa =? ACL_MASK then
        if negb (state =? ACL_GROUP) then Err EINVAL else
        acl_valid_loop acl ACL_OTHER id needs_mask
      else if e_tag pa =? ACL_OTHER then
        if (state =? ACL_OTHER) || ((state =? ACL_GROUP) && negb needs_mask)
        then acl_valid_loop acl 0 id needs_mask
        else Err EINVAL
      else Err EINVAL
  end.

Definition posix_acl_valid (acl : posix_acl) : cres () :=
  state ← acl_valid_loop acl ACL_USER_OBJ 0 false;
  if state =? 0 then Ret tt else Err EINVAL.

(** ** File mode bits *)

(** [mode] and [not_equiv] after the loop *)
Fixpoint acl_equiv_loop (acl : posix_acl) (mode : Z) (not_equiv : bool) : cres (Z * bool) :=
  match acl with
  | [] => Ret (mode, not_equiv)
  | pa :: acl =>
      let p := Z.land (e_perm pa) S_IRWXO in
      if e_tag pa =? ACL_USER_OBJ then
        acl_equiv_loop acl (Z.lor mode (Z.shiftl p 6)) not_equiv
      else if e_tag pa =? ACL_GROUP_OBJ then
        acl_equiv_loop acl (Z.lor mode (Z.shiftl p 3)) not_equiv
      else if e_tag pa =? ACL_OTHER then
        acl_equiv_loop acl (Z.lor mode p) not_equiv
      else if e_tag pa =? ACL_MASK then
        acl_equiv_loop acl
          (Z.lor (Z.land mode (Z.lnot S_IRWXG)) (Z.shiftl p 3)) true
      else if (e_tag pa =? ACL_USER) || (e_tag pa =? ACL_GROUP) then
        acl_equiv_loop acl mode true
      else Err EINVAL
  end.

(** the new mode and whether the ACL says more than it *)
Definition posix_acl_equiv_mode (acl : posix_acl) (mode_p : Z) : cres (Z * bool) :=
  r ← acl_equiv_loop acl 0 false;
  Ret (Z.lor (Z.land mode_p (Z.lnot S_IRWXUGO)) r.1, r.2).

Definition posix_acl_from_mode (alloc : bool) (mode : Z) : cres posix_acl :=
  if negb alloc then Err ENOMEM else
  Ret [ MkEntry ACL_USER_OBJ (Z.shiftr (Z.land mode S_IRWXU) 6) ACL_UNDEFINED_ID;
        MkEntry ACL_GROUP_OBJ (Z.shiftr (Z.land mode S_IRWXG) 3) ACL_UNDEFINED_ID;
        MkEntry ACL_OTHER (Z.land mode S_IRWXO) ACL_UNDEFINED_ID ].

(** ** The access decision *)

Definition check_perm (pa : posix_acl_entry) (want : Z) : cres () :=
  if Z.land (e_perm pa) want =? want then Ret tt else Err EACCES.

(** label [mask]: the first mask entry after [pa] *)
Fixpoint check_mask (rest : posix_acl) (pa : posix_acl_entry) (want : Z) : cres () :=
  match rest with
  | [] => check_perm pa want
  | m :: rest =>
      if e_tag m =? ACL_MASK then
        if Z.land (Z.land (e_perm pa) (e_perm m)) want =? want
        then Ret tt else Err EACCES
      else check_mask rest pa want
  end.

Fixpoint acl_permission_loop (c : cred) (i_uid i_gid : Z) (acl : posix_acl) (want : Z)
    (found : bool) : cres () :=
  match acl with
  | [] => Err EIO
  | pa :: rest =>
      if e_tag pa =? ACL_USER_OBJ then
        if i_uid =? cr_fsuid c then check_perm pa want
        else acl_permission_loop c i_uid i_gid rest want found
      else if e_tag pa =? ACL_USER then
        if e_id pa =? cr_fsuid c then check_mask rest pa want
        else acl_permission_loop c i_uid i_gid rest want found
      else if (e_tag pa =? ACL_GROUP_OBJ) || (e_tag pa =? ACL_GROUP) then
        b ← in_group_p c (if e_tag pa =? ACL_GROUP_OBJ then i_gid else e_id pa);
        if b : bool then
          if Z.land (e_perm pa) want =? want then check_mask rest pa want
          else acl_permission_loop c i_uid i_gid rest want true
        else acl_permission_loop c i_uid i_gid rest want found
      else if e_tag pa =? ACL_MASK then
        acl_permission_loop c i_uid i_gid rest want found
      else if e_tag pa =? ACL_OTHER then
        if found then Err EACCES else check_perm pa want
      else Err EIO
  end.

Definition posix_acl_permission (c : cred) (i_uid i_gid : Z) (acl : posix_acl)
    (want : Z) : cres () :=
  acl_permission_loop c i_uid i_gid acl
    (Z.land want (Z.lor (Z.lor MAY_READ MAY_WRITE) (Z.lor MAY_EXEC MAY_NOT_BLOCK))) false.

(** ** Creating a file and chmod *)

(** the loop of [posix_acl_create_masq]: the entries rewritten, the mode, and
    the indices of the last group-object and mask entries *)
Fixpoint create_masq_loop (acl : posix_acl) (n : nat) (mode : Z)
    (group_obj mask_obj : option nat) (not_equiv : bool) :
    cres (posix_acl * Z * option nat * option nat * bool) :=
  match acl with
  | [] => Ret ([], mode, group_obj, mask_obj, not_equiv)
  | pa :: rest =>
      let continue pa' mode group_obj mask_obj not_equiv :=
        r ← create_masq_loop rest (S n) mode group_obj mask_obj not_equiv;
        let '(rest', mode, g, m, ne) := r in
        Ret (pa' :: rest', mode, g, m, ne) in
      if e_tag pa =? ACL_USER_OBJ then
        let p := Z.land (e_perm pa) (Z.lor (Z.shiftr mode 6) (Z.lnot S_IRWXO)) in
        continue (set_perm p pa) (Z.land mode (Z.lor (Z.shiftl p 6) (Z.lnot S_IRWXU)))
          group_obj mask_obj not_equiv
      else if (e_tag pa =? ACL_USER) || (e_tag pa =? ACL_GROUP) then
        continue pa mode group_obj mask_obj true
      else if e_tag pa =? ACL_GROUP_OBJ then
        continue pa mode (Some n) mask_obj not_equiv
      else if e_tag pa =? ACL_OTHER then
        let p := Z.land (e_perm pa) (Z.lor mode (Z.lnot S_IRWXO)) in
        continue (set_perm p pa) (Z.land mode (Z.lor p (Z.lnot S_IRWXO)))
          group_obj mask_obj not_equiv
      else if e_tag pa =? ACL_MASK then
        continue pa mode group_obj (Some n) true
      else Err EIO
  end.

(** the ACL and mode of the new inode, and whether the ACL says more than it *)
Definition posix_acl_create_masq (acl : posix_acl) (mode_p : Z) :
    cres (posix_acl * Z * bool) :=
  r ← create_masq_loop acl 0 mode_p None None false;
  let '(acl, mode, group_obj, mask_obj, not_equiv) := r in
  let finish i :=
    match acl !! i with
    | Some e =>
        let p := Z.land (e_perm e) (Z.lor (Z.shiftr mode 3) (Z.lnot S_IRWXO)) in
        let mode := Z.land mode (Z.lor (Z.shiftl p 3) (Z.lnot S_IRWXG)) in
        Ret (<[i := set_perm p e]> acl,
             Z.lor (Z.land mode_p (Z.lnot S_IRWXUGO)) mode, not_equiv)
    | None => UB
    end in
  match mask_obj, group_obj with
  | Some i, _ => finish i
  | None, Some i => finish i
  | None, None => Err EIO
  end.

Fixpoint chmod_masq_loop (acl : posix_acl) (n : nat) (mode : Z)
    (group_obj mask_obj : option nat) : cres (posix_acl * option nat * option nat) :=
  match acl with
  | [] => Ret ([], group_obj, mask_obj)
  | pa :: rest =>
      let continue pa' group_obj mask_obj :=
        r ← chmod_masq_loop rest (S n) mode group_obj mask_obj;
        let '(rest', g, m) := r in Ret (pa' :: rest', g, m) in
      if e_tag pa =? ACL_USER_OBJ then
        continue (set_perm (Z.shiftr (Z.land mode S_IRWXU) 6) pa) group_obj mask_obj
      else if (e_tag pa =? ACL_USER) || (e_tag pa =? ACL_GROUP) then
        continue pa group_obj mask_obj
      else if e_tag pa =? ACL_GROUP_OBJ then continue pa (Some n) mask_obj
      else if e_tag pa =? ACL_MASK then continue pa group_obj (Some n)
      else if e_tag pa =? ACL_OTHER then
        continue (set_perm (Z.land mode S_IRWXO) pa) group_obj mask_obj
      else Err EIO
  end.

Definition posix_acl_chmod_masq (acl : posix_acl) (mode : Z) : cres posix_acl :=
  r ← chmod_masq_loop acl 0 mode None None;
  let '(acl, group_obj, mask_obj) := r in
  let finish i :=
    match acl !! i with
    | Some e => Ret (<[i := set_perm (Z.shiftr (Z.land mode S_IRWXG) 3) e]> acl)
    | None => UB
    end in
  match mask_obj, group_obj with
  | Some i, _ => finish i
  | None, Some i => finish i
  | None, None => Err EIO
  end.

(** the copy is made first; the new ACL replaces the old one *)
Definition posix_acl_create (alloc : bool) (acl : posix_acl) (mode_p : Z) :
    cres (posix_acl * Z * bool) :=
  if alloc then posix_acl_create_masq acl mode_p else Err ENOMEM.
Definition posix_acl_chmod (alloc : bool) (acl : posix_acl) (mode : Z) : cres posix_acl :=
  if alloc then posix_acl_chmod_masq acl mode else Err ENOMEM.

(** ** The extended attribute *)

Definition POSIX_ACL_XATTR_VERSION : Z := 2.

Definition posix_acl_xattr_size (count : Z) : Z := 4 + count * 8.
Definition posix_acl_xattr_count (size : Z) : Z :=
  if size <? 4 then -1 else
  let size := size - 4 in
  if truth (size `mod` 8) then -1 else size / 8.

(** entry [n] at its offset, read within the [size] bytes of the value *)
Fixpoint acl_from_xattr_loop (count : nat) (value : list Z) (off : Z) : cres posix_acl :=
  match count with
  | O => Ret []
  | S count =>
      t ← array_read value off 2; tag ← le16_to_cpu t;
      p ← array_read value (off + 2) 2; perm ← le16_to_cpu p;
      let tag := if tag <? 2 ^ 15 then tag else tag - 2 ^ 16 in
      if (tag =? ACL_USER_OBJ) || (tag =? ACL_GROUP_OBJ) || (tag =? ACL_MASK)
         || (tag =? ACL_OTHER) then
        rest ← acl_from_xattr_loop count value (off + 8);
        Ret (MkEntry tag perm ACL_UNDEFINED_ID :: rest)
      else if (tag =? ACL_USER) || (tag =? ACL_GROUP) then
        i ← array_read value (off + 4) 4; id ← le32_to_cpu i;
        rest ← acl_from_xattr_loop count value (off + 8);
        Ret (MkEntry tag perm id :: rest)
      else Err EINVAL
  end.

(** [None] is the null pointer, as argument and as result *)
Definition posix_acl_from_xattr (alloc : bool) (value : option (list Z)) :
    cres (option posix_acl) :=
  match value with
  | None => Ret None
  | Some value =>
      if zlength value <? 4 then Err EINVAL else
      v ← array_read value 0 4; version ← le32_to_cpu v;
      if negb (version =? POSIX_ACL_XATTR_VERSION) then Err EOPNOTSUPP else
      let count := posix_acl_xattr_count (zlength value) in
      if count <? 0 then Err EINVAL else
      if count =? 0 then Ret None else
      if negb alloc then Err ENOMEM else
      acl ← acl_from_xattr_loop (Z.to_nat count) value 4;
      Ret (Some acl)
  end.

Definition entry_to_xattr (e : posix_acl_entry) : list Z :=
  cpu_to_le16 (e_tag e) ++ cpu_to_le16 (e_perm e) ++ cpu_to_le32 (e_id e).

(** the bytes stored and the size returned; [size] is that of the buffer,
    [None] when there is none *)
Definition posix_acl_to_xattr (acl : posix_acl) (size : option Z) : cres (list Z * Z) :=
  let real_size := posix_acl_xattr_size (zlength acl) in
  match size with
  | None => Ret ([], real_size)
  | Some size =>
      if real_size >? size then Err ERANGE else
      Ret (cpu_to_le32 POSIX_ACL_XATTR_VERSION ++ concat (map entry_to_xattr acl), real_size)
  end.

(** ** The shape of a valid ACL *)

(** the entries of an ACL by their role *)
Record acl_parts := MkParts {
  a_user_obj : posix_acl_entry; a_users : list posix_acl_entry;
  a_group_obj : posix_acl_entry; a_groups : list posix_acl_entry;
  a_mask : option posix_acl_entry; a_other : posix_acl_entry
}.

Definition acl_of (p : acl_parts) : posix_acl :=
  a_user_obj p :: a_users p ++ a_group_obj p :: a_groups p ++
  option_list (a_mask p) ++ [a_other p].

(** strictly increasing ids, from [id] and below the undefined id *)
Fixpoint ids_from (id : Z) (l : posix_acl) : Prop :=
  match l with
  | [] => True
  | e :: l => id ≤ e_id e < ACL_UNDEFINED_ID ∧ ids_from (e_id e + 1) l
  end.

Definition entry_wf (e : posix_acl_entry) : Prop := is_u16 (e_perm e) ∧ is_u32 (e_id e).

Definition perm_ok (e : posix_acl_entry) : Prop := 0 ≤ e_perm e < 8.
Definition has_tag (t : Z) (e : posix_acl_entry) : Prop := e_tag e = t ∧ perm_ok e.

(** one entry for the owner, the owning group and others, named users and
    groups without duplicates, and a mask whenever there are named entries *)
Record parts_valid (p : acl_parts) : Prop := {
  pv_user_obj : has_tag ACL_USER_OBJ (a_user_obj p);
  pv_users : Forall (has_tag ACL_USER) (a_users p);
  pv_users_ids : ids_from 0 (a_users p);
  pv_group_obj : has_tag ACL_GROUP_OBJ (a_group_obj p);
  pv_groups : Forall (has_tag ACL_GROUP) (a_groups p);
  pv_groups_ids : ids_from 0 (a_groups p);
  pv_mask : match a_mask p with
            | Some m => has_tag ACL_MASK m
            | None => a_users p = [] ∧ a_groups p = []
            end;
  pv_other : has_tag ACL_OTHER (a_other p)
}.

Lemma perm_test e : entry_wf e → truth (Z.land (e_perm e) (Z.lnot 7)) = false ↔ perm_ok e.
Proof.
  intros [He _]. unfold truth, perm_ok. rewrite negb_false_iff, Z.eqb_eq.
  change 7 with (Z.ones 3). rewrite <- Z.ldiff_land, Z.ldiff_ones_r by lia.
  rewrite Z.shiftr_div_pow2, Z.shiftl_mul_pow2 by lia. change (2 ^ 3) with 8.
  unfold is_u16 in He. split; intros H.
  - assert (e_perm e / 8 = 0) by lia. pose proof (Z.div_mod (e_perm e) 8).
    pose proof (Z.mod_pos_bound (e_perm e) 8). lia.
  - rewrite Z.div_small by lia. lia.
Qed.

(** one step of the loop on an entry of each kind *)
Lemma valid_loop_cons pa acl state id nm :
  entry_wf pa → acl_valid_loop (pa :: acl) state id nm = Ret 0 →
  perm_ok pa ∧
  ((e_tag pa = ACL_USER_OBJ ∧ state = ACL_USER_OBJ ∧ acl_valid_loop acl ACL_USER 0 nm = Ret 0) ∨
   (e_tag pa = ACL_USER ∧ state = ACL_USER ∧ id ≤ e_id pa < ACL_UNDEFINED_ID ∧
      acl_valid_loop acl ACL_USER (e_id pa + 1) true = Ret 0) ∨
   (e_tag pa = ACL_GROUP_OBJ ∧ state = ACL_USER ∧ acl_valid_loop acl ACL_GROUP 0 nm = Ret 0) ∨
   (e_tag pa = ACL_GROUP ∧ state = ACL_GROUP ∧ id ≤ e_id pa < ACL_UNDEFINED_ID ∧
      acl_valid_loop acl ACL_GROUP (e_id pa + 1) true = Ret 0) ∨
   (e_tag pa = ACL_MASK ∧ state = ACL_GROUP ∧ acl_valid_loop acl ACL_OTHER id nm = Ret 0) ∨
   (e_tag pa = ACL_OTHER ∧ (state = ACL_OTHER ∨ state = ACL_GROUP ∧ nm = false) ∧
      acl_valid_loop acl 0 id nm = Ret 0)).
Proof.
  intros Hwf H. simpl in H. pose proof (perm_test pa Hwf) as Hp. destruct Hwf as [_ Hid].
  destruct (truth _); [done|]. split; [by apply Hp|]. clear Hp.
  unfold is_u32, ACL_UNDEFINED_ID in *.
  repeat case_test; bool_props; try done;
    try (rewrite u32_id in H by (unfold is_u32; lia)); subst;
    [left|right; left|right; right; left|right; right; right; left
    |right; right; right; right; left|right; right; right; right; right];
    (split_and!; try done; try lia; tauto).
Qed.

(** from each state, what is left of the ACL *)
Lemma valid_loop_end acl id nm :
  Forall entry_wf acl → acl_valid_loop acl 0 id nm = Ret 0 → acl = [].
Proof.
  destruct acl as [|e acl]; [done|]. intros [Hwf _]%Forall_cons H.
  apply valid_loop_cons in H as [_ H]; [|done].
  unfold ACL_USER_OBJ, ACL_USER, ACL_GROUP, ACL_OTHER in H. naive_solver lia.
Qed.

Lemma valid_loop_other acl id nm :
  Forall entry_wf acl → acl_valid_loop acl ACL_OTHER id nm = Ret 0 →
  ∃ o, acl = [o] ∧ has_tag ACL_OTHER o.
Proof.
  destruct acl as [|e acl]; [done|]. intros [Hwf Hall]%Forall_cons H.
  apply valid_loop_cons in H as [Hp H]; [|done].
  destruct H as [H|[H|[H|[H|[H|H]]]]];
    try (destruct H as (_ & H & _); vm_compute in H; congruence).
  destruct H as (Ht & _ & H). apply valid_loop_end in H as ->; [|done].
  by exists e.
Qed.

Lemma valid_loop_group acl id nm :
  Forall entry_wf acl → acl_valid_loop acl ACL_GROUP id nm = Ret 0 →
  ∃ gs m o, acl = gs ++ option_list m ++ [o] ∧ Forall (has_tag ACL_GROUP) gs ∧
    ids_from id gs ∧ has_tag ACL_OTHER o ∧
    match m with Some m => has_tag ACL_MASK m | None => gs = [] ∧ nm = false end.
Proof.
  revert id nm. induction acl as [|e acl IH]; [done|]. intros id nm [Hwf Hall]%Forall_cons H.
  apply valid_loop_cons in H as [Hp H]; [|done].
  destruct H as [H|[H|[H|[H|[H|H]]]]];
    try (destruct H as (_ & H & _); vm_compute in H; congruence).
  - destruct H as (Ht & _ & Hid & H). apply IH in H as (gs & m & o & -> & Hg & Hi & Ho & Hm);
      [|done].
    exists (e :: gs), m, o. split_and!; [done|by constructor|done|done|].
    destruct m; [done|]. by destruct Hm.
  - destruct H as (Ht & _ & H). apply valid_loop_other in H as (o & -> & Ho); [|done].
    exists [], (Some e), o. by split_and!.
  - destruct H as (Ht & [H'|[_ ->]] & H); [by vm_compute in H'|].
    apply valid_loop_end in H as ->; [|done]. exists [], None, e. by split_and!.
Qed.

Lemma valid_loop_user acl id nm :
  Forall entry_wf acl → acl_valid_loop acl ACL_USER id nm = Ret 0 →
  ∃ us g rest, acl = us ++ g :: rest ∧ Forall (has_tag ACL_USER) us ∧ ids_from id us ∧
    has_tag ACL_GROUP_OBJ g ∧
    acl_valid_loop rest ACL_GROUP 0 (match us with [] => nm | _ => true end) = Ret 0.
Proof.
  revert id nm. induction acl as [|e acl IH]; [done|]. intros id nm [Hwf Hall]%Forall_cons H.
  apply valid_loop_cons in H as [Hp H]; [|done].
  destruct H as [H|[H|[H|[H|[H|H]]]]];
    try (destruct H as (_ & H & _); vm_compute in H; intuition congruence).
  - destruct H as (Ht & _ & Hid & H). apply IH in H as (us & g & rest & -> & Hu & Hi & Hg & Hr);
      [|done].
    exists (e :: us), g, rest. split_and!; [done|by constructor|done..|]. by destruct us.
  - destruct H as (Ht & _ & H). by exists [], e, acl.
Qed.

Lemma posix_acl_valid_parts acl :
  Forall entry_wf acl → posix_acl_valid acl = Ret tt →
  ∃ p, acl = acl_of p ∧ parts_valid p.
Proof.
  unfold posix_acl_valid. intros Hwf H.
  assert (acl_valid_loop acl ACL_USER_OBJ 0 false = Ret 0) as Hl.
  { destruct (acl_valid_loop _ _ _ _) as [st|e|]; try done. simpl in H. case_test; [|done].
    bprop. by subst. }
  clear H. destruct acl as [|e acl]; [done|]. apply Forall_cons in Hwf as [Hwf Hall].
  apply valid_loop_cons in Hl as [Hp H]; [|done].
  destruct H as [H|[H|[H|[H|[H|H]]]]];
    try (destruct H as (_ & H & _); vm_compute in H; intuition congruence).
  destruct H as (Ht & _ & H).
  apply valid_loop_user in H as (us & g & rest & -> & Hu & Hui & Hg & Hr); [|done].
  apply Forall_app in Hall as [_ [_ Hall]%Forall_cons].
  apply valid_loop_group in Hr as (gs & m & o & -> & Hgs & Hgi & Ho & Hm); [|done].
  exists (MkParts e us g gs m o). split; [done|].
  constructor; simpl; try done. destruct m; [done|]. destruct Hm as [-> Hm].
  by destruct us.
Qed.

Lemma perm_ok_test e : perm_ok e → truth (Z.land (e_perm e) (Z.lnot 7)) = false.
Proof.
  intros H. apply (perm_test (MkEntry 0 (e_perm e) 0)); [|done].
  unfold perm_ok in H. split; simpl; unfold_ranges; lia.
Qed.

Lemma loop_named t l rest id nm :
  t = ACL_USER ∨ t = ACL_GROUP → Forall (has_tag t) l → ids_from id l → 0 ≤ id →
  ∃ id', acl_valid_loop (l ++ rest) t id nm =
    acl_valid_loop rest t id' (match l with [] => nm | _ => true end).
Proof.
  intros Htag. revert id nm. induction l as [|e l IH]; intros id nm Hu Hi Hid; [by exists id|].
  apply Forall_cons in Hu as [[Ht Hp] Hu]. destruct Hi as [Hi His].
  destruct (IH (e_id e + 1) true) as [id' Hl]; [done|done|lia|]. exists id'. simpl.
  rewrite perm_ok_test, Ht by done. unfold ACL_UNDEFINED_ID in *.
  rewrite (proj2 (Z.eqb_neq (e_id e) _)), (proj2 (Z.ltb_ge (e_id e) _)) by lia.
  rewrite u32_id by (unfold is_u32; lia).
  destruct Htag as [-> | ->]; simpl; rewrite Hl; by destruct l.
Qed.

Lemma parts_valid_acl p : parts_valid p → posix_acl_valid (acl_of p) = Ret tt.
Proof.
  intros [[Huo Hpuo] Hus Hui [Hgo Hpgo] Hgs Hgi Hm [Ho Hpo]].
  unfold posix_acl_valid, acl_of. simpl.
  rewrite perm_ok_test, Huo by done. simpl.
  destruct (loop_named ACL_USER (a_users p) (a_group_obj p :: a_groups p ++ option_list (a_mask p)
    ++ [a_other p]) 0 false) as [id1 ->]; [by left|done|done|lia|]. simpl.
  rewrite perm_ok_test, Hgo by done. simpl.
  destruct (loop_named ACL_GROUP (a_groups p) (option_list (a_mask p) ++ [a_other p]) 0
    (match a_users p with [] => false | _ => true end)) as [id2 ->]; [by right|done|done|lia|].
  destruct (a_mask p) as [m|]; simpl.
  - destruct Hm as [Hmt Hmp]. rewrite perm_ok_test, Hmt by done. simpl.
    rewrite perm_ok_test, Ho by done. done.
  - destruct Hm as [-> ->]. rewrite perm_ok_test, Ho by done. done.
Qed.

(** [posix_acl_valid] accepts exactly the lists that consist of one owner
    entry, named users in strictly increasing order, one group entry, named
    groups in strictly increasing order, an optional mask (required as soon
    as there is a named entry) and one entry for others, all with permissions
    within rwx. *)
Theorem posix_acl_valid_spec acl :
  Forall entry_wf acl →
  posix_acl_valid acl = Ret tt ↔ ∃ p, acl = acl_of p ∧ parts_valid p.
Proof.
  intros Hwf. split; [by apply posix_acl_valid_parts|].
  intros (p & -> & Hp). by apply parts_valid_acl.
Qed.

(** ** The access decision on a valid ACL *)

Definition includes (perm want : Z) : bool := Z.land perm want =? want.
Definition masked (m : option posix_acl_entry) (perm : Z) : Z :=
  match m with Some m => Z.land perm (e_perm m) | None => perm end.

(** the entries that apply to the caller, as POSIX.1e orders them *)
Definition acl_grants (c : cred) (i_uid i_gid : Z) (p : acl_parts) (want : Z) : bool :=
  if i_uid =? cr_fsuid c then includes (e_perm (a_user_obj p)) want
  else match filter (λ e, e_id e = cr_fsuid c) (a_users p) with
  | e :: _ => includes (masked (a_mask p) (e_perm e)) want
  | [] =>
      let in_group g := bool_decide (g = cr_fsgid c ∨ g ∈ cr_group_info c) in
      let matching := (if in_group i_gid then [a_group_obj p] else [])
                      ++ filter (λ e, in_group (e_id e) = true) (a_groups p) in
      match matching with
      | [] => includes (e_perm (a_other p)) want
      | _ => existsb (λ e, includes (masked (a_mask p) (e_perm e)) want) matching
      end
  end.

Lemma check_mask_parts l m o pa want :
  Forall (λ e, e_tag e ≠ ACL_MASK) l → e_tag o ≠ ACL_MASK →
  match m with Some m => e_tag m = ACL_MASK | None => True end →
  check_mask (l ++ option_list m ++ [o]) pa want =
    if includes (masked m (e_perm pa)) want then Ret tt else Err EACCES.
Proof.
  intros Hl Ho Hm. induction Hl as [|e l He Hl IH]; simpl.
  - destruct m as [m|]; simpl; [by rewrite Hm|]. by rewrite (proj2 (Z.eqb_neq _ _) Ho).
  - by rewrite (proj2 (Z.eqb_neq _ _) He).
Qed.

Lemma includes_bits p w :
  includes p w = true ↔ ∀ i, 0 ≤ i → Z.testbit w i = true → Z.testbit p i = true.
Proof.
  unfold includes. rewrite Z.eqb_eq. split.
  - intros <- i _. rewrite Z.land_spec. by intros [? _]%andb_prop.
  - intros H. apply Z.bits_inj'. intros i Hi. rewrite Z.land_spec.
    destruct (Z.testbit w i) eqn:E; [by rewrite H|by rewrite andb_false_r].
Qed.

Lemma includes_land p q w : includes (Z.land p q) w = includes p w && includes q w.
Proof.
  apply eq_true_iff_eq. rewrite andb_true_iff, !includes_bits.
  setoid_rewrite Z.land_spec. setoid_rewrite andb_true_iff. naive_solver.
Qed.

Lemma includes_masked m p w :
  includes (masked m p) w =
  includes p w && match m with Some m => includes (e_perm m) w | None => true end.
Proof. destruct m; simpl; [apply includes_land|by rewrite andb_true_r]. Qed.

(** the outcome of a decision *)
Definition access (b : bool) : cres () := if b then Ret tt else Err EACCES.

Section decision.
Context (c : cred) (i_uid i_gid want : Z) (Hgroups : groups_wf (cr_group_info c)).
Context (m : option posix_acl_entry) (o : posix_acl_entry).
Context (Hm : match m with Some m => e_tag m = ACL_MASK | None => True end).
Context (Ho : e_tag o = ACL_OTHER).

Definition in_group (g : Z) : bool := bool_decide (g = cr_fsgid c ∨ g ∈ cr_group_info c).
Definition grants (e : posix_acl_entry) : bool := includes (masked m (e_perm e)) want.

Lemma in_group_p_eq g : in_group_p c g = Ret (in_group g).
Proof. by apply in_group_p_ok. Qed.

Lemma mask_tail l pa :
  Forall (λ e, e_tag e ≠ ACL_MASK) l →
  check_mask (l ++ option_list m ++ [o]) pa want = access (grants pa).
Proof. intros Hl. apply check_mask_parts; [done|by rewrite Ho|done]. Qed.

Lemma decide_tail found :
  acl_permission_loop c i_uid i_gid (option_list m ++ [o]) want found =
  access (negb found && includes (e_perm o) want).
Proof.
  assert (acl_permission_loop c i_uid i_gid [o] want found =
    access (negb found && includes (e_perm o) want)) as Hlast.
  { simpl. rewrite Ho. simpl. destruct found; [done|]. done. }
  destruct m as [e|]; [|done]. simpl in *. rewrite Hm. exact Hlast.
Qed.

(** all group entries fail or succeed together at the mask *)
Lemma grants_mask e e' :
  includes (e_perm e) want = true → grants e = false → grants e' = false.
Proof.
  unfold grants. rewrite !includes_masked. intros -> H. simpl in H. rewrite H.
  by rewrite andb_false_r.
Qed.

Lemma decide_groups (g_of : posix_acl_entry → Z) gs found :
  Forall (λ e, (e_tag e = ACL_GROUP ∧ g_of e = e_id e) ∨
               (e_tag e = ACL_GROUP_OBJ ∧ g_of e = i_gid)) gs →
  acl_permission_loop c i_uid i_gid (gs ++ option_list m ++ [o]) want found =
  let matching := filter (λ e, in_group (g_of e) = true) gs in
  access (match matching with
          | [] => negb found && includes (e_perm o) want
          | _ => existsb grants matching
          end).
Proof.
  intros Hgs. revert found. induction Hgs as [|e gs He Hgs IH]; intros found;
    [apply decide_tail|].
  assert (Forall (λ e, e_tag e ≠ ACL_MASK) gs) as Hnm.
  { eapply Forall_impl; [exact Hgs|]. intros e' [[-> _]|[-> _]]; done. }
  assert (acl_permission_loop c i_uid i_gid ((e :: gs) ++ option_list m ++ [o]) want found =
    if in_group (g_of e) then
      if includes (e_perm e) want then access (grants e)
      else acl_permission_loop c i_uid i_gid (gs ++ option_list m ++ [o]) want true
    else acl_permission_loop c i_uid i_gid (gs ++ option_list m ++ [o]) want found) as ->.
  { rewrite <- (mask_tail gs e Hnm), <- app_comm_cons. simpl.
    destruct He as [[-> ->]|[-> ->]]; simpl; rewrite in_group_p_eq; done. }
  rewrite filter_cons. destruct (in_group (g_of e)) eqn:Eg.
  - rewrite decide_True by done. destruct (includes (e_perm e) want) eqn:Ei.
    + simpl. destruct (grants e) eqn:Eg'; [done|]. simpl.
      destruct (existsb _ _) eqn:Ex; [|done]. apply existsb_exists in Ex as (e' & _ & He').
      rewrite (grants_mask e e') in He'; done.
    + rewrite IH. cbv zeta. simpl. assert (grants e = false) as ->.
      { unfold grants. by rewrite includes_masked, Ei. }
      by destruct (filter _ gs).
  - rewrite decide_False by done. apply IH.
Qed.

Lemma decide_users us l found :
  Forall (λ e, e_tag e = ACL_USER) us → Forall (λ e, e_tag e ≠ ACL_MASK) l →
  acl_permission_loop c i_uid i_gid (us ++ l ++ option_list m ++ [o]) want found =
  match filter (λ e, e_id e = cr_fsuid c) us with
  | e :: _ => access (grants e)
  | [] => acl_permission_loop c i_uid i_gid (l ++ option_list m ++ [o]) want found
  end.
Proof.
  intros Hus Hl. induction Hus as [|e us He Hus IH]; [done|].
  rewrite filter_cons. simpl. rewrite He. simpl.
  destruct (Z.eqb_spec (e_id e) (cr_fsuid c)) as [E|E].
  - rewrite decide_True by done. rewrite (app_assoc us l). apply mask_tail.
    apply Forall_app; split; [|done]. eapply Forall_impl; [exact Hus|]. by intros ? ->.
  - rewrite decide_False by done. exact IH.
Qed.
End decision.

Lemma filter_named_groups c i_gid gs :
  Forall (λ e, e_tag e = ACL_GROUP) gs →
  filter (λ e, in_group c (if e_tag e =? ACL_GROUP_OBJ then i_gid else e_id e) = true) gs =
  filter (λ e, in_group c (e_id e) = true) gs.
Proof.
  induction 1 as [|e gs He _ IH]; [done|]. rewrite !filter_cons, IH, He. done.
Qed.

Lemma acl_permission_parts c i_uid i_gid p want :
  groups_wf (cr_group_info c) → parts_valid p →
  acl_permission_loop c i_uid i_gid (acl_of p) want false =
  access (acl_grants c i_uid i_gid p want).
Proof.
  intros Hg [[Huo _] Hus _ [Hgo _] Hgs _ Hm [Ho _]]. unfold acl_of, acl_grants.
  assert (match a_mask p with Some m => e_tag m = ACL_MASK | None => True end) as Hm'
    by (destruct (a_mask p); [apply Hm|done]).
  assert (Forall (λ e, e_tag e = ACL_USER) (a_users p)) as Hus'
    by (eapply Forall_impl; [exact Hus|]; by intros ? []).
  assert (Forall (λ e, e_tag e = ACL_GROUP) (a_groups p)) as Hgs'
    by (eapply Forall_impl; [exact Hgs|]; by intros ? []).
  cbn [acl_permission_loop]. rewrite Huo.
  change (ACL_USER_OBJ =? ACL_USER_OBJ) with true. cbv iota.
  destruct (Z.eqb_spec i_uid (cr_fsuid c)) as [E|E]; [done|].
  rewrite (app_comm_cons (a_groups p)), decide_users; [|done..|].
  2: { constructor; [by rewrite Hgo|]. eapply Forall_impl; [exact Hgs'|]. by intros ? ->. }
  destruct (filter _ (a_users p)) as [|u us]; [|done].
  rewrite (decide_groups c i_uid i_gid want Hg (a_mask p) (a_other p) Hm' Ho
    (λ e, if e_tag e =? ACL_GROUP_OBJ then i_gid else e_id e)).
  2: { constructor; [right; by rewrite Hgo|]. eapply Forall_impl; [exact Hgs'|].
       intros e He. left. by rewrite He. }
  cbv zeta. rewrite filter_cons, Hgo.
  change (ACL_GROUP_OBJ =? ACL_GROUP_OBJ) with true. cbv iota.
  rewrite (filter_named_groups c i_gid) by done. fold (in_group c i_gid).
  destruct (in_group c i_gid) eqn:Ei.
  - rewrite decide_True by done. done.
  - rewrite decide_False by done. done.
Qed.

(** C30: on a valid ACL the access check returns 0 or EACCES, never EIO, and
    decides as POSIX.1e prescribes: the owner by the owner entry, a named
    user by that entry under the mask, members of listed groups by any of
    their group entries under the mask, everybody else by the last entry. *)
Theorem posix_acl_permission_spec c i_uid i_gid p want :
  groups_wf (cr_group_info c) → parts_valid p →
  posix_acl_permission c i_uid i_gid (acl_of p) want =
  access (acl_grants c i_uid i_gid p (Z.land want 135)).
Proof. intros. by apply acl_permission_parts. Qed.

(** ** ACLs and mode bits *)

Lemma bits_S_IRWXO i : 0 ≤ i → Z.testbit S_IRWXO i = (i <? 3).
Proof.
  intros. change S_IRWXO with (Z.ones 3). rewrite Z.testbit_ones_nonneg by lia. done.
Qed.
Lemma bits_S_IRWXG i : 0 ≤ i → Z.testbit S_IRWXG i = (3 <=? i) && (i <? 6).
Proof.
  intros. change S_IRWXG with (Z.shiftl (Z.ones 3) 3). rewrite Z.shiftl_spec by lia.
  destruct (Z.leb_spec 3 i); simpl; [|apply Z.testbit_neg_r; lia].
  rewrite Z.testbit_ones_nonneg by lia. destruct (Z.ltb_spec (i - 3) 3), (Z.ltb_spec i 6); lia.
Qed.
Lemma bits_S_IRWXU i : 0 ≤ i → Z.testbit S_IRWXU i = (6 <=? i) && (i <? 9).
Proof.
  intros. change S_IRWXU with (Z.shiftl (Z.ones 3) 6). rewrite Z.shiftl_spec by lia.
  destruct (Z.leb_spec 6 i); simpl; [|apply Z.testbit_neg_r; lia].
  rewrite Z.testbit_ones_nonneg by lia. destruct (Z.ltb_spec (i - 6) 3), (Z.ltb_spec i 9); lia.
Qed.
Lemma bits_S_IRWXUGO i : 0 ≤ i → Z.testbit S_IRWXUGO i = (i <? 9).
Proof.
  intros. change S_IRWXUGO with (Z.ones 9). rewrite Z.testbit_ones_nonneg by lia. done.
Qed.

Lemma bits_perm p i : 0 ≤ p < 8 → 3 ≤ i → Z.testbit p i = false.
Proof. intros. by apply (bits_above 3). Qed.

(** equality of mode expressions, bit by bit *)
Ltac mode_bits :=
  let i := fresh "i" in let Hi := fresh "Hi" in
  apply Z.bits_inj'; intros i Hi;
  destruct (Z.ltb_spec i 3); [|destruct (Z.ltb_spec i 6); [|destruct (Z.ltb_spec i 9)]];
  repeat first
    [ rewrite Z.lor_spec | rewrite Z.land_spec | rewrite Z.bits_0
    | match goal with
      | |- context [Z.testbit ?x ?j] => rewrite (Z.testbit_neg_r x j) by lia
      | |- context [Z.testbit (Z.lnot ?x) ?j] => rewrite (Z.lnot_spec x j) by lia
      | |- context [Z.testbit (Z.shiftl ?x ?k) ?j] => rewrite (Z.shiftl_spec x k j) by lia
      | |- context [Z.testbit (Z.shiftr ?x ?k) ?j] => rewrite (Z.shiftr_spec x k j) by lia
      end ];
  rewrite ?bits_S_IRWXU, ?bits_S_IRWXG, ?bits_S_IRWXO, ?bits_S_IRWXUGO by lia;
  repeat first
    [ rewrite (proj2 (Z.ltb_lt _ _)) by lia | rewrite (proj2 (Z.ltb_ge _ _)) by lia
    | rewrite (proj2 (Z.leb_le _ _)) by lia | rewrite (proj2 (Z.leb_gt _ _)) by lia
    | match goal with
      | H : 0 ≤ ?p < 8 |- context [Z.testbit ?p ?j] =>
          rewrite (bits_perm p j H) by lia
      end ];
  rewrite ?Z.add_simpl_r, ?Z.sub_simpl_r; cbn [andb orb negb];
  rewrite ?andb_true_r, ?andb_false_r, ?orb_false_r, ?orb_true_r; cbn [andb orb negb].

(** the permission that stands in the group bits of the mode: the mask, or
    the owning group without one *)
Definition group_class (p : acl_parts) : Z :=
  match a_mask p with Some m => e_perm m | None => e_perm (a_group_obj p) end.
Definition parts_mode (p : acl_parts) : Z :=
  Z.lor (Z.lor (Z.shiftl (e_perm (a_user_obj p)) 6) (Z.shiftl (group_class p) 3))
        (e_perm (a_other p)).

Lemma equiv_named t l rest mode ne :
  t = ACL_USER ∨ t = ACL_GROUP → Forall (has_tag t) l →
  acl_equiv_loop (l ++ rest) mode ne =
  acl_equiv_loop rest mode (match l with [] => ne | _ => true end).
Proof.
  intros Ht Hl. revert ne. induction Hl as [|e l [He _] Hl IH]; intros ne; [done|].
  simpl. rewrite He. destruct Ht as [-> | ->]; simpl; rewrite IH; by destruct l.
Qed.

Lemma perm_low p : 0 ≤ p < 8 → Z.land p S_IRWXO = p.
Proof.
  intros. change S_IRWXO with (Z.ones 3). rewrite Z.land_ones by lia. by apply Z.mod_small.
Qed.

(** evaluate the tests on tags that are known *)
Ltac tag_tests :=
  repeat match goal with
  | |- context [?a =? ?b] =>
      let v := eval vm_compute in (a =? b) in
      lazymatch v with true => idtac | false => idtac end; change (a =? b) with v
  end; cbv iota; cbn [orb andb negb].

Lemma equiv_mode_parts p m0 :
  parts_valid p →
  posix_acl_equiv_mode (acl_of p) m0 =
  Ret (Z.lor (Z.land m0 (Z.lnot S_IRWXUGO)) (parts_mode p), bool_decide (is_Some (a_mask p))).
Proof.
  intros [[Huo Hpu] Hus _ [Hgo Hpg] Hgs _ Hm [Ho Hpo]].
  unfold posix_acl_equiv_mode, acl_of, parts_mode, group_class, perm_ok in *.
  cbn [acl_equiv_loop]. rewrite Huo, perm_low by done. tag_tests.
  rewrite (equiv_named ACL_USER) by auto. cbn [acl_equiv_loop].
  rewrite Hgo, perm_low by done. tag_tests. rewrite (equiv_named ACL_GROUP) by auto.
  destruct (a_mask p) as [m|].
  - change (option_list (Some m) ++ [a_other p]) with [m; a_other p].
    cbn [acl_equiv_loop]. destruct Hm as [Hmt Hmp]. unfold perm_ok in Hmp.
    rewrite Hmt, Ho, !perm_low by done. tag_tests. cbn [mbind cres_bind fst snd].
    do 3 f_equal; mode_bits; done.
  - change (option_list None ++ [a_other p]) with [a_other p]. cbn [acl_equiv_loop].
    destruct Hm as [-> ->]. rewrite Ho, perm_low by done. tag_tests. cbn [mbind cres_bind fst snd].
    do 3 f_equal; mode_bits; done.
Qed.

(** the entries of [posix_acl_from_mode] *)
Definition mode_parts (mode : Z) : acl_parts :=
  MkParts (MkEntry ACL_USER_OBJ (Z.shiftr (Z.land mode S_IRWXU) 6) ACL_UNDEFINED_ID) []
    (MkEntry ACL_GROUP_OBJ (Z.shiftr (Z.land mode S_IRWXG) 3) ACL_UNDEFINED_ID) [] None
    (MkEntry ACL_OTHER (Z.land mode S_IRWXO) ACL_UNDEFINED_ID).

Lemma mode_class_u mode : 0 ≤ Z.shiftr (Z.land mode S_IRWXU) 6 < 8.
Proof.
  apply (bits_bound 3); [lia|apply Z.shiftr_nonneg, Z.land_nonneg; by right|].
  intros i Hi. rewrite Z.shiftr_spec, Z.land_spec, bits_S_IRWXU by lia.
  rewrite (proj2 (Z.ltb_ge _ _)) by lia. by rewrite !andb_false_r.
Qed.
Lemma mode_class_g mode : 0 ≤ Z.shiftr (Z.land mode S_IRWXG) 3 < 8.
Proof.
  apply (bits_bound 3); [lia|apply Z.shiftr_nonneg, Z.land_nonneg; by right|].
  intros i Hi. rewrite Z.shiftr_spec, Z.land_spec, bits_S_IRWXG by lia.
  rewrite (proj2 (Z.ltb_ge _ _)) by lia. by rewrite !andb_false_r.
Qed.
Lemma mode_class_o mode : 0 ≤ Z.land mode S_IRWXO < 8.
Proof.
  apply (bits_bound 3); [lia|apply Z.land_nonneg; by right|].
  intros i Hi. rewrite Z.land_spec, bits_S_IRWXO by lia.
  rewrite (proj2 (Z.ltb_ge _ _)) by lia. by rewrite !andb_false_r.
Qed.

Lemma mode_parts_valid mode : parts_valid (mode_parts mode).
Proof.
  constructor; simpl; try done; split; try done;
    [apply mode_class_u|apply mode_class_g|apply mode_class_o].
Qed.

Lemma mode_parts_mode mode : parts_mode (mode_parts mode) = Z.land mode S_IRWXUGO.
Proof. unfold parts_mode, group_class. simpl. mode_bits; done. Qed.

(** the ACL made from a file mode is valid and stands for exactly the
    nine permission bits: converted back it gives the mode again. *)
Theorem acl_mode_roundtrip mode m0 acl :
  posix_acl_from_mode true mode = Ret acl →
  posix_acl_valid acl = Ret tt ∧
  posix_acl_equiv_mode acl m0 =
    Ret (Z.lor (Z.land m0 (Z.lnot S_IRWXUGO)) (Z.land mode S_IRWXUGO), false).
Proof.
  intros [= <-]. change [_; _; _] with (acl_of (mode_parts mode)).
  split; [apply parts_valid_acl, mode_parts_valid|].
  rewrite equiv_mode_parts, mode_parts_mode by apply mode_parts_valid. done.
Qed.

(** the class bits of the mode that apply to the caller *)
Definition mode_grants (c : cred) (i_uid i_gid mode want : Z) : bool :=
  let mode := if i_uid =? cr_fsuid c then Z.shiftr mode 6
              else if in_group c i_gid then Z.shiftr mode 3 else mode in
  Z.land (Z.land want (Z.lnot mode)) 7 =? 0.

Lemma includes_mode p want :
  0 ≤ want < 8 → includes p want = (Z.land (Z.land want (Z.lnot p)) 7 =? 0).
Proof.
  intros Hw. apply eq_true_iff_eq. rewrite includes_bits, Z.eqb_eq. split.
  - intros H. apply Z.bits_inj_0. intros i. rewrite !Z.land_spec.
    destruct (Z.lt_ge_cases i 0); [by rewrite !Z.testbit_neg_r|].
    rewrite Z.lnot_spec by done. destruct (Z.testbit want i) eqn:E; [|done].
    by rewrite (H i).
  - intros H i Hi E. apply (f_equal (λ x, Z.testbit x i)) in H.
    rewrite !Z.land_spec, Z.lnot_spec, E, Z.bits_0 in H by done.
    destruct (Z.lt_ge_cases i 3); [|by rewrite (bits_perm want) in E].
    change 7 with S_IRWXO in H. rewrite bits_S_IRWXO, (proj2 (Z.ltb_lt i 3)) in H by done.
    by destruct (Z.testbit p i).
Qed.

Lemma includes_low p q want :
  0 ≤ want < 8 → Z.land p 7 = Z.land q 7 → includes p want = includes q want.
Proof.
  intros Hw H. assert (∀ p, includes p want = includes (Z.land p 7) want) as Hl.
  { intros x. rewrite includes_land. replace (includes 7 want) with true; [by rewrite andb_true_r|].
    symmetry. apply includes_bits. intros i Hi E. change 7 with S_IRWXO.
    rewrite bits_S_IRWXO by done. apply Z.ltb_lt.
    destruct (Z.lt_ge_cases i 3); [done|]. by rewrite (bits_perm want) in E. }
  by rewrite Hl, H, <- Hl.
Qed.

(** for a file whose ACL is the one of its mode, the ACL check decides as
    the mode bits of the owner, group and other classes do. *)
Theorem acl_mode_permission c i_uid i_gid mode acl want :
  groups_wf (cr_group_info c) → 0 ≤ want < 8 →
  posix_acl_from_mode true mode = Ret acl →
  posix_acl_permission c i_uid i_gid acl want = access (mode_grants c i_uid i_gid mode want).
Proof.
  intros Hg Hw [= <-]. change [_; _; _] with (acl_of (mode_parts mode)).
  unfold posix_acl_permission. rewrite acl_permission_parts by (done || apply mode_parts_valid).
  f_equal. change (Z.land want _) with (Z.land want 135).
  replace (Z.land want 135) with want.
  2: { symmetry. change 135 with (Z.lor 128 S_IRWXO). rewrite Z.land_lor_distr_r, perm_low by done.
       replace (Z.land want 128) with 0; [done|]. symmetry. apply Z.bits_inj_0. intros i.
       rewrite Z.land_spec. change 128 with (2 ^ 7). rewrite Z.pow2_bits_eqb by lia.
       destruct (Z.eqb_spec 7 i) as [<-|]; [|by rewrite andb_false_r].
       by rewrite (bits_perm want). }
  unfold acl_grants, mode_grants. simpl. fold (in_group c i_gid).
  destruct (i_uid =? cr_fsuid c); [|destruct (in_group c i_gid)]; simpl;
    rewrite ?orb_false_r, <- includes_mode by done;
    apply includes_low; [done| |done| |done|]; change 7 with S_IRWXO; mode_bits; done.
Qed.

(** ** chmod on an ACL *)

Definition with_class (p : acl_parts) (u g o : Z) : acl_parts :=
  MkParts (set_perm u (a_user_obj p)) (a_users p)
    (match a_mask p with Some _ => a_group_obj p | None => set_perm g (a_group_obj p) end)
    (a_groups p) (set_perm g <$> a_mask p) (set_perm o (a_other p)).

Lemma with_class_valid p u g o :
  parts_valid p → 0 ≤ u < 8 → 0 ≤ g < 8 → 0 ≤ o < 8 → parts_valid (with_class p u g o).
Proof.
  intros [[? ?] ? ? [? ?] ? ? Hm [? ?]] ???.
  constructor; simpl; try done; destruct (a_mask p) as [m|]; simpl; try done.
  by destruct Hm.
Qed.

Lemma with_class_mode p u g o :
  parts_mode (with_class p u g o) = Z.lor (Z.lor (Z.shiftl u 6) (Z.shiftl g 3)) o.
Proof. unfold parts_mode, group_class. simpl. by destruct (a_mask p). Qed.

Lemma chmod_named t l rest n mode g m :
  t = ACL_USER ∨ t = ACL_GROUP → Forall (has_tag t) l →
  chmod_masq_loop (l ++ rest) n mode g m =
  (r ← chmod_masq_loop rest (n + length l) mode g m;
   let '(rest', g, m) := r in Ret (l ++ rest', g, m)).
Proof.
  intros Ht Hl. revert n. induction Hl as [|e l [He _] Hl IH]; intros n.
  - simpl. rewrite Nat.add_0_r. by destruct (chmod_masq_loop _ _ _ _ _) as [[[? ?] ?]| |].
  - cbn [app chmod_masq_loop]. rewrite He, IH. cbn [length].
    rewrite Nat.add_succ_r. destruct Ht as [-> | ->]; tag_tests;
      by destruct (chmod_masq_loop _ _ _ _ _) as [[[? ?] ?]| |].
Qed.

Lemma insert_middle {A} (l r : list A) x y n :
  n = length l → <[n := x]> (l ++ y :: r) = l ++ x :: r.
Proof. intros ->. replace (length l) with (length l + 0)%nat by lia. by rewrite insert_app_r. Qed.

(** the indices the loops keep: those of the group object and of the mask *)
Definition group_index (p : acl_parts) : nat := S (length (a_users p)).
Definition mask_index (p : acl_parts) : nat := S (S (length (a_users p) + length (a_groups p))).

Lemma acl_of_at_group p e :
  acl_of p !! group_index p = Some (a_group_obj p) ∧
  <[group_index p := e]> (acl_of p) =
    a_user_obj p :: a_users p ++ e :: a_groups p ++ option_list (a_mask p) ++ [a_other p].
Proof.
  unfold acl_of, group_index. simpl. split; [by apply list_lookup_middle|].
  f_equal. by apply insert_middle.
Qed.

Lemma acl_of_at_mask p m e :
  a_mask p = Some m →
  acl_of p !! mask_index p = Some m ∧
  <[mask_index p := e]> (acl_of p) =
    a_user_obj p :: a_users p ++ a_group_obj p :: a_groups p ++ [e; a_other p].
Proof.
  intros Hm. unfold acl_of, mask_index. rewrite Hm. simpl.
  rewrite (app_assoc (a_users p) (a_group_obj p :: a_groups p)) ||
    rewrite !app_comm_cons, (app_assoc (a_users p)).
  split.
  - apply list_lookup_middle. rewrite length_app. simpl. lia.
  - f_equal. rewrite insert_middle by (rewrite length_app; simpl; lia).
    by rewrite <- app_assoc.
Qed.

Lemma chmod_loop_parts p mode :
  parts_valid p →
  chmod_masq_loop (acl_of p) 0 mode None None =
  Ret (acl_of (MkParts (set_perm (Z.shiftr (Z.land mode S_IRWXU) 6) (a_user_obj p)) (a_users p)
         (a_group_obj p) (a_groups p) (a_mask p) (set_perm (Z.land mode S_IRWXO) (a_other p))),
       Some (group_index p), (λ _, mask_index p) <$> a_mask p).
Proof.
  intros [[Huo _] Hus _ [Hgo _] Hgs _ Hm [Ho _]]. unfold acl_of, group_index, mask_index.
  cbn [chmod_masq_loop a_user_obj a_users a_group_obj a_groups a_mask a_other].
  rewrite Huo. tag_tests. rewrite (chmod_named ACL_USER) by auto. cbn [chmod_masq_loop].
  rewrite Hgo. tag_tests. rewrite (chmod_named ACL_GROUP) by auto.
  destruct (a_mask p) as [m|].
  - change (option_list (Some m) ++ [a_other p]) with [m; a_other p].
    destruct Hm as [Hmt _]. cbn [chmod_masq_loop]. rewrite Hmt, Ho. tag_tests.
    done.
  - change (option_list None ++ [a_other p]) with [a_other p].
    cbn [chmod_masq_loop]. rewrite Ho. tag_tests. done.
Qed.

Lemma chmod_parts p mode :
  parts_valid p →
  posix_acl_chmod_masq (acl_of p) mode =
  Ret (acl_of (with_class p (Z.shiftr (Z.land mode S_IRWXU) 6)
    (Z.shiftr (Z.land mode S_IRWXG) 3) (Z.land mode S_IRWXO))).
Proof.
  intros Hp. unfold posix_acl_chmod_masq. rewrite chmod_loop_parts by done.
  cbn [mbind cres_bind]. set (p1 := MkParts _ _ _ _ _ _).
  destruct (a_mask p) as [m|] eqn:Em; cbn [fmap option_fmap option_map].
  - change (mask_index p) with (mask_index p1).
    destruct (acl_of_at_mask p1 m (set_perm (Z.shiftr (Z.land mode S_IRWXG) 3) m)) as [-> ->];
      [done|].
    unfold acl_of, with_class. simpl. by rewrite Em.
  - change (group_index p) with (group_index p1).
    destruct (acl_of_at_group p1 (set_perm (Z.shiftr (Z.land mode S_IRWXG) 3) (a_group_obj p1)))
      as [-> ->].
    unfold acl_of, with_class. simpl. by rewrite Em.
Qed.

(** chmod on a file with a valid ACL gives a valid ACL whose mode bits
    are the requested ones: the group bits go to the mask when there is one.
    Named entries and the owning group's entry under a mask are kept. *)
Theorem posix_acl_chmod_spec p mode m0 :
  parts_valid p →
  ∃ p', posix_acl_chmod true (acl_of p) mode = Ret (acl_of p') ∧ parts_valid p' ∧
    a_users p' = a_users p ∧ a_groups p' = a_groups p ∧
    posix_acl_equiv_mode (acl_of p') m0 =
      Ret (Z.lor (Z.land m0 (Z.lnot S_IRWXUGO)) (Z.land mode S_IRWXUGO),
           bool_decide (is_Some (a_mask p))).
Proof.
  intros Hp. eexists. split; [by apply chmod_parts|].
  assert (parts_valid (with_class p (Z.shiftr (Z.land mode S_IRWXU) 6)
    (Z.shiftr (Z.land mode S_IRWXG) 3) (Z.land mode S_IRWXO))) as Hv.
  { apply with_class_valid; [done|apply mode_class_u|apply mode_class_g|apply mode_class_o]. }
  split; [done|]. split; [done|]. split; [done|].
  rewrite equiv_mode_parts by done. rewrite with_class_mode. f_equal. f_equal.
  - f_equal. mode_bits; done.
  - simpl. by destruct (a_mask p).
Qed.

(** ** The ACL of a new file *)

Lemma create_named t l rest n mode g m ne :
  t = ACL_USER ∨ t = ACL_GROUP → Forall (has_tag t) l →
  create_masq_loop (l ++ rest) n mode g m ne =
  (r ← create_masq_loop rest (n + length l) mode g m (match l with [] => ne | _ => true end);
   let '(rest', mode, g, m, ne) := r in Ret (l ++ rest', mode, g, m, ne)).
Proof.
  intros Ht Hl. revert n ne. induction Hl as [|e l [He _] Hl IH]; intros n ne.
  - simpl. rewrite Nat.add_0_r.
    by destruct (create_masq_loop _ _ _ _ _ _) as [[[[[? ?] ?] ?] ?]| |].
  - cbn [app create_masq_loop]. rewrite He, IH. cbn [length]. rewrite Nat.add_succ_r.
    replace (match l with [] => true | _ => true end) with true by by destruct l.
    destruct Ht as [-> | ->]; tag_tests;
      by destruct (create_masq_loop _ _ _ _ _ _) as [[[[[? ?] ?] ?] ?]| |].
Qed.

(** the remaining boolean identity on the bits *)
Ltac bit_cases :=
  repeat match goal with |- context [Z.testbit ?a ?b] => destruct (Z.testbit a b) end; done.

Section create.
Context (p : acl_parts) (mode : Z) (Hp : parts_valid p).

(** the values the loop computes on the way *)
Definition cr_u : Z :=
  Z.land (e_perm (a_user_obj p)) (Z.lor (Z.shiftr mode 6) (Z.lnot S_IRWXO)).
Definition cr_mode1 : Z := Z.land mode (Z.lor (Z.shiftl cr_u 6) (Z.lnot S_IRWXU)).
Definition cr_o : Z := Z.land (e_perm (a_other p)) (Z.lor cr_mode1 (Z.lnot S_IRWXO)).
Definition cr_mode2 : Z := Z.land cr_mode1 (Z.lor cr_o (Z.lnot S_IRWXO)).
Definition cr_g : Z := Z.land (group_class p) (Z.lor (Z.shiftr cr_mode2 3) (Z.lnot S_IRWXO)).
Definition cr_mode3 : Z := Z.land cr_mode2 (Z.lor (Z.shiftl cr_g 3) (Z.lnot S_IRWXG)).

Lemma create_loop_parts :
  create_masq_loop (acl_of p) 0 mode None None false =
  Ret (acl_of (MkParts (set_perm cr_u (a_user_obj p)) (a_users p) (a_group_obj p)
         (a_groups p) (a_mask p) (set_perm cr_o (a_other p))),
       cr_mode2, Some (group_index p), (λ _, mask_index p) <$> a_mask p,
       bool_decide (is_Some (a_mask p))).
Proof using Hp.
  destruct Hp as [[Huo _] Hus _ [Hgo _] Hgs _ Hm [Ho _]].
  unfold acl_of, group_index, mask_index.
  cbn [create_masq_loop a_user_obj a_users a_group_obj a_groups a_mask a_other].
  rewrite Huo. tag_tests. rewrite (create_named ACL_USER) by auto. cbn [create_masq_loop].
  rewrite Hgo. tag_tests. rewrite (create_named ACL_GROUP) by auto.
  destruct (a_mask p) as [m|].
  - change (option_list (Some m) ++ [a_other p]) with [m; a_other p].
    destruct Hm as [Hmt _]. cbn [create_masq_loop]. rewrite Hmt, Ho. tag_tests. done.
  - change (option_list None ++ [a_other p]) with [a_other p].
    destruct Hm as [-> ->]. cbn [create_masq_loop]. rewrite Ho. tag_tests. done.
Qed.

Lemma create_parts :
  posix_acl_create_masq (acl_of p) mode =
  Ret (acl_of (with_class p cr_u cr_g cr_o),
       Z.lor (Z.land mode (Z.lnot S_IRWXUGO)) cr_mode3, bool_decide (is_Some (a_mask p))).
Proof using Hp.
  unfold posix_acl_create_masq. rewrite create_loop_parts. cbn [mbind cres_bind].
  set (p1 := MkParts _ _ _ _ _ _). unfold cr_mode3, cr_g, group_class.
  destruct (a_mask p) as [m|] eqn:Em; cbn [fmap option_fmap option_map].
  - change (mask_index p) with (mask_index p1).
    destruct (acl_of_at_mask p1 m (set_perm (Z.land (e_perm m)
      (Z.lor (Z.shiftr cr_mode2 3) (Z.lnot S_IRWXO))) m)) as [-> ->]; [done|].
    unfold acl_of, with_class. simpl. by rewrite Em.
  - change (group_index p) with (group_index p1).
    destruct (acl_of_at_group p1 (set_perm (Z.land (e_perm (a_group_obj p1))
      (Z.lor (Z.shiftr cr_mode2 3) (Z.lnot S_IRWXO))) (a_group_obj p1))) as [-> ->].
    unfold acl_of, with_class. simpl. by rewrite Em.
Qed.

Lemma group_class_ok : 0 ≤ group_class p < 8.
Proof using Hp.
  destruct Hp as [_ _ _ [_ Hg] _ _ Hm _]. unfold group_class.
  destruct (a_mask p); [apply Hm|done].
Qed.

(** in closed form *)
Lemma cr_u_eq : cr_u = Z.land (e_perm (a_user_obj p)) (Z.shiftr mode 6).
Proof using Hp.
  destruct Hp as [[_ Hu] _ _ _ _ _ _ _]. unfold perm_ok in Hu. unfold cr_u. mode_bits; bit_cases.
Qed.
Lemma cr_o_eq : cr_o = Z.land (e_perm (a_other p)) mode.
Proof using Hp.
  destruct Hp as [[_ Hu] _ _ _ _ _ _ [_ Ho]]. unfold perm_ok in *.
  unfold cr_o, cr_mode1. mode_bits; bit_cases.
Qed.
Lemma cr_g_eq : cr_g = Z.land (group_class p) (Z.shiftr mode 3).
Proof using Hp.
  pose proof group_class_ok. unfold cr_g, cr_mode2, cr_mode1. mode_bits; bit_cases.
Qed.
Lemma cr_mode_eq :
  Z.lor (Z.land mode (Z.lnot S_IRWXUGO)) cr_mode3 =
  Z.land mode (Z.lor (Z.lnot S_IRWXUGO) (parts_mode p)).
Proof using Hp.
  pose proof group_class_ok. destruct Hp as [[_ Hu] _ _ _ _ _ _ [_ Ho]]. unfold perm_ok in *.
  unfold cr_mode3, cr_mode2, cr_mode1. rewrite cr_g_eq, cr_o_eq, cr_u_eq. unfold parts_mode.
  mode_bits; bit_cases.
Qed.
End create.

(** creating a file in a directory with a valid default ACL gives the
    file a valid ACL and a mode that agree with each other: each class gets
    the permissions both the ACL and the requested mode grant, the mode keeps
    its other bits and nothing that was not requested is added. *)
Theorem posix_acl_create_spec p mode :
  parts_valid p →
  ∃ p' mode', posix_acl_create true (acl_of p) mode =
      Ret (acl_of p', mode', bool_decide (is_Some (a_mask p))) ∧
    parts_valid p' ∧ a_users p' = a_users p ∧ a_groups p' = a_groups p ∧
    mode' = Z.land mode (Z.lor (Z.lnot S_IRWXUGO) (parts_mode p)) ∧
    posix_acl_equiv_mode (acl_of p') mode' = Ret (mode', bool_decide (is_Some (a_mask p))).
Proof.
  intros Hp. eexists _, _. split; [by apply create_parts|].
  pose proof (group_class_ok p Hp) as Hg. pose proof Hp as [[_ Hu] _ _ _ _ _ _ [_ Ho]].
  rewrite cr_u_eq, cr_g_eq, cr_o_eq, cr_mode_eq by done.
  assert (parts_valid (with_class p (Z.land (e_perm (a_user_obj p)) (Z.shiftr mode 6))
    (Z.land (group_class p) (Z.shiftr mode 3)) (Z.land (e_perm (a_other p)) mode))) as Hv.
  { apply with_class_valid; [done|by apply (land_bound 3)..]. }
  split_and!; [done|done|done|done|]. rewrite equiv_mode_parts by done.
  rewrite with_class_mode. f_equal. f_equal; [|simpl; by destruct (a_mask p)].
  unfold parts_mode, perm_ok in *. mode_bits; bit_cases.
Qed.

(** ** The extended attribute *)

(** ids are stored for named entries only *)
Definition entry_canonical (e : posix_acl_entry) : Prop :=
  (e_tag e ∈ [ACL_USER_OBJ; ACL_GROUP_OBJ; ACL_MASK; ACL_OTHER] ∧ e_id e = ACL_UNDEFINED_ID)
  ∨ e_tag e ∈ [ACL_USER; ACL_GROUP].

(** reading the fields of the entry at [off] *)
Lemma read_entry pre e post off :
  off = zlength pre →
  let l := pre ++ entry_to_xattr e ++ post in
  array_read l off 2 = Ret (cpu_to_le16 (e_tag e)) ∧
  array_read l (off + 2) 2 = Ret (cpu_to_le16 (e_perm e)) ∧
  array_read l (off + 4) 4 = Ret (cpu_to_le32 (e_id e)).
Proof.
  intros -> l. unfold l, array_read, entry_to_xattr, slice, zlength.
  rewrite !length_app. simpl.
  rewrite !(proj2 (Z.leb_le _ _)) by lia. simpl.
  rewrite !Z2Nat.inj_add, !Nat2Z.id by lia. simpl Z.to_nat.
  split_and!; f_equal; rewrite ?drop_app_add', ?drop_app_length; done.
Qed.

Lemma xattr_length acl : zlength (concat (map entry_to_xattr acl)) = 8 * zlength acl.
Proof.
  unfold zlength. induction acl as [|e acl IH]; [done|].
  cbn [map concat]. rewrite length_app. cbn [length]. unfold entry_to_xattr at 1.
  simpl length in *. lia.
Qed.

Lemma tag_cases e :
  entry_canonical e →
  (e_tag e = ACL_USER_OBJ ∨ e_tag e = ACL_GROUP_OBJ ∨ e_tag e = ACL_MASK ∨
   e_tag e = ACL_OTHER) ∧ e_id e = ACL_UNDEFINED_ID ∨
  e_tag e = ACL_USER ∨ e_tag e = ACL_GROUP.
Proof. unfold entry_canonical. set_unfold. tauto. Qed.

Lemma canonical_tag e : entry_canonical e → is_u16 (e_tag e).
Proof. intros He%tag_cases. by destruct He as [[[-> | [-> | [-> | ->]]] _]|[-> | ->]]. Qed.

Lemma from_xattr_loop_spec pre acl :
  Forall entry_wf acl → Forall entry_canonical acl →
  acl_from_xattr_loop (length acl) (pre ++ concat (map entry_to_xattr acl)) (zlength pre) =
  Ret acl.
Proof.
  intros Hwf Hc. revert pre Hwf. induction Hc as [|e acl He Hc IH]; intros pre Hwf; [done|].
  apply Forall_cons in Hwf as [[Hp Hi] Hwf]. cbn [map concat length acl_from_xattr_loop].
  destruct (read_entry pre e (concat (map entry_to_xattr acl)) (zlength pre) eq_refl)
    as (-> & -> & ->). cbn [mbind cres_bind].
  assert (acl_from_xattr_loop (length acl)
    (pre ++ entry_to_xattr e ++ concat (map entry_to_xattr acl)) (zlength pre + 8) = Ret acl)
    as ->.
  { rewrite app_assoc. rewrite <- (IH (pre ++ entry_to_xattr e)) by done.
    f_equal. unfold zlength. rewrite length_app. simpl. lia. }
  rewrite !le16_roundtrip by first [done|by apply canonical_tag].
  rewrite le32_roundtrip by done. cbn [mbind cres_bind].
  destruct e as [tag perm id]. simpl in *.
  apply tag_cases in He. simpl in He.
  destruct He as [[[-> | [-> | [-> | ->]]] ->]|[-> | ->]]; reflexivity.
Qed.

(** an ACL written to its extended attribute and read back is the same
    ACL (the ids of entries that have none being the undefined id). *)
Theorem xattr_roundtrip acl size :
  Forall entry_wf acl → Forall entry_canonical acl → acl ≠ [] →
  posix_acl_xattr_size (zlength acl) ≤ size →
  ∃ value n, posix_acl_to_xattr acl (Some size) = Ret (value, n) ∧ n = zlength value ∧
    posix_acl_from_xattr true (Some value) = Ret (Some acl).
Proof.
  intros Hwf Hc Hne Hs. unfold posix_acl_to_xattr.
  rewrite Z.gtb_ltb, (proj2 (Z.ltb_ge _ _)) by done.
  eexists _, _. split; [reflexivity|].
  set (body := concat (map entry_to_xattr acl)).
  assert (zlength (cpu_to_le32 POSIX_ACL_XATTR_VERSION ++ body) = 4 + zlength acl * 8) as Hlen.
  { pose proof (xattr_length acl). fold body in H. unfold zlength in *.
    rewrite length_app. simpl length. lia. }
  assert (0 < zlength acl) by (unfold zlength; destruct acl; simpl; [done|lia]).
  split; [by rewrite Hlen|]. unfold posix_acl_from_xattr. rewrite Hlen.
  rewrite (proj2 (Z.ltb_ge _ _)) by lia.
  rewrite array_read_in by lia. simpl slice. cbn [mbind cres_bind].
  change (slice 0 4 _) with (cpu_to_le32 POSIX_ACL_XATTR_VERSION).
  rewrite le32_roundtrip by done. cbn [mbind cres_bind].
  rewrite Z.eqb_refl. cbn [negb]. unfold posix_acl_xattr_count.
  rewrite (proj2 (Z.ltb_ge (4 + _) 4)) by lia.
  replace (4 + zlength acl * 8 - 4) with (zlength acl * 8) by lia.
  rewrite Z.mod_mul, Z.div_mul by lia. cbn [truth Z.eqb negb].
  rewrite (proj2 (Z.ltb_ge _ _)), (proj2 (Z.eqb_neq _ _)) by lia.
  unfold zlength at 1. rewrite Nat2Z.id.
  by rewrite (from_xattr_loop_spec (cpu_to_le32 POSIX_ACL_XATTR_VERSION)).
Qed.

(** ** Instances *)

(** user::rw- user:1001:rwx group::r-- group:50:rw- mask::rw- other::--- *)
Definition example_parts : acl_parts :=
  MkParts (MkEntry ACL_USER_OBJ 6 ACL_UNDEFINED_ID) [MkEntry ACL_USER 7 1001]
    (MkEntry ACL_GROUP_OBJ 4 ACL_UNDEFINED_ID) [MkEntry ACL_GROUP 6 50]
    (Some (MkEntry ACL_MASK 6 ACL_UNDEFINED_ID)) (MkEntry ACL_OTHER 0 ACL_UNDEFINED_ID).

Lemma example_parts_valid : parts_valid example_parts.
Proof.
  by constructor; repeat constructor; unfold ACL_UNDEFINED_ID; simpl.
Qed.
Lemma example_entries_wf : Forall entry_wf (acl_of example_parts).
Proof. by repeat constructor. Qed.
Lemma example_groups_wf : groups_wf (cr_group_info (example_cred [4; 24; 50])).
Proof. split; [repeat constructor; lia|done]. Qed.

Lemma posix_acl_valid_witness : posix_acl_valid (acl_of example_parts) = Ret tt.
Proof.
  apply (posix_acl_valid_spec (acl_of example_parts) example_entries_wf).
  exists example_parts. split; [reflexivity|apply example_parts_valid].
Defined.

(** a member of group 50 may read and write, the owner of the file apart *)
Lemma posix_acl_permission_witness :
  posix_acl_permission (example_cred [4; 24; 50]) 0 0 (acl_of example_parts) 6 = Ret tt.
Proof.
  rewrite (posix_acl_permission_spec (example_cred [4; 24; 50]) 0 0 example_parts 6
    example_groups_wf example_parts_valid). vm_compute. reflexivity.
Defined.

Lemma acl_mode_roundtrip_witness :
  ∃ acl, posix_acl_from_mode true 420 = Ret acl ∧ posix_acl_valid acl = Ret tt.
Proof.
  eexists. split; [reflexivity|].
  exact (proj1 (acl_mode_roundtrip 420 0 _ eq_refl)).
Defined.

Lemma acl_mode_permission_witness :
  ∃ acl, posix_acl_from_mode true 416 = Ret acl ∧
    posix_acl_permission (example_cred [4; 24; 50]) 0 24 acl 4 = Ret tt ∧
    posix_acl_permission (example_cred [4; 24; 50]) 0 25 acl 4 = Err EACCES.
Proof.
  eexists. split; [reflexivity|]. split.
  - refine (eq_trans (acl_mode_permission (example_cred [4; 24; 50]) 0 24 416 _ 4
      example_groups_wf _ eq_refl) _); [lia|vm_compute; reflexivity].
  - refine (eq_trans (acl_mode_permission (example_cred [4; 24; 50]) 0 25 416 _ 4
      example_groups_wf _ eq_refl) _); [lia|vm_compute; reflexivity].
Defined.

Lemma posix_acl_chmod_witness :
  ∃ p', posix_acl_chmod true (acl_of example_parts) 448 = Ret (acl_of p').
Proof.
  destruct (posix_acl_chmod_spec example_parts 448 0 example_parts_valid) as (p' & H & _).
  by exists p'.
Defined.

Lemma posix_acl_create_witness :
  ∃ p' mode', posix_acl_create true (acl_of example_parts) 33188 =
    Ret (acl_of p', mode', true).
Proof.
  destruct (posix_acl_create_spec example_parts 33188 example_parts_valid)
    as (p' & mode' & H & _). by exists p', mode'.
Defined.

Lemma xattr_roundtrip_witness :
  ∃ value n, posix_acl_to_xattr (acl_of example_parts) (Some 64) = Ret (value, n) ∧
    posix_acl_from_xattr true (Some value) = Ret (Some (acl_of example_parts)).
Proof.
  destruct (xattr_roundtrip (acl_of example_parts) 64 example_entries_wf)
    as (value & n & H1 & _ & H2).
  - by repeat constructor; unfold entry_canonical; set_solver.
  - done.
  - vm_compute. discriminate.
  - by exists value, n.
Defined.
