(* ===== verification/Permission.v ===== *)
(** * File and IPC permissions

    The access checks of the virtual file system (fs/namei.c: [check_acl],
    [acl_permission_check], [generic_permission], [inode_permission],
    [check_sticky], [may_delete], [may_create]), the checks and updates of
    inode attributes (fs/attr.c, [simple_setattr] of fs/libfs.c,
    [inode_owner_or_capable] of fs/inode.c) and [ipcperms] of ipc/util.c.
    In this configuration there is no device cgroup, and the default security
    operations for inodes allow everything. *)

From stdpp Require Import sorting.
From S2P Require Import Prelude Cred Commoncap Groups Acl CredContract.

Definition ECHILD : Z := 10.
Definition ENOTDIR : Z := 20.
Definition EISDIR : Z := 21.
Definition ETXTBSY : Z := 26.
Definition EROFS : Z := 30.

Definition CAP_CHOWN : Z := 0.
Definition CAP_DAC_OVERRIDE : Z := 1.
Definition CAP_DAC_READ_SEARCH : Z := 2.
Definition CAP_FOWNER : Z := 3.
Definition CAP_FSETID : Z := 4.
Definition CAP_IPC_OWNER : Z := 15.

Definition S_IFMT : Z := 61440.
Definition S_IFLNK : Z := 40960.
Definition S_IFREG : Z := 32768.
Definition S_IFDIR : Z := 16384.
Definition S_ISVTX : Z := 512.
Definition S_IXUGO : Z := 73.
Definition S_ISLNK (m : Z) : bool := Z.land m S_IFMT =? S_IFLNK.
Definition S_ISREG (m : Z) : bool := Z.land m S_IFMT =? S_IFREG.
Definition S_ISDIR (m : Z) : bool := Z.land m S_IFMT =? S_IFDIR.

Definition S_APPEND : Z := 4.
Definition S_IMMUTABLE : Z := 8.
Definition S_DEAD : Z := 16.
Definition S_SWAPFILE : Z := 256.
Definition S_NOSEC : Z := 4096.
Definition MS_RDONLY : Z := 1.
Definition MS_POSIXACL : Z := 65536.

(** the cached access ACL of an inode *)
Inductive acl_cache := ACL_NOT_CACHED | ACL_CACHED (a : option posix_acl).

Record inode := MkInode {
  i_mode : Z; i_uid : Z; i_gid : Z; i_flags : Z;
  s_flags : Z;                                (* i_sb->s_flags *)
  i_size : Z; s_maxbytes : Z; s_time_gran : Z;
  i_atime : Z * Z; i_mtime : Z * Z; i_ctime : Z * Z;
  i_acl : acl_cache;
  (* i_op->get_acl: missing, or its answer *)
  i_get_acl : option (cres (option posix_acl))
}.

Definition IS_RDONLY (i : inode) : bool := truth (Z.land (s_flags i) MS_RDONLY).
Definition IS_POSIXACL (i : inode) : bool := truth (Z.land (s_flags i) MS_POSIXACL).
Definition IS_APPEND (i : inode) : bool := truth (Z.land (i_flags i) S_APPEND).
Definition IS_IMMUTABLE (i : inode) : bool := truth (Z.land (i_flags i) S_IMMUTABLE).
Definition IS_DEADDIR (i : inode) : bool := truth (Z.land (i_flags i) S_DEAD).
Definition IS_SWAPFILE (i : inode) : bool := truth (Z.land (i_flags i) S_SWAPFILE).

(** every inode belongs to the initial user namespace *)
Definition inode_userns (i : inode) : user_namespace := init_user_ns.

(** ** Access to an inode *)

(** the decision, [EAGAIN] when the inode has no ACL, and the cache entry
    after the call *)
Definition check_acl (c : cred) (i : inode) (mask : Z) : cres () * acl_cache :=
  if truth (Z.land mask MAY_NOT_BLOCK) then
    (match i_acl i with
     | ACL_CACHED None => Err EAGAIN
     | ACL_NOT_CACHED => Err ECHILD
     | ACL_CACHED (Some acl) =>
         posix_acl_permission c (i_uid i) (i_gid i) acl (Z.land mask (Z.lnot MAY_NOT_BLOCK))
     end, i_acl i)
  else
    match i_acl i with
    | ACL_NOT_CACHED =>
        match i_get_acl i with
        | Some (Ret (Some acl)) =>
            (posix_acl_permission c (i_uid i) (i_gid i) acl mask, ACL_NOT_CACHED)
        | Some (Ret None) => (Err EAGAIN, ACL_NOT_CACHED)
        | Some (Err e) => (Err e, ACL_NOT_CACHED)
        | Some UB => (UB, ACL_NOT_CACHED)
        | None => (Err EAGAIN, ACL_CACHED None)
        end
    | ACL_CACHED (Some acl) =>
        (posix_acl_permission c (i_uid i) (i_gid i) acl mask, i_acl i)
    | ACL_CACHED None => (Err EAGAIN, i_acl i)
    end.

Definition acl_permission_check (i : inode) (mask : Z) : sysM () :=
  c ← current_cred;
  let other_perms mode :=
    if Z.land (Z.land mask (Z.lnot mode)) (Z.lor (Z.lor MAY_READ MAY_WRITE) MAY_EXEC) =? 0
    then mret tt else fails EACCES in
  if negb (ns_eqb (user_ns (cr_user c)) (inode_userns i)) then other_perms (i_mode i)
  else if cr_fsuid c =? i_uid i then other_perms (Z.shiftr (i_mode i) 6)
  else
    let group_perms :=
      b ← lift (in_group_p c (i_gid i));
      other_perms (if b : bool then Z.shiftr (i_mode i) 3 else i_mode i) in
    if IS_POSIXACL i && truth (Z.land (i_mode i) S_IRWXG) then
      match (check_acl c i mask).1 with
      | Ret _ => mret tt
      | Err e => if e =? EAGAIN then group_perms else fails e
      | UB => bug
      end
    else group_perms.

(** what [generic_permission] does when the mode bits refuse *)
Definition dac_override (i : inode) (mask : Z) : sysM () :=
  if S_ISDIR (i_mode i) then
    b ← ns_capable (inode_userns i) CAP_DAC_OVERRIDE;
    if b : bool then mret tt else
    b ← (if negb (truth (Z.land mask MAY_WRITE))
         then ns_capable (inode_userns i) CAP_DAC_READ_SEARCH else mret false);
    if b : bool then mret tt else fails EACCES
  else
    b ← (if negb (truth (Z.land mask MAY_EXEC)) || truth (Z.land (i_mode i) S_IXUGO)
         then ns_capable (inode_userns i) CAP_DAC_OVERRIDE else mret false);
    if b : bool then mret tt else
    let mask := Z.land mask (Z.lor (Z.lor MAY_READ MAY_WRITE) MAY_EXEC) in
    b ← (if mask =? MAY_READ
         then ns_capable (inode_userns i) CAP_DAC_READ_SEARCH else mret false);
    if b : bool then mret tt else fails EACCES.

Definition generic_permission (i : inode) (mask : Z) : sysM () := λ s,
  match acl_permission_check i mask s with
  | (Err e, s) => if negb (e =? EACCES) then (Err e, s) else dac_override i mask s
  | r => r
  end.

(** [perm] is i_op->permission, when the inode has one *)
Definition do_inode_permission (perm : option (inode → Z → sysM ())) (i : inode) (mask : Z) :
    sysM () :=
  match perm with Some f => f i mask | None => generic_permission i mask end.

Definition inode_permission (perm : option (inode → Z → sysM ())) (i : inode) (mask : Z) :
    sysM () :=
  (if truth (Z.land mask MAY_WRITE) then
     guard_err (IS_RDONLY i && (S_ISREG (i_mode i) || S_ISDIR (i_mode i)
                                || S_ISLNK (i_mode i))) EROFS;;
     guard_err (IS_IMMUTABLE i) EACCES
   else mret tt);;
  do_inode_permission perm i mask.

(** ** Directory entries *)

(** true when the sticky bit forbids the removal *)
Definition check_sticky (dir i : inode) : sysM bool :=
  c ← current_cred;
  if negb (truth (Z.land (i_mode dir) S_ISVTX)) then mret false else
  if ns_eqb (user_ns (cr_user c)) (inode_userns i)
     && ((i_uid i =? cr_fsuid c) || (i_uid dir =? cr_fsuid c)) then mret false else
  b ← ns_capable (inode_userns i) CAP_FOWNER; mret (negb b).

(** the entry to remove: its inode, whether it is a root of a file system and
    whether it is a renamed NFS file *)
Record dentry := MkDentry {
  d_inode : option inode; d_is_root : bool; d_nfs_renamed : bool }.

Definition may_delete (perm : option (inode → Z → sysM ())) (dir : inode) (victim : dentry)
    (isdir : bool) : sysM () :=
  match d_inode victim with
  | None => fails ENOENT
  | Some i =>
      inode_permission perm dir (Z.lor MAY_WRITE MAY_EXEC);;
      guard_err (IS_APPEND dir) EPERM;;
      sticky ← check_sticky dir i;
      guard_err (sticky || IS_APPEND i || IS_IMMUTABLE i || IS_SWAPFILE i) EPERM;;
      (if isdir then
         guard_err (negb (S_ISDIR (i_mode i))) ENOTDIR;;
         guard_err (d_is_root victim) EBUSY
       else guard_err (S_ISDIR (i_mode i)) EISDIR);;
      guard_err (IS_DEADDIR dir) ENOENT;;
      guard_err (d_nfs_renamed victim) EBUSY
  end.

Definition may_create (perm : option (inode → Z → sysM ())) (dir : inode) (child : dentry) :
    sysM () :=
  match d_inode child with
  | Some _ => fails EEXIST
  | None => guard_err (IS_DEADDIR dir) ENOENT;;
            inode_permission perm dir (Z.lor MAY_WRITE MAY_EXEC)
  end.

(** ** Attributes of an inode *)

Definition ATTR_MODE : Z := 1.
Definition ATTR_UID : Z := 2.
Definition ATTR_GID : Z := 4.
Definition ATTR_SIZE : Z := 8.
Definition ATTR_ATIME : Z := 16.
Definition ATTR_MTIME : Z := 32.
Definition ATTR_CTIME : Z := 64.
Definition ATTR_ATIME_SET : Z := 128.
Definition ATTR_MTIME_SET : Z := 256.
Definition ATTR_FORCE : Z := 512.
Definition ATTR_KILL_SUID : Z := 2048.
Definition ATTR_KILL_SGID : Z := 4096.
Definition ATTR_KILL_PRIV : Z := 16384.
Definition ATTR_TIMES_SET : Z := 65536.

Record iattr := MkAttr {
  ia_valid : Z; ia_mode : Z; ia_uid : Z; ia_gid : Z; ia_size : Z;
  ia_atime : Z * Z; ia_mtime : Z * Z; ia_ctime : Z * Z
}.
Definition set_ia_mode (m : Z) (a : iattr) : iattr :=
  MkAttr (ia_valid a) m (ia_uid a) (ia_gid a) (ia_size a) (ia_atime a) (ia_mtime a) (ia_ctime a).
Definition set_ia_valid (v : Z) (a : iattr) : iattr :=
  MkAttr v (ia_mode a) (ia_uid a) (ia_gid a) (ia_size a) (ia_atime a) (ia_mtime a) (ia_ctime a).
Definition has_attr (valid flag : Z) : bool := truth (Z.land valid flag).

Definition inode_owner_or_capable (i : inode) : sysM bool :=
  c ← current_cred;
  if ns_eqb (user_ns (cr_user c)) (inode_userns i) && (cr_fsuid c =? i_uid i) then mret true
  else ns_capable (inode_userns i) CAP_FOWNER.

Definition RLIM_INFINITY : Z := 2 ^ 32 - 1.

(** [limit] is the RLIMIT_FSIZE of the caller, an unsigned long *)
Definition inode_newsize_ok (limit : Z) (i : inode) (offset : Z) : cres () :=
  if i_size i <? offset then
    if negb (limit =? RLIM_INFINITY) && (offset >? limit) then Err EFBIG
    else if offset >? s_maxbytes i then Err EFBIG
    else Ret tt
  else if IS_SWAPFILE i then Err ETXTBSY
  else Ret tt.

(** the attributes after the call: the set-group-id bit may be taken away *)
Definition inode_change_ok (limit : Z) (i : inode) (attr : iattr) : sysM iattr :=
  let v := ia_valid attr in
  (if has_attr v ATTR_SIZE then lift (inode_newsize_ok limit i (ia_size attr)) else mret tt);;
  if has_attr v ATTR_FORCE then mret attr else
  c ← current_cred;
  (if has_attr v ATTR_UID
      && (negb (cr_fsuid c =? i_uid i) || negb (ia_uid attr =? i_uid i))
   then b ← capable CAP_CHOWN; guard_err (negb b) EPERM else mret tt);;
  in_new_group ← (if has_attr v ATTR_GID then lift (in_group_p c (ia_gid attr)) else mret true);
  (if has_attr v ATTR_GID
      && (negb (cr_fsuid c =? i_uid i)
          || (negb in_new_group && negb (ia_gid attr =? i_gid i)))
   then b ← capable CAP_CHOWN; guard_err (negb b) EPERM else mret tt);;
  attr ← (if has_attr v ATTR_MODE then
            b ← inode_owner_or_capable i;
            guard_err (negb b) EPERM;;
            g ← lift (in_group_p c (if has_attr v ATTR_GID then ia_gid attr else i_gid i));
            if g : bool then mret attr else
            b ← capable CAP_FSETID;
            mret (if b : bool then attr
                  else set_ia_mode (Z.land (ia_mode attr) (Z.lnot S_ISGID)) attr)
          else mret attr);
  (if has_attr v (Z.lor (Z.lor ATTR_MTIME_SET ATTR_ATIME_SET) ATTR_TIMES_SET) then
     b ← inode_owner_or_capable i; guard_err (negb b) EPERM
   else mret tt);;
  mret attr.

(** HZ is 100: a jiffy is 10000 microseconds *)
Definition timespec_trunc (t : Z * Z) (gran : Z) : Z * Z :=
  if gran <=? 10000 * 1000 then t
  else if gran =? 1000000000 then (t.1, 0)
  else (t.1, t.2 - Z.rem t.2 gran).

Definition setattr_copy (i : inode) (attr : iattr) : sysM inode :=
  let v := ia_valid attr in
  let uid := if has_attr v ATTR_UID then ia_uid attr else i_uid i in
  let gid := if has_attr v ATTR_GID then ia_gid attr else i_gid i in
  let time flag new old :=
    if has_attr v flag then timespec_trunc new (s_time_gran i) else old in
  let copy mode :=
    MkInode mode uid gid (i_flags i) (s_flags i) (i_size i) (s_maxbytes i) (s_time_gran i)
      (time ATTR_ATIME (ia_atime attr) (i_atime i))
      (time ATTR_MTIME (ia_mtime attr) (i_mtime i))
      (time ATTR_CTIME (ia_ctime attr) (i_ctime i)) (i_acl i) (i_get_acl i) in
  if has_attr v ATTR_MODE then
    c ← current_cred;
    g ← lift (in_group_p c gid);
    b ← (if g : bool then mret true else capable CAP_FSETID);
    mret (copy (if b : bool then ia_mode attr else Z.land (ia_mode attr) (Z.lnot S_ISGID)))
  else mret (copy (i_mode i)).

Definition set_size (n : Z) (i : inode) : inode :=
  MkInode (i_mode i) (i_uid i) (i_gid i) (i_flags i) (s_flags i) n (s_maxbytes i)
    (s_time_gran i) (i_atime i) (i_mtime i) (i_ctime i) (i_acl i) (i_get_acl i).
Definition set_iflags (f : Z) (i : inode) : inode :=
  MkInode (i_mode i) (i_uid i) (i_gid i) f (s_flags i) (i_size i) (s_maxbytes i)
    (s_time_gran i) (i_atime i) (i_mtime i) (i_ctime i) (i_acl i) (i_get_acl i).

(** without the page cache, [truncate_setsize] sets the size *)
Definition simple_setattr (limit : Z) (i : inode) (attr : iattr) : sysM inode :=
  attr ← inode_change_ok limit i attr;
  let i := if has_attr (ia_valid attr) ATTR_SIZE then set_size (ia_size attr) i else i in
  setattr_copy i attr.

Definition is_sxid (mode : Z) : bool :=
  truth (Z.land mode S_ISUID)
  || (truth (Z.land mode S_ISGID) && truth (Z.land mode S_IXGRP)).

(** ATTR_KILL_SUID and ATTR_KILL_SGID as a change of mode: the attributes to
    set and the new mode, from the old mode [mode] and [ia_mode] *)
Definition kill_sxid (v mode ia_mode : Z) : Z * Z :=
  let '(v, m) :=
    if has_attr v ATTR_KILL_SUID && truth (Z.land mode S_ISUID)
    then (Z.lor v ATTR_MODE, Z.land mode (Z.lnot S_ISUID)) else (v, ia_mode) in
  if has_attr v ATTR_KILL_SGID
     && (Z.land mode (Z.lor S_ISGID S_IXGRP) =? Z.lor S_ISGID S_IXGRP)
  then (if has_attr v ATTR_MODE then (v, Z.land m (Z.lnot S_ISGID))
        else (Z.lor v ATTR_MODE, Z.land mode (Z.lnot S_ISGID)))
  else (v, m).

(** [now] is the current time; [need_killpriv] and [killpriv] are the answers
    of the security module when ATTR_KILL_PRIV is set, an error as [Err];
    [setattr] is the operation of the file system. *)
Definition notify_change (setattr : inode → iattr → sysM inode) (now : Z * Z)
    (need_killpriv : cres bool) (killpriv : cres ()) (i : inode) (attr : iattr) : sysM inode :=
  let v := ia_valid attr in
  let mode := i_mode i in
  guard_err (has_attr v (Z.lor (Z.lor ATTR_MODE ATTR_UID) (Z.lor ATTR_GID ATTR_TIMES_SET))
             && (IS_IMMUTABLE i || IS_APPEND i)) EPERM;;
  let i := if has_attr v ATTR_MODE && is_sxid (ia_mode attr)
           then set_iflags (Z.land (i_flags i) (Z.lnot S_NOSEC)) i else i in
  let attr := MkAttr v (ia_mode attr) (ia_uid attr) (ia_gid attr) (ia_size attr)
    (if has_attr v ATTR_ATIME_SET then ia_atime attr else now)
    (if has_attr v ATTR_MTIME_SET then ia_mtime attr else now) now in
  (if has_attr v ATTR_KILL_PRIV then
     need ← lift need_killpriv; if need : bool then lift killpriv else mret tt
   else mret tt);;
  let v := if has_attr v ATTR_KILL_PRIV then Z.land v (Z.lnot ATTR_KILL_PRIV) else v in
  (if has_attr v (Z.lor ATTR_KILL_SUID ATTR_KILL_SGID) && has_attr v ATTR_MODE
   then bug else mret tt);;
  let '(v, new_mode) := kill_sxid v mode (ia_mode attr) in
  let attr := set_ia_valid v (set_ia_mode new_mode attr) in
  if negb (truth (Z.land v (Z.lnot (Z.lor ATTR_KILL_SUID ATTR_KILL_SGID)))) then mret i
  else setattr i attr.

(** ** System V IPC objects *)

Record kern_ipc_perm := MkIpcPerm {
  ipc_uid : Z; ipc_gid : Z; ipc_cuid : Z; ipc_cgid : Z; ipc_mode : Z }.

(** [ns] is the user namespace of the IPC namespace; the failure is -1 *)
Definition ipcperms (ns : user_namespace) (ipcp : kern_ipc_perm) (flag : Z) : sysM () :=
  c ← current_cred;
  let requested_mode := Z.lor (Z.lor (Z.shiftr flag 6) (Z.shiftr flag 3)) flag in
  granted_mode ←
    (if (cr_euid c =? ipc_cuid ipcp) || (cr_euid c =? ipc_uid ipcp)
     then mret (Z.shiftr (ipc_mode ipcp) 6)
     else b ← lift (in_group_p c (ipc_cgid ipcp));
          b ← (if b : bool then mret true else lift (in_group_p c (ipc_gid ipcp)));
          mret (if b : bool then Z.shiftr (ipc_mode ipcp) 3 else ipc_mode ipcp));
  if truth (Z.land (Z.land requested_mode (Z.lnot granted_mode)) 7) then
    b ← ns_capable ns CAP_IPC_OWNER; guard_err (negb b) EPERM
  else mret tt.

(** ** Who may access a file *)

(** the capability over the initial namespace, where all inodes live *)
Definition init_capable (c : cred) (cap : Z) : bool := cap_capable c init_user_ns cap.
Definition in_init_ns (c : cred) : bool := ns_eqb (user_ns (cr_user c)) init_user_ns.

(** no ACL takes part in the decision *)
Definition no_acl (c : cred) (i : inode) : Prop :=
  IS_POSIXACL i && truth (Z.land (i_mode i) S_IRWXG) = false ∨
  ∀ mask, (check_acl c i mask).1 = Err EAGAIN.

(** the mode bits of the caller's class *)
Definition class_mode (c : cred) (i : inode) : Z :=
  if in_init_ns c then
    if cr_fsuid c =? i_uid i then Z.shiftr (i_mode i) 6
    else if in_group c (i_gid i) then Z.shiftr (i_mode i) 3 else i_mode i
  else i_mode i.
Definition class_grants (c : cred) (i : inode) (mask : Z) : bool :=
  Z.land (Z.land mask (Z.lnot (class_mode c i))) 7 =? 0.

(** what the capabilities add *)
Definition cap_grants (c : cred) (i : inode) (mask : Z) : bool :=
  if S_ISDIR (i_mode i) then
    init_capable c CAP_DAC_OVERRIDE
    || (negb (truth (Z.land mask MAY_WRITE)) && init_capable c CAP_DAC_READ_SEARCH)
  else
    ((negb (truth (Z.land mask MAY_EXEC)) || truth (Z.land (i_mode i) S_IXUGO))
     && init_capable c CAP_DAC_OVERRIDE)
    || ((Z.land mask 7 =? MAY_READ) && init_capable c CAP_DAC_READ_SEARCH).

Lemma wp_in_group c g Q E s :
  groups_wf (cr_group_info c) → Q (in_group c g) s → wp (lift (in_group_p c g)) Q E s.
Proof. intros Hg HQ. apply wp_lift. by rewrite in_group_p_ok. Qed.

Lemma acl_permission_check_mode i mask s :
  groups_wf (cr_group_info (t_cred s)) → no_acl (t_cred s) i →
  wp (acl_permission_check i mask) (λ _ s', s' = s ∧ class_grants (t_cred s) i mask = true)
    (λ e s', s' = s ∧ e = EACCES ∧ class_grants (t_cred s) i mask = false) s.
Proof.
  intros Hg Hna. unfold acl_permission_check, class_grants, class_mode, in_init_ns, inode_userns.
  do 2 wp_step. change (Z.lor (Z.lor MAY_READ MAY_WRITE) MAY_EXEC) with 7.
  set (c := t_cred s) in *. destruct (ns_eqb _ _); cbn [negb]; cbv zeta; [|wp_step; by wp_step].
  destruct (cr_fsuid c =? i_uid i); [wp_step; by wp_step|].
  destruct Hna as [-> | ->]; [|case_test; [rewrite Z.eqb_refl|]];
    (wp_step; apply wp_in_group; [done|]; wp_step; by wp_step).
Qed.

Lemma dac_override_ok i mask s :
  wp (dac_override i mask) (λ _ s', same_cred s s' ∧ cap_grants (t_cred s) i mask = true)
    (λ e s', same_cred s s' ∧ e = EACCES ∧ cap_grants (t_cred s) i mask = false) s.
Proof.
  unfold dac_override, cap_grants, init_capable, inode_userns.
  change (Z.lor (Z.lor MAY_READ MAY_WRITE) MAY_EXEC) with 7. cbv zeta.
  repeat first [wp_step | apply wp_ns_capable; [reflexivity|intros ? ?]];
    same_creds; (split; [done|]); bool_props; subst; try tauto.
  all: repeat match goal with H : ?b = _ |- context [?b] => rewrite H end; done.
Qed.

Lemma generic_permission_ok i mask s :
  groups_wf (cr_group_info (t_cred s)) → no_acl (t_cred s) i →
  let ok := class_grants (t_cred s) i mask || cap_grants (t_cred s) i mask in
  wp (generic_permission i mask) (λ _ s', same_cred s s' ∧ ok = true)
    (λ e s', same_cred s s' ∧ e = EACCES ∧ ok = false) s.
Proof.
  intros Hg Hna ok. pose proof (acl_permission_check_mode i mask s Hg Hna) as H.
  pose proof (dac_override_ok i mask s) as Hd. unfold wp, generic_permission, ok in *.
  destruct (acl_permission_check i mask s) as [[[]|e|] s1]; [|destruct H as (-> & -> & ->)|done].
  - destruct H as [-> ->]. done.
  - change (negb (EACCES =? EACCES)) with false. exact Hd.
Qed.

(** a read-only file system protects regular files, directories and symbolic
    links; devices, fifos and sockets on it can be written *)
Definition rofs_refused (i : inode) : bool :=
  IS_RDONLY i && (S_ISREG (i_mode i) || S_ISDIR (i_mode i) || S_ISLNK (i_mode i)).

(** writing is impossible whoever asks *)
Definition write_refused (i : inode) : bool := rofs_refused i || IS_IMMUTABLE i.

Lemma inode_permission_ok i mask s :
  groups_wf (cr_group_info (t_cred s)) → no_acl (t_cred s) i →
  let ok := negb (truth (Z.land mask MAY_WRITE) && write_refused i)
            && (class_grants (t_cred s) i mask || cap_grants (t_cred s) i mask) in
  wp (inode_permission None i mask) (λ _ s', same_cred s s' ∧ ok = true)
    (λ e s', same_cred s s' ∧ ok = false ∧
       e = if truth (Z.land mask MAY_WRITE) && rofs_refused i then EROFS else EACCES) s.
Proof.
  intros Hg Hna ok. unfold ok, inode_permission, write_refused, rofs_refused, do_inode_permission. wp_step.
  pose proof (generic_permission_ok i mask s Hg Hna) as H. cbv zeta in H.
  wp_step; cbn [andb negb].
  2: { wp_step. eapply wp_mono; [exact H|done|]. intros e s' (? & -> & ->). auto. }
  do 2 wp_step; rewrite H0; [done|].
  wp_step; rewrite H1; [done|].
  eapply wp_mono; [exact H|done|]. intros e s' (? & -> & ->). auto.
Qed.

(** C18: on a file without ACL, [inode_permission] grants exactly when the
    mode bits of the caller's class (owner, group or other; always other for
    a caller from another user namespace) include the request or a
    capability overrides them, and the request does not write to an immutable
    file, nor to a regular file, directory or symbolic link on a read-only
    file system (a device, fifo or socket there can be written). A refusal is
    EROFS in the last case and EACCES otherwise. *)
Theorem inode_permission_spec i mask s :
  groups_wf (cr_group_info (t_cred s)) → no_acl (t_cred s) i →
  let ok := negb (truth (Z.land mask MAY_WRITE) && write_refused i)
            && (class_grants (t_cred s) i mask || cap_grants (t_cred s) i mask) in
  wp (inode_permission None i mask) (λ _ s', same_cred s s' ∧ ok = true)
    (λ e s', same_cred s s' ∧ ok = false ∧
       e = if truth (Z.land mask MAY_WRITE) && rofs_refused i then EROFS else EACCES) s.
Proof. apply inode_permission_ok. Qed.

Lemma no_exec_class c i mask :
  Z.land (i_mode i) S_IXUGO = 0 → truth (Z.land mask MAY_EXEC) = true →
  class_grants c i mask = false.
Proof.
  intros Hx He. apply Z.eqb_neq. intros H. apply (f_equal (λ x, Z.testbit x 0)) in H.
  change MAY_EXEC with (Z.shiftl 1 0) in He. rewrite truth_land_shiftl in He by lia.
  assert (∀ j, j ∈ [0; 3; 6] → Z.testbit (i_mode i) j = false) as Hj.
  { intros j Hj. apply (f_equal (λ x, Z.testbit x j)) in Hx.
    rewrite Z.land_spec, Z.bits_0 in Hx.
    rewrite !elem_of_cons, elem_of_nil in Hj. unfold S_IXUGO in Hx.
    destruct Hj as [-> | [-> | [-> | []]]]; simpl in Hx; by rewrite andb_true_r in Hx. }
  rewrite !Z.land_spec, Z.lnot_spec, He, Z.bits_0 in H by lia. change (Z.testbit 7 0) with true in H.
  rewrite andb_true_r in H. cbn [andb] in H. apply negb_false_iff in H.
  unfold class_mode in H. repeat case_test; rewrite ?Z.shiftr_spec in H by lia;
    rewrite Hj in H by (rewrite !elem_of_cons; lia); done.
Qed.

(** nobody, not even a process with every capability, may execute a
    regular file none of whose execute bits is set. *)
Theorem no_exec_without_x i mask s :
  groups_wf (cr_group_info (t_cred s)) → no_acl (t_cred s) i →
  S_ISDIR (i_mode i) = false → Z.land (i_mode i) S_IXUGO = 0 →
  truth (Z.land mask MAY_EXEC) = true →
  wp (inode_permission None i mask) (λ _ _, False) (λ _ s', same_cred s s') s.
Proof.
  intros Hg Hna Hd Hx He. eapply wp_mono; [by apply inode_permission_ok| |by intros ? ? []].
  intros _ s' [_ H]. rewrite no_exec_class in H by done.
  unfold cap_grants in H. rewrite Hd, He, Hx in H. cbn [negb orb andb truth Z.eqb] in H.
  bool_props. destruct H as [_ [H _]].
  apply (f_equal (λ x, Z.testbit x 0)) in H. rewrite Z.land_spec in H.
  change MAY_EXEC with (Z.shiftl 1 0) in He. rewrite truth_land_shiftl in He by lia.
  by rewrite He in H.
Qed.

(** ** Who may change an inode *)

Definition owner_or_capable (c : cred) (i : inode) : bool :=
  (in_init_ns c && (cr_fsuid c =? i_uid i)) || init_capable c CAP_FOWNER.

Lemma wp_owner_or_capable i Q E s :
  (∀ s', same_cred s s' → Q (owner_or_capable (t_cred s) i) s') →
  wp (inode_owner_or_capable i) Q E s.
Proof.
  intros HQ. unfold inode_owner_or_capable. do 2 wp_step.
  unfold owner_or_capable, in_init_ns, inode_userns in *.
  wp_step; [wp_step; by apply HQ|]. by apply wp_ns_capable.
Qed.

(** what a request that is not forced may ask for *)
Record change_allowed (c : cred) (i : inode) (attr attr' : iattr) : Prop := {
  ca_uid : has_attr (ia_valid attr) ATTR_UID = true → init_capable c CAP_CHOWN = true ∨
    (cr_fsuid c = i_uid i ∧ ia_uid attr = i_uid i);
  ca_gid : has_attr (ia_valid attr) ATTR_GID = true → init_capable c CAP_CHOWN = true ∨
    (cr_fsuid c = i_uid i ∧ (in_group c (ia_gid attr) = true ∨ ia_gid attr = i_gid i));
  ca_mode : has_attr (ia_valid attr) ATTR_MODE = true → owner_or_capable c i = true;
  ca_sgid : has_attr (ia_valid attr) ATTR_MODE = true →
    truth (Z.land (ia_mode attr') S_ISGID) = true → init_capable c CAP_FSETID = true ∨
    in_group c (if has_attr (ia_valid attr) ATTR_GID then ia_gid attr else i_gid i) = true;
  ca_same : attr' = attr ∨ attr' = set_ia_mode (Z.land (ia_mode attr) (Z.lnot S_ISGID)) attr
}.

Lemma no_sgid m : truth (Z.land (Z.land m (Z.lnot S_ISGID)) S_ISGID) = false.
Proof.
  unfold truth. rewrite <- Z.land_assoc, (Z.land_comm (Z.lnot _)), Z.land_lnot_diag.
  by rewrite Z.land_0_r.
Qed.

Lemma inode_change_ok_ok limit i attr s :
  groups_wf (cr_group_info (t_cred s)) → has_attr (ia_valid attr) ATTR_FORCE = false →
  wp (inode_change_ok limit i attr)
    (λ attr' s', same_cred s s' ∧ change_allowed (t_cred s) i attr attr')
    (λ e s', same_cred s s' ∧ (e = EPERM ∨ e = EFBIG ∨ e = ETXTBSY)) s.
Proof.
  intros Hg Hf. unfold inode_change_ok. cbv zeta. wp_step.
  eapply wp_mono with (Q := λ _ s', s' = s)
    (E := λ e s', same_cred s s' ∧ (e = EPERM ∨ e = EFBIG ∨ e = ETXTBSY)); [| |done].
  { wp_step; [|by wp_step]. apply wp_lift. unfold inode_newsize_ok. repeat case_test;
    first [reflexivity|split; [reflexivity|auto]]. }
  intros _ ? ->. rewrite Hf. do 3 wp_step.
  eapply wp_mono with (Q := λ _ s', same_cred s s' ∧
      (has_attr (ia_valid attr) ATTR_UID = true → init_capable (t_cred s) CAP_CHOWN = true ∨
       (cr_fsuid (t_cred s) = i_uid i ∧ ia_uid attr = i_uid i)))
    (E := λ e s', same_cred s s' ∧ e = EPERM); [| |by intros ? ? [? ->]; auto].
  { unfold init_capable. repeat wp_step; same_creds; bool_props; (split; [done|]); intros;
      try done; intuition congruence. }
  intros _ s1 [Hs1 Huid]. wp_step.
  eapply wp_mono with (Q := λ b s', s' = s1 ∧
      (has_attr (ia_valid attr) ATTR_GID = true → b = in_group (t_cred s) (ia_gid attr)))
    (E := λ _ _, False); [| |done].
  { wp_step; [by apply wp_in_group|by wp_step]. }
  intros b ? [-> Hb]. wp_step.
  eapply wp_mono with (Q := λ _ s', same_cred s s' ∧
      (has_attr (ia_valid attr) ATTR_GID = true → init_capable (t_cred s) CAP_CHOWN = true ∨
       (cr_fsuid (t_cred s) = i_uid i ∧
        (in_group (t_cred s) (ia_gid attr) = true ∨ ia_gid attr = i_gid i))))
    (E := λ e s', same_cred s s' ∧ e = EPERM); [| |by intros ? ? [? ->]; auto].
  { unfold init_capable. repeat wp_step; same_creds; bool_props; (split; [done|]); intros;
      try done; try rewrite <- Hb by done; intuition congruence. }
  intros _ s2 [Hs2 Hgid]. wp_step. clear Hb b.
  eapply wp_mono with (Q := λ attr' s', same_cred s s' ∧
      change_allowed (t_cred s) i attr attr')
    (E := λ e s', same_cred s s' ∧ e = EPERM); [| |by intros ? ? [? ->]; auto].
  { wp_step; [|wp_step; split; [done|]; constructor; auto; congruence].
    wp_step. apply wp_owner_or_capable. intros s3 Hs3. do 2 wp_step; [by same_creds|].
    wp_step. apply wp_in_group; [done|]. wp_step.
    - wp_step. split; [by same_creds|]. same_creds. bool_props. constructor; auto.
    - wp_step. wp_step. wp_step. split; [by same_creds|]. same_creds. bool_props.
      unfold init_capable in *.
      destruct (cap_capable (t_cred s) init_user_ns CAP_FSETID) eqn:Ef; constructor; auto.
      simpl. by rewrite no_sgid. }
  intros attr' s3 [Hs3 Hal]. wp_step.
  wp_step; [|wp_step; by wp_step]. wp_step. apply wp_owner_or_capable. intros s4 Hs4.
  wp_step; [split; [by same_creds|by left]|]. wp_step. split; [by same_creds|done].
Qed.

Definition sgid_dropped (attr attr' : iattr) : Prop :=
  attr' = attr ∨ attr' = set_ia_mode (Z.land (ia_mode attr) (Z.lnot S_ISGID)) attr.

Lemma inode_change_ok_attr limit i attr s :
  groups_wf (cr_group_info (t_cred s)) →
  wp (inode_change_ok limit i attr)
    (λ attr' s', same_cred s s' ∧ sgid_dropped attr attr' ∧
       (has_attr (ia_valid attr) ATTR_FORCE = false → change_allowed (t_cred s) i attr attr'))
    (λ e s', same_cred s s') s.
Proof.
  intros Hg. destruct (has_attr (ia_valid attr) ATTR_FORCE) eqn:Hf.
  - unfold inode_change_ok. cbv zeta. rewrite Hf. wp_step.
    wp_step; [apply wp_lift; unfold inode_newsize_ok; repeat case_test; try done|];
      wp_step; (split; [done|]); by split; [left|].
  - eapply wp_mono; [by apply inode_change_ok_ok| |by intros ? ? []].
    intros attr' s' [? Hal]. split; [done|]. split; [apply Hal|done].
Qed.

(** the mode a file ends with *)
Lemma wp_setattr_copy i attr s Q E :
  groups_wf (cr_group_info (t_cred s)) →
  (∀ i' s', same_cred s s' →
    i_uid i' = (if has_attr (ia_valid attr) ATTR_UID then ia_uid attr else i_uid i) →
    i_gid i' = (if has_attr (ia_valid attr) ATTR_GID then ia_gid attr else i_gid i) →
    (i_mode i' = (if has_attr (ia_valid attr) ATTR_MODE then ia_mode attr else i_mode i) ∨
     has_attr (ia_valid attr) ATTR_MODE = true ∧
     i_mode i' = Z.land (ia_mode attr) (Z.lnot S_ISGID)) → Q i' s') →
  wp (setattr_copy i attr) Q E s.
Proof.
  intros Hg HQ. unfold setattr_copy. cbv zeta.
  wp_step; [|wp_step; by apply HQ; [..|left]]. do 3 wp_step. apply wp_in_group; [done|].
  do 2 wp_step.
  - do 2 wp_step. by apply HQ; [..|left].
  - wp_step. wp_step. apply HQ; [done..|]. cbn [i_mode].
    destruct (cap_capable _ _ _); [by left|by right].
Qed.

(** without CAP_CHOWN a process cannot give a file away: a change of
    attributes that succeeds keeps the owner, keeps the group or sets one the
    caller belongs to, and changes the mode only of a file the caller owns
    or over which it has CAP_FOWNER. *)
Theorem setattr_no_giveaway limit i attr s :
  groups_wf (cr_group_info (t_cred s)) → has_attr (ia_valid attr) ATTR_FORCE = false →
  init_capable (t_cred s) CAP_CHOWN = false →
  wp (simple_setattr limit i attr)
    (λ i' s', same_cred s s' ∧ i_uid i' = i_uid i ∧
       (i_gid i' = i_gid i ∨ in_group (t_cred s) (i_gid i') = true) ∧
       (i_mode i' = i_mode i ∨ owner_or_capable (t_cred s) i = true))
    (λ e s', same_cred s s') s.
Proof.
  intros Hg Hf Hc. unfold simple_setattr. wp_step.
  eapply wp_mono; [by apply inode_change_ok_attr|cbn beta|done].
  intros attr' s1 (Hs1 & Hsame & Hal). destruct (Hal Hf) as [Hu Hgi Hm _ _].
  assert (ia_valid attr' = ia_valid attr ∧ ia_uid attr' = ia_uid attr ∧
    ia_gid attr' = ia_gid attr) as (Ev & Eu & Eg) by by destruct Hsame as [-> | ->].
  apply wp_setattr_copy; [by rewrite Hs1|]. intros i' s2 Hs2 H1 H2 H3. rewrite Ev, ?Eu, ?Eg in *.
  set (i1 := if has_attr (ia_valid attr) ATTR_SIZE then _ else _) in *.
  assert (i_uid i1 = i_uid i ∧ i_gid i1 = i_gid i ∧ i_mode i1 = i_mode i) as (E1 & E2 & E3)
    by by unfold i1; case_test.
  rewrite E1, E2, E3, H1, H2 in *. split; [by same_creds|].
  split; [case_test; [|done]; by destruct Hu as [?|[]]; [done|congruence|]|].
  split.
  - case_test; [|by left]. destruct Hgi as [?|[_ [|]]]; [done|congruence|by right|by left].
  - destruct (has_attr _ ATTR_MODE); [right; by apply Hm|].
    destruct H3 as [|[]]; [by left|done].
Qed.

(** in a directory with the sticky bit, a process without CAP_FOWNER can
    remove only what it owns, unless it owns the directory; and nobody can
    remove an append-only or immutable file, or anything from an append-only
    directory. Removal needs write and search permission on the directory. *)
Theorem may_delete_sticky dir victim i isdir s :
  let c := t_cred s in
  d_inode victim = Some i → groups_wf (cr_group_info c) → no_acl c dir →
  wp (may_delete None dir victim isdir)
    (λ _ s', same_cred s s' ∧
       class_grants c dir (Z.lor MAY_WRITE MAY_EXEC)
       || cap_grants c dir (Z.lor MAY_WRITE MAY_EXEC) = true ∧
       (truth (Z.land (i_mode dir) S_ISVTX) = true →
        init_capable c CAP_FOWNER = true ∨ i_uid i = cr_fsuid c ∨ i_uid dir = cr_fsuid c) ∧
       IS_APPEND dir = false ∧ IS_APPEND i = false ∧ IS_IMMUTABLE i = false)
    (λ _ s', same_cred s s') s.
Proof.
  intros c Hi Hg Hna. unfold may_delete. rewrite Hi. wp_step.
  eapply wp_mono; [by apply inode_permission_ok|cbn beta|by intros ? ? []].
  intros _ s1 [Hs1 [_ Hok]%andb_prop]. fold c in Hok.
  do 2 wp_step; [done|]. wp_step.
  eapply wp_mono with (Q := λ b s', same_cred s s' ∧ (b = false →
      truth (Z.land (i_mode dir) S_ISVTX) = true →
      init_capable c CAP_FOWNER = true ∨ i_uid i = cr_fsuid c ∨ i_uid dir = cr_fsuid c))
    (E := λ _ s', same_cred s s'); [| |done].
  { unfold check_sticky, inode_userns. do 2 wp_step. rewrite Hs1. fold c.
    wp_step; [wp_step; bool_props; split; [done|congruence]|].
    wp_step; [wp_step; bool_props; split; [done|]; tauto|].
    wp_step. apply wp_ns_capable; [done|]. intros s2 Hs2. wp_step. rewrite Hs1.
    split; [by same_creds|]. unfold init_capable. fold c. bool_props. tauto. }
  intros b s2 [Hs2 Hb]. do 2 wp_step; [done|].
  apply orb_false_iff in H0 as [[[-> H1]%orb_false_iff H2]%orb_false_iff _].
  wp_step. eapply wp_mono with (Q := λ _ s', s' = s2) (E := λ _ s', s' = s2);
    [destruct isdir; repeat wp_step; done| |by intros ? ? ->].
  intros _ ? ->. repeat wp_step; try done. by split_and!; auto.
Qed.

(** a flag of [ia_valid] is a bit *)
Lemma has_attr_bit v k : 0 ≤ k → has_attr v (Z.shiftl 1 k) = Z.testbit v k.
Proof. apply truth_land_shiftl. Qed.

Lemma is_sxid_bits m :
  is_sxid m = Z.testbit m 11 || (Z.testbit m 10 && Z.testbit m 3).
Proof.
  unfold is_sxid. change S_ISUID with (Z.shiftl 1 11). change S_ISGID with (Z.shiftl 1 10).
  change S_IXGRP with (Z.shiftl 1 3). by rewrite !truth_land_shiftl.
Qed.

Lemma sgid_exec_bits m :
  (Z.land m (Z.lor S_ISGID S_IXGRP) =? Z.lor S_ISGID S_IXGRP) =
  Z.testbit m 10 && Z.testbit m 3.
Proof.
  apply eq_true_iff_eq. rewrite Z.eqb_eq, andb_true_iff. split.
  - intros H. split; [apply (f_equal (λ x, Z.testbit x 10)) in H
      |apply (f_equal (λ x, Z.testbit x 3)) in H]; rewrite Z.land_spec in H;
      vm_compute (Z.testbit (Z.lor _ _) _) in H; by rewrite andb_true_r in H.
  - intros [H1 H2]. apply Z.bits_inj'. intros i Hi. rewrite Z.land_spec.
    change (Z.lor S_ISGID S_IXGRP) with (Z.lor (2 ^ 10) (2 ^ 3)).
    rewrite Z.lor_spec, !Z.pow2_bits_eqb by lia.
    destruct (Z.eqb_spec 10 i) as [<-|]; [by rewrite H1|].
    destruct (Z.eqb_spec 3 i) as [<-|]; [by rewrite H2|]. by rewrite andb_false_r.
Qed.

Lemma kill_sxid_spec v mode m0 v' m' :
  has_attr v ATTR_MODE = false → has_attr v ATTR_KILL_SUID = true →
  has_attr v ATTR_KILL_SGID = true → kill_sxid v mode m0 = (v', m') →
  (has_attr v' ATTR_MODE = true ∧ is_sxid m' = false) ∨
  (has_attr v' ATTR_MODE = false ∧ is_sxid mode = false).
Proof.
  unfold kill_sxid. rewrite sgid_exec_bits.
  change ATTR_MODE with (Z.shiftl 1 0). change ATTR_KILL_SUID with (Z.shiftl 1 11).
  change ATTR_KILL_SGID with (Z.shiftl 1 12). change S_ISUID with (Z.shiftl 1 11).
  change S_ISGID with (Z.shiftl 1 10).
  rewrite !has_attr_bit, !truth_land_shiftl, !is_sxid_bits by lia. intros Hm Hu Hg.
  rewrite Hu. cbn [andb]. destruct (Z.testbit mode 11) eqn:E11.
  - cbv beta iota. rewrite !has_attr_bit by lia. rewrite !Z.lor_spec, Hg. cbn [orb andb].
    replace (Z.testbit v 0 || Z.testbit (Z.shiftl 1 0) 0) with true by by rewrite orb_true_r.
    destruct (Z.testbit mode 10) eqn:E10, (Z.testbit mode 3) eqn:E3; cbn [andb];
      intros [= <- <-]; left; rewrite Z.lor_spec, !Z.land_spec, !Z.lnot_spec by lia;
      (split; [by rewrite orb_true_r|]); rewrite ?E11, ?E10, ?E3; done.
  - cbv beta iota. rewrite ?has_attr_bit, Hg, Hm by lia. cbn [andb].
    destruct (Z.testbit mode 10 && Z.testbit mode 3) eqn:E; intros [= <- <-].
    + left. rewrite Z.lor_spec, !Z.land_spec, !Z.lnot_spec, E11 by lia.
      split; [by rewrite orb_true_r|]. by rewrite andb_false_r.
    + by right.
Qed.

Lemma is_sxid_sgid m : is_sxid m = false → is_sxid (Z.land m (Z.lnot S_ISGID)) = false.
Proof.
  rewrite !is_sxid_bits, !Z.land_spec. intros [-> _]%orb_false_elim.
  change (Z.testbit (Z.lnot S_ISGID) 10) with false. by rewrite andb_false_r.
Qed.

(** after a change of attributes, the mode asked for or the old one, maybe
    without its set-group-id bit *)
Lemma simple_setattr_mode limit i attr s Q E :
  groups_wf (cr_group_info (t_cred s)) →
  (∀ i' s' m, m = (if has_attr (ia_valid attr) ATTR_MODE then ia_mode attr else i_mode i) →
    i_mode i' = m ∨ i_mode i' = Z.land m (Z.lnot S_ISGID) → Q i' s') →
  (∀ e s', E e s') → wp (simple_setattr limit i attr) Q E s.
Proof.
  intros Hg HQ HE. unfold simple_setattr. wp_step.
  eapply wp_mono; [by apply inode_change_ok_attr|cbn beta|by intros].
  intros attr' s1 (Hs1 & Hsame & _). apply wp_setattr_copy; [by rewrite Hs1|].
  intros i' s2 _ _ _ Hm. eapply HQ; [reflexivity|].
  assert (i_mode (if has_attr (ia_valid attr') ATTR_SIZE then set_size (ia_size attr') i else i)
    = i_mode i) as Hi by by case_test.
  rewrite Hi in Hm. destruct Hsame as [-> | ->]; simpl in *.
  - destruct Hm as [-> | [-> ->]]; auto.
  - destruct Hm as [-> | [-> ->]]; [case_test; auto|].
    rewrite <- Z.land_assoc, Z.land_diag. auto.
Qed.

Lemma mode_not_killed v :
  has_attr v ATTR_MODE = true →
  truth (Z.land v (Z.lnot (Z.lor ATTR_KILL_SUID ATTR_KILL_SGID))) = true.
Proof.
  change ATTR_MODE with (Z.shiftl 1 0). rewrite has_attr_bit by lia. intros H.
  apply truth_true. intros H0. apply (f_equal (λ x, Z.testbit x 0)) in H0.
  by rewrite Z.land_spec, H in H0.
Qed.

(** a change that kills the set-id bits (as writing to a file or changing
    its owner does) leaves a file without the set-user-id bit, and without
    the set-group-id bit if the group could execute it, unless it fails. *)
Theorem notify_change_kills_sxid limit now need kill i attr s :
  groups_wf (cr_group_info (t_cred s)) →
  has_attr (ia_valid attr) ATTR_MODE = false →
  has_attr (ia_valid attr) ATTR_KILL_SUID = true →
  has_attr (ia_valid attr) ATTR_KILL_SGID = true → need ≠ UB → kill ≠ UB →
  wp (notify_change (simple_setattr limit) now need kill i attr)
    (λ i' s', is_sxid (i_mode i') = false) (λ _ _, True) s.
Proof.
  intros Hg Hm Hku Hkg Hn Hk. unfold notify_change. cbv zeta. rewrite Hm. cbn [andb].
  do 2 wp_step; [done|]. wp_step.
  eapply wp_mono with (Q := λ _ s', s' = s) (E := λ _ _, True); [| |done].
  { wp_step; [|by wp_step]. wp_step. apply wp_lift. destruct need as [b| |]; [|done|done].
    wp_step; [|by wp_step]. apply wp_lift. by destruct kill as [[]| |]. }
  intros _ ? ->. set (v := if has_attr (ia_valid attr) ATTR_KILL_PRIV
    then Z.land (ia_valid attr) (Z.lnot ATTR_KILL_PRIV) else ia_valid attr).
  assert (∀ k, 0 ≤ k → k ≠ 14 → has_attr v (Z.shiftl 1 k) = has_attr (ia_valid attr) (Z.shiftl 1 k))
    as Hv.
  { intros k Hk1 Hk2. unfold v. case_test; [|done]. rewrite !has_attr_bit by lia.
    rewrite Z.land_spec, Z.lnot_spec by lia. change ATTR_KILL_PRIV with (2 ^ 14).
    rewrite Z.pow2_bits_false by lia. by rewrite andb_true_r. }
  pose proof (Hv 0 ltac:(lia) ltac:(lia)) as Hv0. pose proof (Hv 11 ltac:(lia) ltac:(lia)) as Hv11.
  pose proof (Hv 12 ltac:(lia) ltac:(lia)) as Hv12.
  change (Z.shiftl 1 0) with ATTR_MODE in Hv0. change (Z.shiftl 1 11) with ATTR_KILL_SUID in Hv11.
  change (Z.shiftl 1 12) with ATTR_KILL_SGID in Hv12. rewrite Hv0, Hm, andb_false_r.
  do 2 wp_step. simpl ia_mode. destruct (kill_sxid v (i_mode i) (ia_mode attr)) as [v' m'] eqn:Ek.
  apply kill_sxid_spec in Ek as [[H1 H2]|[H1 H2]]; try congruence; cbv beta iota; wp_step.
  - by rewrite mode_not_killed in E.
  - apply simple_setattr_mode; [done| |done]. simpl. rewrite H1. intros i' s' m -> [-> | ->];
      [done|by apply is_sxid_sgid].
  - by wp_step.
  - apply simple_setattr_mode; [done| |done]. simpl. rewrite H1. intros i' s' m -> [-> | ->];
      [done|by apply is_sxid_sgid].
Qed.

(** ** Who may use an IPC object *)

(** the class bits that apply: owner or creator, group of either, or others *)
Definition ipc_class (c : cred) (p : kern_ipc_perm) : Z :=
  if (cr_euid c =? ipc_cuid p) || (cr_euid c =? ipc_uid p) then Z.shiftr (ipc_mode p) 6
  else if in_group c (ipc_cgid p) || in_group c (ipc_gid p) then Z.shiftr (ipc_mode p) 3
  else ipc_mode p.
Definition ipc_request (flag : Z) : Z :=
  Z.lor (Z.lor (Z.shiftr flag 6) (Z.shiftr flag 3)) flag.

Lemma wp_ipcperms ns p flag s :
  let c := t_cred s in
  groups_wf (cr_group_info c) →
  let ok := negb (truth (Z.land (Z.land (ipc_request flag) (Z.lnot (ipc_class c p))) 7))
            || cap_capable c ns CAP_IPC_OWNER in
  wp (ipcperms ns p flag) (λ _ s', same_cred s s' ∧ ok = true)
    (λ e s', same_cred s s' ∧ ok = false) s.
Proof.
  intros c Hg ok. unfold ok, ipcperms, ipc_class. do 3 wp_step. fold c.
  eapply wp_mono with (Q := λ m s', s' = s ∧ m = ipc_class c p) (E := λ _ _, False); [| |done].
  { unfold ipc_class. wp_step; [by wp_step|]. wp_step. apply wp_in_group; [done|].
    wp_step. wp_step.
    - wp_step. by wp_step.
    - apply wp_in_group; [done|]. by wp_step. }
  intros m ? [-> ->]. fold (ipc_class c p). fold (ipc_request flag).
  wp_step; [|by wp_step].
  wp_step. apply wp_ns_capable; [done|]. intros s' Hs. fold c.
  wp_step; by split; [|destruct (cap_capable c ns CAP_IPC_OWNER)].
Qed.

(** access to an IPC object is granted exactly when every requested bit,
    whatever class it was written for, is granted to the caller's class, or
    the caller has CAP_IPC_OWNER over the namespace. *)
Theorem ipcperms_spec ns p flag s :
  let c := t_cred s in
  groups_wf (cr_group_info c) →
  let ok := negb (truth (Z.land (Z.land (ipc_request flag) (Z.lnot (ipc_class c p))) 7))
            || cap_capable c ns CAP_IPC_OWNER in
  wp (ipcperms ns p flag) (λ _ s', same_cred s s' ∧ ok = true)
    (λ e s', same_cred s s' ∧ ok = false) s.
Proof. apply wp_ipcperms. Qed.

(** ** Instances *)

Definition example_inode (mode uid gid flags : Z) : inode :=
  MkInode mode uid gid flags 0 0 (2 ^ 31 - 1) 1 (0, 0) (0, 0) (0, 0) (ACL_CACHED None) None.
Definition example_state : sys :=
  MkSys (example_cred [4; 24; 50]) 0 (Some 1) 0 (λ _, 1) 0 1024.

Lemma example_state_groups : groups_wf (cr_group_info (t_cred example_state)).
Proof. split; [repeat constructor; lia|done]. Qed.
Lemma example_no_acl mode uid gid flags : no_acl (t_cred example_state) (example_inode mode uid gid flags).
Proof. by left. Qed.

(** group 24 may read the file 0640 0:24 *)
Lemma inode_permission_witness :
  wp (inode_permission None (example_inode 33184 0 24 0) MAY_READ)
    (λ _ s', same_cred example_state s') (λ _ _, False) example_state.
Proof.
  refine (wp_mono _ _ _ _ _ _ (inode_permission_spec (example_inode 33184 0 24 0) MAY_READ
    example_state example_state_groups (example_no_acl _ _ _ _)) _ _).
  - by intros _ s' [].
  - intros e s' (_ & H & _). vm_compute in H. discriminate.
Defined.

Lemma no_exec_without_x_witness :
  wp (inode_permission None (example_inode 33188 0 0 0) MAY_EXEC)
    (λ _ _, False) (λ _ s', same_cred example_state s') example_state.
Proof.
  exact (no_exec_without_x (example_inode 33188 0 0 0) MAY_EXEC example_state
    example_state_groups (example_no_acl _ _ _ _) eq_refl eq_refl eq_refl).
Defined.

(** the owner may chgrp to group 24 *)
Definition chgrp_attr : iattr := MkAttr ATTR_GID 0 0 24 0 (0, 0) (0, 0) (0, 0).
Lemma setattr_no_giveaway_witness :
  wp (simple_setattr RLIM_INFINITY (example_inode 33188 1000 1000 0) chgrp_attr)
    (λ i' _, i_uid i' = 1000) (λ e s', same_cred example_state s') example_state.
Proof.
  refine (wp_mono _ _ _ _ _ _ (setattr_no_giveaway RLIM_INFINITY
    (example_inode 33188 1000 1000 0) chgrp_attr example_state example_state_groups
    eq_refl eq_refl) _ (λ _ _ H, H)).
  by intros i' s' (_ & H & _).
Defined.

(** /tmp is 1777: somebody else's file there cannot be removed *)
Lemma may_delete_sticky_witness :
  wp (may_delete None (example_inode 17407 0 0 0)
        (MkDentry (Some (example_inode 33188 1001 100 0)) false false) false)
    (λ _ _, False) (λ _ s', same_cred example_state s') example_state.
Proof.
  refine (wp_mono _ _ _ _ _ _ (may_delete_sticky (example_inode 17407 0 0 0)
    (MkDentry (Some (example_inode 33188 1001 100 0)) false false)
    (example_inode 33188 1001 100 0) false example_state eq_refl example_state_groups
    (example_no_acl _ _ _ _)) _ (λ _ _ H, H)).
  intros _ s' (_ & _ & H & _). destruct (H eq_refl) as [H1|[H1|H1]]; discriminate.
Defined.

Definition write_attr : iattr :=
  MkAttr (Z.lor (Z.lor ATTR_KILL_SUID ATTR_KILL_SGID) ATTR_FORCE) 0 0 0 0 (0, 0) (0, 0) (0, 0).
Lemma notify_change_witness :
  wp (notify_change (simple_setattr RLIM_INFINITY) (1, 0) (Ret false) (Ret tt)
        (example_inode 36333 0 0 0) write_attr)
    (λ i' s', is_sxid (i_mode i') = false) (λ _ _, True) example_state.
Proof.
  exact (notify_change_kills_sxid RLIM_INFINITY (1, 0) (Ret false) (Ret tt)
    (example_inode 36333 0 0 0) write_attr example_state example_state_groups
    eq_refl eq_refl eq_refl ltac:(discriminate) ltac:(discriminate)).
Defined.

Lemma ipcperms_witness :
  wp (ipcperms init_user_ns (MkIpcPerm 0 24 0 24 432) 384)
    (λ _ s', same_cred example_state s') (λ _ _, False) example_state.
Proof.
  refine (wp_mono _ _ _ _ _ _ (ipcperms_spec init_user_ns (MkIpcPerm 0 24 0 24 432) 384
    example_state example_state_groups) _ _).
  - by intros _ s' [].
  - intros e s' [_ H]. vm_compute in H. discriminate.
Defined.
