(* ===== verification/Locks.v ===== *)
(** * File locks: fs/locks.c

    The list of locks of an inode with its POSIX (byte range) locks and its
    flock (whole file) locks, the processes blocked on them, deadlock
    detection, and the conversion between the system call's [struct flock] and
    the kernel's [struct file_lock].

    A [struct file_lock] is identified by its address [fl_id]. The code keeps
    pointers ([request], [left], [right]) into the list and writes through
    them; the model keeps the identity of the lock and writes with [upd]. Lock
    managers ([fl_lmops], the NFS server) and the file systems' own [->lock]
    methods are not modelled: owners are compared by [fl_owner]. *)

From S2P Require Import Prelude.

Definition EDEADLK : Z := 35.
Definition ENOLCK : Z := 37.
Definition EOVERFLOW : Z := 75.

Definition FL_POSIX : Z := 1.
Definition FL_FLOCK : Z := 2.
Definition FL_ACCESS : Z := 8.
Definition FL_EXISTS : Z := 16.
Definition FL_LEASE : Z := 32.
Definition FL_CLOSE : Z := 64.
Definition FL_SLEEP : Z := 128.

Definition F_RDLCK : Z := 0.
Definition F_WRLCK : Z := 1.
Definition F_UNLCK : Z := 2.
Definition LOCK_SH : Z := 1.
Definition LOCK_EX : Z := 2.
Definition LOCK_NB : Z := 4.
Definition LOCK_UN : Z := 8.
Definition LOCK_MAND : Z := 32.
Definition LOCK_READ : Z := 64.
Definition LOCK_WRITE : Z := 128.
Definition LOCK_RW : Z := 192.

Definition OFFSET_MAX : Z := 2 ^ 63 - 1.
Definition OFFT_OFFSET_MAX : Z := 2 ^ 31 - 1.
Definition FILE_LOCK_DEFERRED : Z := 1.

Record file_lock := MkLock {
  fl_id : Z;                     (* the address of the structure *)
  fl_owner : Z; fl_pid : Z; fl_file : Z;
  fl_flags : Z; fl_type : Z; fl_start : Z; fl_end : Z;
  fl_break_time : Z; fl_downgrade_time : Z
}.

Definition set_start (v : Z) (f : file_lock) : file_lock :=
  MkLock (fl_id f) (fl_owner f) (fl_pid f) (fl_file f) (fl_flags f) (fl_type f)
    v (fl_end f) (fl_break_time f) (fl_downgrade_time f).
Definition set_end (v : Z) (f : file_lock) : file_lock :=
  MkLock (fl_id f) (fl_owner f) (fl_pid f) (fl_file f) (fl_flags f) (fl_type f)
    (fl_start f) v (fl_break_time f) (fl_downgrade_time f).
Definition set_type (v : Z) (f : file_lock) : file_lock :=
  MkLock (fl_id f) (fl_owner f) (fl_pid f) (fl_file f) (fl_flags f) v
    (fl_start f) (fl_end f) (fl_break_time f) (fl_downgrade_time f).
Definition set_flags (v : Z) (f : file_lock) : file_lock :=
  MkLock (fl_id f) (fl_owner f) (fl_pid f) (fl_file f) v (fl_type f)
    (fl_start f) (fl_end f) (fl_break_time f) (fl_downgrade_time f).

Definition has_flag (f : file_lock) (b : Z) : bool := truth (Z.land (fl_flags f) b).
Definition IS_POSIX (f : file_lock) : bool := has_flag f FL_POSIX.
Definition IS_FLOCK (f : file_lock) : bool := has_flag f FL_FLOCK.
Definition IS_LEASE (f : file_lock) : bool := has_flag f FL_LEASE.

(** a fresh structure (at address [id]) filled from another *)
Definition locks_copy_lock (id : Z) (f : file_lock) : file_lock :=
  MkLock id (fl_owner f) (fl_pid f) (fl_file f) (fl_flags f) (fl_type f)
    (fl_start f) (fl_end f) 0 0.

(** ** The locks of an inode and the blocked requests

    [waiting] holds every blocked request of the system, the latest first,
    with the lock it is blocked on ([fl_next] of the request); only identity
    and owner of that lock matter. [woken] records the wake-ups in order. *)
Record waiter := MkWaiter { w_lock : file_lock; w_next : file_lock }.
Record flocks := MkFlocks {
  i_flock : list file_lock; waiting : list waiter; woken : list Z }.

Definition with_list (l : list file_lock) (s : flocks) : flocks :=
  MkFlocks l (waiting s) (woken s).

Definition locks_overlap (fl1 fl2 : file_lock) : bool :=
  (fl_end fl1 >=? fl_start fl2) && (fl_end fl2 >=? fl_start fl1).
Definition posix_same_owner (fl1 fl2 : file_lock) : bool := fl_owner fl1 =? fl_owner fl2.

Definition __locks_delete_block (w : file_lock) (s : flocks) : flocks :=
  MkFlocks (i_flock s)
    (List.filter (λ x, negb (fl_id (w_lock x) =? fl_id w)) (waiting s)) (woken s).

Definition locks_insert_block (blocker w : file_lock) (s : flocks) : cres flocks :=
  if existsb (λ x, fl_id (w_lock x) =? fl_id w) (waiting s) then UB
  else Ret (MkFlocks (i_flock s) (MkWaiter w blocker :: waiting s) (woken s)).

(** wakes the requests blocked on a lock, in the order they blocked *)
Definition locks_wake_up_blocks (blocker : Z) (s : flocks) : flocks :=
  let on x := fl_id (w_next x) =? blocker in
  MkFlocks (i_flock s) (List.filter (λ x, negb (on x)) (waiting s))
    (woken s ++ rev (map (λ x, fl_id (w_lock x)) (List.filter on (waiting s)))).

Definition upd (id : Z) (f : file_lock → file_lock) (l : list file_lock) : list file_lock :=
  map (λ x, if fl_id x =? id then f x else x) l.

(** ** Conflicts *)

Definition locks_conflict (caller_fl sys_fl : file_lock) : bool :=
  (fl_type sys_fl =? F_WRLCK) || (fl_type caller_fl =? F_WRLCK).

Definition posix_locks_conflict (caller_fl sys_fl : file_lock) : bool :=
  if negb (IS_POSIX sys_fl) || posix_same_owner caller_fl sys_fl then false
  else if negb (locks_overlap caller_fl sys_fl) then false
  else locks_conflict caller_fl sys_fl.

Definition flock_locks_conflict (caller_fl sys_fl : file_lock) : bool :=
  if negb (IS_FLOCK sys_fl) || (fl_file caller_fl =? fl_file sys_fl) then false
  else if truth (Z.land (fl_type caller_fl) LOCK_MAND)
          || truth (Z.land (fl_type sys_fl) LOCK_MAND) then false
  else locks_conflict caller_fl sys_fl.

(** the first lock of the list that conflicts with a request *)
Definition posix_conflict (fl : file_lock) (l : list file_lock) : option file_lock :=
  List.find (λ cfl, IS_POSIX cfl && posix_locks_conflict fl cfl) l.

(** what the caller's lock structure holds afterwards; [vnr] is the pid of
    the lock's holder as the caller sees it *)
Definition posix_test_lock (vnr : file_lock → Z) (fl : file_lock) (s : flocks) : file_lock :=
  match posix_conflict fl (i_flock s) with
  | Some cfl =>
      MkLock (fl_id fl) (fl_owner cfl) (vnr cfl) 0 (fl_flags cfl) (fl_type cfl)
        (fl_start cfl) (fl_end cfl) (fl_break_time fl) (fl_downgrade_time fl)
  | None => set_type F_UNLCK fl
  end.

(** ** Deadlock detection *)

Definition MAX_DEADLK_ITERATIONS : Z := 10.

(** [blocked_list] holds the requests blocked on a POSIX lock *)
Definition what_owner_is_waiting_for (block_fl : file_lock) (s : flocks) : option file_lock :=
  w_next <$> List.find (λ x, IS_POSIX (w_next x) && posix_same_owner (w_lock x) block_fl)
               (waiting s).

(** [n] iterations left; the loop gives up after eleven *)
Fixpoint deadlock_loop (n : nat) (caller_fl block_fl : file_lock) (s : flocks) : bool :=
  match what_owner_is_waiting_for block_fl s with
  | None => false
  | Some block_fl =>
      match n with
      | O => false
      | S n => if posix_same_owner caller_fl block_fl then true
               else deadlock_loop n caller_fl block_fl s
      end
  end.
Definition posix_locks_deadlock (caller_fl block_fl : file_lock) (s : flocks) : bool :=
  deadlock_loop (Z.to_nat (MAX_DEADLK_ITERATIONS + 1)) caller_fl block_fl s.

(** ** POSIX locks *)

(** what the walk over the owner's locks leaves: the list before and from the
    current position, the request (the caller's structure or the lock of the
    list it was merged into), and the locks to trim *)
Record walk := MkWalk {
  k_done : list file_lock; k_rest : list file_lock; k_request : file_lock;
  k_added : bool; k_left : option Z; k_right : option Z; k_state : flocks }.

(** both locks get the union of the two ranges where it grows *)
Definition merge_locks (request fl : file_lock) : file_lock * file_lock :=
  let '(request, fl) :=
    if fl_start fl >? fl_start request then (request, set_start (fl_start request) fl)
    else (set_start (fl_start fl) request, fl) in
  if fl_end fl <? fl_end request then (request, set_end (fl_end request) fl)
  else (set_end (fl_end fl) request, fl).

Fixpoint own_walk (done rest : list file_lock) (request : file_lock) (added : bool)
    (lft : option Z) (s : flocks) : walk :=
  match rest with
  | [] => MkWalk done [] request added lft None s
  | fl :: rest' =>
      let next := own_walk (done ++ [fl]) rest' request in
      let stop rgt := MkWalk done rest request added lft rgt s in
      if negb (posix_same_owner request fl) then stop None
      else if fl_type request =? fl_type fl then
        if fl_end fl <? fl_start request - 1 then next added lft s
        else if fl_start fl - 1 >? fl_end request then stop None
        else
          let '(request', fl') := merge_locks request fl in
          let done' := upd (fl_id request) (λ _, request') done in
          if added then
            own_walk done' rest' request' true lft (locks_wake_up_blocks (fl_id fl) s)
          else own_walk (done' ++ [fl']) rest' fl' true lft s
      else
        if fl_end fl <? fl_start request then next added lft s
        else if fl_start fl >? fl_end request then stop None
        else
          let added := if fl_type request =? F_UNLCK then true else added in
          let lft := if fl_start fl <? fl_start request then Some (fl_id fl) else lft in
          if fl_end fl >? fl_end request then
            MkWalk done rest request added lft (Some (fl_id fl)) s
          else if fl_start fl >=? fl_start request then
            if added then
              own_walk done rest' request true lft (locks_wake_up_blocks (fl_id fl) s)
            else
              let fl' := set_type (fl_type request)
                (set_end (fl_end request) (set_start (fl_start request) fl)) in
              own_walk (done ++ [fl']) rest' fl' true lft
                (locks_wake_up_blocks (fl_id fl) s)
          else next added lft s
  end.

(** skips the locks of others *)
Fixpoint skip_others (done rest : list file_lock) (request : file_lock) :
    list file_lock * list file_lock :=
  match rest with
  | fl :: rest' =>
      if negb (IS_POSIX fl) || negb (posix_same_owner request fl)
      then skip_others (done ++ [fl]) rest' request else (done, rest)
  | [] => (done, [])
  end.

Definition opt_eqb (a b : option Z) : bool := bool_decide (a = b).

(** trims the neighbours to the final range of the request *)
Definition trim_right (request : file_lock) (id : Z) (s : flocks) : flocks :=
  locks_wake_up_blocks id
    (with_list (upd id (set_start (fl_end request + 1)) (i_flock s)) s).
Definition trim_left (request : file_lock) (id : Z) (s : flocks) : flocks :=
  locks_wake_up_blocks id
    (with_list (upd id (set_end (fl_start request - 1)) (i_flock s)) s).

(** the part of [__posix_lock_file] after the walk *)
Definition posix_finish (new_fl new_fl2 : option Z) (k : walk) : cres Z * flocks :=
  let '(MkWalk done rest request added lft rgt s) := k in
  let out e := (e, with_list (done ++ rest) s) in
  if bool_decide (rgt ≠ None ∧ lft = rgt ∧ new_fl2 = None) then out (Err ENOLCK) else
  if negb added && (fl_type request =? F_UNLCK) then
    out (if has_flag request FL_EXISTS then Err ENOENT else Ret 0) else
  match (if added then Some [] else (λ id, [locks_copy_lock id request]) <$> new_fl) with
  | None => out (Err ENOLCK)
  | Some new =>
      (* when both are the same lock, a new lock becomes its left part *)
      let '(lft, split) :=
        match new_fl2, List.find (λ x, opt_eqb (Some (fl_id x)) rgt) rest with
        | Some id2, Some fl => if opt_eqb lft rgt then (Some id2, [locks_copy_lock id2 fl])
                               else (lft, [])
        | _, _ => (lft, [])
        end in
      let s := with_list (done ++ split ++ new ++ rest) s in
      let s := match rgt with Some id => trim_right request id s | None => s end in
      let s := match lft with Some id => trim_left request id s | None => s end in
      (Ret 0, s)
  end.

(** [new_fl] and [new_fl2] are what [locks_alloc_lock] gives when asked; the
    return value [FILE_LOCK_DEFERRED] is positive *)
Definition __posix_lock_file (new_fl new_fl2 : option Z) (request : file_lock) (s : flocks) :
    cres Z * flocks :=
  match (if negb (fl_type request =? F_UNLCK) then posix_conflict request (i_flock s)
         else None) with
  | Some fl =>
      if negb (has_flag request FL_SLEEP) then (Err EAGAIN, s)
      else if posix_locks_deadlock request fl s then (Err EDEADLK, s)
      else match locks_insert_block fl request s with
           | Ret s' => (Ret FILE_LOCK_DEFERRED, s')
           | Err e => (Err e, s)
           | UB => (UB, s)
           end
  | None =>
      if has_flag request FL_ACCESS then (Ret 0, s) else
      let need := negb (fl_type request =? F_UNLCK) || negb (fl_start request =? 0)
                  || negb (fl_end request =? OFFSET_MAX) in
      let new_fl := if need then new_fl else None in
      let new_fl2 := if need then new_fl2 else None in
      let '(done, rest) := skip_others [] (i_flock s) request in
      posix_finish new_fl new_fl2 (own_walk done rest request false None s)
  end.

(** ** Whole file locks *)

(** leases and flock locks come before the POSIX locks *)
Fixpoint flock_part (l : list file_lock) : list file_lock * list file_lock :=
  match l with
  | [] => ([], [])
  | fl :: l' => if IS_POSIX fl then ([], l)
                else let '(a, b) := flock_part l' in (fl :: a, b)
  end.

Definition is_flock_of (filp : Z) (fl : file_lock) : bool :=
  negb (IS_LEASE fl) && (fl_file fl =? filp).

Definition locks_delete_lock (id : Z) (s : flocks) : flocks :=
  locks_wake_up_blocks id
    (with_list (List.filter (λ x, negb (fl_id x =? id)) (i_flock s)) s).

(** from [find_conflict] on *)
Definition flock_find_conflict (new_fl : Z) (request : file_lock) (s : flocks) :
    cres Z * flocks :=
  let '(fl_part, posix_part) := flock_part (i_flock s) in
  match List.find (λ fl, negb (IS_LEASE fl) && flock_locks_conflict request fl) fl_part with
  | Some fl =>
      if negb (has_flag request FL_SLEEP) then (Err EAGAIN, s)
      else match locks_insert_block fl request s with
           | Ret s' => (Ret FILE_LOCK_DEFERRED, s')
           | Err e => (Err e, s)
           | UB => (UB, s)
           end
  | None =>
      if has_flag request FL_ACCESS then (Ret 0, s)
      else (Ret 0, with_list (fl_part ++ locks_copy_lock new_fl request :: posix_part) s)
  end.

(** [resched] is what other processes do while the list is unlocked *)
Definition flock_lock_file (resched : flocks → flocks) (new_fl : option Z) (filp : Z)
    (request : file_lock) (s : flocks) : cres Z * flocks :=
  if has_flag request FL_ACCESS then flock_find_conflict 0 request s else
  let unlock := fl_type request =? F_UNLCK in
  match (if unlock then Some 0 else new_fl) with
  | None => (Err ENOMEM, s)
  | Some new =>
      match List.find (is_flock_of filp) (flock_part (i_flock s)).1 with
      | Some fl =>
          if fl_type request =? fl_type fl then (Ret 0, s) else
          let s := locks_delete_lock (fl_id fl) s in
          if unlock then (Ret 0, s) else flock_find_conflict new request (resched s)
      | None =>
          if unlock then ((if has_flag request FL_EXISTS then Err ENOENT else Ret 0), s)
          else flock_find_conflict new request s
      end
  end.

Definition flock_translate_cmd (cmd : Z) : cres Z :=
  if truth (Z.land cmd LOCK_MAND) then Ret (Z.land cmd (Z.lor LOCK_MAND LOCK_RW))
  else if cmd =? LOCK_SH then Ret F_RDLCK
  else if cmd =? LOCK_EX then Ret F_WRLCK
  else if cmd =? LOCK_UN then Ret F_UNLCK
  else Err EINVAL.

(** [fl] is the new structure's address *)
Definition flock_make_lock (filp tgid : Z) (fl : option Z) (cmd : Z) : cres file_lock :=
  type ← flock_translate_cmd cmd;
  match fl with
  | None => Err ENOMEM
  | Some id => Ret (MkLock id 0 tgid filp FL_FLOCK (u8 type) 0 OFFSET_MAX 0 0)
  end.

(** ** Waiting for a lock

    The environment of a sleeping process: it runs (and may wake the process
    up), or a signal arrives. [None] as a result: still asleep. *)
Inductive sleep_event := Runs (env : flocks → flocks) | Signal.

Definition ERESTARTSYS : Z := 512.

Definition is_waiting (fl : file_lock) (s : flocks) : bool :=
  existsb (λ x, fl_id (w_lock x) =? fl_id fl) (waiting s).

Section Wait.
Context (lock : file_lock → flocks → cres Z * flocks).

Fixpoint lock_sleep (events : list sleep_event) (fl : file_lock) (s : flocks) :
    option (cres Z) * flocks :=
  match events with
  | [] => (None, s)
  | Signal :: _ => (Some (Err ERESTARTSYS), __locks_delete_block fl s)
  | Runs env :: events =>
      let s := env s in
      if is_waiting fl s then lock_sleep events fl s
      else let '(e, s) := lock fl s in
           match e with
           | Ret 1 => lock_sleep events fl s
           | e => (Some e, s)
           end
  end.

Definition lock_wait (events : list sleep_event) (fl : file_lock) (s : flocks) :
    option (cres Z) * flocks :=
  let '(e, s) := lock fl s in
  match e with
  | Ret 1 => lock_sleep events fl s
  | e => (Some e, s)
  end.
End Wait.

(** [alloc] is the allocator: the two structures it gives in a state *)
Definition posix_lock_file (alloc : flocks → option Z * option Z) (fl : file_lock)
    (s : flocks) : cres Z * flocks :=
  __posix_lock_file (alloc s).1 (alloc s).2 fl s.
Definition posix_lock_file_wait alloc := lock_wait (posix_lock_file alloc).
Definition do_lock_file_wait alloc := lock_wait (posix_lock_file alloc).
Definition flock_lock_file_wait (resched : flocks → flocks)
    (alloc : flocks → option Z * option Z) (filp : Z) :=
  lock_wait (λ fl s, flock_lock_file resched (alloc s).1 filp fl s).

(** ** System calls *)

(** the open file: its position, inode size and mode *)
Record file := MkFile {
  f_addr : Z; f_pos : Z; i_size : Z; f_read : bool; f_write : bool }.

Definition sys_flock (resched : flocks → flocks) (alloc : flocks → option Z * option Z)
    (fl : option Z) (tgid : Z) (events : list sleep_event) (filp : option file) (cmd : Z)
    (s : flocks) : option (cres Z) * flocks :=
  match filp with
  | None => (Some (Err EBADF), s)
  | Some filp =>
      let can_sleep := negb (truth (Z.land cmd LOCK_NB)) in
      let cmd := Z.land cmd (Z.lnot LOCK_NB) in
      if negb (cmd =? LOCK_UN) && negb (truth (Z.land cmd LOCK_MAND))
         && negb (f_read filp || f_write filp) then (Some (Err EBADF), s) else
      match flock_make_lock (f_addr filp) tgid fl cmd with
      | Ret lock =>
          let lock := if can_sleep then set_flags (Z.lor (fl_flags lock) FL_SLEEP) lock
                      else lock in
          flock_lock_file_wait resched alloc (f_addr filp) events lock s
      | Err e => (Some (Err e), s)
      | UB => (Some UB, s)
      end
  end.

(** [struct flock] and [struct flock64] of the caller *)
Record user_flock := MkFlock { l_type : Z; l_whence : Z; l_start : Z; l_len : Z; l_pid : Z }.

Definition SEEK_SET : Z := 0.
Definition SEEK_CUR : Z := 1.
Definition SEEK_END : Z := 2.

Definition assign_type (type : Z) : cres Z :=
  if (type =? F_RDLCK) || (type =? F_WRLCK) || (type =? F_UNLCK) then Ret type else Err EINVAL.

(** The common part of [flock_to_posix_lock] and [flock64_to_posix_lock];
    [off] is the conversion to [off_t] (32 bits) or [loff_t] (64 bits), in
    which the sums are computed. *)
Definition to_posix_lock (off : Z → Z) (id owner tgid : Z) (filp : file) (l : user_flock) :
    cres file_lock :=
  start ← (if l_whence l =? SEEK_SET then Ret 0
           else if l_whence l =? SEEK_CUR then Ret (off (f_pos filp))
           else if l_whence l =? SEEK_END then Ret (off (i_size filp)) else Err EINVAL);
  let start := off (start + l_start l) in
  if start <? 0 then Err EINVAL else
  '(start, end_) ←
    (if l_len l >? 0 then Ret (start, off (start + l_len l - 1))
     else if l_len l <? 0 then
       let start' := off (start + l_len l) in
       if start' <? 0 then Err EINVAL else Ret (start', start - 1)
     else Ret (start, OFFSET_MAX));
  if end_ <? start then Err EOVERFLOW else
  type ← assign_type (l_type l);
  Ret (MkLock id owner tgid (f_addr filp) FL_POSIX type start end_ 0 0).
Definition flock_to_posix_lock := to_posix_lock s32.
Definition flock64_to_posix_lock := to_posix_lock s64.

Definition posix_lock_to_flock (fl : file_lock) : cres user_flock :=
  if fl_start fl >? OFFT_OFFSET_MAX then Err EOVERFLOW
  else if negb (fl_end fl =? OFFSET_MAX) && (fl_end fl >? OFFT_OFFSET_MAX) then Err EOVERFLOW
  else Ret (MkFlock (fl_type fl) 0 (s32 (fl_start fl))
         (if fl_end fl =? OFFSET_MAX then 0 else s32 (fl_end fl - fl_start fl + 1)) (fl_pid fl)).
Definition posix_lock_to_flock64 (fl : file_lock) : user_flock :=
  MkFlock (fl_type fl) 0 (fl_start fl)
    (if fl_end fl =? OFFSET_MAX then 0 else s64 (fl_end fl - fl_start fl + 1)) (fl_pid fl).

(** F_GETLK: [l] is what the caller's pointer reads as, [writable] whether the
    answer can be written back *)
Definition fcntl_getlk (vnr : file_lock → Z) (owner tgid : Z) (filp : file)
    (l : option user_flock) (writable : bool) (s : flocks) : cres user_flock :=
  match l with
  | None => Err EFAULT
  | Some flock =>
      if negb (l_type flock =? F_RDLCK) && negb (l_type flock =? F_WRLCK) then Err EINVAL else
      fl ← flock_to_posix_lock 0 owner tgid filp flock;
      let fl := posix_test_lock vnr fl s in
      flock ← (if negb (fl_type fl =? F_UNLCK) then posix_lock_to_flock fl
               else Ret (MkFlock F_UNLCK (l_whence flock) (l_start flock) (l_len flock)
                           (l_pid flock)));
      if writable then Ret flock else Err EFAULT
  end.
Definition fcntl_getlk64 (vnr : file_lock → Z) (owner tgid : Z) (filp : file)
    (l : option user_flock) (writable : bool) (s : flocks) : cres user_flock :=
  match l with
  | None => Err EFAULT
  | Some flock =>
      if negb (l_type flock =? F_RDLCK) && negb (l_type flock =? F_WRLCK) then Err EINVAL else
      fl ← flock64_to_posix_lock 0 owner tgid filp flock;
      let fl := posix_test_lock vnr fl s in
      let flock :=
        if negb (fl_type fl =? F_UNLCK) then posix_lock_to_flock64 fl
        else MkFlock F_UNLCK (l_whence flock) (l_start flock) (l_len flock) (l_pid flock) in
      if writable then Ret flock else Err EFAULT
  end.

(** F_SETLK and F_SETLKW. [conv] is [flock_to_posix_lock] or its 64 bit twin;
    [mapped] says that the file is under mandatory locking and mapped writable;
    [closed] that the descriptor was closed while the lock was being taken *)
Section Setlk.
Context (alloc : flocks → option Z * option Z).
Context (conv : Z → file → user_flock → cres file_lock) (filp : file) (wait : bool).

Definition setlk_once (id : Z) (events : list sleep_event) (flock : user_flock) (s : flocks) :
    option (cres Z) * flocks :=
  match conv id filp flock with
  | Ret fl =>
      let fl := if wait then set_flags (Z.lor (fl_flags fl) FL_SLEEP) fl else fl in
      if (l_type flock =? F_RDLCK) && negb (f_read filp)
         || (l_type flock =? F_WRLCK) && negb (f_write filp) then (Some (Err EBADF), s)
      else do_lock_file_wait alloc events fl s
  | Err e => (Some (Err e), s)
  | UB => (Some UB, s)
  end.

Definition setlk (id : option Z) (l : option user_flock) (mapped closed : bool)
    (events events2 : list sleep_event) (s : flocks) : option (cres Z) * flocks :=
  match id, l with
  | None, _ => (Some (Err ENOLCK), s)
  | _, None => (Some (Err EFAULT), s)
  | Some id, Some flock =>
      if mapped then (Some (Err EAGAIN), s) else
      let '(e, s) := setlk_once id events flock s in
      match e with
      | Some (Ret 0) =>
          if closed && negb (l_type flock =? F_UNLCK) then
            setlk_once id events2
              (MkFlock F_UNLCK (l_whence flock) (l_start flock) (l_len flock) (l_pid flock)) s
          else (e, s)
      | _ => (e, s)
      end
  end.
End Setlk.
Definition fcntl_setlk alloc (owner tgid : Z) :=
  setlk alloc (λ id, flock_to_posix_lock id owner tgid).
Definition fcntl_setlk64 alloc (owner tgid : Z) :=
  setlk alloc (λ id, flock64_to_posix_lock id owner tgid).

(** a descriptor is closed: the owner's locks on the file go *)
Definition locks_remove_posix (alloc : flocks → option Z * option Z) (id owner tgid filp : Z)
    (s : flocks) : flocks :=
  match i_flock s with
  | [] => s
  | _ => (posix_lock_file alloc
            (MkLock id owner tgid filp (Z.lor FL_POSIX FL_CLOSE) F_UNLCK 0 OFFSET_MAX 0 0) s).2
  end.

(** ** Mandatory locks *)

Definition locks_mandatory_locked (owner : Z) (s : flocks) : cres () :=
  if existsb (λ fl, IS_POSIX fl && negb (fl_owner fl =? owner)) (i_flock s)
  then Err EAGAIN else Ret tt.

Definition lock_may_read (start len : Z) (s : flocks) : bool :=
  negb (existsb (λ fl,
    if IS_POSIX fl then
      negb (fl_type fl =? F_RDLCK)
      && negb ((fl_end fl <? start) || (fl_start fl >? s64 (start + len)))
    else if IS_FLOCK fl then
      truth (Z.land (fl_type fl) LOCK_MAND) && negb (truth (Z.land (fl_type fl) LOCK_READ))
    else false) (i_flock s)).

Definition lock_may_write (start len : Z) (s : flocks) : bool :=
  negb (existsb (λ fl,
    if IS_POSIX fl then negb ((fl_end fl <? start) || (fl_start fl >? s64 (start + len)))
    else if IS_FLOCK fl then
      truth (Z.land (fl_type fl) LOCK_MAND) && negb (truth (Z.land (fl_type fl) LOCK_WRITE))
    else false) (i_flock s)).

(** A read or write under mandatory locking waits for conflicting locks. The
    events say for each wakeup whether the file is still under mandatory
    locking. *)
Fixpoint mandatory_sleep (events : list (sleep_event * bool)) (fl : file_lock) (s : flocks) :
    option (cres Z) * flocks :=
  match events with
  | [] => (None, s)
  | (Signal, _) :: _ => (Some (Err ERESTARTSYS), __locks_delete_block fl s)
  | (Runs env, mandatory) :: events =>
      let s := env s in
      if is_waiting fl s then mandatory_sleep events fl s
      else if negb mandatory then (Some (Ret 0), __locks_delete_block fl s)
      else let '(e, s) := __posix_lock_file None None fl s in
           match e with
           | Ret 1 => mandatory_sleep events fl s
           | e => (Some e, s)
           end
  end.

(** [filp] is the open file and whether it is non-blocking *)
Definition mandatory_request (id files tgid : Z) (write : bool) (filp : option (Z * bool))
    (offset count : Z) : file_lock :=
  MkLock id files tgid (match filp with Some (f, _) => f | None => 0 end)
    (Z.lor (Z.lor FL_POSIX FL_ACCESS)
       (match filp with Some (_, false) => FL_SLEEP | _ => 0 end))
    (if write then F_WRLCK else F_RDLCK) offset (s64 (offset + count - 1)) 0 0.
Definition locks_mandatory_area (id files tgid : Z) (write : bool) (filp : option (Z * bool))
    (offset count : Z) (events : list (sleep_event * bool)) (s : flocks) :
    option (cres Z) * flocks :=
  let fl := mandatory_request id files tgid write filp offset count in
  let '(e, s) := __posix_lock_file None None fl s in
  match e with
  | Ret 1 => mandatory_sleep events fl s
  | e => (Some e, s)
  end.

(** a lock manager gives up a blocked request *)
Definition posix_unblock_lock (w : file_lock) (s : flocks) : cres () * flocks :=
  if is_waiting w s then (Ret tt, __locks_delete_block w s) else (Err ENOENT, s).
