(* ===== verification/LockTable.v ===== *)
(** * The lock table that the list of POSIX locks implements

    Abstractly a file has, for every owner and every byte, at most one lock:
    shared, exclusive or none. This file proves that [__posix_lock_file] keeps
    the list of locks in its canonical form (grouped by owner, sorted, disjoint
    and merged) and changes the abstract table as a request asks. *)

From stdpp Require Import sorting.
From S2P Require Import Prelude Locks.

Definition in_range (x : Z) (f : file_lock) : bool := (fl_start f <=? x) && (x <=? fl_end f).

(** the abstract table: the lock an owner has on a byte *)
Definition lock_at (l : list file_lock) (o x : Z) : option Z :=
  fl_type <$> List.find (λ f, IS_POSIX f && (fl_owner f =? o) && in_range x f) l.

Record lock_wf (f : file_lock) : Prop := {
  wf_posix : IS_POSIX f = true;
  wf_type : fl_type f = F_RDLCK ∨ fl_type f = F_WRLCK;
  wf_range : 0 ≤ fl_start f ≤ fl_end f ∧ fl_end f ≤ OFFSET_MAX
}.

(** [a] ends before [b] starts, and not right before it if they are of one type *)
Definition before (a b : file_lock) : Prop :=
  fl_end a < fl_start b ∧ (fl_type a = fl_type b → fl_end a < fl_start b - 1).

Definition own_wf (o : Z) (f : file_lock) : Prop := lock_wf f ∧ fl_owner f = o.

(** the locks of one owner *)
Definition group_ok (o : Z) (own : list file_lock) : Prop :=
  Forall (own_wf o) own ∧ StronglySorted before own.

Definition range_at (l : list file_lock) (x t : Z) : Prop :=
  ∃ f, f ∈ l ∧ fl_start f ≤ x ≤ fl_end f ∧ fl_type f = t.

Lemma range_at_nil x t : range_at [] x t ↔ False.
Proof. split; [|done]. intros (f & H & _). by apply elem_of_nil in H. Qed.
Lemma range_at_cons f l x t :
  range_at (f :: l) x t ↔ (fl_start f ≤ x ≤ fl_end f ∧ fl_type f = t) ∨ range_at l x t.
Proof.
  unfold range_at. setoid_rewrite elem_of_cons. naive_solver.
Qed.
Lemma range_at_app l k x t : range_at (l ++ k) x t ↔ range_at l x t ∨ range_at k x t.
Proof. unfold range_at. setoid_rewrite elem_of_app. naive_solver. Qed.

Lemma range_at_out l x t :
  Forall (λ f, x < fl_start f ∨ fl_end f < x) l → range_at l x t ↔ False.
Proof.
  rewrite Forall_forall. intros H. split; [|done].
  intros (f & Hf & ? & _). specialize (H f Hf). lia.
Qed.

(** ** Writing through a pointer *)

Lemma upd_fresh id f l : id ∉ fl_id <$> l → upd id f l = l.
Proof.
  intros H. unfold upd. rewrite <- (map_id l) at 2. apply map_ext_in. intros a Ha%list_elem_of_In.
  case_test; [|done]. bprop. subst. destruct H. by apply list_elem_of_fmap_2.
Qed.

Lemma upd_app id f l k : upd id f (l ++ k) = upd id f l ++ upd id f k.
Proof. apply map_app. Qed.

Lemma upd_cons_eq id f x l : fl_id x = id → upd id f (x :: l) = f x :: upd id f l.
Proof. intros <-. simpl. by rewrite Z.eqb_refl. Qed.

Definition ids (l : list file_lock) : list Z := fl_id <$> l.

Lemma ids_app l k : ids (l ++ k) = ids l ++ ids k.
Proof. apply fmap_app. Qed.

(** identities are unique, so a write hits one place *)
Lemma upd_at id g l x k :
  NoDup (ids (l ++ x :: k)) → fl_id x = id → upd id g (l ++ x :: k) = l ++ g x :: k.
Proof.
  rewrite ids_app. cbn [ids fmap list_fmap]. intros (_ & Hl & [Hx _]%NoDup_cons)%NoDup_app <-.
  rewrite upd_app, upd_cons_eq by done. rewrite !upd_fresh; try done.
  intros H. apply (Hl _ H). constructor.
Qed.

Lemma NoDup_ids_l l k : NoDup (ids (l ++ k)) → NoDup (ids l).
Proof. rewrite ids_app. by intros (? & _ & _)%NoDup_app. Qed.

Lemma ids_drop l x k : ids (l ++ k) `sublist_of` ids (l ++ x :: k).
Proof. rewrite !ids_app. apply sublist_app; [done|]. by apply sublist_cons. Qed.

Lemma ids_same l x y k : fl_id x = fl_id y → ids (l ++ x :: k) = ids (l ++ y :: k).
Proof. rewrite !ids_app. simpl. congruence. Qed.

Ltac napp_in H := repeat progress (rewrite <- ?app_assoc, ?app_nil_r in H; simpl in H).
Ltac napp := repeat progress (rewrite <- ?app_assoc, ?app_nil_r; simpl).

Lemma submseteq_NoDup {A} (l k : list A) : l ⊆+ k → NoDup k → NoDup l.
Proof. intros [k' ->]%submseteq_Permutation. rewrite NoDup_app. tauto. Qed.

(** ** The walk over the owner's locks *)

Section Walk.
Context (q0 : file_lock) (pre post own : list file_lock).
Abbreviation s0 := (fl_start q0).
Abbreviation e0 := (fl_end q0).
Abbreviation o := (fl_owner q0).

(** The walk has passed [A ++ L ++ Q] and still has [r] to do: [A] ends before
    the request, [L] is the lock to trim on the left, [Q] the lock the request
    became. *)
Record walk_inv (A L Q r : list file_lock) (q : file_lock) (added : bool)
    (lft : option Z) : Prop := {
  wi_wf : Forall (own_wf o) (A ++ L ++ Q ++ r);
  wi_sorted : StronglySorted before (A ++ L ++ r);
  wi_same x t : ¬ s0 ≤ x ≤ e0 → range_at (A ++ L ++ Q ++ r) x t ↔ range_at own x t;
  wi_A : Forall (λ f, before f q) A;
  wi_L : L = [] ∧ lft = None ∨
         ∃ l, L = [l] ∧ lft = Some (fl_id l) ∧ fl_type l ≠ fl_type q ∧
              fl_start l < s0 ≤ fl_end l ∧ fl_end l ≤ e0 ∧ fl_start q = s0;
  wi_q : fl_type q = fl_type q0 ∧ fl_owner q = o ∧ fl_start q ≤ s0 ∧ e0 ≤ fl_end q;
  wi_Q : (added = true ∧ fl_type q0 ≠ F_UNLCK ∧ Q = [q]) ∨
         (Q = [] ∧ q = q0 ∧ (added = true → fl_type q0 = F_UNLCK));
  wi_r : added = true → Forall (λ f, s0 ≤ fl_start f) r;
  wi_end : fl_end q = e0 ∨ Forall (λ f, fl_end q < fl_start f) r;
  wi_none : added = false → own = A ++ L ++ r ∧ (fl_type q0 = F_UNLCK → L = [])
}.

(** where it stops *)
Definition walk_end (L r : list file_lock) (q : file_lock) (added added' : bool)
    (lft lft' rgt : option Z) : Prop :=
  (rgt = None ∧ added' = added ∧ lft' = lft ∧ Forall (before q) r) ∨
  (∃ h r', r = h :: r' ∧ rgt = Some (fl_id h) ∧ fl_type h ≠ fl_type q ∧
     fl_start h ≤ fl_end q < fl_end h ∧ fl_start q ≤ fl_end h ∧
     added' = (if fl_type q =? F_UNLCK then true else added) ∧
     lft' = (if fl_start h <? fl_start q then Some (fl_id h) else lft)).

Hypothesis q0_range : s0 ≤ e0.
Hypothesis q0_fresh : fl_id q0 ∉ ids (pre ++ own ++ post).
Hypothesis own_nodup : NoDup (ids (pre ++ own ++ post)).
Hypothesis post_other : match post with [] => True | f :: _ => fl_owner f ≠ o end.

(** what the invariant says of the next lock *)
Lemma walk_facts A L Q f r q added lft :
  walk_inv A L Q (f :: r) q added lft →
  own_wf o f ∧ Forall (before f) r ∧ Forall (λ l, before l f) L ∧
  (added = false → Q = [] ∧ q = q0) ∧
  (added = true → fl_type q0 ≠ F_UNLCK → Q = [q]) ∧
  (fl_type q0 = F_UNLCK → Q = [] ∧ q = q0).
Proof.
  intros []. rewrite !Forall_app, Forall_cons in wi_wf0.
  rewrite !StronglySorted_app in wi_sorted0. split_and!; try tauto.
  - destruct wi_sorted0 as (_ & _ & _ & _ & Hr). by inversion Hr.
  - apply Forall_forall. intros l Hl. apply wi_sorted0; [done|constructor].
  - naive_solver.
Qed.

Lemma own_wf_range f : own_wf o f → fl_start f ≤ fl_end f ∧ fl_type f ≠ F_UNLCK.
Proof. intros [[_ Ht Hr] _]. unfold F_UNLCK, F_RDLCK, F_WRLCK in *. lia. Qed.

Lemma sorted_drop_mid (A L r : list file_lock) f :
  StronglySorted before (A ++ L ++ f :: r) → StronglySorted before (A ++ L ++ r).
Proof.
  rewrite !StronglySorted_app. intros (HA & ? & HL & ? & Hr). inversion Hr as [|? ? Hr1 Hr2]. split_and!; try done.
  - intros x y Hx Hy. apply HA; [done|]. set_solver.
  - intros x y Hx Hy. apply HL; [done|]. set_solver.
Qed.

(** the lock ends before the request: it is passed *)
Lemma walk_pass A L Q f r q added lft :
  walk_inv A L Q (f :: r) q added lft → before f q →
  L = [] ∧ Q = [] ∧ walk_inv (A ++ [f]) [] [] r q added lft.
Proof.
  intros Hi Hb. destruct (walk_facts _ _ _ _ _ _ _ _ Hi) as (Hf & Hfr & HLf & Hna & _ & _).
  apply own_wf_range in Hf as [Hfr0 _]. destruct Hi, Hb as [Hb1 Hb2].
  destruct added.
  { specialize (wi_r0 eq_refl). rewrite Forall_cons in wi_r0. lia. }
  destruct (Hna eq_refl) as [-> ->]. assert (L = []) as ->.
  { destruct wi_L0 as [[-> _]|(l & -> & _ & _ & Hl & _)]; [done|].
    rewrite Forall_singleton in HLf. destruct HLf. lia. }
  split_and!; try done. simpl in *. constructor; simpl; rewrite <- ?app_assoc; try done.
  - rewrite Forall_app. split; [done|]. by apply Forall_singleton.
  - destruct wi_end0 as [?|Hr]; [by left|]. rewrite Forall_cons in Hr. right. tauto.
Qed.

(** the range of two locks of one type that overlap or touch *)
Definition joins (q f q' : file_lock) : Prop :=
  fl_start q' = Z.min (fl_start q) (fl_start f) ∧ fl_end q' = Z.max (fl_end q) (fl_end f) ∧
  fl_type q' = fl_type q ∧ fl_owner q' = fl_owner q.

(** it is merged into the request, which is a lock of the list from then on *)
Lemma walk_merge A L Q f r q added lft q' :
  walk_inv A L Q (f :: r) q added lft → fl_type q = fl_type f →
  fl_start q - 1 ≤ fl_end f → fl_start f - 1 ≤ fl_end q → joins q f q' → own_wf o q' →
  walk_inv A L [q'] r q' true lft.
Proof.
  intros Hi Htf Hb1 Hb2 (Hs & He & Ht' & Ho') Hw'.
  destruct (walk_facts _ _ _ _ _ _ _ _ Hi) as (Hf & Hfr & HLf & Hna & Had & _).
  apply own_wf_range in Hf as [Hfr0 Hft]. destruct Hi, wi_q0 as (Hqt & Hqo & Hqs & Hqe).
  assert (fl_start q < s0 ∨ e0 < fl_end q → added = true) as Hadd.
  { destruct added; [done|]. destruct (Hna eq_refl) as [_ ->]. lia. }
  rewrite Forall_forall in Hfr. constructor; simpl.
  - rewrite !Forall_app, !Forall_cons in *. tauto.
  - eapply sorted_drop_mid; eauto.
  - intros x t Hx. rewrite <- wi_same0 by done. rewrite !range_at_app, !range_at_cons.
    assert (fl_start q' ≤ x ≤ fl_end q' ↔
            (added = true ∧ fl_start q ≤ x ≤ fl_end q) ∨ fl_start f ≤ x ≤ fl_end f) as Hin.
    { destruct added; [lia|]. destruct (Hna eq_refl) as [_ ->]. split; [|lia].
      intros. right. lia. }
    rewrite Hin, Ht'. destruct added.
    + rewrite (Had eq_refl) by congruence. rewrite range_at_cons, range_at_nil, Htf. clear. tauto.
    + destruct (Hna eq_refl) as [-> _]. rewrite range_at_nil, Htf. clear. intuition congruence.
  - rewrite Forall_forall in *. intros a Ha. destruct (wi_A0 a Ha) as [H1 H2]. 
    rewrite !StronglySorted_app in wi_sorted0.
    assert (before a f) as [H3 H4] by (apply (proj1 wi_sorted0); [done|set_solver]).
    split; [lia|]. rewrite Ht'. intros E. specialize (H2 E). rewrite Htf in E.
    specialize (H4 E). lia.
  - destruct wi_L0 as [HL|(l & -> & -> & Hlt & Hl & Hle & Hq)]; [by left|right]. exists l.
    rewrite Forall_singleton in HLf. destruct HLf. split_and!; try done; try congruence; lia.
  - split_and!; [congruence..|lia|lia].
  - left. split_and!; congruence.
  - intros _. apply Forall_forall. intros g Hg. destruct (Hfr g Hg). 
    destruct (Z.le_gt_cases s0 (fl_start f)); [lia|].
    destruct added; [|destruct (Hna eq_refl) as [_ ->]; lia].
    specialize (wi_r0 eq_refl). rewrite Forall_cons in wi_r0. lia.
  - rewrite He. destruct (Z.max_spec (fl_end q) (fl_end f)) as [[? ->]|[? ->]].
    + right. apply Forall_forall. intros g Hg. destruct (Hfr g Hg). lia.
    + destruct wi_end0 as [?|Hr]; [by left|right]. by inversion Hr.
  - done.
Qed.

(** a lock of another type inside the request is deleted, or becomes it *)
Lemma walk_replace A L Q f r q added lft Q' q' :
  walk_inv A L Q (f :: r) q added lft → fl_type q ≠ fl_type f →
  fl_start q ≤ fl_start f → fl_end f ≤ fl_end q →
  (added = true ∨ fl_type q0 = F_UNLCK) ∧ Q' = Q ∧ q' = q ∨
  added = false ∧ Q' = [q'] ∧ fl_type q0 ≠ F_UNLCK ∧ own_wf o q' ∧
    (fl_start q', fl_end q', fl_type q') = (s0, e0, fl_type q0) →
  walk_inv A L Q' r q' true lft.
Proof.
  intros Hi Htf Hb1 Hb2 Hc.
  destruct (walk_facts _ _ _ _ _ _ _ _ Hi) as (Hf & Hfr & HLf & Hna & Had & Hun).
  apply own_wf_range in Hf as [Hfr0 Hft]. destruct Hi, wi_q0 as (Hqt & Hqo & Hqs & Hqe).
  assert (s0 ≤ fl_start f ∧ fl_end f ≤ e0) as [Hs0 He0].
  { split.
    - destruct added; [specialize (wi_r0 eq_refl); by inversion wi_r0|].
      destruct (Hna eq_refl) as [_ ->]. lia.
    - destruct wi_end0 as [?|Hr]; [lia|]. rewrite Forall_cons in Hr. lia. }
  assert (fl_type q' = fl_type q ∧ fl_owner q' = o ∧ fl_start q' = fl_start q ∧
          fl_end q' = fl_end q) as (Ht' & Ho' & Hs' & He').
  { destruct Hc as [(_ & _ & ->)|(-> & _ & _ & [_ ?] & [= ? ? ?])]; [done|].
    destruct (Hna eq_refl) as [_ ->]. done. }
  assert (Forall (own_wf o) Q' ∧ ∀ x t, ¬ s0 ≤ x ≤ e0 → range_at Q' x t ↔ range_at Q x t) as [HwQ HQ].
  { rewrite !Forall_app in wi_wf0.
    destruct Hc as [(_ & -> & _)|(-> & -> & _ & ? & [= ? ? ?])]; [by split; [tauto|]|].
    destruct (Hna eq_refl) as [-> _]. rewrite Forall_singleton. split; [done|].
    intros. rewrite range_at_cons, range_at_nil. naive_solver lia. }
  constructor.
  - rewrite !Forall_app, Forall_cons in *. tauto.
  - eapply sorted_drop_mid; eauto.
  - intros x t Hx. rewrite <- wi_same0 by done. rewrite !range_at_app, range_at_cons, HQ by done.
    clear -Hs0 He0 Hx. split; [tauto|]. intros [?|[?|[?|[[? ?]|?]]]]; try tauto. lia.
  - eapply Forall_impl; [exact wi_A0|]. intros a [H1 H2]. unfold before. by rewrite Hs', Ht'.
  - destruct wi_L0 as [?|(l & ? & ? & ? & ? & ? & ?)]; [by left|right]. exists l.
    rewrite Hs', Ht'. done.
  - rewrite Ht', Ho', Hs', He'. done.
  - destruct Hc as [([->|Hu] & -> & ->)|(-> & -> & ? & _)].
    + destruct (decide (fl_type q0 = F_UNLCK)) as [Hu|]; [right|left; auto].
      destruct (Hun Hu). done.
    + right. destruct (Hun Hu). done.
    + by left.
  - intros _. eapply Forall_impl; [exact Hfr|]. intros g [? _]. lia.
  - rewrite He'. destruct wi_end0 as [?|Hr]; [by left|right]. by inversion Hr.
  - done.
Qed.

(** a lock of another type that starts before the request is kept to be trimmed *)
Lemma walk_left A L Q f r q added lft :
  walk_inv A L Q (f :: r) q added lft → fl_type q ≠ fl_type f →
  fl_start f < fl_start q → fl_start q ≤ fl_end f → fl_end f ≤ fl_end q →
  L = [] ∧ Q = [] ∧ added = false ∧
  walk_inv A [f] [] r q (fl_type q =? F_UNLCK) (Some (fl_id f)).
Proof.
  intros Hi Htf Hb1 Hb2 Hb3.
  destruct (walk_facts _ _ _ _ _ _ _ _ Hi) as (Hf & Hfr & HLf & Hna & _ & _).
  apply own_wf_range in Hf as [Hfr0 Hft]. destruct Hi, wi_q0 as (Hqt & Hqo & Hqs & Hqe).
  destruct added.
  { specialize (wi_r0 eq_refl). rewrite Forall_cons in wi_r0. lia. }
  destruct (Hna eq_refl) as [-> ->]. assert (L = []) as ->.
  { destruct wi_L0 as [[-> _]|(l & -> & _ & _ & Hl & _)]; [done|].
    rewrite Forall_singleton in HLf. destruct HLf. lia. }
  split_and!; try done. simpl in *. constructor; simpl; try done.
  - right. by exists f.
  - right. split_and!; try done. intros ?%Z.eqb_eq. done.
  - intros _. eapply Forall_impl; [exact Hfr|]. intros g [? _]. lia.
  - by left.
  - intros Hu%Z.eqb_neq. split; [by apply wi_none0|congruence].
Qed.

(** a lock after the request, or one that reaches past it, ends the walk *)
Lemma walk_stop A L Q f r q added lft :
  walk_inv A L Q (f :: r) q added lft → before q f →
  walk_end L (f :: r) q added added lft lft None.
Proof.
  intros Hi Hb. destruct (walk_facts _ _ _ _ _ _ _ _ Hi) as (Hf & Hfr & _).
  left. split_and!; try done. constructor; [done|]. eapply Forall_impl; [exact Hfr|].
  apply own_wf_range in Hf as [? _]. intros g [? _]. destruct Hb. split; lia.
Qed.

Lemma merge_locks_joins q f q' f' :
  merge_locks q f = (q', f') → fl_type q = fl_type f → fl_owner q = fl_owner f →
  joins q f q' ∧ joins q f f' ∧ fl_id q' = fl_id q ∧ fl_id f' = fl_id f ∧
  IS_POSIX f' = IS_POSIX f ∧ IS_POSIX q' = IS_POSIX q.
Proof.
  unfold merge_locks, joins. intros Hm Ht Ho. repeat case_test; simplify_eq; simpl in *; bprop;
    split_and!; try done; lia.
Qed.

Lemma joins_wf q f q' :
  own_wf o f → fl_type q = fl_type f → fl_owner q = o → joins q f q' → IS_POSIX q' = true →
  0 ≤ fl_start q → fl_end q ≤ OFFSET_MAX → own_wf o q'.
Proof.
  intros [[_ Ht Hr] Ho] Htq Hoq (Hs & He & Ht' & Ho') Hp ??. split; [|congruence].
  constructor; [done| |lia]. rewrite Ht', Htq. done.
Qed.

Hypothesis q0_bounds : 0 ≤ s0 ∧ e0 ≤ OFFSET_MAX.
Hypothesis q0_type : fl_type q0 = F_RDLCK ∨ fl_type q0 = F_WRLCK ∨ fl_type q0 = F_UNLCK.

Lemma walk_bounds A L Q r q added lft :
  walk_inv A L Q r q added lft →
  0 ≤ fl_start q ∧ fl_end q ≤ OFFSET_MAX ∧ (Q = [q] → IS_POSIX q = true).
Proof.
  intros []. rewrite !Forall_app in wi_wf0. destruct wi_wf0 as (_ & _ & HQ & _).
  destruct wi_Q0 as [(_ & _ & ->)|(-> & -> & _)].
  - rewrite Forall_singleton in HQ. destruct HQ as [[? ? ?] _]. split_and!; [lia|lia|done].
  - split_and!; [lia|lia|done].
Qed.

Definition keeps_ids (l : list file_lock) : Prop :=
  ids l `sublist_of` ids (pre ++ own ++ post).

Lemma keeps_drop l x k : keeps_ids (l ++ x :: k) → keeps_ids (l ++ k).
Proof. intros H. unfold keeps_ids. etrans; [apply ids_drop|exact H]. Qed.

Lemma keeps_same l x y k : fl_id x = fl_id y → keeps_ids (l ++ x :: k) → keeps_ids (l ++ y :: k).
Proof. unfold keeps_ids. intros E. by rewrite (ids_same _ x y). Qed.

Lemma keeps_upd l x g k :
  keeps_ids (l ++ x :: k) → upd (fl_id x) g (l ++ [x]) = l ++ [g x].
Proof.
  intros H. apply upd_at; [|done]. apply (NoDup_ids_l _ k). rewrite <- app_assoc. simpl.
  by eapply sublist_NoDup.
Qed.

Lemma keeps_fresh g l k : keeps_ids (l ++ k) → upd (fl_id q0) g l = l.
Proof.
  intros H. apply upd_fresh. intros Hin. apply q0_fresh.
  eapply elem_of_sublist; [|exact H]. fold (ids l) in Hin. rewrite ids_app. set_solver.
Qed.

(** the walk from a state of the invariant ends in one *)
Definition walk_ok (A L Q r : list file_lock) (q : file_lock) (added : bool)
    (lft : option Z) (s : flocks) : Prop :=
  ∃ A' L' Q' r' q' added1 added' lft1 lft' rgt s',
    own_walk (pre ++ A ++ L ++ Q) (r ++ post) q added lft s =
      MkWalk (pre ++ A' ++ L' ++ Q') (r' ++ post) q' added' lft' rgt s' ∧
    walk_inv A' L' Q' r' q' added1 lft1 ∧
    walk_end L' r' q' added1 added' lft1 lft' rgt ∧
    keeps_ids (pre ++ A' ++ L' ++ Q' ++ r' ++ post).
Definition walks (r : list file_lock) : Prop := ∀ A L Q q added lft s,
  walk_inv A L Q r q added lft → keeps_ids (pre ++ A ++ L ++ Q ++ r ++ post) →
  walk_ok A L Q r q added lft s.

Lemma walk_ok_pass A L Q f r q added lft s :
  walks r → walk_inv A L Q (f :: r) q added lft →
  keeps_ids (pre ++ A ++ L ++ Q ++ f :: r ++ post) → before f q →
  own_walk (pre ++ A ++ L ++ Q) (f :: r ++ post) q added lft s =
    own_walk ((pre ++ A ++ L ++ Q) ++ [f]) (r ++ post) q added lft s →
  walk_ok A L Q (f :: r) q added lft s.
Proof.
  intros IH Hi Hids Hb He. destruct (walk_pass _ _ _ _ _ _ _ _ Hi Hb) as (-> & -> & Hi').
  specialize (IH (A ++ [f]) [] [] q added lft s Hi'). unfold walk_ok in *.
  change ((f :: r) ++ post) with (f :: r ++ post). rewrite He.
  napp_in IH. napp. by apply IH.
Qed.

Lemma walk_ok_stop A L Q f r q added lft s :
  walk_inv A L Q (f :: r) q added lft → keeps_ids (pre ++ A ++ L ++ Q ++ f :: r ++ post) →
  before q f →
  own_walk (pre ++ A ++ L ++ Q) (f :: r ++ post) q added lft s =
    MkWalk (pre ++ A ++ L ++ Q) (f :: r ++ post) q added lft None s →
  walk_ok A L Q (f :: r) q added lft s.
Proof.
  intros Hi Hids Hb He. exists A, L, Q, (f :: r), q, added, added, lft, lft, None, s.
  split_and!; try done. by eapply walk_stop.
Qed.

(** a lock of the request's type *)
Lemma own_walk_same A L Q f r q added lft s :
  walks r → walk_inv A L Q (f :: r) q added lft →
  keeps_ids (pre ++ A ++ L ++ Q ++ f :: r ++ post) →
  posix_same_owner q f = true → fl_type q = fl_type f → walk_ok A L Q (f :: r) q added lft s.
Proof.
  intros IH Hi Hids Hso Etf.
  destruct (wi_q _ _ _ _ _ _ _ Hi) as (Ht & Ho & Hqs & Hqe).
  destruct (walk_facts _ _ _ _ _ _ _ _ Hi) as (Hf & Hfr & HLf & Hna & Had & Hun).
  pose proof (own_wf_range _ Hf) as [Hf0 Hft].
  destruct (fl_end f <? fl_start q - 1) eqn:E1; bprop.
  { apply walk_ok_pass; try done; [split; lia|]. simpl. rewrite Hso, Etf, Z.eqb_refl. simpl.
    by rewrite (proj2 (Z.ltb_lt _ _)). }
  destruct (fl_start f - 1 >? fl_end q) eqn:E2; bprop.
  { apply walk_ok_stop; try done; [split; lia|]. simpl. rewrite Hso, Etf, Z.eqb_refl. simpl.
    rewrite (proj2 (Z.ltb_ge _ _)) by lia. by rewrite Z.gtb_ltb, (proj2 (Z.ltb_lt _ _)). }
  unfold walk_ok. simpl. rewrite Hso, Etf, Z.eqb_refl, (proj2 (Z.ltb_ge _ _)), Z.gtb_ltb,
    (proj2 (Z.ltb_ge _ _)) by lia. simpl. destruct (merge_locks q f) as [q' f'] eqn:Em.
  destruct (merge_locks_joins _ _ _ _ Em Etf) as (Hjq & Hjf & Hidq & Hidf & Hpf & Hpq);
    [destruct Hf; congruence|].
  pose proof (walk_bounds _ _ _ _ _ _ _ Hi) as (Hb1 & Hb2 & Hb3). destruct added.
  - rewrite (Had eq_refl) in * by congruence.
    assert (own_wf o q') as Hq' by (eapply joins_wf; try done; rewrite Hpq; tauto).
    pose proof (walk_merge _ _ _ _ _ _ _ _ q' Hi Etf ltac:(lia) ltac:(lia) Hjq Hq') as Hi'.
    assert (upd (fl_id q) (λ _, q') (pre ++ A ++ L ++ [q]) = pre ++ A ++ L ++ [q']) as ->.
    { rewrite !(app_assoc pre), !(app_assoc (pre ++ A)). eapply keeps_upd. napp. exact Hids. }
    apply (IH _ _ _ _ _ _ _ Hi').
    pose proof (keeps_drop (pre ++ A ++ L ++ [q]) f (r ++ post)) as Hd.
    pose proof (keeps_same (pre ++ A ++ L) q q' (r ++ post)) as Hs. napp_in Hd. napp_in Hs. auto.
  - destruct (Hna eq_refl) as [-> ->].
    assert (own_wf o f') as Hf' by (eapply joins_wf; try done; rewrite Hpf; apply Hf).
    pose proof (walk_merge _ _ _ _ _ _ _ _ f' Hi Etf ltac:(lia) ltac:(lia) Hjf Hf') as Hi'.
    specialize (IH _ _ _ _ _ _ s Hi'). unfold walk_ok in IH.
    rewrite (keeps_fresh _ _ (f :: r ++ post)) by (by napp). napp. napp_in IH. apply IH.
    pose proof (keeps_same (pre ++ A ++ L) f f' (r ++ post)) as Hs. napp_in Hs. auto.
Qed.

(** a lock of the other type inside the request *)
Lemma own_walk_inside A L Q f r q added lft s :
  walks r → walk_inv A L Q (f :: r) q added lft →
  keeps_ids (pre ++ A ++ L ++ Q ++ f :: r ++ post) →
  posix_same_owner q f = true → fl_type q ≠ fl_type f →
  fl_start q ≤ fl_start f → fl_end f ≤ fl_end q → walk_ok A L Q (f :: r) q added lft s.
Proof.
  intros IH Hi Hids Hso Etf E4 E3.
  destruct (wi_q _ _ _ _ _ _ _ Hi) as (Ht & Ho & Hqs & Hqe).
  destruct (walk_facts _ _ _ _ _ _ _ _ Hi) as (Hf & Hfr & HLf & Hna & Had & Hun).
  pose proof (own_wf_range _ Hf) as [Hf0 Hft].
  unfold walk_ok. simpl. rewrite Hso, (proj2 (Z.eqb_neq (fl_type q) _)) by done. simpl.
  rewrite !Z.gtb_ltb, Z.geb_leb, !(proj2 (Z.ltb_ge _ _)), (proj2 (Z.leb_le _ _)) by lia.
  destruct (decide (added = true ∨ fl_type q0 = F_UNLCK)) as [Hc|Hc].
  { rewrite Ht. replace (if fl_type q0 =? F_UNLCK then true else added) with true
      by (destruct Hc as [->| ->]; [by case_test|done]).
    pose proof (walk_replace _ _ _ _ _ _ _ _ Q q Hi ltac:(done) ltac:(lia) ltac:(lia)
      ltac:(by left)) as Hi'.
    apply (IH _ _ _ _ _ _ _ Hi').
    pose proof (keeps_drop (pre ++ A ++ L ++ Q) f (r ++ post)) as Hd. napp_in Hd. auto. }
  assert (added = false) as -> by (destruct added; [by destruct Hc; left|done]).
  destruct (Hna eq_refl) as [-> ->].
  rewrite (proj2 (Z.eqb_neq (fl_type q0) F_UNLCK)) by naive_solver. set (f' := set_type _ _).
  assert (own_wf o f') as Hf'.
  { destruct Hf as [[Hp _ _] Hof]. split; [constructor; simpl; [done|tauto|lia]|done]. }
  pose proof (walk_replace _ _ _ _ _ _ _ _ [f'] f' Hi ltac:(done) ltac:(lia) ltac:(lia)
    ltac:(right; naive_solver)) as Hi'.
  specialize (IH _ _ _ _ _ _ (locks_wake_up_blocks (fl_id f) s) Hi'). unfold walk_ok in IH.
  napp. napp_in IH. apply IH.
  pose proof (keeps_same (pre ++ A ++ L) f f' (r ++ post)) as Hs. napp_in Hs. auto.
Qed.

Lemma own_walk_other A L Q f r q added lft s :
  walks r → walk_inv A L Q (f :: r) q added lft →
  keeps_ids (pre ++ A ++ L ++ Q ++ f :: r ++ post) →
  posix_same_owner q f = true → fl_type q ≠ fl_type f → walk_ok A L Q (f :: r) q added lft s.
Proof.
  intros IH Hi Hids Hso Etf.
  assert ((fl_type q =? fl_type f) = false) as Etf' by (by apply Z.eqb_neq).
  destruct (fl_end f <? fl_start q) eqn:E1.
  { apply walk_ok_pass; try done; [bprop; split; lia|]. simpl. by rewrite Hso, Etf', E1. }
  destruct (fl_start f >? fl_end q) eqn:E2.
  { apply walk_ok_stop; try done; [bprop; split; lia|]. simpl. by rewrite Hso, Etf', E1, E2. }
  destruct (fl_end f >? fl_end q) eqn:E3.
  { exists A, L, Q, (f :: r), q, added, (if fl_type q =? F_UNLCK then true else added), lft,
      (if fl_start f <? fl_start q then Some (fl_id f) else lft), (Some (fl_id f)), s.
    split_and!; try done; [simpl; by rewrite Hso, Etf', E1, E2, E3|].
    bprop. right. by exists f, r. }
  destruct (fl_start f >=? fl_start q) eqn:E4; [bprop; by apply own_walk_inside|].
  unfold walk_ok. simpl. rewrite Hso, Etf', E1, E2, E3, E4. simpl. bprop.
  rewrite (proj2 (Z.ltb_lt _ _)) by lia.
  destruct (walk_left _ _ _ _ _ _ _ _ Hi) as (-> & -> & -> & Hi'); [done|lia..|].
  specialize (IH _ _ _ _ _ _ s Hi'). unfold walk_ok in IH. napp. napp_in IH.
  destruct (fl_type q =? F_UNLCK); by apply IH.
Qed.

Lemma own_walk_spec r : walks r.
Proof.
  induction r as [|f r IH]; intros A L Q q added lft s Hi Hids.
  - exists A, L, Q, [], q, added, added, lft, lft, None, s. split_and!; try done; [|by left].
    destruct post as [|f post']; [done|]. simpl.
    destruct (wi_q _ _ _ _ _ _ _ Hi) as (_ & Ho & _).
    unfold posix_same_owner. by rewrite (proj2 (Z.eqb_neq _ _)) by congruence.
  - destruct (wi_q _ _ _ _ _ _ _ Hi) as (_ & Ho & _).
    destruct (walk_facts _ _ _ _ _ _ _ _ Hi) as ([_ Hf] & _).
    assert (posix_same_owner q f = true) by (apply Z.eqb_eq; congruence).
    destruct (decide (fl_type q = fl_type f)); [by apply own_walk_same|by apply own_walk_other].
Qed.

(** ** Putting the pieces together *)

(** the owner's locks afterwards: [A] before the request, the trimmed left
    neighbour, the request, and what follows it *)
Lemma assemble A Lf Qf Rf q :
  fl_start q ≤ fl_end q →
  group_ok o A → Forall (λ f, before f q) A →
  group_ok o Rf → Forall (before q) Rf →
  Lf = [] ∨ (∃ l, Lf = [l] ∧ own_wf o l ∧ fl_end l = fl_start q - 1 ∧
                  fl_type l ≠ fl_type q ∧ Forall (λ f, before f l) A) →
  Qf = [] ∨ (∃ q', Qf = [q'] ∧ own_wf o q' ∧
      (fl_start q', fl_end q', fl_type q') = (fl_start q, fl_end q, fl_type q)) →
  group_ok o (A ++ Lf ++ Qf ++ Rf).
Proof.
  intros Hq [HwA HsA] HAq [HwR HsR] HqR HL HQ. rewrite Forall_forall in HAq, HqR.
  assert (Forall (own_wf o) Lf ∧ StronglySorted before Lf ∧
          ∀ l, l ∈ Lf → fl_end l = fl_start q - 1 ∧ fl_type l ≠ fl_type q ∧
                        ∀ a, a ∈ A → before a l) as (HwL & HsL & HL').
  { destruct HL as [->|(l & -> & Hw & He & Ht & HA)].
    - split_and!; try constructor; by apply elem_of_nil in H.
    - rewrite Forall_forall in HA. split_and!; [by apply Forall_singleton|by repeat constructor|].
      by intros ? ->%list_elem_of_singleton. }
  assert (Forall (own_wf o) Qf ∧ StronglySorted before Qf ∧
          ∀ l, l ∈ Qf → fl_start l = fl_start q ∧ fl_end l = fl_end q ∧ fl_type l = fl_type q)
    as (HwQ & HsQ & HQ').
  { destruct HQ as [->|(l & -> & Hw & [= ? ? ?])].
    - split_and!; try constructor; by apply elem_of_nil in H.
    - split_and!; [by apply Forall_singleton|by repeat constructor|].
      by intros ? ->%list_elem_of_singleton. }
  split; [by rewrite !Forall_app|]. rewrite !StronglySorted_app.
  split_and!; try done; unfold before in *.
  - intros a b Ha Hb. pose proof (HAq a Ha) as [? ?]. rewrite !elem_of_app in Hb.
    destruct Hb as [Hb|[Hb|Hb]].
    + by apply HL'.
    + destruct (HQ' b Hb) as (-> & _ & ->). done.
    + pose proof (HqR b Hb) as [? _]. lia.
  - intros a b Ha Hb. destruct (HL' a Ha) as (-> & Ht & _). rewrite elem_of_app in Hb.
    destruct Hb as [Hb|Hb].
    + destruct (HQ' b Hb) as (-> & _ & ->). split; [lia|done].
    + pose proof (HqR b Hb) as [? _]. lia.
  - intros a b Ha Hb. destruct (HQ' a Ha) as (_ & -> & ->). by apply HqR.
Qed.

(** the abstract effect of a request on its owner's locks *)
Definition updated (own' : list file_lock) : Prop := ∀ x t,
  range_at own' x t ↔
  if decide (s0 ≤ x ≤ e0) then t = fl_type q0 ∧ t ≠ F_UNLCK else range_at own x t.

Lemma assemble_range A L Q r q added lft Lf Qf Rf :
  walk_inv A L Q r q added lft →
  Forall (before q) Rf → (∀ l, l ∈ Lf → fl_end l = fl_start q - 1) →
  (Qf = [] ∧ fl_type q0 = F_UNLCK ∨
   ∃ q', Qf = [q'] ∧ fl_type q0 ≠ F_UNLCK ∧
      (fl_start q', fl_end q', fl_type q') = (fl_start q, fl_end q, fl_type q)) →
  (∀ x t, ¬ s0 ≤ x ≤ e0 → range_at (Lf ++ Rf) x t ↔ range_at (L ++ r) x t) →
  updated (A ++ Lf ++ Qf ++ Rf).
Proof.
  intros [] HqR HLe HQ Hsame x t. destruct wi_q0 as (Ht & Ho & Hqs & Hqe).
  assert (range_at Qf x t ↔ fl_start q ≤ x ≤ fl_end q ∧ fl_type q0 = t ∧ t ≠ F_UNLCK) as HQf.
  { destruct HQ as [[-> Hu]|(q' & -> & Hu & [= Es Ee Et])].
    - rewrite range_at_nil, Hu. naive_solver.
    - rewrite range_at_cons, range_at_nil, Es, Ee, Et, Ht. clear -Hu. intuition congruence. }
  destruct (decide (s0 ≤ x ≤ e0)) as [Hx|Hx].
  - rewrite !range_at_app, HQf, !range_at_out; [naive_solver lia|..].
    + eapply Forall_impl; [exact HqR|]. intros f [? _]. lia.
    + apply Forall_forall. intros f Hf%HLe. lia.
    + eapply Forall_impl; [exact wi_A0|]. intros f [? _]. lia.
  - rewrite <- wi_same0 by done. specialize (Hsame x t Hx). rewrite !range_at_app in Hsame. rewrite !range_at_app.
    assert (range_at Qf x t ↔ range_at Q x t) as HQQ; [|clear -HQQ Hsame; tauto].
    rewrite HQf. destruct wi_Q0 as [(_ & Hu & ->)|(-> & -> & _)].
    + rewrite range_at_cons, range_at_nil, Ht. clear -Hu. intuition congruence.
    + rewrite range_at_nil. clear -Hx. intuition lia.
Qed.

(** ** After the walk *)

Hypothesis q0_posix : IS_POSIX q0 = true.

(** trimming the neighbours *)
Lemma trims_spec q P L M R lft rgt s Lf Rf :
  NoDup (ids (P ++ L ++ M ++ R)) →
  (lft = None ∧ Lf = L ∨
   ∃ l, L = [l] ∧ lft = Some (fl_id l) ∧ Lf = [set_end (fl_start q - 1) l]) →
  (rgt = None ∧ Rf = R ∨
   ∃ h R', R = h :: R' ∧ rgt = Some (fl_id h) ∧ Rf = set_start (fl_end q + 1) h :: R') →
  let s := with_list (P ++ L ++ M ++ R) s in
  let s := match rgt with Some id => trim_right q id s | None => s end in
  let s := match lft with Some id => trim_left q id s | None => s end in
  i_flock s = P ++ Lf ++ M ++ Rf.
Proof.
  intros Hnd HL HR. simpl. set (s1 := match rgt with Some _ => _ | None => _ end).
  assert (i_flock s1 = P ++ L ++ M ++ Rf ∧ NoDup (ids (P ++ L ++ M ++ Rf))) as [Hs1 Hnd1].
  { destruct HR as [[-> ->]|(h & R' & -> & -> & ->)]; [done|]. unfold s1, trim_right. simpl.
    pose proof (upd_at (fl_id h) (set_start (fl_end q + 1)) (P ++ L ++ M) h R') as Hu.
    pose proof (ids_same (P ++ L ++ M) h (set_start (fl_end q + 1) h) R' eq_refl) as Hs.
    napp_in Hu. napp_in Hs. rewrite <- Hs. auto. }
  destruct HL as [[-> ->]|(l & -> & -> & ->)]; [done|]. simpl. rewrite Hs1. by apply upd_at.
Qed.

(** what follows the request, and the left neighbour once trimmed *)
Lemma right_part A L Q r q added1 added lft1 lft rgt :
  walk_inv A L Q r q added1 lft1 → walk_end L r q added1 added lft1 lft rgt →
  ∃ Rf, (rgt = None ∧ Rf = r ∨
         ∃ h R', r = h :: R' ∧ rgt = Some (fl_id h) ∧ Rf = set_start (fl_end q + 1) h :: R') ∧
        group_ok o Rf ∧ Forall (before q) Rf ∧ ids Rf = ids r.
Proof.
  intros Hi He. pose proof (wi_wf _ _ _ _ _ _ _ Hi) as Hw.
  pose proof (wi_sorted _ _ _ _ _ _ _ Hi) as Hs. pose proof (walk_bounds _ _ _ _ _ _ _ Hi) as (Hb & _).
  destruct (wi_q _ _ _ _ _ _ _ Hi) as (_ & _ & Hqs & Hqe).
  rewrite !StronglySorted_app in Hs. destruct Hs as (_ & _ & _ & _ & Hs).
  rewrite !Forall_app in Hw. destruct Hw as (_ & _ & _ & Hw).
  destruct He as [(-> & _ & _ & Hqr)|(h & r' & -> & -> & Ht & Hh & Hh2 & _)].
  { exists r. split_and!; try done. by left. }
  exists (set_start (fl_end q + 1) h :: r'). split_and!; [right; by exists h, r'|..|done].
  - inversion Hs; subst. inversion Hw as [|?? [[? ? ?] ?] ?]; subst. split.
    + constructor; [|done]. split; [|done]. constructor; simpl; [done..|lia].
    + by constructor.
  - inversion Hs as [|?? ? Hb']; subst. constructor; [split; simpl; [lia|congruence]|].
    eapply Forall_impl; [exact Hb'|]. intros g [? _]. split; lia.
Qed.

Lemma left_part A L Q r q added lft :
  walk_inv A L Q r q added lft →
  ∃ Lf, (lft = None ∧ Lf = L ∨
         ∃ l, L = [l] ∧ lft = Some (fl_id l) ∧ Lf = [set_end (fl_start q - 1) l]) ∧
        (Lf = [] ∨ ∃ l, Lf = [l] ∧ own_wf o l ∧ fl_end l = fl_start q - 1 ∧
                  fl_type l ≠ fl_type q ∧ Forall (λ f, before f l) A) ∧
        (∀ x t, ¬ s0 ≤ x ≤ e0 → range_at Lf x t ↔ range_at L x t) ∧ ids Lf = ids L.
Proof.
  intros Hi. pose proof (wi_sorted _ _ _ _ _ _ _ Hi) as Hs. pose proof (wi_wf _ _ _ _ _ _ _ Hi) as Hw.
  destruct (wi_L _ _ _ _ _ _ _ Hi) as [[-> ->]|(l & -> & -> & Ht & Hl & Hle & Hq)].
  { exists []. split_and!; try done; by left. }
  exists [set_end (fl_start q - 1) l]. split_and!; [right; by exists l|right|..|done].
  - rewrite !Forall_app, Forall_singleton in Hw. destruct Hw as (_ & [[? ? ?] ?] & _).
    rewrite !StronglySorted_app in Hs. destruct Hs as (Hs & _).
    eexists. split_and!; try done.
    + split; [|done]. constructor; simpl; [done..|lia].
    + apply Forall_forall. intros a Ha. apply (Hs a l); [done|]. set_solver.
  - intros x t Hx. rewrite !range_at_cons. simpl. split; intros [[? ?]|?]; try tauto; left; (split; [lia|done]).
Qed.

Lemma right_range A L Q h r q added lft x t :
  walk_inv A L Q (h :: r) q added lft → ¬ s0 ≤ x ≤ e0 →
  fl_start h ≤ fl_end q → fl_start q ≤ x ∨ fl_start q ≤ fl_start h →
  range_at (set_start (fl_end q + 1) h :: r) x t ↔ range_at (h :: r) x t.
Proof.
  intros [] Hx Hhq Hsh. rewrite !range_at_cons. simpl.
  assert (fl_start h ≤ x → fl_end q < x) as Hq; [|split; intros [[? ?]|?]; auto; left; split; auto; lia].
  intros Hhx. destruct wi_q0 as (_ & _ & ? & ?).
  assert (s0 ≤ x).
  { destruct wi_Q0 as [(-> & _)|(_ & -> & _)]; [|lia].
    specialize (wi_r0 eq_refl). rewrite Forall_cons in wi_r0. lia. }
  destruct wi_end0 as [?|Hr]; [lia|]. rewrite Forall_cons in Hr. lia.
Qed.

(** the request itself in the list: already there, or a new structure *)
Lemma request_part A L Q r q added1 added lft1 lft rgt nf new :
  walk_inv A L Q r q added1 lft1 → walk_end L r q added1 added lft1 lft rgt →
  negb added && (fl_type q =? F_UNLCK) = false →
  (if added then Some [] else (λ id, [locks_copy_lock id q]) <$> nf) = Some new →
  (Q ++ new = [] ∧ fl_type q0 = F_UNLCK ∨
   ∃ q', Q ++ new = [q'] ∧ fl_type q0 ≠ F_UNLCK ∧ own_wf o q' ∧
     (fl_start q', fl_end q', fl_type q') = (fl_start q, fl_end q, fl_type q)).
Proof.
  intros Hi He Hu Hn. destruct (wi_q _ _ _ _ _ _ _ Hi) as (Ht & Ho & Hqs & Hqe).
  pose proof (walk_bounds _ _ _ _ _ _ _ Hi) as (Hb1 & Hb2 & _).
  assert (added = true → added1 = true ∨ fl_type q0 = F_UNLCK) as Ha.
  { intros ->. destruct He as [(_ & <- & _)|(h & r' & _ & _ & _ & _ & _ & Hadd & _)]; [by left|].
    rewrite <- Ht. destruct (fl_type q =? F_UNLCK) eqn:E; bprop; [by right|by left]. }
  assert (added = false → added1 = false) as Hb.
  { intros ->. destruct He as [(_ & <- & _)|(h & r' & _ & _ & _ & _ & _ & Hadd & _)]; [done|].
    by destruct (fl_type q =? F_UNLCK). }
  pose proof (wi_wf _ _ _ _ _ _ _ Hi) as Hw. rewrite !Forall_app in Hw.
  destruct (wi_Q _ _ _ _ _ _ _ Hi) as [(-> & Hu' & ->)|(-> & -> & Ha1)].
  - right. exists q. destruct added; [|naive_solver]. simplify_eq/=.
    destruct Hw as (_ & _ & Hw & _). by inversion Hw.
  - destruct added; simplify_eq/=.
    + left. split; [done|]. destruct (Ha eq_refl) as [->|?]; [by apply Ha1|done].
    + right. destruct nf as [id|]; simplify_eq/=. eexists. split_and!; try done.
      { by apply Z.eqb_neq. }
      split; [|done]. constructor; simpl; [done| |lia]. bprop. tauto.
Qed.

(** a structure that was not to be had and is needed *)
Definition no_memory (nf nf2 : option Z) : Prop :=
  nf = None ∧ fl_type q0 ≠ F_UNLCK ∨
  nf2 = None ∧ ∃ f, f ∈ own ∧ fl_start f < s0 ∧ e0 < fl_end f.

(** what a request comes to *)
Definition outcome (nf nf2 : option Z) (r : cres Z * flocks) : Prop :=
  (r.1 = Ret 0 ∧ ∃ own', i_flock r.2 = pre ++ own' ++ post ∧ group_ok o own' ∧ updated own' ∧
     ids (pre ++ own' ++ post) ⊆+ option_list nf ++ option_list nf2 ++ ids (pre ++ own ++ post)) ∨
  (r.1 = Err ENOLCK ∧ i_flock r.2 = pre ++ own ++ post ∧ no_memory nf nf2) ∨
  (r.1 = Err ENOENT ∧ i_flock r.2 = pre ++ own ++ post ∧ fl_type q0 = F_UNLCK ∧
     has_flag q0 FL_EXISTS = true ∧ ∀ x t, s0 ≤ x ≤ e0 → ¬ range_at own x t).

Lemma find_right id rest :
  List.find (λ x, opt_eqb (Some (fl_id x)) id) rest = None ∨
  ∃ x, List.find (λ x, opt_eqb (Some (fl_id x)) id) rest = Some x ∧ id = Some (fl_id x).
Proof.
  destruct (List.find _ _) as [x|] eqn:E; [right|by left]. exists x. split; [done|].
  apply find_some in E as [_ E]. by apply bool_decide_eq_true in E.
Qed.

(** the neighbours are two locks, or there is at most one *)
Lemma finish_plain nf nf2 A L Q r q added1 added lft1 rgt s new :
  walk_inv A L Q r q added1 lft1 → walk_end L r q added1 added lft1 lft1 rgt →
  (rgt = None ∨ lft1 ≠ rgt) → (∀ h r', r = h :: r' → rgt = None ∨ fl_start q ≤ fl_start h) →
  NoDup (ids (pre ++ A ++ L ++ (Q ++ new) ++ r ++ post)) →
  negb added && (fl_type q =? F_UNLCK) = false →
  (if added then Some [] else (λ id, [locks_copy_lock id q]) <$> nf) = Some new →
  ∃ own' s', posix_finish nf nf2 (MkWalk (pre ++ A ++ L ++ Q) (r ++ post) q added lft1 rgt s) =
      (Ret 0, s') ∧ i_flock s' = pre ++ own' ++ post ∧ group_ok o own' ∧ updated own' ∧
      ids own' = ids (A ++ L ++ (Q ++ new) ++ r).
Proof.
  intros Hi He Hne Hstart Hnd Hu Hn.
  destruct (right_part _ _ _ _ _ _ _ _ _ _ Hi He) as (Rf & HR & HgR & HqR & HidR).
  destruct (left_part _ _ _ _ _ _ _ Hi) as (Lf & HL & HLf & HLr & HidL).
  pose proof (request_part _ _ _ _ _ _ _ _ _ _ _ _ Hi He Hu Hn) as HQ.
  exists (A ++ Lf ++ (Q ++ new) ++ Rf). eexists. split_and!.
  - unfold posix_finish. rewrite bool_decide_eq_false_2 by naive_solver.
    rewrite Hu, Hn.
    assert ((match nf2, List.find (λ x, opt_eqb (Some (fl_id x)) rgt) (r ++ post) with
        | Some id2, Some fl => if opt_eqb lft1 rgt then (Some id2, [locks_copy_lock id2 fl])
                               else (lft1, []) | _, _ => (lft1, []) end) = (lft1, [])) as ->.
    { destruct nf2; [|done]. destruct (find_right rgt (r ++ post)) as [->|(x & -> & E)]; [done|].
      unfold opt_eqb. rewrite bool_decide_eq_false_2; [done|]. naive_solver. }
    replace ((pre ++ A ++ L ++ Q) ++ [] ++ new ++ r ++ post)
      with ((pre ++ A) ++ L ++ (Q ++ new) ++ r ++ post) by (by napp). reflexivity.
  - rewrite (trims_spec q (pre ++ A) L (Q ++ new) (r ++ post) lft1 rgt s Lf (Rf ++ post));
      [by napp|by napp_in Hnd; napp|done|].
    destruct HR as [[-> ->]|(h & R' & -> & -> & ->)]; [by left|right]. by exists h, (R' ++ post).
  - pose proof (wi_wf _ _ _ _ _ _ _ Hi) as Hw. rewrite Forall_app in Hw.
    pose proof (wi_sorted _ _ _ _ _ _ _ Hi) as Hs. rewrite StronglySorted_app in Hs.
    destruct (wi_q _ _ _ _ _ _ _ Hi) as (_ & _ & ? & ?).
    apply assemble with q; try done; [lia|by split; [apply Hw|apply Hs]|apply Hi|].
    destruct HQ as [[? _]|(q' & ? & _ & ? & ?)]; [by left|right; by exists q'].
  - eapply assemble_range; try done.
    + destruct HLf as [->|(l & -> & _ & ? & _)]; [by intros ? ?%elem_of_nil|].
      by intros ? ->%list_elem_of_singleton.
    + destruct HQ as [?|(q' & ? & ? & _ & ?)]; [by left|right; by exists q'].
    + intros x t Hx. rewrite !range_at_app, HLr by done.
      destruct HR as [[-> ->]|(h & R' & -> & -> & ->)]; [done|].
      destruct (Hstart h R' eq_refl) as [?|Hsh]; [done|].
      destruct He as [(? & _)|(? & ? & [= <- <-] & _ & _ & ? & _)]; [done|].
      rewrite (right_range _ _ _ _ _ _ _ _ _ _ Hi); [done|lia..].
  - rewrite !ids_app. congruence.
Qed.

(** a lock that reaches past both ends of the request is the only neighbour *)
Lemma walk_split A L Q h r q added lft :
  walk_inv A L Q (h :: r) q added lft → fl_start h < fl_start q → fl_start q ≤ fl_end h →
  L = [] ∧ Q = [] ∧ added = false ∧ q = q0.
Proof.
  intros Hi Hb1 Hb2. destruct (walk_facts _ _ _ _ _ _ _ _ Hi) as (_ & _ & HLf & Hna & _ & _).
  destruct Hi, wi_q0 as (_ & _ & Hqs & _). destruct added.
  { specialize (wi_r0 eq_refl). rewrite Forall_cons in wi_r0. lia. }
  destruct (Hna eq_refl) as [-> ->]. split_and!; try done.
  destruct wi_L0 as [[-> _]|(l & -> & _ & _ & Hl & _)]; [done|].
  rewrite Forall_singleton in HLf. destruct HLf. lia.
Qed.

Lemma finish_split nf id2 A h r added rgt s new :
  walk_inv A [] [] (h :: r) q0 false None → rgt = Some (fl_id h) →
  walk_end [] (h :: r) q0 false added None rgt rgt → fl_start h < s0 →
  NoDup (ids (pre ++ A ++ [locks_copy_lock id2 h] ++ new ++ h :: r ++ post)) →
  negb added && (fl_type q0 =? F_UNLCK) = false →
  (if added then Some [] else (λ id, [locks_copy_lock id q0]) <$> nf) = Some new →
  ∃ own' s', posix_finish nf (Some id2) (MkWalk (pre ++ A) (h :: r ++ post) q0 added rgt rgt s) =
      (Ret 0, s') ∧ i_flock s' = pre ++ own' ++ post ∧ group_ok o own' ∧ updated own' ∧
      ids own' = ids (A ++ [locks_copy_lock id2 h] ++ new ++ h :: r).
Proof.
  intros Hi Er He Hs0 Hnd Hu Hn.
  destruct (right_part _ _ _ _ _ _ _ _ _ _ Hi He) as (Rf & HR & HgR & HqR & HidR).
  pose proof (request_part _ _ _ _ _ _ _ _ _ _ _ _ Hi He Hu Hn) as HQ. simpl in HQ.
  pose proof (walk_facts _ _ _ _ _ _ _ _ Hi) as ([[Hwp Hwt Hwr] Hwo] & _).
  assert (Rf = set_start (e0 + 1) h :: r ∧ fl_type h ≠ fl_type q0 ∧ fl_start h ≤ e0 < fl_end h)
    as (-> & Hth & Hhe).
  { destruct HR as [[? _]|(? & ? & [= <- <-] & _ & ->)]; [congruence|]. split; [done|].
    destruct He as [(? & _)|(? & ? & [= <- <-] & _ & ? & ? & _)]; [congruence|done]. }
  pose proof (wi_wf _ _ _ _ _ _ _ Hi) as Hw. rewrite Forall_app in Hw.
  pose proof (wi_sorted _ _ _ _ _ _ _ Hi) as Hs. rewrite StronglySorted_app in Hs.
  set (l := locks_copy_lock id2 h) in *.
  exists (A ++ [set_end (s0 - 1) l] ++ new ++ set_start (e0 + 1) h :: r). eexists. split_and!.
  - unfold posix_finish. rewrite bool_decide_eq_false_2 by naive_solver. rewrite Hu, Hn. simpl.
    unfold opt_eqb. rewrite Er, !bool_decide_eq_true_2 by done. fold l.
    replace ((pre ++ A) ++ [l] ++ new ++ h :: r ++ post)
      with ((pre ++ A) ++ [l] ++ new ++ (h :: r) ++ post) by done. reflexivity.
  - etrans; [apply (trims_spec q0 (pre ++ A) [l] new ((h :: r) ++ post) (Some id2) (Some (fl_id h))
      s [set_end (s0 - 1) l] (set_start (e0 + 1) h :: r ++ post))|by napp].
    + by rewrite <- app_assoc.
    + right. by exists l.
    + right. by exists h, (r ++ post).
  - apply assemble with q0; try done; [by split; [apply Hw|apply Hs]|apply Hi|right|].
    + eexists. split_and!; try done.
      * split; [|done]. constructor; simpl; [done..|lia].
      * apply Forall_forall. intros a Ha. apply (proj1 Hs a h); [done|]. constructor.
    + destruct HQ as [[? _]|(q' & ? & _ & ? & ?)]; [by left|right; by exists q'].
  - eapply assemble_range; try done.
    + by intros ? ->%list_elem_of_singleton.
    + destruct HQ as [?|(q' & ? & ? & _ & ?)]; [by left|right; by exists q'].
    + intros x t Hx. simpl. rewrite !range_at_cons. simpl.
      clear -Hx Hhe Hs0 q0_range. split; [intros [[? ?]|[[? ?]|?]]|intros [[? ?]|?]]; try tauto; try (left; split; [lia|done]).
      destruct (Z.lt_ge_cases x s0); [left|right; left]; (split; [lia|done]).
  - rewrite !ids_app. done.
Qed.

Hypothesis own_ok : group_ok o own.

(** nothing was changed before the walk found a place for the request *)
Lemma walk_unchanged A L Q r q lft :
  walk_inv A L Q r q false lft →
  Q = [] ∧ q = q0 ∧ (pre ++ A ++ L ++ Q) ++ r ++ post = pre ++ own ++ post.
Proof.
  intros []. destruct (wi_none0 eq_refl) as [-> _].
  destruct wi_Q0 as [(? & _)|(-> & -> & _)]; [done|]. split_and!; try done. by napp.
Qed.

(** unlocking a range without locks *)
Lemma finish_unlock_none A L Q r q lft nf nf2 s :
  walk_inv A L Q r q false lft → Forall (before q) r → fl_type q0 = F_UNLCK →
  outcome nf nf2 (posix_finish nf nf2
    (MkWalk (pre ++ A ++ L ++ Q) (r ++ post) q false lft None s)).
Proof.
  intros Hi Hr Hu. destruct (walk_unchanged _ _ _ _ _ _ Hi) as (-> & -> & Hl).
  unfold posix_finish. rewrite bool_decide_eq_false_2 by naive_solver.
  rewrite (proj2 (Z.eqb_eq _ _)) by done. simpl. unfold outcome. simpl. rewrite Hl.
  destruct (wi_none _ _ _ _ _ _ _ Hi eq_refl) as [Hown HL]. rewrite (HL Hu) in Hown. simpl in Hown.
  assert (∀ x t, s0 ≤ x ≤ e0 → ¬ range_at own x t) as Hno.
  { intros x t Hx. rewrite Hown, range_at_app, !range_at_out; [tauto|..].
    - eapply Forall_impl; [exact Hr|]. intros f [? _]. lia.
    - eapply Forall_impl; [apply (wi_A _ _ _ _ _ _ _ Hi)|]. intros f [? _]. lia. }
  destruct (has_flag q0 FL_EXISTS); [right; right; by split_and!|left].
  split; [done|]. exists own. split_and!; try done.
  - intros x t. case_decide as Hx; [|done]. specialize (Hno x t Hx). naive_solver.
  - apply submseteq_inserts_l, submseteq_inserts_l. done.
Qed.

(** the list with new structures in it *)
Lemma keeps_new nf nf2 A L Q r :
  keeps_ids (pre ++ A ++ L ++ Q ++ r ++ post) →
  NoDup (option_list nf ++ option_list nf2 ++ ids (pre ++ own ++ post)) →
  ∀ X Y k, ids X ⊆+ option_list nf2 → ids Y ⊆+ option_list nf →
    k ≡ₚ pre ++ A ++ L ++ Q ++ r ++ post ++ X ++ Y →
  ids k ⊆+ option_list nf ++ option_list nf2 ++ ids (pre ++ own ++ post) ∧ NoDup (ids k).
Proof.
  intros Hk Hnd X Y k HX HY Hp.
  assert (ids k ⊆+ option_list nf ++ option_list nf2 ++ ids (pre ++ own ++ post)) as H.
  { transitivity (ids Y ++ ids X ++ ids (pre ++ A ++ L ++ Q ++ r ++ post)).
    - apply Permutation_submseteq. unfold ids. rewrite Hp, !fmap_app. solve_Permutation.
    - apply submseteq_app; [done|]. apply submseteq_app; [done|]. by apply sublist_submseteq. }
  split; [done|]. by eapply submseteq_NoDup.
Qed.

Section Finish.
Context (nf nf2 : option Z).
Context (A L Q r : list file_lock) (q : file_lock) (added1 added : bool).
Context (lft1 lft rgt : option Z) (s : flocks).
Hypothesis Hi : walk_inv A L Q r q added1 lft1.
Hypothesis He : walk_end L r q added1 added lft1 lft rgt.
Hypothesis Hk : keeps_ids (pre ++ A ++ L ++ Q ++ r ++ post).
Hypothesis Hfresh : NoDup (option_list nf ++ option_list nf2 ++ ids (pre ++ own ++ post)).

Lemma walk_end_added : added = false → added1 = false ∧ (rgt = None ∨ fl_type q0 ≠ F_UNLCK).
Proof.
  pose proof (wi_q _ _ _ _ _ _ _ Hi) as (Ht & _). intros Hf.
  destruct He as [(-> & <- & _)|(h & r' & _ & _ & _ & _ & _ & Hadd & _)]; [auto|].
  rewrite Ht, Hf in Hadd. destruct (fl_type q0 =? F_UNLCK) eqn:E; [done|]. bprop. auto.
Qed.

Lemma finish_fails :
  added1 = false → no_memory nf nf2 →
  outcome nf nf2 (Err ENOLCK, with_list ((pre ++ A ++ L ++ Q) ++ r ++ post) s).
Proof.
  intros Ha Hn. pose proof Hi as Hj. rewrite Ha in Hj.
  destruct (walk_unchanged _ _ _ _ _ _ Hj) as (_ & _ & ->).
  right. by left.
Qed.

Lemma new_ids new :
  (if added then Some [] else (λ id, [locks_copy_lock id q]) <$> nf) = Some new →
  ids new ⊆+ option_list nf.
Proof.
  destruct added; [intros [= <-]; apply submseteq_nil_l|]. by destruct nf; intros [= <-].
Qed.

Lemma lft1_not_right h r' : r = h :: r' → lft1 ≠ Some (fl_id h).
Proof.
  intros Hr Hl. destruct (wi_L _ _ _ _ _ _ _ Hi) as [[_ ?]|(l & HL & Hll & _)]; [congruence|].
  destruct (keeps_new _ _ _ _ _ _ Hk Hfresh [] [] (pre ++ A ++ L ++ Q ++ r ++ post))
    as [_ Hnd]; [apply submseteq_nil_l..|by rewrite !app_nil_r|].
  rewrite HL, Hr, !ids_app in Hnd. simpl in Hnd.
  assert (fl_id l = fl_id h) as Hid by congruence. rewrite Hid in Hnd.
  apply NoDup_app in Hnd as (_ & _ & Hnd). apply NoDup_app in Hnd as (_ & _ & Hnd).
  apply NoDup_cons in Hnd as [Hnd _]. apply Hnd. set_solver.
Qed.

Lemma walk_end_cases :
  (∃ h r', r = h :: r' ∧ rgt = Some (fl_id h) ∧ lft = rgt ∧ fl_start h < fl_start q ∧
           fl_start q ≤ fl_end h) ∨
  lft = lft1 ∧ (rgt = None ∨ lft1 ≠ rgt) ∧
  ∀ h r', r = h :: r' → rgt = None ∨ fl_start q ≤ fl_start h.
Proof.
  pose proof He as He'.
  destruct He' as [(Hr & _ & Hl & _)|(h & r' & Hr & Hrg & _ & _ & ? & _ & Hl)]; [right; auto|].
  rewrite Hrg. destruct (fl_start h <? fl_start q) eqn:E; bprop; [left; by exists h, r'|right].
  split_and!; [done|right; by eapply lft1_not_right|]. intros. right. congruence.
Qed.

Lemma finish_split_ok new :
  (if added then Some [] else (λ id, [locks_copy_lock id q]) <$> nf) = Some new →
  negb added && (fl_type q =? F_UNLCK) = false →
  (∃ h r', r = h :: r' ∧ rgt = Some (fl_id h) ∧ lft = rgt ∧ fl_start h < fl_start q ∧
           fl_start q ≤ fl_end h) →
  outcome nf nf2 (posix_finish nf nf2
    (MkWalk (pre ++ A ++ L ++ Q) (r ++ post) q added lft rgt s)).
Proof.
  intros Hn Hu (h & r' & Hr & Hrgt & Hlft & Hh & Hh2). pose proof (new_ids _ Hn) as Hnids.
  pose proof Hi as Hj. rewrite Hr in Hj.
  destruct (walk_split _ _ _ _ _ _ _ _ Hj Hh Hh2) as (HL & HQ & Ha1 & Hq).
  destruct (decide (nf2 = None)) as [Hn2|[id2 Hid2]%not_eq_None_Some].
  { unfold posix_finish. rewrite bool_decide_eq_true_2 by (split_and!; congruence).
    apply finish_fails; [done|]. right. split; [done|]. rewrite Ha1 in Hj. exists h.
    destruct (wi_none _ _ _ _ _ _ _ Hj eq_refl) as [-> _]. split_and!; [set_solver|congruence|].
    destruct He as [(? & _)|(? & ? & ? & _ & _ & ? & _)]; [congruence|]. simplify_eq. lia. }
  destruct (keeps_new _ _ _ _ _ _ Hk Hfresh [locks_copy_lock id2 h] new
    (pre ++ (A ++ [locks_copy_lock id2 h] ++ new ++ h :: r') ++ post)) as [Hsub Hnd];
    [by rewrite Hid2|done|..].
  { rewrite HL, HQ, Hr. simpl. solve_Permutation. }
  rewrite HL, HQ, Ha1, Hq in Hj. assert (lft1 = None) as Hl1.
  { destruct (wi_L _ _ _ _ _ _ _ Hj) as [[_ ?]|(? & ? & _)]; done. }
  rewrite Hl1 in Hj. pose proof He as He'.
  rewrite HL, Hr, Hq, Ha1, Hl1, Hlft in He'. rewrite Hq in Hn, Hu.
  destruct (finish_split nf id2 A h r' added rgt s new Hj Hrgt He')
    as (own' & s' & Hf & Hs' & Hg & Hup & Hid); [by rewrite <- Hq|by napp_in Hnd; napp|done..|].
  rewrite HL, HQ, Hr, Hlft, Hq, Hid2, !app_nil_r.
  change ((h :: r') ++ post) with (h :: r' ++ post). rewrite Hf. left. split; [done|].
  exists own'. split_and!; try done. rewrite <- Hid2. etrans; [|exact Hsub].
  rewrite !ids_app. rewrite Hid, !ids_app. done.
Qed.

Lemma posix_finish_spec :
  outcome nf nf2 (posix_finish nf nf2
    (MkWalk (pre ++ A ++ L ++ Q) (r ++ post) q added lft rgt s)).
Proof.
  pose proof (wi_q _ _ _ _ _ _ _ Hi) as (Ht & _). pose proof finish_fails as Hfail.
  pose proof (keeps_new _ _ _ _ _ _ Hk Hfresh) as Hnew.
  destruct (negb added && (fl_type q =? F_UNLCK)) eqn:Hu.
  { apply andb_true_iff in Hu as [Ha%negb_true_iff Hu%Z.eqb_eq].
    destruct (walk_end_added Ha) as [Ha1 [Hr|?]]; [|congruence].
    pose proof He as He'. destruct He' as [(_ & _ & -> & Hq)|(? & ? & _ & ? & _)]; [|congruence].
    rewrite Ha, Hr. pose proof Hi as Hj. rewrite Ha1 in Hj.
    apply finish_unlock_none; [done..|congruence]. }
  destruct (if added then Some [] else (λ id, [locks_copy_lock id q]) <$> nf) as [new|] eqn:Hn.
  2:{ unfold posix_finish. rewrite Hu, Hn. destruct (walk_end_added) as [Ha1 _]; [by destruct added|].
      assert (no_memory nf nf2).
      { left. destruct added, nf; try done. simpl in Hu. split; [done|]. by apply Z.eqb_neq; rewrite <- Ht. }
      case_bool_decide; auto. }
  pose proof (new_ids _ Hn) as Hnids.
  destruct walk_end_cases as [Hs|(Hl & Hne & Hst)]; [by eapply finish_split_ok|].
  destruct (Hnew [] new (pre ++ (A ++ L ++ (Q ++ new) ++ r) ++ post)) as [Hsub Hnd];
    [apply submseteq_nil_l|done|solve_Permutation|].
  assert (walk_end L r q added1 added lft1 lft1 rgt) as He' by congruence.
  destruct (finish_plain nf nf2 _ _ _ _ _ _ _ _ _ s new Hi He' Hne Hst)
    as (own' & s' & Hf & Hs' & Hg & Hup & Hid); [by napp_in Hnd; napp|done..|].
  rewrite Hl, Hf. left. split; [done|]. exists own'. split_and!; try done.
  etrans; [|exact Hsub]. rewrite (ids_app pre), (ids_app own'), Hid, !ids_app. done.
Qed.
End Finish.

(** ** A request on the owner's locks *)

Lemma own_start : walk_inv [] [] [] own q0 false None.
Proof.
  destruct own_ok as [Hw Hs]. constructor; simpl; try done.
  - by left.
  - right. split_and!; done.
  - by left.
Qed.

Lemma own_request nf nf2 s :
  NoDup (option_list nf ++ option_list nf2 ++ ids (pre ++ own ++ post)) →
  outcome nf nf2 (posix_finish nf nf2 (own_walk pre (own ++ post) q0 false None s)).
Proof.
  intros Hf. destruct (own_walk_spec own [] [] [] q0 false None s own_start)
    as (A & L & Q & r & q & added1 & added & lft1 & lft & rgt & s' & Hw & Hi & He & Hk).
  { unfold keeps_ids. done. }
  simpl in Hw. rewrite app_nil_r in Hw. rewrite Hw. by eapply posix_finish_spec.
Qed.

End Walk.

(** ** The whole list *)

(** locks of other kinds first, then the POSIX locks, grouped by owner *)
Record list_ok (l : list file_lock) : Prop := {
  lo_ids : NoDup (ids l);
  lo_groups : ∃ np (gs : list (Z * list file_lock)),
    l = np ++ concat gs.*2 ∧ Forall (λ f, IS_POSIX f = false) np ∧ NoDup gs.*1 ∧
    Forall (λ g, g.2 ≠ [] ∧ group_ok g.1 g.2) gs
}.

(** what the owner has, and what lies around it *)
Record owner_split (o : Z) (l pre own post : list file_lock) : Prop := {
  os_list : l = pre ++ own ++ post;
  os_own : group_ok o own;
  os_pre : Forall (λ f, IS_POSIX f = true → fl_owner f ≠ o) pre;
  os_post : Forall (λ f, IS_POSIX f = true ∧ fl_owner f ≠ o) post;
  os_empty : own = [] → post = [];
  os_rebuild own' : group_ok o own' → NoDup (ids (pre ++ own' ++ post)) →
    list_ok (pre ++ own' ++ post)
}.

Lemma group_concat gs :
  Forall (λ g : Z * list file_lock, g.2 ≠ [] ∧ group_ok g.1 g.2) gs →
  Forall (λ f, IS_POSIX f = true ∧ fl_owner f ∈ gs.*1) (concat gs.*2).
Proof.
  induction 1 as [|[o own] gs [_ [Hg _]] _ IH]; [constructor|]. simpl in *. apply Forall_app. split.
  - eapply Forall_impl; [exact Hg|]. intros f [[? _ _] ->]. split; [done|constructor].
  - eapply Forall_impl; [exact IH|]. intros f [? ?]. split; [done|by constructor].
Qed.

Lemma group_ok_nil o : group_ok o [].
Proof. split; constructor. Qed.

Lemma list_ok_split o l : list_ok l → ∃ pre own post, owner_split o l pre own post.
Proof.
  intros [Hids (np & gs & -> & Hnp & Hnd & Hgs)].
  pose proof (group_concat _ Hgs) as Hc.
  destruct (decide (o ∈ gs.*1)) as [Hin|Hin].
  - apply list_elem_of_fmap in Hin as ([o' own] & -> & Hin). simpl.
    apply list_elem_of_split in Hin as (g1 & g2 & ->).
    rewrite !fmap_app in *. simpl in *. rewrite concat_app in *. simpl in *.
    apply Forall_app in Hgs as [Hg1 Hgs]. inversion Hgs as [|? ? [Hne Hg] Hg2]; subst. simpl in *.
    apply NoDup_app in Hnd as (Hn1 & Hn2 & [Hn3 Hn4]%NoDup_cons).
    exists (np ++ concat g1.*2), own, (concat g2.*2). constructor; try done.
    + by rewrite <- app_assoc.
    + apply Forall_app. split; [eapply Forall_impl; [exact Hnp|]; simpl; congruence|].
      eapply Forall_impl; [exact (group_concat _ Hg1)|]. intros f [_ Hf] _ E.
      rewrite E in Hf. apply (Hn2 _ Hf). constructor.
    + eapply Forall_impl; [exact (group_concat _ Hg2)|]. intros f [? Hf]. split; [done|].
      intros E. by rewrite E in Hf.
    + intros own' Hg' Hid'. split; [done|]. rewrite <- app_assoc in *.
      destruct own' as [|f own'].
      * exists np, (g1 ++ g2). rewrite !fmap_app, concat_app. split_and!; try done.
        { apply NoDup_app. split_and!; [done| |done]. intros x Hx Hx'. apply (Hn2 x Hx). by constructor. }
        { by apply Forall_app. }
      * exists np, (g1 ++ (o', f :: own') :: g2). rewrite !fmap_app. simpl. rewrite concat_app.
        split_and!; try done.
        { apply NoDup_app. split_and!; [done|done|by apply NoDup_cons]. }
        { apply Forall_app. split; [done|]. by constructor. }
  - exists (np ++ concat gs.*2), [], []. constructor; try done.
    + by rewrite !app_nil_r.
    + apply group_ok_nil.
    + apply Forall_app. split; [eapply Forall_impl; [exact Hnp|]; simpl; congruence|].
      eapply Forall_impl; [exact Hc|]. intros f [_ Hf] _ E. by rewrite E in Hf.
    + intros own' Hg' Hid'. split; [done|]. rewrite app_nil_r in *. destruct own' as [|f own'].
      * exists np, gs. by rewrite app_nil_r.
      * exists np, (gs ++ [(o, f :: own')]). rewrite !fmap_app, concat_app, <- app_assoc. simpl.
        rewrite app_nil_r. split_and!; try done.
        { apply NoDup_app. split_and!; [done| |apply NoDup_singleton].
          intros x Hx ->%list_elem_of_singleton. done. }
        { apply Forall_app. split; [done|]. by constructor. }
Qed.

Lemma skip_others_spec q pre own post done :
  Forall (λ f, IS_POSIX f = true → fl_owner f ≠ fl_owner q) pre →
  group_ok (fl_owner q) own → (own = [] → post = []) →
  skip_others done (pre ++ own ++ post) q = (done ++ pre, own ++ post).
Proof.
  intros Hp [Ho _] He. revert done. induction Hp as [|f pre Hf _ IH]; intros done; simpl.
  - rewrite app_nil_r. destruct own as [|g own]; [by rewrite He|]. simpl.
    inversion Ho as [|? ? [[Hpo _ _] Hgo] _]; subst. unfold posix_same_owner.
    by rewrite Hpo, Hgo, Z.eqb_refl.
  - unfold posix_same_owner at 1.
    replace (negb (IS_POSIX f) || negb (fl_owner q =? fl_owner f)) with true.
    { rewrite IH. by rewrite <- app_assoc. }
    destruct (IS_POSIX f); [|done]. by rewrite (proj2 (Z.eqb_neq _ _)) by (intros ?; by apply Hf).
Qed.

(** ** The abstract table *)

Definition table := Z → Z → option Z.

Definition conflicts (T : table) (q : file_lock) : Prop :=
  ∃ o x t, o ≠ fl_owner q ∧ fl_start q ≤ x ≤ fl_end q ∧ T o x = Some t ∧
    (t = F_WRLCK ∨ fl_type q = F_WRLCK).

Definition table_set (T : table) (q : file_lock) : table := λ o x,
  if (o =? fl_owner q) && in_range x q
  then if fl_type q =? F_UNLCK then None else Some (fl_type q)
  else T o x.

(** what a request may do to the table; [mem] says whether the structures it
    may need could be allocated *)
Inductive table_step (mem : bool) (T : table) (q : file_lock) : cres Z → table → Prop :=
  | ts_granted T' : has_flag q FL_ACCESS = false → ¬ (fl_type q ≠ F_UNLCK ∧ conflicts T q) →
      (∀ o x, T' o x = table_set T q o x) → table_step mem T q (Ret 0) T'
  | ts_tested : has_flag q FL_ACCESS = true → ¬ (fl_type q ≠ F_UNLCK ∧ conflicts T q) →
      table_step mem T q (Ret 0) T
  | ts_refused : fl_type q ≠ F_UNLCK → conflicts T q → has_flag q FL_SLEEP = false →
      table_step mem T q (Err EAGAIN) T
  | ts_blocked : fl_type q ≠ F_UNLCK → conflicts T q → has_flag q FL_SLEEP = true →
      table_step mem T q (Ret FILE_LOCK_DEFERRED) T
  | ts_deadlock : fl_type q ≠ F_UNLCK → conflicts T q → has_flag q FL_SLEEP = true →
      table_step mem T q (Err EDEADLK) T
  | ts_none : fl_type q = F_UNLCK → has_flag q FL_EXISTS = true →
      (∀ x, fl_start q ≤ x ≤ fl_end q → T (fl_owner q) x = None) → table_step mem T q (Err ENOENT) T
  | ts_memory : mem = false →
      ¬ (fl_type q = F_UNLCK ∧ fl_start q = 0 ∧ fl_end q = OFFSET_MAX) →
      table_step mem T q (Err ENOLCK) T.

(** no two owners hold conflicting locks on a byte *)
Definition exclusive (T : table) : Prop := ∀ o o' x t t',
  o ≠ o' → T o x = Some t → T o' x = Some t' → t = F_RDLCK ∧ t' = F_RDLCK.

Lemma lock_at_skip pre l o x :
  Forall (λ f, IS_POSIX f = true → fl_owner f ≠ o) pre → lock_at (pre ++ l) o x = lock_at l o x.
Proof.
  intros H. unfold lock_at. f_equal. induction H as [|f pre Hf _ IH]; [done|]. simpl.
  rewrite IH. destruct (IS_POSIX f); [|done]. by rewrite (proj2 (Z.eqb_neq _ _)) by auto.
Qed.

Lemma find_none_app {A} (P : A → bool) l k : List.find P k = None → List.find P (l ++ k) = List.find P l.
Proof. intros H. induction l as [|a l IH]; simpl; [done|]. by destruct (P a). Qed.

Lemma lock_at_drop l post o x :
  Forall (λ f, IS_POSIX f = true → fl_owner f ≠ o) post → lock_at (l ++ post) o x = lock_at l o x.
Proof.
  intros H. unfold lock_at. rewrite find_none_app; [done|].
  pose proof (lock_at_skip post [] o x H) as E. unfold lock_at in E. rewrite app_nil_r in E. simpl in E.
  by destruct (List.find _ post).
Qed.

(** in a sorted group the first lock on a byte is the only one *)
Lemma lock_at_group o own x t : group_ok o own → lock_at own o x = Some t ↔ range_at own x t.
Proof.
  intros [Hw Hs]. unfold lock_at. induction Hs as [|f own Hs IH Hf]; [by rewrite range_at_nil|].
  inversion Hw as [|? ? [[Hp ? Hr] Ho] Hw']; subst. simpl. rewrite Hp, Z.eqb_refl, range_at_cons. simpl.
  destruct (in_range x f) eqn:E; unfold in_range in E; bprop; simpl.
  - rewrite range_at_out; [naive_solver|]. eapply Forall_impl; [exact Hf|]. intros g [? _]. lia.
  - rewrite IH by done. naive_solver lia.
Qed.

Lemma lock_at_split o l pre own post x t :
  owner_split o l pre own post → lock_at l o x = Some t ↔ range_at own x t.
Proof.
  intros []. subst. rewrite lock_at_skip by done.
  rewrite lock_at_drop by (eapply Forall_impl; [done|]; naive_solver). by apply lock_at_group.
Qed.

Lemma lock_at_other o o' pre own own' post x :
  o' ≠ o → group_ok o own → group_ok o own' →
  lock_at (pre ++ own' ++ post) o' x = lock_at (pre ++ own ++ post) o' x.
Proof.
  intros Hne Hg Hg'.
  assert (∀ k, group_ok o k → ∀ l, lock_at (k ++ l) o' x = lock_at l o' x) as Hk.
  { intros k [Hk _] l. apply lock_at_skip. eapply Forall_impl; [exact Hk|]. intros f [_ ->]. done. }
  unfold lock_at. induction pre as [|f pre IH]; simpl.
  - fold (lock_at (own' ++ post) o' x) (lock_at (own ++ post) o' x). by rewrite !Hk.
  - case_match; [done|]. exact IH.
Qed.

(** a conflicting lock in the list is a conflict in the table *)
Lemma posix_conflict_spec l q :
  list_ok l → fl_start q ≤ fl_end q →
  (posix_conflict q l ≠ None ↔ conflicts (lock_at l) q).
Proof.
  intros Hl Hq. unfold posix_conflict. split.
  - destruct (List.find _ _) as [f|] eqn:E; [intros _|done].
    apply find_some in E as [Hf E]. unfold posix_locks_conflict, posix_same_owner, locks_overlap in E.
    destruct (IS_POSIX f) eqn:Hp; [|done]. simpl in E.
    destruct (fl_owner q =? fl_owner f) eqn:Eo; [done|]. case_test; [done|]. bprop.
    destruct (list_ok_split (fl_owner f) l Hl) as (pre & own & post & Hs).
    assert (f ∈ own) as Hown.
    { destruct Hs. subst. apply list_elem_of_In in Hf. rewrite !elem_of_app in Hf.
      rewrite Forall_forall in os_pre0, os_post0. destruct Hf as [Hf|[Hf|Hf]]; [|done|].
      - by destruct (os_pre0 f Hf Hp).
      - by destruct (os_post0 f Hf). }
    pose proof (os_own _ _ _ _ _ Hs) as [Hw _]. rewrite Forall_forall in Hw.
    destruct (Hw f Hown) as [[_ _ Hr] _].
    exists (fl_owner f), (Z.max (fl_start f) (fl_start q)), (fl_type f). split_and!; [congruence|lia|lia| |].
    + apply (lock_at_split _ _ _ _ _ _ _ Hs). exists f. split_and!; [done|lia|lia|done].
    + unfold locks_conflict in E. bool_props. tauto.
  - intros (o & x & t & Ho & Hx & Ht & Hc) Hnone. unfold lock_at in Ht.
    destruct (List.find _ l) as [f|] eqn:E; simplify_eq/=.
    apply find_some in E as [Hf E]. unfold in_range in E. bprop.
    pose proof (find_none _ _ Hnone f Hf) as Hn. simpl in Hn.
    unfold posix_locks_conflict, posix_same_owner, locks_overlap, locks_conflict in Hn.
    rewrite H in Hn. simpl in Hn. rewrite (proj2 (Z.eqb_neq _ _)) in Hn by congruence.
    rewrite !Z.geb_leb, !(proj2 (Z.leb_le _ _)) in Hn by lia. simpl in Hn. bprop. tauto.
Qed.

(** ** The refinement *)

(** a request as the callers make it, and fresh structures from the allocator *)
Record request_ok (nf nf2 : option Z) (q : file_lock) (s : flocks) : Prop := {
  rq_posix : IS_POSIX q = true;
  rq_type : fl_type q = F_RDLCK ∨ fl_type q = F_WRLCK ∨ fl_type q = F_UNLCK;
  rq_range : 0 ≤ fl_start q ≤ fl_end q ∧ fl_end q ≤ OFFSET_MAX;
  rq_own : fl_id q ∉ ids (i_flock s);
  rq_waiting : fl_id q ∉ (fl_id ∘ w_lock <$> waiting s);
  rq_new : NoDup (option_list nf ++ option_list nf2 ++ ids (i_flock s))
}.

Lemma NoDup_option_l (b : bool) (nf : option Z) (l : list Z) :
  NoDup (option_list nf ++ l) → NoDup (option_list (if b then nf else None) ++ l).
Proof. destruct b; [done|]. simpl. by intros (_ & _ & ?)%NoDup_app. Qed.

Lemma updated_table q o pre own own' post l :
  owner_split o l pre own post → fl_owner q = o → group_ok o own' →
  NoDup (ids (pre ++ own' ++ post)) → updated q own own' →
  ∀ o' x, lock_at (pre ++ own' ++ post) o' x = table_set (lock_at l) q o' x.
Proof.
  intros Hs Hq Hg Hnd Hu o' x. pose proof (os_list _ _ _ _ _ Hs) as Hl.
  unfold table_set. rewrite Hq. destruct (o' =? o) eqn:Eo; bprop; simpl.
  2:{ rewrite Hl. by eapply lock_at_other; [|apply Hs|]. }
  subst o'. assert (owner_split o (pre ++ own' ++ post) pre own' post ∨ own' = []) as Hs'.
  { destruct own' as [|f k]; [by right|left]. destruct Hs. by constructor. }
  assert (∀ t, lock_at (pre ++ own' ++ post) o x = Some t ↔ range_at own' x t) as Hr.
  { intros t. destruct Hs' as [Hs'| ->]; [by eapply lock_at_split|]. destruct Hs. simpl.
    rewrite lock_at_skip, <- (app_nil_l post), lock_at_drop; try done.
    - simpl. by rewrite range_at_nil.
    - eapply Forall_impl; [done|]. naive_solver. }
  apply option_eq. intros t. rewrite Hr, (Hu x t). unfold in_range.
  case_decide as Hx.
  - rewrite !(proj2 (Z.leb_le _ _)) by lia. simpl. case_test; bprop; naive_solver.
  - rewrite <- (lock_at_split _ _ _ _ _ _ _ Hs).
    destruct (fl_start q <=? x) eqn:E1, (x <=? fl_end q) eqn:E2; bprop; simpl; done || lia.
Qed.

Definition mem_ok (nf nf2 : option Z) : bool := bool_decide (nf ≠ None ∧ nf2 ≠ None).

(** the locks of other kinds are not touched *)
Definition others_kept (l l' : list file_lock) : Prop :=
  ∀ f, IS_POSIX f = false → f ∈ l' ↔ f ∈ l.

Lemma others_kept_group o pre own own' post :
  group_ok o own → group_ok o own' → others_kept (pre ++ own ++ post) (pre ++ own' ++ post).
Proof.
  intros [Hw _] [Hw' _] f Hf. rewrite Forall_forall in Hw, Hw'. rewrite !elem_of_app.
  assert (∀ k : list file_lock, (∀ x, x ∈ k → own_wf o x) → f ∈ k ↔ False) as Hk.
  { intros k Hk. split; [|done]. intros Hin. destruct (Hk f Hin) as [[] _]. congruence. }
  rewrite (Hk own Hw), (Hk own' Hw'). done.
Qed.

(** the part of the call after the search for conflicts *)
Lemma posix_update_ok nf nf2 q s (need : bool) :
  list_ok (i_flock s) → request_ok nf nf2 q s → has_flag q FL_ACCESS = false →
  ¬ (fl_type q ≠ F_UNLCK ∧ conflicts (lock_at (i_flock s)) q) →
  need = negb (fl_type q =? F_UNLCK) || negb (fl_start q =? 0) || negb (fl_end q =? OFFSET_MAX) →
  let '(done, rest) := skip_others [] (i_flock s) q in
  let '(r, s') := posix_finish (if need then nf else None) (if need then nf2 else None)
                    (own_walk done rest q false None s) in
  list_ok (i_flock s') ∧ table_step (mem_ok nf nf2) (lock_at (i_flock s)) q r (lock_at (i_flock s')) ∧
  others_kept (i_flock s) (i_flock s').
Proof.
  intros Hl [] Ha Hnc Hneed.
  destruct (list_ok_split (fl_owner q) _ Hl) as (pre & own & post & Hs).
  pose proof (os_list _ _ _ _ _ Hs) as El. rewrite El in rq_own0, rq_new0.
  replace (skip_others [] (i_flock s) q) with (pre, own ++ post)
    by (rewrite El; symmetry; apply skip_others_spec; apply Hs).
  assert (NoDup (option_list (if need then nf else None) ++
    option_list (if need then nf2 else None) ++ ids (pre ++ own ++ post))) as Hnew.
  { destruct need; [done|]. simpl. rewrite <- El. apply Hl. }
  pose proof (own_request q pre post own ltac:(lia) rq_own0) as Ho.
  specialize (Ho ltac:(rewrite <- El; apply Hl)).
  specialize (Ho ltac:(pose proof (os_post _ _ _ _ _ Hs) as Hp; destruct Hp; tauto)).
  specialize (Ho ltac:(lia) rq_type0 rq_posix0 (os_own _ _ _ _ _ Hs) _ _ s Hnew).
  destruct (posix_finish _ _ _) as [r s'].
  destruct Ho as [(Hr & own' & Hl' & Hg & Hu & Hids)|[(Hr & Hl' & Hm)|(Hr & Hl' & Hu & He & Hno)]];
    simpl in *; subst r; rewrite Hl'.
  - assert (NoDup (ids (pre ++ own' ++ post))) as Hnd by (by eapply submseteq_NoDup).
    split_and!; [by apply Hs|constructor; [done..|]; by apply updated_table with (fl_owner q) own|].
    rewrite El. apply others_kept_group with (fl_owner q); [apply Hs|done].
  - rewrite <- El. split_and!; [done|constructor|done].
    + unfold mem_ok. apply bool_decide_eq_false. intros [H1 H2]. subst need.
      destruct Hm as [[Hm ?]|[Hm (f & Hf & ? & ?)]].
      * rewrite (proj2 (Z.eqb_neq _ _)) in Hm by done. done.
      * pose proof (os_own _ _ _ _ _ Hs) as [Hw _]. rewrite Forall_forall in Hw.
        destruct (Hw f Hf) as [[_ _ ?] _].
        rewrite (proj2 (Z.eqb_neq (fl_start q) 0)), orb_true_r in Hm by lia. done.
    + intros (Hu & Hs0 & He0). destruct Hm as [[_ ?]|[_ (f & Hf & ? & ?)]]; [done|].
      pose proof (os_own _ _ _ _ _ Hs) as [Hw _]. rewrite Forall_forall in Hw.
      destruct (Hw f Hf) as [[_ _ ?] _]. lia.
  - rewrite <- El. split_and!; [done|constructor; try done|done]. intros x Hx.
    destruct (lock_at (i_flock s) (fl_owner q) x) as [t|] eqn:E; [|done].
    apply (lock_at_split _ _ _ _ _ _ _ Hs) in E. by apply Hno in E.
Qed.

Lemma posix_lock_ok nf nf2 q s :
  list_ok (i_flock s) → request_ok nf nf2 q s →
  let '(r, s') := __posix_lock_file nf nf2 q s in
  list_ok (i_flock s') ∧ table_step (mem_ok nf nf2) (lock_at (i_flock s)) q r (lock_at (i_flock s')) ∧
  others_kept (i_flock s) (i_flock s').
Proof.
  intros Hl Hrq. pose proof Hrq as []. unfold __posix_lock_file.
  pose proof (posix_conflict_spec _ q Hl ltac:(lia)) as Hc.
  destruct (if negb (fl_type q =? F_UNLCK) then posix_conflict q (i_flock s) else None) as [f|] eqn:Ef.
  { destruct (fl_type q =? F_UNLCK) eqn:Eu; [done|]. simpl in Ef. bprop.
    assert (conflicts (lock_at (i_flock s)) q) by (apply Hc; congruence).
    destruct (has_flag q FL_SLEEP) eqn:Es; simpl; [|by split_and!; [|constructor|]].
    case_test; [by split_and!; [|constructor|]|]. unfold locks_insert_block. case_test.
    - exfalso. apply existsb_exists in E0 as (w & Hw & Hid). bprop. apply rq_waiting0.
      apply list_elem_of_fmap. exists w. split; [done|]. by apply list_elem_of_In.
    - by split_and!; [|constructor|]. }
  assert (¬ (fl_type q ≠ F_UNLCK ∧ conflicts (lock_at (i_flock s)) q)) as Hnc.
  { intros [Hu Hcf]. apply Hc in Hcf. rewrite (proj2 (Z.eqb_neq _ _)) in Ef by done. done. }
  destruct (has_flag q FL_ACCESS) eqn:Ea; [by split_and!; [|constructor|]|].
  pose proof (posix_update_ok nf nf2 q s _ Hl Hrq Ea Hnc eq_refl) as H.
  destruct (skip_others _ _ _) as [done rest]. exact H.
Qed.
