(* ===== verification/LockSteps.v ===== *)
(** * Sequences of lock operations

    Any number of processes take and release POSIX and flock locks on a file,
    in any order: mutual exclusion, the shape of the list, and that a blocked
    request is always blocked by a lock it conflicts with. *)

From stdpp Require Import sorting.
From S2P Require Import Prelude Locks LockTable.

(** ** Locks only grow under a blocked request *)

Definition grown (f f' : file_lock) : Prop :=
  fl_id f' = fl_id f ∧ fl_owner f' = fl_owner f ∧ fl_file f' = fl_file f ∧
  fl_flags f' = fl_flags f ∧ fl_type f' = fl_type f ∧
  fl_start f' ≤ fl_start f ∧ fl_end f ≤ fl_end f'.

Lemma grown_refl f : grown f f.
Proof. unfold grown. split_and!; done || lia. Qed.
Lemma grown_trans f g h : grown f g → grown g h → grown f h.
Proof. unfold grown. intros (-> & -> & -> & -> & -> & ? & ?) (-> & -> & -> & -> & -> & ? & ?). split_and!; done || lia. Qed.
#[export] Instance grown_preorder : PreOrder grown.
Proof. split; [exact grown_refl|intros ???; apply grown_trans]. Qed.

(** the locks somebody is blocked on are still there *)
Definition kept (l l' : list file_lock) (s : flocks) : Prop :=
  ∀ w f, w ∈ waiting s → f ∈ l → fl_id f = fl_id (w_next w) → ∃ f', f' ∈ l' ∧ grown f f'.

Lemma kept_refl l s : kept l l s.
Proof. intros w f _ Hf _. by exists f. Qed.

Lemma kept_trans l1 l2 l3 s s' :
  kept l1 l2 s → (waiting s' ⊆ waiting s) → kept l2 l3 s' → kept l1 l3 s'.
Proof.
  intros H1 Hs H2 w f Hw Hf Hid. destruct (H1 w f (Hs _ Hw) Hf Hid) as (g & Hg & Hfg).
  destruct (H2 w g Hw Hg) as (h & Hh & Hgh); [by destruct Hfg as [-> _]|].
  exists h. split; [done|]. by transitivity g.
Qed.

Lemma wake_waiting id s w :
  w ∈ waiting (locks_wake_up_blocks id s) ↔ w ∈ waiting s ∧ fl_id (w_next w) ≠ id.
Proof.
  simpl. rewrite !list_elem_of_In, filter_In, negb_true_iff, Z.eqb_neq. done.
Qed.

Lemma wake_sub id s : waiting (locks_wake_up_blocks id s) ⊆ waiting s.
Proof. intros w. rewrite wake_waiting. tauto. Qed.

(** a lock is changed or removed after its waiters were woken *)
Lemma kept_wake_upd id g l s : kept l (upd id g l) (locks_wake_up_blocks id s).
Proof.
  intros w f [Hw Hid]%wake_waiting Hf Hf'. exists f. split; [|done].
  unfold upd. apply list_elem_of_In, in_map_iff. exists f. split; [|by apply list_elem_of_In].
  by rewrite (proj2 (Z.eqb_neq _ _)) by congruence.
Qed.

Lemma kept_wake_del id l1 x l2 s :
  fl_id x = id → kept (l1 ++ x :: l2) (l1 ++ l2) (locks_wake_up_blocks id s).
Proof.
  intros <- w f [Hw Hid]%wake_waiting Hf Hf'. exists f. split; [|done].
  rewrite elem_of_app, elem_of_cons in Hf. rewrite elem_of_app.
  destruct Hf as [?|[->|?]]; [tauto|congruence|tauto].
Qed.

Lemma kept_insert l1 x l2 s : kept (l1 ++ l2) (l1 ++ x ++ l2) s.
Proof. intros w f _ Hf _. exists f. split; [set_solver|done]. Qed.

Lemma kept_grow l1 x y l2 s : grown x y → kept (l1 ++ x :: l2) (l1 ++ y :: l2) s.
Proof.
  intros Hg w f _ Hf _. rewrite elem_of_app, elem_of_cons in Hf.
  destruct Hf as [?|[->|?]]; [exists f|exists y|exists f]; (split; [set_solver|done]).
Qed.

(** ** The walk *)

Lemma merge_grown q f q' f' :
  merge_locks q f = (q', f') → grown q q' ∧ grown f f'.
Proof.
  unfold merge_locks, grown. intros Hm. repeat case_test; simplify_eq; simpl in *; bprop;
    split_and!; try done; lia.
Qed.

Lemma upd_request q q' done :
  (∀ f, f ∈ done → fl_id f = fl_id q → f = q) → grown q q' →
  ∀ r s, kept (done ++ r) (upd (fl_id q) (λ _, q') done ++ r) s.
Proof.
  intros HR Hg r s w f _ Hf _. rewrite elem_of_app in Hf. destruct Hf as [Hf|Hf].
  - destruct (decide (fl_id f = fl_id q)) as [E|E].
    + exists q'. rewrite (HR f Hf E). split; [|done]. apply elem_of_app. left. unfold upd.
      apply list_elem_of_In, in_map_iff. exists f. split; [|by apply list_elem_of_In].
      by rewrite E, Z.eqb_refl.
    + exists f. split; [|done]. apply elem_of_app. left. unfold upd.
      apply list_elem_of_In, in_map_iff. exists f. split; [|by apply list_elem_of_In].
      by rewrite (proj2 (Z.eqb_neq _ _)).
  - exists f. split; [set_solver|done].
Qed.

(** the request is the caller's structure or the one lock of the list with its
    identity, already passed *)
Record alias_ok (q : file_lock) (done rest : list file_lock) : Prop := {
  al_nodup : NoDup (ids (done ++ rest));
  al_done f : f ∈ done → fl_id f = fl_id q → f = q;
  al_rest : fl_id q ∉ ids rest
}.

Lemma ids_upd q q' l : fl_id q' = fl_id q → ids (upd (fl_id q) (λ _, q') l) = ids l.
Proof.
  intros E. unfold ids, upd. induction l as [|x l IH]; [done|]. simpl. f_equal; [|exact IH].
  destruct (fl_id x =? fl_id q) eqn:Ex; bprop; congruence.
Qed.

Lemma alias_pass q done f rest : alias_ok q done (f :: rest) → alias_ok q (done ++ [f]) rest.
Proof.
  intros [Hn Hd Hr]. cbn [ids fmap list_fmap] in Hr. constructor.
  - by rewrite <- app_assoc.
  - intros g [Hg| ->%list_elem_of_singleton]%elem_of_app Hid; [auto|].
    destruct Hr. rewrite Hid. constructor.
  - intros Hin. apply Hr. by constructor.
Qed.

Lemma alias_grow q q' done f rest :
  alias_ok q done (f :: rest) → fl_id q' = fl_id q →
  alias_ok q' (upd (fl_id q) (λ _, q') done) rest.
Proof.
  intros [Hn Hd Hr] Hid. cbn [ids fmap list_fmap] in Hr. constructor.
  - rewrite ids_app, ids_upd by done. rewrite ids_app in Hn.
    apply NoDup_app in Hn as (? & Hn & [? ?]%NoDup_cons). apply NoDup_app. split_and!; try done.
    intros x Hx Hx'. apply (Hn x Hx). by constructor.
  - intros g Hg Hgid. apply list_elem_of_In, in_map_iff in Hg as (x & Hx & Hin).
    destruct (fl_id x =? fl_id q) eqn:E; bprop; [done|]. subst g. congruence.
  - rewrite Hid. intros Hin. apply Hr. by constructor.
Qed.

Lemma alias_become q q' done f f' rest :
  alias_ok q done (f :: rest) → fl_id q' = fl_id q → fl_id f' = fl_id f →
  alias_ok f' (upd (fl_id q) (λ _, q') done ++ [f']) rest.
Proof.
  intros [Hn Hd Hr] Hid Hf. rewrite ids_app in Hn. cbn [ids fmap list_fmap] in Hn.
  apply NoDup_app in Hn as (Hn1 & Hn2 & [Hn3 Hn4]%NoDup_cons). constructor.
  - rewrite <- app_assoc. simpl. rewrite ids_app, ids_upd by done. simpl. apply NoDup_app.
    rewrite Hf. split_and!; [done|done|]. by apply NoDup_cons.
  - intros g [Hg| ->%list_elem_of_singleton]%elem_of_app Hgid; [|done]. exfalso.
    apply (Hn2 (fl_id f)); [|constructor]. rewrite <- Hf, <- Hgid, <- (ids_upd q q' done Hid).
    by apply list_elem_of_fmap_2.
  - by rewrite Hf.
Qed.

Lemma alias_self q done rest : alias_ok q done rest → upd (fl_id q) (λ _, q) done = done.
Proof.
  intros Ha. unfold upd. rewrite <- (map_id done) at 2. apply map_ext_in.
  intros x Hx%list_elem_of_In. case_test; [|done]. bprop. symmetry. by apply Ha.
Qed.

Lemma kept_wake_change id l1 x y l2 s :
  fl_id x = id → kept (l1 ++ x :: l2) (l1 ++ y :: l2) (locks_wake_up_blocks id s).
Proof.
  intros Hx. eapply kept_trans; [by eapply kept_wake_del|done|]. apply (kept_insert l1 [y] l2).
Qed.

Definition walk_keeps (l : list file_lock) (s : flocks) (k : walk) : Prop :=
  kept l (k_done k ++ k_rest k) (k_state k) ∧ waiting (k_state k) ⊆ waiting s.

Lemma walk_keeps_trans l l' s s' k :
  kept l l' s' → waiting s' ⊆ waiting s → walk_keeps l' s' k → walk_keeps l s k.
Proof.
  intros Hk Hs [Hk' Hs']. split; [|by etrans]. by eapply kept_trans.
Qed.

Lemma walk_keeps_stop done rest q added lft rgt s :
  walk_keeps (done ++ rest) s (MkWalk done rest q added lft rgt s).
Proof. split; [apply kept_refl|done]. Qed.

Lemma own_walk_keeps rest : ∀ done q added lft s,
  alias_ok q done rest → walk_keeps (done ++ rest) s (own_walk done rest q added lft s).
Proof.
  induction rest as [|f rest IH]; intros done q added lft s Ha; [apply walk_keeps_stop|].
  assert (∀ added' lft', walk_keeps (done ++ f :: rest) s
    (own_walk (done ++ [f]) rest q added' lft' s)) as Hnext.
  { intros. pose proof (IH (done ++ [f]) q added' lft' s (alias_pass _ _ _ _ Ha)) as H.
    by rewrite <- app_assoc in H. }
  assert (∀ lft', walk_keeps (done ++ f :: rest) s
    (own_walk done rest q true lft' (locks_wake_up_blocks (fl_id f) s))) as Hdel.
  { intros. eapply walk_keeps_trans; [by apply kept_wake_del|apply wake_sub|]. apply IH.
    pose proof (alias_grow q q done f rest Ha eq_refl) as H. by rewrite (alias_self _ _ _ Ha) in H. }
  set (f1 := set_type (fl_type q) (set_end (fl_end q) (set_start (fl_start q) f))).
  assert (∀ lft', walk_keeps (done ++ f :: rest) s
    (own_walk (done ++ [f1]) rest f1 true lft' (locks_wake_up_blocks (fl_id f) s))) as Hrep.
  { intros. eapply walk_keeps_trans; [by apply kept_wake_change|apply wake_sub|].
    pose proof (alias_become q q done f f1 rest Ha eq_refl eq_refl) as H.
    rewrite (alias_self _ _ _ Ha) in H.
    pose proof (IH _ _ true lft' (locks_wake_up_blocks (fl_id f) s) H) as H'.
    by rewrite <- app_assoc in H'. }
  simpl. case_test; [apply walk_keeps_stop|]. case_test; bprop.
  - case_test; [apply Hnext|]. case_test; [apply walk_keeps_stop|].
    destruct (merge_locks q f) as [q' f'] eqn:Em. destruct (merge_grown _ _ _ _ Em) as [Hq Hf].
    destruct added.
    + eapply walk_keeps_trans; [|apply wake_sub|apply IH; eapply alias_grow; [done|apply Hq]].
      eapply kept_trans; [by apply kept_wake_del|done|]. eapply upd_request; [apply Ha|done].
    + eapply walk_keeps_trans; [|reflexivity|apply IH; eapply alias_become; [done|apply Hq|apply Hf]].
      eapply kept_trans; [by apply upd_request; [apply Ha|exact Hq]|done|].
      rewrite <- app_assoc. simpl. by apply kept_grow.
  - case_test; [apply Hnext|]. case_test; [apply walk_keeps_stop|].
    repeat (case_test; try apply walk_keeps_stop; try apply Hnext; try apply Hdel; try apply Hrep).
Qed.

Definition keeps (l : list file_lock) (s s' : flocks) : Prop :=
  kept l (i_flock s') s' ∧ waiting s' ⊆ waiting s.

Lemma keeps_list l s : keeps l s (with_list l s).
Proof. split; [apply kept_refl|done]. Qed.

Lemma keeps_upd_wake l s s' id g :
  keeps l s s' → keeps l s (locks_wake_up_blocks id (with_list (upd id g (i_flock s')) s')).
Proof.
  intros [Hk Hs]. split.
  - eapply kept_trans; [exact Hk| |].
    + apply (wake_sub id (with_list (upd id g (i_flock s')) s')).
    + apply kept_wake_upd.
  - etrans; [apply wake_sub|done].
Qed.

Lemma posix_finish_keeps nf nf2 k :
  keeps (k_done k ++ k_rest k) (k_state k) (posix_finish nf nf2 k).2.
Proof.
  destruct k as [done rest q added lft rgt s].
  cbn [k_done k_rest k_state]. unfold posix_finish.
  case_bool_decide; [apply keeps_list|]. case_test; [apply keeps_list|].
  case_match; [|apply keeps_list].
  destruct (match nf2 with Some _ => _ | None => _ end) as [lft' split].
  assert (keeps (done ++ rest) s (with_list (done ++ split ++ l ++ rest) s)) as Hk.
  { split; [|done]. rewrite (app_assoc split). apply kept_insert. }
  unfold trim_left, trim_right.
  destruct rgt, lft'; cbn [snd]; repeat first [exact Hk|apply keeps_upd_wake].
Qed.

(** ** Blocked requests *)

(** the lock stands in the way of the request *)
Definition blocks (f q : file_lock) : Prop :=
  posix_locks_conflict q f = true ∨ flock_locks_conflict q f = true.

Lemma blocks_grown f f' q : blocks f q → grown f f' → blocks f' q.
Proof.
  unfold blocks, posix_locks_conflict, flock_locks_conflict, posix_same_owner, locks_overlap,
    locks_conflict, IS_POSIX, IS_FLOCK, has_flag.
  intros H (_ & -> & -> & -> & -> & Hs & He). destruct H as [H|H]; [left|by right].
  case_test; [done|]. destruct (negb ((fl_end q >=? fl_start f) && _)) eqn:E1; [done|].
  bprop. rewrite !Z.geb_leb, !(proj2 (Z.leb_le _ _)) by lia. simpl. by apply orb_true_iff.
Qed.

(** every blocked request is blocked by a lock of the list that stands in its way *)
Definition waiters_ok (s : flocks) : Prop :=
  ∀ w, w ∈ waiting s → ∃ f, f ∈ i_flock s ∧ fl_id f = fl_id (w_next w) ∧ blocks f (w_lock w).

Lemma waiters_keeps s s' : keeps (i_flock s) s s' → waiters_ok s → waiters_ok s'.
Proof.
  intros [Hk Hs] Hw w Hin. destruct (Hw w (Hs _ Hin)) as (f & Hf & Hid & Hb).
  destruct (Hk w f Hin Hf Hid) as (f' & Hf' & Hg). exists f'. split; [done|].
  split; [by destruct Hg as [-> _]|]. by eapply blocks_grown.
Qed.

Lemma waiters_insert f q s s' :
  locks_insert_block f q s = Ret s' → waiters_ok s → f ∈ i_flock s → blocks f q → waiters_ok s'.
Proof.
  unfold locks_insert_block. case_test; [done|]. intros [= <-] Hw Hf Hb w Hin. simpl in *.
  apply elem_of_cons in Hin as [->|Hin]; [by exists f|by apply Hw].
Qed.

Lemma posix_lock_waiters nf nf2 q s :
  list_ok (i_flock s) → fl_id q ∉ ids (i_flock s) → waiters_ok s →
  waiters_ok (__posix_lock_file nf nf2 q s).2.
Proof.
  intros Hl Hq Hw. unfold __posix_lock_file.
  destruct (if negb (fl_type q =? F_UNLCK) then posix_conflict q (i_flock s) else None) as [f|] eqn:Ef.
  { assert (posix_conflict q (i_flock s) = Some f) as Ec by (by destruct (fl_type q =? F_UNLCK)).
    apply find_some in Ec as [Hf [_ Hc]%andb_prop]. apply list_elem_of_In in Hf.
    repeat (case_test; [done|]). destruct (locks_insert_block f q s) eqn:Ei; [|done..].
    eapply waiters_insert; [done..|]. by left. }
  case_test; [done|].
  destruct (list_ok_split (fl_owner q) _ Hl) as (pre & own & post & Hs).
  pose proof (os_list _ _ _ _ _ Hs) as El.
  replace (skip_others [] (i_flock s) q) with (pre, own ++ post)
    by (rewrite El; symmetry; apply skip_others_spec; apply Hs).
  apply (waiters_keeps s); [|done].
  destruct (own_walk_keeps (own ++ post) pre q false None s) as [Hk1 Hs1].
  { rewrite El in Hq. destruct Hl as [Hn _]. rewrite El in Hn. constructor; [done|..].
    - intros f Hf Hid. destruct Hq. rewrite <- Hid. apply list_elem_of_fmap_2. set_solver.
    - intros Hin. apply Hq. rewrite ids_app. set_solver. }
  match goal with |- keeps _ _ (posix_finish ?a ?b ?k).2 =>
    destruct (posix_finish_keeps a b k) as [Hk2 Hs2] end.
  rewrite El. split; [|by etrans]. by eapply kept_trans.
Qed.

(** ** Whole file locks *)

Definition flock_exclusive (l : list file_lock) : Prop := ∀ a b,
  a ∈ l → b ∈ l → IS_POSIX a = false → IS_LEASE a = false → IS_FLOCK a = true →
  IS_POSIX b = false → IS_LEASE b = false → IS_FLOCK b = true → flock_locks_conflict a b = false.

Lemma flock_part_spec l :
  l = (flock_part l).1 ++ (flock_part l).2 ∧
  Forall (λ f, IS_POSIX f = false) (flock_part l).1 ∧
  match (flock_part l).2 with [] => True | f :: _ => IS_POSIX f = true end.
Proof.
  induction l as [|f l (IH1 & IH2 & IH3)]; simpl; [done|].
  destruct (IS_POSIX f) eqn:E; simpl; [done|]. destruct (flock_part l) as [a b]. simpl in *.
  split_and!; [by f_equal|by constructor|done].
Qed.

(** in the list of a file the two parts are the locks of the two kinds *)
Lemma flock_part_app np po :
  Forall (λ f, IS_POSIX f = false) np → match po with [] => True | f :: _ => IS_POSIX f = true end →
  flock_part (np ++ po) = (np, po).
Proof.
  intros Hnp Hpo. induction Hnp as [|f np Hf _ IH]; simpl.
  - destruct po as [|f k]; [done|]. simpl. by rewrite Hpo.
  - by rewrite Hf, IH.
Qed.

Lemma flock_part_ok l :
  list_ok l → Forall (λ f, IS_POSIX f = true) (flock_part l).2.
Proof.
  intros [_ (np & gs & -> & Hnp & _ & Hgs)]. pose proof (group_concat _ Hgs) as Hc.
  rewrite flock_part_app; [|done|destruct Hc; naive_solver].
  simpl. eapply Forall_impl; [exact Hc|]. naive_solver.
Qed.

(** ** Steps of the processes that use the file *)

(** a flock lock as [flock_make_lock] builds it *)
Definition flock_request (q : file_lock) : Prop :=
  IS_FLOCK q = true ∧ IS_POSIX q = false ∧ IS_LEASE q = false.

Inductive lock_step (s : flocks) : flocks → Prop :=
  | step_posix nf nf2 q :
      request_ok nf nf2 q s → lock_step s (__posix_lock_file nf nf2 q s).2
  | step_flock new q :
      flock_request q → new ∉ ids (i_flock s) → lock_step s (flock_find_conflict new q s).2
  | step_funlock f :
      f ∈ i_flock s → IS_POSIX f = false → lock_step s (locks_delete_lock (fl_id f) s)
  | step_unblock w : lock_step s (__locks_delete_block w s).

Record locks_inv (s : flocks) : Prop := {
  li_list : list_ok (i_flock s);
  li_posix : exclusive (lock_at (i_flock s));
  li_flock : flock_exclusive (i_flock s);
  li_waiters : waiters_ok s
}.

(** granting a request keeps the table exclusive *)
Lemma table_step_exclusive mem T q r T' :
  fl_type q = F_RDLCK ∨ fl_type q = F_WRLCK ∨ fl_type q = F_UNLCK →
  (∀ o x t, T o x = Some t → t = F_RDLCK ∨ t = F_WRLCK) →
  table_step mem T q r T' → exclusive T → exclusive T'.
Proof.
  intros Ht HT Hs He. destruct Hs as [T' _ Hn Hset|_ _| | | | |]; try done.
  assert (∀ o x t, o ≠ fl_owner q → in_range x q = true → fl_type q ≠ F_UNLCK →
    T o x = Some t → t = F_RDLCK ∧ fl_type q = F_RDLCK) as Hc.
  { intros o x t Ho Hx Hu Ho'. unfold in_range in Hx. bprop.
    destruct (decide (t = F_WRLCK ∨ fl_type q = F_WRLCK)) as [Hw|Hw].
    - destruct Hn. split; [done|]. exists o, x, t. done.
    - specialize (HT o x t Ho'). naive_solver. }
  intros o o' x t t' Hne. rewrite !Hset. unfold table_set.
  destruct (o =? fl_owner q) eqn:E1, (o' =? fl_owner q) eqn:E2; bprop; simpl; [congruence|..];
    [destruct (in_range x q) eqn:Ex..|]; try apply He; try done.
  all: destruct (fl_type q =? F_UNLCK) eqn:Eu; bprop; intros ? ?; simplify_eq; try done.
  all: edestruct Hc as [? ?]; eauto.
Qed.

Lemma lock_at_type l o x t : list_ok l → lock_at l o x = Some t → t = F_RDLCK ∨ t = F_WRLCK.
Proof.
  intros Hl Ht. destruct (list_ok_split o l Hl) as (pre & own & post & Hs).
  apply (lock_at_split _ _ _ _ _ _ _ Hs) in Ht as (f & Hf & _ & <-).
  destruct (os_own _ _ _ _ _ Hs) as [Hw _]. rewrite Forall_forall in Hw. by destruct (Hw f Hf) as [[] _].
Qed.

Lemma flock_conflict_sym a b :
  IS_FLOCK a = true → IS_FLOCK b = true → flock_locks_conflict a b = flock_locks_conflict b a.
Proof.
  unfold flock_locks_conflict, locks_conflict. intros -> ->. simpl.
  rewrite (Z.eqb_sym (fl_file a)), (orb_comm (truth (Z.land (fl_type a) _))).
  by rewrite (orb_comm (fl_type b =? F_WRLCK)).
Qed.

(** inserting or removing a lock that is not a POSIX lock *)
Lemma list_ok_flock l np' :
  list_ok l → Forall (λ f, IS_POSIX f = false) np' → NoDup (ids (np' ++ (flock_part l).2)) →
  list_ok (np' ++ (flock_part l).2).
Proof.
  intros Hl Hnp Hnd. split; [done|]. destruct Hl as [_ (np & gs & -> & Hnp' & Hg & Hgs)].
  pose proof (group_concat _ Hgs) as Hc. exists np', gs. split_and!; try done. f_equal.
  by rewrite flock_part_app; [|done|destruct Hc; naive_solver].
Qed.

Lemma lock_at_np np l o x : Forall (λ f, IS_POSIX f = false) np → lock_at (np ++ l) o x = lock_at l o x.
Proof. intros H. apply lock_at_skip. eapply Forall_impl; [exact H|]. simpl. congruence. Qed.

Lemma step_flock_inv new q s :
  flock_request q → new ∉ ids (i_flock s) → locks_inv s → locks_inv (flock_find_conflict new q s).2.
Proof.
  intros (Hq1 & Hq2 & Hq3) Hnew [Hl Hp Hf Hw]. unfold flock_find_conflict.
  pose proof (flock_part_spec (i_flock s)) as (Es & Hnp & _).
  pose proof (flock_part_ok _ Hl) as Hpo. 
  destruct (flock_part (i_flock s)) as [np po] eqn:Ep. simpl in *.
  destruct (List.find _ np) as [f|] eqn:Ef.
  { apply find_some in Ef as [Hfin Ef]. bprop. apply list_elem_of_In in Hfin.
    case_test; [done|]. destruct (locks_insert_block f q s) as [s'| |] eqn:Ei; [|done..]. simpl.
    pose proof (waiters_insert _ _ _ _ Ei Hw) as Hw'.
    unfold locks_insert_block in Ei. case_test; simplify_eq/=. constructor; try done. simpl.
    apply Hw'; [rewrite Es; set_solver|by right]. }
  case_test; [done|]. simpl. set (f := locks_copy_lock new q).
  assert (list_ok ((np ++ [f]) ++ po)) as Hl'.
  { pose proof (list_ok_flock (i_flock s) (np ++ [f]) Hl) as H. rewrite Ep in H. simpl in H. apply H.
    - apply Forall_app. split; [done|]. by repeat constructor.
    - rewrite <- app_assoc. destruct Hl as [Hn _]. rewrite Es in Hn, Hnew. rewrite ids_app in *.
      simpl. apply NoDup_app in Hn as (? & Hn & ?). apply NoDup_app. rewrite elem_of_app in Hnew.
      split_and!; [done| |apply NoDup_cons; tauto].
      intros x Hx [->|Hx']%elem_of_cons; [tauto|]. by apply (Hn x). }
  rewrite <- app_assoc in Hl'. constructor; simpl; try done.
  - intros o o' x t t' Ho. specialize (Hp o o' x t t' Ho). rewrite Es in Hp.
    change (np ++ f :: po) with (np ++ [f] ++ po). rewrite !(lock_at_np np) in * by done.
    by rewrite !(lock_at_np [f]) by (by repeat constructor).
  - assert (∀ g, g ∈ i_flock s → IS_POSIX g = false → IS_LEASE g = false → IS_FLOCK g = true →
      flock_locks_conflict q g = false) as Hno.
    { intros g Hg Hg1 Hg2 _. rewrite Es in Hg. apply elem_of_app in Hg as [Hg|Hg].
      - apply list_elem_of_In in Hg. pose proof (find_none _ _ Ef g Hg) as H. simpl in H.
        by rewrite Hg2 in H.
      - rewrite Forall_forall in Hpo. rewrite (Hpo g Hg) in Hg1. done. }
    assert (∀ g, flock_locks_conflict f g = flock_locks_conflict q g) as Hfq by done.
    intros a b Ha Hb Ha1 Ha2 Ha3 Hb1 Hb2 Hb3.
    assert (∀ x, x ∈ np ++ f :: po → x = f ∨ x ∈ i_flock s) as Hin by (rewrite Es; set_solver).
    destruct (Hin a Ha) as [->|Ha'], (Hin b Hb) as [->|Hb'].
    + unfold flock_locks_conflict. simpl. by rewrite Z.eqb_refl, orb_true_r.
    + rewrite Hfq. by apply Hno.
    + rewrite flock_conflict_sym, Hfq by done. by apply Hno.
    + by apply Hf.
  - apply (waiters_keeps s); [|done]. split; [|done]. simpl. rewrite Es. apply (kept_insert np [f] po).
Qed.


Lemma filter_id_out id l : id ∉ ids l → List.filter (λ x, negb (fl_id x =? id)) l = l.
Proof.
  intros H. induction l as [|x l IH]; [done|]. cbn [ids fmap list_fmap] in H. simpl.
  rewrite (proj2 (Z.eqb_neq _ _)) by (intros E; apply H; rewrite <- E; constructor). simpl. f_equal.
  apply IH. intros Hin. apply H. by constructor.
Qed.

Lemma filter_id_mid l1 x l2 :
  NoDup (ids (l1 ++ x :: l2)) →
  List.filter (λ y, negb (fl_id y =? fl_id x)) (l1 ++ x :: l2) = l1 ++ l2.
Proof.
  rewrite ids_app. cbn [ids fmap list_fmap]. intros (_ & H1 & [H2 _]%NoDup_cons)%NoDup_app.
  rewrite List.filter_app. simpl. rewrite Z.eqb_refl. simpl.
  rewrite !filter_id_out; [done|done|]. intros Hin. apply (H1 _ Hin). constructor.
Qed.

Lemma step_funlock_inv f s :
  f ∈ i_flock s → IS_POSIX f = false → locks_inv s → locks_inv (locks_delete_lock (fl_id f) s).
Proof.
  intros Hin Hfp [Hl Hp Hf Hw].
  pose proof (flock_part_spec (i_flock s)) as (Es & Hnp & _).
  pose proof (flock_part_ok _ Hl) as Hpo. pose proof (lo_ids _ Hl) as Hn.
  assert (f ∈ (flock_part (i_flock s)).1) as Hin'.
  { rewrite Es in Hin. apply elem_of_app in Hin as [|Hin]; [done|].
    rewrite Forall_forall in Hpo. rewrite (Hpo f Hin) in Hfp. done. }
  apply list_elem_of_split in Hin' as (l1 & l2 & E1).
  set (po := (flock_part (i_flock s)).2) in *.
  assert (i_flock s = l1 ++ f :: l2 ++ po) as El by (rewrite Es, E1, <- app_assoc; done).
  assert (i_flock (locks_delete_lock (fl_id f) s) = l1 ++ l2 ++ po) as Ed.
  { simpl. rewrite El in Hn |- *. by apply filter_id_mid. }
  rewrite E1, Forall_app, Forall_cons in Hnp. destruct Hnp as (Hn1 & _ & Hn2).
  assert (Forall (λ f, IS_POSIX f = false) (l1 ++ l2)) as Hn12 by (by apply Forall_app).
  constructor; rewrite ?Ed.
  - rewrite app_assoc. apply list_ok_flock; try done. fold po. rewrite <- app_assoc.
    eapply sublist_NoDup; [exact Hn|]. rewrite El. apply ids_drop.
  - intros o o' x t t' Ho. specialize (Hp o o' x t t' Ho). rewrite El in Hp.
    rewrite app_assoc, !(lock_at_np (l1 ++ l2)) by done.
    rewrite !(lock_at_np l1) in Hp by done. change (f :: l2 ++ po) with ((f :: l2) ++ po) in Hp.
    by rewrite !(lock_at_np (f :: l2)) in Hp by (by constructor).
  - intros a b Ha Hb. apply Hf; rewrite El; set_solver.
  - apply (waiters_keeps s); [|done]. split; [|exact (wake_sub (fl_id f) (with_list _ s))].
    rewrite Ed, El. by apply kept_wake_del.
Qed.

Lemma step_posix_inv nf nf2 q s :
  request_ok nf nf2 q s → locks_inv s → locks_inv (__posix_lock_file nf nf2 q s).2.
Proof.
  intros Hq [Hl Hp Hf Hw]. pose proof (posix_lock_ok _ _ _ _ Hl Hq) as H.
  pose proof (posix_lock_waiters nf nf2 q s Hl (rq_own _ _ _ _ Hq) Hw) as Hw'.
  destruct (__posix_lock_file nf nf2 q s) as [r s']. destruct H as (Hl' & Hs & Ho). simpl in *.
  constructor; try done.
  - eapply table_step_exclusive; [apply Hq| |done..]. intros o x t. by apply lock_at_type.
  - intros a b Ha Hb Ha1 Ha2 Ha3 Hb1 Hb2 Hb3. apply Hf; try done; by apply Ho.
Qed.

Lemma lock_step_inv s s' : lock_step s s' → locks_inv s → locks_inv s'.
Proof.
  intros [nf nf2 q Hq|new q Hq Hn|f Hf Hfp|w]; [by apply step_posix_inv|by apply step_flock_inv|
    by apply step_funlock_inv|].
  intros [Hl Hp Hf Hw]. constructor; try done. apply (waiters_keeps s); [|done].
  split; [apply kept_refl|]. simpl. intros x. rewrite !list_elem_of_In, filter_In. tauto.
Qed.

Lemma lock_steps_inv s s' : rtc lock_step s s' → locks_inv s → locks_inv s'.
Proof. induction 1; eauto using lock_step_inv. Qed.

Lemma no_locks_inv : locks_inv (MkFlocks [] [] []).
Proof.
  constructor; simpl; try done.
  - split; [constructor|]. exists [], []. split_and!; by try constructor.
  - by intros a b ?%elem_of_nil.
  - by intros w ?%elem_of_nil.
Qed.

(** ** Wake-ups *)

(** of the requests blocked in [s], those no longer blocked in [s'] were woken on the way *)
Definition woke (s s' : flocks) : Prop :=
  ∃ l, woken s' = woken s ++ l ∧ ∀ w, w ∈ waiting s → w ∈ waiting s' ∨ fl_id (w_lock w) ∈ l.

#[export] Instance woke_preorder : PreOrder woke.
Proof.
  split.
  - intros s. exists []. rewrite app_nil_r. auto.
  - intros s1 s2 s3 (l & E & H) (l' & E' & H'). exists (l ++ l'). rewrite E', E, app_assoc. split; [done|].
    intros w Hw. rewrite elem_of_app. destruct (H w Hw) as [Hw'|?]; [|tauto]. specialize (H' w Hw'). tauto.
Qed.

Lemma woke_wake id s : woke s (locks_wake_up_blocks id s).
Proof.
  eexists. split; [reflexivity|]. intros w Hw. rewrite wake_waiting.
  destruct (decide (fl_id (w_next w) = id)) as [Hid|]; [right|by left].
  apply list_elem_of_In. rewrite <- in_rev. apply in_map_iff. exists w. split; [done|].
  apply filter_In. split; [by apply list_elem_of_In|]. by apply Z.eqb_eq.
Qed.

Lemma woke_list l s : woke s (with_list l s).
Proof. exists []. simpl. rewrite app_nil_r. auto. Qed.

Lemma woke_upd_wake id g s s' :
  woke s s' → woke s (locks_wake_up_blocks id (with_list (upd id g (i_flock s')) s')).
Proof. intros H. etrans; [exact H|]. etrans; [apply woke_list|apply woke_wake]. Qed.

Lemma woke_insert f q s s' : locks_insert_block f q s = Ret s' → woke s s'.
Proof.
  unfold locks_insert_block. case_test; [done|]. intros [= <-]. exists []. simpl. rewrite app_nil_r.
  split; [done|]. intros w Hw. left. by apply list_elem_of_further.
Qed.

Lemma own_walk_woke rest : ∀ dn q added lft s, woke s (k_state (own_walk dn rest q added lft s)).
Proof.
  induction rest as [|f rest IH]; intros dn q added lft s; [done|].
  assert (∀ dn' q' a' l', woke s (k_state (own_walk dn' rest q' a' l' (locks_wake_up_blocks (fl_id f) s)))) as Hw.
  { intros. etrans; [apply woke_wake|apply IH]. }
  simpl. destruct (merge_locks q f) as [q' f']. repeat (case_test; try done).
Qed.

Lemma posix_finish_woke nf nf2 k : woke (k_state k) (posix_finish nf nf2 k).2.
Proof.
  destruct k as [dn rest q added lft rgt s]. cbn [k_state]. unfold posix_finish.
  case_bool_decide; [apply woke_list|]. case_test; [apply woke_list|]. case_match; [|apply woke_list].
  destruct (match nf2 with Some _ => _ | None => _ end) as [lft' split]. unfold trim_left, trim_right.
  destruct rgt, lft'; cbn [snd]; repeat first [apply woke_list|apply woke_upd_wake].
Qed.

Lemma posix_lock_woke nf nf2 q s : woke s (__posix_lock_file nf nf2 q s).2.
Proof.
  unfold __posix_lock_file. case_match.
  { repeat (case_test; [done|]). destruct (locks_insert_block _ q s) eqn:Ei; [|done..]. by eapply woke_insert. }
  case_test; [done|]. destruct (skip_others _ _ _) as [a b].
  etrans; [apply (own_walk_woke b a q false None)|apply posix_finish_woke].
Qed.

Lemma flock_woke new q s : woke s (flock_find_conflict new q s).2.
Proof.
  unfold flock_find_conflict. destruct (flock_part _) as [a b]. case_match.
  - case_test; [done|]. destruct (locks_insert_block _ q s) eqn:Ei; [|done..]. by eapply woke_insert.
  - case_test; [done|]. apply woke_list.
Qed.

(** the request of [w] is taken back by its own process, after a signal or an unlock *)
Definition withdrawn (w : waiter) (s s' : flocks) : Prop :=
  ∃ q, fl_id q = fl_id (w_lock w) ∧ s' = __locks_delete_block q s.

Lemma lock_step_woke s s' w :
  lock_step s s' → w ∈ waiting s →
  (∃ l, woken s' = woken s ++ l ∧ (w ∈ waiting s' ∨ fl_id (w_lock w) ∈ l)) ∨ withdrawn w s s'.
Proof.
  intros Hst Hw. assert (woke s s' → ∃ l, woken s' = woken s ++ l ∧ (w ∈ waiting s' ∨ fl_id (w_lock w) ∈ l)) as Hk.
  { intros (l & E & H). exists l. auto. }
  destruct Hst as [nf nf2 q Hq|new q Hq Hn|f Hf Hfp|q].
  - left. apply Hk, posix_lock_woke.
  - left. apply Hk, flock_woke.
  - left. apply Hk. etrans; [apply woke_list|apply woke_wake].
  - destruct (decide (fl_id q = fl_id (w_lock w))); [right; by exists q|]. left. exists []. simpl.
    rewrite app_nil_r. split; [done|]. left. apply list_elem_of_In, filter_In. split; [by apply list_elem_of_In|].
    apply negb_true_iff, Z.eqb_neq. congruence.
Qed.

Lemma lock_step_woken s s' : lock_step s s' → ∃ l, woken s' = woken s ++ l.
Proof.
  intros [nf nf2 q Hq|new q Hq Hn|f Hf Hfp|q].
  - destruct (posix_lock_woke nf nf2 q s) as (l & E & _). by exists l.
  - destruct (flock_woke new q s) as (l & E & _). by exists l.
  - by eexists.
  - exists []. by rewrite app_nil_r.
Qed.

Lemma lock_steps_woken s s' : rtc lock_step s s' → ∃ l, woken s' = woken s ++ l.
Proof.
  induction 1 as [s|s s1 s' H _ [l' E']]; [exists []; by rewrite app_nil_r|].
  destruct (lock_step_woken _ _ H) as [l E]. exists (l ++ l'). by rewrite E', E, app_assoc.
Qed.

(** what becomes of a blocked request: it still is blocked, it was woken, or withdrawn *)
Lemma waiter_fate s s' w :
  rtc lock_step s s' → w ∈ waiting s →
  w ∈ waiting s' ∨ (∃ l, woken s' = woken s ++ l ∧ fl_id (w_lock w) ∈ l) ∨
  ∃ s1 s2, rtc lock_step s s1 ∧ w ∈ waiting s1 ∧ withdrawn w s1 s2 ∧ rtc lock_step s2 s'.
Proof.
  induction 1 as [s|s s1 s' H Hrtc IH]; intros Hw; [by left|].
  destruct (lock_step_woke _ _ _ H Hw) as [(l & E & Hor)|Hwd].
  2: { right. right. by exists s, s1. }
  destruct (lock_steps_woken _ _ Hrtc) as [l' E'].
  destruct Hor as [Hw1|Hin]; [|right; left; exists (l ++ l'); rewrite E', E, app_assoc; set_solver].
  destruct (IH Hw1) as [?|[(l2 & E2 & Hin)|(a & b & Ha & Hb)]]; [by left|..]; right.
  - left. exists (l ++ l2). rewrite E2, E, app_assoc. set_solver.
  - right. exists a, b. split; [by eapply rtc_l|done].
Qed.

(** ** Deadlock detection *)

(** an owner is blocked on a lock of another *)
Definition waits_for (s : flocks) (a b : Z) : Prop :=
  ∃ w, w ∈ waiting s ∧ IS_POSIX (w_next w) = true ∧ fl_owner (w_lock w) = a ∧
       fl_owner (w_next w) = b.

Lemma what_owner_spec f s :
  match what_owner_is_waiting_for f s with
  | Some g => waits_for s (fl_owner f) (fl_owner g)
  | None => ∀ b, ¬ waits_for s (fl_owner f) b
  end.
Proof.
  unfold what_owner_is_waiting_for, posix_same_owner.
  destruct (List.find _ _) as [w|] eqn:E; simpl.
  - apply find_some in E as [Hw E]. bprop. exists w. by apply list_elem_of_In in Hw.
  - intros b (w & Hw & Hp & Ha & _). apply list_elem_of_In in Hw.
    pose proof (find_none _ _ E w Hw) as H. simpl in H. by rewrite Hp, Ha, Z.eqb_refl in H.
Qed.

Lemma deadlock_loop_spec n q : ∀ f s,
  (∀ a b b', waits_for s a b → waits_for s a b' → b = b') →
  deadlock_loop n q f s = true ↔
  ∃ k, (1 ≤ k ≤ n)%nat ∧ nsteps (waits_for s) k (fl_owner f) (fl_owner q).
Proof.
  induction n as [|n IH]; intros f s Hfun; simpl; pose proof (what_owner_spec f s) as Hw;
    destruct (what_owner_is_waiting_for f s) as [g|].
  - split; [done|]. intros (k & ? & _). lia.
  - split; [done|]. intros (k & ? & _). lia.
  - unfold posix_same_owner. case_test; bprop.
    + split; [intros _|done]. exists 1%nat. split; [lia|]. apply nsteps_once. congruence.
    + rewrite IH by done. split; intros (k & Hk & Hst).
      * exists (S k). split; [lia|]. by econstructor.
      * destruct k as [|k]; [lia|]. inversion Hst as [|? ? b ? Hb Hst']; subst.
        rewrite (Hfun _ _ _ Hb Hw) in Hst'. destruct k as [|k].
        { inversion Hst'. congruence. }
        exists (S k). split; [lia|done].
  - split; [done|]. intros (k & Hk & Hst). destruct k as [|k]; [lia|].
    inversion Hst as [|? ? b ? Hb Hst']; subst. by apply Hw in Hb.
Qed.

(** ** Theorems *)

(** C3: every lock request does to the table of locks what the abstract
    specification says: granted, it sets or clears exactly the requested bytes
    of its owner; refused, blocked or failing, it leaves the table alone. It
    fails for lack of memory only when an allocation failed, and never when it
    releases the whole file. The list stays grouped, sorted, disjoint and
    merged. *)
Theorem posix_lock_refines nf nf2 q s r s' :
  list_ok (i_flock s) → request_ok nf nf2 q s → __posix_lock_file nf nf2 q s = (r, s') →
  list_ok (i_flock s') ∧
  table_step (mem_ok nf nf2) (lock_at (i_flock s)) q r (lock_at (i_flock s')).
Proof.
  intros Hl Hq E. pose proof (posix_lock_ok _ _ _ _ Hl Hq) as H. rewrite E in H. tauto.
Qed.

(** C16: whatever locks processes take and release on a file and in whatever
    order, two owners never hold conflicting POSIX locks on a byte and two open
    files never hold conflicting flock locks. *)
Theorem locks_exclude s :
  rtc lock_step (MkFlocks [] [] []) s →
  exclusive (lock_at (i_flock s)) ∧ flock_exclusive (i_flock s) ∧ list_ok (i_flock s).
Proof. intros H. destruct (lock_steps_inv _ _ H no_locks_inv). done. Qed.


(** C36: closing a descriptor releases every POSIX lock its owner has on the
    file, whether or not memory can be allocated, and nobody else's. *)
Theorem close_releases alloc id owner tgid filp s :
  list_ok (i_flock s) → id ∉ ids (i_flock s) → id ∉ (fl_id ∘ w_lock <$> waiting s) →
  NoDup (option_list (alloc s).1 ++ option_list (alloc s).2 ++ ids (i_flock s)) →
  ∀ o x, 0 ≤ x ≤ OFFSET_MAX →
    lock_at (i_flock (locks_remove_posix alloc id owner tgid filp s)) o x =
    if o =? owner then None else lock_at (i_flock s) o x.
Proof.
  intros Hl Hid Hw Hn o x Hx. unfold locks_remove_posix, posix_lock_file.
  destruct (i_flock s) as [|f l] eqn:Ef.
  { rewrite Ef. unfold lock_at. simpl. by destruct (o =? owner). }
  set (q := MkLock _ _ _ _ _ _ _ _ _ _). rewrite <- Ef in *.
  assert (request_ok (alloc s).1 (alloc s).2 q s) as Hq.
  { constructor; try done. by right; right. }
  pose proof (posix_lock_ok _ _ _ _ Hl Hq) as H. clear Ef. 
  destruct (__posix_lock_file _ _ _ _) as [r s']. destruct H as (_ & Hst & _). simpl.
  inversion Hst as [T _ _ Hset|Ha _|Hu|Hu|Hu|_ He _|_ Hu]; subst; try done.
  - rewrite Hset. unfold table_set, in_range. simpl.
    rewrite !(proj2 (Z.leb_le _ _)) by lia. by rewrite andb_true_r.
  - by destruct Hu.
Qed.

(** when every owner waits for at most one lock, EDEADLK is answered
    exactly when waiting would close a cycle of at most twelve owners. *)
Theorem deadlock_detection q f s :
  (∀ a b b', waits_for s a b → waits_for s a b' → b = b') →
  posix_locks_deadlock q f s = true ↔
  ∃ k, (1 ≤ k ≤ 11)%nat ∧ nsteps (waits_for s) k (fl_owner f) (fl_owner q).
Proof. apply deadlock_loop_spec. Qed.

(** the 64 bit conversion either refuses or yields exactly the byte range
    the caller described, inside the range of file offsets; it computes
    without overflow as far as the result is used. *)
Theorem flock64_range id owner tgid filp l fl :
  0 ≤ f_pos filp ≤ OFFSET_MAX → 0 ≤ i_size filp ≤ OFFSET_MAX →
  - 2 ^ 63 ≤ l_start l < 2 ^ 63 → - 2 ^ 63 ≤ l_len l < 2 ^ 63 →
  flock64_to_posix_lock id owner tgid filp l = Ret fl →
  let base := (if l_whence l =? SEEK_SET then 0
               else if l_whence l =? SEEK_CUR then f_pos filp else i_size filp) + l_start l in
  0 ≤ fl_start fl ≤ fl_end fl ∧ fl_end fl ≤ OFFSET_MAX ∧
  (fl_start fl, fl_end fl) =
    (if l_len l >? 0 then (base, base + l_len l - 1)
     else if l_len l <? 0 then (base + l_len l, base - 1) else (base, OFFSET_MAX)).
Proof.
  unfold OFFSET_MAX. intros Hp Hi Hs Hl. unfold flock64_to_posix_lock, to_posix_lock.
  set (b0 := if l_whence l =? SEEK_SET then 0 else _).
  destruct (if l_whence l =? SEEK_SET then Ret 0 else _) as [st| |] eqn:Est; try done.
  assert (st = b0 ∧ 0 ≤ b0 < 2 ^ 63) as [-> Hb0].
  { unfold b0. rewrite !s64_id in Est by lia. repeat case_test; simplify_eq; lia. }
  simpl. destruct (s64 (b0 + l_start l) <? 0) eqn:E1; [done|]. bprop.
  assert (b0 + l_start l < 2 ^ 63) as Hst.
  { destruct (Z.lt_ge_cases (b0 + l_start l) (2 ^ 63)); [done|]. exfalso.
    unfold s64 in E1. rewrite <- (Z_mod_plus_full _ (-1)), Z.mod_small in E1 by lia. lia. }
  rewrite (s64_id (b0 + l_start l)) in * by lia.
  destruct (l_len l >? 0) eqn:E2; [|destruct (l_len l <? 0) eqn:E3]; bprop; simpl.
  - destruct (s64 (b0 + l_start l + l_len l - 1) <? b0 + l_start l) eqn:E4; [done|]. bprop.
    assert (b0 + l_start l + l_len l - 1 < 2 ^ 63) as Hen.
    { destruct (Z.lt_ge_cases (b0 + l_start l + l_len l - 1) (2 ^ 63)); [done|]. exfalso.
      unfold s64 in E4. rewrite <- (Z_mod_plus_full _ (-1)), Z.mod_small in E4 by lia. lia. }
    rewrite s64_id in * by lia. destruct (assign_type (l_type l)); intros [= <-]; simpl.
    split_and!; try done; lia.
  - rewrite s64_id by lia. case_test; [done|]. simpl. case_test; [done|]. bprop.
    destruct (assign_type (l_type l)); intros [= <-]; simpl. split_and!; try done; lia.
  - case_test; [done|]. bprop. unfold OFFSET_MAX in *.
    destruct (assign_type (l_type l)); intros [= <-]; simpl. split_and!; try done; lia.
Qed.

(** what F_GETLK64 reports of a lock denotes, given back to F_SETLK64, the
    same range and type. *)
Theorem flock64_roundtrip id owner tgid filp fl :
  lock_wf fl →
  ∃ fl', flock64_to_posix_lock id owner tgid filp (posix_lock_to_flock64 fl) = Ret fl' ∧
    (fl_start fl', fl_end fl', fl_type fl') = (fl_start fl, fl_end fl, fl_type fl).
Proof.
  intros [_ Ht Hr]. unfold OFFSET_MAX in Hr. unfold flock64_to_posix_lock, to_posix_lock. simpl.
  rewrite s64_id by lia. rewrite (proj2 (Z.ltb_ge _ _)) by lia.
  assert (assign_type (fl_type fl) = Ret (fl_type fl)) as Ha.
  { unfold assign_type. destruct Ht as [-> | ->]; done. }
  destruct (fl_end fl =? OFFSET_MAX) eqn:E; bprop; simpl.
  - rewrite (proj2 (Z.ltb_ge _ _)) by (unfold OFFSET_MAX; lia). rewrite Ha. eexists. split; [done|].
    simpl. rewrite E. done.
  - unfold OFFSET_MAX in E. rewrite (s64_id (fl_end fl - fl_start fl + 1)) by lia.
    rewrite Z.gtb_ltb, (proj2 (Z.ltb_lt _ _)) by lia. simpl. rewrite s64_id by lia.
    rewrite (proj2 (Z.ltb_ge _ _)) by lia. rewrite Ha. eexists. split; [done|]. simpl. f_equal. f_equal. lia.
Qed.


(** [flock_lock_file] is made of these steps, other processes running in the
    middle when it gives up an older lock first *)
Lemma flock_lock_file_steps resched new filp q s :
  flock_request q → has_flag q FL_ACCESS = false → (∀ s, rtc lock_step s (resched s)) →
  (∀ n, new = Some n → (n ∉ ids (i_flock s)) ∧
     ∀ s', n ∉ ids (i_flock s') → n ∉ ids (i_flock (resched s'))) →
  rtc lock_step s (flock_lock_file resched new filp q s).2.
Proof.
  intros Hq Ha Hr Hn. unfold flock_lock_file. rewrite Ha.
  destruct (fl_type q =? F_UNLCK) eqn:Eu; (destruct new as [n|] eqn:En; [|try done]).
  all: destruct (List.find _ _) as [f|] eqn:Ef; try done.
  all: try (by apply rtc_once, step_flock; [done|apply (Hn n)]).
  all: case_test; [done|]; apply find_some in Ef as [Hf _]; apply list_elem_of_In in Hf;
    pose proof (flock_part_spec (i_flock s)) as (Es & Hnp & _); rewrite Forall_forall in Hnp;
    assert (lock_step s (locks_delete_lock (fl_id f) s)) as Hd
      by (apply step_funlock; [rewrite Es; set_solver|by apply Hnp]).
  - by apply rtc_once.
  - by apply rtc_once.
  - eapply rtc_l; [exact Hd|]. eapply rtc_r; [apply Hr|]. apply step_flock; [done|].
    destruct (Hn n eq_refl) as [Hn1 Hn2]. apply Hn2. intros Hin. apply Hn1. simpl in Hin.
    apply list_elem_of_fmap in Hin as (x & -> & Hx). apply list_elem_of_fmap_2.
    apply list_elem_of_In, filter_In in Hx as [Hx _]. by apply list_elem_of_In.
Qed.

(** ** Instances *)

Definition example_lock (id owner flags type start end_ : Z) : file_lock :=
  MkLock id owner owner 5 flags type start end_ 0 0.
Definition no_locks : flocks := MkFlocks [] [] [].

Ltac solve_request :=
  constructor; simpl; [reflexivity|tauto|unfold OFFSET_MAX; lia|set_solver|set_solver|
    apply (bool_decide_unpack _); vm_compute; exact I].

(** owner 7 locks the first hundred bytes exclusively *)
Definition whole_request : file_lock := example_lock 10 7 FL_POSIX F_WRLCK 0 99.
Definition one_lock : flocks := (__posix_lock_file (Some 1) (Some 2) whole_request no_locks).2.

Lemma whole_request_ok : request_ok (Some 1) (Some 2) whole_request no_locks.
Proof. solve_request. Qed.
Lemma one_lock_steps : rtc lock_step no_locks one_lock.
Proof. exact (rtc_once _ _ (step_posix _ _ _ _ whole_request_ok)). Qed.
Lemma one_lock_ok : list_ok (i_flock one_lock).
Proof. exact (li_list _ (lock_steps_inv _ _ one_lock_steps no_locks_inv)). Qed.

(** it downgrades the middle to a shared lock, which splits the old lock *)
Definition middle_request : file_lock := example_lock 11 7 FL_POSIX F_RDLCK 40 59.
Lemma middle_request_ok : request_ok (Some 3) (Some 4) middle_request one_lock.
Proof. solve_request. Qed.

Lemma posix_lock_refines_witness :
  let '(r, s') := __posix_lock_file (Some 3) (Some 4) middle_request one_lock in
  r = Ret 0 ∧ length (i_flock s') = 3%nat ∧
  table_step true (lock_at (i_flock one_lock)) middle_request r (lock_at (i_flock s')).
Proof.
  refine (conj eq_refl (conj eq_refl (proj2 (posix_lock_refines _ _ _ _ _ _ one_lock_ok
    middle_request_ok eq_refl)))).
Defined.

(** another owner asks for a byte of it and sleeps *)
Definition other_request : file_lock :=
  example_lock 12 8 (Z.lor FL_POSIX FL_SLEEP) F_RDLCK 50 50.
Lemma other_request_ok : request_ok (Some 3) (Some 4) other_request one_lock.
Proof. solve_request. Qed.
Definition blocked : flocks := (__posix_lock_file (Some 3) (Some 4) other_request one_lock).2.
Lemma blocked_steps : rtc lock_step no_locks blocked.
Proof.
  exact (rtc_r _ _ _ one_lock_steps (step_posix _ _ _ _ other_request_ok)).
Qed.

Lemma locks_exclude_witness : exclusive (lock_at (i_flock blocked)) ∧ length (waiting blocked) = 1%nat.
Proof. exact (conj (proj1 (locks_exclude _ blocked_steps)) eq_refl). Defined.

(** the first owner unlocks the file, which wakes the other *)
Definition unlock_request : file_lock := example_lock 15 7 FL_POSIX F_UNLCK 0 OFFSET_MAX.
Lemma unlock_request_ok : request_ok (Some 3) (Some 4) unlock_request blocked.
Proof. solve_request. Qed.
Definition unlocked : flocks := (__posix_lock_file (Some 3) (Some 4) unlock_request blocked).2.


Lemma close_releases_witness :
  lock_at (i_flock (locks_remove_posix (λ _, (None, None)) 20 7 7 5 one_lock)) 7 50 = None.
Proof.
  refine (close_releases (λ _, (None, None)) 20 7 7 5 one_lock one_lock_ok _ _ _ 7 50 _).
  - simpl. set_solver.
  - simpl. set_solver.
  - apply (bool_decide_unpack _). vm_compute. exact I.
  - unfold OFFSET_MAX. lia.
Defined.

(** 8 waits for 7; 7 must not wait for 8 *)
Lemma deadlock_witness :
  posix_locks_deadlock (example_lock 13 7 FL_POSIX F_WRLCK 0 0)
    (example_lock 14 8 FL_POSIX F_WRLCK 200 200) blocked = true.
Proof.
  apply (deadlock_detection (example_lock 13 7 FL_POSIX F_WRLCK 0 0)
    (example_lock 14 8 FL_POSIX F_WRLCK 200 200) blocked).
  - intros a b b' (w & Hw & _ & <- & <-) (w' & Hw' & _ & E & <-).
    apply list_elem_of_singleton in Hw, Hw'. by subst.
  - exists 1%nat. split; [lia|]. apply nsteps_once.
    exists (MkWaiter other_request (locks_copy_lock 1 whole_request)).
    split; [apply list_elem_of_In; left; reflexivity|]. split_and!; reflexivity.
Defined.

Definition example_file : file := MkFile 5 100 1000 true true.
Lemma flock64_range_witness :
  ∃ fl, flock64_to_posix_lock 1 7 7 example_file (MkFlock F_WRLCK SEEK_END 0 (-10) 0) = Ret fl ∧
    (fl_start fl, fl_end fl) = (990, 999).
Proof.
  eexists. split; [reflexivity|].
  refine (proj2 (proj2 (flock64_range 1 7 7 example_file (MkFlock F_WRLCK SEEK_END 0 (-10) 0) _
    _ _ _ _ eq_refl))); unfold OFFSET_MAX; simpl; lia.
Defined.

Lemma flock64_roundtrip_witness :
  ∃ fl', flock64_to_posix_lock 1 7 7 example_file
      (posix_lock_to_flock64 (locks_copy_lock 1 middle_request)) = Ret fl' ∧
    (fl_start fl', fl_end fl', fl_type fl') = (40, 59, F_RDLCK).
Proof.
  refine (flock64_roundtrip 1 7 7 example_file (locks_copy_lock 1 middle_request) _).
  constructor; simpl; [reflexivity|tauto|unfold OFFSET_MAX; lia].
Defined.
