(* ===== verification/Lease.v ===== *)
(** * Leases: the second half of fs/locks.c

    A lease is a promise that its holder is told before another process opens
    the file in a conflicting way; the opener waits until the holder gives the
    lease up or the break time has passed. Leases are the first locks of the
    inode's list. The fasync and owner bookkeeping of [fcntl] is left out but
    for its allocation failure. *)

From S2P Require Import Prelude Cred Groups Locks LockTable LockSteps.

Definition FL_DOWNGRADE_PENDING : Z := 256.
Definition FL_UNLOCK_PENDING : Z := 512.
Definition CAP_LEASE : Z := 28.
Definition HZ : Z := 100.
Definition O_ACCMODE : Z := 3.
Definition O_NONBLOCK : Z := 2048.

Definition lease_breaking (fl : file_lock) : bool :=
  has_flag fl (Z.lor FL_UNLOCK_PENDING FL_DOWNGRADE_PENDING).
Definition target_leasetype (fl : file_lock) : Z :=
  if has_flag fl FL_UNLOCK_PENDING then F_UNLCK
  else if has_flag fl FL_DOWNGRADE_PENDING then F_RDLCK
  else fl_type fl.

Definition lease_init (id files tgid filp type : Z) : cres file_lock :=
  type ← assign_type type;
  Ret (MkLock id files tgid filp FL_LEASE type 0 OFFSET_MAX 0 0).
Definition lease_alloc (id : option Z) (files tgid filp type : Z) : cres file_lock :=
  match id with
  | None => Err ENOMEM
  | Some id => match lease_init id files tgid filp type with
               | Err _ => Err EINVAL
               | r => r
               end
  end.

Definition lease_clear_pending (arg : Z) (fl : file_lock) : file_lock :=
  let fl := if arg =? F_UNLCK
            then set_flags (Z.land (fl_flags fl) (Z.lnot FL_UNLOCK_PENDING)) fl else fl in
  if (arg =? F_UNLCK) || (arg =? F_RDLCK)
  then set_flags (Z.land (fl_flags fl) (Z.lnot FL_DOWNGRADE_PENDING)) fl else fl.

(** the lease itself, after [lease_modify] changed (and not deleted) it *)
Definition lease_changed (arg : Z) (fl : file_lock) : file_lock :=
  lease_clear_pending arg (set_type arg fl).

Definition lease_modify (id arg : Z) (s : flocks) : cres () * flocks :=
  match assign_type arg with
  | Ret arg =>
      let s := locks_wake_up_blocks id (with_list (upd id (lease_changed arg) (i_flock s)) s) in
      (Ret tt, if arg =? F_UNLCK then locks_delete_lock id s else s)
  | Err e => (Err e, s)
  | UB => (UB, s)
  end.

(** 0 means never; otherwise wrap-around comparison of the tick counter *)
Definition past_time (jiffies then_ : Z) : bool :=
  if then_ =? 0 then false else s32 (then_ - jiffies) <? 0.

(** the leases from the front that are being broken and have run out of time *)
Fixpoint time_out_loop (jiffies : Z) (l : list file_lock) (s : flocks) : flocks :=
  match l with
  | [] => s
  | fl :: l' =>
      if IS_LEASE fl && lease_breaking fl then
        let s := if past_time jiffies (fl_downgrade_time fl)
                 then (lease_modify (fl_id fl) F_RDLCK s).2 else s in
        let s := if past_time jiffies (fl_break_time fl)
                 then (lease_modify (fl_id fl) F_UNLCK s).2 else s in
        time_out_loop jiffies l' s
      else s
  end.
Definition time_out_leases (jiffies : Z) (s : flocks) : flocks :=
  time_out_loop jiffies (i_flock s) s.

(** the leases: the locks in front of the first one of another kind *)
Fixpoint leases (l : list file_lock) : list file_lock :=
  match l with
  | fl :: l' => if IS_LEASE fl then fl :: leases l' else []
  | [] => []
  end.

(** ** Breaking leases *)

(** when to give up waiting for the holder *)
Definition lease_deadline (jiffies lease_break_time : Z) : Z :=
  if lease_break_time >? 0 then
    let t := u32 (jiffies + lease_break_time * HZ) in if t =? 0 then 1 else t
  else 0.

Definition mark_breaking (want_write : bool) (break_time : Z) (flock fl : file_lock) : file_lock :=
  if want_write then
    if has_flag fl FL_UNLOCK_PENDING then fl
    else MkLock (fl_id fl) (fl_owner fl) (fl_pid fl) (fl_file fl)
           (Z.lor (fl_flags fl) FL_UNLOCK_PENDING) (fl_type fl) (fl_start fl) (fl_end fl)
           break_time (fl_downgrade_time fl)
  else
    if lease_breaking flock then fl
    else MkLock (fl_id fl) (fl_owner fl) (fl_pid fl) (fl_file fl)
           (Z.lor (fl_flags fl) FL_DOWNGRADE_PENDING) (fl_type fl) (fl_start fl) (fl_end fl)
           (fl_break_time fl) break_time.

(** Marks every lease of the list. [lease_breaking(flock)] looks at the first
    lease, which the loop itself changes. *)
Fixpoint mark_loop (want_write : bool) (break_time : Z) (flock : file_lock)
    (l : list file_lock) : list file_lock :=
  match l with
  | fl :: l' =>
      if IS_LEASE fl then
        let fl' := mark_breaking want_write break_time flock fl in
        let flock := if fl_id fl =? fl_id flock then fl' else flock in
        fl' :: mark_loop want_write break_time flock l'
      else l
  | [] => []
  end.

(** what the wait ends with: woken up or timed out, after the environment
    ran, or interrupted; and the time of day then *)
Inductive break_event :=
  | Woken (env : flocks → flocks) (jiffies : Z)
  | TimedOut (env : flocks → flocks) (jiffies : Z)
  | Interrupted (env : flocks → flocks).

Fixpoint break_wait (events : list break_event) (new_fl flock : file_lock) (s : flocks) :
    option (cres Z) * flocks :=
  match locks_insert_block flock new_fl s with
  | UB => (Some UB, s)
  | Err e => (Some (Err e), s)
  | Ret s =>
      let again events (s : flocks) :=
        match List.find (locks_conflict new_fl) (leases (i_flock s)) with
        | Some flock => break_wait events new_fl flock s
        | None => (Some (Ret 0), s)
        end in
      match events with
      | [] => (None, s)
      | Interrupted env :: _ =>
          (Some (Err ERESTARTSYS), __locks_delete_block new_fl (env s))
      | Woken env _ :: events => again events (__locks_delete_block new_fl (env s))
      | TimedOut env j :: events =>
          again events (time_out_leases j (__locks_delete_block new_fl (env s)))
      end
  end.

Definition __break_lease (id : option Z) (files tgid jiffies lease_break_time mode : Z)
    (events : list break_event) (s : flocks) : option (cres Z) * flocks :=
  let want_write := negb (Z.land mode O_ACCMODE =? 0) in
  match lease_alloc id files tgid 0 (if want_write then F_WRLCK else F_RDLCK) with
  | Err e => (Some (Err e), s)
  | UB => (Some UB, s)
  | Ret new_fl =>
      let s := time_out_leases jiffies s in
      match leases (i_flock s) with
      | [] => (Some (Ret 0), s)
      | flock :: _ =>
          if negb (locks_conflict flock new_fl) then (Some (Ret 0), s) else
          let i_have_this_lease := existsb (λ fl, fl_owner fl =? files) (leases (i_flock s)) in
          let break_time := lease_deadline jiffies lease_break_time in
          let s := with_list (mark_loop want_write break_time flock (i_flock s)) s in
          if i_have_this_lease || truth (Z.land mode O_NONBLOCK) then (Some (Err EAGAIN), s)
          else match i_flock s with
               | flock :: _ => break_wait events new_fl flock s
               | [] => (Some UB, s)
               end
      end
  end.

(** ** Setting and removing leases *)

(** how the inode is used: open for writing, other dentry or inode users *)
Record inode_use := MkUse { i_writecount : Z; d_count : Z; i_count : Z }.

Definition generic_add_lease (leases_enable : bool) (use : inode_use) (filp arg : Z)
    (lease : file_lock) (s : flocks) : cres () * flocks :=
  if (arg =? F_RDLCK) && (0 <? i_writecount use) then (Err EAGAIN, s)
  else if (arg =? F_WRLCK) && ((1 <? d_count use) || (1 <? i_count use)) then (Err EAGAIN, s)
  else
  let ls := leases (i_flock s) in
  if existsb (λ fl, negb (fl_file fl =? filp)
                    && ((arg =? F_WRLCK) || has_flag fl FL_UNLOCK_PENDING)) ls
  then (Err EAGAIN, s)
  else match List.find (λ fl, fl_file fl =? filp) (rev ls) with
       | Some mine => lease_modify (fl_id mine) arg s
       | None =>
           if negb leases_enable then (Err EINVAL, s)
           else (Ret tt, with_list (ls ++ lease :: drop (length ls) (i_flock s)) s)
       end.

Definition generic_delete_lease (filp : Z) (s : flocks) : cres () * flocks :=
  match List.find (λ fl, fl_file fl =? filp) (leases (i_flock s)) with
  | Some fl => lease_modify (fl_id fl) F_UNLCK s
  | None => (Err EAGAIN, s)
  end.

Definition generic_setlease (leases_enable : bool) (use : inode_use) (c : cred) (i_uid : Z)
    (regular : bool) (jiffies filp arg : Z) (lease : file_lock) (s : flocks) :
    cres () * flocks :=
  if negb (cr_fsuid c =? i_uid) && negb (cap_capable c init_user_ns CAP_LEASE)
  then (Err EACCES, s)
  else if negb regular then (Err EINVAL, s)
  else
    let s := time_out_leases jiffies s in
    if arg =? F_UNLCK then generic_delete_lease filp s
    else if (arg =? F_RDLCK) || (arg =? F_WRLCK)
    then generic_add_lease leases_enable use filp arg lease s
    else (UB, s).

(** [id] is the new lock structure, [fasync] whether its companion could be
    allocated *)
Definition fcntl_setlease (leases_enable : bool) (use : inode_use) (c : cred) (i_uid : Z)
    (regular : bool) (jiffies files tgid : Z) (id : option Z) (fasync : bool) (filp arg : Z)
    (s : flocks) : cres () * flocks :=
  let setlease lease :=
    generic_setlease leases_enable use c i_uid regular jiffies filp arg lease s in
  if arg =? F_UNLCK then
    match lease_init 0 files tgid filp F_UNLCK with
    | Ret fl => setlease fl
    | Err e => (Err e, s)
    | UB => (UB, s)
    end
  else
    match lease_alloc id files tgid filp arg with
    | Ret fl => if negb fasync then (Err ENOMEM, s) else setlease fl
    | Err e => (Err e, s)
    | UB => (UB, s)
    end.

Definition fcntl_getlease (jiffies filp : Z) (s : flocks) : Z * flocks :=
  let s := time_out_leases jiffies s in
  (match List.find (λ fl, fl_file fl =? filp) (leases (i_flock s)) with
   | Some fl => target_leasetype fl
   | None => F_UNLCK
   end, s).

(** the last close of an open file; a POSIX lock that is left is a bug *)
Fixpoint remove_flock_loop (filp : Z) (l : list file_lock) (s : flocks) : cres flocks :=
  match l with
  | [] => Ret s
  | fl :: l' =>
      if fl_file fl =? filp then
        if IS_FLOCK fl then remove_flock_loop filp l' (locks_delete_lock (fl_id fl) s)
        else if IS_LEASE fl then
          remove_flock_loop filp l' (lease_modify (fl_id fl) F_UNLCK s).2
        else UB
      else remove_flock_loop filp l' s
  end.
Definition locks_remove_flock (filp : Z) (s : flocks) : cres flocks :=
  remove_flock_loop filp (i_flock s) s.

(** ** The leases of a list *)

Lemma leases_app ls rest :
  Forall (λ f, IS_LEASE f = true) ls →
  match rest with [] => True | f :: _ => IS_LEASE f = false end →
  leases (ls ++ rest) = ls.
Proof.
  intros Hl Hr. induction Hl as [|f ls Hf _ IH]; simpl.
  - destruct rest as [|f rest]; [done|]. simpl. by rewrite Hr.
  - by rewrite Hf, IH.
Qed.

Lemma leases_split l :
  ∃ rest, l = leases l ++ rest ∧ Forall (λ f, IS_LEASE f = true) (leases l) ∧
    match rest with [] => True | f :: _ => IS_LEASE f = false end.
Proof.
  induction l as [|f l (rest & IH1 & IH2 & IH3)]; simpl; [by exists []|].
  destruct (IS_LEASE f) eqn:E.
  - exists rest. split_and!; [simpl; congruence|by constructor|done].
  - exists (f :: l). done.
Qed.

(** an exclusive lease is the only one, and an open file has at most one *)
Record lease_ok (l : list file_lock) : Prop := {
  le_ids : NoDup (ids l);
  le_files : NoDup (fl_file <$> leases l);
  le_write a : a ∈ leases l → fl_type a = F_WRLCK → leases l = [a]
}.

Lemma has_flag_clear f b v :
  Z.land b v = 0 → has_flag (set_flags (Z.land (fl_flags f) (Z.lnot v)) f) b = has_flag f b.
Proof.
  intros Hv. unfold has_flag. f_equal. simpl. apply Z.bits_inj'. intros i Hi.
  rewrite !Z.land_spec, Z.lnot_spec by done.
  assert (Z.testbit (Z.land b v) i = false) as H by (rewrite Hv; apply Z.bits_0).
  rewrite Z.land_spec in H. by destruct (Z.testbit (fl_flags f) i), (Z.testbit b i), (Z.testbit v i).
Qed.

Lemma lease_changed_lease arg f : IS_LEASE (lease_changed arg f) = IS_LEASE f.
Proof.
  unfold lease_changed, lease_clear_pending, IS_LEASE.
  repeat case_test; rewrite ?(has_flag_clear _ FL_LEASE) by done; done.
Qed.
Lemma lease_changed_fields arg f :
  fl_id (lease_changed arg f) = fl_id f ∧ fl_file (lease_changed arg f) = fl_file f ∧
  fl_type (lease_changed arg f) = arg.
Proof. unfold lease_changed, lease_clear_pending. by repeat case_test. Qed.

Lemma lease_modify_list l1 a l2 rest arg s :
  i_flock s = (l1 ++ a :: l2) ++ rest → NoDup (ids (i_flock s)) →
  arg = F_RDLCK ∨ arg = F_WRLCK ∨ arg = F_UNLCK →
  (lease_modify (fl_id a) arg s).1 = Ret tt ∧
  i_flock (lease_modify (fl_id a) arg s).2 =
    (l1 ++ (if arg =? F_UNLCK then [] else [lease_changed arg a]) ++ l2) ++ rest.
Proof.
  intros Es Hnd Harg. unfold lease_modify.
  assert (assign_type arg = Ret arg) as -> by (unfold assign_type; destruct Harg as [->|[->| ->]]; done).
  split; [done|]. rewrite Es in Hnd |- *. rewrite <- app_assoc in Hnd |- *. simpl in *.
  assert (upd (fl_id a) (lease_changed arg) (l1 ++ a :: l2 ++ rest) =
    l1 ++ lease_changed arg a :: l2 ++ rest) as Hu by (by apply upd_at).
  destruct (arg =? F_UNLCK) eqn:E; simpl; rewrite Hu; [|by napp].
  replace (fl_id a) with (fl_id (lease_changed arg a)) by apply lease_changed_fields.
  rewrite filter_id_mid; [by napp|]. by rewrite (ids_same _ _ a) by apply lease_changed_fields.
Qed.

(** the list and its leases after a lease was changed or removed *)
Lemma lease_modify_leases a arg s :
  a ∈ leases (i_flock s) → NoDup (ids (i_flock s)) →
  arg = F_RDLCK ∨ arg = F_WRLCK ∨ arg = F_UNLCK →
  ∃ l1 l2 rest,
    let new := if arg =? F_UNLCK then [] else [lease_changed arg a] in
    let s' := (lease_modify (fl_id a) arg s).2 in
    leases (i_flock s) = l1 ++ a :: l2 ∧ i_flock s = (l1 ++ a :: l2) ++ rest ∧
    leases (i_flock s') = l1 ++ new ++ l2 ∧ i_flock s' = (l1 ++ new ++ l2) ++ rest.
Proof.
  intros Ha Hid Harg. destruct (leases_split (i_flock s)) as (rest & Es & Hls & Hr).
  apply list_elem_of_split in Ha as (l1 & l2 & El). exists l1, l2, rest. rewrite El in Es, Hls.
  destruct (lease_modify_list l1 a l2 rest arg s Es Hid Harg) as [_ E].
  rewrite Forall_app, Forall_cons in Hls. destruct Hls as (Hl1 & Hla & Hl2).
  cbv zeta. split_and!; [done|done| |done]. rewrite E.
  apply leases_app; [|done]. rewrite !Forall_app. split_and!; [done| |done].
  case_test; constructor; [by rewrite lease_changed_lease|constructor].
Qed.

Lemma singleton_split {A} (l1 l2 : list A) a b : l1 ++ a :: l2 = [b] → l1 = [] ∧ l2 = [] ∧ a = b.
Proof. destruct l1 as [|x [|y l1]], l2; naive_solver. Qed.

(** changing a lease keeps the invariant: a lease may always become shared
    or go, and become exclusive when it is the only one *)
Lemma lease_modify_ok a arg s :
  a ∈ leases (i_flock s) → lease_ok (i_flock s) →
  arg = F_RDLCK ∨ arg = F_UNLCK ∨ arg = F_WRLCK ∧ leases (i_flock s) = [a] →
  lease_ok (i_flock (lease_modify (fl_id a) arg s).2).
Proof.
  intros Ha [Hid Hf Hw] Harg.
  destruct (lease_modify_leases a arg s Ha Hid) as (l1 & l2 & rest & El & Es & El' & Es'); [tauto|].
  cbv zeta in El', Es'. set (new := if arg =? F_UNLCK then [] else _) in *.
  rewrite El in Hf, Hw, Harg. constructor; rewrite ?El'.
  - rewrite Es, !ids_app in Hid. rewrite Es', !ids_app. eapply sublist_NoDup; [exact Hid|].
    apply sublist_app; [|done]. apply sublist_app; [done|]. unfold new. case_test; simpl.
    + by apply sublist_cons.
    + destruct (lease_changed_fields arg a) as [-> _]. by apply sublist_skip.
  - rewrite !fmap_app in Hf |- *. eapply sublist_NoDup; [exact Hf|].
    apply sublist_app; [done|]. unfold new. case_test; simpl; [by apply sublist_cons|].
    destruct (lease_changed_fields arg a) as (_ & -> & _). by apply sublist_skip.
  - intros b Hb Hbw. rewrite !elem_of_app in Hb. destruct Hb as [Hb|[Hb|Hb]].
    + destruct (singleton_split l1 l2 a b) as (-> & -> & ->); [apply Hw; set_solver|set_solver].
    + unfold new in *. destruct (arg =? F_UNLCK) eqn:E; [set_solver|].
      apply list_elem_of_singleton in Hb as ->. pose proof (lease_changed_fields arg a) as (_ & _ & Et).
      destruct Harg as [->|[->|[-> H]]]; [by rewrite Et in Hbw|done|].
      by apply singleton_split in H as (-> & -> & _).
    + destruct (singleton_split l1 l2 a b) as (-> & -> & ->); [apply Hw; set_solver|set_solver].
Qed.

(** ** Leases that run out of time *)

(** what is left of the list, without the wakeups *)
Fixpoint timed (j : Z) (l : list file_lock) : list file_lock :=
  match l with
  | fl :: l' =>
      if IS_LEASE fl && lease_breaking fl then
        (if past_time j (fl_break_time fl) then []
         else [if past_time j (fl_downgrade_time fl) then lease_changed F_RDLCK fl else fl])
        ++ timed j l'
      else l
  | [] => []
  end.

Lemma lease_modify_at pre a l arg s :
  i_flock s = pre ++ a :: l → NoDup (ids (i_flock s)) → arg = F_RDLCK ∨ arg = F_UNLCK →
  i_flock (lease_modify (fl_id a) arg s).2 =
    pre ++ (if arg =? F_UNLCK then [] else [lease_changed arg a]) ++ l.
Proof.
  intros Es Hnd Harg. destruct (lease_modify_list pre a l [] arg s) as [_ H];
    [by rewrite app_nil_r|done|tauto|]. by rewrite app_nil_r in H.
Qed.

Lemma time_out_loop_list j l : ∀ pre s,
  i_flock s = pre ++ l → NoDup (ids (i_flock s)) →
  i_flock (time_out_loop j l s) = pre ++ timed j l.
Proof.
  induction l as [|fl l IH]; intros pre s Es Hnd; cbn [time_out_loop timed]; [done|].
  case_test; [|done].
  set (s1 := if past_time j (fl_downgrade_time fl) then (lease_modify (fl_id fl) F_RDLCK s).2 else s).
  set (fl1 := if past_time j (fl_downgrade_time fl) then lease_changed F_RDLCK fl else fl).
  assert (fl_id fl1 = fl_id fl) as Hid
    by (unfold fl1; case_test; [apply lease_changed_fields|done]).
  assert (i_flock s1 = pre ++ fl1 :: l) as Es1.
  { unfold s1, fl1. case_test; [|done]. by rewrite (lease_modify_at pre fl l) by tauto. }
  assert (NoDup (ids (i_flock s1))) as Hnd1
    by (rewrite Es1, (ids_same _ fl1 fl) by done; by rewrite <- Es).
  case_test.
  - rewrite app_nil_l. assert (i_flock (lease_modify (fl_id fl) F_UNLCK s1).2 = pre ++ l) as Es2.
    { rewrite <- Hid. by rewrite (lease_modify_at pre fl1 l) by tauto. }
    apply IH; [done|]. rewrite Es2. rewrite Es1 in Hnd1.
    eapply sublist_NoDup; [exact Hnd1|apply ids_drop].
  - rewrite app_assoc. apply IH; [|done]. by rewrite Es1, <- app_assoc.
Qed.

Lemma time_out_list j s :
  NoDup (ids (i_flock s)) → i_flock (time_out_leases j s) = timed j (i_flock s).
Proof. intros H. by apply (time_out_loop_list j (i_flock s) []). Qed.

(** only leases are touched, and every lease left was there, perhaps with a
    stronger type *)
Inductive left_over : list file_lock → list file_lock → Prop :=
  | left_all l : left_over l l
  | left_gone f l l' : left_over l l' → left_over (f :: l) l'
  | left_one f g l l' :
      IS_LEASE g = IS_LEASE f → fl_id g = fl_id f → fl_file g = fl_file f →
      (g = f ∨ fl_type g = F_RDLCK) →
      left_over l l' → left_over (f :: l) (g :: l').

Lemma timed_left j l : left_over (leases l) (leases (timed j l)).
Proof.
  induction l as [|f l IH]; simpl; [constructor|].
  destruct (IS_LEASE f) eqn:E; simpl; [|rewrite E; constructor].
  destruct (lease_breaking f); [|simpl; rewrite E; constructor].
  case_test; simpl; [by constructor|].
  destruct (lease_changed_fields F_RDLCK f) as (H1 & H2 & H3).
  assert (IS_LEASE (if past_time j (fl_downgrade_time f) then lease_changed F_RDLCK f else f) = true)
    as -> by (case_test; [by rewrite lease_changed_lease|done]).
  constructor; try (case_test; auto); [..|done]; by rewrite ?lease_changed_lease.
Qed.

Lemma left_sublists l l' :
  left_over l l' → ids l' `sublist_of` ids l ∧ (fl_file <$> l') `sublist_of` (fl_file <$> l) ∧
  ∀ g, g ∈ l' → fl_type g = F_RDLCK ∨ g ∈ l.
Proof.
  induction 1 as [l|f l l' _ (H1 & H2 & H3)|f g l l' _ Hid Hf Ht _ (H1 & H2 & H3)].
  - split_and!; auto.
  - split_and!; [by apply sublist_cons|by apply sublist_cons|set_solver].
  - simpl. rewrite Hid, Hf. split_and!; [by apply sublist_skip|by apply sublist_skip|].
    intros x [-> |Hx]%elem_of_cons; [|set_solver]. destruct Ht as [->|]; set_solver.
Qed.

Lemma timed_ids j l : ids (timed j l) `sublist_of` ids l.
Proof.
  induction l as [|f l IH]; simpl; [done|].
  repeat case_test; simpl; rewrite ?(proj1 (lease_changed_fields F_RDLCK f)); try done;
    try (by apply sublist_cons); by apply sublist_skip.
Qed.

Lemma time_out_ok j s : lease_ok (i_flock s) → lease_ok (i_flock (time_out_leases j s)).
Proof.
  intros [Hid Hf Hw]. rewrite time_out_list by done.
  destruct (left_sublists _ _ (timed_left j (i_flock s))) as (H1 & H2 & H3). constructor.
  - eapply sublist_NoDup; [exact Hid|apply timed_ids].
  - eapply sublist_NoDup; [exact Hf|exact H2].
  - intros a Ha Hat. destruct (H3 _ Ha) as [H|H]; [by rewrite H in Hat|].
    specialize (Hw _ H Hat). rewrite Hw in H1. simpl in H1.
    apply sublist_length in H1. unfold ids in H1. rewrite length_fmap in H1.
    destruct (leases (timed j (i_flock s))) as [|x [|y k]]; simpl in *; [set_solver| |lia].
    by apply list_elem_of_singleton in Ha as ->.
Qed.

(** ** Breaking *)

Definition open_clear (want_write : bool) (l : list file_lock) : Prop :=
  if want_write then leases l = [] else ∀ a, a ∈ leases l → fl_type a ≠ F_WRLCK.

Lemma find_conflict_none new_fl (w : bool) l :
  fl_type new_fl = (if w then F_WRLCK else F_RDLCK) →
  List.find (locks_conflict new_fl) (leases l) = None → open_clear w l.
Proof.
  intros Ht H. destruct w; simpl.
  - destruct (leases l) as [|a k]; [done|]. simpl in H. unfold locks_conflict in H at 1.
    by rewrite Ht, orb_true_r in H.
  - intros a Ha%list_elem_of_In Hw. apply (List.find_none _ _ H) in Ha. unfold locks_conflict in Ha.
    by rewrite Hw in Ha.
Qed.

(** a wait ends without a conflicting lease, whatever others did meanwhile *)
Lemma break_wait_done new_fl (w : bool) s' :
  fl_type new_fl = (if w then F_WRLCK else F_RDLCK) →
  ∀ events flock s, break_wait events new_fl flock s = (Some (Ret 0), s') → open_clear w (i_flock s').
Proof.
  intros Ht. induction events as [|e events IH]; intros flock s; simpl;
    (destruct (locks_insert_block flock new_fl s) as [s1| |]; [|done|done]); [done|].
  destruct e as [env j|env j|env]; [..|done];
    (destruct (List.find _ _) eqn:E; [apply IH|]; intros [= <-]; by eapply find_conflict_none).
Qed.

Lemma lease_alloc_type id files tgid filp t f :
  lease_alloc id files tgid filp t = Ret f → fl_type f = t ∧ id = Some (fl_id f).
Proof.
  unfold lease_alloc, lease_init, assign_type. destruct id; [|done].
  by destruct (_ || _); intros [= <-].
Qed.

(** C31: an open that was let through by [__break_lease] finds no lease in its
    way: none at all when it opens for writing, no exclusive one when it
    opens for reading. This holds whatever other processes did to the list
    while the open slept. *)
Theorem break_lease_done id files tgid j lbt mode events s s' :
  lease_ok (i_flock s) →
  __break_lease id files tgid j lbt mode events s = (Some (Ret 0), s') →
  open_clear (negb (Z.land mode O_ACCMODE =? 0)) (i_flock s').
Proof.
  intros Hok. unfold __break_lease. set (w := negb _).
  destruct (lease_alloc _ _ _ _ _) as [nf| |] eqn:En; [|done|done]. apply lease_alloc_type in En as [Ht _].
  apply (time_out_ok j) in Hok. set (s1 := time_out_leases j s) in *. clearbody s1.
  destruct (leases (i_flock s1)) as [|fl ls] eqn:El.
  { intros [= <-]. unfold open_clear. rewrite El. destruct w; set_solver. }
  destruct (locks_conflict fl nf) eqn:Ec; simpl.
  - case_test; [done|]. destruct (mark_loop _ _ _ _); [done|]. by apply break_wait_done.
  - intros [= <-]. unfold locks_conflict in Ec. bprop. unfold open_clear. destruct w; [congruence|].
    intros a Ha Haw. pose proof (le_write _ Hok a Ha Haw) as Hone. rewrite El in Hone. simplify_eq.
Qed.

(** what marking does to the leases of the list when it breaks them for a
    writer *)
Lemma mark_loop_write bt flock l rest :
  Forall (λ f, IS_LEASE f = true) l →
  match rest with [] => True | f :: _ => IS_LEASE f = false end →
  mark_loop true bt flock (l ++ rest) = (mark_breaking true bt flock <$> l) ++ rest.
Proof.
  intros Hl Hr. revert flock. induction Hl as [|f l Hf _ IH]; intros flock; simpl.
  - destruct rest; simpl; [done|]. by rewrite Hr.
  - rewrite Hf. f_equal. rewrite IH. by f_equal.
Qed.

Lemma marked_flags bt flock f :
  IS_LEASE f = true → has_flag f FL_UNLOCK_PENDING = false →
  let g := mark_breaking true bt flock f in
  IS_LEASE g && lease_breaking g = true ∧ fl_break_time g = bt.
Proof.
  intros Hf Hp. unfold mark_breaking. rewrite Hp. split; [|done].
  unfold IS_LEASE, lease_breaking, has_flag in *. simpl. rewrite !Z.land_lor_distr_l.
  replace (Z.land FL_UNLOCK_PENDING FL_LEASE) with 0 by done. rewrite Z.lor_0_r, Hf. simpl.
  unfold truth. apply negb_true_iff, Z.eqb_neq. rewrite Z.lor_eq_0_iff. by intros [_ ?].
Qed.

Lemma timed_all j l rest :
  Forall (λ g, IS_LEASE g && lease_breaking g = true ∧ past_time j (fl_break_time g) = true) l →
  match rest with [] => True | f :: _ => IS_LEASE f = false end →
  timed j (l ++ rest) = rest.
Proof.
  intros Hl Hr. induction Hl as [|f l [Hf Hp] _ IH]; simpl.
  - destruct rest; simpl; [done|]. by rewrite Hr.
  - by rewrite Hf, Hp.
Qed.

Lemma mark_ids w bt l : ∀ flock, ids (mark_loop w bt flock l) = ids l.
Proof.
  induction l as [|f l IH]; intros flock; simpl; [done|].
  case_test; [|done]. simpl. rewrite IH. f_equal. unfold mark_breaking. by repeat case_test.
Qed.

Lemma break_wait_expires j nf flock l rest s :
  i_flock s = l ++ rest → NoDup (ids (i_flock s)) → is_waiting nf s = false →
  Forall (λ g, IS_LEASE g && lease_breaking g = true ∧ past_time j (fl_break_time g) = true) l →
  match rest with [] => True | f :: _ => IS_LEASE f = false end →
  ∃ s', break_wait [TimedOut (λ s, s) j] nf flock s = (Some (Ret 0), s') ∧ leases (i_flock s') = [].
Proof.
  intros Es Hid Hw Hl Hr. cbn [break_wait]. unfold locks_insert_block. unfold is_waiting in Hw. rewrite Hw.
  set (s1 := MkFlocks _ _ _).
  assert (leases (i_flock (time_out_leases j (__locks_delete_block nf s1))) = []) as El.
  { rewrite time_out_list by done. simpl. rewrite Es, timed_all by done.
    destruct rest; simpl; [done|]. by rewrite Hr. }
  rewrite El. by eexists.
Qed.

(** a process that opens a file for writing gets through, even when no
    holder of a lease reacts: with a positive break time, once the deadline
    set when the leases were marked has passed, the timer removes every lease
    and the open goes on. *)
Theorem lease_expires id files tgid j lbt mode j' s :
  lease_ok (i_flock s) → Z.land mode O_ACCMODE ≠ 0 → Z.land mode O_NONBLOCK = 0 →
  (∀ a, a ∈ leases (i_flock s) → lease_breaking a = false ∧ fl_owner a ≠ files) →
  (∀ w, w ∈ waiting s → fl_id (w_lock w) ≠ id) →
  past_time j' (lease_deadline j lbt) = true →
  ∃ s', __break_lease (Some id) files tgid j lbt mode [TimedOut (λ s, s) j'] s = (Some (Ret 0), s') ∧
    leases (i_flock s') = [].
Proof.
  intros [Hid _ _] Hw Hnb Hls Hwait Hpast. unfold __break_lease.
  rewrite (proj2 (Z.eqb_neq _ _) Hw), Hnb.
  set (nf := MkLock id files tgid 0 FL_LEASE F_WRLCK 0 OFFSET_MAX 0 0).
  change (lease_alloc _ _ _ _ _) with (Ret nf). cbv beta iota zeta.
  destruct (leases_split (i_flock s)) as (rest & Es & Hl & Hr).
  assert (time_out_leases j s = s) as ->.
  { unfold time_out_leases. destruct (i_flock s) as [|f l]; [done|]. simpl.
    destruct (IS_LEASE f) eqn:Ef; [|done]. destruct (Hls f) as [-> _]; [|done].
    simpl. rewrite Ef. constructor. }
  destruct (leases (i_flock s)) as [|fl ls] eqn:El; [by exists s|].
  assert (locks_conflict fl nf = true) as -> by done.
  cbv beta iota zeta delta [negb].
  assert (existsb (λ a, fl_owner a =? files) (fl :: ls) = false) as ->.
  { apply not_true_is_false. rewrite existsb_exists. intros (a & Ha%list_elem_of_In & E). bprop.
    by apply (Hls a). }
  change (false || truth 0) with false. cbv iota.
  set (s1 := with_list _ s).
  assert (i_flock s1 = (mark_breaking true (lease_deadline j lbt) fl <$> fl :: ls) ++ rest) as Es1
    by (simpl; rewrite Es; by apply mark_loop_write).
  rewrite Es1. cbn [fmap list_fmap app]. eapply break_wait_expires; [exact Es1|..|done].
  - simpl. by rewrite mark_ids.
  - apply not_true_is_false. unfold is_waiting. rewrite existsb_exists.
    intros (w & Hin%list_elem_of_In & E). bprop. by apply (Hwait w).
  - rewrite Forall_fmap, Forall_forall. intros a Ha. rewrite Forall_forall in Hl.
    destruct (marked_flags (lease_deadline j lbt) fl a) as [H1 H2];
      [by apply Hl| |split; [exact H1|by rewrite <- H2 in Hpast]].
    destruct (Hls a Ha) as [H _]. unfold lease_breaking, has_flag, truth in *.
    apply negb_false_iff, Z.eqb_eq. apply negb_false_iff, Z.eqb_eq in H.
    rewrite Z.land_lor_distr_r, Z.lor_eq_0_iff in H. tauto.
Qed.

(** ** Setting a lease *)

Definition lease_set (filp arg : Z) (l : list file_lock) : Prop :=
  if arg =? F_UNLCK then ∀ a, a ∈ leases l → fl_file a ≠ filp
  else ∃ a, a ∈ leases l ∧ fl_file a = filp ∧ fl_type a = arg.

Lemma only_mine l m :
  NoDup (fl_file <$> l) → m ∈ l → (∀ a, a ∈ l → fl_file a = fl_file m) → l = [m].
Proof.
  intros Hnd Hm Hall. destruct l as [|x [|y k]].
  - set_solver.
  - by apply list_elem_of_singleton in Hm as ->.
  - apply NoDup_cons in Hnd as [Hx _]. destruct Hx. simpl.
    rewrite (Hall x), <- (Hall y) by set_solver. constructor.
Qed.

(** changing one's own lease *)
Lemma lease_modify_set mine arg s :
  mine ∈ leases (i_flock s) → lease_ok (i_flock s) →
  arg = F_RDLCK ∨ arg = F_WRLCK ∨ arg = F_UNLCK →
  (lease_modify (fl_id mine) arg s).1 = Ret tt ∧
  lease_set (fl_file mine) arg (i_flock (lease_modify (fl_id mine) arg s).2).
Proof.
  intros Hm [Hid Hf _] Harg. split.
  { unfold lease_modify, assign_type. by destruct Harg as [->|[-> | ->]]. }
  destruct (lease_modify_leases mine arg s Hm Hid Harg) as (l1 & l2 & rest & El & _ & El' & _).
  cbv zeta in El'. unfold lease_set. rewrite El'. destruct (lease_changed_fields arg mine) as (_ & H2 & H3).
  destruct (arg =? F_UNLCK).
  - intros a Ha E. rewrite El, fmap_app in Hf. cbn [fmap list_fmap] in Hf.
    apply NoDup_app in Hf as (_ & Hf1 & [Hf2 _]%NoDup_cons). simpl in Ha. rewrite elem_of_app in Ha.
    destruct Ha as [Ha|Ha]; [apply (Hf1 (fl_file a))|apply Hf2]; rewrite <- ?E.
    + by apply list_elem_of_fmap_2.
    + rewrite E. constructor.
    + by apply list_elem_of_fmap_2.
  - exists (lease_changed arg mine). split; [set_solver|done].
Qed.

Lemma insert_lease_ok lease s :
  lease_ok (i_flock s) → IS_LEASE lease = true → fl_id lease ∉ ids (i_flock s) →
  (∀ a, a ∈ leases (i_flock s) → fl_file a ≠ fl_file lease) →
  (leases (i_flock s) ≠ [] → fl_type lease ≠ F_WRLCK ∧
     ∀ a, a ∈ leases (i_flock s) → fl_type a ≠ F_WRLCK) →
  let ls := leases (i_flock s) in
  let l' := ls ++ lease :: drop (length ls) (i_flock s) in
  lease_ok l' ∧ leases l' = ls ++ [lease].
Proof.
  intros [Hid Hf Hw] Hl Hfr Hfile Hex. cbv zeta.
  destruct (leases_split (i_flock s)) as (rest & Es & Hls & Hr).
  set (ls := leases (i_flock s)) in *. rewrite Es, drop_app_length, cons_middle, app_assoc.
  assert (leases ((ls ++ [lease]) ++ rest) = ls ++ [lease]) as El.
  { apply leases_app; [|done]. rewrite Forall_app. by repeat constructor. }
  split; [|done]. rewrite Es in Hid, Hfr. constructor; rewrite ?El.
  - rewrite <- app_assoc. simpl. rewrite ids_app in *. simpl.
    rewrite <- Permutation_middle. by apply NoDup_cons.
  - rewrite fmap_app. apply NoDup_app. split_and!; [done| |apply NoDup_singleton].
    intros x (a & -> & Ha)%list_elem_of_fmap. simpl. rewrite list_elem_of_singleton. by apply Hfile.
  - intros a Ha Hat. destruct ls as [|x k] eqn:E.
    + simpl in Ha. by apply list_elem_of_singleton in Ha as ->.
    + destruct Hex as [H1 H2]; [done|]. rewrite elem_of_app, list_elem_of_singleton in Ha.
      destruct Ha as [Ha| ->]; [by apply H2 in Ha|done].
Qed.

Section SetLease.
Context (filp arg : Z).

(** what [open] ensures: an exclusive lease is held on the file itself *)
Definition own_exclusive (l : list file_lock) : Prop :=
  ∀ a, a ∈ leases l → fl_type a = F_WRLCK → fl_file a = filp.

Lemma add_lease_ok en use lease s :
  lease_ok (i_flock s) → own_exclusive (i_flock s) → arg = F_RDLCK ∨ arg = F_WRLCK →
  IS_LEASE lease = true → fl_file lease = filp → fl_type lease = arg →
  fl_id lease ∉ ids (i_flock s) →
  let '(r, s') := generic_add_lease en use filp arg lease s in
  lease_ok (i_flock s') ∧ (r = Ret tt → lease_set filp arg (i_flock s')).
Proof.
  intros Hok Hx Harg Hl Hf Ht Hfr. unfold generic_add_lease.
  case_test; [done|]. case_test; [done|].
  destruct (existsb _ _) eqn:Eo; [done|].
  assert (∀ a, a ∈ leases (i_flock s) → fl_file a = filp ∨ arg ≠ F_WRLCK) as Hothers.
  { intros a Ha. destruct (decide (fl_file a = filp)) as [|n]; [by left|right]. intros ->.
    apply not_true_iff_false in Eo. apply Eo, existsb_exists. exists a. split; [by apply list_elem_of_In|].
    by rewrite (proj2 (Z.eqb_neq _ _) n). }
  destruct (List.find _ _) as [mine|] eqn:Em.
  - apply List.find_some in Em as [Hm Ef]. bprop. rewrite <- in_rev in Hm.
    apply list_elem_of_In in Hm. rewrite <- Ef.
    destruct (lease_modify_set mine arg s Hm Hok) as [_ Hs]; [tauto|].
    assert (arg = F_RDLCK ∨ arg = F_UNLCK ∨ arg = F_WRLCK ∧ leases (i_flock s) = [mine]) as Ha.
    { destruct Harg as [Harg|Harg]; [by left|right; right]. split; [done|].
      apply only_mine; [apply Hok|done|]. intros a Ha. destruct (Hothers a Ha); congruence. }
    pose proof (lease_modify_ok mine arg s Hm Hok Ha) as Hok'.
    destruct (lease_modify (fl_id mine) arg s) as [r s']; auto.
  - case_test; [done|]. assert (∀ a, a ∈ leases (i_flock s) → fl_file a ≠ filp) as Hno.
    { intros a Ha%list_elem_of_In Ea. rewrite in_rev in Ha. apply (List.find_none _ _ Em) in Ha.
      by rewrite Ea, Z.eqb_refl in Ha. }
    destruct (insert_lease_ok lease s Hok Hl Hfr) as [H1 H2].
    + intros a Ha. rewrite Hf. auto.
    + intros Hne. split; [rewrite Ht|]; [|intros a Ha Hw; by apply (Hno a Ha), Hx].
      destruct (leases (i_flock s)) as [|a k]; [done|].
      destruct (Hothers a) as [H|H]; [constructor| |done].
      by destruct (Hno a); [constructor|].
    + split; [done|]. intros _. unfold lease_set. simpl. rewrite H2.
      replace (arg =? F_UNLCK) with false by (by destruct Harg as [-> | ->]).
      exists lease. split; [set_solver|done].
Qed.

Lemma delete_lease_ok s :
  lease_ok (i_flock s) →
  let '(r, s') := generic_delete_lease filp s in
  lease_ok (i_flock s') ∧ (r = Ret tt → lease_set filp F_UNLCK (i_flock s')).
Proof.
  intros Hok. unfold generic_delete_lease. destruct (List.find _ _) as [mine|] eqn:Em; [|done].
  apply List.find_some in Em as [Hm%list_elem_of_In Ef]. bprop. rewrite <- Ef.
  destruct (lease_modify_set mine F_UNLCK s Hm Hok) as [_ Hs]; [tauto|].
  pose proof (lease_modify_ok mine F_UNLCK s Hm Hok) as Hok'.
  destruct (lease_modify (fl_id mine) F_UNLCK s) as [r s']; auto.
Qed.

Lemma setlease_ok en use c i_uid regular j lease s :
  lease_ok (i_flock s) → own_exclusive (i_flock s) →
  arg = F_UNLCK ∨ (arg = F_RDLCK ∨ arg = F_WRLCK) ∧ IS_LEASE lease = true ∧ fl_file lease = filp ∧
    fl_type lease = arg ∧ fl_id lease ∉ ids (i_flock s) →
  let '(r, s') := generic_setlease en use c i_uid regular j filp arg lease s in
  lease_ok (i_flock s') ∧ (r = Ret tt → lease_set filp arg (i_flock s')).
Proof.
  intros Hok Hx Harg. unfold generic_setlease. case_test; [done|]. case_test; [done|].
  pose proof (time_out_ok j s Hok) as Hok1.
  destruct (left_sublists _ _ (timed_left j (i_flock s))) as (_ & _ & H3).
  rewrite <- time_out_list in H3 by apply Hok.
  assert (own_exclusive (i_flock (time_out_leases j s))) as Hx1.
  { intros a Ha Hw. destruct (H3 a Ha) as [H|H]; [by rewrite H in Hw|auto]. }
  destruct Harg as [-> |(Harg & H1 & H2 & Ht & Hfr)]; [by apply delete_lease_ok|].
  replace (arg =? F_UNLCK) with false by (destruct Harg as [-> | ->]; done).
  replace ((arg =? F_RDLCK) || (arg =? F_WRLCK)) with true by (destruct Harg as [-> | ->]; done).
  apply add_lease_ok; try done. intros Hin. apply Hfr.
  eapply elem_of_sublist; [exact Hin|]. rewrite time_out_list by apply Hok. apply timed_ids.
Qed.
End SetLease.

(** [fcntl(F_SETLEASE)] keeps an exclusive lease the only lease of the
    file, and an open file has at most one; when it succeeds the caller's file
    has a lease of exactly the requested type, or none after F_UNLCK. As the
    code's comment says, it relies on [open]: an exclusive lease that exists
    is held on the caller's own file. *)
Theorem setlease_exclusive en use c i_uid regular j files tgid id fasync filp arg s :
  lease_ok (i_flock s) → own_exclusive filp (i_flock s) →
  (∀ i, id = Some i → i ∉ ids (i_flock s)) →
  let '(r, s') := fcntl_setlease en use c i_uid regular j files tgid id fasync filp arg s in
  lease_ok (i_flock s') ∧ (r = Ret tt → lease_set filp arg (i_flock s')).
Proof.
  intros Hok Hx Hfr. unfold fcntl_setlease. destruct (arg =? F_UNLCK) eqn:E; bprop.
  { subst. apply setlease_ok; auto. }
  unfold lease_alloc, lease_init, assign_type. destruct id as [id|]; [|done].
  destruct (_ || _) eqn:Et; [|done]. simpl. case_test; [done|]. apply setlease_ok; [done..|right].
  split_and!; [|done..|by apply Hfr]. clear -E Et. bprop. unfold F_UNLCK in *. lia.
Qed.

(** ** The last close *)

Lemma remove_flock_loop_list filp l : ∀ pre s,
  i_flock s = pre ++ l → NoDup (ids (i_flock s)) →
  (∀ f, f ∈ l → fl_file f = filp → IS_FLOCK f = true ∨ IS_LEASE f = true) →
  ∃ s', remove_flock_loop filp l s = Ret s' ∧
    i_flock s' = pre ++ List.filter (λ f, negb (fl_file f =? filp)) l.
Proof.
  induction l as [|f l IH]; intros pre s Es Hnd Hk; cbn [remove_flock_loop List.filter].
  { exists s. by rewrite Es. }
  assert (∀ g, g ∈ l → fl_file g = filp → IS_FLOCK g = true ∨ IS_LEASE g = true) as Hk'
    by (intros g Hg; apply Hk; by constructor).
  destruct (fl_file f =? filp) eqn:Ef; bprop; simpl negb; cbv iota.
  2: { destruct (IH (pre ++ [f]) s) as (s' & -> & E); [by rewrite Es, <- app_assoc|done|done|].
       exists s'. split; [done|]. by rewrite E, <- app_assoc. }
  assert (NoDup (ids (pre ++ l))) as Hnd' by (rewrite Es in Hnd; eapply sublist_NoDup; [done|apply ids_drop]).
  destruct (IS_FLOCK f) eqn:Efl.
  - apply (IH pre); [|simpl|done]; simpl; rewrite Es, filter_id_mid; rewrite <- ?Es; done.
  - destruct (Hk f) as [H|H]; [constructor|done|congruence|]. rewrite H.
    assert (i_flock (lease_modify (fl_id f) F_UNLCK s).2 = pre ++ l) as E
      by (by rewrite (lease_modify_at pre f l) by tauto).
    apply (IH pre); [done|by rewrite E|done].
Qed.

(** the last close of an open file removes its [flock] lock and its lease
    from the inode and nothing else, as long as no POSIX lock of the file is
    left (those go at every close). *)
Theorem close_clears filp s :
  NoDup (ids (i_flock s)) →
  (∀ f, f ∈ i_flock s → fl_file f = filp → IS_FLOCK f = true ∨ IS_LEASE f = true) →
  ∃ s', locks_remove_flock filp s = Ret s' ∧
    i_flock s' = List.filter (λ f, negb (fl_file f =? filp)) (i_flock s).
Proof. intros Hnd Hk. by apply (remove_flock_loop_list filp (i_flock s) []). Qed.

(** ** Instances *)

Definition two_leases : flocks :=
  MkFlocks [MkLock 1 10 100 5 FL_LEASE F_RDLCK 0 OFFSET_MAX 0 0;
            MkLock 2 11 101 6 FL_LEASE F_RDLCK 0 OFFSET_MAX 0 0;
            MkLock 3 12 102 7 FL_FLOCK F_RDLCK 0 OFFSET_MAX 0 0] [] [].

Lemma two_leases_ok : lease_ok (i_flock two_leases).
Proof.
  constructor.
  - by apply (bool_decide_unpack (NoDup _)).
  - by apply (bool_decide_unpack (NoDup _)).
  - apply (Forall_forall (λ a, fl_type a = F_WRLCK → leases (i_flock two_leases) = [a])).
    by repeat constructor.
Qed.

Lemma break_lease_done_witness :
  open_clear true (i_flock (__break_lease (Some 9) 20 200 1000 45 1
    [Woken (λ s, (lease_modify 1 F_UNLCK s).2) 1100; TimedOut (λ s, s) 6000] two_leases).2).
Proof.
  apply (break_lease_done (Some 9) 20 200 1000 45 1
    [Woken (λ s, (lease_modify 1 F_UNLCK s).2) 1100; TimedOut (λ s, s) 6000] two_leases);
    [apply two_leases_ok|by vm_compute].
Defined.

Lemma lease_expires_witness :
  ∃ s', __break_lease (Some 9) 20 200 1000 45 1 [TimedOut (λ s, s) 6000] two_leases
      = (Some (Ret 0), s') ∧ leases (i_flock s') = [].
Proof.
  apply (lease_expires 9 20 200 1000 45 1 6000 two_leases).
  - apply two_leases_ok.
  - done.
  - done.
  - apply (Forall_forall (λ a, lease_breaking a = false ∧ fl_owner a ≠ 20)).
    by repeat constructor.
  - intros w Hw. by apply elem_of_nil in Hw.
  - done.
Defined.

Lemma setlease_exclusive_witness :
  let '(r, s') := fcntl_setlease true (MkUse 0 1 1) (example_cred []) 1000 true 1000 20 200
                    (Some 9) true 8 F_RDLCK two_leases in
  lease_ok (i_flock s') ∧ (r = Ret tt → lease_set 8 F_RDLCK (i_flock s')).
Proof.
  apply (setlease_exclusive true (MkUse 0 1 1)).
  - apply two_leases_ok.
  - unfold own_exclusive. apply (Forall_forall (λ a, fl_type a = F_WRLCK → fl_file a = 8)). by repeat constructor.
  - intros i [= <-]. by apply (bool_decide_unpack (_ ∉ _)).
Defined.

Lemma close_clears_witness :
  ∃ s', locks_remove_flock 7 two_leases = Ret s' ∧
    i_flock s' = List.filter (λ f, negb (fl_file f =? 7)) (i_flock two_leases).
Proof.
  apply (close_clears 7 two_leases); [apply two_leases_ok|].
  apply (Forall_forall (λ f, fl_file f = 7 → IS_FLOCK f = true ∨ IS_LEASE f = true)).
  repeat apply Forall_cons_2; [done|done|by left|constructor].
Defined.
