(* ===== verification/Sem.v ===== *)
(** * System V semaphores: ipc/sem.c

    A semaphore array with its values, the operations that wait on it, and the
    adjustments to make when processes exit.

    A waiting operation ([struct sem_queue]) is in the queue of the array and,
    when it consists of one operation, also in the queue of its semaphore; the
    model keeps both lists, with the address [q_id] as the identity of the
    entry. [int] results are C's: 0, 1 (must sleep) or a negated error number.
    The array is one object: its lookup by identifier in the tables of
    ipc/util.c, reference counts and RCU are left out, and a process finds its
    undo structure by its undo list instead of by the identifier of the
    array. *)

From S2P Require Import Prelude Cred Permission.

Definition EIDRM : Z := 43.

Definition SEMVMX : Z := 32767.
Definition SEMAEM : Z := SEMVMX.
Definition SEM_UNDO : Z := 4096.
Definition IPC_NOWAIT : Z := 2048.

Record sembuf := MkSop { sem_num : Z; sem_op : Z; sem_flg : Z }.

(** [nsops] is the length of [q_sops] *)
Record sem_queue := MkQueue {
  q_id : Z; q_undo : option Z; q_pid : Z; q_sops : list sembuf; q_alter : bool }.

Record sem := MkSem { semval : Z; sempid : Z; sem_pending : list sem_queue }.

(** [un_ulp] is the undo list of the process, [semadj] one number for each
    semaphore *)
Record sem_undo := MkUndo { un_ulp : Z; semadj : list Z }.

Record sem_array := MkSma {
  sem_perm : kern_ipc_perm; sem_otime : Z; sem_ctime : Z; sem_base : list sem;
  sma_pending : list sem_queue; list_id : list sem_undo; complex_count : Z }.

Definition sem_nsems (sma : sem_array) : Z := zlength (sem_base sma).

Definition with_base (b : list sem) (sma : sem_array) : sem_array :=
  MkSma (sem_perm sma) (sem_otime sma) (sem_ctime sma) b (sma_pending sma) (list_id sma)
    (complex_count sma).
Definition with_undos (l : list sem_undo) (sma : sem_array) : sem_array :=
  MkSma (sem_perm sma) (sem_otime sma) (sem_ctime sma) (sem_base sma) (sma_pending sma) l
    (complex_count sma).
Definition with_pending (p : list sem_queue) (n : Z) (sma : sem_array) : sem_array :=
  MkSma (sem_perm sma) (sem_otime sma) (sem_ctime sma) (sem_base sma) p (list_id sma) n.
Definition with_otime (t : Z) (sma : sem_array) : sem_array :=
  MkSma (sem_perm sma) t (sem_ctime sma) (sem_base sma) (sma_pending sma) (list_id sma)
    (complex_count sma).
Definition with_ctime (t : Z) (sma : sem_array) : sem_array :=
  MkSma (sem_perm sma) (sem_otime sma) t (sem_base sma) (sma_pending sma) (list_id sma)
    (complex_count sma).

Definition set_semval (v : Z) (c : sem) : sem := MkSem v (sempid c) (sem_pending c).
Definition set_sempid (p : Z) (c : sem) : sem := MkSem (semval c) p (sem_pending c).
Definition set_sem_pending (l : list sem_queue) (c : sem) : sem := MkSem (semval c) (sempid c) l.

(** changes an element of an array *)
Definition array_upd {A} (l : list A) (i : Z) (f : A → A) : cres (list A) :=
  a ← array_get l i; array_set l i (f a).

(** a new array *)
Definition init_sems (perm : kern_ipc_perm) (nsems now : Z) : sem_array :=
  MkSma perm 0 now (replicate (Z.to_nat nsems) (MkSem 0 0 [])) [] [] 0.

(** [used_sems] counts the semaphores of the namespace, [mem] says whether the
    array can be allocated, [id] is what [ipc_addid] gives and [perm] what it
    fills in; the result has the new count *)
Definition newary (used_sems sc_semmns : Z) (mem : bool) (id : cres Z) (perm : kern_ipc_perm)
    (nsems now : Z) : cres (Z * Z * sem_array) :=
  if nsems =? 0 then Err EINVAL
  else if used_sems + nsems >? sc_semmns then Err ENOSPC
  else if negb mem then Err ENOMEM
  else id ← id; Ret (id, used_sems + nsems, init_sems perm nsems now).

(** ** One attempt at a sequence of operations *)

Definition sop_undo (sop : sembuf) : bool := truth (Z.land (sem_flg sop) SEM_UNDO).
Definition sop_nowait (sop : sembuf) : bool := truth (Z.land (sem_flg sop) IPC_NOWAIT).

(** the number an undo structure holds for a semaphore; [un] is a pointer *)
Definition get_adj (un : option Z) (n : Z) (l : list sem_undo) : cres Z :=
  match un with
  | None => UB
  | Some u => match List.find (λ x, un_ulp x =? u) l with
              | Some x => array_get (semadj x) n
              | None => UB
              end
  end.
Fixpoint sub_adj (u n op : Z) (l : list sem_undo) : cres (list sem_undo) :=
  match l with
  | [] => UB
  | x :: l' =>
      if un_ulp x =? u then
        adj ← array_upd (semadj x) n (λ a, s16 (a - op));
        Ret (MkUndo u adj :: l')
      else l' ← sub_adj u n op l'; Ret (x :: l')
  end.

(** The first loop: performs the operations on the values until one fails.
    The result is its return value, the values then, and the operations done,
    the latest first. *)
Fixpoint semop_loop (undos : list sem_undo) (un : option Z) (done sops : list sembuf)
    (base : list sem) : cres (Z * list sem * list sembuf) :=
  match sops with
  | [] => Ret (0, base, done)
  | sop :: sops =>
      curr ← array_get base (sem_num sop);
      let would_block := if sop_nowait sop then - EAGAIN else 1 in
      if (sem_op sop =? 0) && truth (semval curr) then Ret (would_block, base, done) else
      let result := semval curr + sem_op sop in
      if result <? 0 then Ret (would_block, base, done)
      else if result >? SEMVMX then Ret (- ERANGE, base, done)
      else
        bad ← (if sop_undo sop then
                 a ← get_adj un (sem_num sop) undos;
                 let undo := a - sem_op sop in
                 Ret ((undo <? - SEMAEM - 1) || (undo >? SEMAEM))
               else Ret false);
        if bad : bool then Ret (- ERANGE, base, done)
        else
          base ← array_upd base (sem_num sop) (set_semval result);
          semop_loop undos un (sop :: done) sops base
  end.

(** takes the operations back, the latest first *)
Fixpoint undo_loop (done : list sembuf) (base : list sem) : cres (list sem) :=
  match done with
  | [] => Ret base
  | sop :: done =>
      base ← array_upd base (sem_num sop) (λ c, set_semval (semval c - sem_op sop) c);
      undo_loop done base
  end.

(** records who did them and what to undo *)
Fixpoint commit_loop (un : option Z) (pid : Z) (done : list sembuf) (base : list sem)
    (undos : list sem_undo) : cres (list sem * list sem_undo) :=
  match done with
  | [] => Ret (base, undos)
  | sop :: done =>
      base ← array_upd base (sem_num sop) (set_sempid pid);
      undos ← (if sop_undo sop then
                 match un with
                 | Some u => sub_adj u (sem_num sop) (sem_op sop) undos
                 | None => UB
                 end
               else Ret undos);
      commit_loop un pid done base undos
  end.

Definition try_atomic_semop (sops : list sembuf) (un : option Z) (pid : Z) (sma : sem_array) :
    cres (Z * sem_array) :=
  '(result, base, done) ← semop_loop (list_id sma) un [] sops (sem_base sma);
  if result =? 0 then
    '(base, undos) ← commit_loop un pid done base (list_id sma);
    Ret (0, with_undos undos (with_base base sma))
  else
    base ← undo_loop done base;
    Ret (result, with_base base sma).

(** ** Waiting operations *)

(** the operations to wake up, with their return values *)
Abbreviation tasks := (list (sem_queue * Z)).

Definition nsops (q : sem_queue) : Z := zlength (q_sops q).
Definition remove_queue (q : sem_queue) (l : list sem_queue) : list sem_queue :=
  List.filter (λ x, negb (q_id x =? q_id q)) l.

Definition unlink_queue (q : sem_queue) (sma : sem_array) : cres sem_array :=
  let pending := remove_queue q (sma_pending sma) in
  if nsops q =? 1 then
    sop ← array_get (q_sops q) 0;
    base ← array_upd (sem_base sma) (sem_num sop)
             (λ c, set_sem_pending (remove_queue q (sem_pending c)) c);
    Ret (with_pending pending (complex_count sma) (with_base base sma))
  else Ret (with_pending pending (complex_count sma - 1) sma).

(** [UB] stands for the failure of a [BUG_ON] *)
Definition check_restart (sma : sem_array) (q : sem_queue) : cres bool :=
  if negb (q_alter q) then Ret false
  else if truth (complex_count sma) then Ret true
  else if nsops q >? 1 then Ret true
  else
    sop ← array_get (q_sops q) 0;
    curr ← array_get (sem_base sma) (sem_num sop);
    match sem_pending curr with
    | [] => Ret false
    | h :: _ =>
        if truth (semval curr) then if sem_op sop >=? 0 then UB else Ret false
        else if negb (nsops h =? 1) then UB
        else
          hsop ← array_get (q_sops h) 0;
          if negb (sem_num hsop =? sem_num sop) then UB
          else Ret (sem_op hsop =? 0)
    end.

(** One walk over a queue. The result says whether it stopped to start
    again. *)
Fixpoint scan_queue (semnum : option Z) (walk : list sem_queue) (completed : bool)
    (pt : tasks) (sma : sem_array) : cres (bool * bool * tasks * sem_array) :=
  match walk with
  | [] => Ret (false, completed, pt, sma)
  | q :: walk =>
      stop ← (match semnum with
              | Some n => curr ← array_get (sem_base sma) n;
                          Ret ((semval curr =? 0) && q_alter q)
              | None => Ret false
              end);
      if stop : bool then Ret (false, completed, pt, sma) else
      '(error, sma) ← try_atomic_semop (q_sops q) (q_undo q) (q_pid q) sma;
      if error >? 0 then scan_queue semnum walk completed pt sma else
      sma ← unlink_queue q sma;
      if negb (error =? 0) then scan_queue semnum walk completed (pt ++ [(q, error)]) sma
      else
        restart ← check_restart sma q;
        if restart : bool then Ret (true, true, pt ++ [(q, error)], sma)
        else scan_queue semnum walk true (pt ++ [(q, error)]) sma
  end.

Definition pending_list (semnum : option Z) (sma : sem_array) : cres (list sem_queue) :=
  match semnum with
  | None => Ret (sma_pending sma)
  | Some n => curr ← array_get (sem_base sma) n; Ret (sem_pending curr)
  end.

(** Every new start was preceded by the removal of an entry: [fuel] is the
    number of entries. Running out of fuel would be [UB]. *)
Fixpoint update_loop (fuel : nat) (semnum : option Z) (completed : bool) (pt : tasks)
    (sma : sem_array) : cres (bool * tasks * sem_array) :=
  match fuel with
  | O => UB
  | S fuel =>
      walk ← pending_list semnum sma;
      '(restart, completed, pt, sma) ← scan_queue semnum walk completed pt sma;
      if restart : bool then update_loop fuel semnum completed pt sma
      else Ret (completed, pt, sma)
  end.

(** [None] for the semaphore number -1 *)
Definition update_queue (semnum : option Z) (pt : tasks) (sma : sem_array) :
    cres (bool * tasks * sem_array) :=
  let semnum := if truth (complex_count sma) then None else semnum in
  update_loop (S (length (sma_pending sma))) semnum false pt sma.

(** the semaphores that operations changed, one after the other *)
Fixpoint smart_loop (sops : list sembuf) (otime : bool) (pt : tasks) (sma : sem_array) :
    cres (bool * tasks * sem_array) :=
  match sops with
  | [] => Ret (otime, pt, sma)
  | sop :: sops =>
      curr ← array_get (sem_base sma) (sem_num sop);
      if (sem_op sop >? 0) || (sem_op sop <? 0) && (semval curr =? 0) then
        '(completed, pt, sma) ← update_queue (Some (sem_num sop)) pt sma;
        smart_loop sops (otime || completed) pt sma
      else smart_loop sops otime pt sma
  end.

(** [None] for a null pointer *)
Definition do_smart_update (sops : option (list sembuf)) (otime : bool) (now : Z) (pt : tasks)
    (sma : sem_array) : cres (tasks * sem_array) :=
  '(otime, pt, sma) ←
    (match sops with
     | Some sops =>
         if truth (complex_count sma) then
           '(completed, pt, sma) ← update_queue None pt sma; Ret (otime || completed, pt, sma)
         else smart_loop sops otime pt sma
     | None =>
         '(completed, pt, sma) ← update_queue None pt sma; Ret (otime || completed, pt, sma)
     end);
  Ret (pt, if otime : bool then with_otime now sma else sma).

(** ** System calls *)

Definition count_sops (p : sembuf → bool) (sma : sem_array) : Z :=
  zlength (List.filter (λ sop, p sop && negb (sop_nowait sop))
             (concat (q_sops <$> sma_pending sma))).
Definition count_semncnt (semnum : Z) : sem_array → Z :=
  count_sops (λ sop, (sem_num sop =? semnum) && (sem_op sop <? 0)).
Definition count_semzcnt (semnum : Z) : sem_array → Z :=
  count_sops (λ sop, (sem_num sop =? semnum) && (sem_op sop =? 0)).

(** [ulp] is the undo list of the process, [mem] whether an undo structure can
    be allocated; a new one is zeroed *)
Definition find_alloc_undo (ulp : option Z) (mem : bool) (sma : sem_array) :
    cres (Z * sem_array) :=
  match ulp with
  | None => Err ENOMEM
  | Some u =>
      if existsb (λ x, un_ulp x =? u) (list_id sma) then Ret (u, sma)
      else if negb mem then Err ENOMEM
      else Ret (u, with_undos (MkUndo u (replicate (length (sem_base sma)) 0) :: list_id sma) sma)
  end.

(** puts an operation into the queues: altering ones at the end, others in
    front *)
Definition enqueue (q : sem_queue) (l : list sem_queue) : list sem_queue :=
  if q_alter q then l ++ [q] else q :: l.
Definition sleep_on (q : sem_queue) (sma : sem_array) : cres sem_array :=
  let pending := enqueue q (sma_pending sma) in
  if nsops q =? 1 then
    sop ← array_get (q_sops q) 0;
    base ← array_upd (sem_base sma) (sem_num sop)
             (λ c, set_sem_pending (enqueue q (sem_pending c)) c);
    Ret (with_pending pending (complex_count sma) (with_base base sma))
  else Ret (with_pending pending (complex_count sma + 1) sma).

(** how the first part of [semtimedop] ends *)
Inductive semop_outcome := Finished (error : Z) | Sleeps (q : sem_queue).

Definition SEMOPM_FAST : Z := 64.
Definition SEMMSL_FAST : Z := 256.
Definition S_IRUGO : Z := 292.
Definition S_IWUGO : Z := 146.

Definition timeout_error (timeout : option (option (Z * Z))) : Z :=
  match timeout with
  | None => 0
  | Some None => - EFAULT
  | Some (Some (sec, nsec)) =>
      if (sec <? 0) || (nsec <? 0) || (nsec >=? 1000000000) then - EINVAL else 0
  end.

Section Semop.
Context (ns : user_namespace) (st : sys).

(** The caller's array of operations is [sops], [readable] says that it can be
    copied, [timeout] is what the pointer to the timeout reads as, [mem] tells
    for the two allocations whether they succeed; [id] is the address of the
    queue entry. A return code [Err] of a part is the negative result. *)
Definition semtimedop (sc_semopm semid pid id now : Z) (ulp : option Z) (mem : bool * bool)
    (readable : bool) (timeout : option (option (Z * Z))) (sops : list sembuf)
    (sma : sem_array) : cres (semop_outcome * tasks * sem_array) :=
  let nsops := zlength sops in
  let out error := Ret (Finished error, [], sma) in
  if (nsops <? 1) || (semid <? 0) then out (- EINVAL)
  else if nsops >? sc_semopm then out (- E2BIG)
  else if (nsops >? SEMOPM_FAST) && negb mem.1 then out (- ENOMEM)
  else if negb readable then out (- EFAULT)
  else if negb (timeout_error timeout =? 0) then out (timeout_error timeout)
  else
    let max := foldr (λ sop, Z.max (sem_num sop)) 0 sops in
    let alter := existsb (λ sop, negb (sem_op sop =? 0)) sops in
    match (if existsb sop_undo sops then
             '(u, sma) ← find_alloc_undo ulp mem.2 sma; Ret (Some u, sma)
           else Ret (None, sma)) with
    | Err e => out (- e)
    | UB => UB
    | Ret (un, sma) =>
        let out error := Ret (Finished error, [], sma) in
        if max >=? sem_nsems sma then out (- EFBIG) else
        match (ipcperms ns (sem_perm sma) (if alter then S_IWUGO else S_IRUGO) st).1 with
        | UB => UB
        | Err _ => out (- EACCES)
        | Ret _ =>
            '(error, sma) ← try_atomic_semop sops un pid sma;
            if error <=? 0 then
              if alter && (error =? 0) then
                '(pt, sma) ← do_smart_update (Some sops) true now [] sma;
                Ret (Finished error, pt, sma)
              else Ret (Finished error, [], sma)
            else
              let q := MkQueue id un pid sops alter in
              sma ← sleep_on q sma;
              Ret (Sleeps q, [], sma)
        end
    end.

(** A sleeper that was woken without a result. [None]: it sleeps again. *)
Definition semop_interrupted (expired signal : bool) (q : sem_queue) (sma : sem_array) :
    cres (option Z * sem_array) :=
  if expired then sma ← unlink_queue q sma; Ret (Some (- EAGAIN), sma)
  else if negb signal then Ret (None, sma)
  else sma ← unlink_queue q sma; Ret (Some (- EINTR), sma).

Definition GETPID : Z := 11.
Definition GETVAL : Z := 12.
Definition GETALL : Z := 13.
Definition GETNCNT : Z := 14.
Definition GETZCNT : Z := 15.
Definition SETVAL : Z := 16.
Definition SETALL : Z := 17.

Fixpoint zero_adj (semnum : Z) (l : list sem_undo) : cres (list sem_undo) :=
  match l with
  | [] => Ret []
  | x :: l => adj ← array_set (semadj x) semnum 0;
              l ← zero_adj semnum l;
              Ret (MkUndo (un_ulp x) adj :: l)
  end.

Definition semctl_setval (semnum val tgid now : Z) (sma : sem_array) :
    cres (Z * tasks * sem_array) :=
  if (val >? SEMVMX) || (val <? 0) then Ret (- ERANGE, [], sma) else
  undos ← zero_adj semnum (list_id sma);
  base ← array_upd (sem_base sma) semnum (λ c, set_sempid tgid (set_semval val c));
  '(pt, sma) ← do_smart_update None false now []
                 (with_ctime now (with_base base (with_undos undos sma)));
  Ret (0, pt, sma).

(** the values given, one for each semaphore *)
Fixpoint set_all (vals : list Z) (base : list sem) : cres (list sem) :=
  match base, vals with
  | [], _ => Ret []
  | _ :: _, [] => UB
  | c :: base, v :: vals => base ← set_all vals base; Ret (set_semval v c :: base)
  end.

(** [env] is what others do while the array is unlocked; [None] when they
    remove it. [sem_io] is the caller's array of 16 bit values, [None] when it
    cannot be read. *)
Definition semctl_setall (mem : bool) (env : sem_array → option sem_array)
    (sem_io : option (list Z)) (now : Z) (sma : sem_array) :
    cres (Z * tasks * option sem_array) :=
  if (sem_nsems sma >? SEMMSL_FAST) && negb mem then Ret (- ENOMEM, [], env sma) else
  match sem_io with
  | None => Ret (- EFAULT, [], env sma)
  | Some vals =>
      if existsb (λ v, v >? SEMVMX) vals then Ret (- ERANGE, [], env sma) else
      match env sma with
      | None => Ret (- EIDRM, [], None)
      | Some sma =>
          base ← set_all vals (sem_base sma);
          let undos := (λ x, MkUndo (un_ulp x) (replicate (length base) 0)) <$> list_id sma in
          '(pt, sma) ← do_smart_update None false now []
                         (with_ctime now (with_base base (with_undos undos sma)));
          Ret (0, pt, Some sma)
      end
  end.

(** the values are read out; the array may be unlocked before to allocate *)
Definition semctl_getall (mem : bool) (env : sem_array → option sem_array) (writable : bool)
    (sma : sem_array) : Z * list Z * option sem_array :=
  let read (sma : sem_array) :=
    (if writable then 0 else - EFAULT, u16 ∘ semval <$> sem_base sma, Some sma) in
  if sem_nsems sma >? SEMMSL_FAST then
    if negb mem then (- ENOMEM, [], env sma)
    else match env sma with
         | None => (- EIDRM, [], None)
         | Some sma => read sma
         end
  else read sma.

Definition semctl_main (tgid now : Z) (mem : bool) (env : sem_array → option sem_array)
    (cmd semnum val : Z) (sem_io : option (list Z)) (writable : bool) (sma : sem_array) :
    cres (Z * list Z * tasks * option sem_array) :=
  let out err := Ret (err, [], [], Some sma) in
  let flag := if (cmd =? SETVAL) || (cmd =? SETALL) then S_IWUGO else S_IRUGO in
  match (ipcperms ns (sem_perm sma) flag st).1 with
  | UB => UB
  | Err _ => out (- EACCES)
  | Ret _ =>
      if cmd =? GETALL then
        let '(err, vals, sma) := semctl_getall mem env writable sma in
        Ret (err, vals, [], sma)
      else if cmd =? SETALL then
        '(err, pt, sma) ← semctl_setall mem env sem_io now sma; Ret (err, [], pt, sma)
      else if (semnum <? 0) || (semnum >=? sem_nsems sma) then out (- EINVAL)
      else
        curr ← array_get (sem_base sma) semnum;
        if cmd =? GETVAL then out (semval curr)
        else if cmd =? GETPID then out (sempid curr)
        else if cmd =? GETNCNT then out (count_semncnt semnum sma)
        else if cmd =? GETZCNT then out (count_semzcnt semnum sma)
        else if cmd =? SETVAL then
          '(err, pt, sma) ← semctl_setval semnum val tgid now sma; Ret (err, [], pt, Some sma)
        else out (- EINVAL)
  end.
End Semop.

(** the array is removed: every sleeper fails *)
Definition freeary (sma : sem_array) : tasks := (λ q, (q, - EIDRM)) <$> sma_pending sma.

(** ** Exit *)

Fixpoint adjust (adj : list Z) (pid : Z) (base : list sem) : cres (list sem) :=
  match base, adj with
  | [], _ => Ret []
  | _ :: _, [] => UB
  | c :: base, a :: adj =>
      base ← adjust adj pid base;
      Ret ((if truth a then
              let v := semval c + a in
              let v := if v <? 0 then 0 else v in
              let v := if v >? SEMVMX then SEMVMX else v in
              set_sempid pid (set_semval v c)
            else c) :: base)
  end.

(** the last process that shares the undo list exits *)
Definition exit_sem (ulp pid now : Z) (sma : sem_array) : cres (tasks * sem_array) :=
  match List.find (λ x, un_ulp x =? ulp) (list_id sma) with
  | None => Ret ([], sma)
  | Some un =>
      let undos := List.filter (λ x, negb (un_ulp x =? ulp)) (list_id sma) in
      base ← adjust (semadj un) pid (sem_base sma);
      do_smart_update None true now [] (with_base base (with_undos undos sma))
  end.
