(* ===== verification/SemInv.v ===== *)
(** * Semaphore arrays: atomic operations and the waiting queue

    What one attempt at a sequence of operations does, the invariant of an
    array, and the main fact about the queue: after every system call each
    operation that still waits could not be performed now, although the code
    looks only at the part of the queue that can have become runnable. *)

From stdpp Require Import sorting.
From S2P Require Import Prelude Cred Permission Sem.

(** ** Arrays *)

Lemma zlookup_pos {A} (l : list A) i : 0 ≤ i → zlookup l i = l !! Z.to_nat i.
Proof. intros H. unfold zlookup. by rewrite (proj2 (Z.leb_le _ _)). Qed.

Lemma zlookup_fmap {A B} (f : A → B) l i : zlookup (f <$> l) i = f <$> zlookup l i.
Proof. unfold zlookup. case_test; [apply list_lookup_fmap|done]. Qed.

Lemma array_upd_eq {A} (l : list A) i f :
  array_upd l i f = match zlookup l i with Some a => Ret (<[Z.to_nat i := f a]> l) | None => UB end.
Proof. unfold array_upd, array_get, array_set. by destruct (zlookup l i) eqn:E; simpl; rewrite ?E. Qed.

Lemma array_upd_Ret {A} (l l' : list A) i f :
  array_upd l i f = Ret l' ↔ ∃ a, zlookup l i = Some a ∧ l' = <[Z.to_nat i := f a]> l.
Proof. rewrite array_upd_eq. destruct (zlookup l i); naive_solver. Qed.

Lemma fmap_insert_same {A B} (f : A → B) l i a b :
  zlookup l i = Some a → f b = f a → f <$> <[Z.to_nat i := b]> l = f <$> l.
Proof.
  intros H E. rewrite list_fmap_insert, E. apply list_insert_id.
  rewrite list_lookup_fmap. rewrite zlookup_pos in H by (by apply zlookup_Some in H; lia).
  by rewrite H.
Qed.

Definition vals (base : list sem) : list Z := semval <$> base.
Definition queues (base : list sem) : list (list sem_queue) := sem_pending <$> base.

(** ** One attempt, on the values alone *)

Fixpoint sem_spec (undos : list sem_undo) (un : option Z) (sops : list sembuf) (vs : list Z) :
    cres (Z * list Z) :=
  match sops with
  | [] => Ret (0, vs)
  | sop :: sops =>
      v ← array_get vs (sem_num sop);
      let would_block := if sop_nowait sop then - EAGAIN else 1 in
      if (sem_op sop =? 0) && truth v || (v + sem_op sop <? 0) then Ret (would_block, vs)
      else if v + sem_op sop >? SEMVMX then Ret (- ERANGE, vs)
      else
        bad ← (if sop_undo sop then
                 a ← get_adj un (sem_num sop) undos;
                 Ret ((a - sem_op sop <? - SEMAEM - 1) || (a - sem_op sop >? SEMAEM))
               else Ret false);
        if bad : bool then Ret (- ERANGE, vs)
        else sem_spec undos un sops (<[Z.to_nat (sem_num sop) := v + sem_op sop]> vs)
  end.

Lemma semop_loop_spec undos un sops : ∀ dn base,
  match semop_loop undos un dn sops base with
  | Ret (r, base', _) => sem_spec undos un sops (vals base) = Ret (r, vals base') ∧
                         queues base' = queues base ∧ (sempid <$> base') = (sempid <$> base)
  | Err e => sem_spec undos un sops (vals base) = Err e
  | UB => sem_spec undos un sops (vals base) = UB
  end.
Proof.
  induction sops as [|sop sops IH]; intros dn base; simpl; [done|].
  unfold array_get, vals. rewrite zlookup_fmap.
  destruct (zlookup base (sem_num sop)) as [c|] eqn:Ec; simpl; [|done].
  destruct ((sem_op sop =? 0) && truth (semval c)) eqn:E1; simpl; [done|].
  destruct (semval c + sem_op sop <? 0) eqn:E2; [done|].
  destruct (semval c + sem_op sop >? SEMVMX) eqn:E3; [done|].
  destruct (if sop_undo sop then _ else _) as [bad| |]; simpl; [|done|done].
  destruct bad; [done|]. rewrite array_upd_eq, Ec. simpl.
  specialize (IH (sop :: dn) (<[Z.to_nat (sem_num sop) := set_semval (semval c + sem_op sop) c]> base)).
  unfold vals in IH. rewrite list_fmap_insert in IH. simpl in IH.
  destruct (semop_loop _ _ _ _ _) as [[[r b'] d']| |]; [|done|done].
  destruct IH as (H1 & -> & ->). split; [done|].
  split; by apply (fmap_insert_same _ _ _ c).
Qed.

(** what was done is taken back exactly *)
Lemma semop_loop_undo undos un sops : ∀ dn base r base' dn',
  semop_loop undos un dn sops base = Ret (r, base', dn') →
  undo_loop dn' base' = undo_loop dn base.
Proof.
  induction sops as [|sop sops IH]; intros dn base r base' dn'; simpl; [by intros [= <- <- <-]|].
  unfold array_get. destruct (zlookup base (sem_num sop)) as [c|] eqn:Ec; simpl; [|done].
  case_test; [by intros [= <- <- <-]|]. case_test; [by intros [= <- <- <-]|].
  case_test; [by intros [= <- <- <-]|].
  destruct (if sop_undo sop then _ else _) as [bad| |]; simpl; [|done|done].
  destruct bad; [by intros [= <- <- <-]|]. rewrite array_upd_eq, Ec. simpl. intros H%IH. rewrite H. simpl.
  pose proof (zlookup_Some _ _ _ Ec) as Hr. rewrite zlookup_pos in Ec by lia.
  rewrite array_upd_eq, zlookup_pos by lia. rewrite list_lookup_insert_eq by (by eapply lookup_lt_Some).
  simpl. rewrite list_insert_insert_eq. f_equal.
  replace (set_semval _ _) with c; [by apply list_insert_id|]. destruct c. unfold set_semval. simpl.
  f_equal. lia.
Qed.

(** ** Undo structures *)

Definition ulps (undos : list sem_undo) : list Z := un_ulp <$> undos.
Definition undos_ok (n : Z) (undos : list sem_undo) : Prop :=
  NoDup (ulps undos) ∧ Forall (λ x, zlength (semadj x) = n ∧ Forall is_s16 (semadj x)) undos.

(** the operation names a semaphore of the array and, when it is to be undone,
    there is a structure to note it in *)
Definition sop_ok (n : Z) (us : list Z) (un : option Z) (sop : sembuf) : Prop :=
  0 ≤ sem_num sop < n ∧ (sop_undo sop = true → ∃ u, un = Some u ∧ u ∈ us).

Lemma get_adj_ok n undos un k :
  undos_ok n undos → 0 ≤ k < n → (∃ u, un = Some u ∧ u ∈ ulps undos) →
  ∃ a, get_adj un k undos = Ret a ∧ is_s16 a.
Proof.
  intros [_ Hl] Hk (u & -> & Hu). unfold get_adj.
  destruct (List.find _ undos) as [x|] eqn:E.
  - apply List.find_some in E as [Hx%list_elem_of_In _]. rewrite Forall_forall in Hl.
    destruct (Hl x Hx) as [Hlen Hs]. destruct (array_get_in (semadj x) k) as (a & -> & Ha); [lia|].
    exists a. split; [done|]. by eapply Forall_zlookup.
  - apply list_elem_of_fmap in Hu as (x & -> & Hx%list_elem_of_In).
    apply (List.find_none _ _ E) in Hx. by rewrite Z.eqb_refl in Hx.
Qed.

Lemma sub_adj_ok n u k op undos :
  undos_ok n undos → 0 ≤ k < n → u ∈ ulps undos →
  ∃ undos', sub_adj u k op undos = Ret undos' ∧ undos_ok n undos' ∧ ulps undos' = ulps undos ∧
    (op = 0 → undos' = undos).
Proof.
  intros [Hnd Hl] Hk Hu. unfold undos_ok. induction undos as [|x undos IH]; [by apply elem_of_nil in Hu|].
  simpl. apply Forall_cons in Hl as [[Hlen Hs] Hl]. destruct (un_ulp x =? u) eqn:E; bprop.
  - rewrite array_upd_eq. destruct (zlookup_is_Some (semadj x) k) as [a Ha]; [lia|]. rewrite Ha. simpl.
    eexists. split; [done|]. simpl. rewrite E. split_and!; [by rewrite <- E| |done|].
    + constructor; [|done]. simpl. rewrite zlength_insert. split; [done|].
      apply Forall_insert; [done|]. apply s16_range.
    + intros ->. f_equal. destruct x as [u' adj]. simpl in *. subst u'. f_equal.
      rewrite Z.sub_0_r, s16_id by (by eapply Forall_zlookup).
      apply list_insert_id. rewrite <- Ha. by rewrite zlookup_pos by lia.
  - simpl in Hnd, Hu. apply NoDup_cons in Hnd as [Hx Hnd].
    apply elem_of_cons in Hu as [Hu|Hu]; [congruence|].
    destruct (IH Hnd Hl Hu) as (undos' & -> & [Hn' Hl'] & Hu' & H0). simpl.
    eexists. split; [done|]. simpl. rewrite Hu'. split_and!; [by constructor|by constructor|done|].
    intros ?. by rewrite H0.
Qed.

Lemma commit_ok n un pid dn : ∀ base undos,
  Forall (sop_ok n (ulps undos) un) dn → zlength base = n → undos_ok n undos →
  ∃ base' undos', commit_loop un pid dn base undos = Ret (base', undos') ∧
    vals base' = vals base ∧ queues base' = queues base ∧ undos_ok n undos' ∧
    ulps undos' = ulps undos ∧ (Forall (λ sop, sem_op sop = 0) dn → undos' = undos).
Proof.
  induction dn as [|sop dn IH]; intros base undos Hs Hn Hu; simpl; [eauto 10|].
  apply Forall_cons in Hs as [[Hk Hun] Hs]. rewrite array_upd_eq.
  destruct (zlookup_is_Some base (sem_num sop)) as [c Hc]; [lia|]. rewrite Hc. simpl.
  set (base1 := <[_ := _]> base).
  assert (vals base1 = vals base ∧ queues base1 = queues base ∧ zlength base1 = n) as (Hv & Hq & Hn1).
  { unfold vals, queues, base1. rewrite zlength_insert.
    split_and!; [by apply (fmap_insert_same _ _ _ c)|by apply (fmap_insert_same _ _ _ c)|done]. }
  assert (∃ undos1, (if sop_undo sop then
      match un with Some u => sub_adj u (sem_num sop) (sem_op sop) undos | None => UB end
      else Ret undos) = Ret undos1 ∧ undos_ok n undos1 ∧ ulps undos1 = ulps undos ∧
      (sem_op sop = 0 → undos1 = undos)) as (undos1 & -> & Hu1 & Hl1 & H0).
  { destruct (sop_undo sop); [|by eauto]. destruct Hun as (u & -> & Hin); [done|]. by apply sub_adj_ok. }
  simpl. destruct (IH base1 undos1) as (base' & undos' & -> & H1 & H2 & H3 & H4 & H5);
    [by rewrite Hl1|done|done|].
  exists base', undos'. split_and!; [done|congruence|congruence|done|congruence|].
  intros [Hop Hd]%Forall_cons. by rewrite H5, H0.
Qed.

(** ** One attempt on the array *)

Definition val_ok (v : Z) : Prop := 0 ≤ v ≤ SEMVMX.

Definition sem_code (r : Z) : Prop := r = 0 ∨ r = 1 ∨ r = - ERANGE ∨ r = - EAGAIN.

Lemma sem_spec_ok n undos un sops : ∀ vs,
  undos_ok n undos → Forall (sop_ok n (ulps undos) un) sops → zlength vs = n → Forall val_ok vs →
  ∃ r vs', sem_spec undos un sops vs = Ret (r, vs') ∧ sem_code r ∧ zlength vs' = n ∧ Forall val_ok vs'.
Proof.
  intros vs Hu. revert vs. unfold sem_code.
  induction sops as [|sop sops IH]; intros vs Hs Hn Hv; simpl; [eauto 10|].
  apply Forall_cons in Hs as [[Hk Hun] Hs]. unfold array_get.
  destruct (zlookup_is_Some vs (sem_num sop)) as [v Hz]; [lia|]. rewrite Hz. simpl.
  destruct ((sem_op sop =? 0) && truth v || (v + sem_op sop <? 0)) eqn:E1.
  { destruct (sop_nowait sop); eauto 10. }
  destruct (v + sem_op sop >? SEMVMX) eqn:E2; [eauto 10|].
  assert (∃ bad : bool, (if sop_undo sop then
      a ← get_adj un (sem_num sop) undos;
      Ret ((a - sem_op sop <? - SEMAEM - 1) || (a - sem_op sop >? SEMAEM))
      else Ret false) = Ret bad) as [bad ->].
  { destruct (sop_undo sop); [|eauto]. destruct (get_adj_ok n undos un (sem_num sop)) as (a & -> & _); eauto. }
  simpl. destruct bad; [eauto 10|]. apply IH; [done|by rewrite zlength_insert|].
  apply Forall_insert; [done|]. unfold val_ok. bprop. lia.
Qed.

(** the parts of an array an attempt leaves alone *)
Record same_queues (sma sma' : sem_array) : Prop := {
  sq_pending : sma_pending sma' = sma_pending sma;
  sq_queues : queues (sem_base sma') = queues (sem_base sma);
  sq_complex : complex_count sma' = complex_count sma;
  sq_ulps : ulps (list_id sma') = ulps (list_id sma)
}.

Lemma loop_done P undos un sops : ∀ dn base r base' dn',
  semop_loop undos un dn sops base = Ret (r, base', dn') → Forall P dn → Forall P sops → Forall P dn'.
Proof.
  induction sops as [|sop sops IH]; intros dn base r base' dn'; simpl; [by intros [= <- <- <-]|].
  destruct (array_get base (sem_num sop)) as [c| |]; simpl; [|done|done].
  case_test; [by intros [= <- <- <-]|]. case_test; [by intros [= <- <- <-]|].
  case_test; [by intros [= <- <- <-]|].
  destruct (if sop_undo sop then _ else _) as [bad| |]; simpl; [|done|done].
  destruct bad; [by intros [= <- <- <-]|]. destruct (array_upd _ _ _) as [b| |]; simpl; [|done|done].
  intros H Hd [Hs Hss]%Forall_cons. eapply IH; [exact H|by constructor|done].
Qed.

Lemma try_ok sops un pid sma :
  let n := sem_nsems sma in
  undos_ok n (list_id sma) → Forall (sop_ok n (ulps (list_id sma)) un) sops →
  Forall val_ok (vals (sem_base sma)) →
  ∃ r sma' vs, try_atomic_semop sops un pid sma = Ret (r, sma') ∧ sem_code r ∧
    sem_spec (list_id sma) un sops (vals (sem_base sma)) = Ret (r, vs) ∧
    (r ≠ 0 → sma' = sma) ∧
    (r = 0 → vals (sem_base sma') = vs ∧ same_queues sma sma' ∧ undos_ok n (list_id sma') ∧
       (Forall (λ sop, sem_op sop = 0) sops → list_id sma' = list_id sma)).
Proof.
  intros n Hu Hs Hv. destruct (sem_spec_ok n (list_id sma) un sops (vals (sem_base sma)))
    as (r & vs & Hspec & Hcode & _ & _); [done|done|by unfold zlength, vals; rewrite length_fmap|done|].
  unfold try_atomic_semop. pose proof (semop_loop_spec (list_id sma) un sops [] (sem_base sma)) as HL.
  destruct (semop_loop (list_id sma) un [] sops (sem_base sma)) as [[[r' b'] d']| |] eqn:El;
    [|congruence|congruence]. destruct HL as (HL & Hq & _). rewrite Hspec in HL. injection HL as <- ->.
  simpl. destruct (r =? 0) eqn:Er; bprop.
  - assert (zlength b' = n) as Hb.
    { unfold n, sem_nsems, zlength. f_equal. rewrite <- (length_fmap sem_pending b').
      unfold queues in Hq. by rewrite Hq, length_fmap. }
    destruct (commit_ok n un pid d' b' (list_id sma)) as (b2 & u2 & -> & H1 & H2 & H3 & H4 & H5);
      [by eapply loop_done|done|done|].
    subst r. simpl. do 3 eexists. split; [done|]. split_and!; [done|done|done|]. intros _.
    split_and!; [done|constructor; simpl; congruence|done|].
    intros Hz. simpl. apply H5. by eapply loop_done.
  - rewrite (semop_loop_undo _ _ _ _ _ _ _ _ El). simpl. do 3 eexists. split; [done|].
    split_and!; [done|done|intros _; by destruct sma|done].
Qed.

(** ** The invariant of an array *)

Definition simple_on (i : Z) (q : sem_queue) : bool :=
  match q_sops q with [sop] => sem_num sop =? i | _ => false end.
Definition is_complex (q : sem_queue) : bool := negb (nsops q =? 1).

(** operations that do not alter the array are in front of those that do *)
Definition zeros_first (l : list sem_queue) : Prop :=
  ∃ zs ds, l = zs ++ ds ∧ Forall (λ q, q_alter q = false) zs ∧ Forall (λ q, q_alter q = true) ds.

(** A waiting operation. A single one waits for zero or decrements: an
    increment never sleeps. *)
Record queue_ok (n : Z) (us : list Z) (q : sem_queue) : Prop := {
  qo_some : q_sops q ≠ [];
  qo_sops : Forall (sop_ok n us (q_undo q)) (q_sops q);
  qo_alter : q_alter q = existsb (λ sop, negb (sem_op sop =? 0)) (q_sops q);
  qo_simple sop : q_sops q = [sop] → sem_op sop ≤ 0 ∧ sop_nowait sop = false
}.

Record sem_ok (sma : sem_array) : Prop := {
  so_vals : Forall val_ok (vals (sem_base sma));
  so_undos : undos_ok (sem_nsems sma) (list_id sma);
  so_ids : NoDup (q_id <$> sma_pending sma);
  so_queue q : q ∈ sma_pending sma → queue_ok (sem_nsems sma) (ulps (list_id sma)) q;
  so_simple i l : queues (sem_base sma) !! i = Some l →
    l = List.filter (simple_on (Z.of_nat i)) (sma_pending sma);
  so_order : zeros_first (sma_pending sma);
  so_complex : complex_count sma = zlength (List.filter is_complex (sma_pending sma))
}.

(** the operation cannot be performed now *)
Definition blocked (sma : sem_array) (q : sem_queue) : Prop :=
  ∃ vs, sem_spec (list_id sma) (q_undo q) (q_sops q) (vals (sem_base sma)) = Ret (1, vs).
Definition all_blocked (sma : sem_array) : Prop := ∀ q, q ∈ sma_pending sma → blocked sma q.

Lemma queues_nsems sma sma' :
  queues (sem_base sma') = queues (sem_base sma) → sem_nsems sma' = sem_nsems sma.
Proof.
  intros H. unfold sem_nsems, zlength. f_equal. apply (f_equal length) in H. unfold queues in H.
  by rewrite !length_fmap in H.
Qed.

Lemma blocked_same sma sma' q :
  vals (sem_base sma') = vals (sem_base sma) → list_id sma' = list_id sma →
  blocked sma q → blocked sma' q.
Proof. unfold blocked. by intros -> ->. Qed.

Lemma blocked_simple sma q sop v :
  q_sops q = [sop] → sop_nowait sop = false → zlookup (vals (sem_base sma)) (sem_num sop) = Some v →
  blocked sma q ↔ sem_op sop = 0 ∧ v ≠ 0 ∨ v + sem_op sop < 0.
Proof.
  intros Eq Hw Hv. unfold blocked. rewrite Eq. simpl. unfold array_get. rewrite Hv. simpl. rewrite Hw.
  destruct ((sem_op sop =? 0) && truth v || (v + sem_op sop <? 0)) eqn:E; unfold truth in E.
  - split; [intros _|by eauto]. bool_props. lia.
  - split; [|bool_props; lia]. intros [vs H].
    case_test; [done|]. destruct (if sop_undo sop then _ else _) as [[]| |]; done.
Qed.

Lemma zeros_first_app l k : zeros_first (l ++ k) → zeros_first l ∧ zeros_first k.
Proof.
  intros (zs & ds & E & Hz & Hd). apply app_eq_inv in E as [(m & -> & ->)|(m & -> & ->)].
  - apply Forall_app in Hd as [Hd1 Hd2]. split; [by exists zs, m|]. by exists [], k.
  - apply Forall_app in Hz as [Hz1 Hz2]. split.
    + exists l, []. by rewrite app_nil_r.
    + by exists m, ds.
Qed.

Lemma zeros_first_alter q l : zeros_first (q :: l) → q_alter q = true → Forall (λ q, q_alter q = true) l.
Proof.
  intros (zs & ds & E & Hz & Hd) Hq. destruct zs as [|z zs]; simpl in E.
  - subst. by apply Forall_cons in Hd as [_ Hd].
  - injection E as -> ->. apply Forall_cons in Hz as [Hz _]. congruence.
Qed.

Lemma zeros_first_filter p l : zeros_first l → zeros_first (List.filter p l).
Proof.
  intros (zs & ds & -> & Hz & Hd). rewrite List.filter_app. do 2 eexists. split; [done|].
  split; apply Forall_forall; intros x [Hx%list_elem_of_In _]%list_elem_of_In%filter_In;
    [rewrite Forall_forall in Hz; auto|rewrite Forall_forall in Hd; auto].
Qed.

Lemma zeros_first_drop l1 q l2 : zeros_first (l1 ++ q :: l2) → zeros_first (l1 ++ l2).
Proof.
  intros (zs & ds & E & Hz & Hd). apply app_eq_inv in E as [(m & -> & ->)|(m & -> & E)].
  - apply Forall_app in Hd as [Hd1 [_ Hd2]%Forall_cons]. exists zs, (m ++ l2).
    rewrite <- app_assoc. split_and!; [done|done|by apply Forall_app].
  - destruct m as [|x m]; simpl in E.
    + subst ds. rewrite app_nil_r in Hz. apply Forall_cons in Hd as [_ Hd]. by exists l1, l2.
    + injection E as <- ->. apply Forall_app in Hz as [Hz1 [_ Hz2]%Forall_cons].
      exists (l1 ++ m), ds. rewrite <- app_assoc. split_and!; [done|by apply Forall_app|done].
Qed.

Lemma filter_all_true {A} (p : A → bool) l : (∀ x, x ∈ l → p x = true) → List.filter p l = l.
Proof.
  intros H. induction l as [|x l IH]; [done|]. simpl. rewrite H by constructor. f_equal.
  apply IH. intros y Hy. apply H. by constructor.
Qed.

Lemma remove_split q l1 l2 :
  NoDup (q_id <$> l1 ++ q :: l2) → remove_queue q (l1 ++ q :: l2) = l1 ++ l2.
Proof.
  intros Hnd. rewrite fmap_app in Hnd. simpl in Hnd. apply NoDup_app in Hnd as (_ & H1 & [H2 _]%NoDup_cons).
  unfold remove_queue. rewrite List.filter_app. simpl. rewrite Z.eqb_refl. simpl. f_equal.
  - apply filter_all_true. intros x Hx. apply negb_true_iff, Z.eqb_neq. intros E.
    apply (H1 (q_id x)); [by apply list_elem_of_fmap_2|]. rewrite E. constructor.
  - apply filter_all_true. intros x Hx. apply negb_true_iff, Z.eqb_neq. intros E.
    apply H2. rewrite <- E. by apply list_elem_of_fmap_2.
Qed.

Lemma filter_comm {A} (p r : A → bool) l : List.filter p (List.filter r l) = List.filter r (List.filter p l).
Proof.
  induction l as [|x l IH]; [done|]. simpl.
  destruct (p x) eqn:Ep, (r x) eqn:Er; simpl; rewrite ?Ep, ?Er, ?IH; done.
Qed.

Lemma filter_drop {A} (p : A → bool) l1 q l2 :
  p q = false → List.filter p (l1 ++ q :: l2) = List.filter p (l1 ++ l2).
Proof. intros H. rewrite !List.filter_app. simpl. by rewrite H. Qed.

Lemma nsops_one q : nsops q = 1 → ∃ sop, q_sops q = [sop].
Proof.
  unfold nsops, zlength. destruct (q_sops q) as [|sop [|]]; simpl; intros; [lia|eauto|lia].
Qed.

Lemma complex_not_simple q i : is_complex q = true → simple_on i q = false.
Proof.
  unfold is_complex, nsops, simple_on. destruct (q_sops q) as [|sop [|]]; done.
Qed.

(** the queues of the semaphores follow the queue of the array *)
Lemma unlink_ok sma q l1 l2 :
  sem_ok sma → sma_pending sma = l1 ++ q :: l2 →
  ∃ sma', unlink_queue q sma = Ret sma' ∧ sem_ok sma' ∧ sma_pending sma' = l1 ++ l2 ∧
    vals (sem_base sma') = vals (sem_base sma) ∧ list_id sma' = list_id sma.
Proof.
  intros [Hv Hu Hid Hq Hsim Hord Hc] El. rewrite El in *.
  assert (q ∈ l1 ++ q :: l2) as Hin by set_solver. pose proof (Hq q Hin) as [Hne Hsops _ _].
  assert (NoDup (q_id <$> l1 ++ l2)) as Hid'.
  { rewrite fmap_app in Hid |- *. eapply sublist_NoDup; [exact Hid|]. apply sublist_app; [done|].
    by apply sublist_cons. }
  assert (∀ p, p ∈ l1 ++ l2 → p ∈ l1 ++ q :: l2) as Hsub by set_solver.
  unfold unlink_queue. rewrite El, remove_split by done. destruct (nsops q =? 1) eqn:En; bprop.
  - destruct (nsops_one q En) as [sop Es]. rewrite Es in *. simpl.
    apply Forall_cons in Hsops as [[Hk _] _]. rewrite array_upd_eq.
    destruct (zlookup_is_Some (sem_base sma) (sem_num sop)) as [c Hcur]; [done|]. rewrite Hcur. simpl.
    eexists. split; [done|]. set (b' := <[_ := _]> (sem_base sma)).
    assert (vals b' = vals (sem_base sma)) as Hv' by by apply (fmap_insert_same _ _ _ c).
    split_and!; [|done|done|done]. constructor; simpl; try done.
    + by rewrite Hv'.
    + unfold sem_nsems. simpl. unfold b'. by rewrite zlength_insert.
    + intros p Hp. unfold sem_nsems. simpl. unfold b'. rewrite zlength_insert. by apply Hq, Hsub.
    + intros i l. unfold queues, b'. rewrite list_fmap_insert. rewrite list_lookup_insert_Some.
      intros [(<- & <- & _)|[Hi Hl]].
      * rewrite Z2Nat.id by lia. simpl. rewrite zlookup_pos in Hcur by lia.
        rewrite (Hsim (Z.to_nat (sem_num sop)) (sem_pending c)), Z2Nat.id by
          (lia || by unfold queues; rewrite list_lookup_fmap, Hcur).
        unfold remove_queue. rewrite filter_comm. f_equal. by apply remove_split.
      * rewrite (Hsim i l Hl). apply filter_drop. unfold simple_on. rewrite Es.
        apply Z.eqb_neq. lia.
    + by eapply zeros_first_drop.
    + rewrite Hc. f_equal. apply filter_drop. unfold is_complex. by rewrite En.
  - assert (is_complex q = true) as Hcq by (unfold is_complex; by rewrite (proj2 (Z.eqb_neq _ _))).
    eexists. split; [done|]. split_and!; [|done|done|done]. constructor; simpl; try done.
    + intros p Hp. by apply Hq, Hsub.
    + intros i l Hl. rewrite (Hsim i l Hl). apply filter_drop. by apply complex_not_simple.
    + by eapply zeros_first_drop.
    + rewrite Hc, !List.filter_app. simpl. rewrite Hcq. unfold zlength. rewrite !length_app. simpl. lia.
Qed.

Lemma sem_ok_try sma sma' :
  sem_ok sma → same_queues sma sma' → Forall val_ok (vals (sem_base sma')) →
  undos_ok (sem_nsems sma) (list_id sma') → sem_ok sma'.
Proof.
  intros [Hv Hu Hid Hq Hsim Hord Hc] [Ep Eq Ec Eu] Hv' Hu'. pose proof (queues_nsems _ _ Eq) as En.
  constructor; rewrite ?Ep, ?En, ?Ec; try done.
  - intros q Hin. rewrite Eu. auto.
  - intros i l. rewrite Eq. apply Hsim.
Qed.

(** an attempt at a waiting operation *)
Lemma try_queue sma q :
  sem_ok sma → q ∈ sma_pending sma →
  ∃ r sma', try_atomic_semop (q_sops q) (q_undo q) (q_pid q) sma = Ret (r, sma') ∧
    sem_code r ∧ (r = 1 → blocked sma q) ∧ (r ≠ 0 → sma' = sma) ∧
    (r = 0 → sem_ok sma' ∧ same_queues sma sma' ∧
       sem_spec (list_id sma) (q_undo q) (q_sops q) (vals (sem_base sma))
         = Ret (0, vals (sem_base sma')) ∧
       (q_alter q = false → list_id sma' = list_id sma)).
Proof.
  intros Hok Hin. pose proof Hok as [Hv Hu _ Hq _ _ _]. destruct (Hq q Hin) as [_ Hs Ha _].
  destruct (try_ok (q_sops q) (q_undo q) (q_pid q) sma Hu Hs Hv)
    as (r & sma' & vs & Ht & Hcode & Hspec & Hne & Heq).
  exists r, sma'. split_and!; [done|done|intros ->; by exists vs|done|]. intros ->.
  destruct Heq as (<- & Hsq & Hu' & Hz); [done|].
  destruct (sem_spec_ok (sem_nsems sma) (list_id sma) (q_undo q) (q_sops q) (vals (sem_base sma)))
    as (r & vs & Hspec' & _ & _ & Hv'); [done|done|unfold vals, zlength; by rewrite length_fmap|done|].
  rewrite Hspec in Hspec'. injection Hspec' as <- <-. split_and!; [|done|done|].
  - by eapply sem_ok_try.
  - intros Hal. apply Hz. rewrite Hal in Ha. apply Forall_forall. intros sop Hsop%list_elem_of_In.
    destruct (decide (sem_op sop = 0)) as [|n]; [done|]. exfalso. symmetry in Ha.
    apply not_true_iff_false in Ha. apply Ha, existsb_exists. exists sop. split; [done|].
    by rewrite (proj2 (Z.eqb_neq _ _) n).
Qed.

(** ** After a waiting operation was completed *)

Lemma simple_effect undos un sop vs vs' :
  sem_spec undos un [sop] vs = Ret (0, vs') →
  ∃ v, zlookup vs (sem_num sop) = Some v ∧ 0 ≤ v + sem_op sop ∧
    vs' = <[Z.to_nat (sem_num sop) := v + sem_op sop]> vs.
Proof.
  simpl. unfold array_get. destruct (zlookup vs (sem_num sop)) as [v|]; simpl; [|done]. intros H.
  exists v. destruct ((sem_op sop =? 0) && truth v || (v + sem_op sop <? 0)) eqn:E1.
  { by destruct (sop_nowait sop). }
  case_test; [done|]. destruct (if sop_undo sop then _ else _) as [[]| |]; try done.
  simpl in H. injection H as <-. bprop. split_and!; done || lia.
Qed.

Lemma sem_spec_zero undos un sops : ∀ vs r vs',
  Forall (λ sop, sem_op sop = 0) sops → sem_spec undos un sops vs = Ret (r, vs') → vs' = vs.
Proof.
  induction sops as [|sop sops IH]; intros vs r vs' Hz; simpl; [by intros [= <- <-]|].
  apply Forall_cons in Hz as [H0 Hz]. unfold array_get.
  destruct (zlookup vs (sem_num sop)) as [v|] eqn:Ev; simpl; [|done].
  case_test; [by intros [= <- <-]|]. case_test; [by intros [= <- <-]|].
  destruct (if sop_undo sop then _ else _) as [[]| |]; simpl; try done; [by intros [= <- <-]|].
  intros H%IH; [|done]. rewrite H, H0, Z.add_0_r. apply list_insert_id.
  rewrite <- Ev. symmetry. apply zlookup_pos. apply zlookup_Some in Ev. lia.
Qed.

Lemma alter_false q :
  q_alter q = existsb (λ sop, negb (sem_op sop =? 0)) (q_sops q) →
  q_alter q = false → Forall (λ sop, sem_op sop = 0) (q_sops q).
Proof.
  intros Ha Hf. rewrite Hf in Ha. apply Forall_forall. intros sop Hsop%list_elem_of_In.
  destruct (decide (sem_op sop = 0)) as [|n]; [done|]. symmetry in Ha.
  apply not_true_iff_false in Ha. destruct Ha. apply existsb_exists. exists sop. split; [done|].
  by rewrite (proj2 (Z.eqb_neq _ _) n).
Qed.

(** the value a simple operation looks at *)
Lemma simple_value sma q sop :
  sem_ok sma → q ∈ sma_pending sma → q_sops q = [sop] →
  sop_nowait sop = false ∧ sem_op sop ≤ 0 ∧ q_alter q = negb (sem_op sop =? 0) ∧
  0 ≤ sem_num sop < sem_nsems sma ∧
  ∃ v, zlookup (vals (sem_base sma)) (sem_num sop) = Some v ∧ val_ok v.
Proof.
  intros Hok Hq Es. destruct (so_queue _ Hok q Hq) as [_ Hs Ha Hsim]. rewrite Es in *.
  destruct (Hsim sop) as [H1 H2]; [done|]. apply Forall_cons in Hs as [[Hk _] _].
  simpl in Ha. rewrite orb_false_r in Ha. split_and!; try done || lia.
  destruct (zlookup_is_Some (vals (sem_base sma)) (sem_num sop)) as [v Hv].
  { unfold vals, zlength. rewrite length_fmap. exact Hk. }
  exists v. split; [done|]. eapply Forall_zlookup; [apply Hok|done].
Qed.

Lemma not_complex q : q_sops q ≠ [] → is_complex q = false → ∃ sop, q_sops q = [sop].
Proof. intros _ H. apply nsops_one. unfold is_complex in H. by bprop. Qed.

Lemma no_complex sma :
  sem_ok sma → complex_count sma = 0 ↔ ∀ q, q ∈ sma_pending sma → is_complex q = false.
Proof.
  intros Hok. rewrite (so_complex _ Hok). split.
  - intros H q Hq. destruct (is_complex q) eqn:E; [|done].
    assert (q ∈ List.filter is_complex (sma_pending sma)) as Hin
      by (apply list_elem_of_In, filter_In; split; [by apply list_elem_of_In|done]).
    unfold zlength in H. destruct (List.filter is_complex (sma_pending sma)); [set_solver|done].
  - intros H. replace (List.filter is_complex (sma_pending sma)) with (@nil sem_queue); [done|].
    symmetry. induction (sma_pending sma) as [|q l IH]; [done|]. simpl. rewrite H by constructor.
    apply IH. intros p Hp. apply H. by constructor.
Qed.

(** the queue of a semaphore *)
Lemma sem_queue_of sma n :
  sem_ok sma → 0 ≤ n < sem_nsems sma →
  ∃ c, array_get (sem_base sma) n = Ret c ∧ zlookup (vals (sem_base sma)) n = Some (semval c) ∧
    sem_pending c = List.filter (simple_on n) (sma_pending sma).
Proof.
  intros Hok Hn. destruct (array_get_in (sem_base sma) n) as (c & Hc & Hz); [done|].
  exists c. split_and!; [done| |].
  - unfold vals. by rewrite zlookup_fmap, Hz.
  - rewrite zlookup_pos in Hz by lia. rewrite (so_simple _ Hok (Z.to_nat n) (sem_pending c)).
    + by rewrite Z2Nat.id by lia.
    + unfold queues. by rewrite list_lookup_fmap, Hz.
Qed.

Lemma simple_on_sop n q : simple_on n q = true → ∃ sop, q_sops q = [sop] ∧ sem_num sop = n.
Proof. unfold simple_on. destruct (q_sops q) as [|sop [|]]; [done| |done]. intros ?. bprop. eauto. Qed.

Lemma elem_filter {A} (p : A → bool) l x : x ∈ List.filter p l ↔ x ∈ l ∧ p x = true.
Proof. rewrite !list_elem_of_In. apply filter_In. Qed.

(** A simple operation changed semaphore [n] from [v] to [w], and only simple
    ones wait: it is enough to look at the queue of [n]. *)
Lemma others_blocked sma sma1 n v w :
  sem_ok sma → sem_ok sma1 → sma_pending sma1 ⊆ sma_pending sma → complex_count sma1 = 0 →
  0 ≤ n → zlookup (vals (sem_base sma)) n = Some v →
  vals (sem_base sma1) = <[Z.to_nat n := w]> (vals (sem_base sma)) →
  (∀ p psop, p ∈ List.filter (simple_on n) (sma_pending sma1) → q_sops p = [psop] →
     q_alter p = negb (sem_op psop =? 0) → sem_op psop ≤ 0 →
     sem_op psop = 0 ∧ v ≠ 0 ∨ v + sem_op psop < 0 →
     sem_op psop = 0 ∧ w ≠ 0 ∨ w + sem_op psop < 0) →
  ∀ p, p ∈ sma_pending sma1 → blocked sma p → blocked sma1 p.
Proof.
  intros Hok Hok1 Hsub Hc Hn Hv Hvs Hsame p Hp Hb. destruct (not_complex p) as [psop Ep];
    [by apply (so_queue _ Hok1)|by apply (no_complex _ Hok1)|].
  destruct (simple_value sma1 p psop Hok1 Hp Ep) as (Hw & Hple & Hal & Hpk & x & Hx & _).
  rewrite (blocked_simple sma1 p psop x) by done.
  destruct (simple_value sma p psop Hok (Hsub _ Hp) Ep) as (_ & _ & _ & _ & y & Hy & _).
  rewrite (blocked_simple sma p psop y) in Hb by done.
  rewrite Hvs, zlookup_pos in Hx by lia. destruct (decide (sem_num psop = n)) as [En|En].
  - rewrite En in *. rewrite Hv in Hy. injection Hy as <-. rewrite zlookup_pos in Hv by lia.
    rewrite list_lookup_insert_eq in Hx by (by eapply lookup_lt_Some). injection Hx as <-.
    apply (Hsame p psop); try done. apply elem_filter. split; [done|]. unfold simple_on. rewrite Ep.
    by apply Z.eqb_eq.
  - rewrite list_lookup_insert_ne in Hx by lia. rewrite zlookup_pos in Hy by lia.
    rewrite Hx in Hy. by injection Hy as ->.
Qed.

(** a queue whose first entry is not a wait for zero has none *)
Lemma no_zero_wait sma n h hs p psop :
  sem_ok sma → List.filter (simple_on n) (sma_pending sma) = h :: hs → q_alter h = true →
  p ∈ h :: hs → q_alter p = negb (sem_op psop =? 0) → sem_op psop ≠ 0.
Proof.
  intros Hok Eh Hh Hp Ha. pose proof (zeros_first_filter (simple_on n) _ (so_order _ Hok)) as Hz.
  rewrite Eh in Hz. apply zeros_first_alter in Hz; [|done]. rewrite Forall_forall in Hz.
  assert (q_alter p = true) as Ht by (apply elem_of_cons in Hp as [->|Hp]; auto).
  rewrite Ht in Ha. symmetry in Ha. by bprop.
Qed.

(** [check_restart] does not hit one of its assertions, and when it answers no,
    what could not be performed before still cannot be *)
Lemma check_restart_ok sma q sma1 :
  sem_ok sma → sem_ok sma1 → sma_pending sma1 ⊆ sma_pending sma → q ∈ sma_pending sma →
  sem_nsems sma1 = sem_nsems sma →
  sem_spec (list_id sma) (q_undo q) (q_sops q) (vals (sem_base sma))
    = Ret (0, vals (sem_base sma1)) →
  (q_alter q = false → list_id sma1 = list_id sma) →
  ∃ b : bool, check_restart sma1 q = Ret b ∧
    (b = false → ∀ p, p ∈ sma_pending sma1 → blocked sma p → blocked sma1 p).
Proof.
  intros Hok Hok1 Hsub Hq Hn Hspec Hund. destruct (so_queue _ Hok q Hq) as [Hne Hs Ha Hsim].
  unfold check_restart. destruct (q_alter q) eqn:Eal; simpl.
  2:{ exists false. split; [done|]. intros _ p _. apply blocked_same; [|by apply Hund].
      eapply sem_spec_zero; [|exact Hspec]. apply alter_false; congruence. }
  destruct (truth (complex_count sma1)) eqn:Ec; [by eexists|].
  destruct (nsops q >? 1) eqn:En; [by eexists|].
  unfold truth in Ec. bprop. destruct (nsops_one q) as [sop Es].
  { unfold nsops, zlength in *. destruct (q_sops q); simpl in *; [done|]. lia. }
  destruct (simple_value sma q sop Hok Hq Es) as (_ & Hle & Hal & Hk & _).
  rewrite Es in *. simpl (array_get _ 0). simpl.
  destruct (sem_queue_of sma1 (sem_num sop) Hok1) as (c & -> & Hc & Hpend); [lia|]. simpl.
  apply simple_effect in Hspec as (v & Hv & Hpos & Hvs).
  assert (sem_op sop < 0) as Hneg by (rewrite Eal in Hal; symmetry in Hal; bprop; lia).
  assert (semval c = v + sem_op sop) as Hcv.
  { rewrite Hvs, zlookup_pos in Hc by lia. rewrite list_lookup_insert_eq in Hc; [congruence|].
    rewrite zlookup_pos in Hv by lia. by eapply lookup_lt_Some. }
  pose proof (others_blocked sma sma1 (sem_num sop) v (v + sem_op sop) Hok Hok1 Hsub Ec) as Hother.
  rewrite <- Hcv, <- Hpend in *. specialize (Hother (proj1 Hk) Hv Hvs).
  destruct (sem_pending c) as [|h hs] eqn:Eh.
  { exists false. split; [done|]. intros _. apply Hother. set_solver. }
  destruct (truth (semval c)) eqn:Et; unfold truth in Et; bprop.
  { rewrite Z.geb_leb, (proj2 (Z.leb_gt _ _)) by lia. exists false. split; [done|]. intros _.
    apply Hother. lia. }
  assert (h ∈ List.filter (simple_on (sem_num sop)) (sma_pending sma1)) as Hh
    by (rewrite <- Hpend; constructor).
  apply elem_filter in Hh as [Hin (hsop & Hhs & Hhn)%simple_on_sop].
  unfold nsops. rewrite Hhs. simpl. rewrite Hhn, Z.eqb_refl. simpl. eexists. split; [done|].
  intros Hz. apply Hother. intros p psop Hp _ Hpa ? _.
  destruct (simple_value sma1 h hsop Hok1 Hin Hhs) as (_ & _ & Hha & _). rewrite Hz in Hha.
  pose proof (no_zero_wait sma1 (sem_num sop) h hs p psop Hok1 (eq_sym Hpend) Hha Hp Hpa). lia.
Qed.

(** ** Walking over a queue *)

(** the operations a walk looks at *)
Definition scope (semnum : option Z) (q : sem_queue) : bool :=
  match semnum with None => true | Some n => simple_on n q end.
Definition scope_ok (semnum : option Z) (sma : sem_array) : Prop :=
  match semnum with
  | None => True
  | Some n => 0 ≤ n < sem_nsems sma ∧ ∀ q, q ∈ sma_pending sma → is_complex q = false
  end.

(** what completed operations leave: nothing gets lost, and only the semaphore
    that was looked at changes *)
Record updated (semnum : option Z) (sma sma' : sem_array) (pt : tasks) : Prop := {
  up_ok : sem_ok sma';
  up_nsems : sem_nsems sma' = sem_nsems sma;
  up_ulps : ulps (list_id sma') = ulps (list_id sma);
  up_pending : sma_pending sma ≡ₚ sma_pending sma' ++ pt.*1;
  up_errors : Forall (λ x, x.2 ≤ 0) pt;
  up_frame n i : semnum = Some n → i ≠ n →
    zlookup (vals (sem_base sma')) i = zlookup (vals (sem_base sma)) i
}.

Lemma updated_refl semnum sma : sem_ok sma → updated semnum sma sma [].
Proof. intros H. constructor; try done. by rewrite app_nil_r. Qed.

Lemma updated_sub semnum sma sma' pt q :
  updated semnum sma sma' pt → q ∈ sma_pending sma' → q ∈ sma_pending sma.
Proof. intros H Hq. rewrite (up_pending _ _ _ _ H). set_solver. Qed.

Lemma updated_trans semnum sma1 sma2 sma3 pt pt' :
  updated semnum sma1 sma2 pt → updated semnum sma2 sma3 pt' → updated semnum sma1 sma3 (pt ++ pt').
Proof.
  intros [A1 A2 A3 A4 A5 A6] [B1 B2 B3 B4 B5 B6].
  constructor; [done|congruence|congruence| |by apply Forall_app|].
  - rewrite A4, B4, fmap_app, <- !app_assoc. f_equiv. apply Permutation_app_comm.
  - intros n i E Hi. rewrite (B6 n i), (A6 n i); done.
Qed.

Lemma scope_ok_sub semnum sma sma' pt :
  updated semnum sma sma' pt → scope_ok semnum sma → scope_ok semnum sma'.
Proof.
  intros Hu. destruct semnum as [n|]; [|done]. simpl. rewrite (up_nsems _ _ _ _ Hu).
  intros [Hn H]. split; [done|]. intros q Hq. eapply H, updated_sub; done.
Qed.

(** one entry is removed *)
Lemma unlinked semnum sma sma' q l1 l2 e :
  sma_pending sma = l1 ++ q :: l2 → sma_pending sma' = l1 ++ l2 → sem_ok sma' →
  sem_nsems sma' = sem_nsems sma → ulps (list_id sma') = ulps (list_id sma) → e ≤ 0 →
  (∀ n i, semnum = Some n → i ≠ n →
     zlookup (vals (sem_base sma')) i = zlookup (vals (sem_base sma)) i) →
  updated semnum sma sma' [(q, e)].
Proof.
  intros E E' Hok Hn Hu He Hf. constructor; try done.
  - rewrite E, E'. simpl. rewrite <- app_assoc. f_equiv. apply Permutation_cons_append.
  - by constructor.
Qed.

Lemma vals_nsems sma sma' :
  vals (sem_base sma') = vals (sem_base sma) → sem_nsems sma' = sem_nsems sma.
Proof.
  intros H. unfold sem_nsems, zlength. f_equal. apply (f_equal length) in H. unfold vals in H.
  by rewrite !length_fmap in H.
Qed.

Lemma scope_removed semnum sma q pre walk l1 l2 :
  sem_ok sma → sma_pending sma = l1 ++ q :: l2 →
  List.filter (scope semnum) (sma_pending sma) = pre ++ q :: walk →
  List.filter (scope semnum) (l1 ++ l2) = pre ++ walk.
Proof.
  intros Hok El Ef. rewrite <- (remove_split q l1 l2) by (rewrite <- El; apply Hok).
  rewrite <- El. unfold remove_queue. rewrite filter_comm, Ef. apply remove_split.
  eapply sublist_NoDup; [apply (so_ids _ Hok)|]. rewrite <- Ef. apply fmap_sublist.
  clear. induction (sma_pending sma) as [|x l IH]; simpl; [done|].
  case_test; [by apply sublist_skip|by apply sublist_cons].
Qed.

(** at zero the rest of a semaphore's queue is blocked *)
Lemma stop_blocked sma n c pre q walk :
  sem_ok sma → zlookup (vals (sem_base sma)) n = Some (semval c) → semval c = 0 →
  List.filter (simple_on n) (sma_pending sma) = pre ++ q :: walk → q_alter q = true →
  ∀ p, p ∈ q :: walk → blocked sma p.
Proof.
  intros Hok Hv H0 Ef Hq p Hp.
  assert (p ∈ List.filter (simple_on n) (sma_pending sma)) as Hin by (rewrite Ef; set_solver).
  apply elem_filter in Hin as [Hin (sop & Es & En)%simple_on_sop].
  destruct (simple_value sma p sop Hok Hin Es) as (Hw & Hle & Ha & _).
  rewrite (blocked_simple sma p sop (semval c)) by congruence.
  pose proof (zeros_first_filter (simple_on n) _ (so_order _ Hok)) as Hz. rewrite Ef in Hz.
  apply zeros_first_app in Hz as [_ Hz]. apply zeros_first_alter in Hz; [|done].
  rewrite Forall_forall in Hz. assert (q_alter p = true) as Hpa by
    (apply elem_of_cons in Hp as [->|Hp]; auto).
  rewrite Ha in Hpa. bprop. lia.
Qed.

(** a completed simple operation changes its semaphore only *)
Lemma simple_frame semnum undos un q vs vs' :
  scope semnum q = true → sem_spec undos un (q_sops q) vs = Ret (0, vs') →
  ∀ n i, semnum = Some n → i ≠ n → zlookup vs' i = zlookup vs i.
Proof.
  intros Hs Hspec n i -> Hi. apply simple_on_sop in Hs as (sop & Es & <-). rewrite Es in Hspec.
  apply simple_effect in Hspec as (v & Hv & _ & ->). unfold zlookup. case_test; [|done]. bprop.
  apply list_lookup_insert_ne. apply zlookup_Some in Hv. lia.
Qed.

Definition scan_post semnum (sma : sem_array) (pt : tasks) (r : cres (bool * bool * tasks * sem_array)) :=
  ∃ (restart completed : bool) pt' sma', r = Ret (restart, completed, pt ++ pt', sma') ∧
    updated semnum sma sma' pt' ∧ (restart = true → pt' ≠ []) ∧
    (restart = false → ∀ p, p ∈ sma_pending sma' → scope semnum p = true → blocked sma' p).

Lemma scan_post_step semnum sma sma1 pt x r :
  updated semnum sma sma1 [x] → scan_post semnum sma1 (pt ++ [x]) r → scan_post semnum sma pt r.
Proof.
  intros Hu (rs & cp & pt' & sma' & -> & H1 & H2 & H3). exists rs, cp, (x :: pt'), sma'.
  split_and!; [by rewrite <- app_assoc| |done|done]. by apply (updated_trans semnum sma sma1 sma' [x] pt').
Qed.

(** an operation is completed and taken off the queues *)
Lemma completed_ok semnum sma sma1 q l1 l2 :
  sem_ok sma → sem_ok sma1 → same_queues sma sma1 → sma_pending sma = l1 ++ q :: l2 →
  scope semnum q = true →
  sem_spec (list_id sma) (q_undo q) (q_sops q) (vals (sem_base sma))
    = Ret (0, vals (sem_base sma1)) →
  (q_alter q = false → list_id sma1 = list_id sma) →
  ∃ sma2 (b : bool), unlink_queue q sma1 = Ret sma2 ∧ check_restart sma2 q = Ret b ∧
    updated semnum sma sma2 [(q, 0)] ∧ sma_pending sma2 = l1 ++ l2 ∧
    (b = false → ∀ p, p ∈ sma_pending sma2 → blocked sma p → blocked sma2 p).
Proof.
  intros Hok Hok1 [Ep Eq _ Eu] El Hscq Hspec Hl0.
  destruct (unlink_ok sma1 q l1 l2 Hok1) as (sma2 & E & Hok2 & Ep2 & Hv & Hl); [congruence|].
  assert (sem_nsems sma2 = sem_nsems sma) as Hn
    by (rewrite (vals_nsems _ _ Hv); by apply queues_nsems).
  destruct (check_restart_ok sma q sma2) as (b & Hb & Hblk); try done.
  - rewrite Ep2, El. set_solver.
  - rewrite El. set_solver.
  - by rewrite Hv.
  - rewrite Hl. done.
  - exists sma2, b. split_and!; [done|done| |done|done].
    eapply unlinked; [done..|congruence|done|]. rewrite Hv. by eapply simple_frame.
Qed.

(** whether the walk stops early, and why it may *)
Lemma stop_ok semnum sma pre q walk :
  sem_ok sma → scope_ok semnum sma →
  List.filter (scope semnum) (sma_pending sma) = pre ++ q :: walk →
  ∃ stop : bool, match semnum with
      | Some n => curr ← array_get (sem_base sma) n; Ret ((semval curr =? 0) && q_alter q)
      | None => Ret false end = Ret stop ∧ (stop = true → ∀ p, p ∈ q :: walk → blocked sma p).
Proof.
  intros Hok Hsc Ef. destruct semnum as [n|]; [|by exists false]. destruct Hsc as [Hn _].
  destruct (sem_queue_of sma n Hok Hn) as (c & -> & Hv & _). simpl. eexists. split; [done|].
  intros ?. bprop. by eapply stop_blocked.
Qed.

Lemma scan_end semnum sma pt (cp : bool) :
  sem_ok sma → (∀ p, p ∈ List.filter (scope semnum) (sma_pending sma) → blocked sma p) →
  scan_post semnum sma pt (Ret (false, cp, pt, sma)).
Proof.
  intros Hok Hb. exists false, cp, [], sma. rewrite app_nil_r.
  split_and!; [done|by apply updated_refl|done|]. intros _ p Hp Hs. apply Hb. by apply elem_filter.
Qed.

(** one walk: it ends with everything it looked at blocked, or it has
    completed an operation and starts again *)
Lemma scan_ok semnum walk : ∀ pre completed pt sma,
  sem_ok sma → scope_ok semnum sma →
  List.filter (scope semnum) (sma_pending sma) = pre ++ walk → (∀ p, p ∈ pre → blocked sma p) →
  scan_post semnum sma pt (scan_queue semnum walk completed pt sma).
Proof.
  induction walk as [|q walk IH]; intros pre cp pt sma Hok Hsc Ef Hpre; simpl.
  { apply scan_end; [done|]. by rewrite Ef, app_nil_r. }
  assert (q ∈ sma_pending sma ∧ scope semnum q = true) as [Hin Hscq]
    by (apply elem_filter; rewrite Ef; set_solver).
  destruct (stop_ok semnum sma pre q walk Hok Hsc Ef) as (stop & -> & Hstop).
  simpl. destruct stop.
  { apply scan_end; [done|]. rewrite Ef. intros p [?|?]%elem_of_app; auto. }
  destruct (try_queue sma q Hok Hin) as (r & sma1 & -> & Hcode & H1 & Hne & H0). simpl.
  destruct (list_elem_of_split _ _ Hin) as (l1 & l2 & El).
  pose proof (scope_removed semnum sma q pre walk l1 l2 Hok El Ef) as Ef'.
  destruct (r >? 0) eqn:Er.
  { assert (r = 1) as -> by (unfold sem_code, ERANGE, EAGAIN in Hcode; bprop; lia).
    rewrite Hne by done. apply (IH (pre ++ [q])); [done|done|by rewrite <- app_assoc|].
    intros p [?|Hp]%elem_of_app; [auto|]. apply list_elem_of_singleton in Hp as ->. auto. }
  destruct (decide (r = 0)) as [->|Hr].
  - destruct H0 as (Hok1 & Hsq & Hspec & Hl0); [done|].
    destruct (completed_ok semnum sma sma1 q l1 l2 Hok Hok1 Hsq El Hscq Hspec Hl0)
      as (sma2 & b & -> & Hb & Hup & Ep2 & Hblk).
    simpl. rewrite Hb. simpl. destruct b.
    { by exists true, true, [(q, 0)], sma2. }
    eapply scan_post_step; [done|].
    apply (IH pre); [apply Hup|by eapply scope_ok_sub|by rewrite Ep2|].
    intros p Hp. apply Hblk; auto.
    assert (p ∈ List.filter (scope semnum) (l1 ++ l2)) as Hp2 by (rewrite Ef'; set_solver).
    rewrite Ep2. by apply elem_filter in Hp2 as [? _].
  - rewrite Hne in * by done.
    destruct (unlink_ok sma q l1 l2 Hok El) as (sma2 & -> & Hok2 & Ep & Hv & Hl).
    simpl. rewrite (proj2 (Z.eqb_neq _ _) Hr). simpl.
    assert (updated semnum sma sma2 [(q, r)]) as Hup.
    { eapply unlinked; [done..|by apply vals_nsems|congruence|bprop; lia|by rewrite Hv]. }
    eapply scan_post_step; [done|]. apply (IH pre); [done|by eapply scope_ok_sub|by rewrite Ep|].
    intros p Hp. apply (blocked_same sma); auto.
Qed.

(** ** Updating the queue *)

Definition update_post semnum (sma : sem_array) (pt : tasks) (r : cres (bool * tasks * sem_array)) :=
  ∃ (completed : bool) pt' sma', r = Ret (completed, pt ++ pt', sma') ∧
    updated semnum sma sma' pt' ∧
    ∀ p, p ∈ sma_pending sma' → scope semnum p = true → blocked sma' p.

(** every restart has shortened the queue *)
Lemma update_loop_ok semnum fuel : ∀ completed pt sma,
  (length (sma_pending sma) < fuel)%nat → sem_ok sma → scope_ok semnum sma →
  update_post semnum sma pt (update_loop fuel semnum completed pt sma).
Proof.
  induction fuel as [|fuel IH]; intros cp pt sma Hf Hok Hsc; [lia|]. simpl.
  assert (pending_list semnum sma = Ret (List.filter (scope semnum) (sma_pending sma))) as ->.
  { unfold pending_list. destruct semnum as [n|]; simpl.
    - destruct Hsc as [Hn _]. destruct (sem_queue_of sma n Hok Hn) as (c & -> & _ & Hp). simpl. by rewrite Hp.
    - by rewrite filter_all_true. }
  simpl. destruct (scan_ok semnum _ [] cp pt sma Hok Hsc eq_refl) as
    (rs & cp' & pt' & sma' & -> & Hup & Hre & Hblk); [set_solver|]. simpl. destruct rs.
  - destruct (IH cp' (pt ++ pt') sma') as (cp2 & pt2 & sma2 & -> & Hup2 & Hblk2).
    + pose proof (Permutation_length (up_pending _ _ _ _ Hup)) as Hlen.
      rewrite length_app, length_fmap in Hlen. destruct pt'; [by destruct Hre|]. simpl in Hlen. lia.
    + apply Hup.
    + by eapply scope_ok_sub.
    + exists cp2, (pt' ++ pt2), sma2. rewrite app_assoc. split_and!; [done| |done].
      by eapply updated_trans.
  - exists cp', pt', sma'. split_and!; [done|done|auto].
Qed.

Lemma update_queue_ok semnum pt sma :
  sem_ok sma → (∀ n, semnum = Some n → 0 ≤ n < sem_nsems sma) →
  update_post (if truth (complex_count sma) then None else semnum) sma pt
    (update_queue semnum pt sma).
Proof.
  intros Hok Hn. unfold update_queue. apply update_loop_ok; [lia|done|].
  destruct (truth (complex_count sma)) eqn:E; [done|]. destruct semnum as [n|]; [|done].
  split; [auto|]. apply no_complex; [done|]. unfold truth in E. by bprop.
Qed.

Lemma updated_None semnum sma sma' pt : updated semnum sma sma' pt → updated None sma sma' pt.
Proof. intros []. by constructor. Qed.

(** ** The smart update *)

(** the simple operations on a semaphore *)
Definition clean (sma : sem_array) (n : Z) : Prop :=
  ∀ p, p ∈ sma_pending sma → simple_on n p = true → blocked sma p.
(** the operation makes the loop look at the queue of its semaphore *)
Definition triggers (sma : sem_array) (n : Z) (sop : sembuf) : Prop :=
  sem_num sop = n ∧
  (sem_op sop > 0 ∨ sem_op sop < 0 ∧ zlookup (vals (sem_base sma)) n = Some 0).
Definition handled (sma : sem_array) (sops : list sembuf) (n : Z) : Prop :=
  clean sma n ∨ ∃ sop, sop ∈ sops ∧ triggers sma n sop.

(** blocking of simple operations depends on the value of their semaphore *)
Lemma clean_weaker sma sma' n v v' :
  sem_ok sma → sem_ok sma' → (∀ p, p ∈ sma_pending sma' → p ∈ sma_pending sma) →
  zlookup (vals (sem_base sma)) n = Some v → zlookup (vals (sem_base sma')) n = Some v' →
  v' ≤ v → (v' = 0 → v = 0) → clean sma n → clean sma' n.
Proof.
  intros Hok Hok' Hsub Hv Hv' Hle H0 Hc p Hp Hs. specialize (Hc p (Hsub p Hp) Hs).
  apply simple_on_sop in Hs as (sop & Es & <-).
  destruct (simple_value sma' p sop Hok' Hp Es) as (Hw & _).
  rewrite (blocked_simple sma' p sop v') by done. rewrite (blocked_simple sma p sop v) in Hc by done.
  lia.
Qed.

Lemma sem_value sma n : 0 ≤ n < sem_nsems sma → ∃ v, zlookup (vals (sem_base sma)) n = Some v.
Proof. intros Hn. apply zlookup_is_Some. unfold vals, zlength. by rewrite length_fmap. Qed.

(** looking at one queue keeps the others as they are *)
Lemma handled_step sma sma' pt sop sops n :
  sem_ok sma → updated (Some (sem_num sop)) sma sma' pt → clean sma' (sem_num sop) →
  handled sma (sop :: sops) n → handled sma' sops n.
Proof.
  intros Hok Hup Hcl Hh. destruct (decide (n = sem_num sop)) as [->|Hn]; [by left|].
  assert (zlookup (vals (sem_base sma')) n = zlookup (vals (sem_base sma)) n) as Hv
    by by apply (up_frame _ _ _ _ Hup (sem_num sop)).
  destruct Hh as [Hc|(s & Hs & Ht)].
  - left. destruct (zlookup (vals (sem_base sma)) n) as [v|] eqn:E.
    + eapply (clean_weaker sma sma' n v v); try done; [apply Hup|].
      intros p. by apply (updated_sub _ _ _ _ _ Hup).
    + intros p Hp Hsn. apply simple_on_sop in Hsn as (psop & Ep & <-).
      destruct (simple_value sma' p psop (up_ok _ _ _ _ Hup) Hp Ep) as (_ & _ & _ & _ & w & Hw & _).
      congruence.
  - right. exists s. apply elem_of_cons in Hs as [->|Hs]; [by destruct Ht|].
    split; [done|]. unfold triggers. by rewrite Hv.
Qed.

Lemma smart_loop_ok sops : ∀ otime pt sma,
  sem_ok sma → complex_count sma = 0 → Forall (λ sop, 0 ≤ sem_num sop < sem_nsems sma) sops →
  (∀ n, handled sma sops n) →
  ∃ (o : bool) pt' sma', smart_loop sops otime pt sma = Ret (o, pt ++ pt', sma') ∧
    updated None sma sma' pt' ∧ ∀ n, clean sma' n.
Proof.
  induction sops as [|sop sops IH]; intros ot pt sma Hok Hc Hr Hh; simpl.
  { exists ot, [], sma. rewrite app_nil_r. split_and!; [done|by apply updated_refl|].
    intros n. destruct (Hh n) as [?|(s & Hs & _)]; [done|set_solver]. }
  apply Forall_cons in Hr as [Hk Hr].
  destruct (sem_queue_of sma (sem_num sop) Hok Hk) as (c & -> & Hv & _). simpl.
  destruct ((sem_op sop >? 0) || (sem_op sop <? 0) && (semval c =? 0)) eqn:E.
  - destruct (update_queue_ok (Some (sem_num sop)) pt sma Hok) as (cp & pt' & sma' & -> & Hup & Hb);
      [by intros n [= <-]|]. rewrite Hc in Hup, Hb. simpl in Hup, Hb |- *.
    destruct (IH (ot || cp) (pt ++ pt') sma') as (o & pt2 & sma2 & -> & Hup2 & Hcl).
    + apply Hup.
    + apply no_complex; [apply Hup|]. intros q Hq. apply (no_complex sma Hok); [done|].
      by eapply updated_sub.
    + by rewrite (up_nsems _ _ _ _ Hup).
    + intros n. by eapply handled_step.
    + exists o, (pt' ++ pt2), sma2. rewrite app_assoc. split_and!; [done| |done].
      eapply updated_trans; [by eapply updated_None|done].
  - apply IH; try done. intros n. destruct (Hh n) as [?|(s & Hs & Ht)]; [by left|].
    apply elem_of_cons in Hs as [->|Hs]; [|by right; exists s]. destruct Ht as [<- Ht].
    rewrite Hv in Ht. bool_props. destruct Ht as [Ht|[Ht [= ?]]]; lia.
Qed.

(** the times of an array play no role *)
Lemma sem_ok_otime t sma : sem_ok sma → sem_ok (with_otime t sma).
Proof. intros []. by constructor. Qed.
Lemma sem_ok_ctime t sma : sem_ok sma → sem_ok (with_ctime t sma).
Proof. intros []. by constructor. Qed.

Definition smart_post (sma : sem_array) (pt : tasks) (r : cres (tasks * sem_array)) : Prop :=
  ∃ pt' sma', r = Ret (pt ++ pt', sma') ∧ updated None sma sma' pt' ∧ all_blocked sma'.

Lemma smart_otime (o : bool) now sma sma' pt :
  updated None sma sma' pt → all_blocked sma' →
  updated None sma (if o then with_otime now sma' else sma') pt ∧
  all_blocked (if o then with_otime now sma' else sma').
Proof. intros [H] Hb. destruct o; [|done]. split; [|done]. constructor; try done. by apply sem_ok_otime. Qed.

(** a full look at the queue needs no knowledge of what changed *)
Lemma smart_full otime now pt sma :
  sem_ok sma → smart_post sma pt (do_smart_update None otime now pt sma).
Proof.
  intros Hok. unfold do_smart_update.
  destruct (update_queue_ok None pt sma Hok) as (cp & pt' & sma' & -> & Hup & Hb); [done|].
  simpl. eexists pt', _. split; [done|]. apply smart_otime; [by eapply updated_None|].
  intros p Hp. apply Hb; [done|]. by destruct (truth _).
Qed.

Lemma smart_part sops otime now pt sma :
  sem_ok sma → Forall (λ sop, 0 ≤ sem_num sop < sem_nsems sma) sops →
  (complex_count sma = 0 → ∀ n, handled sma sops n) →
  smart_post sma pt (do_smart_update (Some sops) otime now pt sma).
Proof.
  intros Hok Hr Hh. unfold do_smart_update. destruct (truth (complex_count sma)) eqn:E.
  - apply (smart_full otime now pt sma Hok).
  - unfold truth in E. bprop.
    destruct (smart_loop_ok sops otime pt sma) as (o & pt' & sma' & -> & Hup & Hc); auto.
    simpl. eexists pt', _. split; [done|]. apply smart_otime; [done|]. intros p Hp.
    destruct (not_complex p) as [sop Es]; [by apply (so_queue _ (up_ok _ _ _ _ Hup))| |].
    + apply (no_complex sma Hok); [done|]. by eapply updated_sub.
    + apply (Hc (sem_num sop)); [done|]. unfold simple_on. rewrite Es. apply Z.eqb_refl.
Qed.

(** what a sequence of operations does to one value *)
Lemma sem_spec_value undos un sops n : ∀ vs vs' v,
  sem_spec undos un sops vs = Ret (0, vs') → zlookup vs n = Some v →
  ∃ v', zlookup vs' n = Some v' ∧
    ((∀ sop, sop ∈ sops → sem_num sop = n → sem_op sop ≤ 0) → v' ≤ v) ∧
    (v' ≠ v → ∃ sop, sop ∈ sops ∧ sem_num sop = n ∧ sem_op sop ≠ 0).
Proof.
  induction sops as [|sop sops IH]; intros vs vs' v H Hv.
  { simpl in H. injection H as <-. exists v. split_and!; [done|lia|done]. }
  assert (∃ vs1, sem_spec undos un [sop] vs = Ret (0, vs1) ∧ sem_spec undos un sops vs1 = Ret (0, vs'))
    as (vs1 & H1 & H2).
  { simpl in *. destruct (array_get vs (sem_num sop)) as [w| |]; simpl in *; [|done|done].
    case_test; [by destruct (sop_nowait sop)|]. case_test; [done|].
    destruct (if sop_undo sop then _ else _) as [[]| |]; simpl in *; by eauto. }
  apply simple_effect in H1 as (w & Hw & _ & ->).
  assert (0 ≤ n ∧ 0 ≤ sem_num sop) as [Hn Hk] by (apply zlookup_Some in Hv, Hw; lia).
  destruct (decide (sem_num sop = n)) as [E|E].
  - rewrite E in *. rewrite Hv in Hw. injection Hw as <-.
    destruct (IH _ _ (v + sem_op sop) H2) as (v' & Hv' & Hle & Hch).
    { rewrite zlookup_pos in Hv |- * by done. apply list_lookup_insert_eq. by eapply lookup_lt_Some. }
    exists v'. split_and!; [done| |].
    + intros Hneg. assert (sem_op sop ≤ 0) by (apply Hneg; [constructor|done]).
      assert (v' ≤ v + sem_op sop); [|lia]. apply Hle. intros s Hs. apply Hneg. by constructor.
    + intros Hne. destruct (decide (sem_op sop = 0)) as [E0|E0].
      * destruct Hch as (s & Hs & ?); [lia|]. exists s. split; [by constructor|done].
      * exists sop. split; [constructor|done].
  - destruct (IH _ _ v H2) as (v' & Hv' & Hle & Hch).
    { rewrite zlookup_pos in Hv |- * by done. rewrite list_lookup_insert_ne by lia. done. }
    exists v'. split_and!; [done| |].
    + intros Hneg. apply Hle. intros s Hs. apply Hneg. by constructor.
    + intros Hne. destruct (Hch Hne) as (s & Hs & ?). exists s. split; [by constructor|done].
Qed.

(** after a sequence of operations, the loop looks at every queue in which
    something may have become runnable *)
Lemma ops_handled undos un sops sma sma' n :
  sem_ok sma → sem_ok sma' → sma_pending sma' = sma_pending sma → all_blocked sma →
  sem_spec undos un sops (vals (sem_base sma)) = Ret (0, vals (sem_base sma')) →
  handled sma' sops n.
Proof.
  intros Hok Hok' Ep Hb Hspec.
  destruct (zlookup (vals (sem_base sma)) n) as [v|] eqn:Hv.
  2:{ left. intros p Hp Hs. rewrite Ep in Hp. apply simple_on_sop in Hs as (sop & Es & <-).
      destruct (simple_value sma p sop Hok Hp Es) as (_ & _ & _ & _ & w & Hw & _). congruence. }
  destruct (sem_spec_value _ _ _ n _ _ v Hspec Hv) as (v' & Hv' & Hle & Hch).
  destruct (decide (Exists (triggers sma' n) sops)) as [Ht|Ht].
  { right. by apply Exists_exists in Ht. }
  left. assert (∀ sop, sop ∈ sops → sem_num sop = n → sem_op sop ≤ 0 ∧ (sem_op sop ≠ 0 → v' ≠ 0)) as Hall.
  { intros sop Hin Hn. assert (¬ triggers sma' n sop) as Hnt
      by (intros H; apply Ht, Exists_exists; eauto).
    unfold triggers in Hnt. rewrite Hv' in Hnt. split; [lia|]. intros ? ->. apply Hnt.
    split; [done|]. destruct (decide (sem_op sop > 0)); [by left|right; split; [lia|done]]. }
  eapply (clean_weaker sma sma' n v v'); try done.
  - intros p. by rewrite Ep.
  - apply Hle. intros sop Hin Hn. by apply Hall.
  - intros ->. destruct (decide (v = 0)) as [|Hne]; [done|]. destruct Hch as (sop & Hin & Hn & Hop); [lia|].
    destruct (Hall sop Hin Hn) as [_ H]. by destruct (H Hop).
  - intros p Hp _. by apply Hb.
Qed.
