(* ===== verification/SemSteps.v ===== *)
(** * Semaphore operations: system calls in any order

    Every system call keeps the invariant of the array and leaves only
    operations waiting that cannot be performed. *)

From S2P Require Import Prelude Cred Groups CredContract Permission Sem SemInv.

(** the permission check is defined when the caller's groups are sorted, which
    holds of every process *)
Lemma ipcperms_defined ns st perm flag :
  groups_wf (cr_group_info (t_cred st)) → (ipcperms ns perm flag st).1 ≠ UB.
Proof.
  intros Hg E. pose proof (wp_ipcperms ns perm flag st Hg) as H. unfold wp in H.
  destruct (ipcperms ns perm flag st) as [[]?]; done.
Qed.

Record sem_good (sma : sem_array) : Prop := { sg_ok : sem_ok sma; sg_blocked : all_blocked sma }.

(** ** A new undo structure *)

Lemma sem_spec_undos undos undos' un sops : ∀ vs,
  (∀ k, get_adj un k undos' = get_adj un k undos) →
  sem_spec undos' un sops vs = sem_spec undos un sops vs.
Proof.
  induction sops as [|sop sops IH]; intros vs H; simpl; [done|].
  destruct (array_get vs (sem_num sop)); simpl; [|done|done]. rewrite H. repeat case_test; try done.
  - destruct (get_adj un (sem_num sop) undos); simpl; try done. case_test; [done|]. by apply IH.
  - simpl. by apply IH.
Qed.

Lemma sem_spec_no_undo undos undos' un sops : ∀ vs,
  (∀ sop, sop ∈ sops → sop_undo sop = false) →
  sem_spec undos' un sops vs = sem_spec undos un sops vs.
Proof.
  induction sops as [|sop sops IH]; intros vs H; simpl; [done|].
  destruct (array_get vs (sem_num sop)); simpl; [|done|done].
  rewrite (H sop) by constructor. simpl. repeat case_test; try done. apply IH. set_solver.
Qed.

Lemma queue_ok_mono n us us' q : us ⊆ us' → queue_ok n us q → queue_ok n us' q.
Proof.
  intros Hs [H1 H2 H3 H4]. constructor; try done. eapply Forall_impl; [exact H2|].
  intros sop [Hk Hu]. split; [done|]. intros E. destruct (Hu E) as (u & -> & ?). exists u. set_solver.
Qed.

Lemma find_alloc_ok ulp mem sma :
  sem_good sma →
  match find_alloc_undo ulp mem sma with
  | Ret (u, sma') => sem_good sma' ∧ u ∈ ulps (list_id sma') ∧ sem_base sma' = sem_base sma ∧
                     sma_pending sma' = sma_pending sma ∧ sem_perm sma' = sem_perm sma
  | Err e => e = ENOMEM
  | UB => False
  end.
Proof.
  intros [Hok Hb]. unfold find_alloc_undo. destruct ulp as [u|]; [|done].
  destruct (existsb _ _) eqn:E.
  { apply existsb_exists in E as (x & Hx%list_elem_of_In & Ex). bprop. split_and!; try done.
    rewrite <- Ex. by apply list_elem_of_fmap_2. }
  assert (u ∉ ulps (list_id sma)) as Hu.
  { intros (x & -> & Hx%list_elem_of_In)%list_elem_of_fmap. apply not_true_iff_false in E.
    apply E, existsb_exists. exists x. by rewrite Z.eqb_refl. }
  destruct mem; simpl; [|done]. destruct Hok as [Hv [Hn Hl] Hid Hq Hsim Hord Hc].
  split_and!; [|set_solver|done|done|done]. constructor.
  - constructor; try done; simpl.
    + split; [by constructor|]. constructor; [|done]. simpl. split.
      * unfold sem_nsems, zlength. simpl. by rewrite length_replicate.
      * apply Forall_replicate. done.
    + intros q Hin. eapply queue_ok_mono; [|by apply Hq]. set_solver.
  - intros q Hin. destruct (Hb q Hin) as [vs Hspec]. exists vs. simpl. rewrite <- Hspec.
    destruct (q_undo q) as [u'|] eqn:Eu.
    + destruct (decide (u' ∈ ulps (list_id sma))) as [Hin'|Hout].
      * apply sem_spec_undos. intros k. simpl. by rewrite (proj2 (Z.eqb_neq u u')) by congruence.
      * apply sem_spec_no_undo. intros sop Hs. destruct (sop_undo sop) eqn:E'; [|done].
        destruct (Hq q Hin) as [_ Hsops _ _]. rewrite Forall_forall in Hsops.
        destruct (Hsops sop Hs) as [_ Hun]. destruct (Hun E') as (w & Ew & ?). congruence.
    + by apply sem_spec_undos.
Qed.

(** ** Going to sleep *)

Lemma zeros_first_enqueue q l : zeros_first l → zeros_first (enqueue q l).
Proof.
  intros (zs & ds & -> & Hz & Hd). unfold enqueue. destruct (q_alter q) eqn:E.
  - exists zs, (ds ++ [q]). rewrite <- app_assoc. split_and!; [done|done|]. apply Forall_app. auto.
  - exists (q :: zs), ds. auto.
Qed.

Lemma enqueue_perm q l : enqueue q l ≡ₚ q :: l.
Proof. unfold enqueue. destruct (q_alter q); [|done]. symmetry. apply Permutation_cons_append. Qed.

Lemma enqueue_filter p q l :
  List.filter p (enqueue q l) = if p q then enqueue q (List.filter p l) else List.filter p l.
Proof.
  unfold enqueue. destruct (q_alter q); simpl; [|by destruct (p q)].
  rewrite List.filter_app. simpl. destruct (p q); [done|]. by rewrite app_nil_r.
Qed.

Lemma sleep_ok q sma :
  sem_good sma → q_id q ∉ q_id <$> sma_pending sma →
  queue_ok (sem_nsems sma) (ulps (list_id sma)) q → blocked sma q →
  ∃ sma', sleep_on q sma = Ret sma' ∧ sem_good sma' ∧ sem_nsems sma' = sem_nsems sma ∧
    sma_pending sma' = enqueue q (sma_pending sma).
Proof.
  intros [[Hv Hu Hid Hq Hsim Hord Hc] Hb] Hfr Hqok Hbq. unfold sleep_on.
  assert (∀ p, p ∈ enqueue q (sma_pending sma) → p = q ∨ p ∈ sma_pending sma) as Hin
    by (intros p; rewrite enqueue_perm, elem_of_cons; done).
  assert (NoDup (q_id <$> enqueue q (sma_pending sma))) as Hid'
    by (rewrite enqueue_perm; simpl; by constructor).
  destruct (nsops q =? 1) eqn:En; bprop.
  - destruct (nsops_one q En) as [sop Es]. pose proof (qo_sops _ _ _ Hqok) as Hs. rewrite Es in *. simpl.
    apply Forall_cons in Hs as [[Hk _] _]. rewrite array_upd_eq.
    destruct (zlookup_is_Some (sem_base sma) (sem_num sop)) as [c Hcur]; [done|]. rewrite Hcur. simpl.
    eexists. split; [done|]. set (b' := <[_ := _]> (sem_base sma)).
    assert (vals b' = vals (sem_base sma)) as Hv' by by apply (fmap_insert_same _ _ _ c).
    assert (zlength b' = sem_nsems sma) as Hn by apply zlength_insert.
    split_and!; [|exact Hn|done]. constructor.
    + constructor; simpl; try done.
      * by rewrite Hv'.
      * unfold sem_nsems. simpl. by rewrite Hn.
      * intros p Hp. unfold sem_nsems. simpl. rewrite Hn. destruct (Hin p Hp) as [->|?]; auto.
      * intros i l. unfold queues, b'. rewrite list_fmap_insert, list_lookup_insert_Some, enqueue_filter.
        unfold simple_on at 1. rewrite Es. intros [(<- & <- & _)|[Hi Hl]].
        -- rewrite Z2Nat.id, Z.eqb_refl by lia. simpl. f_equal. rewrite zlookup_pos in Hcur by lia.
           rewrite (Hsim (Z.to_nat (sem_num sop)) (sem_pending c)), Z2Nat.id by
             (lia || by unfold queues; rewrite list_lookup_fmap, Hcur). done.
        -- rewrite (proj2 (Z.eqb_neq _ _)) by lia. by apply Hsim.
      * by apply zeros_first_enqueue.
      * rewrite Hc, enqueue_filter. unfold is_complex at 2. by rewrite En.
    + intros p Hp. apply (blocked_same sma); [done|done|]. destruct (Hin p Hp) as [->|?]; auto.
  - assert (is_complex q = true) as Hcq by (unfold is_complex; by rewrite (proj2 (Z.eqb_neq _ _))).
    eexists. split; [done|]. split; [|done]. constructor.
    + constructor; simpl; try done.
      * intros p Hp. destruct (Hin p Hp) as [->|?]; auto.
      * intros i l Hl. rewrite (Hsim i l Hl), enqueue_filter. by rewrite complex_not_simple.
      * by apply zeros_first_enqueue.
      * rewrite Hc, enqueue_filter, Hcq. unfold zlength. rewrite (Permutation_length (enqueue_perm _ _)).
        simpl. lia.
    + intros p Hp. apply (blocked_same sma); [done|done|]. destruct (Hin p Hp) as [->|?]; auto.
Qed.

(** ** semtimedop *)

Definition semop_post (sma : sem_array) (r : cres (semop_outcome * tasks * sem_array)) : Prop :=
  ∃ out pt sma', r = Ret (out, pt, sma') ∧ sem_good sma' ∧ sem_nsems sma' = sem_nsems sma ∧
    match out with
    | Finished e => e ≤ 0 ∧ sma_pending sma ≡ₚ sma_pending sma' ++ pt.*1
    | Sleeps q => pt = [] ∧ sma_pending sma' = enqueue q (sma_pending sma)
    end.

Lemma semop_out sma e : sem_good sma → e ≤ 0 → semop_post sma (Ret (Finished e, [], sma)).
Proof. intros H He. do 3 eexists. split_and!; try done. simpl. by rewrite app_nil_r. Qed.

(** an increment of one semaphore does not sleep, nor does IPC_NOWAIT *)
Lemma sleeping_sop undos un sop vs vs' :
  Forall val_ok vs → sem_spec undos un [sop] vs = Ret (1, vs') → sem_op sop ≤ 0 ∧ sop_nowait sop = false.
Proof.
  intros Hv. simpl. unfold array_get. destruct (zlookup vs (sem_num sop)) as [v|] eqn:Ev; simpl; [|done].
  apply (Forall_zlookup _ _ _ _ Hv) in Ev. unfold val_ok in Ev.
  destruct ((sem_op sop =? 0) && truth v || (v + sem_op sop <? 0)) eqn:E.
  - destruct (sop_nowait sop); [done|]. intros _. split; [|done]. bool_props. lia.
  - case_test; [done|]. by destruct (if sop_undo sop then _ else _) as [[]| |].
Qed.

Lemma no_alter_zero sops :
  existsb (λ sop, negb (sem_op sop =? 0)) sops = false → Forall (λ sop, sem_op sop = 0) sops.
Proof. intros H. by apply (alter_false (MkQueue 0 None 0 sops false)). Qed.

(** the operations were performed: whoever can go on now has been completed *)
Lemma semop_done sops un sma sma1 now :
  sem_good sma → sem_ok sma1 → same_queues sma sma1 →
  Forall (λ sop, 0 ≤ sem_num sop < sem_nsems sma) sops →
  sem_spec (list_id sma) un sops (vals (sem_base sma)) = Ret (0, vals (sem_base sma1)) →
  (Forall (λ sop, sem_op sop = 0) sops → list_id sma1 = list_id sma) →
  semop_post sma
    (if existsb (λ sop, negb (sem_op sop =? 0)) sops then
       '(pt, sma) ← do_smart_update (Some sops) true now [] sma1; Ret (Finished 0, pt, sma)
     else Ret (Finished 0, [], sma1)).
Proof.
  intros [Hok Hb] Hok1 Hsq Hk Hspec Hl0. pose proof (queues_nsems _ _ (sq_queues _ _ Hsq)) as Hn.
  destruct (existsb _ sops) eqn:E.
  - destruct (smart_part sops true now [] sma1) as (pt & sma2 & -> & Hup & Hb2);
      [done|by rewrite Hn| |].
    + intros _ n. by eapply ops_handled; try apply Hsq.
    + simpl. do 3 eexists. split; [done|]. destruct Hup as [H1 H2 H3 H4 H5 _].
      rewrite (sq_pending _ _ Hsq) in H4. split_and!; done || congruence.
  - apply no_alter_zero in E. do 3 eexists. split; [done|]. split_and!; try done.
    + constructor; [done|]. intros p Hp. rewrite (sq_pending _ _ Hsq) in Hp.
      apply (blocked_same sma); [by eapply sem_spec_zero|by apply Hl0|by apply Hb].
    + rewrite (sq_pending _ _ Hsq). simpl. by rewrite app_nil_r.
Qed.

Lemma max_bound sops n :
  foldr (λ sop, Z.max (sem_num sop)) 0 sops < n → ∀ sop, sop ∈ sops → sem_num sop < n.
Proof.
  induction sops as [|x sops IH]; intros H sop; [set_solver|]. simpl in H.
  intros [->|Hs]%elem_of_cons; [lia|]. apply IH; [lia|done].
Qed.

(** what the kernel copies from the caller *)
Definition user_sops (sops : list sembuf) : Prop := Forall (λ sop, 0 ≤ sem_num sop) sops.

Lemma semop_core sops un pid id now sma :
  let alter := existsb (λ sop, negb (sem_op sop =? 0)) sops in
  sem_good sma → sops ≠ [] → Forall (sop_ok (sem_nsems sma) (ulps (list_id sma)) un) sops →
  id ∉ q_id <$> sma_pending sma →
  semop_post sma
    ('(error, sma) ← try_atomic_semop sops un pid sma;
     if error <=? 0 then
       if alter && (error =? 0) then
         '(pt, sma) ← do_smart_update (Some sops) true now [] sma; Ret (Finished error, pt, sma)
       else Ret (Finished error, [], sma)
     else
       let q := MkQueue id un pid sops alter in
       sma ← sleep_on q sma; Ret (Sleeps q, [], sma)).
Proof.
  intros alter Hg Hne Hs Hid. pose proof Hg as [Hok Hb].
  destruct (try_ok sops un pid sma) as (r & sma1 & vs & -> & Hcode & Hspec & Hn0 & H0); [apply Hok|done|apply Hok|].
  simpl. destruct (decide (r = 0)) as [->|Hr].
  - destruct H0 as (<- & Hsq & Hu & Hl); [done|]. simpl. rewrite andb_true_r. apply (semop_done sops un); try done.
    + eapply sem_ok_try; [done|done| |done].
      destruct (sem_spec_ok (sem_nsems sma) (list_id sma) un sops (vals (sem_base sma)))
        as (? & ? & E & _ & _ & ?); [apply Hok|done|unfold vals, zlength; by rewrite length_fmap|apply Hok|].
      rewrite Hspec in E. by injection E as <- <-.
    + eapply Forall_impl; [exact Hs|]. by intros sop [? _].
  - rewrite Hn0 by done. destruct (r <=? 0) eqn:Er.
    { rewrite (proj2 (Z.eqb_neq _ _) Hr), andb_false_r. apply semop_out; [done|]. by bprop. }
    assert (r = 1) as -> by (unfold sem_code, ERANGE, EAGAIN in Hcode; bprop; lia).
    destruct (sleep_ok (MkQueue id un pid sops alter) sma) as (sma' & -> & Hg' & Hn & Ep); try done.
    + constructor; try done. intros sop E. simpl in E. rewrite E in Hspec.
      eapply sleeping_sop; [|exact Hspec]. apply Hok.
    + by exists vs.
    + simpl. do 3 eexists. split; [done|]. by split_and!.
Qed.

Lemma semop_post_same sma sma' r :
  sem_nsems sma' = sem_nsems sma → sma_pending sma' = sma_pending sma →
  semop_post sma' r → semop_post sma r.
Proof.
  intros En Ep (out & pt & s & -> & Hg & Hn & Ho). exists out, pt, s. rewrite <- En, <- Ep. done.
Qed.

Section Calls.
Context (ns : user_namespace) (st : sys).
Context (Hgroups : groups_wf (cr_group_info (t_cred st))).

(** the part of [semtimedop] after the undo structure was found *)
Lemma semop_checked sops un pid id now sma :
  sem_good sma → sops ≠ [] → user_sops sops → id ∉ q_id <$> sma_pending sma →
  (∀ sop, sop ∈ sops → sop_undo sop = true → ∃ u, un = Some u ∧ u ∈ ulps (list_id sma)) →
  let alter := existsb (λ sop, negb (sem_op sop =? 0)) sops in
  semop_post sma
    (if foldr (λ sop, Z.max (sem_num sop)) 0 sops >=? sem_nsems sma
     then Ret (Finished (- EFBIG), [], sma)
     else match (ipcperms ns (sem_perm sma) (if alter then S_IWUGO else S_IRUGO) st).1 with
          | UB => UB
          | Err _ => Ret (Finished (- EACCES), [], sma)
          | Ret _ =>
              '(error, sma) ← try_atomic_semop sops un pid sma;
              if error <=? 0 then
                if alter && (error =? 0) then
                  '(pt, sma) ← do_smart_update (Some sops) true now [] sma;
                  Ret (Finished error, pt, sma)
                else Ret (Finished error, [], sma)
              else
                let q := MkQueue id un pid sops alter in
                sma ← sleep_on q sma; Ret (Sleeps q, [], sma)
          end).
Proof.
  intros Hg Hne Hus Hid Hun alter. destruct (_ >=? _) eqn:E; [by apply semop_out|].
  destruct (ipcperms _ _ _ _).1 eqn:Ep; [|by apply semop_out|by apply ipcperms_defined in Ep].
  apply semop_core; [done|done| |done]. apply Forall_forall. intros sop Hs. split; [|by apply Hun].
  unfold user_sops in Hus. rewrite Forall_forall in Hus. bprop.
  split; [by apply Hus|by eapply max_bound].
Qed.

Lemma semtimedop_ok opm semid pid id now ulp mem readable timeout sops sma :
  sem_good sma → user_sops sops → id ∉ q_id <$> sma_pending sma →
  semop_post sma (semtimedop ns st opm semid pid id now ulp mem readable timeout sops sma).
Proof.
  intros Hg Hus Hid. unfold semtimedop.
  destruct ((zlength sops <? 1) || (semid <? 0)) eqn:E1; [by apply semop_out|].
  case_test; [by apply semop_out|]. case_test; [by apply semop_out|].
  case_test; [by apply semop_out|].
  case_test; [apply semop_out; [done|]|].
  { unfold timeout_error. repeat (case_match; try done). }
  assert (sops ≠ []) as Hne by (intros ->; done).
  destruct (existsb sop_undo sops) eqn:Eu.
  - pose proof (find_alloc_ok ulp mem.2 sma Hg) as Hf.
    destruct (find_alloc_undo ulp mem.2 sma) as [[u sma1]|e|]; [|simpl; subst; by apply semop_out|done].
    destruct Hf as (Hg1 & Hu & Hb & Hp & _). simpl.
    apply (semop_post_same sma sma1); [by unfold sem_nsems; rewrite Hb|done|].
    apply semop_checked; try done; [by rewrite Hp|eauto].
  - simpl. apply semop_checked; try done. intros sop Hs Ht. apply not_true_iff_false in Eu.
    destruct Eu. apply existsb_exists. exists sop. split; [by apply list_elem_of_In|done].
Qed.
End Calls.

(** ** Interrupted sleepers *)

Lemma interrupted_ok expired signal q sma :
  sem_good sma → q ∈ sma_pending sma →
  ∃ r sma', semop_interrupted expired signal q sma = Ret (r, sma') ∧ sem_good sma' ∧
    sem_nsems sma' = sem_nsems sma ∧
    sma_pending sma ≡ₚ (match r with None => [] | Some _ => [q] end) ++ sma_pending sma'.
Proof.
  intros [Hok Hb] Hq. destruct (list_elem_of_split _ _ Hq) as (l1 & l2 & El).
  destruct (unlink_ok sma q l1 l2 Hok El) as (sma' & Hun & Hok' & Ep & Hv & Hl).
  assert (sem_good sma') as Hg.
  { constructor; [done|]. intros p Hp. apply (blocked_same sma); [done|done|]. apply Hb.
    rewrite El. rewrite Ep in Hp. set_solver. }
  assert (sma_pending sma ≡ₚ [q] ++ sma_pending sma') as Hperm
    by (rewrite El, Ep; simpl; by rewrite Permutation_middle).
  pose proof (vals_nsems _ _ Hv) as Hn.
  unfold semop_interrupted. rewrite Hun. simpl. destruct expired; [eauto 10|].
  destruct signal; simpl; [eauto 10|]. exists None, sma. done.
Qed.

(** ** semctl and exit: the values change, the queues stay *)

Lemma changed_ok sma b undos :
  sem_ok sma → queues b = queues (sem_base sma) → Forall val_ok (vals b) →
  undos_ok (sem_nsems sma) undos → ulps undos = ulps (list_id sma) →
  sem_ok (with_base b (with_undos undos sma)).
Proof. intros Hok Hq Hv Hu Hl. eapply sem_ok_try; [done|by constructor|done|done]. Qed.

(** what follows a change of values looks at every waiting operation *)
Definition ctl_post (sma : sem_array) (pt : tasks) (sma' : sem_array) : Prop :=
  sem_good sma' ∧ sem_nsems sma' = sem_nsems sma ∧ sma_pending sma ≡ₚ sma_pending sma' ++ pt.*1.

Lemma smart_ctl otime now sma sma1 :
  sem_ok sma1 → sem_nsems sma1 = sem_nsems sma → sma_pending sma1 = sma_pending sma →
  ∃ pt sma', do_smart_update None otime now [] sma1 = Ret (pt, sma') ∧ ctl_post sma pt sma'.
Proof.
  intros Hok Hn Hp. destruct (smart_full otime now [] sma1 Hok) as (pt & sma' & -> & [H1 H2 _ H4 _ _] & Hb).
  exists pt, sma'. split; [done|]. rewrite Hp in H4. split_and!; [done|congruence|done].
Qed.

Lemma zero_adj_ok n k undos :
  0 ≤ k < n → undos_ok n undos →
  ∃ undos', zero_adj k undos = Ret undos' ∧ undos_ok n undos' ∧ ulps undos' = ulps undos.
Proof.
  intros Hk [Hnd Hl]. unfold undos_ok.
  assert (∃ undos', zero_adj k undos = Ret undos' ∧ ulps undos' = ulps undos ∧
    Forall (λ x, zlength (semadj x) = n ∧ Forall is_s16 (semadj x)) undos') as (u' & -> & Hu & Hf).
  { clear Hnd. induction Hl as [|x l [Hlen Hs] _ (u' & IH1 & IH2 & IH3)]; simpl; [by exists []|].
    rewrite array_set_in by lia. simpl. rewrite IH1. simpl. eexists. split; [done|]. simpl.
    split; [by rewrite IH2|]. constructor; [|done]. simpl. rewrite zlength_insert. split; [done|].
    by apply Forall_insert. }
  exists u'. rewrite Hu. done.
Qed.

Lemma setval_ok semnum val tgid now sma :
  sem_good sma → 0 ≤ semnum < sem_nsems sma →
  ∃ e pt sma', semctl_setval semnum val tgid now sma = Ret (e, pt, sma') ∧ ctl_post sma pt sma'.
Proof.
  intros Hg Hk. pose proof Hg as [Hok Hb]. unfold semctl_setval. case_test.
  { do 3 eexists. split; [done|]. split_and!; try done. simpl. by rewrite app_nil_r. }
  bprop. destruct (zero_adj_ok (sem_nsems sma) semnum (list_id sma)) as (u' & -> & Hu & Hul); [done|apply Hok|].
  simpl. rewrite array_upd_eq. destruct (zlookup_is_Some (sem_base sma) semnum) as [c Hc]; [done|].
  rewrite Hc. simpl. set (b := <[_ := _]> (sem_base sma)).
  assert (sem_ok (with_base b (with_undos u' sma))) as Hok1.
  { apply changed_ok; try done.
    - by apply (fmap_insert_same _ _ _ c).
    - unfold vals, b. rewrite list_fmap_insert. apply Forall_insert; [apply Hok|]. unfold val_ok. simpl. lia. }
  destruct (smart_ctl false now sma (with_ctime now (with_base b (with_undos u' sma))))
    as (pt & sma' & -> & Hp); [by apply sem_ok_ctime|unfold sem_nsems; apply zlength_insert|done|].
  simpl. eauto.
Qed.

Lemma set_all_ok vs : ∀ base,
  length vs = length base →
  ∃ base', set_all vs base = Ret base' ∧ vals base' = vs ∧ queues base' = queues base.
Proof.
  induction vs as [|v vs IH]; intros [|c base] Hl; simpl in *; try lia; [by exists []|].
  destruct (IH base) as (b & -> & <- & Hq); [lia|]. simpl. eexists. split; [done|]. simpl.
  split; [done|]. by rewrite Hq.
Qed.

(** the caller's array holds one unsigned number for each semaphore *)
Definition user_vals (n : Z) (sem_io : option (list Z)) : Prop :=
  ∀ vs, sem_io = Some vs → zlength vs = n ∧ Forall (λ v, 0 ≤ v) vs.

Lemma setall_ok mem sem_io now sma :
  sem_good sma → user_vals (sem_nsems sma) sem_io →
  ∃ e pt sma', semctl_setall mem Some sem_io now sma = Ret (e, pt, Some sma') ∧ ctl_post sma pt sma'.
Proof.
  intros Hg Hio. pose proof Hg as [Hok Hb]. unfold semctl_setall.
  assert (∀ e, ∃ e' (pt : tasks) sma', Ret (e : Z, [], Some sma) = Ret (e', pt, Some sma') ∧
    ctl_post sma pt sma') as Hout.
  { intros e. do 3 eexists. split; [done|]. split_and!; try done. simpl. by rewrite app_nil_r. }
  case_test; [apply Hout|]. destruct sem_io as [vs|]; [|apply Hout].
  destruct (Hio vs eq_refl) as [Hlen Hpos].
  case_test; [apply Hout|]. destruct (set_all_ok vs (sem_base sma)) as (b & -> & Hv & Hq).
  { unfold zlength, sem_nsems in Hlen. unfold zlength in Hlen. lia. }
  simpl. set (u' := (λ x, MkUndo (un_ulp x) (replicate (length b) 0)) <$> list_id sma).
  assert (length b = length (sem_base sma)) as Hlb
    by (apply (f_equal length) in Hq; unfold queues in Hq; by rewrite !length_fmap in Hq).
  assert (ulps u' = ulps (list_id sma)) as Hul by (unfold ulps, u'; by rewrite <- list_fmap_compose).
  assert (sem_ok (with_base b (with_undos u' sma))) as Hok1.
  { apply changed_ok; try done.
    - rewrite Hv. apply Forall_forall. intros v Hin. rewrite Forall_forall in Hpos.
      split; [by apply Hpos|]. destruct (Z.le_gt_cases v SEMVMX) as [|Hgt]; [done|].
      apply not_true_iff_false in E0. destruct E0. apply existsb_exists. exists v.
      split; [by apply list_elem_of_In|]. rewrite Z.gtb_ltb. by apply Z.ltb_lt.
    - split; [rewrite Hul; apply (so_undos _ Hok)|]. unfold u'. apply Forall_fmap, Forall_forall.
      intros x _. simpl. split; [|by apply Forall_replicate]. unfold zlength, sem_nsems, zlength.
      by rewrite length_replicate, Hlb. }
  destruct (smart_ctl false now sma (with_ctime now (with_base b (with_undos u' sma))))
    as (pt & sma' & -> & Hp); [by apply sem_ok_ctime|unfold sem_nsems, zlength; simpl; by rewrite Hlb|done|].
  simpl. eauto.
Qed.

Lemma adjust_ok pid base : ∀ adj,
  length adj = length base → Forall val_ok (vals base) →
  ∃ base', adjust adj pid base = Ret base' ∧ Forall val_ok (vals base') ∧ queues base' = queues base.
Proof.
  induction base as [|c base IH]; intros [|a adj] Hl Hv; simpl in *; try lia; [by exists []|].
  apply Forall_cons in Hv as [Hc Hv]. destruct (IH adj) as (b & -> & Hv' & Hq); [lia|done|].
  simpl. eexists. split; [done|]. simpl. rewrite Hq. split; [|by case_test].
  constructor; [|done]. unfold val_ok, SEMVMX in *. repeat case_test; simpl; bprop; lia.
Qed.

(** The undo structure of a process that exits is not in use: a process that
    sleeps in [semop] does not exit. *)
Lemma exit_ok ulp pid now sma :
  sem_good sma → (∀ q, q ∈ sma_pending sma → q_undo q ≠ Some ulp) →
  ∃ pt sma', exit_sem ulp pid now sma = Ret (pt, sma') ∧ ctl_post sma pt sma'.
Proof.
  intros Hg Hno. pose proof Hg as [Hok Hb]. unfold exit_sem.
  destruct (List.find _ _) as [un|] eqn:Ef.
  2:{ do 2 eexists. split; [done|]. split_and!; try done. simpl. by rewrite app_nil_r. }
  apply List.find_some in Ef as [Hin%list_elem_of_In Eu]. bprop.
  destruct Hok as [Hv [Hnd Hl] Hid Hq Hsim Hord Hc].
  pose proof Hl as Hl'. rewrite Forall_forall in Hl'. destruct (Hl' un Hin) as [Hlen _].
  destruct (adjust_ok pid (sem_base sma) (semadj un)) as (b & -> & Hvb & Hqb); [|done|].
  { unfold zlength, sem_nsems, zlength in Hlen. lia. }
  simpl. set (u' := List.filter _ (list_id sma)).
  assert (sem_nsems (with_base b (with_undos u' sma)) = sem_nsems sma) as Hn by by apply queues_nsems.
  apply smart_ctl; [|done|done]. constructor; simpl; try done.
  - rewrite Hn. split.
    + eapply sublist_NoDup; [exact Hnd|]. apply fmap_sublist. unfold u'. clear.
      induction (list_id sma) as [|x l IH]; simpl; [done|].
      case_test; [by apply sublist_skip|by apply sublist_cons].
    + apply Forall_forall. intros x [Hx _]%elem_filter. by apply Hl'.
  - intros q Hqin. rewrite Hn. destruct (Hq q Hqin) as [H1 H2 H3 H4]. constructor; try done.
    eapply Forall_impl; [exact H2|]. intros sop [Hk Hu]. split; [done|]. intros E.
    destruct (Hu E) as (w & Ew & Hw). exists w. split; [done|].
    apply list_elem_of_fmap in Hw as (x & -> & Hx). apply list_elem_of_fmap_2. apply elem_filter.
    split; [done|]. apply negb_true_iff, Z.eqb_neq. intros Ex. apply (Hno q Hqin). congruence.
  - intros i l. rewrite Hqb. apply Hsim.
Qed.

Lemma semctl_ok ns st tgid now mem cmd semnum val sem_io writable sma :
  groups_wf (cr_group_info (t_cred st)) →
  sem_good sma → user_vals (sem_nsems sma) sem_io →
  ∃ e out pt sma',
    semctl_main ns st tgid now mem Some cmd semnum val sem_io writable sma
      = Ret (e, out, pt, Some sma') ∧ ctl_post sma pt sma'.
Proof.
  intros Hperm Hg Hio. unfold semctl_main.
  assert (∀ e out, ∃ e' out' (pt : tasks) sma', Ret (e : Z, out : list Z, [], Some sma)
    = Ret (e', out', pt, Some sma') ∧ ctl_post sma pt sma') as Hout.
  { intros e out. do 4 eexists. split; [done|]. split_and!; try done. simpl. by rewrite app_nil_r. }
  destruct (ipcperms _ _ _ _).1 eqn:Ep; [|apply Hout|by apply ipcperms_defined in Ep].
  case_test.
  { unfold semctl_getall. repeat case_test; apply Hout. }
  case_test.
  { destruct (setall_ok mem sem_io now sma Hg Hio) as (e & pt & sma' & -> & Hp). simpl. eauto 10. }
  case_test; [apply Hout|]. bprop.
  destruct (array_get_in (sem_base sma) semnum) as (c & -> & _); [unfold sem_nsems in *; lia|]. simpl.
  do 4 (case_test; [apply Hout|]). case_test; [|apply Hout].
  destruct (setval_ok semnum val tgid now sma Hg) as (e & pt & sma' & -> & Hp); [lia|]. simpl. eauto 10.
Qed.

(** ** Any sequence of calls

    What others do while [semctl] has unlocked the array comes before it as
    steps of their own. *)
Inductive sem_step (sma : sem_array) : sem_array → Prop :=
  | step_semop ns st opm semid pid id now ulp mem readable timeout sops out pt sma' :
      groups_wf (cr_group_info (t_cred st)) →
      user_sops sops → id ∉ q_id <$> sma_pending sma →
      semtimedop ns st opm semid pid id now ulp mem readable timeout sops sma = Ret (out, pt, sma') →
      sem_step sma sma'
  | step_interrupted expired signal q r sma' :
      q ∈ sma_pending sma → semop_interrupted expired signal q sma = Ret (r, sma') →
      sem_step sma sma'
  | step_semctl ns st tgid now mem cmd semnum val sem_io writable e out pt sma' :
      groups_wf (cr_group_info (t_cred st)) → user_vals (sem_nsems sma) sem_io →
      semctl_main ns st tgid now mem Some cmd semnum val sem_io writable sma
        = Ret (e, out, pt, Some sma') →
      sem_step sma sma'
  | step_exit ulp pid now pt sma' :
      (∀ q, q ∈ sma_pending sma → q_undo q ≠ Some ulp) →
      exit_sem ulp pid now sma = Ret (pt, sma') → sem_step sma sma'.

Lemma sem_step_good sma sma' :
  sem_step sma sma' → sem_good sma → sem_good sma' ∧ sem_nsems sma' = sem_nsems sma.
Proof.
  intros Hst Hg. destruct Hst as [ns st opm semid pid id now ulp mem rd tmo sops out pt sma' Hp Hus Hid E
    |expired signal q r sma' Hq E|ns st tgid now mem cmd k v io wr e out pt sma' Hp Hio E|ulp pid now pt sma' Hno E].
  - destruct (semtimedop_ok ns st Hp opm semid pid id now ulp mem rd tmo sops sma Hg Hus Hid)
      as (? & ? & ? & E' & ? & ? & _). rewrite E in E'. by injection E' as <- <- <-.
  - destruct (interrupted_ok expired signal q sma Hg Hq) as (? & ? & E' & ? & ? & _).
    rewrite E in E'. by injection E' as <- <-.
  - destruct (semctl_ok ns st tgid now mem cmd k v io wr sma Hp Hg Hio) as (? & ? & ? & ? & E' & ? & ? & _).
    rewrite E in E'. by injection E' as <- <- <- <-.
  - destruct (exit_ok ulp pid now sma Hg Hno) as (? & ? & E' & ? & ? & _). rewrite E in E'.
    by injection E' as <- <-.
Qed.

Lemma init_good perm n now : sem_good (init_sems perm n now).
Proof.
  unfold init_sems. constructor; [|intros q Hq; simpl in Hq; set_solver].
  constructor; simpl; try set_solver.
  - unfold vals. rewrite fmap_replicate. apply Forall_replicate. done.
  - split; [constructor|constructor].
  - constructor.
  - intros i l. unfold queues. rewrite fmap_replicate, lookup_replicate. by intros [-> _].
  - by exists [], [].
Qed.

Lemma sem_steps_good sma sma' :
  rtc sem_step sma sma' → sem_good sma → sem_good sma' ∧ sem_nsems sma' = sem_nsems sma.
Proof.
  induction 1 as [|sma1 sma2 sma3 Hs _ IH]; [done|]. intros Hg.
  destruct (sem_step_good _ _ Hs Hg) as [Hg2 E]. destruct (IH Hg2). split; [done|congruence].
Qed.

Lemma reachable_good perm n now sma :
  0 ≤ n → rtc sem_step (init_sems perm n now) sma → sem_good sma ∧ sem_nsems sma = n.
Proof.
  intros Hn H. destruct (sem_steps_good _ _ H (init_good perm n now)) as [Hg E].
  split; [done|]. rewrite E. unfold sem_nsems, zlength. simpl. rewrite length_replicate. lia.
Qed.

Lemma blocked_try sma q :
  sem_ok sma → q ∈ sma_pending sma → blocked sma q →
  try_atomic_semop (q_sops q) (q_undo q) (q_pid q) sma = Ret (1, sma).
Proof.
  intros Hok Hq [vs Hb]. destruct (so_queue _ Hok q Hq) as [_ Hs _ _].
  destruct (try_ok (q_sops q) (q_undo q) (q_pid q) sma) as (r & sma' & vs' & E & _ & Hspec & Hne & _);
    [apply Hok|done|apply Hok|]. rewrite Hb in Hspec. injection Hspec as <- _. rewrite E.
  by rewrite Hne.
Qed.

(** ** Theorems *)

(** C8: no waiting operation is forgotten: after any sequence of semop calls,
    interrupted sleeps, semctl calls and exits, each operation that still
    waits would block if it were tried again, although after a change the code
    looks only at the queues of the semaphores that can matter and starts over
    only when it thinks it has to. *)
Theorem sem_no_runnable_waiter perm n now sma q :
  0 ≤ n → rtc sem_step (init_sems perm n now) sma → q ∈ sma_pending sma →
  try_atomic_semop (q_sops q) (q_undo q) (q_pid q) sma = Ret (1, sma).
Proof.
  intros Hn [[Hok Hb] _]%reachable_good Hq; [|done]. by apply blocked_try; [..|apply Hb].
Qed.

(** the values of semaphores stay between 0 and SEMVMX, every undo
    structure has one 16 bit number for each semaphore, the queue of a
    semaphore holds exactly the single operations waiting on it in the order
    of the queue of the array, and [complex_count] counts the others. *)
Theorem sem_array_typed perm n now sma :
  0 ≤ n → rtc sem_step (init_sems perm n now) sma → sem_ok sma ∧ sem_nsems sma = n.
Proof. intros Hn [[Hok _] E]%reachable_good; done. Qed.

(** C33: semtimedop always comes to an end without failing an assertion or
    leaving an array, whatever is asked and whatever waits: it either
    finishes with a result, having completed some waiting operations and
    dropped none, or it puts its own operation into the queue. *)
Theorem semtimedop_total perm n now0 sma ns st opm semid pid id now ulp mem readable timeout sops :
  0 ≤ n → rtc sem_step (init_sems perm n now0) sma → groups_wf (cr_group_info (t_cred st)) →
  user_sops sops → id ∉ q_id <$> sma_pending sma →
  ∃ out pt sma',
    semtimedop ns st opm semid pid id now ulp mem readable timeout sops sma = Ret (out, pt, sma') ∧
    match out with
    | Finished e => e ≤ 0 ∧ sma_pending sma ≡ₚ sma_pending sma' ++ pt.*1
    | Sleeps q => pt = [] ∧ sma_pending sma' = enqueue q (sma_pending sma)
    end.
Proof.
  intros Hn [Hg _]%reachable_good Hp Hus Hid; [|done].
  destruct (semtimedop_ok ns st Hp opm semid pid id now ulp mem readable timeout sops sma Hg Hus Hid)
    as (out & pt & sma' & E & _ & _ & H). eauto.
Qed.

(** *** All or nothing *)

(** the operations can be performed one after the other *)
Inductive performs (undos : list sem_undo) (un : option Z) : list Z → list sembuf → list Z → Prop :=
  | perform_nil vs : performs undos un vs [] vs
  | perform_cons vs sop sops v vs' :
      zlookup vs (sem_num sop) = Some v → (sem_op sop = 0 → v = 0) →
      0 ≤ v + sem_op sop ≤ SEMVMX →
      (sop_undo sop = true →
         ∃ a, get_adj un (sem_num sop) undos = Ret a ∧ - SEMAEM - 1 ≤ a - sem_op sop ≤ SEMAEM) →
      performs undos un (<[Z.to_nat (sem_num sop) := v + sem_op sop]> vs) sops vs' →
      performs undos un vs (sop :: sops) vs'.

Lemma performs_spec undos un sops : ∀ vs vs',
  performs undos un vs sops vs' ↔ sem_spec undos un sops vs = Ret (0, vs').
Proof.
  induction sops as [|sop sops IH]; intros vs vs'.
  { simpl. split; [by inversion 1|intros [= <-]; constructor]. }
  split.
  - inversion 1 as [|? ? ? v ? Hv H0 Hr Hu Hp]; subst. simpl. unfold array_get. rewrite Hv. simpl.
    replace ((sem_op sop =? 0) && truth v || (v + sem_op sop <? 0)) with false.
    2:{ symmetry. unfold truth. bool_props. destruct (decide (sem_op sop = 0)); lia. }
    rewrite Z.gtb_ltb, (proj2 (Z.ltb_ge _ _)) by lia. apply IH in Hp.
    destruct (sop_undo sop); simpl; [|done]. destruct Hu as (a & -> & Ha); [done|]. simpl.
    rewrite Z.gtb_ltb, !(proj2 (Z.ltb_ge _ _)) by lia. done.
  - simpl. unfold array_get. destruct (zlookup vs (sem_num sop)) as [v|] eqn:Hv; simpl; [|done].
    destruct ((sem_op sop =? 0) && truth v || (v + sem_op sop <? 0)) eqn:E1; [by destruct (sop_nowait sop)|].
    case_test; [done|]. unfold truth in E1. intros H. econstructor; [done|bool_props; lia|bool_props; lia| |].
    + intros Hu. rewrite Hu in H. destruct (get_adj un (sem_num sop) undos) as [a| |]; try done.
      exists a. split; [done|]. simpl in H. case_test; [done|]. bprop. lia.
    + apply IH. destruct (if sop_undo sop then _ else _) as [[]| |]; done.
Qed.

(** C32: a sequence of operations is all or nothing: if they can be performed
    one after the other the values become the final ones, and otherwise the
    array is exactly what it was. *)
Theorem semop_atomic sops un pid sma :
  sem_ok sma → Forall (sop_ok (sem_nsems sma) (ulps (list_id sma)) un) sops →
  ∃ r sma', try_atomic_semop sops un pid sma = Ret (r, sma') ∧
    (r = 0 ∧ performs (list_id sma) un (vals (sem_base sma)) sops (vals (sem_base sma')) ∧
       same_queues sma sma' ∨
     r ≠ 0 ∧ sma' = sma ∧ ¬ ∃ vs, performs (list_id sma) un (vals (sem_base sma)) sops vs).
Proof.
  intros Hok Hs. destruct (try_ok sops un pid sma) as (r & sma' & vs & E & _ & Hspec & Hne & H0);
    [apply Hok|done|apply Hok|]. exists r, sma'. split; [done|].
  destruct (decide (r = 0)) as [->|Hr]; [left|right].
  - destruct H0 as (<- & Hsq & _); [done|]. split_and!; [done|by apply performs_spec|done].
  - split_and!; [done|by apply Hne|]. intros [vs' Hp]. apply performs_spec in Hp. congruence.
Qed.

(** *** Undoing on exit *)

Definition adj_of (u : Z) (undos : list sem_undo) : option (list Z) :=
  semadj <$> List.find (λ x, un_ulp x =? u) undos.

(** each operation was applied to its own entry of [l] *)
Definition applied (f : Z → Z → Z) (sops : list sembuf) (l l' : list Z) : Prop :=
  length l' = length l ∧
  (∀ sop, sop ∈ sops → zlookup l' (sem_num sop) = (λ a, f a (sem_op sop)) <$> zlookup l (sem_num sop)) ∧
  (∀ k, k ∉ sem_num <$> sops → zlookup l' k = zlookup l k).

Lemma zlookup_insert {A} (l : list A) i k (a b : A) :
  zlookup l i = Some b → zlookup (<[Z.to_nat i := a]> l) k = if k =? i then Some a else zlookup l k.
Proof.
  intros Hi. pose proof (zlookup_Some _ _ _ Hi) as Hr. unfold zlookup in *.
  destruct (0 <=? k) eqn:Ek; bprop.
  - destruct (k =? i) eqn:E; bprop.
    + subst. apply list_lookup_insert_eq. unfold zlength in Hr. lia.
    + apply list_lookup_insert_ne. lia.
  - by rewrite (proj2 (Z.eqb_neq _ _)) by lia.
Qed.

Lemma applied_cons f sop sops l l' a :
  zlookup l (sem_num sop) = Some a → sem_num sop ∉ sem_num <$> sops →
  applied f sops (<[Z.to_nat (sem_num sop) := f a (sem_op sop)]> l) l' → applied f (sop :: sops) l l'.
Proof.
  intros Ha Hn (Hlen & H1 & H2). split_and!.
  - by rewrite Hlen, length_insert.
  - intros s [->|Hs]%elem_of_cons.
    + rewrite H2, (zlookup_insert _ _ _ _ _ Ha), Z.eqb_refl, Ha by done. done.
    + rewrite H1, (zlookup_insert _ _ _ _ _ Ha) by done.
      rewrite (proj2 (Z.eqb_neq _ _)); [done|]. intros E. apply Hn. rewrite <- E.
      by apply list_elem_of_fmap_2.
  - intros k Hk. simpl in Hk. rewrite H2, (zlookup_insert _ _ _ _ _ Ha) by set_solver.
    rewrite (proj2 (Z.eqb_neq _ _)) by set_solver. done.
Qed.

Lemma applied_perm f sops sops' l l' : sops ≡ₚ sops' → applied f sops l l' → applied f sops' l l'.
Proof.
  intros Hp (H1 & H2 & H3). split_and!; [done| |]; intros x Hx.
  - apply H2. by rewrite Hp.
  - apply H3. by rewrite Hp.
Qed.

Lemma sub_adj_of u k op undos undos' adj a :
  sub_adj u k op undos = Ret undos' → adj_of u undos = Some adj → zlookup adj k = Some a →
  adj_of u undos' = Some (<[Z.to_nat k := s16 (a - op)]> adj).
Proof.
  unfold adj_of. revert undos'. induction undos as [|x undos IH]; intros undos' H; simpl in *; [done|].
  destruct (un_ulp x =? u) eqn:E.
  - rewrite array_upd_eq in H. simpl. intros [= <-] Hz. rewrite Hz in H. simpl in H. injection H as <-.
    simpl. by rewrite Z.eqb_refl.
  - destruct (sub_adj u k op undos) as [l| |]; simpl in H; [|done|done]. injection H as <-.
    simpl. rewrite E. by apply IH.
Qed.

Lemma commit_adj n u pid dn : ∀ base undos base' undos' adj,
  commit_loop (Some u) pid dn base undos = Ret (base', undos') →
  adj_of u undos = Some adj → zlength adj = n → Forall (λ sop, 0 ≤ sem_num sop < n) dn →
  Forall (λ sop, sop_undo sop = true) dn → NoDup (sem_num <$> dn) →
  ∃ adj', adj_of u undos' = Some adj' ∧ applied (λ a op, s16 (a - op)) dn adj adj'.
Proof.
  induction dn as [|sop dn IH]; intros base undos base' undos' adj H Ha Hn Hk Hu Hnd; simpl in H.
  { injection H as <- <-. exists adj. split; [done|]. split_and!; [done|set_solver|done]. }
  apply Forall_cons in Hk as [Hk Hks]. apply Forall_cons in Hu as [Hu Hus].
  apply NoDup_cons in Hnd as [Hx Hnd]. rewrite Hu in H.
  destruct (array_upd base (sem_num sop) (set_sempid pid)) as [b| |]; simpl in H; [|done|done].
  destruct (sub_adj u (sem_num sop) (sem_op sop) undos) as [undos1| |] eqn:Es; simpl in H; [|done|done].
  destruct (zlookup_is_Some adj (sem_num sop)) as [a Hz]; [lia|].
  pose proof (sub_adj_of _ _ _ _ _ _ _ Es Ha Hz) as Ha1.
  destruct (IH _ _ _ _ _ H Ha1) as (adj' & E & Happ); try done; [by rewrite zlength_insert|].
  exists adj'. split; [done|]. by eapply applied_cons.
Qed.

Lemma loop_done_rev undos un sops : ∀ dn base base' dn',
  semop_loop undos un dn sops base = Ret (0, base', dn') → dn' = rev sops ++ dn.
Proof.
  induction sops as [|sop sops IH]; intros dn base base' dn'; simpl; [by intros [= <- <-]|].
  destruct (array_get base (sem_num sop)) as [c| |]; simpl; [|done|done].
  case_test; [by destruct (sop_nowait sop)|]. case_test; [by destruct (sop_nowait sop)|].
  case_test; [done|]. destruct (if sop_undo sop then _ else _) as [[]| |]; simpl; try done.
  destruct (array_upd _ _ _) as [b| |]; simpl; [|done|done]. intros ->%IH. by rewrite <- app_assoc.
Qed.

Lemma performs_applied undos un vs sops vs' :
  performs undos un vs sops vs' → NoDup (sem_num <$> sops) → applied Z.add sops vs vs'.
Proof.
  induction 1 as [vs|vs sop sops v vs' Hv H0 Hr Hu Hp IH]; intros Hnd.
  - split_and!; [done|set_solver|done].
  - apply NoDup_cons in Hnd as [Hx Hnd]. eapply applied_cons; [done|done|]. by apply IH.
Qed.

Lemma performs_undo undos un vs sops vs' :
  performs undos un vs sops vs' → ∀ sop, sop ∈ sops → sop_undo sop = true →
  ∃ a, get_adj un (sem_num sop) undos = Ret a ∧ - SEMAEM - 1 ≤ a - sem_op sop ≤ SEMAEM.
Proof.
  induction 1 as [vs|vs sop sops v vs' Hv H0 Hr Hu Hp IH]; intros s Hs; [set_solver|].
  apply elem_of_cons in Hs as [->|Hs]; [done|by apply IH].
Qed.

Lemma adjust_vals pid base : ∀ adj base',
  adjust adj pid base = Ret base' →
  (∀ k v a, vals base !! k = Some v → adj !! k = Some a →
     vals base' !! k = Some (if truth a then Z.min SEMVMX (Z.max 0 (v + a)) else v)).
Proof.
  induction base as [|c base IH]; intros adj base' H k v a Hv Ha; [by destruct k|].
  destruct adj as [|x adj]; [done|]. simpl in H.
  destruct (adjust adj pid base) as [b| |] eqn:E; try done. simpl in H. injection H as <-.
  destruct k as [|k]; simpl in *; [|by eapply IH].
  injection Hv as <-. injection Ha as <-. f_equal. destruct (truth x); simpl; [|done].
  unfold SEMVMX. repeat case_test; bprop; lia.
Qed.

Lemma smart_idle otime now sma :
  sma_pending sma = [] →
  ∃ sma', do_smart_update None otime now [] sma = Ret ([], sma') ∧ sem_base sma' = sem_base sma.
Proof.
  intros H. unfold do_smart_update, update_queue. rewrite H. destruct (truth (complex_count sma));
    simpl; rewrite H; simpl; eexists; (split; [done|]); by destruct otime.
Qed.

(** a successful attempt by a process with nothing to undo *)
Lemma undo_noted u sops pid sma sma1 :
  sem_ok sma → adj_of u (list_id sma) = Some (replicate (length (sem_base sma)) 0) →
  Forall (sop_ok (sem_nsems sma) (ulps (list_id sma)) (Some u)) sops →
  Forall (λ sop, sop_undo sop = true) sops → NoDup (sem_num <$> sops) →
  try_atomic_semop sops (Some u) pid sma = Ret (0, sma1) →
  ∃ adj, adj_of u (list_id sma1) = Some adj ∧
    applied (λ a op, s16 (a - op)) sops (replicate (length (sem_base sma)) 0) adj ∧
    performs (list_id sma) (Some u) (vals (sem_base sma)) sops (vals (sem_base sma1)) ∧
    sma_pending sma1 = sma_pending sma.
Proof.
  intros Hok Ha Hs Hu Hnd Ht.
  destruct (try_ok sops (Some u) pid sma) as (r & sma' & vs & E & _ & Hspec & _ & H0); [apply Hok|done|apply Hok|].
  rewrite Ht in E. injection E as <- <-. destruct H0 as (<- & [Hpend _ _ _] & _); [done|].
  apply performs_spec in Hspec. unfold try_atomic_semop in Ht.
  destruct (semop_loop (list_id sma) (Some u) [] sops (sem_base sma)) as [[[r b] dn]| |] eqn:El; try done.
  simpl in Ht. destruct (r =? 0) eqn:Er; bprop.
  2:{ destruct (undo_loop dn b); simpl in Ht; try done. injection Ht as E _. congruence. }
  subst r. apply loop_done_rev in El. rewrite app_nil_r in El. subst dn.
  destruct (commit_loop (Some u) pid (rev sops) b (list_id sma)) as [[b2 u2]| |] eqn:Ec; try done.
  simpl in Ht. injection Ht as <-. simpl in *.
  assert (rev sops ≡ₚ sops) as Hrev by (symmetry; apply Permutation_rev).
  destruct (commit_adj (sem_nsems sma) u pid (rev sops) b (list_id sma) b2 u2 _ Ec Ha) as (adj & E & Happ).
  - unfold zlength. by rewrite length_replicate.
  - rewrite Hrev. eapply Forall_impl; [exact Hs|]. by intros sop [? _].
  - by rewrite Hrev.
  - by rewrite Hrev.
  - exists adj. split_and!; try done. by eapply applied_perm.
Qed.

Lemma zlookup_replicate {A} (x : A) n k a : zlookup (replicate n x) k = Some a → a = x.
Proof. unfold zlookup. case_test; [|done]. intros [-> _]%lookup_replicate. done. Qed.

(** the noted number takes the operation back *)
Lemma undone_value undos u sops vs vs1 z adj k v :
  (∀ j a, get_adj (Some u) j undos = Ret a → a = 0) → Forall (λ sop, sop_undo sop = true) sops →
  Forall val_ok vs → NoDup (sem_num <$> sops) →
  performs undos (Some u) vs sops vs1 → applied (λ a op, s16 (a - op)) sops (replicate z 0) adj →
  zlookup vs k = Some v → (Z.to_nat k < z)%nat →
  ∃ v1 a, zlookup vs1 k = Some v1 ∧ zlookup adj k = Some a ∧
    (if truth a then Z.min SEMVMX (Z.max 0 (v1 + a)) else v1) = v.
Proof.
  intros H0 Hu Hok Hnd Hp (_ & A1 & A2) Hv Hz. pose proof (performs_applied _ _ _ _ _ Hp Hnd) as (_ & B1 & B2).
  pose proof (Forall_zlookup _ _ _ _ Hok Hv) as Hvok. unfold val_ok in Hvok.
  pose proof (zlookup_Some _ _ _ Hv) as Hk.
  assert (zlookup (replicate z 0) k = Some 0) as Hzero.
  { rewrite zlookup_pos by lia. by apply lookup_replicate_2. }
  destruct (decide (k ∈ sem_num <$> sops)) as [Hin|Hout].
  - apply list_elem_of_fmap in Hin as (sop & -> & Hs). rewrite (B1 sop Hs), (A1 sop Hs), Hv, Hzero.
    rewrite Forall_forall in Hu.
    destruct (performs_undo _ _ _ _ _ Hp sop Hs (Hu sop Hs)) as (a & Ha & Hr). apply H0 in Ha as ->.
    do 2 eexists. split_and!; [done|done|]. unfold SEMAEM, SEMVMX in *.
    rewrite s16_id by (unfold is_s16; lia). unfold truth. case_test; bprop; lia.
  - rewrite B2, A2, Hv, Hzero by done. do 2 eexists. split_and!; done.
Qed.

(** what a process did with SEM_UNDO is undone when it exits: after a
    sequence of operations on different semaphores, performed with SEM_UNDO by
    a process that had nothing to undo yet, its exit gives every semaphore its
    value back. *)
Theorem undo_roundtrip u sops pid pid' now sma sma1 :
  sem_ok sma → sma_pending sma = [] →
  adj_of u (list_id sma) = Some (replicate (length (sem_base sma)) 0) →
  Forall (sop_ok (sem_nsems sma) (ulps (list_id sma)) (Some u)) sops →
  Forall (λ sop, sop_undo sop = true) sops → NoDup (sem_num <$> sops) →
  try_atomic_semop sops (Some u) pid sma = Ret (0, sma1) →
  ∃ sma2, exit_sem u pid' now sma1 = Ret ([], sma2) ∧ vals (sem_base sma2) = vals (sem_base sma).
Proof.
  intros Hok Hp Ha Hs Hu Hnd Ht.
  destruct (undo_noted u sops pid sma sma1 Hok Ha Hs Hu Hnd Ht) as (adj & Ha1 & Happ & Hperf & Hp1).
  assert (length (vals (sem_base sma1)) = length (vals (sem_base sma))) as Hlen
    by apply (performs_applied _ _ _ _ _ Hperf Hnd).
  unfold vals in Hlen. rewrite !length_fmap in Hlen.
  unfold adj_of in Ha1. unfold exit_sem. destruct (List.find _ (list_id sma1)) as [un|]; [|done].
  simpl in Ha1. injection Ha1 as Eadj. destruct Happ as [Hla Happ]. rewrite length_replicate in Hla.
  assert (Forall val_ok (vals (sem_base sma1))) as Hv1.
  { destruct (sem_spec_ok (sem_nsems sma) (list_id sma) (Some u) sops (vals (sem_base sma)))
      as (? & ? & E & _ & _ & H); [apply Hok|done|unfold vals, zlength; by rewrite length_fmap|apply Hok|].
    apply performs_spec in Hperf. rewrite Hperf in E. by injection E as <- <-. }
  destruct (adjust_ok pid' (sem_base sma1) (semadj un)) as (b & Eb & _ & Hqb); [congruence|done|].
  rewrite Eb. simpl. destruct (smart_idle true now (with_base b (with_undos
    (List.filter (λ x, negb (un_ulp x =? u)) (list_id sma1)) sma1))) as (sma2 & -> & Eb2); [by rewrite <- Hp|].
  exists sma2. split; [done|]. rewrite Eb2. simpl. apply list_eq_same_length with (length (sem_base sma)).
  { unfold vals. by rewrite length_fmap. }
  { apply (f_equal length) in Hqb. unfold queues in Hqb. unfold vals. rewrite !length_fmap in *. congruence. }
  intros k x v Hk Hx Hv. rewrite Eadj in Eb.
  destruct (undone_value (list_id sma) u sops (vals (sem_base sma)) (vals (sem_base sma1))
    (length (sem_base sma)) adj (Z.of_nat k) v) as (v1 & a & Hz1 & Hza & E); try done.
  - intros j a Hj. unfold get_adj in Hj. unfold adj_of in Ha.
    destruct (List.find _ (list_id sma)); [|done]. simpl in Ha. injection Ha as Ea. rewrite Ea in Hj.
    apply array_get_Ret in Hj. by eapply zlookup_replicate.
  - apply Hok.
  - by split; [rewrite length_replicate|].
  - by rewrite zlookup_nat.
  - by rewrite Nat2Z.id.
  - rewrite zlookup_nat in Hz1, Hza. rewrite (adjust_vals _ _ _ _ Eb k v1 a Hz1 Hza) in Hx. congruence.
Qed.

(** ** Instances *)

Definition example_sems : sem_array := init_sems (MkIpcPerm 1000 1000 1000 1000 384) 2 0.

(** a process waits for the first semaphore *)
Definition sems_waiting : sem_array :=
  match semtimedop init_user_ns example_state 32 0 77 500 10 None (true, true) true None
          [MkSop 0 (-1) 0] example_sems with
  | Ret (_, _, sma) => sma
  | _ => example_sems
  end.

Lemma sems_waiting_steps : rtc sem_step example_sems sems_waiting.
Proof.
  apply rtc_once.
  apply (step_semop example_sems init_user_ns example_state 32 0 77 500 10 None (true, true) true None
    [MkSop 0 (-1) 0] (Sleeps (MkQueue 500 None 77 [MkSop 0 (-1) 0] true)) []).
  - apply example_state_groups.
  - by repeat constructor.
  - apply not_elem_of_nil.
  - by vm_compute.
Qed.

Lemma sem_no_runnable_waiter_witness :
  try_atomic_semop [MkSop 0 (-1) 0] None 77 sems_waiting = Ret (1, sems_waiting).
Proof.
  apply (sem_no_runnable_waiter (MkIpcPerm 1000 1000 1000 1000 384) 2 0 sems_waiting
    (MkQueue 500 None 77 [MkSop 0 (-1) 0] true));
    [lia|exact sems_waiting_steps|apply list_elem_of_singleton; by vm_compute].
Defined.

Lemma sem_array_typed_witness : sem_ok sems_waiting ∧ sem_nsems sems_waiting = 2.
Proof.
  apply (sem_array_typed (MkIpcPerm 1000 1000 1000 1000 384) 2 0); [lia|exact sems_waiting_steps].
Defined.

(** an increment completes the waiting decrement *)
Lemma semtimedop_total_witness :
  ∃ out pt sma',
    semtimedop init_user_ns example_state 32 0 78 501 11 None (true, true) true None
      [MkSop 0 1 0] sems_waiting = Ret (out, pt, sma') ∧
    match out with
    | Finished e => e ≤ 0 ∧ sma_pending sems_waiting ≡ₚ sma_pending sma' ++ pt.*1
    | Sleeps q => pt = [] ∧ sma_pending sma' = enqueue q (sma_pending sems_waiting)
    end.
Proof.
  apply (semtimedop_total (MkIpcPerm 1000 1000 1000 1000 384) 2 0);
    [lia|exact sems_waiting_steps|apply example_state_groups|by repeat constructor|].
  by apply (bool_decide_unpack (_ ∉ _)).
Defined.

Lemma semop_atomic_witness :
  ∃ r sma', try_atomic_semop [MkSop 0 2 0; MkSop 1 (-1) 0] None 77 example_sems = Ret (r, sma') ∧
    (r = 0 ∧ performs [] None [0; 0] [MkSop 0 2 0; MkSop 1 (-1) 0] (vals (sem_base sma')) ∧
       same_queues example_sems sma' ∨
     r ≠ 0 ∧ sma' = example_sems ∧
       ¬ ∃ vs, performs [] None [0; 0] [MkSop 0 2 0; MkSop 1 (-1) 0] vs).
Proof.
  apply (semop_atomic [MkSop 0 2 0; MkSop 1 (-1) 0] None 77 example_sems).
  - apply init_good.
  - by repeat constructor.
Defined.

(** the process with undo list 9 *)
Definition sems_undo : sem_array :=
  match find_alloc_undo (Some 9) true example_sems with Ret (_, sma) => sma | _ => example_sems end.
Definition sems_used : sem_array :=
  match try_atomic_semop [MkSop 0 2 SEM_UNDO; MkSop 1 5 SEM_UNDO] (Some 9) 77 sems_undo with
  | Ret (_, sma) => sma
  | _ => sems_undo
  end.

Lemma sems_undo_ok : sem_ok sems_undo.
Proof.
  pose proof (find_alloc_ok (Some 9) true example_sems (init_good _ _ _)) as H.
  destruct H as [[H _] _]. exact H.
Qed.

Lemma undo_roundtrip_witness :
  ∃ sma2, exit_sem 9 80 20 sems_used = Ret ([], sma2) ∧ vals (sem_base sma2) = [0; 0].
Proof.
  apply (undo_roundtrip 9 [MkSop 0 2 SEM_UNDO; MkSop 1 5 SEM_UNDO] 77 80 20 sems_undo sems_used).
  - exact sems_undo_ok.
  - done.
  - done.
  - repeat constructor; try done; intros _; exists 9; (split; [done|]); by apply list_elem_of_singleton.
  - by repeat constructor.
  - by apply (bool_decide_unpack (NoDup _)).
  - by vm_compute.
Defined.

(** Two operations on the same semaphore are each within the undo range, but
    their sum is not: it wraps around in the [short], and the exit raises the
    semaphore instead of lowering it. *)
Definition sems_wrapped : sem_array :=
  match try_atomic_semop [MkSop 0 20000 SEM_UNDO; MkSop 0 (-20000) 0; MkSop 0 20000 SEM_UNDO]
          (Some 9) 77 sems_undo with
  | Ret (_, sma) => sma
  | _ => sems_undo
  end.
Lemma undo_wraps :
  vals (sem_base sems_wrapped) = [20000; 0] ∧ adj_of 9 (list_id sems_wrapped) = Some [25536; 0] ∧
  ∃ sma2, exit_sem 9 80 20 sems_wrapped = Ret ([], sma2) ∧ vals (sem_base sma2) = [32767; 0].
Proof. split; [done|]. split; [done|]. eexists. split; by vm_compute. Qed.
