(* ===== verification/SemWakeup.v ===== *)
(** * Waking up a semaphore sleeper without the lock: ipc/sem.c

    A queue entry lives on the stack of the sleeping process. Whoever completes
    its operation takes the entry off the queue under the lock of the array
    ([wake_up_sem_queue_prepare]), and later, without the lock, wakes the
    process and writes the final result into the entry
    ([wake_up_sem_queue_do]). The sleeper may be woken by a signal or a timeout
    at any moment in between, and its stack frame is gone as soon as it
    returns. The two run interleaved, each access to [status] being one
    step (memory barriers are taken to make that so). *)

From S2P Require Import Prelude Sem.

Definition IN_WAKEUP : Z := 1.

(** the fields of [struct sem_queue] the protocol uses; [pid] carries the
    result after the preparation *)
Record entry := MkEntry { status : Z; e_pid : Z; linked : bool }.

Definition wake_up_sem_queue_prepare (error : Z) (q : entry) : entry :=
  MkEntry IN_WAKEUP error false.
Definition wake_up_sem_queue_finish (q : entry) : entry :=
  MkEntry (e_pid q) (e_pid q) (linked q).

(** [None]: the loop goes on *)
Definition get_queue_result (q : entry) : option Z :=
  if status q =? IN_WAKEUP then None else Some (status q).

(** where the process that completes the operation is *)
Inductive waker := Idle | Prepared | Woken | Done.
(** Where the sleeper is: in [schedule], after it, about to lock, holding the
    lock, after it found the array removed, or back with a result. *)
Inductive sleeper := Asleep | Running | Locking | Locked | Gone | Returned (error : Z).

(** [removed]: the array does not exist any more *)
Record wakeup := MkWakeup { w_q : entry; w_waker : waker; w_sleeper : sleeper; removed : bool }.

Definition asleep (pid : Z) : wakeup := MkWakeup (MkEntry (- EINTR) pid true) Idle Asleep false.

(** the results an operation can be completed with *)
Definition final_result (e : Z) : Prop := e ≤ 0 ∧ e ≠ - EINTR.

Inductive wakeup_step : wakeup → wakeup → Prop :=
  (* update_queue or, removing the array, freeary: under the lock *)
  | step_prepare q sl e (rm : bool) :
      linked q = true → sl ≠ Locked → final_result e →
      wakeup_step (MkWakeup q Idle sl false)
        (MkWakeup (wake_up_sem_queue_prepare e q) Prepared sl rm)
  (* wake_up_sem_queue_do *)
  | step_wake q sl rm :
      wakeup_step (MkWakeup q Prepared sl rm)
        (MkWakeup q Woken (match sl with Asleep => Running | _ => sl end) rm)
  | step_finish q sl rm :
      wakeup_step (MkWakeup q Woken sl rm)
        (MkWakeup (wake_up_sem_queue_finish q) Done sl rm)
  (* the array is removed after the operation was completed *)
  | step_remove q wk sl :
      wk ≠ Idle → sl ≠ Locked → wakeup_step (MkWakeup q wk sl false) (MkWakeup q wk sl true)
  (* a signal, a timeout or a spurious wakeup *)
  | step_resume q wk rm : wakeup_step (MkWakeup q wk Asleep rm) (MkWakeup q wk Running rm)
  (* semtimedop after schedule *)
  | step_fast q wk rm e :
      get_queue_result q = Some e → e ≠ - EINTR →
      wakeup_step (MkWakeup q wk Running rm) (MkWakeup q wk (Returned e) rm)
  | step_slow q wk rm :
      get_queue_result q = Some (- EINTR) →
      wakeup_step (MkWakeup q wk Running rm) (MkWakeup q wk Locking rm)
  | step_lock q wk : wakeup_step (MkWakeup q wk Locking false) (MkWakeup q wk Locked false)
  | step_lock_fails q wk : wakeup_step (MkWakeup q wk Locking true) (MkWakeup q wk Gone true)
  | step_gone q wk rm e :
      get_queue_result q = Some e →
      wakeup_step (MkWakeup q wk Gone rm) (MkWakeup q wk (Returned e) rm)
  | step_locked_done q wk rm e :
      get_queue_result q = Some e → e ≠ - EINTR →
      wakeup_step (MkWakeup q wk Locked rm) (MkWakeup q wk (Returned e) rm)
  (* unlink_queue and return EAGAIN (timeout) or EINTR (signal), or sleep again *)
  | step_interrupted q wk rm e :
      get_queue_result q = Some (- EINTR) → e = - EAGAIN ∨ e = - EINTR →
      wakeup_step (MkWakeup q wk Locked rm)
        (MkWakeup (MkEntry (status q) (e_pid q) false) wk (Returned e) rm)
  | step_sleep_again q wk rm :
      get_queue_result q = Some (- EINTR) →
      wakeup_step (MkWakeup q wk Locked rm) (MkWakeup q wk Asleep rm).

(** the entry is still there for the waker *)
Definition entry_alive (w : wakeup) : Prop :=
  match w_sleeper w with Returned _ => False | _ => True end.

Definition wakeup_inv (w : wakeup) : Prop :=
  let q := w_q w in
  match w_waker w with
  | Idle =>
      status q = - EINTR ∧ removed w = false ∧
      match w_sleeper w with
      | Gone => False
      | Returned e => linked q = false ∧ (e = - EAGAIN ∨ e = - EINTR)
      | _ => True
      end
  | Prepared | Woken =>
      status q = IN_WAKEUP ∧ final_result (e_pid q) ∧ linked q = false ∧ entry_alive w
  | Done =>
      status q = e_pid q ∧ final_result (e_pid q) ∧ linked q = false ∧
      match w_sleeper w with Returned e => e = e_pid q | _ => True end
  end.

Lemma result_some q e : get_queue_result q = Some e → status q = e ∧ e ≠ IN_WAKEUP.
Proof. unfold get_queue_result. case_test; [done|]. bprop. by intros [= <-]. Qed.

(** a result can be read before the waker begins or after it is done *)
Lemma read_result q wk sl rm e :
  wakeup_inv (MkWakeup q wk sl rm) → get_queue_result q = Some e →
  wk = Idle ∧ e = - EINTR ∨ wk = Done ∧ e = e_pid q ∧ e ≠ - EINTR.
Proof.
  intros Hi [Hs Hn]%result_some. unfold wakeup_inv in Hi. simpl in Hi. destruct wk.
  - left. split; [done|]. destruct Hi. congruence.
  - destruct Hi. congruence.
  - destruct Hi. congruence.
  - right. destruct Hi as (H1 & [_ H2] & _). split_and!; congruence.
Qed.

Lemma wakeup_step_inv w w' : wakeup_step w w' → wakeup_inv w → wakeup_inv w'.
Proof.
  intros Hst Hi. destruct Hst;
    try (match goal with H : get_queue_result _ = Some _ |- _ =>
           destruct (read_result _ _ _ _ _ Hi H) as [[-> Hr]|(-> & Hr & Hn)] end);
    try done; unfold wakeup_inv, entry_alive in *; simpl in *.
  1: { destruct Hi as (_ & _ & Hi). split_and!; try done. destruct sl; try done.
       destruct Hi. congruence. }
  all: repeat match goal with x : waker |- _ => destruct x | x : sleeper |- _ => destruct x end;
    try done; intuition congruence.
Qed.

(** C34: the waker never touches a queue entry that is gone: as long as it
    still has to wake the sleeper or to write the result, the sleeper has not
    returned, whatever woke it; and the sleeper returns the result of its
    operation exactly when the operation was completed, and EINTR or EAGAIN
    only when it took the operation off the queue itself. *)
Theorem wakeup_safe pid w :
  rtc wakeup_step (asleep pid) w →
  (w_waker w = Prepared ∨ w_waker w = Woken → entry_alive w) ∧
  ∀ e, w_sleeper w = Returned e →
    w_waker w = Done ∧ e = e_pid (w_q w) ∨
    w_waker w = Idle ∧ linked (w_q w) = false ∧ (e = - EAGAIN ∨ e = - EINTR).
Proof.
  intros H. assert (wakeup_inv w) as Hi.
  { assert (wakeup_inv (asleep pid)) as Hi by done.
    clear -H Hi. induction H as [|w1 w2 w3 Hs _ IH]; [done|]. apply IH. by eapply wakeup_step_inv. }
  unfold wakeup_inv in Hi. split.
  - intros [E|E]; rewrite E in Hi; apply Hi.
  - intros e Es. rewrite Es in Hi. destruct (w_waker w); [right|..|left].
    + by destruct Hi as (_ & _ & ?).
    + destruct Hi as (_ & _ & _ & Ha). unfold entry_alive in Ha. by rewrite Es in Ha.
    + destruct Hi as (_ & _ & _ & Ha). unfold entry_alive in Ha. by rewrite Es in Ha.
    + by destruct Hi as (_ & _ & _ & ?).
Qed.

(** a signal arrives while the result is on its way *)
Lemma wakeup_safe_witness :
  let w := MkWakeup (MkEntry 0 0 false) Done (Returned 0) false in
  (w_waker w = Prepared ∨ w_waker w = Woken → entry_alive w) ∧
  ∀ e, w_sleeper w = Returned e →
    w_waker w = Done ∧ e = e_pid (w_q w) ∨
    w_waker w = Idle ∧ linked (w_q w) = false ∧ (e = - EAGAIN ∨ e = - EINTR).
Proof.
  apply (wakeup_safe 77).
  eapply rtc_l; [by apply (step_prepare _ Asleep 0 false)|]. eapply rtc_l; [apply step_resume|].
  eapply rtc_l; [apply step_wake|]. eapply rtc_l; [apply step_finish|].
  apply rtc_once. by apply step_fast.
Defined.
