(* ===== verification/Kstrtox.v ===== *)
(** * Reading numbers: lib/kstrtox.c, the readers of lib/vsprintf.c, lib/ctype.c

    A [const char *] into a NUL terminated string is the list of bytes from
    the pointer to the end of the object; reading past that end is [UB].
    Functions that store a result through a pointer return it. The main
    theorem, [kstrto_reads], says for every string which number or error the
    unsigned and the signed parser give; [kstrto_narrow] does it for the parsers
    of narrower types. *)

From S2P Require Import Prelude.

(** conversion to [s8] *)
Definition s8 (x : Z) : Z := (x + 2 ^ 7) `mod` 2 ^ 8 - 2 ^ 7.

(** ** Characters (lib/ctype.c, include/linux/ctype.h) *)
Module Ctype.

Definition _U : Z := 0x01.
Definition _L : Z := 0x02.
Definition _D : Z := 0x04.
Definition _C : Z := 0x08.
Definition _P : Z := 0x10.
Definition _S : Z := 0x20.
Definition _X : Z := 0x40.
Definition _SP : Z := 0x80.

(** the table, in runs of equal entries *)
Definition _ctype : list Z := Eval vm_compute in
  replicate 9 _C ++ replicate 5 (Z.lor _C _S) ++ replicate 18 _C ++
  [Z.lor _S _SP] ++ replicate 15 _P ++ replicate 10 _D ++ replicate 7 _P ++
  replicate 6 (Z.lor _U _X) ++ replicate 20 _U ++ replicate 6 _P ++
  replicate 6 (Z.lor _L _X) ++ replicate 20 _L ++ replicate 4 _P ++ [_C] ++
  replicate 32 0 ++ [Z.lor _S _SP] ++ replicate 31 _P ++
  replicate 23 _U ++ [_P] ++ replicate 7 _U ++ [_L] ++
  replicate 23 _L ++ [_P] ++ replicate 8 _L.

Definition __ismask (x : Z) : Z := default 0 (zlookup _ctype (u8 x)).
Definition isalnum (c : Z) : bool :=
  truth (Z.land (__ismask c) (Z.lor (Z.lor _U _L) _D)).
Definition isdigit (c : Z) : bool := truth (Z.land (__ismask c) _D).
Definition isxdigit (c : Z) : bool := truth (Z.land (__ismask c) (Z.lor _D _X)).
Definition isspace (c : Z) : bool := truth (Z.land (__ismask c) _S).
Definition _tolower (c : Z) : Z := Z.lor c 0x20.

End Ctype.
Export Ctype.

(** ** Pointers into strings *)
Definition deref (s : list Z) : cres Z :=
  match s with c :: _ => Ret c | [] => UB end.
Definition ptr_add (s : list Z) (n : Z) : cres (list Z) :=
  if (0 <=? n) && (n <=? zlength s) then Ret (drop (Z.to_nat n) s) else UB.

(** ** The parser *)
Definition KSTRTOX_OVERFLOW : Z := 2 ^ 31.
Definition ULLONG_MAX : Z := 2 ^ 64 - 1.

Definition _parse_integer_fixup_radix (s : list Z) (base : Z) : cres (list Z * Z) :=
  base ← (if base =? 0 then
            c0 ← deref s;
            if c0 =? 48 then
              c1 ← array_get s 1;
              if _tolower c1 =? 120 then
                c2 ← array_get s 2;
                if isxdigit c2 then Ret 16 else Ret 8
              else Ret 8
            else Ret 10
          else Ret base);
  skip ← (if base =? 16 then
            c0 ← deref s;
            if c0 =? 48 then
              c1 ← array_get s 1;
              Ret (_tolower c1 =? 120)
            else Ret false
          else Ret false);
  if (skip : bool) then s ← ptr_add s 2; Ret (s, base) else Ret (s, base).

(** the value of a character as a digit, [None] where the loop breaks *)
Definition digit_val (c : Z) : option Z :=
  if (48 <=? c) && (c <=? 57) then Some (c - 48)
  else if (97 <=? _tolower c) && (_tolower c <=? 102)
  then Some (_tolower c - 97 + 10)
  else None.

Definition div_u64 (a b : Z) : Z := a / b.

Fixpoint parse_loop (s : list Z) (base res rv : Z) (overflow : bool) : cres (Z * Z) :=
  match s with
  | [] => UB
  | c :: s' =>
      let stop := Ret (if overflow then Z.lor rv KSTRTOX_OVERFLOW else rv, res) in
      if c =? 0 then stop
      else match digit_val c with
      | None => stop
      | Some val =>
          if base <=? val then stop
          else parse_loop s' base (u64 (res * base + val)) (u32 (rv + 1))
                 (overflow || (div_u64 (u64 (ULLONG_MAX - val)) base <? res))
      end
  end.

(** returns the number of characters or-ed with the overflow bit, and [*res] *)
Definition _parse_integer (s : list Z) (base : Z) : cres (Z * Z) :=
  parse_loop s base 0 0 false.

Definition _kstrtoull (s : list Z) (base : Z) : cres Z :=
  '(s, base) ← _parse_integer_fixup_radix s base;
  '(rv, _res) ← _parse_integer s base;
  if truth (Z.land rv KSTRTOX_OVERFLOW) then Err ERANGE
  else
    let rv := Z.land rv (u32 (Z.lnot KSTRTOX_OVERFLOW)) in
    if rv =? 0 then Err EINVAL
    else
      s ← ptr_add s rv;
      c ← deref s;
      s ← (if c =? 10 then ptr_add s 1 else Ret s);
      c ← deref s;
      if truth c then Err EINVAL else Ret _res.

Definition kstrtoull (s : list Z) (base : Z) : cres Z :=
  c ← deref s;
  s ← (if c =? 43 then ptr_add s 1 else Ret s);
  _kstrtoull s base.

Definition kstrtoll (s : list Z) (base : Z) : cres Z :=
  c ← deref s;
  if c =? 45 then
    s ← ptr_add s 1;
    tmp ← _kstrtoull s base;
    if 0 <=? s64 (u64 (- tmp)) then Err ERANGE else Ret (s64 (u64 (- tmp)))
  else
    tmp ← kstrtoull s base;
    if s64 tmp <? 0 then Err ERANGE else Ret (s64 tmp).

(** the narrow variants; [long] has 32 bits *)
Definition _kstrtoul (s : list Z) (base : Z) : cres Z :=
  tmp ← kstrtoull s base;
  if tmp =? u64 (u32 tmp) then Ret (u32 tmp) else Err ERANGE.
Definition _kstrtol (s : list Z) (base : Z) : cres Z :=
  tmp ← kstrtoll s base;
  if tmp =? s64 (s32 tmp) then Ret (s32 tmp) else Err ERANGE.
Definition kstrtouint (s : list Z) (base : Z) : cres Z :=
  tmp ← kstrtoull s base;
  if tmp =? u64 (u32 tmp) then Ret (u32 tmp) else Err ERANGE.
Definition kstrtoint (s : list Z) (base : Z) : cres Z :=
  tmp ← kstrtoll s base;
  if tmp =? s64 (s32 tmp) then Ret (s32 tmp) else Err ERANGE.
Definition kstrtou16 (s : list Z) (base : Z) : cres Z :=
  tmp ← kstrtoull s base;
  if tmp =? u64 (u16 tmp) then Ret (u16 tmp) else Err ERANGE.
Definition kstrtos16 (s : list Z) (base : Z) : cres Z :=
  tmp ← kstrtoll s base;
  if tmp =? s64 (s16 tmp) then Ret (s16 tmp) else Err ERANGE.
Definition kstrtou8 (s : list Z) (base : Z) : cres Z :=
  tmp ← kstrtoull s base;
  if tmp =? u64 (u8 tmp) then Ret (u8 tmp) else Err ERANGE.
Definition kstrtos8 (s : list Z) (base : Z) : cres Z :=
  tmp ← kstrtoll s base;
  if tmp =? s64 (s8 tmp) then Ret (s8 tmp) else Err ERANGE.

(** [kstrto_from_user(f, g, type)] for a type of [size] bytes: [user] is what
    [copy_from_user] finds at the address, [None] when it faults. *)
Definition kstrto_from_user (g : list Z → Z → cres Z) (size : Z)
    (user : Z → option (list Z)) (count base : Z) : cres Z :=
  let sizeof_buf := 1 + size * 8 + 1 + 1 in
  let count := Z.min count (sizeof_buf - 1) in
  match user count with
  | None => Err EFAULT
  | Some bytes => g (bytes ++ [0]) base
  end.

(** *** The readers of lib/vsprintf.c: the number and the rest of the string *)
Definition simple_strtoull (cp : list Z) (base : Z) : cres (Z * list Z) :=
  '(cp, base) ← _parse_integer_fixup_radix cp base;
  '(rv, result) ← _parse_integer cp base;
  cp ← ptr_add cp (Z.land rv (u32 (Z.lnot KSTRTOX_OVERFLOW)));
  Ret (result, cp).
Definition simple_strtoul (cp : list Z) (base : Z) : cres (Z * list Z) :=
  '(r, cp) ← simple_strtoull cp base; Ret (u32 r, cp).
Definition simple_strtol (cp : list Z) (base : Z) : cres (Z * list Z) :=
  c ← deref cp;
  if c =? 45 then
    cp ← ptr_add cp 1; '(r, cp) ← simple_strtoul cp base; Ret (s32 (u32 (- r)), cp)
  else '(r, cp) ← simple_strtoul cp base; Ret (s32 r, cp).
Definition simple_strtoll (cp : list Z) (base : Z) : cres (Z * list Z) :=
  c ← deref cp;
  if c =? 45 then
    cp ← ptr_add cp 1; '(r, cp) ← simple_strtoull cp base; Ret (s64 (u64 (- r)), cp)
  else '(r, cp) ← simple_strtoull cp base; Ret (s64 r, cp).

(** stops at the first character that is not a digit; [int] arithmetic *)
Fixpoint skip_atoi_loop (s : list Z) (i : Z) : cres (Z * list Z) :=
  match s with
  | [] => UB
  | c :: s' => if isdigit c then skip_atoi_loop s' (s32 (i * 10 + c - 48)) else Ret (i, s)
  end.
Definition skip_atoi (s : list Z) : cres (Z * list Z) := skip_atoi_loop s 0.

(** ** What the parser should do

    [digits base s] splits [s] into the values of its longest prefix of digits
    below [base] and the rest; [value] is the number they denote. *)
Fixpoint digits (base : Z) (s : list Z) : list Z * list Z :=
  match s with
  | [] => ([], [])
  | c :: s' =>
      match digit_val c with
      | Some v => if v <? base
                  then let '(ds, rest) := digits base s' in (v :: ds, rest)
                  else ([], s)
      | None => ([], s)
      end
  end.
Definition value_from (base : Z) : Z → list Z → Z := foldl (λ a v, a * base + v).
Definition value (base : Z) (ds : list Z) : Z := value_from base 0 ds.

(** the radix to use and the text after a "0x" *)
Definition has_0x (s : list Z) : bool :=
  match s with c0 :: c1 :: _ => (c0 =? 48) && (_tolower c1 =? 120) | _ => false end.
Definition radix (base : Z) (s : list Z) : Z * list Z :=
  if base =? 0 then
    if has_0x s && match drop 2 s with c :: _ => isxdigit c | [] => false end
    then (16, drop 2 s)
    else match s with c :: _ => if c =? 48 then (8, s) else (10, s) | [] => (10, s) end
  else if (base =? 16) && has_0x s then (16, drop 2 s) else (base, s).

(** the text is digits and at most one newline; too large a number is reported
    before trailing garbage *)
Definition unsigned_text (base : Z) (s : list Z) : cres Z :=
  let '(r, s) := radix base s in
  let '(ds, rest) := digits r s in
  if 2 ^ 64 <=? value r ds then Err ERANGE
  else if bool_decide (ds = []) || negb (bool_decide (rest = [] ∨ rest = [10]))
  then Err EINVAL
  else Ret (value r ds).
Definition drop_plus (s : list Z) : list Z :=
  match s with c :: s' => if c =? 43 then s' else s | [] => [] end.

(** characters of a string: bytes other than NUL *)
Definition is_char (c : Z) : Prop := 0 < c < 256.
#[global] Instance is_char_dec c : Decision (is_char c).
Proof. unfold is_char. apply _. Defined.

(** ** Proofs *)

Lemma s16_sub x y : s16 (s16 x - y) = s16 (x - y).
Proof.
  unfold s16. f_equal. replace (_ - 2 ^ 15 - y + 2 ^ 15) with ((x + 2 ^ 15) `mod` 2 ^ 16 - y) by lia.
  rewrite Zminus_mod_idemp_l. f_equal. lia.
Qed.

(** a property of all bytes is checked by computation *)
Lemma byte_forall (P : Z → bool) :
  forallb P (Z.of_nat <$> seq 0 256) = true → ∀ c, 0 ≤ c < 256 → P c = true.
Proof.
  rewrite forallb_forall. intros H c Hc. apply H.
  apply list_elem_of_In, list_elem_of_fmap. exists (Z.to_nat c).
  split; [lia|]. apply elem_of_seq. lia.
Qed.

Lemma digit_val_spec c v :
  0 ≤ c < 256 →
  digit_val c = Some v ↔
  c = 48 + v ∧ 0 ≤ v ≤ 9 ∨ (c = 97 + (v - 10) ∨ c = 65 + (v - 10)) ∧ 10 ≤ v ≤ 15.
Proof.
  intros Hc.
  pose proof (byte_forall (λ c, bool_decide (digit_val c =
    if bool_decide (48 ≤ c ≤ 57) then Some (c - 48)
    else if bool_decide (97 ≤ c ≤ 102) then Some (c - 87)
    else if bool_decide (65 ≤ c ≤ 70) then Some (c - 55) else None)) eq_refl c Hc) as H.
  apply bool_decide_eq_true in H. rewrite H.
  repeat case_bool_decide; split; intros; simplify_eq; try lia; f_equal; lia.
Qed.

Lemma digit_val_range c v : 0 ≤ c < 256 → digit_val c = Some v → 0 ≤ v < 16.
Proof. intros Hc Hv%(digit_val_spec c v Hc). lia. Qed.

Lemma digits_rest base s : Forall is_char s → Forall is_char (digits base s).2.
Proof.
  induction 1 as [|c s Hc Hs IH]; simpl; [done|].
  destruct (digit_val c) as [v|]; [|by constructor].
  case_test; [|by constructor]. by destruct (digits base s).
Qed.

Lemma digits_length base s :
  zlength s = zlength (digits base s).1 + zlength (digits base s).2.
Proof.
  unfold zlength. induction s as [|c s IH]; simpl; [done|].
  destruct (digit_val c) as [v|]; [|done]. case_test; [|done].
  destruct (digits base s); simpl in *. lia.
Qed.

Lemma digits_drop base s : (digits base s).2 = drop (length (digits base s).1) s.
Proof.
  induction s as [|c s IH]; simpl; [done|].
  destruct (digit_val c) as [v|]; [|done]. case_test; [|done].
  by destruct (digits base s).
Qed.

Lemma value_from_grows base a ds :
  1 ≤ base → 0 ≤ a → Forall (λ v, 0 ≤ v) ds → a ≤ value_from base a ds.
Proof.
  intros Hb Ha Hds. revert a Ha. induction Hds as [|v ds Hv _ IH]; simpl; [lia|].
  intros a Ha. transitivity (a * base + v); [nia|]. apply IH. nia.
Qed.

Lemma digits_nonneg base s : Forall is_char s → Forall (λ v, 0 ≤ v < base) (digits base s).1.
Proof.
  induction 1 as [|c s Hc Hs IH]; simpl; [constructor|].
  destruct (digit_val c) as [v|] eqn:Hv; [|constructor].
  case_test; [|constructor]. bprop.
  destruct (digits base s); simpl in *. constructor; [|done].
  unfold is_char in Hc. apply digit_val_range in Hv; lia.
Qed.

(** the test the loop makes before it multiplies is exact *)
Lemma overflow_test V base v :
  0 ≤ V → 0 ≤ v < base → v < 16 →
  ((2 ^ 64 <=? V) || (div_u64 (u64 (ULLONG_MAX - v)) base <? u64 V))
  = (2 ^ 64 <=? V * base + v).
Proof.
  intros HV Hv Hv'. unfold ULLONG_MAX, div_u64.
  rewrite (u64_id (_ - v)) by (unfold is_u64; lia).
  destruct (Z.leb_spec (2 ^ 64) V); simpl.
  - symmetry. apply Z.leb_le. nia.
  - rewrite u64_id by (unfold is_u64; lia).
    apply eq_true_iff_eq. rewrite Z.ltb_lt, Z.leb_le.
    pose proof (Z.div_mod (2 ^ 64 - 1 - v) base). pose proof (Z.mod_pos_bound (2 ^ 64 - 1 - v) base).
    split; intros; nia.
Qed.

Lemma parse_loop_spec base s : ∀ V rv t,
  Forall is_char s → 0 ≤ V → 0 ≤ rv → rv + zlength s < 2 ^ 31 →
  parse_loop (s ++ 0 :: t) base (u64 V) rv (2 ^ 64 <=? V) =
  let V' := value_from base V (digits base s).1 in
  let n := rv + zlength (digits base s).1 in
  Ret (if 2 ^ 64 <=? V' then Z.lor n KSTRTOX_OVERFLOW else n, u64 V').
Proof.
  induction s as [|c s IH]; intros V rv t Hs HV Hrv Hlen.
  { simpl. unfold zlength. simpl. by rewrite Z.add_0_r. }
  inversion Hs as [|?? Hc Hs']; subst. unfold is_char in Hc.
  unfold zlength in *. simpl in Hlen |- *.
  rewrite (proj2 (Z.eqb_neq c 0)) by lia.
  destruct (digit_val c) as [v|] eqn:Hv; simpl; [|by rewrite ?Z.add_0_r].
  apply digit_val_range in Hv; [|lia].
  rewrite (Z.leb_antisym v base). destruct (v <? base) eqn:Hvb; simpl; [|by rewrite ?Z.add_0_r]. bprop.
  rewrite overflow_test by lia.
  replace (u64 (u64 V * base + v)) with (u64 (V * base + v)).
  2: { unfold u64. by rewrite <- (Z.add_mod_idemp_l (V `mod` _ * base)),
         Z.mul_mod_idemp_l, Z.add_mod_idemp_l by done. }
  rewrite u32_id by (unfold is_u32; lia). rewrite IH by (done || lia || nia).
  destruct (digits base s) as [ds rest]; simpl. do 2 f_equal.
  replace (rv + 1 + Z.of_nat (length ds)) with (rv + Z.of_nat (S (length ds))) by lia. done.
Qed.

Lemma fixup_radix_spec s base t :
  Forall is_char s →
  _parse_integer_fixup_radix (s ++ 0 :: t) base =
  Ret ((radix base s).2 ++ 0 :: t, (radix base s).1).
Proof.
  intros Hs. unfold _parse_integer_fixup_radix, radix, has_0x.
  destruct s as [|c0 [|c1 s]].
  - simpl. by repeat (case_test; simpl).
  - cbn. by repeat (case_test; simpl).
  - assert (∀ x : list Z, array_get (c0 :: c1 :: x) 1 = Ret c1) as Hget1 by done.
    assert (∀ (c : Z) x, array_get (c0 :: c1 :: c :: x) 2 = Ret c) as Hget2 by done.
    assert (∀ x : list Z, ptr_add (c0 :: c1 :: x) 2 = Ret x) as Hadd.
    { intros x. unfold ptr_add, zlength. simpl.
      by rewrite (proj2 (Z.leb_le _ _)), drop_0 by lia. }
    cbn [app]. rewrite Hget1, Hadd. cbn. rewrite drop_0.
    destruct (base =? 0) eqn:Hb; cbn.
    + destruct (c0 =? 48); cbn; [|done].
      destruct (_tolower c1 =? 120); cbn; [|done].
      destruct s as [|c2 s]; cbn [app]; rewrite Hget2; cbn; [done|].
      by destruct (isxdigit c2).
    + destruct (base =? 16) eqn:Hb16; cbn; [|done].
      apply Z.eqb_eq in Hb16. subst.
      destruct (c0 =? 48); cbn; [|done]. by destruct (_tolower c1 =? 120).
Qed.

Lemma radix_drop base s : ∃ n, (radix base s).2 = drop n s.
Proof.
  unfold radix. repeat case_match; simpl; first [by exists 2%nat|by exists 0%nat].
Qed.

Lemma strip_newline rest t (k : Z) :
  Forall is_char rest →
  (c ← deref (rest ++ 0 :: t);
   s ← (if c =? 10 then ptr_add (rest ++ 0 :: t) 1 else Ret (rest ++ 0 :: t));
   c ← deref s;
   if truth c then Err EINVAL else Ret k)
  = if bool_decide (rest = [] ∨ rest = [10]) then Ret k else Err EINVAL.
Proof.
  intros Hr. destruct Hr as [|c rest Hc Hr]; [done|]. unfold is_char in *.
  assert (truth c = true) as Ht. { unfold truth. apply negb_true_iff, Z.eqb_neq. lia. }
  cbn. unfold ptr_add, zlength. simpl. rewrite (proj2 (Z.leb_le _ _)), drop_0 by lia.
  destruct (Z.eqb_spec c 10) as [->|Hne]; cbn.
  - destruct Hr as [|c' rest Hc' Hr]; cbn; [done|].
    rewrite bool_decide_false by naive_solver.
    unfold truth. by rewrite (proj2 (Z.eqb_neq _ _)) by lia.
  - rewrite Ht, bool_decide_false by naive_solver. done.
Qed.

Lemma ptr_add_in s (n : nat) : (n ≤ length s)%nat → ptr_add s (Z.of_nat n) = Ret (drop n s).
Proof.
  intros Hn. unfold ptr_add, zlength. rewrite !(proj2 (Z.leb_le _ _)) by lia.
  by rewrite Nat2Z.id.
Qed.

Lemma ptr_add_1 c s : ptr_add (c :: s) 1 = Ret s.
Proof. apply (ptr_add_in (c :: s) 1). simpl. lia. Qed.

Lemma value_nonneg base ds : Forall (λ v, 0 ≤ v < base) ds → 0 ≤ value base ds.
Proof.
  intros Hds. unfold value. destruct Hds as [|d ds Hd Hds]; [simpl; lia|].
  apply value_from_grows; [lia..|].
  constructor; [lia|]. eapply Forall_impl; [done|]. simpl. lia.
Qed.

Lemma land_overflow_bit n : 0 ≤ n < 2 ^ 31 → Z.land n KSTRTOX_OVERFLOW = 0.
Proof.
  intros Hn. apply Z.bits_inj'. intros i Hi. rewrite Z.land_spec, Z.bits_0.
  unfold KSTRTOX_OVERFLOW. rewrite Z.pow2_bits_eqb by lia.
  destruct (Z.eqb_spec 31 i) as [<-|]; [|by rewrite andb_false_r].
  by rewrite (bits_above 31).
Qed.

Lemma land_count_bits n :
  0 ≤ n < 2 ^ 31 → Z.land n (u32 (Z.lnot KSTRTOX_OVERFLOW)) = n.
Proof.
  intros Hn. change (u32 (Z.lnot KSTRTOX_OVERFLOW)) with (Z.ones 31).
  rewrite Z.land_ones by lia. by apply Z.mod_small.
Qed.

Lemma kstrtoull_text s base t :
  Forall is_char s → zlength s < 2 ^ 31 →
  _kstrtoull (s ++ 0 :: t) base = unsigned_text base s.
Proof.
  intros Hs Hlen. unfold _kstrtoull, unsigned_text, _parse_integer, value.
  rewrite fixup_radix_spec by done. cbn [mbind cres_bind].
  destruct (radix_drop base s) as [k Hk]. destruct (radix base s) as [r s']. simpl in *.
  assert (Forall is_char s') as Hs' by (subst; by apply Forall_drop).
  assert (zlength s' < 2 ^ 31) as Hlen'.
  { subst. unfold zlength in *. rewrite length_drop. lia. }
  pose proof (parse_loop_spec r s' 0 0 t) as Hp. change (u64 0) with 0 in Hp.
  change (2 ^ 64 <=? 0) with false in Hp. rewrite Hp by (done || lia). clear Hp.
  cbn [mbind cres_bind].
  pose proof (digits_length r s') as Hdl. pose proof (digits_drop r s') as Hdd.
  pose proof (digits_rest r s' Hs') as Hdr.
  pose proof (digits_nonneg r s' Hs') as Hnn.
  destruct (digits r s') as [ds rest]. cbn [fst snd] in *.
  assert (0 ≤ zlength ds < 2 ^ 31) as Hn by (unfold zlength in *; lia).
  assert (0 ≤ value_from r 0 ds) as Hv0 by by apply value_nonneg.
  rewrite Z.add_0_l. destruct (2 ^ 64 <=? value_from r 0 ds) eqn:HV.
  { by rewrite Z.land_lor_distr_l, Z.land_diag, land_overflow_bit. }
  rewrite land_overflow_bit, land_count_bits by done. cbn [truth Z.eqb negb].
  destruct ds as [|d ds]; [done|].
  rewrite (proj2 (Z.eqb_neq _ _)) by (unfold zlength; simpl; lia).
  change (zlength (d :: ds)) with (Z.of_nat (length (d :: ds))).
  rewrite ptr_add_in by (unfold zlength in *; rewrite length_app; simpl in *; lia).
  rewrite u64_id by (unfold is_u64; bprop; lia). cbn [mbind cres_bind].
  rewrite drop_app_le, <- Hdd by (unfold zlength in *; simpl in *; lia).
  rewrite (strip_newline rest t _ Hdr).
  rewrite (bool_decide_false (d :: ds = [])) by done. simpl. by case_bool_decide.
Qed.

Lemma kstrtoull_plus s base t :
  Forall is_char s → zlength s < 2 ^ 31 →
  kstrtoull (s ++ 0 :: t) base = unsigned_text base (drop_plus s).
Proof.
  intros Hs Hlen. unfold kstrtoull. destruct Hs as [|c s Hc Hs]; cbn.
  - apply (kstrtoull_text [] base t); [constructor|done].
  - rewrite ptr_add_1. destruct (c =? 43); cbn.
    + apply kstrtoull_text; [done|]. unfold zlength in *. simpl in *. lia.
    + apply (kstrtoull_text (c :: s) base t); [by constructor|done].
Qed.

(** the number of a signed text: after a minus the value must be in
    [1, 2^63] *)
Definition signed_text (base : Z) (s : list Z) : cres Z :=
  if bool_decide (head s = Some 45) then
    v ← unsigned_text base (tail s);
    if (1 <=? v) && (v <=? 2 ^ 63) then Ret (- v) else Err ERANGE
  else
    v ← unsigned_text base (drop_plus s);
    if v <? 2 ^ 63 then Ret v else Err ERANGE.

Lemma unsigned_text_range base s v :
  unsigned_text base s = Ret v → Forall is_char s → is_u64 v.
Proof.
  unfold unsigned_text. intros Hv Hs. destruct (radix_drop base s) as [k Hk].
  destruct (radix base s) as [r s']. simpl in Hk.
  assert (Forall is_char s') as Hs' by (subst; by apply Forall_drop).
  pose proof (digits_nonneg r s' Hs') as Hnn.
  destruct (digits r s') as [ds rest]. cbn in Hnn. 
  repeat case_test; simplify_eq. bprop. split; [|lia].
  by apply value_nonneg.
Qed.

Lemma drop_plus_chars s : Forall is_char s → Forall is_char (drop_plus s).
Proof. intros Hs. destruct Hs; simpl; [done|]. case_test; auto. Qed.

Lemma s64_neg v : is_u64 v →
  (if 0 <=? s64 (u64 (- v)) then Err ERANGE else Ret (s64 (u64 (- v)))) =
  if (1 <=? v) && (v <=? 2 ^ 63) then Ret (- v) else Err ERANGE.
Proof.
  unfold is_u64. intros Hv. destruct (decide (1 ≤ v ≤ 2 ^ 63)) as [H|H].
  - assert (s64 (u64 (- v)) = - v) as -> by (unfold s64, u64; Z.div_mod_to_equations; lia).
    by rewrite (proj2 (Z.leb_gt _ _)), !(proj2 (Z.leb_le _ _)) by lia.
  - assert (0 ≤ s64 (u64 (- v))) by (unfold s64, u64; Z.div_mod_to_equations; lia).
    rewrite (proj2 (Z.leb_le 0 _)) by lia.
    destruct (Z.leb_spec 1 v), (Z.leb_spec v (2 ^ 63)); simpl; (done || lia).
Qed.

Lemma s64_pos v : is_u64 v →
  (if s64 v <? 0 then Err ERANGE else Ret (s64 v)) = if v <? 2 ^ 63 then Ret v else Err ERANGE.
Proof.
  unfold is_u64. intros Hv. destruct (Z.ltb_spec v (2 ^ 63)).
  - assert (s64 v = v) as -> by (unfold s64; Z.div_mod_to_equations; lia).
    by rewrite (proj2 (Z.ltb_ge _ _)) by lia.
  - assert (s64 v < 0) by (unfold s64; Z.div_mod_to_equations; lia).
    by rewrite (proj2 (Z.ltb_lt _ _)) by lia.
Qed.

Lemma kstrtoll_text s base t :
  Forall is_char s → zlength s < 2 ^ 31 →
  kstrtoll (s ++ 0 :: t) base = signed_text base s.
Proof.
  intros Hs Hlen. unfold kstrtoll, signed_text. rewrite kstrtoull_plus by done.
  assert (deref (s ++ 0 :: t) = Ret (default 0 (head s))) as -> by by destruct s.
  cbn [mbind cres_bind]. destruct s as [|c s]; [cbn|].
  - destruct (unsigned_text base []) as [v| |] eqn:Hv; cbn; [|done..].
    by apply s64_pos, (unsigned_text_range base []).
  - cbn [head default id tail app]. rewrite ptr_add_1. inversion Hs; subst.
    destruct (Z.eqb_spec c 45) as [->|Hne].
    + rewrite bool_decide_true by done. cbn [mbind cres_bind].
      rewrite kstrtoull_text by (done || unfold zlength in *; simpl in *; lia).
      destruct (unsigned_text base s) as [v| |] eqn:Hv; cbn [mbind cres_bind]; [|done..].
      by apply s64_neg, (unsigned_text_range base s).
    + rewrite bool_decide_false by congruence.
      destruct (unsigned_text base _) as [v| |] eqn:Hv; cbn [mbind cres_bind]; [|done..].
      apply s64_pos, (unsigned_text_range _ _ _ Hv). by apply drop_plus_chars.
Qed.

(** C26: number parsing is exact on every NUL terminated string. The text is an
    optional sign, a radix given or taken from a "0" or "0x" prefix, digits
    below the radix and at most one newline, and the result is the value of
    the digits. The error is ERANGE when the digits at the start exceed 64
    bits, whatever follows them, when the value of a text of this form is
    outside the type, and for a minus before zero, which the kernel does not
    count as an integer; every other text is EINVAL. *)
Theorem kstrto_reads s base t :
  Forall is_char s → zlength s < 2 ^ 31 →
  kstrtoull (s ++ 0 :: t) base = unsigned_text base (drop_plus s) ∧
  kstrtoll (s ++ 0 :: t) base = signed_text base s.
Proof. intros. split; [by apply kstrtoull_plus|by apply kstrtoll_text]. Qed.

(** "-0x8000000000000000" with radix 0 *)
Lemma kstrto_reads_witness :
  let s := [45; 48; 120; 56; 48; 48; 48; 48; 48; 48; 48; 48; 48; 48; 48; 48; 48; 48; 48] in
  kstrtoull (s ++ 0 :: []) 0 = Err EINVAL ∧ kstrtoll (s ++ 0 :: []) 0 = Ret (- 2 ^ 63).
Proof.
  intros s. assert (Forall is_char s) as Hs.
  { repeat constructor. }
  assert (zlength s < 2 ^ 31) as Hl by done.
  destruct (kstrto_reads s 0 [] Hs Hl) as [H1 H2].
  split; [etransitivity; [exact H1|]|etransitivity; [exact H2|]]; vm_compute; reflexivity.
Defined.

(** *** The narrow variants give the same number when it fits *)
Lemma narrow_ret (m : cres Z) (conv wide : Z → Z) n :
  (∀ x, wide (conv x) = conv x) →
  (tmp ← m; if tmp =? wide (conv tmp) then Ret (conv tmp) else Err ERANGE) = Ret n ↔
  m = Ret n ∧ conv n = n.
Proof.
  intros Hw. destruct m as [x| |]; cbn; [|naive_solver..]. rewrite Hw.
  destruct (Z.eqb_spec x (conv x)) as [Hx|Hx]; [rewrite <- Hx|]; naive_solver.
Qed.

Lemma s64_signed w x : 0 < w ≤ 63 →
  s64 ((x + 2 ^ (w - 1)) `mod` 2 ^ w - 2 ^ (w - 1)) =
  (x + 2 ^ (w - 1)) `mod` 2 ^ w - 2 ^ (w - 1).
Proof.
  intros Hw. pose proof (Z.mod_pos_bound (x + 2 ^ (w - 1)) (2 ^ w)) as Hm.
  assert (2 ^ w = 2 * 2 ^ (w - 1)) by (rewrite <- Z.pow_succ_r by lia; f_equal; lia).
  assert (0 < 2 ^ (w - 1)) by (apply Z.pow_pos_nonneg; lia).
  assert (2 ^ w ≤ 2 ^ 63) by (apply Z.pow_le_mono_r; lia).
  unfold s64. rewrite Z.mod_small by lia. lia.
Qed.

Lemma u64_unsigned w x : 0 < w ≤ 63 → u64 (x `mod` 2 ^ w) = x `mod` 2 ^ w.
Proof.
  intros Hw. pose proof (Z.mod_pos_bound x (2 ^ w)) as Hm.
  assert (0 < 2 ^ w) by (apply Z.pow_pos_nonneg; lia).
  assert (2 ^ w ≤ 2 ^ 63) by (apply Z.pow_le_mono_r; lia).
  apply u64_id. unfold is_u64. lia.
Qed.

(** [kstrtoint], [kstrtos16] and [kstrtos8] accept exactly the texts of
    [kstrtoll] whose number fits, and likewise the unsigned ones. *)
Theorem kstrto_narrow s base n :
  (kstrtoint s base = Ret n ↔ kstrtoll s base = Ret n ∧ s32 n = n) ∧
  (kstrtos16 s base = Ret n ↔ kstrtoll s base = Ret n ∧ s16 n = n) ∧
  (kstrtos8 s base = Ret n ↔ kstrtoll s base = Ret n ∧ s8 n = n) ∧
  (kstrtouint s base = Ret n ↔ kstrtoull s base = Ret n ∧ u32 n = n) ∧
  (kstrtou16 s base = Ret n ↔ kstrtoull s base = Ret n ∧ u16 n = n) ∧
  (kstrtou8 s base = Ret n ↔ kstrtoull s base = Ret n ∧ u8 n = n).
Proof.
  split_and!; apply narrow_ret; intros x.
  - by apply (s64_signed 32).
  - by apply (s64_signed 16).
  - by apply (s64_signed 8).
  - by apply (u64_unsigned 32).
  - by apply (u64_unsigned 16).
  - by apply (u64_unsigned 8).
Qed.
