(* ===== verification/Printf.v ===== *)
(** * Writing numbers and text: vsnprintf (lib/vsprintf.c)

    The output buffer is the memory of the object and the write position as an
    offset; [end] is an offset too, and a character is stored only below it.
    Local arrays are either a list of what was written with a capacity, or a
    buffer filled with -1 where C leaves it uninitialised. [%pV], which calls
    vsnprintf again, is outside the model (it gives [UB]); symbol names come
    from tables the build generates and are an argument.

    [Printf.v] has the code; the theorems are in PrintfSpec.v. *)

From stdpp Require Import strings.
Import Ascii.AsciiSyntax.
From S2P Require Import Prelude Kstrtox.

Definition chr (a : Ascii.ascii) : Z := Z.of_N (Ascii.N_of_ascii a).
Arguments chr _%_char_scope.
Definition bytes (s : string) : list Z := chr <$> String.list_ascii_of_string s.

(** ** Buffers *)
Record outbuf := Outbuf { mem : list Z; pos : Z }.

(** [if (buf < end) *buf = c; ++buf] *)
Definition put (endp c : Z) (o : outbuf) : cres outbuf :=
  if pos o <? endp
  then m ← array_set (mem o) (pos o) c; Ret (Outbuf m (pos o + 1))
  else Ret (Outbuf (mem o) (pos o + 1)).
(** [*p++ = c] *)
Definition raw_put (c : Z) (o : outbuf) : cres outbuf :=
  m ← array_set (mem o) (pos o) c; Ret (Outbuf m (pos o + 1)).
(** the same on a local array of [cap] characters *)
Definition lput (cap c : Z) (l : list Z) : cres (list Z) :=
  if zlength l <? cap then Ret (l ++ [c]) else UB.

(** ** Decimal digits, least significant first *)
Definition put_dec_trunc (cap : Z) (buf : list Z) (q : Z) : cres (list Z) :=
  let d1 := Z.land (Z.shiftr q 4) 0xf in
  let d2 := Z.land (Z.shiftr q 8) 0xf in
  let d3 := Z.shiftr q 12 in
  let d0 := u32 (6 * (d3 + d2 + d1) + Z.land q 0xf) in
  let q := Z.shiftr (u32 (d0 * 0xcd)) 11 in
  let d0 := u32 (d0 - 10 * q) in
  buf ← lput cap (u8 (d0 + chr "0")) buf;
  let d1 := u32 (q + 9 * d3 + 5 * d2 + d1) in
  if negb (d1 =? 0) then
    let q := Z.shiftr (u32 (d1 * 0xcd)) 11 in
    let d1 := u32 (d1 - 10 * q) in
    buf ← lput cap (u8 (d1 + chr "0")) buf;
    let d2 := u32 (q + 2 * d2) in
    if negb (d2 =? 0) || negb (d3 =? 0) then
      let q := Z.shiftr (u32 (d2 * 0xd)) 7 in
      let d2 := u32 (d2 - 10 * q) in
      buf ← lput cap (u8 (d2 + chr "0")) buf;
      let d3 := u32 (q + 4 * d3) in
      if negb (d3 =? 0) then
        let q := Z.shiftr (u32 (d3 * 0xcd)) 11 in
        let d3 := u32 (d3 - 10 * q) in
        buf ← lput cap (u8 (d3 + chr "0")) buf;
        if negb (q =? 0) then lput cap (u8 (q + chr "0")) buf else Ret buf
      else Ret buf
    else Ret buf
  else Ret buf.

Definition put_dec_full (cap : Z) (buf : list Z) (q : Z) : cres (list Z) :=
  let d1 := Z.land (Z.shiftr q 4) 0xf in
  let d2 := Z.land (Z.shiftr q 8) 0xf in
  let d3 := Z.shiftr q 12 in
  let d0 := u32 (6 * (d3 + d2 + d1) + Z.land q 0xf) in
  let q := Z.shiftr (u32 (d0 * 0xcd)) 11 in
  let d0 := u32 (d0 - 10 * q) in
  buf ← lput cap (u8 (d0 + chr "0")) buf;
  let d1 := u32 (q + 9 * d3 + 5 * d2 + d1) in
  let q := Z.shiftr (u32 (d1 * 0xcd)) 11 in
  let d1 := u32 (d1 - 10 * q) in
  buf ← lput cap (u8 (d1 + chr "0")) buf;
  let d2 := u32 (q + 2 * d2) in
  let q := Z.shiftr (u32 (d2 * 0xd)) 7 in
  let d2 := u32 (d2 - 10 * q) in
  buf ← lput cap (u8 (d2 + chr "0")) buf;
  let d3 := u32 (q + 4 * d3) in
  let q := Z.shiftr (u32 (d3 * 0xcd)) 11 in
  let d3 := u32 (d3 - 10 * q) in
  buf ← lput cap (u8 (d3 + chr "0")) buf;
  lput cap (u8 (q + chr "0")) buf.

(** [do_div] leaves the quotient; a 64 bit number has at most four rounds *)
Fixpoint put_dec_loop (fuel : nat) (cap : Z) (buf : list Z) (num : Z) : cres (list Z) :=
  if num <? 100000 then put_dec_trunc cap buf num
  else match fuel with
  | O => UB
  | S fuel =>
      let rem := num `mod` 100000 in
      let num := num / 100000 in
      buf ← put_dec_full cap buf rem;
      put_dec_loop fuel cap buf num
  end.
Definition put_dec (cap : Z) (buf : list Z) (num : Z) : cres (list Z) :=
  put_dec_loop 4 cap buf num.

(** ** The conversion specification *)
Definition ZEROPAD : Z := 1.
Definition SIGN : Z := 2.
Definition PLUS : Z := 4.
Definition SPACE : Z := 8.
Definition LEFT : Z := 16.
Definition SMALL : Z := 32.
Definition SPECIAL : Z := 64.

Inductive format_type :=
  | FORMAT_TYPE_NONE
  | FORMAT_TYPE_WIDTH
  | FORMAT_TYPE_PRECISION
  | FORMAT_TYPE_CHAR
  | FORMAT_TYPE_STR
  | FORMAT_TYPE_PTR
  | FORMAT_TYPE_PERCENT_CHAR
  | FORMAT_TYPE_INVALID
  | FORMAT_TYPE_LONG_LONG
  | FORMAT_TYPE_ULONG
  | FORMAT_TYPE_LONG
  | FORMAT_TYPE_UBYTE
  | FORMAT_TYPE_BYTE
  | FORMAT_TYPE_USHORT
  | FORMAT_TYPE_SHORT
  | FORMAT_TYPE_UINT
  | FORMAT_TYPE_INT
  | FORMAT_TYPE_NRCHARS
  | FORMAT_TYPE_SIZE_T
  | FORMAT_TYPE_PTRDIFF.

Record printf_spec := Spec {
  type : format_type;
  flags : Z;
  base : Z;
  qualifier : Z;
  field_width : Z;
  precision : Z
}.
Definition spec0 : printf_spec := Spec FORMAT_TYPE_NONE 0 0 0 0 0.
Definition set_type t (s : printf_spec) :=
  Spec t (flags s) (base s) (qualifier s) (field_width s) (precision s).
Definition set_flags f (s : printf_spec) :=
  Spec (type s) f (base s) (qualifier s) (field_width s) (precision s).
Definition set_base b (s : printf_spec) :=
  Spec (type s) (flags s) b (qualifier s) (field_width s) (precision s).
Definition set_qualifier q (s : printf_spec) :=
  Spec (type s) (flags s) (base s) q (field_width s) (precision s).
(** the two 16 bit fields convert what is stored *)
Definition set_field_width w (s : printf_spec) :=
  Spec (type s) (flags s) (base s) (qualifier s) (s16 w) (precision s).
Definition set_precision p (s : printf_spec) :=
  Spec (type s) (flags s) (base s) (qualifier s) (field_width s) (s16 p).
Definition has (s : printf_spec) (f : Z) : bool := truth (Z.land (flags s) f).

(** ** Loops that count a 16 bit variable down and write one character in each
    round: [cont old new] is the condition of the loop, on the value before
    and after the decrement. Ends with the last value of the variable. *)
Fixpoint count_down_loop (fuel : nat) (cont : Z → Z → bool) (endp c n : Z)
    (o : outbuf) : cres (outbuf * Z) :=
  match fuel with
  | O => UB
  | S fuel =>
      let n' := s16 (n - 1) in
      if cont n n'
      then o ← put endp c o; count_down_loop fuel cont endp c n' o
      else Ret (o, n')
  end.
Definition count_down (cont : Z → Z → bool) (endp c n : Z) (o : outbuf) :
    cres (outbuf * Z) :=
  count_down_loop (S (Z.to_nat (Z.max n (s16 (n - 1)) + 1))) cont endp c n o.

(** [while (--n >= 0)] *)
Definition pad : Z → Z → Z → outbuf → cres (outbuf * Z) :=
  count_down (λ _ new, 0 <=? new).

(** ** number *)
Definition number_digits : list Z := bytes "0123456789ABCDEF".

(** the loop for bases 8 and 16; 64 bits have at most 22 octal digits *)
Fixpoint number_shift_loop (fuel : nat) (mask shift locase num : Z) (tmp : list Z) :
    cres (list Z) :=
  match fuel with
  | O => UB
  | S fuel =>
      d ← array_get number_digits (Z.land (u8 num) mask);
      tmp ← lput 66 (Z.lor d locase) tmp;
      let num := Z.shiftr num shift in
      if truth num then number_shift_loop fuel mask shift locase num tmp else Ret tmp
  end.

(** the digits of [tmp] in reverse order *)
Definition put_all (endp : Z) (cs : list Z) (o : outbuf) : cres outbuf :=
  foldl (λ m c, o ← m; put endp c o) (Ret o) cs.

(** the sign character (0 for none), the absolute value, and the width that is
    left after sign and prefix *)
Definition number_sign (num : Z) (need_pfx : bool) (spec : printf_spec) :
    Z * Z * printf_spec :=
  let spec := if has spec LEFT
              then set_flags (Z.land (flags spec) (u8 (Z.lnot ZEROPAD))) spec else spec in
  let '(sign, num, spec) :=
    if has spec SIGN then
      if s64 num <? 0
      then (chr "-", u64 (- s64 num), set_field_width (field_width spec - 1) spec)
      else if has spec PLUS
      then (chr "+", num, set_field_width (field_width spec - 1) spec)
      else if has spec SPACE
      then (chr " ", num, set_field_width (field_width spec - 1) spec)
      else (0, num, spec)
    else (0, num, spec) in
  let spec :=
    if need_pfx then
      let spec := set_field_width (field_width spec - 1) spec in
      if base spec =? 16 then set_field_width (field_width spec - 1) spec else spec
    else spec in
  (sign, num, spec).

(** the digits in reverse order *)
Definition number_tmp (num locase : Z) (spec : printf_spec) : cres (list Z) :=
  if num =? 0 then lput 66 (chr "0") []
  else if negb (base spec =? 10) then
    number_shift_loop 22 (base spec - 1) (if base spec =? 16 then 4 else 3) locase num []
  else put_dec 66 [] num.

(** padding, sign, prefix, digits *)
Definition number_put (endp sign locase : Z) (need_pfx : bool) (tmp : list Z)
    (spec : printf_spec) (o : outbuf) : cres outbuf :=
  let i := zlength tmp in
  let spec := if precision spec <? i then set_precision i spec else spec in
  let spec := set_field_width (field_width spec - precision spec) spec in
  '(o, fw) ← (if negb (has spec (ZEROPAD + LEFT))
              then pad endp (chr " ") (field_width spec) o
              else Ret (o, field_width spec));
  o ← (if truth sign then put endp sign o else Ret o);
  o ← (if need_pfx then
         o ← put endp (chr "0") o;
         if base spec =? 16 then put endp (Z.lor (chr "X") locase) o else Ret o
       else Ret o);
  '(o, fw) ← (if negb (has spec LEFT)
              then pad endp (if has spec ZEROPAD then chr "0" else chr " ") fw o
              else Ret (o, fw));
  '(o, _) ← count_down (λ _ new, i <=? new) endp (chr "0") (precision spec) o;
  o ← put_all endp (rev tmp) o;
  '(o, _) ← pad endp (chr " ") fw o;
  Ret o.

Definition number (endp num : Z) (spec : printf_spec) (o : outbuf) : cres outbuf :=
  let need_pfx := has spec SPECIAL && negb (base spec =? 10) in
  let locase := Z.land (flags spec) SMALL in
  let '(sign, num, spec) := number_sign num need_pfx spec in
  tmp ← number_tmp num locase spec;
  number_put endp sign locase need_pfx tmp spec o.

(** ** string; [s] is the object the pointer points to *)
Definition PAGE_SIZE : Z := 4096.

(** at most [count] characters; a missing NUL runs off the object *)
Fixpoint strnlen_loop (s : list Z) (count : nat) : cres Z :=
  match count with
  | O => Ret 0
  | S count =>
      match s with
      | [] => UB
      | c :: s => if c =? 0 then Ret 0 else n ← strnlen_loop s count; Ret (n + 1)
      end
  end.
(** the number of rounds needs no more than one character past the object *)
Definition strnlen (s : list Z) (count : Z) : cres Z :=
  strnlen_loop s (Z.to_nat (Z.min count (zlength s + 1))).

Definition string_field (endp : Z) (s : list Z) (spec : printf_spec) (o : outbuf) :
    cres outbuf :=
  len ← strnlen s (u32 (precision spec));
  '(o, fw) ← (if negb (has spec LEFT)
              then count_down (λ old _, s32 len <? old) endp (chr " ") (field_width spec) o
              else Ret (o, field_width spec));
  text ← array_read s 0 (Z.max 0 (s32 len));
  o ← put_all endp text o;
  '(o, _) ← count_down (λ old _, s32 len <? old) endp (chr " ") fw o;
  Ret o.

Definition null_string : list Z := bytes "(null)" ++ [0].

(** [string(buf, end, s, spec)] for a pointer [addr] to the object [s] *)
Definition string (endp addr : Z) (s : list Z) (spec : printf_spec) (o : outbuf) :
    cres outbuf :=
  string_field endp (if addr <? PAGE_SIZE then null_string else s) spec o.

(** ** Pointers *)

(** what a pointer argument points to *)
Inductive object :=
  | OBytes (l : list Z)
  | OResource (start end_ rflags : Z).
(** the context of the caller that [%pK] looks at, and the texts that the
    functions of kernel/kallsyms.c leave for an address: the symbol table is
    generated by the build *)
Record printf_env := Env {
  in_interrupt : bool;
  kptr_restrict : Z;
  cap_syslog : bool;
  sprint_backtrace : Z → list Z;
  sprint_symbol : Z → list Z;
  kallsyms_lookup : Z → list Z
}.
Definition SIZEOF_PTR : Z := 4.

Definition object_bytes (obj : object) : cres (list Z) :=
  match obj with OBytes l => Ret l | _ => UB end.

(** include/linux/kallsyms.h, with [MODULE_NAME_LEN] 60 *)
Definition KSYM_SYMBOL_LEN : Z :=
  (zlength (bytes "%s+%#lx/%#lx [%s]") + 1) + (128 - 1) + 2 * (32 * 3 / 10) + (60 - 1) + 1.

(** the text and its NUL are stored into [sym], which must hold them *)
Definition symbol_string (env : printf_env) (endp value ext : Z) (spec : printf_spec)
    (o : outbuf) : cres outbuf :=
  let text := if ext =? chr "B" then sprint_backtrace env value
              else if negb (ext =? chr "f") && negb (ext =? chr "s") then sprint_symbol env value
              else kallsyms_lookup env value in
  sym ← (if zlength text <? KSYM_SYMBOL_LEN then Ret (text ++ [0]) else UB);
  string_field endp sym spec o.

Definition IORESOURCE_IO : Z := 0x100.
Definition IORESOURCE_MEM : Z := 0x200.
Definition IORESOURCE_IRQ : Z := 0x400.
Definition IORESOURCE_DMA : Z := 0x800.
Definition IORESOURCE_BUS : Z := 0x1000.
Definition IORESOURCE_PREFETCH : Z := 0x2000.
Definition IORESOURCE_MEM_64 : Z := 0x100000.
Definition IORESOURCE_WINDOW : Z := 0x200000.
Definition IORESOURCE_DISABLED : Z := 0x10000000.

Definition rsrc_num (f b w : Z) : printf_spec := Spec FORMAT_TYPE_NONE f b 0 w (-1).
Definition io_spec : printf_spec := rsrc_num (SPECIAL + SMALL + ZEROPAD) 16 6.
Definition mem_spec : printf_spec := rsrc_num (SPECIAL + SMALL + ZEROPAD) 16 10.
Definition bus_spec : printf_spec := rsrc_num (SMALL + ZEROPAD) 16 2.
Definition dec_spec : printf_spec := rsrc_num 0 10 0.
Definition flag_spec : printf_spec := rsrc_num (SPECIAL + SMALL) 16 0.
Definition str_spec : printf_spec := Spec FORMAT_TYPE_NONE LEFT 0 0 (-1) 10.

(** sizeof(sym): 32 bit resources, [2 * 12 + 35] *)
Definition RSRC_SYM_SIZE : Z := 59.

Definition resource_string (endp start end_ rflags : Z) (spec : printf_spec)
    (fmt : list Z) (o : outbuf) : cres outbuf :=
  f0 ← deref fmt;
  let pend := RSRC_SYM_SIZE in
  let word s p := string_field pend (bytes s ++ [0]) str_spec p in
  let flag f := truth (Z.land rflags f) in
  let decode := f0 =? chr "R" in
  p ← raw_put (chr "[") (Outbuf (replicate (Z.to_nat RSRC_SYM_SIZE) (-1)) 0);
  let '(name, specp, decode) :=
    if flag IORESOURCE_IO then ("io  ", io_spec, decode)
    else if flag IORESOURCE_MEM then ("mem ", mem_spec, decode)
    else if flag IORESOURCE_IRQ then ("irq ", dec_spec, decode)
    else if flag IORESOURCE_DMA then ("dma ", dec_spec, decode)
    else if flag IORESOURCE_BUS then ("bus ", bus_spec, decode)
    else ("??? ", mem_spec, false) in
  p ← word name p;
  p ← number pend start specp p;
  p ← (if negb (start =? end_)
       then p ← raw_put (chr "-") p; number pend end_ specp p else Ret p);
  p ← (if (decode : bool) then
         p ← (if flag IORESOURCE_MEM_64 then word " 64bit" p else Ret p);
         p ← (if flag IORESOURCE_PREFETCH then word " pref" p else Ret p);
         p ← (if flag IORESOURCE_WINDOW then word " window" p else Ret p);
         (if flag IORESOURCE_DISABLED then word " disabled" p else Ret p)
       else
         p ← word " flags " p;
         number pend rflags flag_spec p);
  p ← raw_put (chr "]") p;
  p ← raw_put 0 p;
  string_field endp (mem p) spec o.

(** *** Addresses *)
Definition hex_asc : list Z := bytes "0123456789abcdef".
Definition hex_asc_lo (x : Z) : cres Z := array_get hex_asc (Z.land x 0x0f).
Definition hex_asc_hi (x : Z) : cres Z := array_get hex_asc (Z.shiftr (Z.land x 0xf0) 4).
Definition hex_byte_pack (cap : Z) (buf : list Z) (byte : Z) : cres (list Z) :=
  hi ← hex_asc_hi byte;
  buf ← lput cap hi buf;
  lo ← hex_asc_lo byte;
  lput cap lo buf.

(** [for (i = from; i < from + n; i++) body] *)
Definition for_range {A} (n : nat) (body : Z → A → cres A) (a : A) : cres A :=
  foldl (λ m i, a ← m; body (Z.of_nat i) a) (Ret a) (seq 0 n).

Definition mac_address_string (endp : Z) (addr : list Z) (spec : printf_spec)
    (fmt : list Z) (o : outbuf) : cres outbuf :=
  f0 ← array_get fmt 0;
  f1 ← array_get fmt 1;
  let separator := if f1 =? chr "F" then chr "-" else chr ":" in
  p ← for_range 6 (λ i p,
        b ← array_get addr i;
        p ← hex_byte_pack 18 p b;
        if (f0 =? chr "M") && negb (i =? 5) then lput 18 separator p else Ret p) [];
  p ← lput 18 0 p;
  string_field endp p spec o.

(** appends to [p], a local array of [cap] characters *)
Definition ip4_string (cap : Z) (p addr : list Z) (f0 f2 : Z) : cres (list Z) :=
  let leading_zeros := f0 =? chr "i" in
  let reversed := (f2 =? chr "h") || (f2 =? chr "l") in
  for_range 4 (λ i p,
    b ← array_get addr (if reversed then 3 - i else i);
    temp ← put_dec_trunc 3 [] b;
    let digits := zlength temp in
    p ← (if leading_zeros && (digits <? 3) then lput cap (chr "0") p else Ret p);
    p ← (if leading_zeros && (digits <? 2) then lput cap (chr "0") p else Ret p);
    p ← foldl (λ m c, p ← m; lput cap c p) (Ret p) (rev temp);
    if i <? 3 then lput cap (chr ".") p else Ret p) p.

Definition ip4_addr_string (endp : Z) (addr : list Z) (spec : printf_spec)
    (fmt : list Z) (o : outbuf) : cres outbuf :=
  f0 ← array_get fmt 0;
  f2 ← array_get fmt 2;
  p ← ip4_string 16 [] addr f0 f2;
  p ← lput 16 0 p;
  string_field endp p spec o.

(** a 16 bit group of the address as (hi, lo) *)
Definition group (addr : list Z) (i : Z) : cres (Z * Z) :=
  hi ← array_get addr (2 * i); lo ← array_get addr (2 * i + 1); Ret (hi, lo).
Definition ipv6_addr_v4mapped (a : list Z) : bool :=
  bool_decide (take 12 a = replicate 10 0 ++ [255; 255]).
Definition ipv6_addr_is_isatap (a : list Z) : bool :=
  bool_decide (Z.lor (default 0 (a !! 8%nat)) 2 :: slice 9 3 a = [2; 0; 94; 254]).

(** the length of the run of zero groups that starts at each position *)
Fixpoint zero_runs (gs : list (Z * Z)) : list Z :=
  match gs with
  | [] => []
  | (hi, lo) :: gs' =>
      (if (hi =? 0) && (lo =? 0) then 1 + default 0 (head (zero_runs gs')) else 0)
      :: zero_runs gs'
  end.
(** the first of the longest runs of more than one group *)
Definition longest_run (zerolength : list Z) : Z * Z :=
  snd (foldl (λ '(i, (longest, colonpos)) z,
         (i + 1, if longest <? z then (z, i) else (longest, colonpos)))
       (0, (1, -1)) zerolength).

Definition put_group (cap : Z) (p : list Z) (g : Z * Z) : cres (list Z) :=
  let '(hi, lo) := g in
  if truth hi then
    p ← (if 0x0f <? hi then hex_byte_pack cap p hi
         else c ← hex_asc_lo hi; lput cap c p);
    hex_byte_pack cap p lo
  else if 0x0f <? lo then hex_byte_pack cap p lo
  else c ← hex_asc_lo lo; lput cap c p.

(** the loop that writes the groups from [i] on; [skip] groups belong to a run
    already written *)
Fixpoint put_groups (cap colonpos longest : Z) (gs : list (Z * Z)) (i skip : Z)
    (needcolon : bool) (p : list Z) : cres (list Z * bool) :=
  match gs with
  | [] => Ret (p, needcolon)
  | g :: gs =>
      if 0 <? skip then put_groups cap colonpos longest gs (i + 1) (skip - 1) needcolon p
      else if i =? colonpos then
        p ← (if needcolon || (i =? 0) then lput cap (chr ":") p else Ret p);
        p ← lput cap (chr ":") p;
        put_groups cap colonpos longest gs (i + 1) (longest - 1) false p
      else
        p ← (if needcolon then lput cap (chr ":") p else Ret p);
        p ← put_group cap p g;
        put_groups cap colonpos longest gs (i + 1) 0 true p
  end.

Definition ip6_compressed_string (cap : Z) (addr : list Z) : cres (list Z) :=
  in6 ← array_read addr 0 16;
  let useIPv4 := ipv6_addr_v4mapped in6 || ipv6_addr_is_isatap in6 in
  let range := if useIPv4 then 6%nat else 8%nat in
  gs ← for_range range (λ i gs, g ← group in6 i; Ret (gs ++ [g])) [];
  let '(longest, colonpos) := longest_run (zero_runs gs) in
  let colonpos := if longest =? 1 then -1 else colonpos in
  '(p, needcolon) ← put_groups cap colonpos longest gs 0 0 false [];
  p ← (if useIPv4 then
         p ← (if (needcolon : bool) then lput cap (chr ":") p else Ret p);
         v4 ← array_read in6 12 4;
         ip4_string cap p v4 (chr "I") 0
       else Ret p);
  lput cap 0 p.

Definition ip6_string (cap : Z) (addr : list Z) (f0 : Z) : cres (list Z) :=
  p ← for_range 8 (λ i p,
        '(hi, lo) ← group addr i;
        p ← hex_byte_pack cap p hi;
        p ← hex_byte_pack cap p lo;
        if (f0 =? chr "I") && negb (i =? 7) then lput cap (chr ":") p else Ret p) [];
  lput cap 0 p.

Definition ip6_addr_string (endp : Z) (addr : list Z) (spec : printf_spec)
    (fmt : list Z) (o : outbuf) : cres outbuf :=
  f0 ← array_get fmt 0;
  compressed ← (if f0 =? chr "I" then f2 ← array_get fmt 2; Ret (f2 =? chr "c")
                else Ret false);
  p ← (if (compressed : bool) then ip6_compressed_string 46 addr
       else ip6_string 46 addr f0);
  string_field endp p spec o.

Definition uuid_le : list Z := [3; 2; 1; 0; 5; 4; 7; 6; 8; 9; 10; 11; 12; 13; 14; 15].
Definition islower (c : Z) : bool := truth (Z.land (__ismask c) _L).
Definition toupper (c : Z) : Z := if islower c then u8 (c - 32) else c.

Definition uuid_string (endp : Z) (addr : list Z) (spec : printf_spec)
    (fmt : list Z) (o : outbuf) : cres outbuf :=
  f1 ← array_get fmt 1;
  let uc := (f1 =? chr "L") || (f1 =? chr "B") in
  let le := (f1 =? chr "L") || (f1 =? chr "l") in
  p ← for_range 16 (λ i p,
        idx ← (if le then array_get uuid_le i else Ret i);
        b ← array_get addr idx;
        p ← hex_byte_pack 37 p b;
        if (i =? 3) || (i =? 5) || (i =? 7) || (i =? 9)
        then lput 37 (chr "-") p else Ret p) [];
  p ← lput 37 0 p;
  string_field endp (if uc then toupper <$> p else p) spec o.

(** [fmt] is the text after the [p]; [addr] and [obj] are the argument *)
Definition pointer (env : printf_env) (fmt : list Z) (endp addr : Z) (obj : object)
    (spec : printf_spec) (o : outbuf) : cres outbuf :=
  f0 ← deref fmt;
  let widen spec := if field_width spec =? -1
                    then set_field_width (2 * SIZEOF_PTR) spec else spec in
  let plain addr :=
    let spec := set_flags (Z.lor (flags spec) SMALL) spec in
    let spec := if field_width spec =? -1
                then set_flags (Z.lor (flags spec) ZEROPAD)
                       (set_field_width (2 * SIZEOF_PTR) spec)
                else spec in
    number endp addr (set_base 16 spec) o in
  if (addr =? 0) && negb (f0 =? chr "K") then
    string_field endp null_string (widen spec) o
  else if (f0 =? chr "F") || (f0 =? chr "f") || (f0 =? chr "S") || (f0 =? chr "s")
       || (f0 =? chr "B") then
    symbol_string env endp addr f0 spec o
  else if (f0 =? chr "R") || (f0 =? chr "r") then
    match obj with
    | OResource start end_ rflags => resource_string endp start end_ rflags spec fmt o
    | _ => UB
    end
  else if (f0 =? chr "M") || (f0 =? chr "m") then
    a ← object_bytes obj; mac_address_string endp a spec fmt o
  else if (f0 =? chr "I") || (f0 =? chr "i") then
    f1 ← array_get fmt 1;
    if f1 =? chr "6" then a ← object_bytes obj; ip6_addr_string endp a spec fmt o
    else if f1 =? chr "4" then a ← object_bytes obj; ip4_addr_string endp a spec fmt o
    else plain addr
  else if f0 =? chr "U" then
    a ← object_bytes obj; uuid_string endp a spec fmt o
  else if f0 =? chr "V" then UB
  else if f0 =? chr "K" then
    if in_interrupt env then
      string_field endp (bytes "pK-error" ++ [0]) (widen spec) o
    else if negb ((kptr_restrict env =? 0) || ((kptr_restrict env =? 1) && cap_syslog env))
    then plain 0
    else plain addr
  else plain addr.

(** ** format_decode: the text after what was read, and the specification *)
Definition flag_of (c : Z) : option Z :=
  if c =? chr "-" then Some LEFT
  else if c =? chr "+" then Some PLUS
  else if c =? chr " " then Some SPACE
  else if c =? chr "#" then Some SPECIAL
  else if c =? chr "0" then Some ZEROPAD
  else None.
Fixpoint decode_flags (fmt : list Z) (fl : Z) : cres (list Z * Z) :=
  match fmt with
  | [] => UB
  | _ :: fmt =>
      c ← deref fmt;
      match flag_of c with
      | Some f => decode_flags fmt (Z.lor fl f)
      | None => Ret (fmt, fl)
      end
  end.

Definition number_type (spec : printf_spec) : format_type :=
  let q := qualifier spec in
  if q =? chr "L" then FORMAT_TYPE_LONG_LONG
  else if q =? chr "l" then
    if has spec SIGN then FORMAT_TYPE_LONG else FORMAT_TYPE_ULONG
  else if _tolower q =? chr "z" then FORMAT_TYPE_SIZE_T
  else if q =? chr "t" then FORMAT_TYPE_PTRDIFF
  else if q =? chr "H" then
    if has spec SIGN then FORMAT_TYPE_BYTE else FORMAT_TYPE_UBYTE
  else if q =? chr "h" then
    if has spec SIGN then FORMAT_TYPE_SHORT else FORMAT_TYPE_USHORT
  else if has spec SIGN then FORMAT_TYPE_INT else FORMAT_TYPE_UINT.

(** the conversion character *)
Definition decode_conversion (fmt : list Z) (spec : printf_spec) : cres (list Z * printf_spec) :=
  let spec := set_base 10 spec in
  c ← deref fmt;
  let next t := fmt ← ptr_add fmt 1; Ret (fmt, set_type t spec) in
  let num spec := fmt ← ptr_add fmt 1; Ret (fmt, set_type (number_type spec) spec) in
  let flag f := set_flags (Z.lor (flags spec) f) spec in
  if c =? chr "c" then next FORMAT_TYPE_CHAR
  else if c =? chr "s" then next FORMAT_TYPE_STR
  else if c =? chr "p" then Ret (fmt, set_type FORMAT_TYPE_PTR spec)
  else if c =? chr "n" then next FORMAT_TYPE_NRCHARS
  else if c =? chr "%" then next FORMAT_TYPE_PERCENT_CHAR
  else if c =? chr "o" then num (set_base 8 spec)
  else if c =? chr "x" then num (set_base 16 (flag SMALL))
  else if c =? chr "X" then num (set_base 16 spec)
  else if (c =? chr "d") || (c =? chr "i") then num (flag SIGN)
  else if c =? chr "u" then num spec
  else Ret (fmt, set_type FORMAT_TYPE_INVALID spec).

(** from the label [qualifier] on *)
Definition decode_qualifier (fmt : list Z) (spec : printf_spec) : cres (list Z * printf_spec) :=
  c ← deref fmt;
  '(fmt, spec) ←
    (if (c =? chr "h") || (_tolower c =? chr "l") || (_tolower c =? chr "z")
        || (c =? chr "t") then
       fmt ← ptr_add fmt 1;
       c' ← deref fmt;
       if c =? c' then
         if c =? chr "l" then fmt ← ptr_add fmt 1; Ret (fmt, set_qualifier (chr "L") spec)
         else if c =? chr "h" then fmt ← ptr_add fmt 1; Ret (fmt, set_qualifier (chr "H") spec)
         else Ret (fmt, set_qualifier c spec)
       else Ret (fmt, set_qualifier c spec)
     else Ret (fmt, set_qualifier 255 spec));
  decode_conversion fmt spec.

(** from the label [precision] on *)
Definition decode_precision (fmt : list Z) (spec : printf_spec) : cres (list Z * printf_spec) :=
  let spec := set_precision (-1) spec in
  c ← deref fmt;
  if c =? chr "." then
    fmt ← ptr_add fmt 1;
    c ← deref fmt;
    if isdigit c then
      '(n, fmt) ← skip_atoi fmt;
      let spec := set_precision n spec in
      decode_qualifier fmt (if precision spec <? 0 then set_precision 0 spec else spec)
    else if c =? chr "*" then
      fmt ← ptr_add fmt 1; Ret (fmt, set_type FORMAT_TYPE_PRECISION spec)
    else decode_qualifier fmt spec
  else decode_qualifier fmt spec.

(** the text up to the next [%] or the end *)
Fixpoint skip_text (fmt : list Z) : cres (list Z) :=
  match fmt with
  | [] => UB
  | c :: fmt' => if (c =? 0) || (c =? chr "%") then Ret fmt else skip_text fmt'
  end.

Definition decode (fmt : list Z) (spec : printf_spec) : cres (list Z * printf_spec) :=
  match type spec with
  | FORMAT_TYPE_WIDTH =>
      let spec := if field_width spec <? 0
                  then set_flags (Z.lor (flags spec) LEFT)
                         (set_field_width (- field_width spec) spec)
                  else spec in
      decode_precision fmt (set_type FORMAT_TYPE_NONE spec)
  | FORMAT_TYPE_PRECISION =>
      let spec := if precision spec <? 0 then set_precision 0 spec else spec in
      decode_qualifier fmt (set_type FORMAT_TYPE_NONE spec)
  | _ =>
      let spec := set_type FORMAT_TYPE_NONE spec in
      rest ← skip_text fmt;
      c ← deref rest;
      if negb (zlength rest =? zlength fmt) || (c =? 0) then Ret (rest, spec)
      else
        '(fmt, fl) ← decode_flags rest 0;
        let spec := set_field_width (-1) (set_flags fl spec) in
        c ← deref fmt;
        if isdigit c then
          '(n, fmt) ← skip_atoi fmt;
          decode_precision fmt (set_field_width n spec)
        else if c =? chr "*" then
          fmt ← ptr_add fmt 1; Ret (fmt, set_type FORMAT_TYPE_WIDTH spec)
        else decode_precision fmt spec
  end.

(** the number of characters read *)
Definition format_decode (fmt : list Z) (spec : printf_spec) : cres (Z * printf_spec) :=
  '(rest, spec) ← decode fmt spec; Ret (zlength fmt - zlength rest, spec).

(** ** vsnprintf *)

(** arguments: integers of 32 and 64 bits, and pointers *)
Inductive va_val :=
  | VInt (x : Z)
  | VLong (x : Z)
  | VPtr (addr : Z) (obj : object).

Definition va_int (args : list va_val) : cres (Z * list va_val) :=
  match args with VInt x :: args => Ret (u32 x, args) | _ => UB end.
Definition va_longlong (args : list va_val) : cres (Z * list va_val) :=
  match args with VLong x :: args => Ret (u64 x, args) | _ => UB end.
Definition va_ptr (args : list va_val) : cres (Z * object * list va_val) :=
  match args with VPtr a obj :: args => Ret (a, obj, args) | _ => UB end.

(** the 64 bit value handed to [number] *)
Definition va_number (t : format_type) (args : list va_val) : cres (Z * list va_val) :=
  match t with
  | FORMAT_TYPE_LONG_LONG => va_longlong args
  | _ =>
      '(x, args) ← va_int args;
      Ret (match t with
           | FORMAT_TYPE_LONG | FORMAT_TYPE_PTRDIFF | FORMAT_TYPE_INT => u64 (s32 x)
           | FORMAT_TYPE_UBYTE => u8 x
           | FORMAT_TYPE_BYTE => u64 (s8 x)
           | FORMAT_TYPE_USHORT => u16 x
           | FORMAT_TYPE_SHORT => u64 (s16 x)
           | _ => x
           end, args)
  end.

Fixpoint skip_alnum (fmt : list Z) : cres (list Z) :=
  match fmt with
  | [] => UB
  | c :: fmt' => if isalnum c then skip_alnum fmt' else Ret fmt
  end.

(** [memcpy(str, old_fmt, copy)] cut off at [end] *)
Definition put_text (endp : Z) (text : list Z) (read : Z) (o : outbuf) : cres outbuf :=
  m ← (if pos o <? endp then
         let copy := if endp - pos o <? read then endp - pos o else read in
         bs ← array_read text 0 copy;
         if pos o + copy <=? zlength (mem o)
         then Ret (take (Z.to_nat (pos o)) (mem o) ++ bs
                   ++ drop (Z.to_nat (pos o + copy)) (mem o))
         else UB
       else Ret (mem o));
  Ret (Outbuf m (pos o + read)).

(** the state of the loop; [nrchars] are the stores of [%n], address and value *)
Record pstate := PState {
  ps_fmt : list Z;
  ps_spec : printf_spec;
  ps_args : list va_val;
  ps_out : outbuf;
  ps_nrchars : list (Z * Z)
}.

(** one round of the loop *)
Definition vsnprintf_step (env : printf_env) (endp : Z) (st : pstate) : cres pstate :=
  let old_fmt := ps_fmt st in
  let o := ps_out st in
  let args := ps_args st in
  '(read, spec) ← format_decode old_fmt (ps_spec st);
  fmt ← ptr_add old_fmt read;
  let continue spec args o := Ret (PState fmt spec args o (ps_nrchars st)) in
  match type spec with
  | FORMAT_TYPE_NONE =>
      o ← put_text endp old_fmt read o; continue spec args o
  | FORMAT_TYPE_WIDTH =>
      '(x, args) ← va_int args; continue (set_field_width x spec) args o
  | FORMAT_TYPE_PRECISION =>
      '(x, args) ← va_int args; continue (set_precision x spec) args o
  | FORMAT_TYPE_CHAR =>
      '(o, fw) ← (if negb (has spec LEFT)
                  then count_down (λ _ new, 0 <? new) endp (chr " ") (field_width spec) o
                  else Ret (o, field_width spec));
      '(x, args) ← va_int args;
      o ← put endp (u8 x) o;
      '(o, fw) ← count_down (λ _ new, 0 <? new) endp (chr " ") fw o;
      continue (set_field_width fw spec) args o
  | FORMAT_TYPE_STR =>
      '(a, obj, args) ← va_ptr args;
      s ← object_bytes obj;
      o ← string endp a s spec o;
      continue spec args o
  | FORMAT_TYPE_PTR =>
      '(a, obj, args) ← va_ptr args;
      ext ← ptr_add fmt 1;
      o ← pointer env ext endp a obj spec o;
      fmt ← skip_alnum fmt;
      Ret (PState fmt spec args o (ps_nrchars st))
  | FORMAT_TYPE_PERCENT_CHAR | FORMAT_TYPE_INVALID =>
      o ← put endp (chr "%") o; continue spec args o
  | FORMAT_TYPE_NRCHARS =>
      '(a, obj, args) ← va_ptr args;
      Ret (PState fmt spec args o ((a, u32 (pos o)) :: ps_nrchars st))
  | t =>
      '(num, args) ← va_number t args;
      o ← number endp num spec o;
      continue spec args o
  end.

(** [None] when the fuel runs out; PrintfSpec.v shows that it does not *)
Fixpoint vsnprintf_loop (fuel : nat) (env : printf_env) (endp : Z) (st : pstate) :
    option (cres pstate) :=
  match ps_fmt st with
  | [] => Some UB
  | c :: _ =>
      if c =? 0 then Some (Ret st)
      else match fuel with
      | O => None
      | S fuel =>
          match vsnprintf_step env endp st with
          | Ret st => vsnprintf_loop fuel env endp st
          | Err e => Some (Err e)
          | UB => Some UB
          end
      end
  end.

(** [buf] is the address of the buffer, [m] its memory. Returns the memory,
    the stores of [%n] and the length of the whole text. *)
Definition vsnprintf (env : printf_env) (buf size : Z) (m fmt : list Z)
    (args : list va_val) : option (cres (list Z * list (Z * Z) * Z)) :=
  if s32 size <? 0 then Some (Ret (m, [], 0))
  else
    let endp := if u32 (buf + size) <? buf then 2 ^ 32 - 1 - buf else size in
    match vsnprintf_loop (2 * length fmt) env endp
            (PState fmt spec0 args (Outbuf m 0) []) with
    | None => None
    | Some r => Some (
        st ← r;
        let o := ps_out st in
        m ← (if 0 <? endp then
               array_set (mem o) (if pos o <? endp then pos o else endp - 1) 0
             else Ret (mem o));
        Ret (m, ps_nrchars st, s32 (pos o)))
    end.

(** what was stored, without the terminator *)
Definition vscnprintf (env : printf_env) (buf size : Z) (m fmt : list Z)
    (args : list va_val) : option (cres (list Z * list (Z * Z) * Z)) :=
  match vsnprintf env buf size m fmt args with
  | None => None
  | Some r => Some (
      '(m, nr, i) ← r;
      Ret (m, nr, if u32 i <? size then i
                  else if negb (size =? 0) then s32 (size - 1) else 0))
  end.
