(* ===== verification/PrintfDigits.v ===== *)
(** * The digits vsnprintf writes

    [put_dec] (lib/vsprintf.c) extracts decimal digits from the nibbles of the
    number with multiplications and shifts. Here it is compared with the
    reference, repeated division ([rev_digits]); the same for the shifting loop
    of bases 8 and 16. *)

From stdpp Require Import strings.
Import Ascii.AsciiSyntax.
From S2P Require Import Prelude Kstrtox Printf.

(** ** Decimal digits *)

(** the digits of [n] in base [b], least significant first: division by [b] *)
Fixpoint radix_digits (fuel : nat) (b n : Z) : list Z :=
  match fuel with
  | O => []
  | S fuel => n `mod` b :: (if n / b =? 0 then [] else radix_digits fuel b (n / b))
  end.
(** enough for 64 bits in any base *)
Definition rev_digits (b n : Z) : list Z := radix_digits 64 b n.
Arguments rev_digits : simpl never.
Definition dec_char (d : Z) : Z := d + 48.

(** the quotients by ten of the two multiplications *)
Lemma div10_cd x : 0 ≤ x < 1024 → Z.shiftr (u32 (x * 0xcd)) 11 = x / 10.
Proof.
  intros Hx. rewrite u32_id by (unfold is_u32; lia).
  rewrite Z.shiftr_div_pow2 by lia. change (2 ^ 11) with 2048.
  Z.div_mod_to_equations. lia.
Qed.
Lemma div10_d x : 0 ≤ x < 69 → Z.shiftr (u32 (x * 0xd)) 7 = x / 10.
Proof.
  intros Hx. rewrite u32_id by (unfold is_u32; lia).
  rewrite Z.shiftr_div_pow2 by lia. change (2 ^ 7) with 128.
  Z.div_mod_to_equations. lia.
Qed.

Lemma rem10 x : 0 ≤ x < 2 ^ 32 → u32 (x - 10 * (x / 10)) = x `mod` 10.
Proof.
  intros Hx. rewrite u32_id; [|unfold is_u32]; Z.div_mod_to_equations; lia.
Qed.

Lemma lput_dec cap buf d :
  0 ≤ d < 10 → lput cap (u8 (d + chr "0")) buf =
  if zlength buf <? cap then Ret (buf ++ [dec_char d]) else UB.
Proof.
  intros Hd. unfold lput, dec_char. change (chr "0") with 48.
  by rewrite u8_id by (unfold is_u8; lia).
Qed.

(** the four nibbles [d0 .. d3] of the argument, and the numbers the routine
    computes from them *)
Record nibbles (q d0 d1 d2 d3 : Z) : Prop := {
  nib_q : q = 4096 * d3 + 256 * d2 + 16 * d1 + d0;
  nib_0 : 0 ≤ d0 < 16; nib_1 : 0 ≤ d1 < 16; nib_2 : 0 ≤ d2 < 16; nib_3 : 0 ≤ d3 < 25
}.
Lemma nibbles_of q : 0 ≤ q < 100000 →
  nibbles q (Z.land q 0xf) (Z.land (Z.shiftr q 4) 0xf) (Z.land (Z.shiftr q 8) 0xf)
    (Z.shiftr q 12).
Proof.
  intros Hq. change 0xf with (Z.ones 4). rewrite !Z.land_ones, !Z.shiftr_div_pow2 by lia.
  change (2 ^ 4) with 16. change (2 ^ 8) with 256. change (2 ^ 12) with 4096.
  split; Z.div_mod_to_equations; lia.
Qed.


(** writing several characters to a local array *)
Definition append (cap : Z) (buf l : list Z) : cres (list Z) :=
  if zlength buf + zlength l <=? cap then Ret (buf ++ l) else UB.

Lemma append_cons cap buf c l :
  (buf ← lput cap c buf; append cap buf l) = append cap buf (c :: l).
Proof.
  unfold lput, append. pose proof (zlength_nonneg l). autorewrite with zlen.
  destruct (Z.ltb_spec (zlength buf) cap); cbn.
  - rewrite zlength_app, zlength_cons, zlength_nil, <- app_assoc.
    by replace (zlength buf + (1 + 0) + zlength l) with (zlength buf + (1 + zlength l)) by lia.
  - by rewrite (proj2 (Z.leb_gt _ _)) by lia.
Qed.
Lemma bind_lput cap c buf l k :
  (∀ b, zlength b ≤ cap → k b = append cap b l) →
  lput cap c buf ≫= k = append cap buf (c :: l).
Proof.
  intros Hk. rewrite <- append_cons. unfold lput.
  destruct (Z.ltb_spec (zlength buf) cap); cbn; [|done].
  apply Hk. autorewrite with zlen. lia.
Qed.
Lemma append_nil cap buf : zlength buf ≤ cap → Ret buf = append cap buf [].
Proof.
  intros. unfold append. autorewrite with zlen.
  by rewrite (proj2 (Z.leb_le _ _)), app_nil_r by lia.
Qed.
Lemma append_app cap buf l k :
  (buf ← append cap buf l; append cap buf k) = append cap buf (l ++ k).
Proof.
  unfold append. pose proof (zlength_nonneg k). autorewrite with zlen.
  destruct (Z.leb_spec (zlength buf + zlength l) cap); cbn.
  - rewrite zlength_app, app_assoc, Z.add_assoc. done.
  - by rewrite (proj2 (Z.leb_gt _ _)) by lia.
Qed.
Lemma lput_ret cap c buf : lput cap c buf = append cap buf [c].
Proof.
  unfold lput, append. autorewrite with zlen.
  destruct (Z.ltb_spec (zlength buf) cap), (Z.leb_spec (zlength buf + (1 + 0)) cap); (done || lia).
Qed.

Section nibbles.
Context q d0 d1 d2 d3 (Hq : 0 ≤ q < 100000) (Hn : nibbles q d0 d1 d2 d3).
Let a0 := 6 * (d3 + d2 + d1) + d0.
Let a1 := a0 / 10 + 9 * d3 + 5 * d2 + d1.
Let a2 := a1 / 10 + 2 * d2.
Let a3 := a2 / 10 + 4 * d3.

Lemma nib_step0 : 0 ≤ a0 < 1024 ∧ a0 `mod` 10 = q `mod` 10 ∧
  a1 + 10 * (40 * d3 + 2 * d2) = q / 10.
Proof. destruct Hn. unfold a1, a0. Z.div_mod_to_equations. lia. Qed.
Lemma nib_step1 : 0 ≤ a1 < 1024 ∧ a1 `mod` 10 = (q / 10) `mod` 10 ∧
  a2 + 40 * d3 = q / 100.
Proof.
  destruct nib_step0 as (? & _ & H). destruct Hn. clear Hn.
  assert (q / 100 = q / 10 / 10) as -> by by rewrite Z.div_div by lia.
  unfold a2. rewrite <- H. unfold a1, a0 in *. clear H. Z.div_mod_to_equations. lia.
Qed.
Lemma nib_step2 : 0 ≤ a2 < 69 ∧ a2 `mod` 10 = (q / 100) `mod` 10 ∧ a3 = q / 1000.
Proof.
  destruct nib_step1 as (? & _ & H). destruct Hn. clear Hn.
  assert (q / 1000 = q / 100 / 10) as -> by by rewrite Z.div_div by lia.
  unfold a3. rewrite <- H.
  assert (0 ≤ a2 < 69) by (unfold a2, a1, a0 in *; clear H; Z.div_mod_to_equations; lia).
  clear H. Z.div_mod_to_equations. lia.
Qed.
Lemma nib_step3 : 0 ≤ a3 < 1024 ∧ a3 / 10 = q / 10000.
Proof.
  destruct nib_step2 as (? & _ & ->). 
  assert (q / 10000 = q / 1000 / 10) as -> by by rewrite Z.div_div by lia.
  split; [|done]. Z.div_mod_to_equations. lia.
Qed.
End nibbles.

Lemma dec_char_u8 d : 0 ≤ d < 10 → u8 (d + chr "0") = dec_char d.
Proof. intros ?. change (chr "0") with 48. by rewrite u8_id by (unfold is_u8; lia). Qed.

(** replace what the two routines compute by quotients and remainders of [q] *)
Ltac dec_setup q Hq :=
  let Hn := fresh "Hn" in
  pose proof (nibbles_of q Hq) as Hn;
  let d0 := fresh "d0" in set (d0 := Z.land q 0xf) in *;
  let d1 := fresh "d1" in set (d1 := Z.land (Z.shiftr q 4) 0xf) in *;
  let d2 := fresh "d2" in set (d2 := Z.land (Z.shiftr q 8) 0xf) in *;
  let d3 := fresh "d3" in set (d3 := Z.shiftr q 12) in *;
  let B0 := fresh "B" in let E0 := fresh "E" in let F0 := fresh "F" in
  destruct (nib_step0 q d0 d1 d2 d3 Hq Hn) as (B0 & E0 & F0);
  let B1 := fresh "B" in let E1 := fresh "E" in let F1 := fresh "F" in
  destruct (nib_step1 q d0 d1 d2 d3 Hq Hn) as (B1 & E1 & F1);
  let B2 := fresh "B" in let E2 := fresh "E" in let E3 := fresh "E" in
  destruct (nib_step2 q d0 d1 d2 d3 Hq Hn) as (B2 & E2 & E3);
  let B3 := fresh "B" in let E4 := fresh "E" in
  destruct (nib_step3 q d0 d1 d2 d3 Hq Hn) as (B3 & E4);
  cbv zeta;
  rewrite (u32_id (6 * _ + d0)) by (unfold is_u32; lia);
  rewrite (div10_cd (6 * _ + d0)) by done;
  rewrite (u32_id (_ + 9 * d3 + _ + _)) by (unfold is_u32; lia);
  rewrite (div10_cd (_ + 9 * d3 + _ + _)) by done;
  rewrite (u32_id (_ + 2 * d2)) by (unfold is_u32; lia);
  rewrite (div10_d (_ + 2 * d2)) by done;
  rewrite (u32_id (_ + 4 * d3)) by (unfold is_u32; lia);
  rewrite (div10_cd (_ + 4 * d3)) by done;
  rewrite !rem10 by lia; rewrite E0, E1, E2, E4, E3;
  rewrite !dec_char_u8 by (Z.div_mod_to_equations; lia).

Lemma put_dec_full_spec cap buf q : 0 ≤ q < 100000 →
  put_dec_full cap buf q = append cap buf (dec_char <$>
    [q `mod` 10; (q / 10) `mod` 10; (q / 100) `mod` 10; (q / 1000) `mod` 10; q / 10000]).
Proof.
  intros Hq. unfold put_dec_full. dec_setup q Hq.
  do 4 (apply bind_lput; intros). apply lput_ret.
Qed.

Lemma eqb_iff a b c d : (a = b ↔ c = d) → (a =? b) = (c =? d).
Proof. intros H. apply eq_true_iff_eq. rewrite !Z.eqb_eq. done. Qed.

(** the truncated routine stops where the quotient is zero *)
Lemma put_dec_trunc_spec cap buf q : 0 ≤ q < 100000 →
  put_dec_trunc cap buf q = append cap buf (dec_char <$> rev_digits 10 q).
Proof.
  intros Hq. unfold put_dec_trunc. dec_setup q Hq.
  assert (q / 10 / 10 = q / 100) as D2 by by rewrite Z.div_div.
  assert (q / 100 / 10 = q / 1000) as D3 by by rewrite Z.div_div.
  assert (q / 1000 / 10 = q / 10000) as D4 by by rewrite Z.div_div.
  assert (q / 10000 / 10 = 0) as D5 by (Z.div_mod_to_equations; lia).
  set (a1 := _ + 9 * d3 + _ + _) in *. set (a2 := a1 / 10 + 2 * d2) in *.
  destruct Hn as [_ N0 N1 N2 N3].
  assert (9 * d3 + 5 * d2 ≤ a1) by (unfold a1; Z.div_mod_to_equations; lia).
  rewrite (eqb_iff a1 0 (q / 10) 0) by lia.
  assert (negb (a2 =? 0) || negb (d3 =? 0) = negb (q / 100 =? 0)) as ->.
  { apply eq_true_iff_eq. rewrite orb_true_iff, !negb_true_iff, !Z.eqb_neq. lia. }
  unfold rev_digits. cbn [radix_digits fmap list_fmap].
  rewrite D2, D3, D4, D5. cbn [Z.eqb].
  rewrite (Z.mod_small (q / 10000)) by (Z.div_mod_to_equations; lia).
  apply bind_lput. intros b1 H1. destruct (q / 10 =? 0); [by apply append_nil|].
  apply bind_lput. intros b2 H2. destruct (q / 100 =? 0); [by apply append_nil|].
  apply bind_lput. intros b3 H3. destruct (q / 1000 =? 0); [by apply append_nil|].
  apply bind_lput. intros b4 H4. destruct (q / 10000 =? 0); [by apply append_nil|].
  apply lput_ret.
Qed.

(** *** The reference digits *)
Lemma radix_digits_fuel f g b n :
  2 ≤ b → 0 ≤ n → n < 2 ^ Z.of_nat f → n < 2 ^ Z.of_nat g → n ≠ 0 →
  radix_digits f b n = radix_digits g b n.
Proof.
  intros Hb. revert g n. induction f as [|f IH]; intros g n Hn Hf Hg Hnz.
  { change (2 ^ Z.of_nat 0) with 1 in Hf. lia. }
  destruct g as [|g]; [change (2 ^ Z.of_nat 0) with 1 in Hg; lia|]. simpl.
  f_equal. destruct (Z.eqb_spec (n / b) 0); [done|].
  rewrite Nat2Z.inj_succ, Z.pow_succ_r in Hf, Hg by lia.
  apply IH; [apply Z.div_pos; lia|apply Z.div_lt_upper_bound; nia..|done].
Qed.

Lemma radix_digits_five f n : 100000 ≤ n →
  radix_digits (5 + f) 10 n =
  [n `mod` 10; (n / 10) `mod` 10; (n / 100) `mod` 10; (n / 1000) `mod` 10;
   (n / 10000) `mod` 10] ++ radix_digits f 10 (n / 100000).
Proof.
  intros Hn. cbn [radix_digits Nat.add app]. rewrite !Z.div_div by lia.
  rewrite !(proj2 (Z.eqb_neq _ 0)); [done|..];
    match goal with |- n / ?k ≠ 0 => pose proof (Z.div_str_pos n k) end; lia.
Qed.

Lemma five_digits n : 0 ≤ n →
  let r := n `mod` 100000 in
  [r `mod` 10; (r / 10) `mod` 10; (r / 100) `mod` 10; (r / 1000) `mod` 10; r / 10000] =
  [n `mod` 10; (n / 10) `mod` 10; (n / 100) `mod` 10; (n / 1000) `mod` 10;
   (n / 10000) `mod` 10].
Proof.
  intros Hn r. subst r.
  assert (∀ a c, 0 < a → 0 < c → n `mod` (a * c) / a = (n / a) `mod` c) as Hd.
  { intros a c ??. rewrite Z.rem_mul_r, (Z.mul_comm a), Z.div_add by lia.
    rewrite (Z.div_small (n `mod` a)) by (apply Z.mod_pos_bound; lia). lia. }
  assert (∀ x c, (10 | c) → 0 < c → (x `mod` c) `mod` 10 = x `mod` 10) as Hm.
  { intros x c ??. apply Z.mod_mod_divide. done. }
  pose proof (Hd 10 10000) as H1. pose proof (Hd 100 1000) as H2.
  pose proof (Hd 1000 100) as H3. pose proof (Hd 10000 10) as H4. 
  change (10 * 10000) with 100000 in H1. change (100 * 1000) with 100000 in H2.
  change (1000 * 100) with 100000 in H3. change (10000 * 10) with 100000 in H4.
  rewrite H1, H2, H3, H4 by lia.
  by rewrite (Hm n 100000), (Hm (n / 10) 10000), (Hm (n / 100) 1000),
    (Hm (n / 1000) 100) by (done || by apply Z.mod_divide).
Qed.

Lemma put_dec_loop_spec fuel cap buf num :
  0 ≤ num < 100000 ^ (1 + Z.of_nat fuel) → num < 2 ^ 64 →
  put_dec_loop fuel cap buf num = append cap buf (dec_char <$> rev_digits 10 num).
Proof.
  revert buf num. induction fuel as [|fuel IH]; intros buf num Hn H64.
  - change (100000 ^ (1 + Z.of_nat 0)) with 100000 in Hn. cbn [put_dec_loop].
    rewrite (proj2 (Z.ltb_lt _ _)) by lia. by apply put_dec_trunc_spec.
  - cbn [put_dec_loop]. destruct (Z.ltb_spec num 100000); [apply put_dec_trunc_spec; lia|].
    rewrite put_dec_full_spec by (apply Z.mod_pos_bound; lia).
    rewrite five_digits by lia. unfold rev_digits.
    change 64%nat with (5 + 59)%nat. rewrite radix_digits_five, fmap_app, <- append_app by lia.
    destruct (append _ _ _) as [b| |]; cbn [mbind cres_bind]; [|done..].
    rewrite Nat2Z.inj_succ, <- Z.add_1_l, (Z.pow_add_r _ 1) in Hn by lia.
    rewrite IH; [|split; [apply Z.div_pos; lia|apply Z.div_lt_upper_bound; lia]|].
    2: { apply Z.div_lt_upper_bound; lia. }
    unfold rev_digits. rewrite (radix_digits_fuel 64 59); [reflexivity|lia|..].
    + apply Z.div_pos; lia.
    + apply Z.div_lt_upper_bound; lia.
    + apply Z.div_lt_upper_bound; [lia|]. change (2 ^ Z.of_nat 59) with (2 ^ 59). lia.
    + Z.div_mod_to_equations. lia.
Qed.

Lemma put_dec_spec cap buf num : is_u64 num →
  put_dec cap buf num = append cap buf (dec_char <$> rev_digits 10 num).
Proof.
  unfold is_u64. intros Hn. apply put_dec_loop_spec; [|lia].
  change (100000 ^ (1 + Z.of_nat 4)) with (10 ^ 25). lia.
Qed.

(** *** The digits of other bases *)
Definition digit_char (locase d : Z) : Z :=
  Z.lor (default 0 (number_digits !! Z.to_nat d)) locase.

Lemma number_shift_spec fuel sh locase num tmp :
  sh = 3 ∨ sh = 4 → 0 ≤ num < 2 ^ (3 * Z.of_nat fuel) → num < 2 ^ 64 → (0 < fuel)%nat →
  number_shift_loop fuel (2 ^ sh - 1) sh locase num tmp =
  append 66 tmp (digit_char locase <$> rev_digits (2 ^ sh) num).
Proof.
  intros Hsh. revert num tmp. unfold rev_digits.
  induction fuel as [|fuel IH]; intros num tmp Hn H64 Hf; [lia|].
  assert (8 ≤ 2 ^ sh ≤ 16) as Hb by (destruct Hsh; subst; simpl; lia).
  change 64%nat with (S 63). cbn [number_shift_loop radix_digits fmap list_fmap].
  replace (Z.land (u8 num) (2 ^ sh - 1)) with (num `mod` 2 ^ sh).
  2: { rewrite Z.sub_1_r, <- (Z.ones_equiv sh), Z.land_ones by lia. unfold u8.
       rewrite Z.mod_mod_divide; [done|]. destruct Hsh; subst; by apply Z.mod_divide. }
  pose proof (Z.mod_pos_bound num (2 ^ sh)) as Hm.
  destruct (array_get_in number_digits (num `mod` 2 ^ sh)) as (d & -> & Hd).
  { change (zlength number_digits) with 16. lia. }
  cbn [mbind cres_bind].
  assert (digit_char locase (num `mod` 2 ^ sh) = Z.lor d locase) as <-.
  { unfold digit_char. unfold zlookup in Hd. rewrite (proj2 (Z.leb_le _ _)) in Hd by lia.
    by rewrite Hd. }
  apply bind_lput. intros b Hbl.
  rewrite Z.shiftr_div_pow2 by lia. unfold truth.
  destruct (Z.eqb_spec (num / 2 ^ sh) 0) as [H0|H0]; cbn [negb]; [by apply append_nil|].
  assert (0 ≤ num / 2 ^ sh) by (apply Z.div_pos; lia).
  assert (num / 2 ^ sh < 2 ^ (3 * Z.of_nat fuel)).
  { apply Z.div_lt_upper_bound; [lia|]. eapply Z.lt_le_trans; [apply Hn|].
    replace (3 * Z.of_nat (S fuel)) with (3 + 3 * Z.of_nat fuel) by lia.
    rewrite Z.pow_add_r by lia. change (2 ^ 3) with 8.
    assert (0 < 2 ^ (3 * Z.of_nat fuel)) by (apply Z.pow_pos_nonneg; lia). nia. }
  assert (num / 2 ^ sh < 2 ^ 61) by (apply Z.div_lt_upper_bound; lia).
  rewrite IH; [|lia|lia|].
  - rewrite (radix_digits_fuel 64 63); [reflexivity|lia..].
  - destruct fuel; [|lia]. change (2 ^ (3 * Z.of_nat 0)) with 1 in *. lia.
Qed.

(** *** The digits denote the number *)
Lemma value_app b ds v : value b (ds ++ [v]) = value b ds * b + v.
Proof. unfold value, value_from. by rewrite foldl_app. Qed.

Lemma radix_digits_value f b n :
  2 ≤ b → 0 ≤ n < 2 ^ Z.of_nat f → value b (rev (radix_digits f b n)) = n.
Proof.
  intros Hb. revert n. induction f as [|f IH]; intros n Hn.
  { change (2 ^ Z.of_nat 0) with 1 in Hn. change (value b (rev (radix_digits 0 b n))) with 0. lia. }
  cbn [radix_digits rev]. rewrite value_app.
  rewrite Nat2Z.inj_succ, Z.pow_succ_r in Hn by lia.
  pose proof (Z.div_mod n b). destruct (Z.eqb_spec (n / b) 0) as [H0|H0].
  - change (value b (rev [])) with 0. nia.
  - rewrite IH; [lia|]. split; [apply Z.div_pos; lia|apply Z.div_lt_upper_bound; nia].
Qed.

Lemma radix_digits_range f b n :
  2 ≤ b → Forall (λ d, 0 ≤ d < b) (radix_digits f b n).
Proof.
  intros Hb. revert n. induction f as [|f IH]; intros n; [constructor|].
  cbn [radix_digits]. constructor; [apply Z.mod_pos_bound; lia|]. case_test; auto.
Qed.

Lemma rev_digits_pos b n : 1 ≤ zlength (rev_digits b n).
Proof.
  unfold rev_digits. change 64%nat with (S 63). cbn [radix_digits]. rewrite zlength_cons.
  match goal with |- context [zlength ?l] => pose proof (zlength_nonneg l) end. lia.
Qed.

Lemma radix_digits_bound f b (k : nat) n :
  2 ≤ b → 0 ≤ n < b ^ (1 + Z.of_nat k) → zlength (radix_digits f b n) ≤ 1 + Z.of_nat k.
Proof.
  intros Hb. revert f n. induction k as [|k IH]; intros f n Hn;
    (destruct f as [|f]; [unfold zlength; simpl; lia|]); cbn [radix_digits];
    rewrite zlength_cons; (destruct (Z.eqb_spec (n / b) 0) as [|H0]; [unfold zlength; simpl; lia|]).
  - change (1 + Z.of_nat 0) with 1 in Hn. rewrite Z.pow_1_r in Hn.
    rewrite Z.div_small in H0 by lia. lia.
  - replace (1 + Z.of_nat (S k)) with (1 + (1 + Z.of_nat k)) in Hn by lia.
    rewrite (Z.pow_add_r _ 1), Z.pow_1_r in Hn by lia.
    assert (zlength (radix_digits f b (n / b)) ≤ 1 + Z.of_nat k); [|lia]. apply IH.
    split; [apply Z.div_pos; lia|apply Z.div_lt_upper_bound; lia].
Qed.

Lemma rev_digits_length b n : 8 ≤ b → is_u64 n → 1 ≤ zlength (rev_digits b n) ≤ 22.
Proof.
  intros Hb Hn. split; [apply rev_digits_pos|].
  apply (radix_digits_bound 64 b 21); [lia|]. unfold is_u64 in Hn.
  change (1 + Z.of_nat 21) with 22. assert (8 ^ 22 ≤ b ^ 22) by (apply Z.pow_le_mono_l; lia).
  lia.
Qed.

(** C23: the division-free decimal conversion is division by ten: for every 64
    bit number [put_dec] writes the remainders by ten, least significant digit
    first and without a leading zero, or overruns the array exactly when they
    do not fit; and these digits denote the number. *)
Theorem put_dec_digits cap buf num : is_u64 num →
  put_dec cap buf num = append cap buf (dec_char <$> rev_digits 10 num) ∧
  value 10 (rev (rev_digits 10 num)) = num.
Proof.
  intros Hn. split; [by apply put_dec_spec|]. apply radix_digits_value; [lia|done].
Qed.

Lemma put_dec_digits_witness :
  put_dec 66 [] (2 ^ 64 - 1) = Ret (rev (bytes "18446744073709551615")).
Proof.
  destruct (put_dec_digits 66 [] (2 ^ 64 - 1)) as [H _]; [done|].
  etransitivity; [exact H|]. vm_compute. reflexivity.
Defined.
