(* ===== verification/PrintfSpec.v ===== *)
(** * What vsnprintf writes

    Each writer of Printf.v writes a text that does not depend on the buffer,
    cut off at the end of the buffer ([emit]). [number_writes] gives the text of
    a number, [vsnprintf_text] puts the writers together. *)

From stdpp Require Import strings.
Import Ascii.AsciiSyntax.
From S2P Require Import Prelude Kstrtox Printf PrintfDigits.

(** ** Writing a text *)
Definition emit1 (endp : Z) (o : outbuf) (c : Z) : outbuf :=
  Outbuf (if pos o <? endp then <[Z.to_nat (pos o) := c]> (mem o) else mem o) (pos o + 1).
Definition emit (endp : Z) (text : list Z) (o : outbuf) : outbuf :=
  foldl (emit1 endp) o text.
(** the object holds the next [n] characters as far as they are below [endp] *)
Definition room (endp n : Z) (o : outbuf) : Prop :=
  0 ≤ pos o ∧ Z.min endp (pos o + n) ≤ zlength (mem o).
Definition writes (f : Z → outbuf → cres outbuf) (text : list Z) : Prop :=
  ∀ endp o, room endp (zlength text) o → f endp o = Ret (emit endp text o).

Lemma emit_pos endp text o : pos (emit endp text o) = pos o + zlength text.
Proof.
  revert o. induction text as [|c text IH]; intros o; [unfold zlength; simpl; lia|].
  rewrite zlength_cons. change (emit endp (c :: text) o) with (emit endp text (emit1 endp o c)).
  rewrite IH. simpl. lia.
Qed.
Lemma emit_length endp text o : zlength (mem (emit endp text o)) = zlength (mem o).
Proof.
  revert o. induction text as [|c text IH]; intros o; [done|].
  change (emit endp (c :: text) o) with (emit endp text (emit1 endp o c)).
  rewrite IH. unfold emit1. simpl. case_test; [apply zlength_insert|done].
Qed.
Lemma emit_app endp t1 t2 o : emit endp (t1 ++ t2) o = emit endp t2 (emit endp t1 o).
Proof. unfold emit. by rewrite foldl_app. Qed.

Lemma room_app endp n t1 o :
  room endp (zlength t1 + n) o → 0 ≤ n →
  room endp (zlength t1) o ∧ room endp n (emit endp t1 o).
Proof.
  unfold room. rewrite emit_pos, emit_length. pose proof (zlength_nonneg t1). lia.
Qed.
Lemma room_mono endp n m o : room endp n o → m ≤ n → room endp m o.
Proof. unfold room. lia. Qed.

Lemma put_room endp c o : room endp 1 o → put endp c o = Ret (emit endp [c] o).
Proof.
  unfold room, put. intros [Hp Hm]. simpl. unfold emit1.
  destruct (Z.ltb_spec (pos o) endp); [|done]. by rewrite array_set_in by lia.
Qed.

Lemma put_all_writes text : writes (λ endp, put_all endp text) text.
Proof.
  intros endp o. unfold put_all. revert o. induction text as [|c text IH]; intros o Hr; [done|].
  rewrite zlength_cons in Hr. destruct (room_app endp (zlength text) [c] o) as [H1 H2].
  { done. } { apply zlength_nonneg. }
  simpl. rewrite put_room by done. cbn [mbind cres_bind]. by rewrite IH.
Qed.

(** what a text leaves in memory *)
Lemma emit_lookup endp text o i :
  0 ≤ pos o → Z.min endp (pos o + zlength text) ≤ zlength (mem o) → 0 ≤ i →
  zlookup (mem (emit endp text o)) i =
  if (pos o <=? i) && (i <? Z.min endp (pos o + zlength text))
  then zlookup text (i - pos o) else zlookup (mem o) i.
Proof.
  revert o. induction text as [|c text IH]; intros o Hp Hm Hi.
  { rewrite zlength_nil, Z.add_0_r. simpl.
    destruct (Z.leb_spec (pos o) i), (Z.ltb_spec i (Z.min endp (pos o))); simpl; (done || lia). }
  rewrite zlength_cons in *. change (emit endp (c :: text) o) with (emit endp text (emit1 endp o c)).
  pose proof (zlength_nonneg text).
  assert (zlength (mem (emit1 endp o c)) = zlength (mem o)) as Hl by apply (emit_length endp [c]).
  rewrite IH by (rewrite ?Hl; simpl; lia). unfold emit1; simpl.
  replace (pos o + 1 + zlength text) with (pos o + (1 + zlength text)) by lia.
  destruct (Z.eq_dec i (pos o)) as [->|Hne].
  - rewrite (proj2 (Z.leb_gt _ _)), (proj2 (Z.leb_le (pos o) _)) by lia. simpl.
    rewrite Z.sub_diag. change (zlookup (c :: text) 0) with (Some c).
    destruct (Z.ltb_spec (pos o) endp).
    + rewrite (proj2 (Z.ltb_lt _ _)) by lia. apply zlookup_insert_eq. lia.
    + by rewrite (proj2 (Z.ltb_ge _ _)) by lia.
  - destruct (Z.leb_spec (pos o) i).
    + rewrite (proj2 (Z.leb_le (pos o + 1) _)) by lia. simpl. case_test.
      * rewrite (zlookup_cons_pos c) by lia. f_equal. lia.
      * destruct (pos o <? endp); [|done]. apply zlookup_insert_ne; lia.
    + rewrite (proj2 (Z.leb_gt (pos o + 1) _)) by lia. simpl.
      destruct (pos o <? endp); [|done]. apply zlookup_insert_ne; lia.
Qed.

(** ** Counting loops *)
Fixpoint rounds (fuel : nat) (cont : Z → Z → bool) (n : Z) : option (nat * Z) :=
  match fuel with
  | O => None
  | S fuel =>
      let n' := s16 (n - 1) in
      if cont n n'
      then match rounds fuel cont n' with Some (k, m) => Some (S k, m) | None => None end
      else Some (O, n')
  end.
(** how many characters the loop writes, and the last value of its variable *)
Definition count_rounds (cont : Z → Z → bool) (n : Z) : nat * Z :=
  default (O, 0) (rounds (S (Z.to_nat (Z.max n (s16 (n - 1)) + 1))) cont n).
(** the loop goes on only while the variable stays nonnegative *)
Definition stops (cont : Z → Z → bool) : Prop :=
  ∀ n, is_s16 n → cont n (s16 (n - 1)) = true → 0 ≤ s16 (n - 1).

Lemma rounds_total cont fuel n :
  stops cont → 0 ≤ n < 2 ^ 15 → (Z.to_nat n < fuel)%nat → is_Some (rounds fuel cont n).
Proof.
  intros Hc. revert n. induction fuel as [|fuel IH]; intros n Hn Hf; [lia|]. simpl.
  assert (is_s16 n) as Hs by (unfold is_s16; lia).
  destruct (cont n (s16 (n - 1))) eqn:E; [|done]. apply Hc in E; [|done].
  rewrite s16_id in E |- * by (unfold is_s16; lia).
  destruct (IH (n - 1)) as [[k m] ->]; [lia..|done].
Qed.

Lemma count_rounds_total cont n : stops cont → is_s16 n →
  rounds (S (Z.to_nat (Z.max n (s16 (n - 1)) + 1))) cont n = Some (count_rounds cont n).
Proof.
  intros Hc Hn. unfold count_rounds. cbn [rounds].
  destruct (cont n (s16 (n - 1))) eqn:E; [|done]. apply Hc in E; [|done].
  pose proof (s16_range (n - 1)) as Hs. unfold is_s16 in Hs.
  destruct (rounds_total cont (Z.to_nat (Z.max n (s16 (n - 1)) + 1)) (s16 (n - 1)) Hc)
    as [[k m] ->]; [lia..|done].
Qed.

Lemma rounds_s16 cont fuel n k m : rounds fuel cont n = Some (k, m) → is_s16 m.
Proof.
  revert n k. induction fuel as [|fuel IH]; intros n k; simpl; [done|].
  destruct (cont _ _); [|intros [= _ <-]; apply s16_range].
  destruct (rounds fuel cont _) as [[k' m']|] eqn:E; [|done]. intros [= _ <-]. by eapply IH.
Qed.
Lemma count_rounds_s16 cont n : stops cont → is_s16 n → is_s16 (count_rounds cont n).2.
Proof.
  intros Hc Hn. pose proof (count_rounds_total cont n Hc Hn) as H.
  destruct (count_rounds cont n). by eapply rounds_s16.
Qed.

Lemma count_down_loop_emits cont endp c fuel n k m o :
  rounds fuel cont n = Some (k, m) → room endp (Z.of_nat k) o →
  count_down_loop fuel cont endp c n o = Ret (emit endp (replicate k c) o, m).
Proof.
  revert n k o. induction fuel as [|fuel IH]; intros n k o; simpl; [done|].
  destruct (cont _ _); [|intros [= <- <-] _; done].
  destruct (rounds fuel cont _) as [[k' m']|] eqn:E; [|done].
  intros [= <- <-] Hr. destruct (room_app endp (Z.of_nat k') [c] o) as [H1 H2].
  { eapply room_mono; [done|]. autorewrite with zlen. lia. } { lia. }
  rewrite put_room by done. cbn [mbind cres_bind]. by erewrite IH.
Qed.

Lemma count_down_emits cont endp c n o :
  stops cont → is_s16 n → room endp (Z.of_nat (count_rounds cont n).1) o →
  count_down cont endp c n o =
  Ret (emit endp (replicate (count_rounds cont n).1 c) o, (count_rounds cont n).2).
Proof.
  intros Hc Hn Hr. unfold count_down. apply count_down_loop_emits; [|done].
  rewrite count_rounds_total by done. by destruct (count_rounds cont n).
Qed.

Lemma stops_pad : stops (λ _ new, 0 <=? new).
Proof. intros n _. rewrite Z.leb_le. done. Qed.
Lemma stops_ge i : 0 ≤ i → stops (λ _ new, i <=? new).
Proof. intros Hi n _. rewrite Z.leb_le. lia. Qed.
Lemma stops_pos : stops (λ _ new, 0 <? new).
Proof. intros n _. rewrite Z.ltb_lt. lia. Qed.
Lemma stops_below len : 0 ≤ len → stops (λ old _, len <? old).
Proof.
  intros Hl n Hn. rewrite Z.ltb_lt. intros ?. unfold is_s16 in Hn.
  rewrite s16_id; unfold is_s16; lia.
Qed.
Create HintDb printf.
#[export] Hint Resolve stops_pad stops_ge stops_pos stops_below s16_range zlength_nonneg : printf.

(** ** Sequences of writers *)
Definition emits (endp : Z) (o : outbuf) (text : list Z) (m : cres outbuf) : Prop :=
  room endp (zlength text) o → m = Ret (emit endp text o).
Definition emits_with {A} (endp : Z) (o : outbuf) (text : list Z) (v : A)
    (m : cres (outbuf * A)) : Prop :=
  room endp (zlength text) o → m = Ret (emit endp text o, v).

Lemma emits_bind endp o t1 t2 m k :
  emits endp o t1 m → emits endp (emit endp t1 o) t2 (k (emit endp t1 o)) →
  emits endp o (t1 ++ t2) (m ≫= k).
Proof.
  intros Hm Hk Hr. rewrite zlength_app in Hr.
  destruct (room_app _ _ _ _ Hr (zlength_nonneg t2)) as [H1 H2].
  rewrite Hm by done. rewrite emit_app. by apply Hk.
Qed.
Lemma emits_with_bind {A} endp o t1 t2 (v : A) m k :
  emits_with endp o t1 v m → emits endp (emit endp t1 o) t2 (k (emit endp t1 o, v)) →
  emits endp o (t1 ++ t2) (m ≫= k).
Proof.
  intros Hm Hk Hr. rewrite zlength_app in Hr.
  destruct (room_app _ _ _ _ Hr (zlength_nonneg t2)) as [H1 H2].
  rewrite Hm by done. rewrite emit_app. by apply Hk.
Qed.
Lemma emits_ret endp o : emits endp o [] (Ret o).
Proof. done. Qed.
Lemma emits_with_ret {A} endp o (v : A) : emits_with endp o [] v (Ret (o, v)).
Proof. done. Qed.
Lemma emits_if endp o (b : bool) t m :
  emits endp o t m → emits endp o (if b then t else []) (if b then m else Ret o).
Proof. by destruct b. Qed.
Lemma emits_put endp o c : emits endp o [c] (put endp c o).
Proof. intros Hr. by apply put_room. Qed.
Lemma emits_put_all endp o text : emits endp o text (put_all endp text o).
Proof. intros Hr. by apply (put_all_writes text). Qed.
Lemma emits_count_down cont endp c n o : stops cont → is_s16 n →
  emits_with endp o (replicate (count_rounds cont n).1 c) (count_rounds cont n).2
    (count_down cont endp c n o).
Proof.
  intros Hc Hn Hr. apply count_down_emits; [done..|]. unfold zlength in Hr.
  by rewrite length_replicate in Hr.
Qed.
#[export] Hint Resolve emits_ret emits_with_ret emits_put emits_put_all : printf.

(** ** number *)
Definition pad_rounds : Z → nat * Z := count_rounds (λ _ new, 0 <=? new).

(** the text, whatever the widths are *)
Definition number_put_text (sign locase : Z) (need_pfx : bool) (tmp : list Z)
    (spec : printf_spec) : list Z :=
  let i := zlength tmp in
  let spec := if precision spec <? i then set_precision i spec else spec in
  let fw := s16 (field_width spec - precision spec) in
  let lead := if negb (has spec (ZEROPAD + LEFT)) then pad_rounds fw else (O, fw) in
  let mid := if negb (has spec LEFT) then pad_rounds lead.2 else (O, lead.2) in
  replicate lead.1 (chr " ") ++
  (if truth sign then [sign] else []) ++
  (if need_pfx then [chr "0"] ++ (if base spec =? 16 then [Z.lor (chr "X") locase] else [])
   else []) ++
  replicate mid.1 (if has spec ZEROPAD then chr "0" else chr " ") ++
  replicate (count_rounds (λ _ new, i <=? new) (precision spec)).1 (chr "0") ++
  rev tmp ++
  replicate (pad_rounds mid.2).1 (chr " ") ++ [].

Lemma emits_pad_if endp o (b : bool) c n : is_s16 n →
  emits_with endp o (replicate (if b then pad_rounds n else (O, n)).1 c)
    (if b then pad_rounds n else (O, n)).2 (if b then pad endp c n o else Ret (o, n)).
Proof. intros Hn. destruct b; [by apply emits_count_down; auto with printf|done]. Qed.

Lemma pad_if_s16 (b : bool) n : is_s16 n → is_s16 (if b then pad_rounds n else (O, n)).2.
Proof. intros Hn. destruct b; [by apply count_rounds_s16; auto with printf|done]. Qed.

Lemma number_put_emits endp sign locase need_pfx tmp spec o :
  is_s16 (precision spec) →
  emits endp o (number_put_text sign locase need_pfx tmp spec)
    (number_put endp sign locase need_pfx tmp spec o).
Proof.
  intros Hp. unfold number_put, number_put_text. cbv zeta.
  set (spec' := if precision spec <? zlength tmp then _ else spec).
  assert (is_s16 (precision spec')) as Hp'.
  { unfold spec'. case_test; [apply s16_range|done]. }
  change (has (set_field_width _ spec')) with (has spec').
  change (field_width (set_field_width ?x spec')) with (s16 x).
  change (precision (set_field_width _ spec')) with (precision spec').
  change (base (set_field_width _ spec')) with (base spec').
  set (fw := s16 _).
  assert (is_s16 fw) as Hfw by apply s16_range.
  assert (is_s16 (if negb (has spec' (ZEROPAD + LEFT)) then pad_rounds fw else (O, fw)).2)
    as Hfw1 by by apply pad_if_s16.
  eapply emits_with_bind; [by apply emits_pad_if|]. cbn beta iota.
  eapply emits_bind; [apply emits_if; auto with printf|].
  eapply emits_bind.
  { apply emits_if. eapply emits_bind; [auto with printf|]. apply emits_if. auto with printf. }
  eapply emits_with_bind; [by apply emits_pad_if|]. cbn beta iota.
  eapply emits_with_bind; [apply emits_count_down; auto with printf|]. cbn beta iota.
  eapply emits_bind; [auto with printf|].
  eapply emits_with_bind; [|auto with printf].
  apply emits_count_down; [auto with printf|]. by apply pad_if_s16.
Qed.

Lemma rounds_ge i fuel n k m :
  0 ≤ i → - 2 ^ 15 < n < 2 ^ 15 → rounds fuel (λ _ new, i <=? new) n = Some (k, m) →
  k = Z.to_nat (n - i) ∧ m = Z.min (n - 1) (i - 1).
Proof.
  intros Hi. revert n k m. induction fuel as [|fuel IH]; intros n k m Hn; simpl; [done|].
  rewrite s16_id by (unfold is_s16; lia). destruct (Z.leb_spec i (n - 1)).
  - destruct (rounds fuel _ (n - 1)) as [[k' m']|] eqn:E; [|done].
    apply IH in E; [|lia]. intros [= <- <-]. lia.
  - intros [= <- <-]. lia.
Qed.

Lemma count_rounds_ge i n :
  0 ≤ i → - 2 ^ 15 < n < 2 ^ 15 →
  count_rounds (λ _ new, i <=? new) n = (Z.to_nat (n - i), Z.min (n - 1) (i - 1)).
Proof.
  intros Hi Hn. pose proof (count_rounds_total (λ _ new, i <=? new) n (stops_ge i Hi)) as Ht.
  destruct (count_rounds _ n) as [k m].
  by destruct (rounds_ge i _ n k m Hi Hn (Ht ltac:(unfold is_s16; lia))) as [-> ->].
Qed.

(** the one value the 16 bit variable wraps around at *)
Lemma pad_rounds_wrap n :
  n = - 2 ^ 15 → Z.of_nat (count_rounds (λ _ new, 0 <=? new) n).1 = 2 ^ 15.
Proof.
  intros Hn. pose proof (count_rounds_total (λ _ new, 0 <=? new) n stops_pad) as Ht.
  destruct (count_rounds _ n) as [k m]. specialize (Ht ltac:(unfold is_s16; lia)). revert Ht.
  cbn [rounds]. assert (s16 (n - 1) = 2 ^ 15 - 1) as Hs by by subst.
  rewrite (proj2 (Z.leb_le 0 (s16 (n - 1)))) by lia.
  destruct (rounds _ _ (s16 (n - 1))) as [[k' m']|] eqn:E; [|done].
  apply rounds_ge in E as [-> ->]; [|lia..]. intros [= <- <-]. cbn [fst]. lia.
Qed.

(** *** The digits in [tmp] *)
Definition digit_text (b locase num : Z) : list Z := digit_char locase <$> rev_digits b num.
Definition base_ok (b : Z) : Prop := b = 8 ∨ b = 10 ∨ b = 16.

Lemma digit_char_dec locase d : 0 ≤ d < 10 → locase = 0 ∨ locase = SMALL →
  digit_char locase d = dec_char d.
Proof.
  intros Hd Hl. assert (d ∈ [0; 1; 2; 3; 4; 5; 6; 7; 8; 9]) as H.
  { rewrite !elem_of_cons. lia. }
  clear Hd. repeat (apply elem_of_cons in H as [->|H]; [by destruct Hl; subst|]).
  by apply elem_of_nil in H.
Qed.

Lemma locase_cases f : Z.land f SMALL = 0 ∨ Z.land f SMALL = SMALL.
Proof.
  assert (Z.land f SMALL = if Z.testbit f 5 then SMALL else 0) as ->; [|case_match; auto].
  change SMALL with (2 ^ 5). apply Z.bits_inj'. intros i Hi.
  rewrite Z.land_spec, Z.pow2_bits_eqb by lia. destruct (Z.eqb_spec 5 i) as [<-|Hne].
  - rewrite andb_true_r. by destruct (Z.testbit f 5).
  - rewrite andb_false_r. destruct (Z.testbit f 5); [|by rewrite Z.bits_0].
    rewrite Z.pow2_bits_eqb by lia. symmetry. by apply Z.eqb_neq.
Qed.

Lemma append_empty l : zlength l ≤ 66 → append 66 [] l = Ret l.
Proof. intros. unfold append. by rewrite (proj2 (Z.leb_le _ _)) by done. Qed.

Lemma number_tmp_spec num locase spec :
  base_ok (base spec) → is_u64 num → locase = 0 ∨ locase = SMALL →
  number_tmp num locase spec = Ret (digit_text (base spec) locase num).
Proof.
  intros Hb Hn Hl. unfold number_tmp, digit_text.
  assert (zlength (digit_char locase <$> rev_digits (base spec) num) ≤ 66).
  { rewrite zlength_fmap. destruct (rev_digits_length (base spec) num); [unfold base_ok in Hb; lia|done|lia]. }
  rewrite <- (append_empty _ H). destruct (Z.eqb_spec num 0) as [->|Hnz].
  { unfold rev_digits. rewrite lput_ret. destruct Hb as [->|[->| ->]];
      (change (radix_digits 64 _ 0) with [0]; cbn; by destruct Hl; subst). }
  unfold is_u64 in Hn. destruct (Z.eqb_spec (base spec) 10) as [->|H10]; cbn [negb].
  - rewrite put_dec_spec by done. f_equal. apply Forall_fmap_ext_1.
    eapply Forall_impl; [apply (radix_digits_range 64 10); lia|]. intros d Hd. symmetry.
    by apply digit_char_dec.
  - destruct Hb as [->|[Hb| ->]]; [|done|]; cbn [Z.eqb Pos.eqb].
    + apply (number_shift_spec 22 3); [lia| |lia..]. change (2 ^ (3 * Z.of_nat 22)) with (2 ^ 66). lia.
    + apply (number_shift_spec 22 4); [lia| |lia..]. change (2 ^ (3 * Z.of_nat 22)) with (2 ^ 66). lia.
Qed.

(** the text of [number], whatever the widths are *)
Definition number_out (num : Z) (spec : printf_spec) : list Z :=
  let need_pfx := has spec SPECIAL && negb (base spec =? 10) in
  let locase := Z.land (flags spec) SMALL in
  let '(sign, num, spec) := number_sign num need_pfx spec in
  number_put_text sign locase need_pfx (digit_text (base spec) locase num) spec.

Lemma number_sign_inv num need_pfx spec sign n spec' :
  number_sign num need_pfx spec = (sign, n, spec') → is_u64 num →
  is_u64 n ∧ base spec' = base spec ∧ precision spec' = precision spec.
Proof.
  unfold number_sign. intros H Hn.
  repeat (case_match; simplify_eq/=); (split; [try apply u64_range; done|done]).
Qed.

Definition spec_wf (s : printf_spec) : Prop := is_s16 (field_width s) ∧ is_s16 (precision s).

Lemma number_emits endp num spec o :
  is_s16 (precision spec) → base_ok (base spec) → is_u64 num →
  emits endp o (number_out num spec) (number endp num spec o).
Proof.
  intros Hp Hb Hn. unfold number, number_out.
  destruct (number_sign _ _ spec) as [[sign n] spec'] eqn:E.
  apply number_sign_inv in E as (Hn' & Hb' & Hp'); [|done].
  rewrite number_tmp_spec; [|by rewrite Hb'|done|apply locase_cases].
  cbn [mbind cres_bind]. apply number_put_emits. by rewrite Hp'.
Qed.

(** *** The text of a number

    The conversion of this kernel: the prefix is written also for zero, zero has
    a digit also with precision 0, the flag 0 counts also with a precision, and
    the octal prefix comes in front of the zeros of the precision. *)
Definition number_sign_text (num : Z) (spec : printf_spec) : list Z :=
  if has spec SIGN then
    if s64 num <? 0 then [chr "-"]
    else if has spec PLUS then [chr "+"]
    else if has spec SPACE then [chr " "] else []
  else [].
Definition number_abs (num : Z) (spec : printf_spec) : Z :=
  if has spec SIGN && (s64 num <? 0) then - s64 num else num.
Definition number_prefix (spec : printf_spec) : list Z :=
  if has spec SPECIAL then
    if base spec =? 8 then [chr "0"]
    else if base spec =? 16 then [chr "0"; Z.lor (chr "X") (Z.land (flags spec) SMALL)]
    else []
  else [].
Definition number_text (num : Z) (spec : printf_spec) : list Z :=
  let sign := number_sign_text num spec in
  let pfx := number_prefix spec in
  let ds := rev (digit_text (base spec) (Z.land (flags spec) SMALL) (number_abs num spec)) in
  let body := replicate (Z.to_nat (precision spec - zlength ds)) (chr "0") ++ ds in
  let fill := Z.to_nat (field_width spec - zlength sign - zlength pfx - zlength body) in
  if has spec LEFT then sign ++ pfx ++ body ++ replicate fill (chr " ")
  else if has spec ZEROPAD then sign ++ pfx ++ replicate fill (chr "0") ++ body
  else replicate fill (chr " ") ++ sign ++ pfx ++ body.

(** widths that are not affected by the 16 bit fields *)
Definition widths_ok (spec : printf_spec) : Prop :=
  -1 ≤ field_width spec < 2 ^ 15 ∧ -1 ≤ precision spec ≤ 2 ^ 15 - 7.

Lemma has_flags spec1 spec2 f : flags spec1 = flags spec2 → has spec1 f = has spec2 f.
Proof. unfold has. by intros ->. Qed.
Lemma has_or spec f g : has spec (Z.lor f g) = has spec f || has spec g.
Proof.
  unfold has, truth. rewrite Z.land_lor_distr_r.
  apply eq_true_iff_eq. rewrite orb_true_iff, !negb_true_iff, !Z.eqb_neq, Z.lor_eq_0_iff.
  destruct (Z.eq_dec (Z.land (flags spec) f) 0), (Z.eq_dec (Z.land (flags spec) g) 0); tauto.
Qed.

Lemma number_put_exact sign locase need_pfx tmp spec :
  1 ≤ zlength tmp ≤ 22 → -4 ≤ field_width spec < 2 ^ 15 → -1 ≤ precision spec ≤ 2 ^ 15 - 7 →
  number_put_text sign locase need_pfx tmp spec =
  let body := replicate (Z.to_nat (precision spec - zlength tmp)) (chr "0") ++ rev tmp in
  let fill := Z.to_nat (field_width spec - zlength body) in
  let head := (if truth sign then [sign] else []) ++
    (if need_pfx then [chr "0"] ++ (if base spec =? 16 then [Z.lor (chr "X") locase] else [])
     else []) in
  if has spec LEFT then head ++ body ++ replicate fill (chr " ")
  else if has spec ZEROPAD then head ++ replicate fill (chr "0") ++ body
  else replicate fill (chr " ") ++ head ++ body.
Proof.
  intros Ht Hw Hp. unfold number_put_text, pad_rounds. cbv zeta.
  set (spec' := if precision spec <? zlength tmp then _ else spec).
  assert (precision spec' = Z.max (precision spec) (zlength tmp)) as Hp'.
  { unfold spec'. destruct (Z.ltb_spec (precision spec) (zlength tmp)); [|lia].
    simpl. rewrite s16_id by (unfold is_s16; lia). lia. }
  assert (field_width spec' = field_width spec ∧ flags spec' = flags spec ∧ base spec' = base spec)
    as (-> & Hf & ->) by (unfold spec'; by case_test).
  rewrite !(has_flags spec' spec) by done. rewrite Hp'.
  change (ZEROPAD + LEFT) with (Z.lor ZEROPAD LEFT). rewrite has_or.
  rewrite s16_id by (unfold is_s16; lia).
  set (w := field_width spec - Z.max (precision spec) (zlength tmp)).
  assert (-2 ^ 15 + 3 ≤ w < 2 ^ 15) as Hw' by lia.
  autorewrite with zlen.
  replace (field_width spec - _) with w by lia.
  rewrite (count_rounds_ge (zlength tmp)) by lia.
  assert (∀ n, -2 ^ 15 < n < 2 ^ 15 → count_rounds (λ _ new, 0 <=? new) n =
    (Z.to_nat n, Z.min (n - 1) (-1))) as Hcr.
  { intros n Hn. rewrite (count_rounds_ge 0) by lia. by rewrite Z.sub_0_r. }
  replace (Z.to_nat (Z.max (precision spec) (zlength tmp) - zlength tmp))
    with (Z.to_nat (precision spec - zlength tmp)) by lia.
  destruct (has spec LEFT); [rewrite orb_true_r|rewrite orb_false_r; destruct (has spec ZEROPAD)];
    cbn [negb fst snd]; rewrite ?Hcr by lia; cbn [fst snd];
    rewrite ?Hcr by lia; cbn [fst snd]; rewrite ?Hcr by lia; cbn [fst snd];
    rewrite ?app_nil_r, <- ?app_assoc; try done.
  - replace (Z.to_nat (Z.min (w - 1) (-1))) with O by lia. by rewrite app_nil_r.
  - replace (Z.to_nat (Z.min (w - 1) (-1))) with O by lia.
    replace (Z.to_nat (Z.min (Z.min (w - 1) (-1) - 1) (-1))) with O by lia.
    by rewrite app_nil_r.
Qed.

Lemma has_clear spec f :
  f = SIGN ∨ f = PLUS ∨ f = SPACE ∨ f = LEFT →
  has (set_flags (Z.land (flags spec) (u8 (Z.lnot ZEROPAD))) spec) f = has spec f.
Proof.
  intros Hf. unfold has. simpl. rewrite <- Z.land_assoc. by destruct Hf as [->|[->|[->| ->]]].
Qed.

Lemma number_sign_exact num spec sign n spec' :
  base_ok (base spec) → is_u64 num → -1 ≤ field_width spec < 2 ^ 15 →
  number_sign num (has spec SPECIAL && negb (base spec =? 10)) spec = (sign, n, spec') →
  (if truth sign then [sign] else []) = number_sign_text num spec ∧
  n = number_abs num spec ∧
  field_width spec' = field_width spec - zlength (number_sign_text num spec)
                      - zlength (number_prefix spec) ∧
  has spec' LEFT = has spec LEFT ∧
  (has spec LEFT = false → has spec' ZEROPAD = has spec ZEROPAD).
Proof.
  intros Hb Hn Hw. unfold number_sign.
  set (spec1 := if has spec LEFT then _ else spec).
  assert (∀ f, f = SIGN ∨ f = PLUS ∨ f = SPACE ∨ f = LEFT → has spec1 f = has spec f) as Hhas.
  { intros f Hf. unfold spec1. case_test; [by apply has_clear|done]. }
  assert (has spec LEFT = false → has spec1 ZEROPAD = has spec ZEROPAD) as Hz.
  { intros Hl. unfold spec1. by rewrite Hl. }
  assert (field_width spec1 = field_width spec ∧ base spec1 = base spec) as [Hfw Hbase].
  { unfold spec1. by case_test. }
  pose proof (Hhas LEFT ltac:(auto)) as HL.
  rewrite !(Hhas SIGN), (Hhas PLUS), (Hhas SPACE) by auto.
  unfold number_sign_text, number_abs, number_prefix. clearbody spec1.
  assert (- s64 num = u64 (- s64 num) ∨ 0 ≤ s64 num) as Habs.
  { unfold s64. pose proof (Z.mod_pos_bound (num + 2 ^ 63) (2 ^ 64)).
    destruct (Z.le_gt_cases 0 ((num + 2 ^ 63) `mod` 2 ^ 64 - 2 ^ 63)); [by right|left].
    symmetry. apply u64_id. unfold is_u64. lia. }
  destruct (has spec SPECIAL) eqn:ES, Hb as [HB|[HB|HB]]; rewrite HB in *; cbn [negb andb Z.eqb Pos.eqb];
    (destruct (has spec SIGN) eqn:ESn; [destruct (Z.ltb_spec (s64 num) 0); [|destruct (has spec PLUS); [|destruct (has spec SPACE)]]|]);
    cbn [andb set_field_width base field_width Z.eqb Pos.eqb];
    rewrite ?Hbase; cbn [Z.eqb Pos.eqb]; intros [= <- <- <-];
    cbn [field_width set_field_width]; rewrite ?Hfw;
    (split_and!; [done|(done || lia)|autorewrite with zlen; rewrite <- ?Z.sub_add_distr; repeat (rewrite s16_sub, <- ?Z.sub_add_distr); rewrite ?s16_id by (unfold is_s16; lia); lia|done|done]).
Qed.

Lemma number_prefix_text spec :
  base_ok (base spec) →
  (if has spec SPECIAL && negb (base spec =? 10)
   then [chr "0"] ++ (if base spec =? 16 then [Z.lor (chr "X") (Z.land (flags spec) SMALL)] else [])
   else []) = number_prefix spec.
Proof.
  intros Hb. unfold number_prefix. destruct (has spec SPECIAL); [|done].
  by destruct Hb as [->|[->| ->]].
Qed.

Lemma number_out_exact num spec :
  base_ok (base spec) → is_u64 num → widths_ok spec →
  number_out num spec = number_text num spec.
Proof.
  intros Hb Hn [Hw Hp]. unfold number_out.
  destruct (number_sign _ _ spec) as [[sign n] spec'] eqn:E.
  pose proof (number_sign_inv _ _ _ _ _ _ E Hn) as (Hn' & Hb' & Hp').
  pose proof (number_sign_exact _ _ _ _ _ Hb Hn Hw E) as (Hs & Ha & Hfw & HL & HZ).
  assert (zlength (number_sign_text num spec) ≤ 1) by (unfold number_sign_text; by repeat case_test).
  assert (zlength (number_prefix spec) ≤ 2) by (unfold number_prefix; by repeat case_test).
  pose proof (zlength_nonneg (number_sign_text num spec)).
  pose proof (zlength_nonneg (number_prefix spec)).
  assert (1 ≤ zlength (digit_text (base spec') (Z.land (flags spec) SMALL) n) ≤ 22).
  { unfold digit_text. rewrite zlength_fmap. apply rev_digits_length; [|done].
    rewrite Hb'. unfold base_ok in Hb. lia. }
  rewrite number_put_exact by lia. unfold number_text. cbv zeta.
  rewrite Hb', Hp', Hs, HL, <- Ha, number_prefix_text, zlength_rev by done.
  assert (∀ k, k = zlength (number_sign_text num spec) + zlength (number_prefix spec) →
    field_width spec' = field_width spec - k) as Hfw' by lia.
  rewrite Hfw, <- !app_assoc. destruct (has spec LEFT); [done|].
  rewrite HZ by done. done.
Qed.

Lemma number_abs_u64 num spec : is_u64 num → is_u64 (number_abs num spec).
Proof.
  intros Hn. unfold number_abs. destruct (has spec SIGN); [|done]. simpl.
  destruct (Z.ltb_spec (s64 num) 0) as [H|H]; [|done].
  unfold is_u64, s64 in *. pose proof (Z.mod_pos_bound (num + 2 ^ 63) (2 ^ 64)). lia.
Qed.

(** *** The text C99 defines

    7.19.6.1: the result of converting a zero value with a precision of zero is
    no characters; the flag 0 is ignored when there is a precision or the flag
    -; the flag # gives a nonzero hexadecimal number the prefix 0x, and for
    octal it increases the precision, if and only if necessary, to force the
    first digit to be a zero. *)
Definition c99_digits (num : Z) (spec : printf_spec) : list Z :=
  let n := number_abs num spec in
  let ds := if (n =? 0) && (precision spec =? 0) then []
            else rev (digit_text (base spec) (Z.land (flags spec) SMALL) n) in
  let body := replicate (Z.to_nat (precision spec - zlength ds)) (chr "0") ++ ds in
  if has spec SPECIAL && (base spec =? 8) && negb (bool_decide (head body = Some (chr "0")))
  then chr "0" :: body else body.
Definition c99_prefix (num : Z) (spec : printf_spec) : list Z :=
  if has spec SPECIAL && (base spec =? 16) && negb (number_abs num spec =? 0)
  then [chr "0"; if has spec SMALL then chr "x" else chr "X"] else [].
Definition c99_text (num : Z) (spec : printf_spec) : list Z :=
  let sign := number_sign_text num spec in
  let pfx := c99_prefix num spec in
  let body := c99_digits num spec in
  let fill := Z.to_nat (field_width spec - zlength sign - zlength pfx - zlength body) in
  if has spec LEFT then sign ++ pfx ++ body ++ replicate fill (chr " ")
  else if has spec ZEROPAD && (precision spec <? 0)
  then sign ++ pfx ++ replicate fill (chr "0") ++ body
  else replicate fill (chr " ") ++ sign ++ pfx ++ body.

(** the conversions on which the kernel and C99 agree: a zero has neither a
    prefix nor the precision 0, there is no precision beside a flag 0 that
    counts, and no octal prefix beside a precision that adds zeros *)
Definition c99_agrees (num : Z) (spec : printf_spec) : Prop :=
  (number_abs num spec = 0 →
    precision spec ≠ 0 ∧ (has spec SPECIAL = true → base spec = 10)) ∧
  (has spec ZEROPAD = true → has spec LEFT = false → precision spec < 0) ∧
  (has spec SPECIAL = true → base spec = 8 →
    precision spec ≤ zlength (digit_text (base spec) (Z.land (flags spec) SMALL)
                                (number_abs num spec))).

Lemma radix_digits_lead fuel b n :
  2 ≤ b → 0 < n < b ^ Z.of_nat fuel → ∃ d, last (radix_digits fuel b n) = Some d ∧ 0 < d < b.
Proof.
  intros Hb. revert n. induction fuel as [|fuel IH]; intros n Hn; [simpl in Hn; lia|].
  cbn [radix_digits]. pose proof (Z.mod_pos_bound n b). destruct (Z.eqb_spec (n / b) 0) as [E|E].
  - exists (n `mod` b). split; [done|]. pose proof (Z.div_mod n b). lia.
  - destruct (IH (n / b)) as (d & Hd & Hr).
    { rewrite Nat2Z.inj_succ, Z.pow_succ_r in Hn by lia.
      split; [|apply Z.div_lt_upper_bound; lia].
      pose proof (Z.div_pos n b). lia. }
    exists d. split; [|done]. by rewrite last_cons, Hd.
Qed.

(** a number other than zero has no leading zero *)
Lemma octal_text_lead locase n :
  is_u64 n → n ≠ 0 → locase = 0 ∨ locase = SMALL →
  head (rev (digit_text 8 locase n)) ≠ Some (chr "0").
Proof.
  intros Hn Hnz Hl. unfold is_u64 in Hn.
  assert (2 ^ 64 ≤ 8 ^ Z.of_nat 64) as H8 by done.
  destruct (radix_digits_lead 64 8 n) as (d & Hd & Hr); [lia..|].
  rewrite rev_alt. fold (reverse (digit_text 8 locase n)). rewrite head_reverse.
  unfold digit_text, rev_digits. rewrite fmap_last, Hd. cbn [fmap option_fmap option_map].
  assert (d ∈ [1; 2; 3; 4; 5; 6; 7]) as H by (rewrite !elem_of_cons; lia). clear Hd Hr.
  repeat (apply elem_of_cons in H as [->|H]; [by destruct Hl; subst|]).
  by apply elem_of_nil in H.
Qed.

(** the prefix and the digits together are the same where both agree *)
Lemma c99_parts num spec :
  base_ok (base spec) → is_u64 num → c99_agrees num spec →
  let ds := rev (digit_text (base spec) (Z.land (flags spec) SMALL) (number_abs num spec)) in
  let body := replicate (Z.to_nat (precision spec - zlength ds)) (chr "0") ++ ds in
  (c99_prefix num spec = number_prefix spec ∧ c99_digits num spec = body) ∨
  (c99_prefix num spec = [] ∧ number_prefix spec = [chr "0"] ∧ c99_digits num spec = chr "0" :: body).
Proof.
  intros Hb Hn (Hz & _ & H8). cbv zeta. unfold c99_prefix, number_prefix, c99_digits.
  assert ((number_abs num spec =? 0) && (precision spec =? 0) = false) as ->.
  { destruct (Z.eqb_spec (number_abs num spec) 0) as [E|]; [|done]. simpl.
    apply Z.eqb_neq. by apply Hz. }
  destruct (has spec SPECIAL); [|by left].
  destruct (Z.eqb_spec (base spec) 10) as [->|H10]; [by left|].
  rewrite (proj2 (Z.eqb_neq (number_abs num spec) 0)) by (intros E; by apply Hz in E as [_ E%H10]).
  destruct (Z.eqb_spec (base spec) 8) as [E8|H8']; cbn [andb negb].
  - right. specialize (H8 eq_refl E8). rewrite E8 in *. split_and!; [done..|].
    rewrite zlength_rev. replace (Z.to_nat _) with O by lia. cbn [replicate app].
    rewrite bool_decide_false; [done|]. apply octal_text_lead; [by apply number_abs_u64| |apply locase_cases].
    intros E. by apply Hz in E as [_ E%H10].
  - left. destruct Hb as [|[|E16]]; [done..|]. rewrite E16. split; [|done]. simpl. do 3 f_equal.
    unfold has, truth. by destruct (locase_cases (flags spec)) as [-> | ->].
Qed.

Lemma number_text_c99 num spec :
  base_ok (base spec) → is_u64 num → c99_agrees num spec →
  number_text num spec = c99_text num spec.
Proof.
  intros Hb Hn Ha. pose proof (c99_parts num spec Hb Hn Ha) as Hp. destruct Ha as (_ & HZ & _).
  unfold number_text, c99_text. cbv zeta in *.
  set (body := replicate _ (chr "0") ++ rev _) in *.
  assert (has spec LEFT = false →
    has spec ZEROPAD && (precision spec <? 0) = has spec ZEROPAD) as HZ'.
  { intros HL. destruct (has spec ZEROPAD); [|done]. by apply Z.ltb_lt, HZ. }
  destruct Hp as [[-> ->]|(-> & -> & ->)].
  - destruct (has spec LEFT); [done|]. by rewrite HZ'.
  - set (sign := number_sign_text num spec).
    assert (field_width spec - zlength sign - zlength [] - zlength (chr "0" :: body)
      = field_width spec - zlength sign - zlength [chr "0"] - zlength body) as ->
      by (rewrite !zlength_cons, !zlength_nil; lia).
    destruct (has spec LEFT); [done|]. rewrite HZ' by done.
    destruct (has spec ZEROPAD); [|done]. f_equal. rewrite app_nil_l, (cons_middle _ (replicate _ _)).
    by rewrite !(assoc_L (++)), <- replicate_cons_app.
Qed.


(** C21: in bases 8, 10 and 16, for widths and precisions the 16 bit fields hold
    without wrapping ([widths_ok]), [number] writes exactly [number_text]: sign,
    prefix, zeros of the precision and digits, padded to the width with zeros
    or spaces, left or right justified; what is beyond the end of the buffer is
    counted and not stored. On the conversions of [c99_agrees] this is the text
    C99 defines; [c99_departures] has the others. *)
Theorem number_writes num spec :
  base_ok (base spec) → is_u64 num → widths_ok spec →
  writes (λ endp, number endp num spec) (number_text num spec) ∧
  (c99_agrees num spec → writes (λ endp, number endp num spec) (c99_text num spec)).
Proof.
  intros Hb Hn Hw.
  assert (writes (λ endp, number endp num spec) (number_text num spec)) as H.
  { intros endp o Hr. rewrite <- number_out_exact in * by done.
    apply number_emits; [|done..]. destruct Hw. unfold is_s16. lia. }
  split; [done|]. intros Ha. by rewrite <- number_text_c99.
Qed.

(** "%#010x" into a buffer of eight characters *)
Lemma number_writes_witness :
  let spec := Spec FORMAT_TYPE_UINT (SPECIAL + ZEROPAD + SMALL) 16 255 10 (-1) in
  number 8 0xdead spec (Outbuf (replicate 12 0) 0)
    = Ret (Outbuf (bytes "0x0000de" ++ [0; 0; 0; 0]) 10) ∧
  number 8 0xdead spec (Outbuf (replicate 12 0) 0)
    = Ret (emit 8 (c99_text 0xdead spec) (Outbuf (replicate 12 0) 0)).
Proof.
  intros spec.
  destruct (number_writes 0xdead spec) as [H1 H2];
    [right; right; reflexivity|done|by vm_compute|].
  split.
  - etransitivity; [apply H1; by vm_compute|]. vm_compute. reflexivity.
  - apply H2; [|by vm_compute]. by vm_compute.
Defined.

(** where the kernel departs from C99: "%.0d" and "%#x" and "%#o" of 0, "%08.3d"
    of 7 and "%#.3o" of 1 *)
Lemma c99_departures :
  let conv f b w p := Spec FORMAT_TYPE_INT f b 255 w p in
  (λ '(n, spec), (number_text n spec, c99_text n spec)) <$>
    [(0, conv SIGN 10 (-1) 0); (0, conv (SPECIAL + SMALL) 16 (-1) (-1));
     (0, conv SPECIAL 8 (-1) (-1)); (7, conv (SIGN + ZEROPAD) 10 8 3); (1, conv SPECIAL 8 (-1) 3)]
  = [(bytes "0", []); (bytes "0x0", bytes "0"); (bytes "00", bytes "0");
     (bytes "00000007", bytes "     007"); (bytes "0001", bytes "001")].
Proof. vm_compute. reflexivity. Qed.

(** ** Reading back what was written *)
Definition no_spaces (spec : printf_spec) : Prop :=
  has spec LEFT = false ∧ has spec SPACE = false ∧
  (has spec ZEROPAD = true ∨ field_width spec ≤ 1).

Lemma digit_char_spec locase d : 0 ≤ d < 16 → locase = 0 ∨ locase = SMALL →
  digit_val (digit_char locase d) = Some d ∧ is_char (digit_char locase d) ∧
  digit_char locase d ≠ chr "+" ∧ digit_char locase d ≠ chr "-" ∧
  _tolower (digit_char locase d) ≠ 120.
Proof.
  intros Hd Hl. assert (d ∈ Z.of_nat <$> seq 0 16) as H.
  { apply list_elem_of_fmap. exists (Z.to_nat d). split; [lia|]. apply elem_of_seq. lia. }
  clear Hd. simpl in H. unfold is_char.
  repeat (apply elem_of_cons in H as [->|H]; [by destruct Hl; subst|]).
  by apply elem_of_nil in H.
Qed.

Lemma digits_of_chars b locase ds :
  b ≤ 16 → locase = 0 ∨ locase = SMALL → Forall (λ d, 0 ≤ d < b) ds →
  digits b (digit_char locase <$> ds) = (ds, []).
Proof.
  intros Hb Hl. induction 1 as [|d ds Hd Hds IH]; [done|].
  rewrite fmap_cons. cbn [digits]. destruct (digit_char_spec locase d) as [-> _]; [lia|done|].
  rewrite (proj2 (Z.ltb_lt _ _)) by lia. by rewrite IH.
Qed.

Lemma value_zeros b k ds : value b (replicate k 0 ++ ds) = value b ds.
Proof. induction k as [|k IH]; [done|exact IH]. Qed.

Lemma radix_of_chars b locase zs :
  base_ok b → locase = 0 ∨ locase = SMALL → Forall (λ d, 0 ≤ d < b) zs →
  radix b (digit_char locase <$> zs) = (b, digit_char locase <$> zs).
Proof.
  intros Hb Hl Hz. unfold radix.
  assert (has_0x (digit_char locase <$> zs) = false) as ->.
  { destruct Hz as [|d zs Hd Hz]; [done|]. destruct Hz as [|d' zs Hd' Hz]; [done|]. simpl.
    destruct (digit_char_spec locase d') as (_ & _ & _ & _ & Hx);
      [unfold base_ok in Hb; lia|done|].
    rewrite (proj2 (Z.eqb_neq _ 120)) by done. by rewrite andb_false_r. }
  destruct Hb as [->|[->| ->]]; done.
Qed.

(** digits that denote a 64 bit number are read as that number *)
Lemma unsigned_text_chars b locase zs :
  base_ok b → locase = 0 ∨ locase = SMALL → Forall (λ d, 0 ≤ d < b) zs → zs ≠ [] →
  is_u64 (value b zs) →
  unsigned_text b (digit_char locase <$> zs) = Ret (value b zs) ∧
  (b = 16 → unsigned_text b (chr "0" :: Z.lor (chr "X") locase :: (digit_char locase <$> zs))
            = Ret (value b zs)).
Proof.
  intros Hb Hl Hz Hne Hv. unfold is_u64 in Hv.
  assert (b ≤ 16) by (unfold base_ok in Hb; lia).
  assert (∀ s, radix b s = (b, digit_char locase <$> zs) →
    unsigned_text b s = Ret (value b zs)) as Hs.
  { intros s Hr. unfold unsigned_text. rewrite Hr, digits_of_chars by done.
    rewrite (proj2 (Z.leb_gt _ _)) by lia. by rewrite bool_decide_false. }
  split; [apply Hs; by apply radix_of_chars|]. intros ->. apply Hs.
  unfold radix. simpl. destruct Hl; subst; by rewrite drop_0.
Qed.

Lemma text_of_digits b locase k n :
  base_ok b → is_u64 n → locase = 0 ∨ locase = SMALL →
  ∃ zs, replicate k (chr "0") ++ rev (digit_text b locase n) = digit_char locase <$> zs ∧
    zs ≠ [] ∧ Forall (λ d, 0 ≤ d < b) zs ∧ value b zs = n ∧ value b (0 :: zs) = n.
Proof.
  intros Hb Hn Hl. exists (replicate k 0 ++ rev (rev_digits b n)).
  assert (chr "0" = digit_char locase 0) as -> by (destruct Hl; by subst).
  assert (2 ≤ b) by (unfold base_ok in Hb; lia).
  assert (value b (rev (rev_digits b n)) = n) as Hv by by apply radix_digits_value.
  split_and!.
  - unfold digit_text. by rewrite fmap_app, fmap_replicate, <- map_rev.
  - unfold rev_digits. change 64%nat with (S 63). cbn [radix_digits rev].
    by intros [_ [_ [=]]%app_eq_nil]%app_eq_nil.
  - apply Forall_app. split; [apply Forall_replicate; lia|]. by apply Forall_rev, radix_digits_range.
  - by rewrite value_zeros.
  - change (0 :: replicate k 0 ++ rev (rev_digits b n)) with (replicate (S k) 0 ++ rev (rev_digits b n)).
    by rewrite value_zeros.
Qed.

(** the prefix does not change what is read *)
Lemma unsigned_text_number spec k n :
  base_ok (base spec) → is_u64 n →
  unsigned_text (base spec) (number_prefix spec ++ replicate k (chr "0") ++
    rev (digit_text (base spec) (Z.land (flags spec) SMALL) n)) = Ret n.
Proof.
  intros Hb Hn. pose proof (locase_cases (flags spec)) as Hl.
  set (locase := Z.land (flags spec) SMALL) in *.
  destruct (text_of_digits (base spec) locase k n Hb Hn Hl) as (zs & -> & Hne & Hz & Hv & Hv0).
  destruct (unsigned_text_chars (base spec) locase zs Hb Hl Hz Hne) as [H1 H2]; [by rewrite Hv|].
  rewrite Hv in H1, H2. unfold number_prefix. destruct (has spec SPECIAL); [|done].
  destruct (Z.eqb_spec (base spec) 8) as [H8|]; [|destruct (Z.eqb_spec (base spec) 16) as [H16|]; [|done]].
  - replace ([chr "0"] ++ (digit_char locase <$> zs)) with (digit_char locase <$> (0 :: zs))
      by (destruct Hl as [-> | ->]; done).
    destruct (unsigned_text_chars (base spec) locase (0 :: zs) Hb Hl) as [H0 _].
    + constructor; [lia|done].
    + done.
    + by rewrite Hv0.
    + by rewrite H0, Hv0.
  - by apply H2.
Qed.

Lemma digit_text_chars b locase n :
  base_ok b → locase = 0 ∨ locase = SMALL →
  Forall is_char (digit_text b locase n).
Proof.
  intros Hb Hl. apply Forall_fmap. eapply Forall_impl; [apply (radix_digits_range 64)|].
  - unfold base_ok in Hb. lia.
  - intros d Hd. simpl in Hd. apply (digit_char_spec locase d); [unfold base_ok in Hb; lia|done].
Qed.

(** the text without spaces: sign, prefix, zeros, digits *)
Lemma number_text_zeros num spec :
  no_spaces spec → base_ok (base spec) → is_u64 num →
  ∃ k, number_text num spec = number_sign_text num spec ++ number_prefix spec ++
    replicate k (chr "0") ++
    rev (digit_text (base spec) (Z.land (flags spec) SMALL) (number_abs num spec)).
Proof.
  intros (HL & HS & Hz) Hb Hn. unfold number_text. rewrite HL. cbv zeta.
  destruct (has spec ZEROPAD) eqn:EZ.
  - eexists (_ + _)%nat. rewrite replicate_add, <- app_assoc. done.
  - destruct Hz as [|Hw]; [done|].
    set (ds := rev _). set (body := _ ++ ds).
    assert (1 ≤ zlength body).
    { unfold body, ds, digit_text. autorewrite with zlen.
      pose proof (rev_digits_pos (base spec) (number_abs num spec)). lia. }
    pose proof (zlength_nonneg (number_sign_text num spec)).
    pose proof (zlength_nonneg (number_prefix spec)).
    replace (Z.to_nat (field_width spec - _ - _ - _)) with O by lia.
    simpl. eexists. done.
Qed.

(** the text is a C string of moderate length *)
Lemma number_text_string num spec :
  base_ok (base spec) → is_u64 num → widths_ok spec →
  Forall is_char (number_text num spec) ∧ zlength (number_text num spec) < 2 ^ 17.
Proof.
  intros Hb Hn [Hw Hp]. unfold number_text. cbv zeta.
  set (sign := number_sign_text num spec). set (pfx := number_prefix spec).
  set (ds := rev _).
  assert (Forall is_char sign ∧ zlength sign ≤ 1) as [Hs1 Hs2].
  { unfold sign, number_sign_text. repeat case_test; (split; [|done]); repeat constructor. }
  assert (Forall is_char pfx ∧ zlength pfx ≤ 2) as [Hp1 Hp2].
  { unfold pfx, number_prefix.
    destruct (locase_cases (flags spec)) as [-> | ->]; repeat case_test;
      (split; [|done]); repeat constructor. }
  assert (Forall is_char ds) as Hd1.
  { apply Forall_rev, digit_text_chars; [done|apply locase_cases]. }
  assert (zlength ds ≤ 22) as Hd2.
  { unfold ds, digit_text. autorewrite with zlen. apply rev_digits_length.
    - unfold base_ok in Hb. lia.
    - by apply number_abs_u64. }
  assert (∀ k, Forall is_char (replicate k (chr "0")) ∧ Forall is_char (replicate k (chr " "))) as Hr.
  { intros k. split; by apply Forall_replicate. }
  pose proof (zlength_nonneg sign). pose proof (zlength_nonneg pfx). pose proof (zlength_nonneg ds).
  split.
  - repeat case_match; rewrite ?Forall_app; split_and!; try done; apply Hr.
  - repeat case_match; autorewrite with zlen; lia.
Qed.

Lemma drop_plus_number spec k n :
  base_ok (base spec) → is_u64 n →
  ∀ text, text = number_prefix spec ++ replicate k (chr "0") ++
    rev (digit_text (base spec) (Z.land (flags spec) SMALL) n) →
  drop_plus text = text ∧ head text ≠ Some 45.
Proof.
  intros Hb Hn text Htext. pose proof (locase_cases (flags spec)) as Hl.
  set (locase := Z.land (flags spec) SMALL) in *.
  destruct (text_of_digits (base spec) locase k n Hb Hn Hl) as (zs & Hzs & Hne & Hz & _).
  rewrite Hzs in Htext. unfold number_prefix in Htext.
  assert (head text ≠ Some 43 ∧ head text ≠ Some 45) as [H43 H45].
  { change (chr "0") with 48 in Htext. clear Hzs.
    assert (∀ d zs, Forall (λ d, 0 ≤ d < base spec) (d :: zs) →
      digit_char locase d ≠ 43 ∧ digit_char locase d ≠ 45) as Hd.
    { intros d ? [Hd _]%Forall_cons. 
      destruct (digit_char_spec locase d) as (_ & _ & ? & ? & _);
        [unfold base_ok in Hb; lia|done|]. done. }
    destruct zs as [|d zs]; [done|]. apply Hd in Hz as [??].
    subst text. repeat case_test; cbn; split; congruence. }
  split; [|done]. clear Htext Hzs. destruct text as [|c text]; [done|].
  cbn [drop_plus head] in *. by rewrite (proj2 (Z.eqb_neq c 43)) by congruence.
Qed.

Lemma number_text_read num spec t :
  base_ok (base spec) → is_u64 num → widths_ok spec → no_spaces spec →
  (has spec SIGN = false → kstrtoull (number_text num spec ++ 0 :: t) (base spec) = Ret num) ∧
  (has spec SIGN = true → kstrtoll (number_text num spec ++ 0 :: t) (base spec) = Ret (s64 num)).
Proof.
  intros Hb Hn Hw Hs.
  destruct (number_text_string num spec Hb Hn Hw) as [Hc Hlen].
  destruct (number_text_zeros num spec Hs Hb Hn) as [k Hk].
  pose proof (number_abs_u64 num spec Hn) as Ha.
  pose proof (unsigned_text_number spec k _ Hb Ha) as Hu.
  destruct (drop_plus_number spec k _ Hb Ha _ eq_refl) as [Hplus Hminus].
  set (text := number_prefix spec ++ _) in *.
  rewrite kstrtoull_plus, kstrtoll_text, Hk by (done || lia).
  unfold number_sign_text, number_abs in *. split; intros HS; rewrite HS in *.
  - by rewrite app_nil_l, Hplus, Hu.
  - unfold signed_text.
    assert (∀ v, is_u64 v → 0 ≤ s64 v → v < 2 ^ 63 ∧ s64 v = v) as Hpos.
    { unfold is_u64, s64. intros v Hv. destruct (Z.le_gt_cases (2 ^ 63) v).
      - replace (v + 2 ^ 63) with (v - 2 ^ 63 + 1 * 2 ^ 64) by lia.
        rewrite Z.mod_add, Z.mod_small by lia. lia.
      - rewrite Z.mod_small by lia. lia. }
    destruct (Z.ltb_spec (s64 num) 0) as [Hneg|Hnn]; cbn [andb] in *.
    + cbn [app head tail]. rewrite bool_decide_true, Hu by done. cbn [mbind cres_bind].
      assert (- 2 ^ 63 ≤ s64 num).
      { unfold s64. pose proof (Z.mod_pos_bound (num + 2 ^ 63) (2 ^ 64)). lia. }
      rewrite !(proj2 (Z.leb_le _ _)) by lia. simpl. f_equal. lia.
    + destruct (Hpos num Hn Hnn) as [? Hsn]. destruct Hs as (_ & HSP & _). rewrite HSP in *.
      destruct (has spec PLUS).
      * cbn [app head]. rewrite bool_decide_false by done.
        change (drop_plus (chr "+" :: text)) with text. rewrite Hu. cbn [mbind cres_bind].
        rewrite (proj2 (Z.ltb_lt _ _)) by lia. by rewrite Hsn.
      * rewrite app_nil_l, bool_decide_false, Hplus, Hu by done. cbn [mbind cres_bind].
        rewrite (proj2 (Z.ltb_lt _ _)) by lia. by rewrite Hsn.
Qed.

(** room for the text of any number *)
Definition number_room (spec : printf_spec) : Z :=
  Z.max (field_width spec) (Z.max (precision spec) 22 + 3).
Lemma number_text_room num spec :
  base_ok (base spec) → is_u64 num → zlength (number_text num spec) ≤ number_room spec.
Proof.
  intros Hb Hn. unfold number_text, number_room. cbv zeta.
  set (ds := rev _). set (sign := number_sign_text num spec). set (pfx := number_prefix spec).
  assert (zlength ds ≤ 22).
  { unfold ds, digit_text. autorewrite with zlen. apply rev_digits_length.
    - unfold base_ok in Hb. lia.
    - by apply number_abs_u64. }
  assert (zlength sign ≤ 1) by (unfold sign, number_sign_text; by repeat case_test).
  assert (zlength pfx ≤ 2) by (unfold pfx, number_prefix; by repeat case_test).
  pose proof (zlength_nonneg sign). pose proof (zlength_nonneg pfx). pose proof (zlength_nonneg ds).
  repeat case_match; autorewrite with zlen; lia.
Qed.

(** the memory from where a text was written that fits *)
Lemma emit_drop endp text o :
  0 ≤ pos o → pos o + zlength text ≤ endp → endp ≤ zlength (mem o) →
  drop (Z.to_nat (pos o)) (mem (emit endp text o))
  = text ++ drop (Z.to_nat (pos o + zlength text)) (mem o).
Proof.
  revert o. induction text as [|c text IH]; intros o Hp He Hm.
  { rewrite zlength_nil, Z.add_0_r. done. }
  rewrite zlength_cons in *. change (emit endp (c :: text) o) with (emit endp text (emit1 endp o c)).
  pose proof (zlength_nonneg text).
  assert (zlength (mem (emit1 endp o c)) = zlength (mem o)) as Hl by apply (emit_length endp [c]).
  specialize (IH (emit1 endp o c)). change (pos (emit1 endp o c)) with (pos o + 1) in IH.
  rewrite Hl in IH. specialize (IH ltac:(lia) ltac:(lia) Hm).
  replace (Z.to_nat (pos o + 1)) with (S (Z.to_nat (pos o))) in IH by lia.
  rewrite (drop_S _ c (Z.to_nat (pos o))).
  - cbn [app]. f_equal. rewrite IH. f_equal. unfold emit1. cbn [mem].
    rewrite (proj2 (Z.ltb_lt _ _)) by lia. rewrite drop_insert_lt by lia. f_equal. lia.
  - pose proof (emit_lookup endp text (emit1 endp o c) (pos o)) as E.
    change (pos (emit1 endp o c)) with (pos o + 1) in E. rewrite Hl in E.
    rewrite (proj2 (Z.leb_gt (pos o + 1) _)) in E by lia. cbn [andb] in E.
    unfold zlookup in E. rewrite (proj2 (Z.leb_le 0 (pos o))) in E by lia.
    rewrite E by lia. unfold emit1. cbn [mem]. rewrite (proj2 (Z.ltb_lt _ _)) by lia.
    apply list_lookup_insert_eq. unfold zlength in *. lia.
Qed.



(** The 16 bit fields: "%.32767u" has width -1 and precision 32767, so that the
    width left is -32768, and 32768 spaces appear in front of the digits. *)
Lemma precision_wraps :
  Z.of_nat (pad_rounds (s16 (-1 - 32767))).1 = 32768.
Proof. apply pad_rounds_wrap. done. Qed.

(** ** string *)
Lemma strnlen_loop_range s count len :
  strnlen_loop s count = Ret len → 0 ≤ len ≤ zlength s.
Proof.
  revert count len. induction s as [|c s IH]; intros [|count] len; simpl.
  - intros [= <-]. done.
  - done.
  - intros [= <-]. unfold zlength. lia.
  - case_test; [intros [= <-]; unfold zlength; lia|].
    destruct (strnlen_loop s count) as [n| |] eqn:En; cbn; [|done..].
    intros [= <-]. apply IH in En. rewrite zlength_cons. lia.
Qed.

Lemma strnlen_nul s count : 0 ∈ s → ∃ len, strnlen s count = Ret len.
Proof.
  intros H. unfold strnlen. generalize (Z.to_nat (Z.min count (zlength s + 1))) as n.
  induction s as [|c s IH]; [by apply elem_of_nil in H|].
  intros [|n]; simpl; [eauto|]. destruct (Z.eqb_spec c 0); [eauto|].
  apply elem_of_cons in H as [H|H]; [done|]. destruct (IH H n) as [len ->]. cbn. eauto.
Qed.

(** the text of a string whose length was found to be [len] *)
Definition string_text (len : Z) (s : list Z) (spec : printf_spec) : list Z :=
  let below := λ old (_ : Z), len <? old in
  let lead := if negb (has spec LEFT) then count_rounds below (field_width spec)
              else (O, field_width spec) in
  replicate lead.1 (chr " ") ++ take (Z.to_nat len) s ++
  replicate (count_rounds below lead.2).1 (chr " ") ++ [].

Lemma string_field_emits endp s spec len o :
  strnlen s (u32 (precision spec)) = Ret len → zlength s < 2 ^ 31 → is_s16 (field_width spec) →
  emits endp o (string_text len s spec) (string_field endp s spec o).
Proof.
  intros Hlen Hs Hfw. pose proof (strnlen_loop_range _ _ _ Hlen) as Hr.
  unfold string_field, string_text. rewrite Hlen. cbn [mbind cres_bind].
  rewrite s32_id by (unfold is_s32; lia). rewrite Z.max_r by lia. cbv zeta.
  assert (stops (λ old _, len <? old)) as Hst by (apply stops_below; lia).
  eapply (emits_with_bind _ _ _ _ (if negb (has spec LEFT)
    then count_rounds (λ old _, len <? old) (field_width spec) else (O, field_width spec)).2).
  { destruct (negb (has spec LEFT)); [by apply emits_count_down|done]. }
  cbn beta iota. rewrite array_read_in by lia. cbn [mbind cres_bind].
  eapply emits_bind; [apply emits_put_all|].
  eapply emits_with_bind; [|apply emits_ret].
  apply emits_count_down; [done|].
  destruct (negb (has spec LEFT)); [by apply count_rounds_s16|done].
Qed.
