(* ===== verification/PrintfPtr.v ===== *)
(** * What [%p] writes (lib/vsprintf.c)

    Every extension of [%p] formats into an array on the stack and then prints
    it. The arrays are large enough: for an argument of the right kind none of
    the functions writes outside them, and the result is a text that does not
    depend on the buffer ([pointer_emits]). *)

From stdpp Require Import strings.
Import Ascii.AsciiSyntax.
From S2P Require Import Prelude Kstrtox Printf PrintfDigits PrintfSpec.

(** ** Texts that grow in a local array *)

(** [m] appends to [p] at most [n] characters of a local array of [cap] *)
Definition grows (cap n : Z) (p : list Z) (m : cres (list Z)) : Prop :=
  zlength p + n ≤ cap → ∃ t, m = Ret (p ++ t) ∧ zlength t ≤ n.

Lemma grows_lput cap c p : grows cap 1 p (lput cap c p).
Proof. intros H. exists [c]. rewrite lput_ret. unfold append. autorewrite with zlen.
  by rewrite (proj2 (Z.leb_le _ _)) by lia. Qed.
Lemma grows_append cap l p : grows cap (zlength l) p (append cap p l).
Proof. intros H. exists l. unfold append. by rewrite (proj2 (Z.leb_le _ _)) by lia. Qed.
Lemma grows_ret cap p : grows cap 0 p (Ret p).
Proof. intros H. exists []. by rewrite app_nil_r. Qed.
Lemma grows_weaken cap n n' p m : n ≤ n' → grows cap n p m → grows cap n' p m.
Proof. intros Hn Hm H. destruct Hm as (t & -> & ?); [lia|]. exists t. split; [done|lia]. Qed.
Lemma grows_bind cap n1 n2 p m k :
  0 ≤ n2 → grows cap n1 p m → (∀ t, grows cap n2 (p ++ t) (k (p ++ t))) →
  grows cap (n1 + n2) p (m ≫= k).
Proof.
  intros H2 Hm Hk H. destruct Hm as (t & -> & Ht); [lia|]. cbn.
  destruct (Hk t) as (t' & -> & Ht'); [rewrite zlength_app; lia|].
  exists (t ++ t'). rewrite app_assoc, zlength_app. split; [done|lia].
Qed.
Lemma grows_if cap n p (b : bool) m : 0 ≤ n → grows cap n p m → grows cap n p (if b then m else Ret p).
Proof. intros. destruct b; [done|]. eapply grows_weaken; [|apply grows_ret]. done. Qed.

(** the rounds of a loop, of which round [i] writes at most [n i] characters *)
Definition total (n : Z → Z) (rds : nat) : Z := foldl (λ a i, a + n (Z.of_nat i)) 0 (seq 0 rds).
Lemma grows_for cap n (rds : nat) body p :
  (∀ i p, 0 ≤ i < Z.of_nat rds → 0 ≤ n i ∧ grows cap (n i) p (body i p)) →
  grows cap (total n rds) p (for_range rds body p).
Proof.
  unfold for_range, total. induction rds as [|r IH]; intros Hb; [apply grows_ret|].
  rewrite seq_S, !foldl_app. cbn [foldl Nat.add]. apply grows_bind.
  - apply (Hb (Z.of_nat r) p). lia.
  - apply IH. intros. apply Hb. lia.
  - intros t. apply Hb. lia.
Qed.

Lemma hex_lookup x : 0 ≤ x < 16 → ∃ c, array_get hex_asc x = Ret c.
Proof. intros Hx. destruct (array_get_in hex_asc x) as (c & Hc & _); [|eauto]. done. Qed.
Lemma hex_asc_lo_ret x : ∃ c, hex_asc_lo x = Ret c.
Proof.
  apply hex_lookup. change 0x0f with (Z.ones 4). rewrite Z.land_ones by lia.
  apply (Z.mod_pos_bound x 16). lia.
Qed.
Lemma hex_asc_hi_ret x : ∃ c, hex_asc_hi x = Ret c.
Proof.
  apply hex_lookup. rewrite Z.shiftr_div_pow2 by lia.
  assert (0 ≤ Z.land 0xf0 x < 2 ^ 8) by (apply land_bound; lia).
  rewrite Z.land_comm. change (2 ^ 4) with 16. change (2 ^ 8) with 256 in *.
  split; [apply Z.div_pos; lia|apply Z.div_lt_upper_bound; lia].
Qed.

Lemma grows_hex cap p b : grows cap 2 p (hex_byte_pack cap p b).
Proof.
  unfold hex_byte_pack. destruct (hex_asc_hi_ret b) as [hi ->], (hex_asc_lo_ret b) as [lo ->].
  cbn [mbind cres_bind]. apply (grows_bind _ 1 1); [done|apply grows_lput|].
  intros t. apply grows_lput.
Qed.

(** ** The addresses *)
Definition bytes_ok (n : Z) (l : list Z) : Prop :=
  n ≤ zlength l ∧ Forall (λ b, 0 ≤ b < 256) l.

Lemma bytes_get n l i : bytes_ok n l → 0 ≤ i < n → ∃ b, array_get l i = Ret b ∧ 0 ≤ b < 256.
Proof.
  intros [Hn Hl] Hi. destruct (array_get_in l i) as (b & Hb & Hz); [lia|].
  exists b. split; [done|]. by apply (Forall_zlookup _ _ _ _ Hl Hz).
Qed.

(** a finished array is printed as a string *)
Lemma local_string_emits cap (m : cres (list Z)) spec :
  cap < 2 ^ 31 → is_s16 (field_width spec) →
  (∃ t, m = Ret (t ++ [0]) ∧ zlength t < cap) →
  ∃ text, ∀ endp o, emits endp o text (p ← m; string_field endp p spec o).
Proof.
  intros Hc Hs (t & -> & Ht). cbn [mbind cres_bind].
  destruct (strnlen_nul (t ++ [0]) (u32 (precision spec))) as [len Hlen].
  { apply elem_of_app. right. by apply list_elem_of_singleton. }
  exists (string_text len (t ++ [0]) spec). intros endp o.
  apply string_field_emits; [done| |done]. autorewrite with zlen. lia.
Qed.

(** an array filled by [m] and closed with a NUL *)
Lemma local_nul_emits cap n m spec :
  n < cap → cap < 2 ^ 31 → is_s16 (field_width spec) → grows cap n [] m →
  ∃ text, ∀ endp o, emits endp o text
    (p ← m; p ← lput cap 0 p; string_field endp p spec o).
Proof.
  intros Hn Hc Hs Hm. destruct Hm as (t & -> & Ht); [unfold zlength; simpl; lia|].
  cbn [mbind cres_bind app]. apply (local_string_emits cap); [done..|].
  exists t. unfold lput. rewrite (proj2 (Z.ltb_lt _ _)) by lia. split; [done|lia].
Qed.

Section addresses.
Context (spec : printf_spec) (Hs : is_s16 (field_width spec)).

Lemma mac_address_emits addr f0 f1 fmt : bytes_ok 6 addr →
  ∃ text, ∀ endp o, emits endp o text (mac_address_string endp addr spec (f0 :: f1 :: fmt) o).
Proof.
  intros Ha. unfold mac_address_string.
  change (array_get (f0 :: f1 :: fmt) 0) with (Ret f0).
  change (array_get (f0 :: f1 :: fmt) 1) with (Ret f1). cbn [mbind cres_bind].
  apply (local_nul_emits 18 (total (λ i, if i =? 5 then 2 else 3) 6)); [done..|].
  apply grows_for. intros i p Hi. split; [by case_test|].
  destruct (bytes_get 6 addr i Ha) as (b & -> & _); [lia|]. cbn [mbind cres_bind].
  destruct (Z.eqb_spec i 5); cbn [negb].
  - rewrite andb_false_r. apply (grows_bind _ 2 0); [done|apply grows_hex|].
    intros. apply grows_ret.
  - apply (grows_bind _ 2 1); [done|apply grows_hex|]. intros t.
    apply grows_if; [done|apply grows_lput].
Qed.

Lemma grows_foldl cap l p :
  grows cap (zlength l) p (foldl (λ m c, p ← m; lput cap c p) (Ret p) l).
Proof.
  induction l as [|c l IH] using rev_ind; [apply grows_ret|].
  rewrite foldl_app, zlength_app. apply (grows_bind _ _ 1); [done|done|].
  intros. apply grows_lput.
Qed.

(** a byte has at most three decimal digits *)
Lemma put_dec_byte b : 0 ≤ b < 256 → ∃ temp, put_dec_trunc 3 [] b = Ret temp ∧ 1 ≤ zlength temp ≤ 3.
Proof.
  intros Hb. rewrite put_dec_trunc_spec by lia. unfold append. autorewrite with zlen.
  pose proof (rev_digits_pos 10 b).
  assert (zlength (rev_digits 10 b) ≤ 3).
  { unfold rev_digits. change 64%nat with (S (S (S 61))). cbn [radix_digits].
    rewrite !Z.div_div by lia. rewrite (Z.div_small b (10 * 10 * 10)) by lia.
    cbn [Z.eqb]. repeat case_test; unfold zlength; simpl; lia. }
  rewrite (proj2 (Z.leb_le _ _)) by lia. eexists. split; [done|]. autorewrite with zlen. lia.
Qed.

Lemma grows_ip4 cap p addr f0 f2 : bytes_ok 4 addr →
  grows cap 15 p (ip4_string cap p addr f0 f2).
Proof.
  intros Ha. unfold ip4_string. apply (grows_for cap (λ i, if i <? 3 then 4 else 3) 4).
  intros i q Hi. split; [by case_test|].
  set (idx := if _ || _ then 3 - i else i).
  destruct (bytes_get 4 addr idx Ha) as (b & -> & Hb).
  { unfold idx. case_test; lia. }
  cbn [mbind cres_bind]. destruct (put_dec_byte b Hb) as (temp & -> & Ht). cbn [mbind cres_bind].
  assert (∀ r, grows cap (if i <? 3 then 1 else 0) r (if i <? 3 then lput cap (chr ".") r else Ret r)) as Hdot.
  { intros r. destruct (i <? 3); [apply grows_lput|apply grows_ret]. }
  eapply (grows_weaken _ ((3 - zlength temp) + (zlength temp + (if i <? 3 then 1 else 0))));
    [case_test; lia|].
  set (lead := f0 =? chr "i").
  assert (∀ r (P : list Z → cres (list Z)) n, 0 ≤ n → (∀ r, grows cap n r (P r)) →
    grows cap (3 - zlength temp + n) r
      (p ← (if lead && (zlength temp <? 3) then lput cap (chr "0") r else Ret r);
       p ← (if lead && (zlength temp <? 2) then lput cap (chr "0") p else Ret p); P p)) as Hlead.
  { intros r P n Hn HP.
    destruct (Z.ltb_spec (zlength temp) 3), (Z.ltb_spec (zlength temp) 2); try lia;
      rewrite ?andb_true_r, ?andb_false_r.
    - eapply (grows_weaken _ (1 + (1 + n))); [lia|].
      apply grows_bind; [lia|apply grows_if; [done|apply grows_lput]|]. intros t.
      apply grows_bind; [lia|apply grows_if; [done|apply grows_lput]|]. intros t'. apply HP.
    - eapply (grows_weaken _ (1 + n)); [lia|].
      apply grows_bind; [lia|apply grows_if; [done|apply grows_lput]|]. intros t. apply HP.
    - eapply (grows_weaken _ n); [lia|]. apply HP. }
  apply Hlead; [pose proof (zlength_nonneg temp); case_test; lia|].
  intros r. apply grows_bind; [by case_test| |].
  - rewrite <- (zlength_rev temp). apply grows_foldl.
  - intros t. apply Hdot.
Qed.

Lemma ip4_emits addr f0 f1 f2 fmt : bytes_ok 4 addr →
  ∃ text, ∀ endp o, emits endp o text (ip4_addr_string endp addr spec (f0 :: f1 :: f2 :: fmt) o).
Proof.
  intros Ha. unfold ip4_addr_string.
  change (array_get (f0 :: f1 :: f2 :: fmt) 0) with (Ret f0).
  change (array_get (f0 :: f1 :: f2 :: fmt) 2) with (Ret f2). cbn [mbind cres_bind].
  apply (local_nul_emits 16 15); [done..|]. by apply grows_ip4.
Qed.
End addresses.

Section ip6.
Context (spec : printf_spec) (Hs : is_s16 (field_width spec)).
Context (addr : list Z) (Ha : bytes_ok 16 addr).

Lemma group_ret n l i : bytes_ok (2 * n) l → 0 ≤ i < n → ∃ g, group l i = Ret g.
Proof.
  intros Hl Hi. unfold group.
  destruct (bytes_get (2 * n) l (2 * i) Hl) as (hi & -> & _); [lia|].
  destruct (bytes_get (2 * n) l (2 * i + 1) Hl) as (lo & -> & _); [lia|]. cbn. eauto.
Qed.

Lemma groups_ret l (rds : nat) : bytes_ok (2 * Z.of_nat rds) l →
  ∃ gs, for_range rds (λ i gs, g ← group l i; Ret (gs ++ [g])) [] = Ret gs ∧ length gs = rds.
Proof.
  intros Hl. unfold for_range. assert (∀ k, (k ≤ rds)%nat → ∃ gs,
    foldl (λ m i, a ← m; g ← group l (Z.of_nat i); Ret (a ++ [g])) (Ret []) (seq 0 k) = Ret gs
    ∧ length gs = k) as H; [|by apply H].
  induction k as [|k IH]; intros Hk; [by exists []|].
  destruct IH as (gs & Hgs & Hlen); [lia|]. rewrite seq_S, foldl_app, Hgs. cbn.
  destruct (group_ret (Z.of_nat rds) l (Z.of_nat k) Hl) as [g ->]; [lia|]. cbn.
  exists (gs ++ [g]). split; [done|]. rewrite length_app. simpl. lia.
Qed.

Lemma grows_group cap p g : grows cap 4 p (put_group cap p g).
Proof.
  destruct g as [hi lo]. unfold put_group.
  assert (∀ x q, grows cap 1 q (c ← hex_asc_lo x; lput cap c q)) as H1.
  { intros x q. destruct (hex_asc_lo_ret x) as [c ->]. apply grows_lput. }
  destruct (truth hi).
  - apply (grows_bind _ 2 2); [done| |intros; apply grows_hex].
    destruct (0xf <? hi); [apply grows_hex|]. eapply grows_weaken; [|apply H1]. done.
  - destruct (0xf <? lo).
    + eapply grows_weaken; [|apply grows_hex]. done.
    + eapply grows_weaken; [|apply H1]. done.
Qed.

Definition colon (b : bool) : Z := if b then 1 else 0.

(** each group costs at most five characters, the colon before it included *)
Lemma put_groups_grows cap colonpos longest gs i skip needcolon p :
  zlength p + colon needcolon + 5 * zlength gs ≤ cap →
  ∃ t nc, put_groups cap colonpos longest gs i skip needcolon p = Ret (p ++ t, nc) ∧
    zlength t + colon nc ≤ colon needcolon + 5 * zlength gs.
Proof.
  revert i skip needcolon p. induction gs as [|g gs IH]; intros i skip nc p Hcap; simpl.
  { exists [], nc. rewrite app_nil_r. unfold zlength. simpl. split; [done|lia]. }
  rewrite zlength_cons in *. pose proof (zlength_nonneg gs).
  assert (0 ≤ colon nc ≤ 1) as Hc by (by destruct nc).
  destruct (0 <? skip).
  { destruct (IH (i + 1) (skip - 1) nc p) as (t & nc' & -> & Ht); [lia|].
    exists t, nc'. split; [done|lia]. }
  destruct (i =? colonpos).
  - destruct (grows_if cap 1 p (nc || (i =? 0)) (lput cap (chr ":") p)) as (t1 & -> & Ht1);
      [done|apply grows_lput|lia|]. cbn [mbind cres_bind].
    destruct (grows_lput cap (chr ":") (p ++ t1)) as (t2 & -> & Ht2);
      [rewrite zlength_app; lia|]. cbn [mbind cres_bind].
    destruct (IH (i + 1) (longest - 1) false ((p ++ t1) ++ t2)) as (t & nc' & -> & Ht).
    { rewrite !zlength_app. simpl. lia. }
    exists (t1 ++ t2 ++ t), nc'. rewrite !app_assoc, !zlength_app. simpl in Ht. split; [done|lia].
  - destruct (grows_bind cap (colon nc) 4 p
      (if nc then lput cap (chr ":") p else Ret p) (λ p, put_group cap p g)) as (t1 & E & Ht1).
    { done. } { destruct nc; [apply grows_lput|apply grows_ret]. }
    { intros. apply grows_group. } { lia. }
    destruct (if nc then lput cap (chr ":") p else Ret p) as [q| |]; [|done..].
    cbn [mbind cres_bind] in E |- *. rewrite E. cbn [mbind cres_bind].
    destruct (IH (i + 1) 0 true (p ++ t1)) as (t & nc' & -> & Ht).
    { rewrite zlength_app. simpl. lia. }
    exists (t1 ++ t), nc'. rewrite app_assoc, zlength_app. simpl in Ht. split; [done|lia].
Qed.

Lemma ip6_compressed_ret : ∃ t, ip6_compressed_string 46 addr = Ret (t ++ [0]) ∧ zlength t < 46.
Proof.
  unfold ip6_compressed_string. destruct Ha as [Hlen Hb].
  rewrite array_read_in by lia. cbn [mbind cres_bind].
  set (in6 := slice 0 16 addr).
  assert (bytes_ok 16 in6) as Hin6.
  { split; [unfold in6; rewrite length_slice; lia|]. by apply Forall_take, Forall_drop. }
  set (useIPv4 := _ || _). set (range := if useIPv4 then 6%nat else 8%nat).
  destruct (groups_ret in6 range) as (gs & -> & Hgs).
  { destruct Hin6. split; [unfold range; case_match; lia|done]. }
  cbn [mbind cres_bind]. destruct (longest_run (zero_runs gs)) as [longest colonpos].
  destruct (put_groups_grows 46 (if longest =? 1 then -1 else colonpos) longest gs 0 0 false [])
    as (t & nc & -> & Ht).
  { unfold zlength. rewrite Hgs. unfold range. simpl. case_match; lia. }
  cbn [mbind cres_bind app colon] in *.
  assert (zlength gs = Z.of_nat range) as Hzg by (unfold zlength; lia). rewrite Hzg in Ht.
  unfold range in Ht. destruct useIPv4.
  - assert (grows 46 (colon nc) t (if nc then lput 46 (chr ":") t else Ret t)) as Hg.
    { destruct nc; [apply grows_lput|apply grows_ret]. }
    destruct Hg as (t1 & -> & Ht1); [lia|]. cbn [mbind cres_bind].
    rewrite array_read_in by (unfold in6; rewrite ?length_slice; lia). cbn [mbind cres_bind].
    destruct (grows_ip4 46 (t ++ t1) (slice 12 4 in6) (chr "I") 0) as (t2 & -> & Ht2).
    { split; [rewrite length_slice; unfold in6; rewrite ?length_slice; lia|].
      apply Forall_take, Forall_drop, Hin6. }
    { rewrite zlength_app. lia. }
    cbn [mbind cres_bind]. exists ((t ++ t1) ++ t2). unfold lput.
    rewrite (proj2 (Z.ltb_lt _ _)) by (rewrite !zlength_app; lia).
    split; [done|rewrite !zlength_app; lia].
  - cbn [mbind cres_bind]. exists t. unfold lput.
    assert (0 ≤ colon nc) by by destruct nc.
    rewrite (proj2 (Z.ltb_lt _ _)) by lia. split; [done|lia].
Qed.

Lemma ip6_string_ret f0 : ∃ t, ip6_string 46 addr f0 = Ret (t ++ [0]) ∧ zlength t < 46.
Proof.
  unfold ip6_string.
  destruct (grows_for 46 (λ i, if i =? 7 then 4 else 5) 8 (λ i p,
      '(hi, lo) ← group addr i;
      p ← hex_byte_pack 46 p hi;
      p ← hex_byte_pack 46 p lo;
      if (f0 =? chr "I") && negb (i =? 7) then lput 46 (chr ":") p else Ret p) [])
    as (t & -> & Ht).
  - intros i p Hi. split; [by case_test|].
    destruct (group_ret 8 addr i) as [[hi lo] ->]; [done|lia|]. cbn [mbind cres_bind].
    destruct (Z.eqb_spec i 7); cbn [negb].
    + rewrite andb_false_r. apply (grows_bind _ 2 2); [done|apply grows_hex|]. intros t.
      apply (grows_bind _ 2 0); [done|apply grows_hex|]. intros. apply grows_ret.
    + apply (grows_bind _ 2 3); [done|apply grows_hex|]. intros t.
      apply (grows_bind _ 2 1); [done|apply grows_hex|]. intros t'.
      apply grows_if; [done|apply grows_lput].
  - done.
  - cbn [mbind cres_bind app]. change (total _ 8) with 39 in Ht. exists t. unfold lput.
    rewrite (proj2 (Z.ltb_lt _ _)) by lia. split; [done|lia].
Qed.

Lemma ip6_emits f0 f1 f2 fmt :
  ∃ text, ∀ endp o, emits endp o text (ip6_addr_string endp addr spec (f0 :: f1 :: f2 :: fmt) o).
Proof.
  unfold ip6_addr_string.
  change (array_get (f0 :: f1 :: f2 :: fmt) 0) with (Ret f0).
  change (array_get (f0 :: f1 :: f2 :: fmt) 2) with (Ret f2). cbn [mbind cres_bind].
  destruct (f0 =? chr "I"); cbn [mbind cres_bind]; [destruct (f2 =? chr "c")|];
    (apply (local_string_emits 46); [done..|]);
    first [apply ip6_compressed_ret|apply ip6_string_ret].
Qed.

Lemma uuid_emits f0 f1 fmt :
  ∃ text, ∀ endp o, emits endp o text (uuid_string endp addr spec (f0 :: f1 :: fmt) o).
Proof.
  unfold uuid_string. change (array_get (f0 :: f1 :: fmt) 1) with (Ret f1).
  cbn [mbind cres_bind]. set (le := (f1 =? chr "L") || (f1 =? chr "l")).
  destruct (grows_for 37 (λ i, if (i =? 3) || (i =? 5) || (i =? 7) || (i =? 9) then 3 else 2) 16
    (λ i p,
      idx ← (if le then array_get uuid_le i else Ret i);
      b ← array_get addr idx;
      p ← hex_byte_pack 37 p b;
      if (i =? 3) || (i =? 5) || (i =? 7) || (i =? 9)
      then lput 37 (chr "-") p else Ret p) []) as (t & -> & Ht).
  - intros i p Hi. split; [by case_test|].
    assert (∃ idx, (if le then array_get uuid_le i else Ret i) = Ret idx ∧ 0 ≤ idx < 16)
      as (idx & -> & Hidx).
    { destruct le; [|eauto]. destruct (array_get_in uuid_le i) as (x & Hx & Hz); [done|].
      exists x. split; [done|]. apply (Forall_zlookup (λ x, 0 ≤ x < 16) _ _ _) in Hz; [done|].
      repeat (constructor; [lia|]). constructor. }
    cbn [mbind cres_bind]. destruct (bytes_get 16 addr idx Ha) as (b & -> & _); [done|].
    cbn [mbind cres_bind]. destruct (_ || (i =? 9)).
    + apply (grows_bind _ 2 1); [done|apply grows_hex|]. intros. apply grows_lput.
    + apply (grows_bind _ 2 0); [done|apply grows_hex|]. intros. apply grows_ret.
  - done.
  - change (total _ 16) with 36 in Ht. cbn [mbind cres_bind app]. unfold lput.
    rewrite (proj2 (Z.ltb_lt _ _)) by lia. cbn [mbind cres_bind].
    set (uc := (f1 =? chr "L") || (f1 =? chr "B")).
    apply (local_string_emits 37 (Ret (if uc then toupper <$> t ++ [0] else t ++ [0]))); [done..|].
    destruct uc.
    + exists (toupper <$> t). rewrite fmap_app. split; [done|]. autorewrite with zlen. lia.
    + exists t. split; [done|lia].
Qed.
End ip6.

(** ** Resources: the array [sym] of 59 characters *)
Definition sym_grows (n : Z) (p : outbuf) (m : cres outbuf) : Prop :=
  0 ≤ pos p → zlength (mem p) = RSRC_SYM_SIZE → pos p + n ≤ RSRC_SYM_SIZE →
  ∃ t, m = Ret (emit RSRC_SYM_SIZE t p) ∧ zlength t ≤ n.

Lemma sym_grows_bind n1 n2 p m k :
  0 ≤ n2 → sym_grows n1 p m → (∀ p', sym_grows n2 p' (k p')) → sym_grows (n1 + n2) p (m ≫= k).
Proof.
  intros H2 Hm Hk H0 Hl Hn. destruct Hm as (t & -> & Ht); [lia..|]. cbn.
  pose proof (zlength_nonneg t).
  destruct (Hk (emit RSRC_SYM_SIZE t p)) as (t' & -> & Ht');
    rewrite ?emit_pos, ?emit_length; [lia..|].
  exists (t ++ t'). rewrite emit_app, zlength_app. split; [done|lia].
Qed.
Lemma sym_grows_emits n p text m :
  emits RSRC_SYM_SIZE p text m → zlength text ≤ n → sym_grows n p m.
Proof.
  intros Hm Hn H0 Hl Hp. exists text. split; [|done]. apply Hm. split; [done|lia].
Qed.
Lemma sym_grows_ret p : sym_grows 0 p (Ret p).
Proof. intros ???. by exists []. Qed.
Lemma sym_grows_weaken n n' p m : n ≤ n' → sym_grows n p m → sym_grows n' p m.
Proof. intros Hn Hm ???. destruct Hm as (t & -> & ?); [lia..|]. exists t. split; [done|lia]. Qed.
Lemma sym_grows_if n p (b : bool) m : 0 ≤ n → sym_grows n p m → sym_grows n p (if b then m else Ret p).
Proof. intros. destruct b; [done|]. eapply sym_grows_weaken; [|apply sym_grows_ret]. done. Qed.
Lemma sym_grows_raw c p : sym_grows 1 p (raw_put c p).
Proof.
  intros H0 Hl Hp. exists [c]. split; [|done]. unfold raw_put. rewrite array_set_in by lia.
  cbn. unfold emit1. by rewrite (proj2 (Z.ltb_lt _ _)) by lia.
Qed.
(** the words are at most ten characters long *)
Lemma sym_grows_word s n p :
  strnlen (bytes s ++ [0]) 10 = Ret n → zlength (string_text n (bytes s ++ [0]) str_spec) = n →
  zlength (bytes s) < 2 ^ 30 →
  sym_grows n p (string_field RSRC_SYM_SIZE (bytes s ++ [0]) str_spec p).
Proof.
  intros Hn Ht Hs. eapply sym_grows_emits.
  - apply string_field_emits; [done|autorewrite with zlen; lia|done].
  - by rewrite Ht.
Qed.
(** and the numbers too *)
Lemma sym_grows_number num f b w p :
  is_u32 num → (b = 10 ∧ f = 0 ∨ b = 16 ∧ has (rsrc_num f b w) SIGN = false) → -1 ≤ w ≤ 10 →
  sym_grows 10 p (number RSRC_SYM_SIZE num (rsrc_num f b w) p).
Proof.
  intros Hn Hb Hw. set (spec := rsrc_num f b w). unfold is_u32 in Hn.
  assert (base_ok (base spec)) as Hbo by (unfold base_ok, spec; simpl; lia).
  assert (is_u64 num) as Hnu by (unfold is_u64; lia).
  assert (widths_ok spec) as Hwo by (split; simpl; lia).
  assert (has spec SIGN = false) as HS by (destruct Hb as [[-> ->]|[-> ?]]; done).
  eapply sym_grows_emits.
  { apply number_emits; [unfold is_s16; simpl; lia|done..]. }
  rewrite number_out_exact by done. unfold number_text, number_sign_text, number_abs.
  rewrite HS. cbn [andb]. change (field_width spec) with w. change (precision spec) with (-1).
  set (pfx := number_prefix spec). set (ds := rev _).
  assert (zlength pfx + zlength ds ≤ 10 ∧ 0 ≤ zlength pfx) as [Hp1 Hp2].
  { unfold ds, digit_text, pfx, number_prefix. autorewrite with zlen.
    change (base spec) with b. destruct Hb as [[-> ->]|[-> _]].
    - assert (zlength (rev_digits 10 num) ≤ 10);
        [|destruct (has spec SPECIAL); cbn [Z.eqb Pos.eqb]; rewrite zlength_nil; lia].
      apply (radix_digits_bound 64 10 9); [lia|]. change (10 ^ (1 + Z.of_nat 9)) with 10000000000. lia.
    - assert (zlength (rev_digits 16 num) ≤ 8).
      { apply (radix_digits_bound 64 16 7); [lia|]. change (16 ^ (1 + Z.of_nat 7)) with (2 ^ 32). lia. }
      destruct (has spec SPECIAL); cbn [Z.eqb Pos.eqb]; autorewrite with zlen; lia. }
  pose proof (zlength_nonneg ds).
  repeat case_match; autorewrite with zlen; lia.
Qed.

(** what is printed once the array is finished *)
Definition prints (n : Z) (p : outbuf) (m : Z → outbuf → cres outbuf) : Prop :=
  0 ≤ pos p → zlength (mem p) = RSRC_SYM_SIZE → pos p + n ≤ RSRC_SYM_SIZE →
  ∃ text, ∀ endp o, emits endp o text (m endp o).

Lemma prints_bind n1 n2 p a k :
  0 ≤ n2 → sym_grows n1 p a → (∀ p', prints n2 p' (k p')) →
  prints (n1 + n2) p (λ endp o, a ≫= λ p, k p endp o).
Proof.
  intros H2 Ha Hk H0 Hl Hn. destruct Ha as (t & -> & Ht); [lia..|]. cbn [mbind cres_bind].
  pose proof (zlength_nonneg t). apply Hk; rewrite ?emit_pos, ?emit_length; lia.
Qed.
Lemma prints_end p spec : is_s16 (field_width spec) →
  prints 1 p (λ endp o, p ← raw_put 0 p; string_field endp (mem p) spec o).
Proof.
  intros Hs H0 Hl Hp.
  destruct (sym_grows_raw 0 p) as (t & E & _); [done..|]. unfold raw_put in *.
  rewrite array_set_in in * by lia. cbn [mbind cres_bind mem] in *.
  destruct (strnlen_nul (<[Z.to_nat (pos p):=0]> (mem p)) (u32 (precision spec))) as [len Hlen].
  { apply list_elem_of_lookup. exists (Z.to_nat (pos p)). apply list_lookup_insert_eq.
    unfold zlength in Hl. lia. }
  exists (string_text len (<[Z.to_nat (pos p):=0]> (mem p)) spec). intros endp o.
  apply string_field_emits; [done| |done]. rewrite zlength_insert, Hl. done.
Qed.

Lemma resource_emits start end_ rflags spec f0 fmt :
  is_u32 start → is_u32 end_ → is_u32 rflags → is_s16 (field_width spec) →
  ∃ text, ∀ endp o, emits endp o text
    (resource_string endp start end_ rflags spec (f0 :: fmt) o).
Proof.
  intros Hst Hen Hfl Hfw. unfold resource_string. cbn [deref mbind cres_bind].
  set (flag := λ f, truth (Z.land rflags f)).
  set (word := λ s p, string_field RSRC_SYM_SIZE (bytes s ++ [0]) str_spec p).
  set (p0 := Outbuf _ 0).
  destruct (if flag IORESOURCE_IO then _ else _) as [[name specp] decode] eqn:Ename.
  assert ((∀ p, sym_grows 4 p (word name p)) ∧ (∀ num p, is_u32 num → sym_grows 10 p (number RSRC_SYM_SIZE num specp p)))
    as [Hname Hnum].
  { revert Ename. repeat case_match; intros [= <- <- _]; (split; [intros p; by apply sym_grows_word|]);
    intros num p Hn; (apply sym_grows_number; [done| |lia]); (by left) || (by right). }
  assert (∀ p, sym_grows 6 p (word " 64bit" p) ∧ sym_grows 5 p (word " pref" p) ∧
    sym_grows 7 p (word " window" p) ∧ sym_grows 9 p (word " disabled" p) ∧
    sym_grows 7 p (word " flags " p)) as Hw.
  { intros p. split_and!; by apply sym_grows_word. }
  assert (∀ p, prints 2 p (λ endp o, p ← raw_put (chr "]") p; p ← raw_put 0 p;
    string_field endp (mem p) spec o)) as Hend.
  { intros p. apply (prints_bind 1 1); [done|apply sym_grows_raw|]. intros. by apply prints_end. }
  apply (prints_bind 1 54 p0); [done|apply sym_grows_raw| |done..]. intros p1.
  apply (prints_bind 4 50); [done|apply Hname|]. intros p2.
  apply (prints_bind 10 40); [done|by apply Hnum|]. intros p3.
  apply (prints_bind 11 29); [done| |intros p4].
  { apply sym_grows_if; [done|]. apply (sym_grows_bind 1 10); [done|apply sym_grows_raw|].
    intros. by apply Hnum. }
  apply (prints_bind 27 2); [done| |intros p5; apply Hend].
  destruct decode.
  - repeat (first [apply (sym_grows_bind 6 21)|apply (sym_grows_bind 5 16)|apply (sym_grows_bind 7 9)];
      [done|apply sym_grows_if; [done|apply Hw]|intros ?]).
    apply sym_grows_if; [done|apply Hw].
  - eapply (sym_grows_weaken (7 + 10)); [done|].
    apply sym_grows_bind; [done|apply Hw|]. intros. apply sym_grows_number; [done|by right|lia].
Qed.

(** ** pointer *)

(** what the letters after [%p] ask for *)
Inductive ptr_kind := PtrNumber | PtrResource | PtrBytes (n : Z) | PtrFormat.
Definition ptr_kind_of (fmt : list Z) : ptr_kind :=
  match fmt with
  | [] => PtrNumber
  | f0 :: rest =>
      if (f0 =? chr "R") || (f0 =? chr "r") then PtrResource
      else if (f0 =? chr "M") || (f0 =? chr "m") then PtrBytes 6
      else if (f0 =? chr "I") || (f0 =? chr "i") then
        match rest with
        | f1 :: _ => if f1 =? chr "6" then PtrBytes 16
                     else if f1 =? chr "4" then PtrBytes 4 else PtrNumber
        | [] => PtrNumber
        end
      else if f0 =? chr "U" then PtrBytes 16
      else if f0 =? chr "V" then PtrFormat
      else PtrNumber
  end.
Definition pointer_ok (fmt : list Z) (addr : Z) (obj : object) : Prop :=
  is_u32 addr ∧
  (addr = 0 ∧ head fmt ≠ Some (chr "K") ∨
   match ptr_kind_of fmt with
   | PtrNumber => True
   | PtrResource => ∃ start end_ rflags, obj = OResource start end_ rflags ∧
       is_u32 start ∧ is_u32 end_ ∧ is_u32 rflags
   | PtrBytes n => ∃ l, obj = OBytes l ∧ bytes_ok n l
   | PtrFormat => False
   end).
(** KSYM_SYMBOL_LEN is the longest text of kernel/kallsyms.c *)
Definition env_ok (env : printf_env) : Prop :=
  ∀ addr, zlength (sprint_backtrace env addr) < KSYM_SYMBOL_LEN ∧
    zlength (sprint_symbol env addr) < KSYM_SYMBOL_LEN ∧
    zlength (kallsyms_lookup env addr) < KSYM_SYMBOL_LEN.

Lemma nul_string_emits s spec : zlength s < 2 ^ 30 → is_s16 (field_width spec) →
  ∃ text, ∀ endp o, emits endp o text (string_field endp (s ++ [0]) spec o).
Proof.
  intros Hs Hw. apply (local_string_emits (2 ^ 30) (Ret (s ++ [0]))); [done..|]. by exists s.
Qed.

Lemma symbol_emits env addr ext spec : env_ok env → is_s16 (field_width spec) →
  ∃ text, ∀ endp o, emits endp o text (symbol_string env endp addr ext spec o).
Proof.
  intros Henv Hw. destruct (Henv addr) as (H1 & H2 & H3). unfold symbol_string. cbv zeta.
  set (s := if ext =? chr "B" then _ else _).
  assert (zlength s < KSYM_SYMBOL_LEN) as Hs by (unfold s; by repeat case_test).
  rewrite (proj2 (Z.ltb_lt _ _)) by done. cbn [mbind cres_bind].
  apply nul_string_emits; [|done]. change KSYM_SYMBOL_LEN with 223 in Hs. lia.
Qed.

Lemma nul_tail f0 fmt : 0 ∈ f0 :: fmt → f0 ≠ 0 → ∃ f1 fmt', fmt = f1 :: fmt' ∧ 0 ∈ fmt.
Proof.
  intros [H|H]%elem_of_cons Hf; [congruence|].
  destruct fmt as [|f1 fmt']; [by apply elem_of_nil in H|]. eauto.
Qed.

Lemma pointer_emits env fmt addr obj spec :
  env_ok env → 0 ∈ fmt → pointer_ok fmt addr obj → spec_wf spec →
  ∃ text, ∀ endp o, emits endp o text (pointer env fmt endp addr obj spec o).
Proof.
  intros Henv Hnul [Ha Hobj] [Hfw Hpr].
  destruct fmt as [|f0 fmt]; [by apply elem_of_nil in Hnul|].
  unfold pointer. cbn [deref mbind cres_bind head] in *.
  assert (∀ spec', is_s16 (field_width spec') → is_s16 (field_width (if field_width spec' =? -1
    then set_field_width (2 * SIZEOF_PTR) spec' else spec'))) as Hwiden by (intros; by case_test).
  assert (∀ a, is_u32 a → ∃ text, ∀ endp o, emits endp o text (number endp a (set_base 16
    (let spec := set_flags (Z.lor (flags spec) SMALL) spec in
     if field_width spec =? -1
     then set_flags (Z.lor (flags spec) ZEROPAD) (set_field_width (2 * SIZEOF_PTR) spec)
     else spec)) o)) as Hplain.
  { intros a Hu. eexists. intros endp o. apply number_emits.
    - cbn. by case_test.
    - by right; right.
    - unfold is_u32, is_u64 in *. lia. }
  destruct ((addr =? 0) && negb (f0 =? chr "K")) eqn:Enull.
  { apply (nul_string_emits (bytes "(null)")); [done|]. by apply Hwiden. }
  destruct Hobj as [[-> Hk]|Hobj].
  { rewrite (proj2 (Z.eqb_neq f0 _)) in Enull by congruence. done. }
  destruct (_ || (f0 =? chr "B")); [by apply symbol_emits|].
  unfold ptr_kind_of in Hobj.
  destruct ((f0 =? chr "R") || (f0 =? chr "r")).
  { destruct Hobj as (start & end_ & rflags & -> & ? & ? & ?). by apply resource_emits. }
  destruct ((f0 =? chr "M") || (f0 =? chr "m")) eqn:EM.
  { destruct Hobj as (l & -> & Hl). destruct (nul_tail f0 fmt Hnul) as (f1 & fmt' & -> & _).
    { by intros ->. }
    by apply mac_address_emits. }
  destruct ((f0 =? chr "I") || (f0 =? chr "i")) eqn:EI.
  { destruct (nul_tail f0 fmt Hnul) as (f1 & fmt' & -> & Hnul'); [by intros ->|].
    change (array_get (f0 :: f1 :: fmt') 1) with (Ret f1). cbn [mbind cres_bind].
    destruct (Z.eqb_spec f1 (chr "6")) as [->|]; [|destruct (Z.eqb_spec f1 (chr "4")) as [->|]].
    - destruct Hobj as (l & -> & Hl). destruct (nul_tail _ fmt' Hnul') as (f2 & fmt'' & -> & _); [done|].
      by apply ip6_emits.
    - destruct Hobj as (l & -> & Hl). destruct (nul_tail _ fmt' Hnul') as (f2 & fmt'' & -> & _); [done|].
      by apply ip4_emits.
    - by apply Hplain. }
  destruct (f0 =? chr "U") eqn:EU.
  { destruct Hobj as (l & -> & Hl). destruct (nul_tail f0 fmt Hnul) as (f1 & fmt' & -> & _).
    { by intros ->. }
    by apply uuid_emits. }
  destruct (f0 =? chr "V"); [done|].
  destruct (f0 =? chr "K"); [|by apply Hplain].
  destruct (in_interrupt env).
  { apply (nul_string_emits (bytes "pK-error")); [done|]. by apply Hwiden. }
  case_test; by apply Hplain.
Qed.
