(* ===== verification/PrintfLoop.v ===== *)
(** * vsnprintf as a whole

    [decode] always finds the next directive and makes progress; arguments that
    fit the format ([fits]) give a text and a terminated string, whatever the
    size of the buffer ([vsnprintf_text]). *)

From stdpp Require Import strings.
Import Ascii.AsciiSyntax.
From S2P Require Import Prelude Kstrtox Printf PrintfDigits PrintfSpec PrintfPtr.

(** ** Reading directives *)

(** [rest] is what is left of a NUL terminated [fmt] *)
Definition left_of (rest fmt : list Z) : Prop := rest `suffix_of` fmt ∧ 0 ∈ rest.

Lemma left_of_refl fmt : 0 ∈ fmt → left_of fmt fmt.
Proof. done. Qed.
Lemma left_of_trans a b c : left_of a b → left_of b c → left_of a c.
Proof. intros [? ?] [? _]. split; [by etrans|done]. Qed.
Lemma left_of_tail c fmt : 0 ∈ c :: fmt → c ≠ 0 → left_of fmt (c :: fmt).
Proof. intros H Hc. destruct (nul_tail c fmt H Hc) as (? & ? & -> & ?). split; [by eexists [_]|done]. Qed.
Lemma left_of_length rest fmt : left_of rest fmt → (length rest ≤ length fmt)%nat.
Proof. intros [? _]. by apply suffix_length. Qed.

Lemma deref_nul fmt : 0 ∈ fmt → ∃ c rest, fmt = c :: rest ∧ deref fmt = Ret c.
Proof. destruct fmt as [|c rest]; [by intros ?%elem_of_nil|eauto]. Qed.

Lemma isdigit_nonzero c : isdigit c = true → c ≠ 0.
Proof. by intros H ->. Qed.
Lemma isalnum_nonzero c : isalnum c = true → c ≠ 0.
Proof. by intros H ->. Qed.

Lemma skip_atoi_ok fmt i : 0 ∈ fmt → ∃ n rest, skip_atoi_loop fmt i = Ret (n, rest) ∧ left_of rest fmt.
Proof.
  revert i. induction fmt as [|c fmt IH]; intros i H; [by apply elem_of_nil in H|]. simpl.
  destruct (isdigit c) eqn:E; [|by eexists _, _].
  pose proof (left_of_tail c fmt H (isdigit_nonzero c E)) as Ht.
  destruct (IH (s32 (i * 10 + c - 48))) as (n & rest & -> & Hr); [apply Ht|].
  eexists _, _. split; [done|]. by eapply left_of_trans.
Qed.

Lemma skip_alnum_ok fmt : 0 ∈ fmt → ∃ rest, skip_alnum fmt = Ret rest ∧ left_of rest fmt ∧
  (∀ c, head fmt = Some c → isalnum c = true → (length rest < length fmt)%nat).
Proof.
  induction fmt as [|c fmt IH]; intros H; [by apply elem_of_nil in H|]. simpl.
  destruct (isalnum c) eqn:E.
  - pose proof (left_of_tail c fmt H (isalnum_nonzero c E)) as Ht.
    destruct IH as (rest & -> & Hr & _); [apply Ht|]. exists rest.
    split; [done|]. split; [by eapply left_of_trans|].
    intros _ _ _. apply left_of_length in Hr. lia.
  - eexists. split; [done|]. split; [done|]. intros ? [= <-]. congruence.
Qed.

Lemma decode_flags_ok c fmt fl : c ≠ 0 → 0 ∈ c :: fmt →
  ∃ rest fl', decode_flags (c :: fmt) fl = Ret (rest, fl') ∧ left_of rest fmt.
Proof.
  revert c fl. induction fmt as [|d fmt IH]; intros c fl Hc H.
  { apply (nul_tail c []) in H as (? & ? & ? & _); done. }
  cbn [decode_flags deref mbind cres_bind].
  pose proof (left_of_tail c (d :: fmt) H Hc) as [_ Ht].
  destruct (flag_of d) as [f|] eqn:Ef; [|eexists _, _; split; [done|by apply left_of_refl]].
  assert (d ≠ 0) as Hd by by intros ->.
  destruct (IH d (Z.lor fl f) Hd Ht) as (rest & fl' & E & Hr). cbn [decode_flags] in E.
  eexists _, _. split; [exact E|]. eapply left_of_trans; [done|]. by apply left_of_tail.
Qed.

Lemma skip_text_ok fmt : 0 ∈ fmt → ∃ rest c, skip_text fmt = Ret rest ∧ left_of rest fmt ∧
  head rest = Some c ∧ (c = 0 ∨ c = chr "%").
Proof.
  induction fmt as [|c fmt IH]; intros H; [by apply elem_of_nil in H|]. cbn [skip_text].
  destruct (Z.eqb_spec c 0) as [->|Hc]; [by eexists _, _; split_and!; [done|apply left_of_refl|done|auto]|].
  destruct (Z.eqb_spec c (chr "%")) as [->|Hp]; [by eexists _, _; split_and!; [done|apply left_of_refl|done|auto]|]. cbn [orb].
  pose proof (left_of_tail c fmt H Hc) as Ht.
  destruct IH as (rest & d & -> & Hr & ?); [apply Ht|].
  eexists _, _. split; [done|]. split; [by eapply left_of_trans|done].
Qed.

(** types that are completed by a further call *)
Definition pending (t : format_type) : bool :=
  match t with FORMAT_TYPE_WIDTH | FORMAT_TYPE_PRECISION => true | _ => false end.
(** what a directive gives: the fields are in range, and [%p] leaves the [p] *)
Record directive (rest : list Z) (spec : printf_spec) : Prop := {
  dir_wf : spec_wf spec;
  dir_base : type spec = FORMAT_TYPE_NONE ∨ pending (type spec) = true ∨ base_ok (base spec);
  dir_ptr : type spec = FORMAT_TYPE_PTR → head rest = Some (chr "p")
}.

Lemma ptr_add_nul c fmt : 0 ∈ c :: fmt → c ≠ 0 → ptr_add (c :: fmt) 1 = Ret fmt ∧ left_of fmt (c :: fmt).
Proof. intros H Hc. split; [apply ptr_add_1|by apply left_of_tail]. Qed.

Lemma number_type_pending spec : pending (number_type spec) = false ∧
  number_type spec ≠ FORMAT_TYPE_PTR ∧ number_type spec ≠ FORMAT_TYPE_NONE.
Proof. unfold number_type. repeat case_match; done. Qed.

(** the part after the qualifier *)
Lemma decode_conversion_ok fmt spec : 0 ∈ fmt → spec_wf spec →
  ∃ rest spec',
    decode_conversion fmt spec = Ret (rest, spec') ∧
    left_of rest fmt ∧ directive rest spec' ∧ pending (type spec') = false.
Proof.
  intros H Hwf. destruct (deref_nul fmt H) as (c & tl & -> & Hd). unfold decode_conversion. rewrite Hd. cbn [mbind cres_bind].
  assert (∀ s b, c = b → b ≠ 0 → spec_wf s → base_ok (base s) → pending (type s) = false →
    type s ≠ FORMAT_TYPE_PTR → ∃ rest spec', (fmt ← ptr_add (c :: tl) 1; Ret (fmt, s)) = Ret (rest, spec') ∧
      left_of rest (c :: tl) ∧ directive rest spec' ∧ pending (type spec') = false) as Hnext.
  { intros s b -> Hb ? ? ? ?. destruct (ptr_add_nul b tl H Hb) as [-> ?]. cbn.
    eexists _, _. split; [done|]. split; [done|]. split; [|done]. split; auto. done. }
  repeat (case_test; [first
    [eapply Hnext; [by apply Z.eqb_eq|done|done|first [by right; left|by left|by right; right]
       |apply number_type_pending || done|apply number_type_pending || done]|idtac]|]); bprop.
  - eexists _, _. split; [done|]. split; [done|]. split; [|done].
    split; [done|by right; right; right; left|]. intros _. simpl. by f_equal.
  - destruct E7 as [E7|E7]; apply Z.eqb_eq in E7 as ->; (eapply Hnext; [done|done|done|by right; left|apply number_type_pending..]).
  - eexists _, _. split; [done|]. split; [done|]. split; [|done].
    split; [done|by right; right; right; left|done].
Qed.

Lemma decode_qualifier_ok fmt spec : 0 ∈ fmt → spec_wf spec →
  ∃ rest spec', decode_qualifier fmt spec = Ret (rest, spec') ∧
    left_of rest fmt ∧ directive rest spec' ∧ pending (type spec') = false.
Proof.
  intros H Hwf. destruct (deref_nul fmt H) as (c & tl & -> & Hd).
  unfold decode_qualifier. rewrite Hd. cbn [mbind cres_bind].
  assert (∀ fmt' q, left_of fmt' (c :: tl) → ∃ rest spec',
    decode_conversion fmt' (set_qualifier q spec) = Ret (rest, spec') ∧
    left_of rest (c :: tl) ∧ directive rest spec' ∧ pending (type spec') = false) as Hconv.
  { intros fmt' q Hl. destruct (decode_conversion_ok fmt' (set_qualifier q spec))
      as (rest & spec' & -> & Hr & ?); [apply Hl|done|].
    eexists _, _. split; [done|]. split; [by eapply left_of_trans|done]. }
  destruct (_ || (c =? chr "t")) eqn:Eq; cbn [mbind cres_bind]; [|by apply Hconv].
  assert (c ≠ 0) as Hc by by intros ->.
  destruct (ptr_add_nul c tl H Hc) as [-> Hl]. cbn [mbind cres_bind].
  destruct (deref_nul tl (proj2 Hl)) as (c' & tl' & -> & Hd'). rewrite Hd'. cbn [mbind cres_bind].
  destruct (Z.eqb_spec c c') as [<-|]; [|by apply Hconv].
  destruct (ptr_add_nul c tl' (proj2 Hl) Hc) as [-> Hl']. cbn [mbind cres_bind].
  assert (left_of tl' (c :: c :: tl')) by by eapply left_of_trans.
  repeat case_test; by apply Hconv.
Qed.

Lemma spec_wf_width x spec : spec_wf spec → spec_wf (set_field_width x spec).
Proof. intros [? ?]. split; [apply s16_range|done]. Qed.
Lemma spec_wf_precision x spec : spec_wf spec → spec_wf (set_precision x spec).
Proof. intros [? ?]. split; [done|apply s16_range]. Qed.
#[local] Hint Resolve spec_wf_width spec_wf_precision : printf.

Lemma decode_precision_ok fmt spec : 0 ∈ fmt → spec_wf spec →
  ∃ rest spec', decode_precision fmt spec = Ret (rest, spec') ∧
    left_of rest fmt ∧ directive rest spec' ∧
    (pending (type spec') = true → (length rest < length fmt)%nat).
Proof.
  intros H Hwf. destruct (deref_nul fmt H) as (c & tl & -> & Hd).
  unfold decode_precision. rewrite Hd. cbn [mbind cres_bind].
  assert (∀ fmt' s, left_of fmt' (c :: tl) → spec_wf s → ∃ rest spec',
    decode_qualifier fmt' s = Ret (rest, spec') ∧ left_of rest (c :: tl) ∧ directive rest spec' ∧
    (pending (type spec') = true → (length rest < length (c :: tl))%nat)) as Hq.
  { intros fmt' s Hl Hs. destruct (decode_qualifier_ok fmt' s) as (rest & spec' & -> & Hr & Hdir & Hp);
      [apply Hl|done|].
    eexists _, _. split; [done|]. split; [by eapply left_of_trans|]. rewrite Hp. done. }
  destruct (Z.eqb_spec c (chr ".")) as [->|]; [|apply Hq; auto with printf; by apply left_of_refl].
  destruct (ptr_add_nul (chr ".") tl H) as [-> Hl]; [done|]. cbn [mbind cres_bind].
  destruct (deref_nul tl (proj2 Hl)) as (c' & tl' & -> & Hd'). rewrite Hd'. cbn [mbind cres_bind].
  destruct (isdigit c') eqn:E.
  - destruct (skip_atoi_ok (c' :: tl') 0) as (n & rest & E' & Hr); [apply Hl|].
    unfold skip_atoi. rewrite E'. cbn [mbind cres_bind].
    apply Hq; [by eapply left_of_trans|]. case_test; auto with printf.
  - destruct (Z.eqb_spec c' (chr "*")) as [->|]; [|apply Hq; auto with printf].
    destruct (ptr_add_nul (chr "*") tl' (proj2 Hl)) as [-> Hl']; [done|]. cbn [mbind cres_bind].
    eexists _, _. split; [done|]. split; [by eapply left_of_trans|]. split.
    + split; [|by right; left|done]. by apply (spec_wf_precision (-1)).
    + simpl. lia.
Qed.

(** progress: two units for a character, one for a pending type *)
Definition todo (fmt : list Z) (spec : printf_spec) : nat :=
  2 * length fmt + (if pending (type spec) then 1 else 0).

(** a directive from its beginning *)
Lemma decode_text fmt spec : 0 ∈ fmt → head fmt ≠ Some 0 → spec_wf spec →
  ∃ rest spec',
    (rest ← skip_text fmt;
     c ← deref rest;
     if negb (zlength rest =? zlength fmt) || (c =? 0)
     then Ret (rest, set_type FORMAT_TYPE_NONE spec)
     else
       '(fmt, fl) ← decode_flags rest 0;
       c ← deref fmt;
       if isdigit c then
         '(n, fmt) ← skip_atoi fmt;
         decode_precision fmt (set_field_width n
           (set_field_width (-1) (set_flags fl (set_type FORMAT_TYPE_NONE spec))))
       else if c =? chr "*" then
         fmt ← ptr_add fmt 1; Ret (fmt, set_type FORMAT_TYPE_WIDTH
           (set_field_width (-1) (set_flags fl (set_type FORMAT_TYPE_NONE spec))))
       else decode_precision fmt
         (set_field_width (-1) (set_flags fl (set_type FORMAT_TYPE_NONE spec)))) = Ret (rest, spec') ∧
    left_of rest fmt ∧ directive rest spec' ∧
    (2 * length rest + (if pending (type spec') then 1 else 0) < 2 * length fmt + 0)%nat.
Proof.
  intros H Hhd Hwf. destruct (skip_text_ok fmt H) as (rest & c & -> & Hl & Hc & Hc0).
  destruct rest as [|d rest]; [done|]. simpl in Hc. injection Hc as ->. cbn [mbind cres_bind deref].
  pose proof (left_of_length _ _ Hl) as Hlen.
  destruct (Z.eqb_spec (zlength (c :: rest)) (zlength fmt)) as [Hz|Hz]; cbn [negb orb].
  2: { eexists _, _. split; [done|]. split; [done|]. split; [by split; [|left|]|].
       unfold zlength in Hz. cbn [set_type type pending]. lia. }
  assert (fmt = c :: rest) as ->.
  { destruct Hl as [[k ->] _]. unfold zlength in Hz. rewrite length_app in Hz.
    destruct k; [done|]. simpl in Hz. lia. }
  destruct Hc0 as [-> | ->]; [done|]. cbn [Z.eqb].
  destruct (decode_flags_ok (chr "%") rest 0) as (fmt & fl & -> & Hf); [done|apply Hl|].
  cbn [mbind cres_bind]. set (s := set_field_width (-1) _).
  assert (spec_wf s) as Hs by (destruct Hwf; split; [done|simpl; done]).
  pose proof (left_of_length _ _ Hf) as Hflen.
  assert (left_of rest (chr "%" :: rest)) as Hr by (apply left_of_tail; [apply Hl|done]).
  assert (∀ fmt' s', left_of fmt' fmt → spec_wf s' → ∃ rest' spec',
    decode_precision fmt' s' = Ret (rest', spec') ∧ left_of rest' (chr "%" :: rest) ∧
    directive rest' spec' ∧
    (2 * length rest' + (if pending (type spec') then 1 else 0) < 2 * length (chr "%" :: rest) + 0)%nat) as Hprec.
  { intros fmt' s' Hl' Hs'. destruct (decode_precision_ok fmt' s' (proj2 Hl') Hs')
      as (rest' & spec' & -> & Hl'' & Hd & Hp).
    eexists _, _. split; [done|]. split; [by do 3 (eapply left_of_trans; [done|])|]. split; [done|].
    apply left_of_length in Hl', Hl''. simpl. destruct (pending (type spec')); lia. }
  destruct (deref_nul fmt (proj2 Hf)) as (c & tl & -> & ->). cbn [mbind cres_bind].
  destruct (isdigit c) eqn:E.
  - destruct (skip_atoi_ok (c :: tl) 0) as (n & rest' & E' & Hr'); [apply Hf|].
    unfold skip_atoi. rewrite E'. cbn [mbind cres_bind]. apply Hprec; auto with printf.
  - destruct (Z.eqb_spec c (chr "*")) as [->|]; [|apply Hprec; [apply left_of_refl, Hf|done]].
    destruct (ptr_add_nul (chr "*") tl (proj2 Hf)) as [-> Hl']; [done|]. cbn [mbind cres_bind].
    eexists _, _. split; [done|]. split; [by do 2 (eapply left_of_trans; [done|])|].
    split; [by split; [|right; left|]|]. cbn [set_type type pending]. simpl in *. lia.
Qed.

Lemma decode_ok fmt spec : 0 ∈ fmt → head fmt ≠ Some 0 ∨ pending (type spec) = true → spec_wf spec →
  ∃ rest spec', decode fmt spec = Ret (rest, spec') ∧ left_of rest fmt ∧ directive rest spec' ∧
    (todo rest spec' < todo fmt spec)%nat.
Proof.
  intros H Hhd Hwf. unfold todo, decode.
  assert (∀ s, spec_wf s → ∃ rest spec', decode_precision fmt s = Ret (rest, spec') ∧
    left_of rest fmt ∧ directive rest spec' ∧
    (2 * length rest + (if pending (type spec') then 1 else 0) < 2 * length fmt + 1)%nat) as Hprec.
  { intros s Hs. destruct (decode_precision_ok fmt s H Hs) as (rest & spec' & -> & Hl & Hd & Hp).
    eexists _, _. split; [done|]. split; [done|]. split; [done|].
    apply left_of_length in Hl. destruct (pending (type spec')) eqn:Ep; [|lia].
    specialize (Hp eq_refl). lia. }
  destruct (type spec) eqn:Et; cbn [pending] in *;
    try (by destruct Hhd as [Hhd|]; [exact (decode_text fmt _ H Hhd Hwf)|]).
  - apply Hprec. case_test; [|done]. split; [apply s16_range|apply Hwf].
  - destruct (decode_qualifier_ok fmt (set_type FORMAT_TYPE_NONE
      (if precision spec <? 0 then set_precision 0 spec else spec)) H) as (rest & spec' & -> & Hl & Hd & Hp).
    { case_test; [|done]. by apply (spec_wf_precision 0). }
    eexists _, _. split; [done|]. split; [done|]. split; [done|]. apply left_of_length in Hl.
    rewrite Hp. lia.
Qed.

(** ** Memory *)
(** a block written into a memory *)
Lemma zlookup_splice {A} (m bs : list A) p i : 0 ≤ p ≤ zlength m → 0 ≤ i →
  zlookup (take (Z.to_nat p) m ++ bs ++ drop (Z.to_nat (p + zlength bs)) m) i =
  if (p <=? i) && (i <? p + zlength bs) then zlookup bs (i - p) else zlookup m i.
Proof.
  intros Hp Hi. pose proof (zlength_nonneg bs). rewrite zlookup_app, zlength_take by lia.
  destruct (Z.ltb_spec i p).
  - rewrite zlookup_take, (proj2 (Z.ltb_lt i p)), (proj2 (Z.leb_gt p i)) by lia. done.
  - rewrite (proj2 (Z.leb_le p i)), zlookup_app by lia. cbn [andb].
    destruct (Z.ltb_spec (i - p) (zlength bs)), (Z.ltb_spec i (p + zlength bs)); try lia; [done|].
    rewrite zlookup_drop by lia. f_equal. lia.
Qed.

Lemma put_text_emits endp pre rest o :
  emits endp o pre (put_text endp (pre ++ rest) (zlength pre) o).
Proof.
  intros [Hp Hm]. unfold put_text. pose proof (zlength_nonneg pre) as Hpre.
  set (o' := emit endp pre o). assert (o' = Outbuf (mem o') (pos o + zlength pre)) as ->.
  { destruct o' as [m' p'] eqn:E. f_equal. change p' with (pos (Outbuf m' p')). rewrite <- E.
    apply emit_pos. }
  assert (∀ i, 0 ≤ i → zlookup (mem o') i = if (pos o <=? i) && (i <? Z.min endp (pos o + zlength pre))
    then zlookup pre (i - pos o) else zlookup (mem o) i) as Hlook.
  { intros i Hi. by apply emit_lookup. }
  destruct (Z.ltb_spec (pos o) endp) as [Hlt|Hge].
  - set (copy := if endp - pos o <? zlength pre then endp - pos o else zlength pre).
    assert (copy = Z.min (endp - pos o) (zlength pre)) as Hcopy.
    { unfold copy. case_test; bprop; lia. }
    rewrite array_read_in by (rewrite ?zlength_app; pose proof (zlength_nonneg rest); lia).
    cbn [mbind cres_bind]. rewrite (proj2 (Z.leb_le _ _)) by lia. cbn [mbind cres_bind].
    f_equal. f_equal. apply zlookup_ext. intros i Hi.
    assert (zlength (slice 0 copy (pre ++ rest)) = copy) as Hsl.
    { apply length_slice; rewrite ?zlength_app; pose proof (zlength_nonneg rest); lia. }
    rewrite <- Hsl at 2. rewrite zlookup_splice, Hsl, Hlook by lia.
    replace (Z.min endp (pos o + zlength pre)) with (pos o + copy) by lia.
    destruct (Z.leb_spec (pos o) i), (Z.ltb_spec i (pos o + copy)); cbn [andb]; try done.
    unfold slice. rewrite drop_0, zlookup_take, (proj2 (Z.ltb_lt _ _)), zlookup_app by lia.
    by rewrite (proj2 (Z.ltb_lt _ _)) by lia.
  - cbn [mbind cres_bind]. f_equal. f_equal. apply zlookup_ext. intros i Hi. rewrite Hlook by done.
    destruct (Z.leb_spec (pos o) i), (Z.ltb_spec i (Z.min endp (pos o + zlength pre))); cbn [andb]; (done || lia).
Qed.

(** ** Arguments that fit a format *)
Definition string_ok (a : Z) (obj : object) (spec : printf_spec) : Prop :=
  ∃ s, obj = OBytes s ∧ zlength s < 2 ^ 31 ∧
    (a < PAGE_SIZE ∨ ∃ len, strnlen s (u32 (precision spec)) = Ret len).
Definition is_text (t : format_type) : bool :=
  match t with
  | FORMAT_TYPE_NONE | FORMAT_TYPE_PERCENT_CHAR | FORMAT_TYPE_INVALID => true
  | _ => false
  end.
(** directives that take a 32 bit integer and print it *)
Definition is_int (t : format_type) : bool :=
  match t with
  | FORMAT_TYPE_ULONG | FORMAT_TYPE_LONG | FORMAT_TYPE_UBYTE | FORMAT_TYPE_BYTE
  | FORMAT_TYPE_USHORT | FORMAT_TYPE_SHORT | FORMAT_TYPE_UINT | FORMAT_TYPE_INT
  | FORMAT_TYPE_SIZE_T | FORMAT_TYPE_PTRDIFF => true
  | _ => false
  end.

(** [fits fmt spec args]: from the format [fmt] and the state [spec] on, each
    directive finds an argument of its kind *)
Inductive fits : list Z → printf_spec → list va_val → Prop :=
  | fits_end fmt spec args : head fmt = Some 0 → fits fmt spec args
  | fits_text fmt spec args rest spec' :
      head fmt ≠ Some 0 → decode fmt spec = Ret (rest, spec') → is_text (type spec') = true →
      fits rest spec' args → fits fmt spec args
  | fits_width fmt spec x args rest spec' :
      head fmt ≠ Some 0 → decode fmt spec = Ret (rest, spec') → type spec' = FORMAT_TYPE_WIDTH →
      fits rest (set_field_width (u32 x) spec') args → fits fmt spec (VInt x :: args)
  | fits_precision fmt spec x args rest spec' :
      head fmt ≠ Some 0 → decode fmt spec = Ret (rest, spec') → type spec' = FORMAT_TYPE_PRECISION →
      fits rest (set_precision (u32 x) spec') args → fits fmt spec (VInt x :: args)
  | fits_char fmt spec x args rest spec' :
      head fmt ≠ Some 0 → decode fmt spec = Ret (rest, spec') → type spec' = FORMAT_TYPE_CHAR →
      (∀ fw, fits rest (set_field_width fw spec') args) → fits fmt spec (VInt x :: args)
  | fits_str fmt spec a obj args rest spec' :
      head fmt ≠ Some 0 → decode fmt spec = Ret (rest, spec') → type spec' = FORMAT_TYPE_STR →
      string_ok a obj spec' → fits rest spec' args → fits fmt spec (VPtr a obj :: args)
  | fits_ptr fmt spec a obj args rest spec' rest' :
      head fmt ≠ Some 0 → decode fmt spec = Ret (rest, spec') → type spec' = FORMAT_TYPE_PTR →
      pointer_ok (tail rest) a obj → skip_alnum rest = Ret rest' →
      fits rest' spec' args → fits fmt spec (VPtr a obj :: args)
  | fits_nrchars fmt spec a obj args rest spec' :
      head fmt ≠ Some 0 → decode fmt spec = Ret (rest, spec') → type spec' = FORMAT_TYPE_NRCHARS →
      fits rest spec' args → fits fmt spec (VPtr a obj :: args)
  | fits_int fmt spec x args rest spec' :
      head fmt ≠ Some 0 → decode fmt spec = Ret (rest, spec') → is_int (type spec') = true →
      fits rest spec' args → fits fmt spec (VInt x :: args)
  | fits_longlong fmt spec x args rest spec' :
      head fmt ≠ Some 0 → decode fmt spec = Ret (rest, spec') → type spec' = FORMAT_TYPE_LONG_LONG →
      fits rest spec' args → fits fmt spec (VLong x :: args).

(** ** One round *)

(** the round writes [text] and stores the length so far at the addresses [nr] *)
Definition round_writes (env : printf_env) (fmt : list Z) (spec : printf_spec)
    (args : list va_val) (text : list Z) (nr : list Z)
    (fmt' : list Z) (spec' : printf_spec) (args' : list va_val) : Prop :=
  ∀ endp o nrs, room endp (zlength text) o →
    vsnprintf_step env endp (PState fmt spec args o nrs) =
    Ret (PState fmt' spec' args' (emit endp text o) (((λ a, (a, u32 (pos o))) <$> nr) ++ nrs)).

Lemma format_decode_spec fmt spec rest spec' pre :
  decode fmt spec = Ret (rest, spec') → fmt = pre ++ rest →
  format_decode fmt spec = Ret (zlength pre, spec') ∧ ptr_add fmt (zlength pre) = Ret rest.
Proof.
  intros Hd ->. unfold format_decode. rewrite Hd. cbn [mbind cres_bind]. rewrite zlength_app.
  split; [f_equal; f_equal; lia|]. unfold zlength. rewrite ptr_add_in by (rewrite length_app; lia).
  by rewrite drop_app_length.
Qed.

Section round.
Context (env : printf_env) (fmt : list Z) (spec : printf_spec).
Context (rest : list Z) (spec' : printf_spec).
Context (Hdec : decode fmt spec = Ret (rest, spec')) (Hleft : left_of rest fmt).
Context (Hdir : directive rest spec').

(** look at what a round does with the directive found *)
Ltac round_start :=
  let pre := fresh "pre" in let Hpre := fresh "Hpre" in
  let endp := fresh "endp" in let o := fresh "o" in let Hr := fresh "Hr" in
  destruct Hleft as [[pre Hpre] _];
  let E1 := fresh "E" in let E2 := fresh "E" in
  destruct (format_decode_spec fmt spec rest spec' pre Hdec Hpre) as [E1 E2];
  unfold round_writes, vsnprintf_step; cbn [ps_fmt ps_spec ps_out ps_args ps_nrchars];
  rewrite E1; cbn [mbind cres_bind]; rewrite E2; cbn [mbind cres_bind].

Lemma round_text args : is_text (type spec') = true →
  ∃ text, round_writes env fmt spec args text [] rest spec' args.
Proof.
  intros Ht. round_start. destruct (type spec') eqn:Et; try done.
  - exists pre. intros endp o nrs Hr. rewrite Hpre, put_text_emits by done. done.
  - exists [chr "%"]. intros endp o nrs Hr. by rewrite put_room.
  - exists [chr "%"]. intros endp o nrs Hr. by rewrite put_room.
Qed.

Lemma round_width x args : type spec' = FORMAT_TYPE_WIDTH →
  round_writes env fmt spec (VInt x :: args) [] [] rest (set_field_width (u32 x) spec') args.
Proof. intros Et. round_start. by rewrite Et. Qed.

Lemma round_precision x args : type spec' = FORMAT_TYPE_PRECISION →
  round_writes env fmt spec (VInt x :: args) [] [] rest (set_precision (u32 x) spec') args.
Proof. intros Et. round_start. by rewrite Et. Qed.

Lemma round_char x args : type spec' = FORMAT_TYPE_CHAR →
  ∃ text fw, round_writes env fmt spec (VInt x :: args) text [] rest (set_field_width fw spec') args.
Proof.
  intros Et. round_start. rewrite Et. destruct (dir_wf _ _ Hdir) as [Hfw _].
  set (first := if negb (has spec' LEFT)
    then count_rounds (λ _ new, 0 <? new) (field_width spec') else (O, field_width spec')).
  assert (is_s16 first.2) as Hs1.
  { unfold first. case_match; [by apply count_rounds_s16; auto with printf|done]. }
  set (second := count_rounds (λ _ new, 0 <? new) first.2).
  exists (replicate first.1 (chr " ") ++ [u8 (u32 x)] ++ replicate second.1 (chr " ")), second.2.
  intros endp o nrs Hr.
  rewrite !zlength_app in Hr. pose proof (zlength_nonneg (replicate second.1 (chr " "))).
  change (zlength [u8 (u32 x)]) with 1 in Hr.
  apply room_app in Hr as [Hr1 Hr2]; [|lia].
  assert ((if negb (has spec' LEFT)
    then count_down (λ _ new, 0 <? new) endp (chr " ") (field_width spec') o
    else Ret (o, field_width spec')) = Ret (emit endp (replicate first.1 (chr " ")) o, first.2)) as ->.
  { unfold first in *. destruct (negb (has spec' LEFT)); [|done].
    by apply emits_count_down; auto with printf. }
  cbn [mbind cres_bind va_int].
  change 1 with (zlength [u8 (u32 x)]) in Hr2. apply room_app in Hr2 as [Hr2 Hr3]; [|lia].
  rewrite put_room by done. cbn [mbind cres_bind].
  rewrite (emits_count_down _ endp (chr " ") first.2) by auto with printf.
  cbn [mbind cres_bind]. by rewrite !emit_app.
Qed.

Lemma round_str a obj args : type spec' = FORMAT_TYPE_STR → string_ok a obj spec' →
  ∃ text, round_writes env fmt spec (VPtr a obj :: args) text [] rest spec' args.
Proof.
  intros Et (s & -> & Hs & Hlen). round_start. rewrite Et. cbn [va_ptr mbind cres_bind object_bytes].
  destruct (dir_wf _ _ Hdir) as [Hfw _]. unfold string.
  destruct (Z.ltb_spec a PAGE_SIZE) as [Hlt|Hge].
  - destruct (nul_string_emits (bytes "(null)") spec') as [text Htext]; [done..|].
    exists text. intros endp o nrs Hr. change null_string with (bytes "(null)" ++ [0]).
    by rewrite Htext.
  - destruct Hlen as [?|[len Hlen]]; [lia|]. exists (string_text len s spec').
    intros endp o nrs Hr. by rewrite (string_field_emits endp s spec' len o).
Qed.

Lemma round_ptr a obj args rest' : env_ok env → type spec' = FORMAT_TYPE_PTR →
  pointer_ok (tail rest) a obj → skip_alnum rest = Ret rest' →
  ∃ text, round_writes env fmt spec (VPtr a obj :: args) text [] rest' spec' args.
Proof.
  intros Henv Et Hok Hskip. round_start. rewrite Et. cbn [va_ptr mbind cres_bind].
  pose proof (dir_ptr _ _ Hdir Et) as Hhd.
  destruct rest as [|p tl]; [done|]. injection Hhd as ->. cbn [tail] in Hok.
  assert (0 ∈ tl) as Hnul.
  { apply (left_of_tail (chr "p") tl); [apply Hleft|done]. }
  rewrite ptr_add_1. cbn [mbind cres_bind].
  destruct (pointer_emits env tl a obj spec') as [text Htext];
    [done..|apply (dir_wf _ _ Hdir)|].
  exists text. intros endp o nrs Hr. rewrite Htext by done. cbn [mbind cres_bind].
  by rewrite Hskip.
Qed.

Lemma round_nrchars a obj args : type spec' = FORMAT_TYPE_NRCHARS →
  round_writes env fmt spec (VPtr a obj :: args) [] [a] rest spec' args.
Proof. intros Et. round_start. by rewrite Et. Qed.

(** the 64 bit number of an integer directive *)
Lemma va_number_ok t x args : is_int t = true →
  ∃ num, va_number t (VInt x :: args) = Ret (num, args) ∧ is_u64 num.
Proof.
  pose proof (u32_range x) as H32. pose proof (u8_range (u32 x)) as H8.
  pose proof (u16_range (u32 x)) as H16. unfold_ranges.
  intros Ht. destruct t; try done; cbn; eexists; (split; [done|]); try apply u64_range;
    unfold is_u64; lia.
Qed.

Lemma round_number v args num :
  is_int (type spec') = true ∨ type spec' = FORMAT_TYPE_LONG_LONG →
  va_number (type spec') (v :: args) = Ret (num, args) → is_u64 num →
  ∃ text, round_writes env fmt spec (v :: args) text [] rest spec' args.
Proof.
  intros Ht Hva Hnum. round_start. destruct Hdir as [Hwf Hb _].
  exists (number_out num spec'). intros endp o nrs Hr.
  assert (number endp num spec' o = Ret (emit endp (number_out num spec') o)) as Hn.
  { apply number_emits; [apply Hwf| |done|done].
    destruct Hb as [Hb|[Hb|Hb]]; [|destruct (type spec'); naive_solver|done].
    rewrite Hb in Ht. naive_solver. }
  destruct (type spec') eqn:Et; try (by destruct Ht); rewrite Hva; cbn [mbind cres_bind];
    by rewrite Hn.
Qed.
End round.

(** ** The loop *)
Definition place (p : Z) (nr : list (Z * Z)) : list (Z * Z) :=
  (λ '(a, k), (a, u32 (p + k))) <$> nr.
(** from here on the loop writes [text] and, for [%n], stores [nr]: addresses
    with the number of characters before *)
Definition loop_writes (env : printf_env) (fmt : list Z) (spec : printf_spec)
    (args : list va_val) (text : list Z) (nr : list (Z * Z)) : Prop :=
  ∀ fuel endp o nrs, (todo fmt spec ≤ fuel)%nat → room endp (zlength text) o →
  ∃ fmt' spec' args', vsnprintf_loop fuel env endp (PState fmt spec args o nrs) =
    Some (Ret (PState fmt' spec' args' (emit endp text o) (place (pos o) nr ++ nrs))).

Lemma place_shift p n nr : place p ((λ '(a, k), (a, n + k)) <$> nr) = place (p + n) nr.
Proof.
  unfold place. rewrite <- list_fmap_compose. apply list_fmap_ext. intros i [a k] _. simpl.
  by rewrite Z.add_assoc.
Qed.

Lemma loop_round env fmt spec args text1 nr1 fmt' spec' args' text2 nr2 :
  head fmt ≠ Some 0 → 0 ∈ fmt → (todo fmt' spec' < todo fmt spec)%nat →
  round_writes env fmt spec args text1 nr1 fmt' spec' args' →
  loop_writes env fmt' spec' args' text2 nr2 →
  loop_writes env fmt spec args (text1 ++ text2)
    (((λ '(a, k), (a, zlength text1 + k)) <$> nr2) ++ ((λ a, (a, 0)) <$> nr1)).
Proof.
  intros Hhd Hnul Htodo Hround Hloop fuel endp o nrs Hfuel Hr. rewrite zlength_app in Hr.
  destruct (room_app _ _ _ _ Hr (zlength_nonneg text2)) as [Hr1 Hr2].
  destruct fmt as [|c fmt]; [by apply elem_of_nil in Hnul|].
  destruct fuel as [|fuel]; [lia|]. cbn [vsnprintf_loop ps_fmt].
  rewrite (proj2 (Z.eqb_neq c 0)) by (intros ->; done).
  rewrite Hround by done.
  destruct (Hloop fuel endp (emit endp text1 o) (((λ a, (a, u32 (pos o))) <$> nr1) ++ nrs))
    as (f & s & a & E); [lia|exact Hr2|].
  exists f, s, a. rewrite E, emit_app, emit_pos. do 3 f_equal.
  rewrite <- place_shift. unfold place at 2. rewrite fmap_app, <- app_assoc.
  f_equal. f_equal. unfold place. rewrite <- list_fmap_compose. apply list_fmap_ext.
  intros i x _. simpl. by rewrite Z.add_0_r.
Qed.

Lemma todo_type fmt spec spec' : type spec' = type spec → todo fmt spec' = todo fmt spec.
Proof. unfold todo. by intros ->. Qed.

Lemma fits_writes env fmt spec args :
  env_ok env → fits fmt spec args → 0 ∈ fmt → spec_wf spec →
  ∃ text nr, loop_writes env fmt spec args text nr.
Proof.
  intros Henv Hfits. induction Hfits as
    [fmt spec args Hhd
    |fmt spec args rest spec' Hhd Hdec Ht Hf IH
    |fmt spec x args rest spec' Hhd Hdec Ht Hf IH
    |fmt spec x args rest spec' Hhd Hdec Ht Hf IH
    |fmt spec x args rest spec' Hhd Hdec Ht Hf IH
    |fmt spec a obj args rest spec' Hhd Hdec Ht Hok Hf IH
    |fmt spec a obj args rest spec' rest' Hhd Hdec Ht Hok Hskip Hf IH
    |fmt spec a obj args rest spec' Hhd Hdec Ht Hf IH
    |fmt spec x args rest spec' Hhd Hdec Ht Hf IH
    |fmt spec x args rest spec' Hhd Hdec Ht Hf IH]; intros Hnul Hwf.
  { exists [], []. intros fuel endp o nrs _ _. destruct fmt as [|c fmt]; [done|].
    injection Hhd as ->. by destruct fuel; eexists _, _, _. }
  all: destruct (decode_ok fmt spec Hnul (or_introl Hhd) Hwf) as (r & s & E & Hl & Hd & Htodo);
    rewrite Hdec in E; injection E as <- <-; pose proof (dir_wf _ _ Hd) as Hwf'.
  - destruct IH as (text2 & nr2 & Hloop); [apply Hl|done|].
    edestruct (round_text env) as [text1 Hround]; [done..|].
    eexists _, _. by eapply loop_round.
  - destruct IH as (text2 & nr2 & Hloop); [apply Hl|by apply spec_wf_width|].
    eexists _, _. eapply (loop_round _ _ _ _ [] []); [done..| |by apply round_width|done].
    by rewrite (todo_type rest spec').
  - destruct IH as (text2 & nr2 & Hloop); [apply Hl|by apply spec_wf_precision|].
    eexists _, _. eapply (loop_round _ _ _ _ [] []); [done..| |by apply round_precision|done].
    by rewrite (todo_type rest spec').
  - edestruct (round_char env fmt spec rest spec' Hdec Hl Hd x args Ht) as (text1 & fw & Hround).
    destruct (IH fw) as (text2 & nr2 & Hloop); [apply Hl|by apply spec_wf_width|].
    eexists _, _. eapply loop_round; [done..| |done|done]. by rewrite (todo_type rest spec').
  - destruct IH as (text2 & nr2 & Hloop); [apply Hl|done|].
    edestruct (round_str env) as [text1 Hround]; [done..|].
    eexists _, _. by eapply loop_round.
  - destruct (skip_alnum_ok rest) as (r & E & Hl' & _); [apply Hl|].
    rewrite Hskip in E. injection E as <-.
    destruct IH as (text2 & nr2 & Hloop); [apply Hl'|done|].
    edestruct (round_ptr env) as [text1 Hround]; [done..|].
    eexists _, _. eapply loop_round; [done..| |done|done].
    eapply Nat.le_lt_trans; [|exact Htodo]. unfold todo. apply left_of_length in Hl'. lia.
  - destruct IH as (text2 & nr2 & Hloop); [apply Hl|done|].
    eexists _, _. eapply (loop_round _ _ _ _ [] [a]); [done..|by apply round_nrchars|done].
  - destruct IH as (text2 & nr2 & Hloop); [apply Hl|done|].
    destruct (va_number_ok (type spec') x args Ht) as (num & Hva & Hnum).
    edestruct (round_number env fmt spec rest spec') as [text1 Hround]; [done|done|done|by left|done|done|].
    eexists _, _. by eapply loop_round.
  - destruct IH as (text2 & nr2 & Hloop); [apply Hl|done|].
    edestruct (round_number env fmt spec rest spec' Hdec Hl Hd (VLong x) args (u64 x)) as [text1 Hround];
      [by right|by rewrite Ht|apply u64_range|].
    eexists _, _. by eapply loop_round.
Qed.

(** ** vsnprintf *)

(** the buffer afterwards: the text cut off at [size - 1], and a NUL *)
Definition stored (size : Z) (text m : list Z) : list Z :=
  if 0 <? size then
    let n := Z.min (size - 1) (zlength text) in
    take (Z.to_nat n) text ++ [0] ++ drop (Z.to_nat (n + 1)) m
  else m.

(** C9: for a format with fitting arguments there is one text such that
    [vsnprintf] returns its length and, whatever the size of the buffer, stores
    as much of it as fits with a terminating NUL; nothing beyond that changes,
    and no local array is overrun. The buffer may be smaller than [size] if the
    text fits into it, as for sprintf. *)
Theorem vsnprintf_text env fmt args :
  env_ok env → 0 ∈ fmt → fits fmt spec0 args →
  ∃ text nr, ∀ buf size m,
    0 ≤ buf → 0 ≤ size < 2 ^ 31 → buf + size < 2 ^ 32 →
    Z.min size (zlength text + 1) ≤ zlength m →
    vsnprintf env buf size m fmt args =
      Some (Ret (stored size text m, nr, s32 (zlength text))).
Proof.
  intros Henv Hnul Hfits. destruct (fits_writes env fmt spec0 args Henv Hfits Hnul) as (text & nr & Hloop).
  { done. }
  exists text, (place 0 nr). intros buf size m Hb Hs Hbs Hm. unfold vsnprintf.
  rewrite s32_id, (proj2 (Z.ltb_ge _ _)) by (unfold is_s32; lia).
  rewrite u32_id, (proj2 (Z.ltb_ge _ _)) by (unfold is_u32; lia).
  pose proof (zlength_nonneg text) as Ht.
  destruct (Hloop (2 * length fmt)%nat size (Outbuf m 0) []) as (f & s & a & ->).
  { unfold todo. simpl. lia. } { split; simpl; lia. }
  cbn [mbind cres_bind ps_out ps_nrchars]. rewrite app_nil_r. cbn [pos].
  assert (∀ i, 0 ≤ i → zlookup (mem (emit size text (Outbuf m 0))) i =
    if i <? Z.min size (zlength text) then zlookup text i else zlookup m i) as Hlook.
  { intros i Hi. rewrite emit_lookup by (simpl; lia). cbn [pos mem].
    rewrite (proj2 (Z.leb_le 0 i)), Z.sub_0_r, Z.add_0_l by lia. done. }
  rewrite emit_pos. cbn [pos]. rewrite Z.add_0_l. unfold stored.
  destruct (Z.ltb_spec 0 size) as [Hpos|Hz].
  - set (n := Z.min (size - 1) (zlength text)).
    assert ((if zlength text <? size then zlength text else size - 1) = n) as ->.
    { unfold n. case_test; bprop; lia. }
    rewrite array_set_in by (rewrite emit_length; simpl; lia). cbn [mbind cres_bind].
    do 4 f_equal. apply zlookup_ext. intros i Hi.
    rewrite zlookup_app, zlength_take by lia.
    destruct (Z.eq_dec i n) as [->|Hne].
    + rewrite zlookup_insert_eq by (rewrite emit_length; simpl; lia).
      rewrite (proj2 (Z.ltb_ge _ _)), Z.sub_diag by lia. done.
    + rewrite zlookup_insert_ne, Hlook by lia. destruct (Z.ltb_spec i n).
      * rewrite (proj2 (Z.ltb_lt _ _)), zlookup_take, (proj2 (Z.ltb_lt _ _)) by lia. done.
      * rewrite (proj2 (Z.ltb_ge _ _)) by lia. cbn [app]. rewrite (zlookup_cons_pos 0) by lia.
        rewrite zlookup_drop by lia. f_equal. lia.
  - cbn [mbind cres_bind]. do 4 f_equal. apply zlookup_ext. intros i Hi. rewrite Hlook by lia.
    rewrite (proj2 (Z.ltb_ge _ _)) by lia. done.
Qed.

(** "id=%d %s" and a newline into a buffer of eight characters *)
Lemma vsnprintf_text_witness :
  ∃ text nr, vsnprintf (Env false 0 false (λ _, []) (λ _, []) (λ _, [])) 0x1000 8 (replicate 8 0)
      (bytes "id=%d %s" ++ [10; 0]) [VInt 7; VPtr 0x8000 (OBytes (bytes "abc" ++ [0]))] =
    Some (Ret (stored 8 text (replicate 8 0), nr, s32 (zlength text))).
Proof.
  destruct (vsnprintf_text (Env false 0 false (λ _, []) (λ _, []) (λ _, [])) (bytes "id=%d %s" ++ [10; 0])
    [VInt 7; VPtr 0x8000 (OBytes (bytes "abc" ++ [0]))]) as (text & nr & H).
  - done.
  - apply (bool_decide_unpack _). by vm_compute.
  - eapply fits_text; [done|by vm_compute|done|].
    eapply fits_int; [done|by vm_compute|done|].
    eapply fits_text; [done|by vm_compute|done|].
    eapply fits_str; [done|by vm_compute|done| |].
    + eexists. split; [done|]. split; [done|]. right. eexists. by vm_compute.
    + eapply fits_text; [done|by vm_compute|done|]. by apply fits_end.
  - exists text, nr. apply H; [done..|]. change (zlength (replicate 8 0)) with 8. lia.
Defined.
