(* ===== verification/Rwsem.v ===== *)
(** * Reader-writer semaphores: lib/rwsem-spinlock.c

    The semaphore, the waiters on the stacks of the sleeping tasks and the
    tasks form the state of an interleaving. What runs under [wait_lock] and
    is not seen by others is one step; the places where a sleeper, which looks
    at its [waiter.task] without the lock, can run in between are steps of
    their own: clearing [waiter.task], waking the task, and the loop of the
    sleeper. A frame is removed when its function returns, and an access to a
    missing frame is [UB]; memory accesses are taken to be in program order.

    [rwsem_correct]: under every schedule there is no access to a dead frame,
    holders exclude each other, no wakeup is lost and nobody waits for a free
    semaphore. *)

From stdpp Require Import gmap.
From S2P Require Import Prelude.

Definition tid := positive.

(** [waiter.flags] *)
Inductive wait_flag := RWSEM_WAITING_FOR_READ | RWSEM_WAITING_FOR_WRITE.
#[global] Instance wait_flag_eq_dec : EqDecision wait_flag.
Proof. solve_decision. Defined.

(** [task] is NULL once the semaphore was given to the waiter *)
Record rwsem_waiter := Waiter { w_task : option tid; w_flags : wait_flag }.

(** where a task is: outside, holding the semaphore, or in the loop of
    [__down_read] or [__down_write_nested]: before the test of [waiter.task],
    before [schedule], before [set_task_state] *)
Inductive pc :=
  | Outside
  | Holding (f : wait_flag)
  | LoopTest
  | LoopSchedule
  | LoopSetState.
#[global] Instance pc_eq_dec : EqDecision pc.
Proof. solve_decision. Defined.

(** what the holder of [wait_lock] does next when it wakes others: the test of
    the loop over readers at the waiter [w], [waiter->task = NULL], or
    [wake_up_process]. [after] is what follows the wakeup. *)
Inductive after := AfterWriter | AfterReader (next : option tid) (woken : Z).
Inductive waking :=
  | ReadersTest (w : tid) (woken : Z)
  | ClearTask (w tsk : tid) (k : after)
  | WakeTask (tsk : tid) (k : after).

Record rw_semaphore := Rwsem {
  activity : Z;
  wait_list : list tid;
  (* the waiters that exist, by the task on whose stack they are *)
  frames : gmap tid rwsem_waiter;
  pcs : gmap tid pc;
  (* tasks in state TASK_UNINTERRUPTIBLE *)
  sleepy : gset tid;
  (* [wait_lock] is held *)
  crit : option waking
}.

Definition pc_of (s : rw_semaphore) (t : tid) : pc := default Outside (pcs s !! t).
Definition set_activity a (s : rw_semaphore) :=
  Rwsem a (wait_list s) (frames s) (pcs s) (sleepy s) (crit s).
Definition set_list l (s : rw_semaphore) :=
  Rwsem (activity s) l (frames s) (pcs s) (sleepy s) (crit s).
Definition set_frames f (s : rw_semaphore) :=
  Rwsem (activity s) (wait_list s) f (pcs s) (sleepy s) (crit s).
Definition set_pc t p (s : rw_semaphore) :=
  Rwsem (activity s) (wait_list s) (frames s) (<[t := p]> (pcs s)) (sleepy s) (crit s).
Definition set_sleepy z (s : rw_semaphore) :=
  Rwsem (activity s) (wait_list s) (frames s) (pcs s) z (crit s).
Definition set_crit c (s : rw_semaphore) :=
  Rwsem (activity s) (wait_list s) (frames s) (pcs s) (sleepy s) c.

Definition __init_rwsem : rw_semaphore := Rwsem 0 [] ∅ ∅ ∅ None.

Definition rwsem_is_locked (s : rw_semaphore) : bool :=
  match crit s with
  | Some _ => true
  | None => negb (activity s =? 0)
  end.

Definition list_empty (l : list tid) : bool := match l with [] => true | _ => false end.

(** ** Taking the semaphore *)

(** the waiter is set up and queued; the task goes into its loop *)
Definition down_wait (t : tid) (f : wait_flag) (s : rw_semaphore) : rw_semaphore :=
  set_pc t LoopTest
    (set_sleepy ({[t]} ∪ sleepy s)
      (set_list (wait_list s ++ [t])
        (set_frames (<[t := Waiter (Some t) f]> (frames s)) s))).

Definition __down_read (t : tid) (s : rw_semaphore) : rw_semaphore :=
  if (0 <=? activity s) && list_empty (wait_list s)
  then set_pc t (Holding RWSEM_WAITING_FOR_READ) (set_activity (activity s + 1) s)
  else down_wait t RWSEM_WAITING_FOR_READ s.

Definition __down_read_trylock (t : tid) (s : rw_semaphore) : rw_semaphore * Z :=
  if (0 <=? activity s) && list_empty (wait_list s)
  then (set_pc t (Holding RWSEM_WAITING_FOR_READ) (set_activity (activity s + 1) s), 1)
  else (s, 0).

Definition __down_write_nested (t : tid) (s : rw_semaphore) : rw_semaphore :=
  if (activity s =? 0) && list_empty (wait_list s)
  then set_pc t (Holding RWSEM_WAITING_FOR_WRITE) (set_activity (-1) s)
  else down_wait t RWSEM_WAITING_FOR_WRITE s.

Definition __down_write_trylock (t : tid) (s : rw_semaphore) : rw_semaphore * Z :=
  if (activity s =? 0) && list_empty (wait_list s)
  then (set_pc t (Holding RWSEM_WAITING_FOR_WRITE) (set_activity (-1) s), 1)
  else (s, 0).

(** one instruction of the waiting loop; [None] while [schedule] sleeps *)
Definition wait_loop (t : tid) (s : rw_semaphore) : option (cres rw_semaphore) :=
  match pc_of s t with
  | LoopTest => Some (
      match frames s !! t with
      | None => UB
      | Some (Waiter (Some _) _) => Ret (set_pc t LoopSchedule s)
      | Some (Waiter None f) =>
          (* break; tsk->state = TASK_RUNNING; return *)
          Ret (set_pc t (Holding f)
            (set_sleepy (sleepy s ∖ {[t]}) (set_frames (delete t (frames s)) s)))
      end)
  | LoopSchedule =>
      if decide (t ∈ sleepy s) then None else Some (Ret (set_pc t LoopSetState s))
  | LoopSetState =>
      Some (Ret (set_pc t LoopTest (set_sleepy ({[t]} ∪ sleepy s) s)))
  | _ => None
  end.

(** ** Giving it to waiters *)

(** [list_del(&waiter->list); tsk = waiter->task;] *)
Definition take_waiter (w : tid) (k : after) (s : rw_semaphore) : cres rw_semaphore :=
  match frames s !! w with
  | Some (Waiter (Some tsk) _) =>
      Ret (set_crit (Some (ClearTask w tsk k))
        (set_list (List.filter (λ t, negb (bool_decide (t = w))) (wait_list s)) s))
  | _ => UB
  end.

Definition __rwsem_wake_one_writer (s : rw_semaphore) : cres rw_semaphore :=
  match wait_list s with
  | [] => UB
  | w :: _ => take_waiter w AfterWriter (set_activity (-1) s)
  end.

Definition __rwsem_do_wake (s : rw_semaphore) (wakewrite : bool) : cres rw_semaphore :=
  match wait_list s with
  | [] => UB
  | w :: _ =>
      match frames s !! w with
      | None => UB
      | Some waiter =>
          if bool_decide (w_flags waiter = RWSEM_WAITING_FOR_WRITE) then
            if wakewrite then take_waiter w AfterWriter (set_activity (-1) s)
            else Ret (set_crit None s)
          else Ret (set_crit (Some (ReadersTest w 0)) s)
      end
  end.

(** the waiter after [w] *)
Fixpoint next_waiter (w : tid) (l : list tid) : option tid :=
  match l with
  | a :: l' => if bool_decide (a = w) then head l' else next_waiter w l'
  | [] => None
  end.

(** the next instruction under [wait_lock] *)
Definition wake_step (s : rw_semaphore) : option (cres rw_semaphore) :=
  match crit s with
  | None => None
  | Some (ReadersTest w woken) => Some (
      match frames s !! w with
      | None => UB
      | Some waiter =>
          if bool_decide (w_flags waiter = RWSEM_WAITING_FOR_READ)
          then take_waiter w (AfterReader (next_waiter w (wait_list s)) woken) s
          else Ret (set_crit None (set_activity (activity s + woken) s))
      end)
  | Some (ClearTask w tsk k) => Some (
      match frames s !! w with
      | None => UB
      | Some waiter =>
          Ret (set_crit (Some (WakeTask tsk k))
            (set_frames (<[w := Waiter None (w_flags waiter)]> (frames s)) s))
      end)
  | Some (WakeTask tsk k) => Some (
      let s := set_sleepy (sleepy s ∖ {[tsk]}) s in
      match k with
      | AfterWriter => Ret (set_crit None s)
      | AfterReader next woken =>
          let woken := woken + 1 in
          if list_empty (wait_list s)
          then Ret (set_crit None (set_activity (activity s + woken) s))
          else match next with
               | Some w => Ret (set_crit (Some (ReadersTest w woken)) s)
               | None => UB
               end
      end)
  end.

(** ** Releasing *)
Definition __up_read (t : tid) (s : rw_semaphore) : cres rw_semaphore :=
  let s := set_pc t Outside (set_activity (activity s - 1) s) in
  if (activity s =? 0) && negb (list_empty (wait_list s))
  then __rwsem_wake_one_writer s
  else Ret s.

Definition __up_write (t : tid) (s : rw_semaphore) : cres rw_semaphore :=
  let s := set_pc t Outside (set_activity 0 s) in
  if negb (list_empty (wait_list s)) then __rwsem_do_wake s true else Ret s.

Definition __downgrade_write (t : tid) (s : rw_semaphore) : cres rw_semaphore :=
  let s := set_pc t (Holding RWSEM_WAITING_FOR_READ) (set_activity 1 s) in
  if negb (list_empty (wait_list s)) then __rwsem_do_wake s false else Ret s.

(** ** Schedules *)
Inductive action :=
  | DownRead (t : tid)
  | DownReadTrylock (t : tid)
  | DownWrite (t : tid)
  | DownWriteTrylock (t : tid)
  | UpRead (t : tid)
  | UpWrite (t : tid)
  | DowngradeWrite (t : tid)
  | WaitLoop (t : tid)
  | Waking
  | Spurious (t : tid).

(** a task calls the functions only where it may, and a function that takes
    [wait_lock] waits until it is free *)
Definition enabled (s : rw_semaphore) (t : tid) (p : pc) : bool :=
  bool_decide (pc_of s t = p) && match crit s with None => true | Some _ => false end.

Definition rwsem_step (a : action) (s : rw_semaphore) : option (cres rw_semaphore) :=
  match a with
  | DownRead t => if enabled s t Outside then Some (Ret (__down_read t s)) else None
  | DownReadTrylock t =>
      if enabled s t Outside then Some (Ret (__down_read_trylock t s).1) else None
  | DownWrite t => if enabled s t Outside then Some (Ret (__down_write_nested t s)) else None
  | DownWriteTrylock t =>
      if enabled s t Outside then Some (Ret (__down_write_trylock t s).1) else None
  | UpRead t =>
      if enabled s t (Holding RWSEM_WAITING_FOR_READ) then Some (__up_read t s) else None
  | UpWrite t =>
      if enabled s t (Holding RWSEM_WAITING_FOR_WRITE) then Some (__up_write t s) else None
  | DowngradeWrite t =>
      if enabled s t (Holding RWSEM_WAITING_FOR_WRITE)
      then Some (__downgrade_write t s) else None
  | WaitLoop t => wait_loop t s
  | Waking => wake_step s
  (* somebody else wakes the task, for whatever reason *)
  | Spurious t => Some (Ret (set_sleepy (sleepy s ∖ {[t]}) s))
  end.

(** actions that are not enabled are skipped *)
Fixpoint rwsem_run (l : list action) (s : rw_semaphore) : cres rw_semaphore :=
  match l with
  | [] => Ret s
  | a :: l =>
      match rwsem_step a s with
      | None => rwsem_run l s
      | Some r => s ← r; rwsem_run l s
      end
  end.

(** ** The invariant *)
Definition looping (p : pc) : Prop :=
  p = LoopTest ∨ p = LoopSchedule ∨ p = LoopSetState.

(** the semaphore was given to [t] for reading or writing: the sets of readers
    and writers are those it was given to and who did not give it back *)
Definition granted (rd wr : gset tid) (t : tid) (f : wait_flag) : Prop :=
  match f with
  | RWSEM_WAITING_FOR_READ => t ∈ rd ∧ t ∉ wr
  | RWSEM_WAITING_FOR_WRITE => t ∈ wr ∧ t ∉ rd
  end.

Definition flag_at (s : rw_semaphore) (t : option tid) : option wait_flag :=
  t ← t; w ← frames s !! t; Some (w_flags w).

(** [activity] counts the holders *)
Definition counted (a : Z) (rd wr : gset tid) : Prop :=
  a = Z.of_nat (size rd) ∧ wr = ∅ ∨ a = -1 ∧ rd = ∅ ∧ ∃ t, wr = {[t]}.

Definition count_inv (s : rw_semaphore) (rd wr : gset tid) : Prop :=
  match crit s with
  | None =>
      counted (activity s) rd wr ∧
      (activity s = 0 → wait_list s = []) ∧
      (0 < activity s → flag_at s (head (wait_list s)) ≠ Some RWSEM_WAITING_FOR_READ)
  | Some (ReadersTest w woken) =>
      wr = ∅ ∧ 0 ≤ activity s ∧ 0 ≤ woken ∧ activity s + woken = Z.of_nat (size rd) ∧
      head (wait_list s) = Some w ∧
      (0 < activity s + woken ∨ flag_at s (Some w) = Some RWSEM_WAITING_FOR_READ)
  | Some (ClearTask w tsk (AfterReader next woken)) =>
      wr = ∅ ∧ 0 ≤ activity s ∧ 0 ≤ woken ∧ activity s + woken + 1 = Z.of_nat (size rd) ∧
      head (wait_list s) = next ∧ tsk = w ∧ (w ∉ wait_list s) ∧
      frames s !! w = Some (Waiter (Some w) RWSEM_WAITING_FOR_READ)
  | Some (ClearTask w tsk AfterWriter) =>
      activity s = -1 ∧ rd = ∅ ∧ wr = {[w]} ∧ tsk = w ∧ (w ∉ wait_list s) ∧
      frames s !! w = Some (Waiter (Some w) RWSEM_WAITING_FOR_WRITE)
  | Some (WakeTask tsk (AfterReader next woken)) =>
      wr = ∅ ∧ 0 ≤ activity s ∧ 0 ≤ woken ∧ activity s + woken + 1 = Z.of_nat (size rd) ∧
      head (wait_list s) = next
  | Some (WakeTask tsk AfterWriter) =>
      activity s = -1 ∧ rd = ∅ ∧ ∃ t, wr = {[t]}
  end.

Record rw_core (s : rw_semaphore) (rd wr : gset tid) : Prop := {
  inv_nodup : NoDup (wait_list s);
  inv_queued : ∀ t, t ∈ wait_list s →
    (∃ f, frames s !! t = Some (Waiter (Some t) f)) ∧ (t ∉ rd) ∧ (t ∉ wr);
  inv_frames : ∀ t w, frames s !! t = Some w →
    looping (pc_of s t) ∧ (t ∈ wait_list s ∨ granted rd wr t (w_flags w));
  inv_task : ∀ t w, frames s !! t = Some w → w_task w = None ∨
    w_task w = Some t ∧ (t ∈ wait_list s ∨ ∃ k, crit s = Some (ClearTask t t k));
  inv_looping : ∀ t, looping (pc_of s t) → is_Some (frames s !! t);
  inv_holding : ∀ t f, pc_of s t = Holding f → granted rd wr t f;
  inv_outside : ∀ t, pc_of s t = Outside → (t ∉ rd) ∧ (t ∉ wr);
  inv_wakeup : ∀ t f, pc_of s t = LoopSchedule → t ∈ sleepy s →
    frames s !! t = Some (Waiter None f) → ∃ k, crit s = Some (WakeTask t k)
}.
Record rw_inv (s : rw_semaphore) (rd wr : gset tid) : Prop := {
  inv_core :> rw_core s rd wr;
  inv_count : count_inv s rd wr
}.

Lemma pc_of_set t p s t' : pc_of (set_pc t p s) t' = if decide (t = t') then p else pc_of s t'.
Proof. unfold pc_of. simpl. destruct (decide (t = t')) as [->|]; by simplify_map_eq. Qed.

Lemma init_inv : rw_inv __init_rwsem ∅ ∅.
Proof.
  split; [split|]; try done; cbn.
  - apply NoDup_nil_2.
  - set_solver.
  - intros t [H|[H|H]]; done.
  - split_and!; [by left|done..].
Qed.

Lemma size_insert (t : tid) (rd : gset tid) : t ∉ rd → size ({[t]} ∪ rd) = S (size rd).
Proof. intros. rewrite size_union by set_solver. by rewrite size_singleton. Qed.
Lemma size_remove (t : tid) (rd : gset tid) : t ∈ rd → size rd = S (size (rd ∖ {[t]})).
Proof.
  intros. rewrite <- (size_insert t) by set_solver. f_equal. apply leibniz_equiv.
  intros x. destruct (decide (x = t)) as [->|]; set_solver.
Qed.

(** nothing is granted and nobody waits: a new holder *)
Lemma grant_read s rd wr t :
  rw_inv s rd wr → pc_of s t = Outside → crit s = None → 0 ≤ activity s → wait_list s = [] →
  rw_inv (set_pc t (Holding RWSEM_WAITING_FOR_READ) (set_activity (activity s + 1) s))
    ({[t]} ∪ rd) wr.
Proof.
  intros I Ht Hc Ha Hl. destruct (inv_outside _ _ _ I t Ht) as [Hrd Hwr].
  assert (wr = ∅ ∧ activity s = Z.of_nat (size rd)) as [Hwr0 Hsz].
  { pose proof (inv_count _ _ _ I) as Hcnt. unfold count_inv in Hcnt. rewrite Hc in Hcnt.
    destruct Hcnt as ([[? ?]|[? _]] & _); [done|lia]. }
  assert (frames s !! t = None) as Hf.
  { destruct (frames s !! t) as [w|] eqn:E; [|done].
    apply (inv_frames _ _ _ I) in E as [[H|[H|H]] _]; congruence. }
  destruct I as [[I1 I2 I3 I4 I5 I6 I7 I8] I9]. split; [split|]; cbn; rewrite ?Hl in *.
  - done.
  - set_solver.
  - intros t' w Hw. destruct (I3 t' w Hw) as [Hp [?|Hg]]; [set_solver|].
    rewrite pc_of_set. case_decide; [simplify_eq|]. split; [done|right].
    destruct (w_flags w); set_solver.
  - done.
  - intros t' Hp. rewrite pc_of_set in Hp. case_decide; [by destruct Hp as [?|[?|?]]|by apply I5].
  - intros t' f Hp. rewrite pc_of_set in Hp. case_decide; simplify_eq.
    + cbn. set_solver.
    + apply I6 in Hp. destruct f; set_solver.
  - intros t' Hp. rewrite pc_of_set in Hp. case_decide; [done|]. apply I7 in Hp. set_solver.
  - intros t' f Hp. rewrite pc_of_set in Hp. case_decide; [done|]. by apply I8.
  - unfold count_inv. cbn. rewrite Hc, Hl. split_and!; [left|done|by cbn].
    rewrite size_insert by done. split; [lia|done].
Qed.

(** *** Consequences used below *)
Section facts.
Context (s : rw_semaphore) (rd wr : gset tid) (I : rw_core s rd wr).

Lemma no_frame t : pc_of s t = Outside ∨ (∃ f, pc_of s t = Holding f) → frames s !! t = None.
Proof.
  intros H. destruct (frames s !! t) as [w|] eqn:E; [|done].
  apply (inv_frames _ _ _ I) in E as [[?|[?|?]] _]; naive_solver congruence.
Qed.
Lemma not_queued t : pc_of s t = Outside ∨ (∃ f, pc_of s t = Holding f) → t ∉ wait_list s.
Proof.
  intros H Hq. apply (inv_queued _ _ _ I) in Hq as [[f Hf] _]. rewrite no_frame in Hf; done.
Qed.
End facts.
Lemma count_free s rd wr : rw_inv s rd wr → crit s = None → counted (activity s) rd wr ∧
    (activity s = 0 → wait_list s = []) ∧
    (0 < activity s → flag_at s (head (wait_list s)) ≠ Some RWSEM_WAITING_FOR_READ).
Proof. intros [_ H] Hc. unfold count_inv in H. by rewrite Hc in H. Qed.

Lemma list_empty_true l : list_empty l = true ↔ l = [].
Proof. by destruct l. Qed.

Lemma grant_write s rd wr t :
  rw_inv s rd wr → pc_of s t = Outside → crit s = None → activity s = 0 → wait_list s = [] →
  rw_inv (set_pc t (Holding RWSEM_WAITING_FOR_WRITE) (set_activity (-1) s)) rd {[t]}.
Proof.
  intros I Ht Hc Ha Hl. destruct (inv_outside _ _ _ I t Ht) as [Hrd Hwr].
  destruct (count_free _ _ _ I Hc) as ([[Hsz Hw0]|[? _]] & _); [|lia].
  assert (rd = ∅) as -> by (apply leibniz_equiv, size_empty_iff; lia).
  pose proof (no_frame _ _ _ I t (or_introl Ht)) as Hf.
  destruct I as [[I1 I2 I3 I4 I5 I6 I7 I8] I9]. split; [split|]; cbn; rewrite ?Hl in *.
  - done.
  - set_solver.
  - intros t' w Hw. destruct (I3 t' w Hw) as [Hp [?|Hg]]; [set_solver|].
    destruct (w_flags w); set_solver.
  - done.
  - intros t' Hp. rewrite pc_of_set in Hp. case_decide; [by destruct Hp as [?|[?|?]]|by apply I5].
  - intros t' f Hp. rewrite pc_of_set in Hp. case_decide; simplify_eq.
    + cbn. set_solver.
    + apply I6 in Hp. destruct f; set_solver.
  - intros t' Hp. rewrite pc_of_set in Hp. case_decide; [done|]. set_solver.
  - intros t' f Hp. rewrite pc_of_set in Hp. case_decide; [done|]. by apply I8.
  - unfold count_inv. cbn. rewrite Hc, Hl. split_and!; [right|done|by cbn]. eauto.
Qed.

Lemma down_wait_inv s rd wr t f :
  rw_inv s rd wr → pc_of s t = Outside → crit s = None →
  (wait_list s ≠ [] ∨ activity s ≠ 0) →
  (f = RWSEM_WAITING_FOR_READ → wait_list s ≠ [] ∨ activity s < 0) →
  rw_inv (down_wait t f s) rd wr.
Proof.
  intros I Ht Hc Hbusy Hread. destruct (inv_outside _ _ _ I t Ht) as [Hrd Hwr].
  pose proof (no_frame _ _ _ I t (or_introl Ht)) as Hf.
  pose proof (not_queued _ _ _ I t (or_introl Ht)) as Hq.
  destruct (count_free _ _ _ I Hc) as (Hcnt & H0 & Hpos).
  destruct I as [[I1 I2 I3 I4 I5 I6 I7 I8] I9]. unfold down_wait. split; [split|]; cbn.
  - apply NoDup_app. split_and!; [done| |apply NoDup_singleton]. set_solver.
  - intros t' [Hin|Hin]%elem_of_app.
    + destruct (I2 t' Hin) as [[f' Hf'] ?]. rewrite lookup_insert_ne by set_solver. eauto.
    + apply list_elem_of_singleton in Hin as ->. rewrite lookup_insert_eq. eauto.
  - intros t' w. rewrite lookup_insert_Some, pc_of_set. intros [[<- <-]|[Hne Hw]].
    + rewrite decide_True by done. split; [by left|left; set_solver].
    + rewrite decide_False by done. destruct (I3 t' w Hw) as [? [?|?]]; [|by auto].
      split; [done|left; set_solver].
  - intros t' w. rewrite lookup_insert_Some. intros [[<- <-]|[Hne Hw]].
    + right. split; [done|left; set_solver].
    + destruct (I4 t' w Hw) as [?|[? [?|?]]]; [by left|right; split; [done|left; set_solver]|by auto].
  - intros t'. rewrite pc_of_set. case_decide as Hd; [subst; by rewrite lookup_insert_eq|].
    rewrite lookup_insert_ne by done. apply I5.
  - intros t' f'. rewrite pc_of_set. case_decide; [done|]. apply I6.
  - intros t'. rewrite pc_of_set. case_decide; [done|]. apply I7.
  - intros t' f'. rewrite pc_of_set. case_decide as Hd; [done|].
    rewrite lookup_insert_ne by done. intros Hp Hs Hw. eapply I8; [done| |done]. set_solver.
  - unfold count_inv. cbn. rewrite Hc. split; [done|]. split.
    + intros Ha. destruct Hbusy as [Hb|Hb]; [by rewrite H0 in Hb|done].
    + intros Ha. destruct (wait_list s) as [|h l] eqn:El; cbn.
      * rewrite lookup_insert_eq. cbn. destruct f; [|done].
        destruct (Hread eq_refl); [done|lia].
      * rewrite lookup_insert_ne by set_solver. by apply Hpos.
Qed.

(** *** The loop of a waiter *)
Lemma loop_move_inv s rd wr t p z :
  rw_inv s rd wr → looping (pc_of s t) → looping p → z ⊆ {[t]} ∪ sleepy s →
  (p = LoopSchedule → ∃ tsk f, frames s !! t = Some (Waiter (Some tsk) f)) →
  rw_inv (set_pc t p (set_sleepy z s)) rd wr.
Proof.
  intros I Hp Hp' Hz Hw. destruct I as [[I1 I2 I3 I4 I5 I6 I7 I8] I9]. split; [split|]; cbn; try done.
  - intros t' w' Hw'. rewrite pc_of_set. destruct (I3 t' w' Hw'). by case_decide.
  - intros t'. rewrite pc_of_set. case_decide; [subst; auto|apply I5].
  - intros t' f'. rewrite pc_of_set. case_decide; [by intros ->; destruct Hp' as [?|[?|?]]|apply I6].
  - intros t'. rewrite pc_of_set. case_decide; [by intros ->; destruct Hp' as [?|[?|?]]|apply I7].
  - intros t' f'. rewrite pc_of_set. case_decide as Hd.
    + intros Hs _ Hf. subst t'. destruct (Hw Hs) as (? & ? & ?). congruence.
    + intros ???. eapply I8; [done|set_solver|done].
Qed.

(** the waiter that was given the semaphore returns *)
Lemma loop_return_inv s rd wr t f :
  rw_inv s rd wr → looping (pc_of s t) → frames s !! t = Some (Waiter None f) →
  rw_inv (set_pc t (Holding f)
    (set_sleepy (sleepy s ∖ {[t]}) (set_frames (delete t (frames s)) s))) rd wr.
Proof.
  intros I Hp Hw. assert (t ∉ wait_list s) as Hnq.
  { intros Hq. apply (inv_queued _ _ _ I) in Hq as [[? ?] _]. congruence. }
  destruct (inv_frames _ _ _ I t _ Hw) as [_ [?|Hg]]; [done|]. cbn in Hg.
  assert (∀ w, head (wait_list s) = Some w → t ≠ w) as Hhd.
  { intros w Hw' ->. destruct (wait_list s); [done|]. set_solver. }
  destruct I as [[I1 I2 I3 I4 I5 I6 I7 I8] I9]. split; [split|]; cbn; try done.
  - intros t' Hq. destruct (I2 t' Hq) as [[f' ?] ?]. rewrite lookup_delete_ne by set_solver. eauto.
  - intros t' w'. rewrite lookup_delete_Some, pc_of_set. intros [Hne Hw'].
    rewrite decide_False by done. by apply I3.
  - intros t' w'. rewrite lookup_delete_Some. intros [_ ?]. by eapply I4.
  - intros t'. rewrite pc_of_set. case_decide; [by intros [?|[?|?]]|].
    rewrite lookup_delete_ne by done. apply I5.
  - intros t' f'. rewrite pc_of_set. case_decide; [|apply I6]. by intros [= <-]; subst.
  - intros t'. rewrite pc_of_set. case_decide; [done|apply I7].
  - intros t' f'. rewrite pc_of_set. case_decide; [done|]. rewrite lookup_delete_ne by done.
    intros ???. eapply I8; [done|set_solver|done].
  - unfold count_inv in *. cbn.
    destruct (crit s) as [[w woken|w tsk [|next woken]|tsk [|next woken]]|]; cbn in *; try done.
    + destruct I9 as (?&?&?&?&Hh&H). rewrite lookup_delete_ne by auto. done.
    + destruct I9 as (?&?&?&?&?&Hfr). rewrite lookup_delete_ne by congruence. done.
    + destruct I9 as (?&?&?&?&?&?&?&Hfr). rewrite lookup_delete_ne by congruence. done.
    + destruct (head (wait_list s)) as [h|]; [|done]. cbn in *.
      rewrite lookup_delete_ne by auto. done.
Qed.

Lemma wait_loop_inv s rd wr t r :
  rw_inv s rd wr → wait_loop t s = Some r → ∃ s', r = Ret s' ∧ rw_inv s' rd wr.
Proof.
  intros I. unfold wait_loop. destruct (pc_of s t) as [|f| | |] eqn:Hp; try done.
  - intros [= <-]. assert (looping (pc_of s t)) as Hl by by left.
    destruct (inv_looping _ _ _ I t Hl) as [[[tsk|] f] Hw]; rewrite Hw.
    + eexists. split; [done|]. apply (loop_move_inv s rd wr t LoopSchedule (sleepy s));
        [done|done|by right; left|set_solver|eauto].
    + eexists. split; [done|]. by apply loop_return_inv.
  - case_decide; [done|]. intros [= <-]. eexists. split; [done|].
    apply (loop_move_inv s rd wr t LoopSetState (sleepy s));
      [done|by right; left|by right; right|set_solver|done].
  - intros [= <-]. eexists. split; [done|].
    apply loop_move_inv; [done|by right; right|by left|done|done].
Qed.

Lemma spurious_inv s rd wr t : rw_inv s rd wr → rw_inv (set_sleepy (sleepy s ∖ {[t]}) s) rd wr.
Proof.
  intros [[I1 I2 I3 I4 I5 I6 I7 I8] I9]. split; [split|]; try done; cbn.
  intros t' f' ???. eapply I8; [done|set_solver|done].
Qed.

(** *** Waking *)
Definition grant (f : wait_flag) (w : tid) (rd wr : gset tid) : gset tid * gset tid :=
  match f with
  | RWSEM_WAITING_FOR_READ => ({[w]} ∪ rd, wr)
  | RWSEM_WAITING_FOR_WRITE => (rd, {[w]} ∪ wr)
  end.

Lemma filter_head w (l : list tid) :
  NoDup (w :: l) → List.filter (λ t, negb (bool_decide (t = w))) (w :: l) = l.
Proof.
  intros [Hw Hl]%NoDup_cons. cbn. rewrite bool_decide_true by done. cbn.
  induction l as [|a l IH]; [done|]. cbn. rewrite bool_decide_false by set_solver. cbn. f_equal.
  apply IH; [set_solver|]. by apply NoDup_cons in Hl as [_ ?].
Qed.

(** the first waiter is taken off the list; from now on it counts as a holder *)
Lemma take_waiter_core s rd wr w l f k a :
  rw_core s rd wr → wait_list s = w :: l → frames s !! w = Some (Waiter (Some w) f) →
  (∀ t k, crit s ≠ Some (WakeTask t k)) → (∀ t t' k, crit s ≠ Some (ClearTask t t' k)) →
  (f = RWSEM_WAITING_FOR_READ → wr = ∅) → (f = RWSEM_WAITING_FOR_WRITE → rd = ∅) →
  ∃ s', take_waiter w k (set_activity a s) = Ret s' ∧
    rw_core s' (grant f w rd wr).1 (grant f w rd wr).2 ∧
    activity s' = a ∧ wait_list s' = l ∧ frames s' = frames s ∧ crit s' = Some (ClearTask w w k) ∧
    w ∉ l.
Proof.
  intros I Hl Hw Hc Hcc Hr Hwr. unfold take_waiter. cbn. rewrite Hw.
  pose proof (inv_nodup _ _ _ I) as Hnd. rewrite Hl in Hnd. rewrite Hl, filter_head by done.
  apply NoDup_cons in Hnd as [Hwl Hnd]. eexists. split; [done|]. split; [|done].
  assert (∀ t g, granted rd wr t g → granted (grant f w rd wr).1 (grant f w rd wr).2 t g) as Hmono.
  { intros t g Hg. destruct f; cbn.
    - specialize (Hr eq_refl). subst wr. destruct g; cbn in *; set_solver.
    - specialize (Hwr eq_refl). subst rd. destruct g; cbn in *; set_solver. }
  assert (granted (grant f w rd wr).1 (grant f w rd wr).2 w f) as Hgw.
  { destruct f; cbn; [specialize (Hr eq_refl)|specialize (Hwr eq_refl)]; set_solver. }
  assert (∀ t, t ≠ w → t ∉ rd → t ∉ wr →
    (t ∉ (grant f w rd wr).1) ∧ (t ∉ (grant f w rd wr).2)) as Hnot.
  { intros t ???. destruct f; cbn; set_solver. }
  destruct I as [I1 I2 I3 I4 I5 I6 I7 I8]. rewrite Hl in *. split; cbn.
  - done.
  - intros t Ht. destruct (I2 t) as [? [? ?]]; [set_solver|]. split; [done|]. apply Hnot; set_solver.
  - intros t x Hx. destruct (I3 t x Hx) as [Hp Hg]. split; [done|].
    destruct Hg as [[->|?]%elem_of_cons|Hg]; [|by left|by right; apply Hmono].
    right. rewrite Hw in Hx. by simplify_eq.
  - intros t x Hx. destruct (I4 t x Hx) as [?|[Ht [[->|?]%elem_of_cons|[k' Hk']]]];
      [by left|by eauto|by auto|by apply Hcc in Hk'].
  - done.
  - intros t g Hp. by apply Hmono, I6.
  - intros t Hp. destruct (I7 t Hp). apply Hnot; [|done..]. intros ->.
    destruct (I3 w _ Hw) as [[?|[?|?]] _]; unfold pc_of in *; cbn in *; congruence.
  - intros t g Hp Hs Hf. destruct (I8 t g Hp Hs Hf) as [k' Hk']. by apply Hc in Hk'.
Qed.

Lemma wake_step_inv s rd wr r :
  rw_inv s rd wr → wake_step s = Some r → ∃ s' rd' wr', r = Ret s' ∧ rw_inv s' rd' wr'.
Proof.
  intros [I Hcnt]. unfold wake_step. unfold count_inv in Hcnt.
  destruct (crit s) as [[w woken|w tsk k|tsk k]|] eqn:Hc; [..|done]; intros [= <-].
  - destruct Hcnt as (-> & Ha & Hwk & Hsz & Hh & Hpos).
    destruct (wait_list s) as [|h l] eqn:Hl; [done|]. injection Hh as ->.
    destruct (inv_queued _ _ _ I w) as [[f Hw] [Hrd _]]; [rewrite Hl; set_solver|]. rewrite Hw.
    cbn [w_flags]. case_bool_decide as Hf.
    + subst f. cbn [next_waiter]. rewrite bool_decide_true by done.
      destruct (take_waiter_core s rd ∅ w l RWSEM_WAITING_FOR_READ (AfterReader (head l) woken) (activity s))
        as (s' & E & I' & Ea & El & Ef & Ec & Hwl); [done..|by rewrite Hc|by rewrite Hc|done|done|].
      replace (set_activity (activity s) s) with s in E by by destruct s. rewrite E.
      eexists _, _, _. split; [done|]. split; [exact I'|].
      unfold count_inv. rewrite Ec, Ea, El, Ef. cbn [grant fst snd].
      rewrite size_insert by done. split_and!; try done. lia.
    + eexists _, _, _. split; [done|]. split.
      * destruct I as [I1 I2 I3 I4 I5 I6 I7 I8]. split; try done; cbn.
        -- intros t x Hx. destruct (I4 t x Hx) as [?|[? [?|[k Hk]]]]; [by left|by auto|congruence].
        -- intros t g ???. destruct (I8 t g) as [k Hk]; [done..|]. congruence.
      * unfold count_inv. cbn. rewrite Hl. cbn. rewrite Hw. cbn in *. rewrite Hw in Hpos. cbn in Hpos.
        split_and!; [left; done| |congruence]. intros H0. destruct Hpos as [?|[= ?]]; [lia|done].
  - assert (∃ f, frames s !! w = Some (Waiter (Some w) f) ∧ tsk = w ∧ (w ∉ wait_list s)) as (f & Hw & -> & Hwl).
    { destruct k as [|next woken]; [destruct Hcnt as (?&?&?&?&?&?)|destruct Hcnt as (?&?&?&?&?&?&?&?)]; eauto. }
    rewrite Hw. cbn [w_flags]. eexists _, rd, wr. split; [done|]. split.
    + destruct I as [I1 I2 I3 I4 I5 I6 I7 I8]. split; try done; cbn.
      * intros t Ht. rewrite lookup_insert_ne by set_solver. by apply I2.
      * intros t x. rewrite lookup_insert_Some. intros [[<- <-]|[_ Hx]]; [|by apply I3].
        exact (I3 w _ Hw).
      * intros t x. rewrite lookup_insert_Some. intros [[<- <-]|[Hne Hx]]; [by left|].
        destruct (I4 t x Hx) as [?|[? [?|[k' Hk']]]]; [by left|by auto|congruence].
      * intros t Ht. rewrite lookup_insert_is_Some. destruct (decide (w = t)); [by left|right].
        split; [done|]. by apply I5.
      * intros t g Hp Hs. rewrite lookup_insert_Some. intros [[<- _]|[_ Hx]]; [by eexists|].
        destruct (I8 t g Hp Hs Hx) as [k' ?]. congruence.
    + unfold count_inv. cbn. destruct k as [|next woken].
      * destruct Hcnt as (?&?&?&?&?&?). eauto.
      * destruct Hcnt as (?&?&?&?&?&?&?&?). done.
  - assert (rw_core (set_crit None (set_sleepy (sleepy s ∖ {[tsk]}) s)) rd wr) as I'.
    { destruct I as [I1 I2 I3 I4 I5 I6 I7 I8]. split; try done; cbn.
      - intros t x Hx. destruct (I4 t x Hx) as [?|[? [?|[k' Hk']]]]; [by left|by auto|congruence].
      - intros t g Hp Hs Hx. destruct (I8 t g) as [k' ?]; [done|set_solver|done|]. set_solver. }
    assert (∀ a c, rw_core (Rwsem a (wait_list s) (frames s) (pcs s) (sleepy s ∖ {[tsk]}) c) rd wr) as Hcore.
    { intros a c. destruct I' as [I1 I2 I3 I4 I5 I6 I7 I8]. split; try done; cbn.
      - intros t x Hx. destruct (I4 t x Hx) as [?|[? [?|[k' Hk']]]]; [by left|by auto|done].
      - intros t g Hp Hs Hx. destruct (I8 t g Hp Hs Hx) as [k' ?]. done. }
    cbn. destruct k as [|next woken].
    + eexists _, _, _. split; [done|]. split; [apply Hcore|].
      destruct Hcnt as (Ha & -> & Hwr). unfold count_inv. cbn.
      split_and!; [right|lia|lia]. done.
    + destruct Hcnt as (-> & Ha & Hwk & Hsz & Hh).
      destruct (wait_list s) as [|h l] eqn:Hl; cbn in Hh |- *.
      * eexists _, _, _. split; [done|]. split; [unfold set_crit, set_activity, set_sleepy; cbn; rewrite Hl; apply Hcore|].
        unfold count_inv. cbn. rewrite Hl. split_and!; [left; split; [lia|done]|done|by cbn].
      * subst next. eexists _, _, _. split; [done|]. split; [unfold set_crit, set_activity, set_sleepy; cbn; rewrite Hl; apply Hcore|].
        unfold count_inv. cbn. rewrite Hl. split_and!; try done; try lia.
Qed.

(** *** Releasing *)
Lemma release_core s rd wr rd' wr' t f p a :
  rw_core s rd wr → pc_of s t = Holding f →
  p = Outside ∨ (∃ g, p = Holding g ∧ granted rd' wr' t g) →
  (∀ x, x ≠ t → (x ∈ rd' ↔ x ∈ rd) ∧ (x ∈ wr' ↔ x ∈ wr)) →
  (p = Outside → (t ∉ rd') ∧ (t ∉ wr')) →
  rw_core (set_pc t p (set_activity a s)) rd' wr'.
Proof.
  intros I Hp Hnew Hsame Hout.
  pose proof (no_frame _ _ _ I t (or_intror (ex_intro _ f Hp))) as Hf.
  pose proof (not_queued _ _ _ I t (or_intror (ex_intro _ f Hp))) as Hq.
  assert (∀ x g, x ≠ t → granted rd wr x g → granted rd' wr' x g) as Hg.
  { intros x g Hx. destruct (Hsame x Hx) as [Hs1 Hs2]. destruct g; cbn; rewrite Hs1, Hs2; done. }
  destruct I as [I1 I2 I3 I4 I5 I6 I7 I8]. split; cbn; try done.
  - intros x Hx. destruct (I2 x Hx) as [? [? ?]]. split; [done|].
    destruct (Hsame x) as [Hs1 Hs2]; [set_solver|]. by rewrite Hs1, Hs2.
  - intros x w Hw. rewrite pc_of_set, decide_False by congruence.
    destruct (I3 x w Hw) as [? [?|?]]; [by auto|]. split; [done|right]. apply Hg; [congruence|done].
  - intros x. rewrite pc_of_set. case_decide; [|apply I5].
    destruct Hnew as [->|(g & -> & _)]; by intros [?|[?|?]].
  - intros x g. rewrite pc_of_set. case_decide; [|intros; apply Hg; auto].
    subst x. destruct Hnew as [->|(g' & -> & ?)]; [done|by intros [= <-]].
  - intros x. rewrite pc_of_set. case_decide; [subst x; apply Hout|].
    intros Hx. destruct (I7 x Hx). destruct (Hsame x) as [Hs1 Hs2]; [done|]. by rewrite Hs1, Hs2.
  - intros x g. rewrite pc_of_set. case_decide; [|apply I8].
    destruct Hnew as [->|(g' & -> & _)]; done.
Qed.

Lemma do_wake_inv s rd wr wakewrite :
  rw_core s rd wr → crit s = None → wr = ∅ → wait_list s ≠ [] → activity s = Z.of_nat (size rd) →
  (wakewrite = true → rd = ∅) → (wakewrite = false → 0 < activity s) →
  ∃ s' rd' wr', __rwsem_do_wake s wakewrite = Ret s' ∧ rw_inv s' rd' wr'.
Proof.
  intros I Hc -> Hl Ha Htrue Hfalse. unfold __rwsem_do_wake.
  destruct (wait_list s) as [|w l] eqn:El; [done|].
  destruct (inv_queued _ _ _ I w) as [[f Hw] [Hrd _]]; [rewrite El; set_solver|].
  rewrite Hw. cbn [w_flags]. case_bool_decide as Hf.
  - subst f. destruct wakewrite.
    + specialize (Htrue eq_refl). subst rd.
      destruct (take_waiter_core s ∅ ∅ w l RWSEM_WAITING_FOR_WRITE AfterWriter (-1))
        as (s' & E & I' & Ea & El' & Ef & Ec & Hwl); [done..|by rewrite Hc|by rewrite Hc|done|done|].
      rewrite E. eexists _, _, _. split; [done|]. split; [exact I'|].
      unfold count_inv. rewrite Ec, Ea, El', Ef. cbn. by rewrite union_empty_r_L.
    + specialize (Hfalse eq_refl). eexists _, _, _. split; [done|]. split.
      * replace (set_crit None s) with s; [exact I|]. destruct s; unfold set_crit; cbn in *; by subst.
      * unfold count_inv. cbn. rewrite El. cbn. rewrite Hw. cbn.
        split_and!; [by left|lia|done].
  - destruct f; [|done]. eexists _, rd, ∅. split; [done|]. split.
    + destruct I as [I1 I2 I3 I4 I5 I6 I7 I8]. split; try done; cbn.
      * intros t x Hx. destruct (I4 t x Hx) as [?|[? [?|[k Hk]]]]; [by left|by auto|congruence].
      * intros t g Hp Hs Hx. destruct (I8 t g Hp Hs Hx) as [k ?]. congruence.
    + unfold count_inv. cbn. rewrite El. cbn. rewrite Hw. cbn.
      split_and!; try done; try lia. by right.
Qed.

Lemma up_read_inv s rd wr t :
  rw_inv s rd wr → crit s = None → pc_of s t = Holding RWSEM_WAITING_FOR_READ →
  ∃ s' rd' wr', __up_read t s = Ret s' ∧ rw_inv s' rd' wr'.
Proof.
  intros I Hc Hp. destruct (inv_holding _ _ _ I t _ Hp) as [Hrd Hwr].
  destruct (count_free _ _ _ I Hc) as (Hcnt & H0 & Hpos).
  destruct Hcnt as [[Ha ->]|(_ & -> & _)]; [|set_solver].
  pose proof (size_remove t rd Hrd) as Hsz.
  assert (rw_core (set_pc t Outside (set_activity (activity s - 1) s)) (rd ∖ {[t]}) ∅) as I'.
  { eapply release_core; [apply I|done|by left|set_solver|set_solver]. }
  unfold __up_read. cbn. set (s1 := set_pc t Outside _) in *.
  destruct (Z.eqb_spec (activity s - 1) 0) as [Hz|Hz]; cbn.
  - destruct (wait_list s) as [|w l] eqn:El; cbn.
    + eexists _, _, _. split; [done|]. split; [exact I'|].
      unfold count_inv. cbn. rewrite Hc, El. split_and!; [left; split; [lia|done]|done|by cbn].
    + unfold __rwsem_wake_one_writer. cbn. rewrite El.
      destruct (inv_queued _ _ _ I w) as [[f Hw] _]; [rewrite El; set_solver|].
      assert (f = RWSEM_WAITING_FOR_WRITE) as ->.
      { specialize (Hpos ltac:(lia)). rewrite ?El in Hpos. cbn in Hpos. rewrite Hw in Hpos. cbn in Hpos.
        by destruct f. }
      assert (rd ∖ {[t]} = ∅) as E0 by (apply leibniz_equiv, size_empty_iff; lia). rewrite E0 in I'.
      destruct (take_waiter_core s1 ∅ ∅ w l RWSEM_WAITING_FOR_WRITE AfterWriter (-1))
        as (s' & E & I'' & Ea & El' & Ef & Ec & Hwl); [done|done|done|cbn; by rewrite Hc|cbn; by rewrite Hc|done|done|].
      rewrite E. eexists _, _, _. split; [done|]. split; [exact I''|].
      unfold count_inv. rewrite Ec, Ea, El', Ef. cbn. by rewrite union_empty_r_L.
  - eexists _, _, _. split; [done|]. split; [exact I'|].
    unfold count_inv. cbn. rewrite Hc. split_and!; [left; split; [lia|done]|lia|].
    intros _. apply Hpos. lia.
Qed.

Lemma up_write_inv s rd wr t :
  rw_inv s rd wr → crit s = None → pc_of s t = Holding RWSEM_WAITING_FOR_WRITE →
  ∃ s' rd' wr', __up_write t s = Ret s' ∧ rw_inv s' rd' wr'.
Proof.
  intros I Hc Hp. destruct (inv_holding _ _ _ I t _ Hp) as [Hwr Hrd].
  destruct (count_free _ _ _ I Hc) as (Hcnt & _).
  destruct Hcnt as [[_ ->]|(_ & -> & x & ->)]; [set_solver|].
  assert (rw_core (set_pc t Outside (set_activity 0 s)) ∅ ∅) as I'.
  { eapply release_core; [apply I|done|by left|set_solver|set_solver]. }
  unfold __up_write. cbn. set (s1 := set_pc t Outside _) in *.
  destruct (wait_list s) as [|w l] eqn:El; cbn.
  - eexists _, _, _. split; [done|]. split; [exact I'|].
    unfold count_inv. cbn. rewrite Hc, El. split_and!; [by left|done|by cbn].
  - apply (do_wake_inv s1 ∅ ∅ true); [done|done|done|cbn; by rewrite El|done|done|done].
Qed.

Lemma downgrade_inv s rd wr t :
  rw_inv s rd wr → crit s = None → pc_of s t = Holding RWSEM_WAITING_FOR_WRITE →
  ∃ s' rd' wr', __downgrade_write t s = Ret s' ∧ rw_inv s' rd' wr'.
Proof.
  intros I Hc Hp. destruct (inv_holding _ _ _ I t _ Hp) as [Hwr Hrd].
  destruct (count_free _ _ _ I Hc) as (Hcnt & _).
  destruct Hcnt as [[_ ->]|(_ & -> & x & ->)]; [set_solver|].
  assert (rw_core (set_pc t (Holding RWSEM_WAITING_FOR_READ) (set_activity 1 s)) {[t]} ∅) as I'.
  { eapply release_core; [apply I|done|right; eexists; split; [done|cbn; set_solver]|set_solver|done]. }
  unfold __downgrade_write. cbn. set (s1 := set_pc t _ _) in *.
  destruct (wait_list s) as [|w l] eqn:El; cbn.
  - eexists _, _, _. split; [done|]. split; [exact I'|].
    unfold count_inv. cbn. rewrite Hc, El. split_and!; [left; by rewrite size_singleton|lia|by cbn].
  - apply (do_wake_inv s1 {[t]} ∅ false); [done|done|done|cbn; by rewrite El|
      by rewrite size_singleton|done|done].
Qed.

(** *** Every schedule *)
Lemma step_inv s rd wr a r :
  rw_inv s rd wr → rwsem_step a s = Some r → ∃ s' rd' wr', r = Ret s' ∧ rw_inv s' rd' wr'.
Proof.
  intros I. assert (∀ t p, enabled s t p = true → pc_of s t = p ∧ crit s = None) as Hen.
  { unfold enabled. intros t p [H1%bool_decide_eq_true H2]%andb_prop. by destruct (crit s). }
  assert (∀ (f : bool) t, pc_of s t = Outside → crit s = None → ∃ s' rd' wr',
    rw_inv s' rd' wr' ∧ (if f then __down_read t s else __down_write_nested t s) = s') as Hdown.
  { intros f t Hp Hc. destruct f; [unfold __down_read|unfold __down_write_nested].
    - destruct (Z.leb_spec 0 (activity s)); cbn; [destruct (wait_list s) eqn:El; cbn|].
      + eexists _, _, _. split; [by eapply grant_read|done].
      + eexists _, _, _. split; [|done]. apply down_wait_inv; [done..|by left; rewrite El|by left; rewrite El].
      + eexists _, _, _. split; [|done]. apply down_wait_inv; [done..|by right; lia|by right].
    - destruct (Z.eqb_spec (activity s) 0); cbn; [destruct (wait_list s) eqn:El; cbn|].
      + eexists _, _, _. split; [by eapply grant_write|done].
      + eexists _, _, _. split; [|done]. apply down_wait_inv; [done..|by left; rewrite El|done].
      + eexists _, _, _. split; [|done]. apply down_wait_inv; [done..|by right|done]. }
  destruct a as [t|t|t|t|t|t|t|t| |t]; cbn [rwsem_step].
  - destruct (enabled s t _) eqn:E; [|done]. apply Hen in E as [Hp Hc]. intros [= <-].
    destruct (Hdown true t Hp Hc) as (s' & rd' & wr' & ? & ->). eauto 6.
  - destruct (enabled s t _) eqn:E; [|done]. apply Hen in E as [Hp Hc]. intros [= <-].
    unfold __down_read_trylock. destruct (_ && _) eqn:E; cbn; [|eauto 6].
    apply andb_prop in E as [E1%Z.leb_le E2%list_empty_true].
    eexists _, _, _. split; [done|]. by eapply grant_read.
  - destruct (enabled s t _) eqn:E; [|done]. apply Hen in E as [Hp Hc]. intros [= <-].
    destruct (Hdown false t Hp Hc) as (s' & rd' & wr' & ? & ->). eauto 6.
  - destruct (enabled s t _) eqn:E; [|done]. apply Hen in E as [Hp Hc]. intros [= <-].
    unfold __down_write_trylock. destruct (_ && _) eqn:E; cbn; [|eauto 6].
    apply andb_prop in E as [E1%Z.eqb_eq E2%list_empty_true].
    eexists _, _, _. split; [done|]. by eapply grant_write.
  - destruct (enabled s t _) eqn:E; [|done]. apply Hen in E as [Hp Hc]. intros [= <-].
    by eapply up_read_inv.
  - destruct (enabled s t _) eqn:E; [|done]. apply Hen in E as [Hp Hc]. intros [= <-].
    by eapply up_write_inv.
  - destruct (enabled s t _) eqn:E; [|done]. apply Hen in E as [Hp Hc]. intros [= <-].
    by eapply downgrade_inv.
  - intros Hs. destruct (wait_loop_inv s rd wr t r I Hs) as (s' & -> & ?). eauto.
  - intros Hs. by eapply wake_step_inv.
  - intros [= <-]. eexists _, _, _. split; [done|]. by apply spurious_inv.
Qed.

Lemma run_inv l s rd wr :
  rw_inv s rd wr → ∃ s' rd' wr', rwsem_run l s = Ret s' ∧ rw_inv s' rd' wr'.
Proof.
  revert s rd wr. induction l as [|a l IH]; intros s rd wr I; cbn; [eauto 6|].
  destruct (rwsem_step a s) as [r|] eqn:E; [|by eapply IH].
  destruct (step_inv s rd wr a r I E) as (s' & rd' & wr' & -> & I'). cbn. by eapply IH.
Qed.

Lemma holders_exclude s rd wr t t' f :
  rw_inv s rd wr → t ∈ wr ∧ (t ∉ rd) → granted rd wr t' f → t = t'.
Proof.
  intros [_ Hcnt] [Ht _] Ht'. assert (rd = ∅ ∧ ∃ x, wr = {[x]}) as [-> [x ->]].
  { unfold count_inv in Hcnt.
    destruct (crit s) as [[w woken|w tsk [|next woken]|tsk [|next woken]]|];
      repeat match goal with H : _ ∧ _ |- _ => destruct H end; try (set_solver by eauto).
    destruct H as [[_ ->]|(_ & ? & ?)]; [set_solver|done]. }
  destruct f; set_solver.
Qed.

Lemma granted_holds s rd wr t :
  rw_inv s rd wr → crit s = None → t ∈ rd ∪ wr →
  ∃ f, pc_of s t = Holding f ∨ frames s !! t = Some (Waiter None f).
Proof.
  intros I Hc Ht. destruct (pc_of s t) as [|f| | |] eqn:Hp; [|by eauto|..].
  { apply (inv_outside _ _ _ I) in Hp. set_solver. }
  all: destruct (inv_looping _ _ _ I t) as [[task f] Hw]; [rewrite Hp; unfold looping; auto|];
    destruct (inv_task _ _ _ I t _ Hw) as [Hn|[_ [Hq|[k Hk]]]];
    [cbn in Hn; subst; eauto|apply (inv_queued _ _ _ I) in Hq; set_solver|congruence].
Qed.

(** C7: reader-writer semaphores, for every sequence of calls by any tasks,
    every interleaving of the waiting loops with the wakeups and every spurious
    wakeup. No frame of a function that returned is touched, and no list is
    walked past its end ([rwsem_run] gives no [UB]). A writer excludes everybody
    else. A task that was given the semaphore and sleeps is about to be woken.
    And whoever waits, waits for a task that has the semaphore or was given it. *)
Theorem rwsem_correct l :
  ∃ s, rwsem_run l __init_rwsem = Ret s ∧
  (∀ t t' f, pc_of s t = Holding RWSEM_WAITING_FOR_WRITE → pc_of s t' = Holding f → t = t') ∧
  (∀ t f, pc_of s t = LoopSchedule → t ∈ sleepy s →
     frames s !! t = Some (Waiter None f) → ∃ k, crit s = Some (WakeTask t k)) ∧
  (crit s = None → wait_list s ≠ [] →
     ∃ t f, pc_of s t = Holding f ∨ frames s !! t = Some (Waiter None f)).
Proof.
  destruct (run_inv l _ _ _ init_inv) as (s & rd & wr & -> & I). exists s. split; [done|].
  split_and!.
  - intros t t' f Ht Ht'. apply (inv_holding _ _ _ I) in Ht, Ht'. cbn in Ht.
    by apply (holders_exclude s rd wr t t' f).
  - apply I.
  - intros Hc Hl. destruct (count_free _ _ _ I Hc) as (Hcnt & H0 & _).
    assert (∃ t, t ∈ rd ∪ wr) as [t Ht].
    { destruct Hcnt as [[Ha ->]|(_ & _ & t & ->)]; [|exists t; set_solver].
      assert (rd ≠ ∅) as Hne by (intros ->; by apply Hl, H0).
      apply set_choose_L in Hne as [t Ht]. exists t. set_solver. }
    exists t. by apply (granted_holds s rd wr).
Qed.

(** A run: a reader holds the semaphore, a writer and a second reader queue, the
    first reader leaves and wakes the writer, who then returns with it. *)
Example rwsem_handoff :
  ∃ s, rwsem_run
      [DownRead 1; DownWrite 2; DownRead 3; WaitLoop 2; UpRead 1; Waking; Waking;
       WaitLoop 2; WaitLoop 2; WaitLoop 2]%positive __init_rwsem = Ret s ∧
    pc_of s 2%positive = Holding RWSEM_WAITING_FOR_WRITE ∧ wait_list s = [3%positive] ∧
    activity s = -1.
Proof. eexists. split; [vm_compute; reflexivity|]. by vm_compute. Qed.
