(* ===== verification/ListSort.v ===== *)
(** * Sorting of linked lists: lib/list_sort.c

    The nodes of a list are cells of a memory, a pointer is an address or
    NULL, and the merges relink the cells in place. What a node is embedded in
    is seen by the caller's [cmp] alone, which is a parameter of the model.

    [list_sort_correct]: on any circular doubly linked list the function
    leaves a circular doubly linked list of the same nodes, in order, with
    equivalent nodes in the order they had, and no other cell changed. *)

From stdpp Require Import gmap sorting.
From S2P Require Import Prelude.

(** ** Memory *)

(** a pointer to a node; [None] is NULL *)
Abbreviation ptr := (option positive).

Record list_head := ListHead { next : ptr; prev : ptr }.

Abbreviation mem := (gmap positive list_head).

Definition load (m : mem) (p : ptr) : cres list_head :=
  match p with
  | Some a => match m !! a with Some n => Ret n | None => UB end
  | None => UB
  end.

(** [p->next = v] and [p->prev = v] *)
Definition set_next (p v : ptr) (m : mem) : cres mem :=
  n ← load m p; Ret (match p with Some a => <[a := ListHead v (prev n)]> m | None => m end).
Definition set_prev (p v : ptr) (m : mem) : cres mem :=
  n ← load m p; Ret (match p with Some a => <[a := ListHead (next n) v]> m | None => m end).

Definition is_null (p : ptr) : bool := match p with Some _ => false | None => true end.

(** ** The functions *)

Definition MAX_LIST_LENGTH_BITS : Z := 20.

(** [cmp] is called with pointers to nodes *)
Definition call_cmp (cmp : positive → positive → Z) (a b : ptr) : cres Z :=
  match a, b with Some a, Some b => Ret (cmp a b) | _, _ => UB end.

(** [tail->next = v], where [None] is the address of the local [head], of which
    only [next] is used *)
Definition link (tail v : ptr) (head_next : ptr) (m : mem) : cres (ptr * mem) :=
  match tail with
  | None => Ret (v, m)
  | Some _ => m ← set_next tail v m; Ret (head_next, m)
  end.

(** the [while] of [merge] and the assignment after it *)
Fixpoint merge_loop (cmp : positive → positive → Z) (fuel : nat) (tail a b : ptr)
    (head_next : ptr) (m : mem) : cres (ptr * mem) :=
  match fuel with
  | O => UB
  | S fuel =>
      if negb (is_null a) && negb (is_null b) then
        r ← call_cmp cmp a b;
        if r <=? 0 then
          '(head_next, m) ← link tail a head_next m;
          n ← load m a;
          merge_loop cmp fuel a (next n) b head_next m
        else
          '(head_next, m) ← link tail b head_next m;
          n ← load m b;
          merge_loop cmp fuel b a (next n) head_next m
      else link tail (if is_null a then b else a) head_next m
  end.

Definition merge (cmp : positive → positive → Z) (a b : ptr) (m : mem) : cres (ptr * mem) :=
  merge_loop cmp (S (size m)) None a b None m.

(** the first loop of [merge_and_restore_back_links] and the assignment after it *)
Fixpoint merge_links_loop (cmp : positive → positive → Z) (fuel : nat) (tail a b : ptr)
    (m : mem) : cres (ptr * mem) :=
  match fuel with
  | O => UB
  | S fuel =>
      if negb (is_null a) && negb (is_null b) then
        r ← call_cmp cmp a b;
        if r <=? 0 then
          m ← set_next tail a m;
          m ← set_prev a tail m;
          n ← load m a;
          merge_links_loop cmp fuel a (next n) b m
        else
          m ← set_next tail b m;
          m ← set_prev b tail m;
          n ← load m b;
          merge_links_loop cmp fuel b a (next n) m
      else m ← set_next tail (if is_null a then b else a) m; Ret (tail, m)
  end.

(** its [do ... while] *)
Fixpoint restore_loop (cmp : positive → positive → Z) (fuel : nat) (tail : ptr) (m : mem) :
    cres (ptr * mem) :=
  match fuel with
  | O => UB
  | S fuel =>
      n ← load m tail;
      _ ← call_cmp cmp (next n) (next n);
      m ← set_prev (next n) tail m;
      let tail := next n in
      n ← load m tail;
      if is_null (next n) then Ret (tail, m) else restore_loop cmp fuel tail m
  end.

Definition merge_and_restore_back_links (cmp : positive → positive → Z) (head a b : ptr)
    (m : mem) : cres mem :=
  '(tail, m) ← merge_links_loop cmp (S (size m)) head a b m;
  '(tail, m) ← restore_loop cmp (S (size m)) tail m;
  m ← set_next tail head m;
  set_prev head tail m.

(** [for (lev = 0; part[lev]; lev++)] *)
Fixpoint carry_loop (cmp : positive → positive → Z) (fuel : nat) (part : list ptr) (lev : Z)
    (cur : ptr) (m : mem) : cres (list ptr * Z * ptr * mem) :=
  match fuel with
  | O => UB
  | S fuel =>
      p ← array_get part lev;
      if is_null p then Ret (part, lev, cur, m) else
      '(cur, m) ← merge cmp p cur m;
      part ← array_set part lev None;
      carry_loop cmp fuel part (lev + 1) cur m
  end.

(** [while (list)] *)
Fixpoint split_loop (cmp : positive → positive → Z) (fuel : nat) (lst : ptr) (part : list ptr)
    (max_lev : Z) (m : mem) : cres (list ptr * Z * mem) :=
  if is_null lst then Ret (part, max_lev, m) else
  match fuel with
  | O => UB
  | S fuel =>
      let cur := lst in
      n ← load m lst;
      let lst := next n in
      m ← set_next cur None m;
      '(part, lev, cur, m) ← carry_loop cmp (S (length part)) part 0 cur m;
      let '(lev, max_lev) :=
        if max_lev <? lev then
          let lev := if zlength part - 1 <=? lev then lev - 1 else lev in (lev, lev)
        else (lev, max_lev) in
      part ← array_set part lev cur;
      split_loop cmp fuel lst part max_lev m
  end.

(** [for (lev = 0; lev < max_lev; lev++)], for the [n] values that remain *)
Fixpoint join_loop (cmp : positive → positive → Z) (n : nat) (part : list ptr) (lev : Z)
    (lst : ptr) (m : mem) : cres (ptr * mem) :=
  match n with
  | O => Ret (lst, m)
  | S n =>
      p ← array_get part lev;
      if is_null p then join_loop cmp n part (lev + 1) lst m else
      '(lst, m) ← merge cmp p lst m;
      join_loop cmp n part (lev + 1) lst m
  end.

Definition list_sort (cmp : positive → positive → Z) (head : positive) (m : mem) : cres mem :=
  h ← load m (Some head);
  if bool_decide (next h = Some head) then Ret m else
  let part := replicate (Z.to_nat (MAX_LIST_LENGTH_BITS + 1)) None in
  m ← set_next (prev h) None m;
  h ← load m (Some head);
  '(part, max_lev, m) ← split_loop cmp (size m) (next h) part 0 m;
  '(lst, m) ← join_loop cmp (Z.to_nat max_lev) part 0 None m;
  p ← array_get part max_lev;
  merge_and_restore_back_links cmp (Some head) p lst m.

(** ** Reading the memory *)

Definition nxt (m : mem) (a : positive) : option ptr := next <$> m !! a.
Definition prv (m : mem) (a : positive) : option ptr := prev <$> m !! a.

(** a NULL-terminated chain, the intermediate format of the merges *)
Fixpoint chain (m : mem) (p : ptr) (l : list positive) : Prop :=
  match l with
  | [] => p = None
  | x :: l => p = Some x ∧ ∃ q, nxt m x = Some q ∧ chain m q l
  end.

(** a path with links in both directions from [t] through [l], ending in [u] *)
Fixpoint dpath (m : mem) (t : positive) (l : list positive) (u : positive) : Prop :=
  match l with
  | [] => t = u
  | x :: l => nxt m t = Some (Some x) ∧ prv m x = Some (Some t) ∧ dpath m x l u
  end.

(** the circular list with the given head and nodes *)
Definition dlist (m : mem) (head : positive) (l : list positive) : Prop :=
  NoDup (head :: l) ∧
  ∃ u, dpath m head l u ∧ nxt m u = Some (Some head) ∧ prv m head = Some (Some u).

Definition same_except (l : list positive) (m m' : mem) : Prop :=
  ∀ a, a ∉ l → m' !! a = m !! a.

Lemma same_nxt l m m' a : same_except l m m' → a ∉ l → nxt m' a = nxt m a.
Proof. intros H Ha. unfold nxt. by rewrite H. Qed.
Lemma same_prv l m m' a : same_except l m m' → a ∉ l → prv m' a = prv m a.
Proof. intros H Ha. unfold prv. by rewrite H. Qed.
Lemma same_trans k l1 l2 m1 m2 m3 :
  same_except l1 m1 m2 → same_except l2 m2 m3 → l1 ⊆ k → l2 ⊆ k → same_except k m1 m3.
Proof. intros H1 H2 S1 S2 a Ha. rewrite H2, H1; set_solver. Qed.
Lemma same_weaken k l m m' : same_except l m m' → l ⊆ k → same_except k m m'.
Proof. intros H S a Ha. apply H. set_solver. Qed.

Lemma chain_frame l k m m' p :
  chain m p l → same_except k m m' → (∀ x, x ∈ l → x ∉ k) → chain m' p l.
Proof.
  revert p. induction l as [|x l IH]; intros p; [done|]. intros [-> (q & Hq & Hl)] Hs Hk.
  split; [done|]. exists q. split.
  - rewrite (same_nxt k m); [done|done|]. apply Hk. set_solver.
  - apply IH; [done|done|]. set_solver.
Qed.

Lemma dpath_end m t l u : dpath m t l u → u ∈ t :: l.
Proof.
  revert t. induction l as [|x l IH]; intros t; [intros ->; set_solver|].
  intros (_ & _ & H%IH). set_solver.
Qed.

(** the link out of the last node and the link into the first are not part of it *)
Lemma dpath_congr l m m' t u :
  dpath m t l u → NoDup (t :: l) →
  (∀ a, a ∈ t :: l → a ≠ u → nxt m' a = nxt m a) → (∀ a, a ∈ l → prv m' a = prv m a) →
  dpath m' t l u.
Proof.
  revert t. induction l as [|x l IH]; intros t; [done|].
  intros (Hn & Hp & Hl) [Ht Hnd]%NoDup_cons Hnx Hpv. split_and!.
  - rewrite Hnx; [done|set_solver|]. intros ->. apply dpath_end in Hl. done.
  - rewrite Hpv; [done|set_solver].
  - apply IH; [done..| |]; intros a ?; [apply Hnx|apply Hpv]; set_solver.
Qed.

Lemma dpath_frame l k m m' t u :
  dpath m t l u → NoDup (t :: l) → same_except k m m' → (∀ x, x ∈ t :: l → x ∉ k) → dpath m' t l u.
Proof.
  intros Hd Hnd Hs Hk. eapply dpath_congr; [done..| |]; intros a Ha.
  - intros _. apply (same_nxt k); [done|by apply Hk].
  - apply (same_prv k); [done|]. apply Hk. set_solver.
Qed.

Lemma dpath_app m t l1 u l2 v : dpath m t l1 u → dpath m u l2 v → dpath m t (l1 ++ l2) v.
Proof.
  revert t. induction l1 as [|x l1 IH]; intros t; [by intros ->|].
  intros (? & ? & ?) ?. split_and!; [done..|]. by apply IH.
Qed.

Lemma chain_null m p l : chain m p l → is_null p = match l with [] => true | _ => false end.
Proof. destruct l; cbn; [by intros ->|by intros [-> _]]. Qed.

Lemma chain_dom m p l x : chain m p l → x ∈ l → is_Some (m !! x).
Proof.
  revert p. induction l as [|y l IH]; intros p; [set_solver|]. intros [_ (q & Hq & Hl)].
  intros [->|Hx]%elem_of_cons; [|by eapply IH].
  unfold nxt in Hq. destruct (m !! y); [by eexists|done].
Qed.

(** ** The effect of the assignments *)

Lemma load_nxt m a q : nxt m a = Some q → ∃ n, load m (Some a) = Ret n ∧ next n = q.
Proof. unfold nxt, load. destruct (m !! a) as [n|]; [|done]. intros [= <-]. eauto. Qed.

Lemma set_next_effect a v m : is_Some (m !! a) →
  ∃ m', set_next (Some a) v m = Ret m' ∧ nxt m' a = Some v ∧ prv m' a = prv m a ∧
    same_except [a] m m' ∧ (∀ x, is_Some (m !! x) → is_Some (m' !! x)).
Proof.
  intros [n Hn]. unfold set_next, load. rewrite Hn. cbn. eexists. split; [done|].
  unfold nxt, prv. rewrite lookup_insert_eq, Hn. split_and!; [done..| |].
  - intros x Hx. apply lookup_insert_ne. set_solver.
  - intros x Hx. destruct (decide (x = a)) as [->|]; by simplify_map_eq.
Qed.

Lemma set_prev_effect a v m : is_Some (m !! a) →
  ∃ m', set_prev (Some a) v m = Ret m' ∧ prv m' a = Some v ∧ nxt m' a = nxt m a ∧
    same_except [a] m m' ∧ (∀ x, is_Some (m !! x) → is_Some (m' !! x)).
Proof.
  intros [n Hn]. unfold set_prev, load. rewrite Hn. cbn. eexists. split; [done|].
  unfold nxt, prv. rewrite lookup_insert_eq, Hn. split_and!; [done..| |].
  - intros x Hx. apply lookup_insert_ne. set_solver.
  - intros x Hx. destruct (decide (x = a)) as [->|]; by simplify_map_eq.
Qed.

Lemma nxt_is_Some m a q : nxt m a = Some q → is_Some (m !! a).
Proof. unfold nxt. destruct (m !! a); [by eexists|done]. Qed.
Lemma prv_is_Some m a q : prv m a = Some q → is_Some (m !! a).
Proof. unfold prv. destruct (m !! a); [by eexists|done]. Qed.

(** [head->prev->next = NULL] opens the ring *)
Lemma dpath_chain m t l u :
  dpath m t l u → NoDup (t :: l) → nxt m u = Some None → ∃ q, nxt m t = Some q ∧ chain m q l.
Proof.
  revert t. induction l as [|x l IH]; intros t; [intros Heq _ Hu; exists None; cbn in Heq; by subst|].
  intros (Hn & _ & Hl) [_ Hnd]%NoDup_cons Hu. exists (Some x). split; [done|].
  split; [done|]. by apply IH.
Qed.

Lemma open_ring m head l :
  dlist m head l → l ≠ [] →
  ∃ h m' h', load m (Some head) = Ret h ∧ next h ≠ Some head ∧ set_next (prev h) None m = Ret m' ∧
    load m' (Some head) = Ret h' ∧ chain m' (next h') l ∧ same_except l m m'.
Proof.
  intros [Hnd (u & Hd & Hu & Hh)] Hne. pose proof Hnd as [Hhl _]%NoDup_cons.
  unfold prv in Hh. destruct (m !! head) as [h|] eqn:Em; [|done]. injection Hh as Hh.
  assert (u ∈ l ∧ nxt m head ≠ Some (Some head)) as [Hul Hnh].
  { destruct l as [|x l]; [done|]. destruct Hd as (-> & _ & Hd). apply dpath_end in Hd.
    split; [done|]. intros [= ->]. set_solver. }
  destruct (set_next_effect u None m) as (m' & E & Hn & Hp & Hs & _); [by eapply nxt_is_Some|].
  assert (dpath m' head l u) as Hd'.
  { eapply dpath_congr; [done..| |]; intros a Ha.
    - intros ?. apply (same_nxt [u]); [done|set_solver].
    - destruct (decide (a = u)) as [->|]; [done|]. apply (same_prv [u]); [done|set_solver]. }
  destruct (dpath_chain m' head l u Hd' Hnd Hn) as (q & Hq & Hc).
  destruct (load_nxt _ _ _ Hq) as (h' & E' & <-). exists h, m', h'. unfold load at 1. rewrite Em, Hh.
  split_and!; [done| |done..|eapply same_weaken; [done|set_solver]].
  intros Heq. apply Hnh. unfold nxt. by rewrite Em, <- Heq.
Qed.

(** ** Merging *)
Section sorting.
Context (cmp : positive → positive → Z).

Definition ordered (a b : positive) : Prop := cmp a b ≤ 0.
#[local] Instance ordered_dec a b : Decision (ordered a b) := decide (cmp a b ≤ 0).

Definition merged := list_merge ordered.

(** a pair of chains, or what is left of one, to be linked behind a node *)
Definition chains (m : mem) (t : list positive) (a b : ptr) (la lb : list positive) : Prop :=
  chain m a la ∧ chain m b lb ∧ NoDup (t ++ la ++ lb) ∧ (∀ x, x ∈ t → is_Some (m !! x)).

Lemma chains_left m m' t x la b lb q k :
  chains m [t] (Some x) b (x :: la) lb → nxt m x = Some q →
  same_except k m m' → k ⊆ [t; x] → nxt m' x = Some q → chains m' [x] q b la lb.
Proof.
  intros ((_ & q' & Hq' & Ha) & Hb & Hnd & _) Hq Hs Hk Hx. simplify_eq.
  apply NoDup_cons in Hnd as [Ht Hnd]. cbn in Hnd. pose proof Hnd as Hnd'.
  apply NoDup_cons in Hnd' as [Hx' _]. split_and!.
  - eapply chain_frame; [done|done|]. set_solver.
  - eapply chain_frame; [done|done|]. set_solver.
  - done.
  - intros y ->%list_elem_of_singleton. by eapply nxt_is_Some.
Qed.

Lemma chains_sym m t a b la lb : chains m t a b la lb → chains m t b a lb la.
Proof.
  intros (Ha & Hb & Hnd & Ht). split_and!; [done..| |done].
  by rewrite (Permutation_app_comm lb).
Qed.

Lemma chains_right m m' t x la a lb q k :
  chains m [t] a (Some x) la (x :: lb) → nxt m x = Some q →
  same_except k m m' → k ⊆ [t; x] → nxt m' x = Some q → chains m' [x] a q la lb.
Proof. intros H%chains_sym ????. apply chains_sym. by eapply chains_left. Qed.

Lemma chains_tail m t a b la lb : chains m [t] a b la lb → is_Some (m !! t).
Proof. intros (_ & _ & _ & H). apply H. set_solver. Qed.

(** [t] is linked to the first node of one of the chains, or to all that is left *)
Lemma link_first t x q h m :
  is_Some (m !! t) → nxt m x = Some q → t ≠ x →
  ∃ m' n, link (Some t) (Some x) h m = Ret (h, m') ∧ load m' (Some x) = Ret n ∧ next n = q ∧
    nxt m' x = Some q ∧ nxt m' t = Some (Some x) ∧ same_except [t] m m'.
Proof.
  intros Ht Hx Hne. destruct (set_next_effect t (Some x) m Ht) as (m' & E & Hn & _ & Hs & _).
  assert (nxt m' x = Some q) as Hx' by (rewrite (same_nxt [t] m); [done..|set_solver]).
  destruct (load_nxt _ _ _ Hx') as (n & E' & <-). exists m', n. unfold link. by rewrite E.
Qed.

Lemma link_rest t v l h m :
  is_Some (m !! t) → chain m v l → t ∉ l →
  ∃ m' q, link (Some t) v h m = Ret (h, m') ∧ nxt m' t = Some q ∧ chain m' q l ∧ same_except [t] m m'.
Proof.
  intros Ht Hl Hx. destruct (set_next_effect t v m Ht) as (m' & E & Hn & _ & Hs & _).
  exists m', v. unfold link. rewrite E. split_and!; [done..| |done].
  eapply chain_frame; [done..|]. set_solver.
Qed.

Lemma merge_loop_tail fuel t a b la lb h m :
  chains m [t] a b la lb → (length la + length lb < fuel)%nat →
  ∃ m' q, merge_loop cmp fuel (Some t) a b h m = Ret (h, m') ∧
    nxt m' t = Some q ∧ chain m' q (merged la lb) ∧ same_except (t :: la ++ lb) m m'.
Proof.
  revert t a b la lb m. induction fuel as [|fuel IH]; intros t a b la lb m Hc Hf; [lia|].
  cbn [merge_loop]. pose proof (chains_tail _ _ _ _ _ _ Hc) as Ht.
  pose proof Hc as (Ha & Hb & [Htn Hnd]%NoDup_cons & _).
  rewrite (chain_null _ _ _ Ha), (chain_null _ _ _ Hb). unfold merged.
  destruct la as [|x la]; [|destruct lb as [|y lb]]; cbn [negb andb].
  - rewrite list_merge_nil_l. destruct (link_rest t b lb h m) as (m' & q & ? & ? & ? & ?); [done..|].
    exists m', q. split_and!; [done..|]. eapply same_weaken; [done|set_solver].
  - rewrite list_merge_nil_r.
    destruct (link_rest t a (x :: la) h m) as (m' & q & ? & ? & ? & ?); [done..|set_solver|].
    exists m', q. split_and!; [done..|]. eapply same_weaken; [done|set_solver].
  - rewrite list_merge_cons.
    destruct Ha as [-> (qa & Hqa & _)], Hb as [-> (qb & Hqb & _)]. cbn [call_cmp mbind cres_bind].
    destruct (Z.leb_spec (cmp x y) 0) as [Hle|Hgt].
    + rewrite decide_True by done.
      destruct (link_first t x qa h m) as (m1 & n & -> & E & <- & ? & ? & Hs); [done..|set_solver|].
      cbn [mbind cres_bind]. rewrite E. cbn [mbind cres_bind].
      destruct (IH x (next n) (Some y) la (y :: lb) m1) as (m' & q & -> & ? & ? & Hs').
      { eapply chains_left; [done..|set_solver|done]. }
      { cbn in *. lia. }
      exists m', (Some x). split; [done|]. split_and!; [|by cbn; eauto|].
      * rewrite (same_nxt _ _ _ _ Hs'); [done|set_solver].
      * eapply same_trans; [done|done|set_solver..].
    + rewrite decide_False by (unfold ordered; lia).
      destruct (link_first t y qb h m) as (m1 & n & -> & E & <- & ? & ? & Hs); [done..|set_solver|].
      cbn [mbind cres_bind]. rewrite E. cbn [mbind cres_bind].
      destruct (IH y (Some x) (next n) (x :: la) lb m1) as (m' & q & -> & ? & ? & Hs').
      { eapply chains_right; [done..|set_solver|done]. }
      { cbn in *. lia. }
      exists m', (Some y). split; [done|]. split_and!; [|by cbn; eauto|].
      * rewrite (same_nxt _ _ _ _ Hs'); [done|set_solver].
      * eapply same_trans; [done|done|set_solver..].
Qed.

(** the first node goes into the local head *)
Lemma merge_loop_head fuel a b la lb m :
  chains m [] a b la lb → (length la + length lb < fuel)%nat →
  ∃ m' p, merge_loop cmp fuel None a b None m = Ret (p, m') ∧
    chain m' p (merged la lb) ∧ same_except (la ++ lb) m m'.
Proof.
  intros Hc Hf. destruct fuel as [|fuel]; [lia|]. pose proof Hc as (Ha & Hb & Hnd & _).
  cbn [merge_loop]. rewrite (chain_null _ _ _ Ha), (chain_null _ _ _ Hb). unfold merged.
  destruct la as [|x la]; [|destruct lb as [|y lb]]; cbn [negb andb link].
  - rewrite list_merge_nil_l. by exists m, b.
  - rewrite list_merge_nil_r. by exists m, a.
  - rewrite list_merge_cons.
    destruct Ha as [-> (qa & Hqa & Ha)], Hb as [-> (qb & Hqb & Hb)]. cbn [call_cmp mbind cres_bind].
    destruct (Z.leb_spec (cmp x y) 0) as [Hle|Hgt].
    + rewrite decide_True by done. destruct (load_nxt _ _ _ Hqa) as (n & -> & <-).
      cbn [mbind cres_bind].
      destruct (merge_loop_tail fuel x (next n) (Some y) la (y :: lb) (Some x) m)
        as (m' & q & -> & ? & ? & ?); [|cbn in *; lia|].
      { split_and!; [done|split; [done|by eauto]|done|]. intros z ->%list_elem_of_singleton. by eapply nxt_is_Some. }
      exists m', (Some x). split_and!; [done|by cbn; eauto|done].
    + rewrite decide_False by (unfold ordered; lia). destruct (load_nxt _ _ _ Hqb) as (n & -> & <-).
      cbn [mbind cres_bind].
      destruct (merge_loop_tail fuel y (Some x) (next n) (x :: la) lb (Some y) m)
        as (m' & q & -> & ? & ? & ?); [|cbn in *; lia|].
      { split_and!; [split; [done|by eauto]|done| |intros z ->%list_elem_of_singleton; by eapply nxt_is_Some].
        by rewrite <- (Permutation_middle (x :: la)) in Hnd. }
      exists m', (Some y). split_and!; [done|by cbn; eauto|].
      eapply same_weaken; [done|set_solver].
Qed.

Lemma merge_correct a b la lb m :
  chains m [] a b la lb →
  ∃ m' p, merge cmp a b m = Ret (p, m') ∧ chain m' p (merged la lb) ∧ same_except (la ++ lb) m m'.
Proof.
  intros Hc. apply merge_loop_head; [done|]. rewrite <- length_app. apply le_n_S.
  destruct Hc as (Ha & Hb & Hnd & _). apply nodup_size; [done|].
  intros x [Hx|Hx]%elem_of_app; [apply (chain_dom _ _ _ _ Ha Hx)|apply (chain_dom _ _ _ _ Hb Hx)].
Qed.

(** ** Restoring the back links *)

Lemma link_both t x q m :
  is_Some (m !! t) → nxt m x = Some q → t ≠ x →
  ∃ m1 m' n, set_next (Some t) (Some x) m = Ret m1 ∧ set_prev (Some x) (Some t) m1 = Ret m' ∧
    load m' (Some x) = Ret n ∧ next n = q ∧ nxt m' x = Some q ∧ nxt m' t = Some (Some x) ∧
    prv m' x = Some (Some t) ∧ prv m' t = prv m t ∧ same_except [t; x] m m'.
Proof.
  intros Ht Hx Hne. destruct (set_next_effect t (Some x) m Ht) as (m1 & E & Hn & Hp & Hs & _).
  assert (nxt m1 x = Some q) as Hx1 by (rewrite (same_nxt [t] m); [done..|set_solver]).
  destruct (set_prev_effect x (Some t) m1) as (m' & E' & Hp' & Hn' & Hs' & _).
  { by eapply nxt_is_Some. }
  rewrite Hx1 in Hn'. destruct (load_nxt _ _ _ Hn') as (n & E'' & <-).
  exists m1, m', n. split_and!; try done.
  - rewrite (same_nxt [x] m1); [done..|set_solver].
  - rewrite (same_prv [x] m1); [done..|set_solver].
  - eapply same_trans; [done..|set_solver|set_solver].
Qed.

Lemma links_rest t v l k m :
  is_Some (m !! t) → chain m v l → t ∉ l → l ≠ [] →
  ∃ u m' pre rest q, (m ← set_next (Some t) v m; Ret (Some t, m)) = Ret (Some u, m') ∧
    l = pre ++ rest ∧ rest ≠ [] ∧ dpath m' t pre u ∧
    nxt m' u = Some q ∧ chain m' q rest ∧ prv m' t = prv m t ∧ same_except (t :: k) m m'.
Proof.
  intros Ht Hl Hx Hne. destruct (set_next_effect t v m Ht) as (m' & -> & Hn & Hp & Hs & _).
  exists t, m', [], l, v. split_and!; try done.
  - eapply chain_frame; [done..|]. set_solver.
  - eapply same_weaken; [done|set_solver].
Qed.

(** the first loop restores the links of a beginning of the merged list and
    leaves a rest that is not empty *)
Lemma merge_links_correct fuel t a b la lb m :
  chains m [t] a b la lb → (length la + length lb < fuel)%nat → la ++ lb ≠ [] →
  ∃ u m' pre rest q, merge_links_loop cmp fuel (Some t) a b m = Ret (Some u, m') ∧
    merged la lb = pre ++ rest ∧ rest ≠ [] ∧ dpath m' t pre u ∧
    nxt m' u = Some q ∧ chain m' q rest ∧ prv m' t = prv m t ∧ same_except (t :: la ++ lb) m m'.
Proof.
  revert t a b la lb m. induction fuel as [|fuel IH]; intros t a b la lb m Hc Hf Hne; [lia|].
  cbn [merge_links_loop]. pose proof (chains_tail _ _ _ _ _ _ Hc) as Ht.
  pose proof Hc as (Ha & Hb & [Htn Hnd]%NoDup_cons & _).
  rewrite (chain_null _ _ _ Ha), (chain_null _ _ _ Hb). unfold merged.
  destruct la as [|x la]; [|destruct lb as [|y lb]]; cbn [negb andb].
  - rewrite list_merge_nil_l. by apply links_rest.
  - rewrite list_merge_nil_r. apply links_rest; [done..|set_solver|done].
  - rewrite list_merge_cons.
    destruct Ha as [-> (qa & Hqa & _)], Hb as [-> (qb & Hqb & _)]. cbn [call_cmp mbind cres_bind].
    destruct (Z.leb_spec (cmp x y) 0) as [Hle|Hgt].
    + rewrite decide_True by done.
      destruct (link_both t x qa m) as (m0 & m1 & n & -> & E1 & E & <- & ? & ? & ? & Hpt & Hs);
        [done..|set_solver|].
      cbn [mbind cres_bind]. rewrite E1. cbn [mbind cres_bind]. rewrite E. cbn [mbind cres_bind].
      destruct (IH x (next n) (Some y) la (y :: lb) m1)
        as (u & m' & pre & rest & q & -> & Hm & ? & ? & ? & ? & Hpx & Hs').
      { eapply chains_left; [done..|set_solver|done]. }
      { cbn in *. lia. }
      { by destruct la. }
      exists u, m', (x :: pre), rest, q. split_and!; [done|cbn; by rewrite <- Hm|done| |done..| |].
      * split_and!; [rewrite (same_nxt _ _ _ _ Hs'); [done|set_solver]|by rewrite Hpx|done].
      * rewrite <- Hpt. apply (same_prv _ _ _ _ Hs'). set_solver.
      * eapply same_trans; [done|done|set_solver..].
    + rewrite decide_False by (unfold ordered; lia).
      destruct (link_both t y qb m) as (m0 & m1 & n & -> & E1 & E & <- & ? & ? & ? & Hpt & Hs);
        [done..|set_solver|].
      cbn [mbind cres_bind]. rewrite E1. cbn [mbind cres_bind]. rewrite E. cbn [mbind cres_bind].
      destruct (IH y (Some x) (next n) (x :: la) lb m1)
        as (u & m' & pre & rest & q & -> & Hm & ? & ? & ? & ? & Hpx & Hs').
      { eapply chains_right; [done..|set_solver|done]. }
      { cbn in *. lia. }
      { done. }
      exists u, m', (y :: pre), rest, q. split_and!; [done|cbn; by rewrite <- Hm|done| |done..| |].
      * split_and!; [rewrite (same_nxt _ _ _ _ Hs'); [done|set_solver]|by rewrite Hpx|done].
      * rewrite <- Hpt. apply (same_prv _ _ _ _ Hs'). set_solver.
      * eapply same_trans; [done|done|set_solver..].
Qed.

Lemma restore_correct fuel t rest q m :
  nxt m t = Some q → chain m q rest → rest ≠ [] → NoDup (t :: rest) → (length rest ≤ fuel)%nat →
  ∃ u m', restore_loop cmp fuel (Some t) m = Ret (Some u, m') ∧ dpath m' t rest u ∧
    u ∈ rest ∧ same_except rest m m' ∧ (∀ x, nxt m' x = nxt m x).
Proof.
  revert t rest q m. induction fuel as [|fuel IH]; intros t rest q m Ht Hc Hne Hnd Hf.
  { destruct rest; [done|cbn in *; lia]. }
  destruct rest as [|x rest]; [done|]. destruct Hc as [-> (qx & Hx & Hc)].
  cbn [restore_loop]. destruct (load_nxt _ _ _ Ht) as (n & -> & En). cbn [mbind cres_bind].
  rewrite En. cbn [call_cmp mbind cres_bind].
  destruct (set_prev_effect x (Some t) m) as (m1 & -> & Hp & Hn & Hs & _); [by eapply nxt_is_Some|].
  cbn [mbind cres_bind]. assert (∀ z, nxt m1 z = nxt m z) as Hall.
  { intros z. destruct (decide (z = x)) as [->|]; [done|]. apply (same_nxt [x]); [done|set_solver]. }
  rewrite Hx in Hn. destruct (load_nxt _ _ _ Hn) as (n' & -> & <-). cbn [mbind cres_bind].
  apply NoDup_cons in Hnd as [Htn Hnd]. pose proof Hnd as [Hxn _]%NoDup_cons.
  assert (chain m1 (next n') rest) as Hc1.
  { eapply chain_frame; [done..|]. set_solver. }
  rewrite (chain_null _ _ _ Hc). destruct rest as [|y rest].
  - exists x, m1. split_and!; [done|split_and!; [by rewrite Hall|done|done]|set_solver|done|done].
  - destruct (IH x (y :: rest) (next n') m1) as (u & m' & -> & Hd & Hu & Hs' & Hall'); [done..|cbn in *; lia|].
    exists u, m'. split_and!; [done| |set_solver| |].
    + split_and!; [by rewrite Hall', Hall| |done].
      rewrite (same_prv _ _ _ _ Hs'); [done|set_solver].
    + eapply same_trans; [done|done|set_solver..].
    + intros z. by rewrite Hall', Hall.
Qed.

Lemma merged_perm la lb : merged la lb ≡ₚ la ++ lb.
Proof. apply merge_Permutation. Qed.

Lemma close_ring head l u m :
  dpath m head l u → l ≠ [] → NoDup (head :: l) → is_Some (m !! head) → is_Some (m !! u) →
  ∃ m1 m', set_next (Some u) (Some head) m = Ret m1 ∧ set_prev (Some head) (Some u) m1 = Ret m' ∧
    dlist m' head l ∧ same_except (head :: l) m m'.
Proof.
  intros Hd Hne Hnd Hh Hu. destruct (set_next_effect u (Some head) m Hu) as (m1 & E & Hn & Hp & Hs & Hd1).
  destruct (set_prev_effect head (Some u) m1) as (m' & E' & Hp' & Hn' & Hs' & _); [by apply Hd1|].
  exists m1, m'. split; [done|]. split; [done|]. pose proof (dpath_end _ _ _ _ Hd) as Hul.
  assert (∀ a, nxt m' a = nxt m1 a) as Hnx.
  { intros a. destruct (decide (a = head)) as [->|]; [done|]. apply (same_nxt [head]); [done|set_solver]. }
  assert (∀ a, prv m1 a = prv m a) as Hpv.
  { intros a. destruct (decide (a = u)) as [->|]; [done|]. apply (same_prv [u]); [done|set_solver]. }
  split; [|eapply same_trans; [done|done|set_solver..]].
  split; [done|]. exists u. split_and!; [|by rewrite Hnx|done].
  eapply dpath_congr; [done..| |]; intros a Ha.
  - intros Hau. rewrite Hnx. apply (same_nxt [u]); [done|set_solver].
  - rewrite <- Hpv. apply (same_prv [head]); [done|]. apply NoDup_cons in Hnd as [? _]. set_solver.
Qed.

Lemma merge_and_restore_correct head a b la lb m :
  chains m [head] a b la lb → la ++ lb ≠ [] →
  ∃ m', merge_and_restore_back_links cmp (Some head) a b m = Ret m' ∧
    dlist m' head (merged la lb) ∧ same_except (head :: la ++ lb) m m'.
Proof.
  intros Hc Hne. pose proof Hc as (Ha & Hb & Hnd & Hh).
  unfold merge_and_restore_back_links.
  destruct (merge_links_correct (S (size m)) head a b la lb m)
    as (u & m1 & pre & rest & q & -> & Hm & Hr & Hd & Hq & Hch & _ & Hs); [done| |done|].
  { rewrite <- length_app. apply le_n_S, nodup_size; [by apply NoDup_cons in Hnd as [_ ?]|].
    intros x [Hx|Hx]%elem_of_app; [apply (chain_dom _ _ _ _ Ha Hx)|apply (chain_dom _ _ _ _ Hb Hx)]. }
  cbn [mbind cres_bind].
  assert (NoDup (head :: pre ++ rest)) as Hnd'.
  { rewrite <- Hm, merged_perm. done. }
  pose proof (dpath_end _ _ _ _ Hd) as Hu.
  assert (NoDup (head :: pre) ∧ NoDup (u :: rest) ∧ ∀ x, x ∈ head :: pre → x ∉ rest) as (Hn1 & Hn2 & Hdis).
  { apply (NoDup_app (head :: pre)) in Hnd' as (? & Hx & ?). split_and!; [done| |done].
    apply NoDup_cons. auto. }
  destruct (restore_correct (S (size m1)) u rest q m1) as (v & m2 & -> & Hd2 & Hv & Hs2 & Hnx); [done..| |].
  { apply le_S, nodup_size; [by apply NoDup_cons in Hn2 as [_ ?]|]. intros x Hx. by eapply chain_dom. }
  cbn [mbind cres_bind].
  destruct (close_ring head (pre ++ rest) v m2) as (m3 & m4 & -> & E4 & Hl & Hs4).
  - apply dpath_app with u; [|done]. by eapply dpath_frame.
  - by destruct pre, rest.
  - done.
  - rewrite Hs2 by (apply Hdis; set_solver). destruct pre as [|x pre].
    + cbn in Hd. subst u. by eapply nxt_is_Some.
    + destruct Hd as [? _]. by eapply nxt_is_Some.
  - apply nxt_is_Some with (q := default None (nxt m2 v)). rewrite Hnx.
    destruct (chain_dom _ _ _ _ Hch Hv) as [n Hn]. unfold nxt. by rewrite Hn.
  - cbn [mbind cres_bind]. rewrite E4. exists m4. split; [done|]. rewrite Hm. split; [done|].
    assert (∀ x, x ∈ pre ++ rest ↔ x ∈ la ++ lb) as Hel by (intros x; by rewrite <- Hm, merged_perm).
    intros x Hx. assert (x ∉ head :: pre ++ rest) by set_solver. rewrite Hs4, Hs2, Hs; set_solver.
Qed.

(** ** Order and stability *)

(** the same nodes, and among equivalent nodes the same sequence *)
Definition stably (l l' : list positive) : Prop :=
  l ≡ₚ l' ∧ ∀ x, filter (λ y, cmp x y = 0) l = filter (λ y, cmp x y = 0) l'.

#[local] Instance stably_equiv : Equivalence stably.
Proof.
  split.
  - done.
  - by intros l l' [? ?].
  - intros l1 l2 l3 [? H1] [? H2]. split; [by etrans|]. intros x. by rewrite H1.
Qed.
#[local] Instance stably_app : Proper (stably ==> stably ==> stably) app.
Proof.
  intros l1 l1' [P1 F1] l2 l2' [P2 F2]. split; [by rewrite P1, P2|].
  intros x. by rewrite !filter_app, F1, F2.
Qed.

Context (Hcmp : cmp_order cmp).

#[local] Instance ordered_total : Total ordered.
Proof. intros a b. unfold ordered. pose proof (cmp_sym Hcmp a b). lia. Qed.
#[local] Instance ordered_trans : Transitive ordered.
Proof. intros a b c. apply (cmp_trans Hcmp). Qed.

Lemma merged_sorted la lb :
  StronglySorted ordered la → StronglySorted ordered lb → StronglySorted ordered (merged la lb).
Proof.
  intros Ha Hb. apply Sorted_StronglySorted; [apply _|].
  apply Sorted_list_merge; [apply _|by apply StronglySorted_Sorted..].
Qed.

Lemma later_not_equiv x y z l :
  cmp x y = 0 → ¬ ordered z y → StronglySorted ordered (z :: l) →
  filter (λ w, cmp x w = 0) (z :: l) = [].
Proof.
  intros Hxy Hzy [Hl Hf]%StronglySorted_inv. apply filter_none. rewrite Forall_cons. split.
  - intros Hxz. apply Hzy. eapply (cmp_trans Hcmp _ x); [|lia]. pose proof (cmp_sym Hcmp x z). lia.
  - eapply Forall_impl; [done|]. cbn. intros w Hw Hxw. apply Hzy.
    apply (cmp_trans Hcmp _ w); [done|]. apply (cmp_trans Hcmp _ x); [|lia].
    pose proof (cmp_sym Hcmp x w). lia.
Qed.

Lemma merged_stably la lb :
  StronglySorted ordered la → StronglySorted ordered lb → stably (la ++ lb) (merged la lb).
Proof.
  intros Ha Hb. split; [by rewrite merged_perm|]. intros x. unfold merged. revert lb Hb.
  induction la as [|y la IH]; intros lb Hb; [by rewrite list_merge_nil_l|].
  induction lb as [|z lb IHb]; [by rewrite list_merge_nil_r, app_nil_r|].
  rewrite list_merge_cons. pose proof Ha as [Ha' _]%StronglySorted_inv.
  pose proof Hb as [Hb' _]%StronglySorted_inv. case_decide as Hle.
  - rewrite filter_cons, <- (IH Ha') by done. cbn [app]. by rewrite filter_cons.
  - rewrite filter_cons, <- (IHb Hb'), !filter_app. rewrite (filter_cons _ z). case_decide as Hz; [|done].
    by rewrite (later_not_equiv x z).
Qed.

(** ** The stack of partial lists *)

(** the nodes of the parts in their original sequence: a higher level holds
    earlier nodes *)
Fixpoint unstack (ls : list (list positive)) : list positive :=
  match ls with [] => [] | l :: ls => unstack ls ++ l end.

Lemma unstack_app ls ks : unstack (ls ++ ks) = unstack ks ++ unstack ls.
Proof. induction ls as [|l ls IH]; cbn; [by rewrite app_nil_r|]. by rewrite IH, app_assoc. Qed.
Lemma unstack_empty ls : Forall (λ l, l = []) ls → unstack ls = [].
Proof. induction 1 as [|l ls -> _ IH]; [done|]. cbn. by rewrite IH. Qed.
Lemma unstack_split n ls : unstack ls = unstack (drop n ls) ++ unstack (take n ls).
Proof. by rewrite <- unstack_app, take_drop. Qed.
Lemma elem_of_unstack l ls x : l ∈ ls → x ∈ l → x ∈ unstack ls.
Proof. induction 1; cbn; set_solver. Qed.

Lemma unstack_insert i c ls :
  (∀ k, (k ≤ i)%nat → ls !! k = Some []) → unstack (<[i := c]> ls) = unstack ls ++ c.
Proof.
  revert ls. induction i as [|i IH]; intros ls H;
    (destruct ls as [|l ls]; [by specialize (H 0%nat (Nat.le_0_l _))|]).
  - specialize (H 0%nat ltac:(lia)). cbn in *. simplify_eq. by rewrite app_nil_r.
  - pose proof (H 0%nat ltac:(lia)) as H0. cbn in *. simplify_eq. rewrite !app_nil_r.
    apply IH. intros k Hk. by apply (H (S k)), le_n_S.
Qed.

Definition parts (m : mem) (part : list ptr) (ls : list (list positive)) : Prop :=
  Forall2 (chain m) part ls ∧ Forall (StronglySorted ordered) ls.

Lemma parts_frame k m m' part ls :
  parts m part ls → same_except k m m' → (∀ x, x ∈ unstack ls → x ∉ k) → parts m' part ls.
Proof.
  intros [Hc Hs] Hk Hd. split; [|done]. clear Hs. induction Hc as [|p l part ls ? ? IH]; constructor.
  - eapply chain_frame; [done..|]. cbn in Hd. set_solver.
  - apply IH. cbn in Hd. set_solver.
Qed.

Lemma parts_cons m p part ls : parts m (p :: part) ls →
  ∃ l ls', ls = l :: ls' ∧ chain m p l ∧ StronglySorted ordered l ∧ parts m part ls'.
Proof.
  intros [(l & ls' & Hp & Hc & ->)%Forall2_cons_inv_l [Hl Hs]%Forall_cons]. exists l, ls'. done.
Qed.

(** merging a part into the list [p] that follows it *)
Lemma merge_part m p q l lq part ls :
  chain m p l → chain m q lq → parts m part ls →
  StronglySorted ordered l → StronglySorted ordered lq → NoDup (unstack ls ++ l ++ lq) →
  ∃ m' r, merge cmp p q m = Ret (r, m') ∧ chain m' r (merged l lq) ∧ parts m' part ls ∧
    same_except (l ++ lq) m m' ∧ NoDup (unstack ls ++ merged l lq).
Proof.
  intros Hp Hq Hps Sl Sq Hnd. pose proof Hnd as (_ & Hd & Hnd')%NoDup_app.
  destruct (merge_correct p q l lq m) as (m' & r & -> & Hr & Hs).
  { split_and!; [done..|]. intros x. set_solver. }
  exists m', r. split_and!; [done|done| |done|by rewrite merged_perm].
  by eapply parts_frame.
Qed.

Lemma carry_correct fuel pre ps ls cur lc m :
  parts m ps ls → [] ∈ ls → chain m cur lc → StronglySorted ordered lc →
  NoDup (unstack ls ++ lc) → (length ps < fuel)%nat →
  ∃ j m' cur' lc', carry_loop cmp fuel (pre ++ ps) (zlength pre) cur m =
      Ret (pre ++ replicate j None ++ drop j ps, zlength pre + Z.of_nat j, cur', m') ∧
    ls !! j = Some [] ∧ chain m' cur' lc' ∧ StronglySorted ordered lc' ∧
    parts m' (drop j ps) (drop j ls) ∧ stably (unstack (take j ls) ++ lc) lc' ∧
    same_except (unstack ls ++ lc) m m'.
Proof.
  revert pre ps ls cur lc m. induction fuel as [|fuel IH]; intros pre ps ls cur lc m Hps He Hc Sc Hnd Hf; [lia|].
  destruct ps as [|p ps].
  { destruct Hps as [->%Forall2_nil_inv_l _]. set_solver. }
  destruct (parts_cons _ _ _ _ Hps) as (l & ls' & -> & Hp & Sl & Hps').
  cbn [carry_loop]. rewrite array_get_middle. cbn [mbind cres_bind].
  rewrite (chain_null _ _ _ Hp). destruct l as [|x l].
  { exists 0%nat, m, cur, lc. rewrite Z.add_0_r. by split_and!. }
  cbn [unstack] in Hnd. rewrite <- app_assoc in Hnd.
  destruct (merge_part m p cur (x :: l) lc ps ls') as (m1 & r & -> & Hr & Hps1 & Hs & Hnd1); [done..|].
  cbn [mbind cres_bind]. rewrite array_set_middle. cbn [mbind cres_bind].
  destruct (IH (pre ++ [None]) ps ls' r (merged (x :: l) lc) m1)
    as (j & m' & cur' & lc' & E & Hj & Hc' & Sc' & Hps2 & Hst & Hs2); [done|set_solver|done| |done|cbn in *; lia|].
  { by apply merged_sorted. }
  exists (S j), m', cur', lc'. split_and!; [|done..| |].
  - rewrite <- app_assoc in E. cbn in E. autorewrite with zlen in E.
    replace (zlength pre + 1) with (zlength pre + (1 + 0)) by lia. rewrite E.
    cbn. rewrite <- app_assoc. cbn. do 2 f_equal. f_equal. f_equal. lia.
  - rewrite <- Hst. cbn. rewrite <- app_assoc. f_equiv. by apply merged_stably.
  - intros a Ha. rewrite Hs2, Hs; [done|cbn in Ha; set_solver|].
    rewrite merged_perm. cbn in Ha. set_solver.
Qed.

Lemma parts_cleared j m part ls :
  parts m part ls → parts m (replicate j None ++ part) (replicate j [] ++ ls).
Proof.
  intros [Hc Hs]. induction j as [|j [IHc IHs]]; [done|]. cbn. split; constructor; [done..|constructor|done].
Qed.

Lemma parts_insert i m part ls p l :
  parts m part ls → chain m p l → StronglySorted ordered l → parts m (<[i := p]> part) (<[i := l]> ls).
Proof. intros [Hc Hs] Hp Hl. split; [by apply Forall2_insert|by apply Forall_insert]. Qed.

Lemma parts_length m part ls : parts m part ls → length part = length ls.
Proof. intros [H _]. by eapply Forall2_length. Qed.

(** The nodes seen so far are in the parts, those above [max_lev] and the
    sentinel are empty, and what was not yet seen is a chain. *)
Record split_inv (orig : list positive) (m : mem) (part : list ptr) (ls : list (list positive))
    (max_lev : Z) (lst : ptr) (rest : list positive) : Prop := {
  split_parts : parts m part ls;
  split_length : zlength part = MAX_LIST_LENGTH_BITS + 1;
  split_max : 0 ≤ max_lev < MAX_LIST_LENGTH_BITS;
  split_above : ∀ i, max_lev < i → i ≤ MAX_LIST_LENGTH_BITS → zlookup ls i = Some [];
  split_rest : chain m lst rest;
  split_stable : stably orig (unstack ls ++ rest)
}.

Lemma stably_nodup l l' : stably l l' → NoDup l → NoDup l'.
Proof. intros [-> _]. done. Qed.

(** the first node of the rest is cut off *)
Lemma cut_first m part ls x q rest :
  parts m part ls → nxt m x = Some q → chain m q rest → NoDup (unstack ls ++ x :: rest) →
  ∃ m', set_next (Some x) None m = Ret m' ∧ parts m' part ls ∧ chain m' (Some x) [x] ∧
    chain m' q rest ∧ same_except [x] m m'.
Proof.
  intros Hps Hx Hc (_ & Hd & [Hxr _]%NoDup_cons)%NoDup_app.
  destruct (set_next_effect x None m) as (m' & -> & Hn & _ & Hs & _); [by eapply nxt_is_Some|].
  exists m'. split_and!; [done| | | |done].
  - eapply parts_frame; [done..|]. set_solver.
  - split; [done|]. by exists None.
  - eapply chain_frame; [done..|]. set_solver.
Qed.

(** where the merged list is stored *)
Lemma store_level orig m part ls max_lev j cur lc lst rest lev' max' :
  parts m (replicate j None ++ drop j part) (replicate j [] ++ drop j ls) →
  zlength part = MAX_LIST_LENGTH_BITS + 1 → 0 ≤ max_lev < MAX_LIST_LENGTH_BITS →
  (∀ i, max_lev < i → i ≤ MAX_LIST_LENGTH_BITS → zlookup ls i = Some []) →
  zlookup ls (Z.of_nat j) = Some [] → length part = length ls →
  chain m cur lc → StronglySorted ordered lc → chain m lst rest →
  stably orig (unstack (drop j ls) ++ lc ++ rest) →
  (lev', max') = (if max_lev <? Z.of_nat j then
     let lev := if zlength part - 1 <=? Z.of_nat j then Z.of_nat j - 1 else Z.of_nat j in (lev, lev)
     else (Z.of_nat j, max_lev)) →
  ∃ part' ls', array_set (replicate j None ++ drop j part) lev' cur = Ret part' ∧
    split_inv orig m part' ls' max' lst rest.
Proof.
  intros Hps Hlen Hmax Habove Hj Hll Hc Sc Hr Hst Hlev. unfold MAX_LIST_LENGTH_BITS in *.
  pose proof (zlookup_Some _ _ _ Hj) as Hjb.
  assert (0 ≤ lev' ≤ Z.of_nat j ∧ lev' < 20 ∧ lev' ≤ max' < 20 ∧ max_lev ≤ max') as Hb.
  { rewrite Hlen in Hlev. unfold zlength in *.
    destruct (Z.ltb_spec max_lev (Z.of_nat j)); [destruct (Z.leb_spec (20 + 1 - 1) (Z.of_nat j))|];
      cbn in Hlev; simplify_eq; lia. }
  clear Hlev. set (ls0 := replicate j [] ++ drop j ls).
  assert (zlength ls0 = 21 ∧ zlength (replicate j None ++ drop j part) = 21) as [Hl0 Hl1].
  { pose proof (parts_length _ _ _ Hps). unfold ls0, zlength in *.
    rewrite !length_app, !length_replicate, !length_drop in *. lia. }
  assert (∀ i, 0 ≤ i ≤ 20 → i ≤ Z.of_nat j ∨ max_lev < i → zlookup ls0 i = Some []) as Hempty.
  { intros i Hi Hcase. unfold ls0, zlookup. rewrite (proj2 (Z.leb_le 0 i)) by lia.
    destruct (decide (i < Z.of_nat j)).
    { rewrite lookup_app_l by (rewrite length_replicate; lia). apply lookup_replicate_2. lia. }
    rewrite lookup_app_r by (rewrite length_replicate; lia). rewrite length_replicate, lookup_drop.
    replace (j + (Z.to_nat i - j))%nat with (Z.to_nat i) by lia.
    destruct Hcase as [?|Hcase].
    - replace (Z.to_nat i) with j by lia. by rewrite zlookup_nat in Hj.
    - pose proof (Habove i Hcase ltac:(lia)) as Hi'. unfold zlookup in Hi'.
      by rewrite (proj2 (Z.leb_le 0 i)) in Hi' by lia. }
  exists (<[Z.to_nat lev' := cur]> (replicate j None ++ drop j part)), (<[Z.to_nat lev' := lc]> ls0).
  split; [apply array_set_in; lia|]. split.
  - by apply parts_insert.
  - by rewrite zlength_insert.
  - unfold MAX_LIST_LENGTH_BITS. lia.
  - unfold MAX_LIST_LENGTH_BITS. intros i Hi Hi20. rewrite zlookup_insert_ne by lia. apply Hempty; lia.
  - done.
  - rewrite unstack_insert.
    + unfold ls0. rewrite unstack_app, (unstack_empty (replicate j [])), app_nil_r, <- app_assoc; [done|].
      by apply Forall_replicate.
    + intros k Hk. rewrite <- zlookup_nat. apply Hempty; lia.
Qed.

Lemma split_correct fuel orig lst rest part ls max_lev m :
  NoDup orig → split_inv orig m part ls max_lev lst rest → (length rest ≤ fuel)%nat →
  ∃ part' ls' max' m', split_loop cmp fuel lst part max_lev m = Ret (part', max', m') ∧
    split_inv orig m' part' ls' max' None [] ∧ same_except orig m m'.
Proof.
  intros Ho. revert lst rest part ls max_lev m.
  induction fuel as [|fuel IH]; intros lst rest part ls max_lev m I Hf; cbn [split_loop];
    rewrite (chain_null _ _ _ (split_rest _ _ _ _ _ _ _ I)); destruct rest as [|x rest].
  1, 3: exists part, ls, max_lev, m; pose proof (split_rest _ _ _ _ _ _ _ I) as H; cbn in H; subst; done.
  { cbn in Hf. lia. }
  destruct I as [Hps Hlen Hmax Habove [-> (q & Hx & Hr)] Hst].
  destruct (load_nxt _ _ _ Hx) as (n & -> & <-). cbn [mbind cres_bind].
  pose proof (stably_nodup _ _ Hst Ho) as Hnd. pose proof (parts_length _ _ _ Hps) as Hll.
  destruct (cut_first m part ls x (next n) rest) as (m1 & -> & Hps1 & Hc1 & Hr1 & Hs1); [done..|].
  cbn [mbind cres_bind].
  assert (NoDup (unstack ls ++ [x]) ∧ ∀ y, y ∈ rest → y ∉ unstack ls ++ [x]) as [Hnd1 Hdis].
  { change (x :: rest) with ([x] ++ rest) in Hnd. rewrite app_assoc in Hnd.
    apply NoDup_app in Hnd as (? & ? & ?). split; [done|]. set_solver. }
  destruct (carry_correct (S (length part)) [] part ls (Some x) [x] m1)
    as (j & m2 & cur & lc & E & Hj & Hc2 & Sc2 & Hps2 & Hst2 & Hs2); [done| |done| |done|lia|].
  { pose proof (Habove MAX_LIST_LENGTH_BITS) as H20. unfold zlookup in H20. rewrite (proj2 (Z.leb_le 0 _)) in H20 by done.
    eapply list_elem_of_lookup_2, H20; [lia|done]. }
  { by repeat constructor. }
  cbn [app] in E. rewrite zlength_nil in E. rewrite E, Z.add_0_l. cbn [mbind cres_bind].
  destruct (if max_lev <? _ then _ else _) as [lev' max'] eqn:Hlev. cbn beta iota.
  destruct (store_level orig m2 part ls max_lev j cur lc (next n) rest lev' max')
    as (part' & ls' & -> & I'); try done.
  - by apply parts_cleared.
  - by rewrite zlookup_nat.
  - eapply chain_frame; [done|exact Hs2|done].
  - rewrite Hst, (unstack_split j ls), <- Hst2, <- !app_assoc. done.
  - rewrite <- Hlev. unfold zlength. rewrite length_app, length_replicate, length_drop.
    apply lookup_lt_Some in Hj. by replace (j + (length part - j))%nat with (length part) by lia.
  - cbn [mbind cres_bind]. destruct (IH _ _ _ _ _ _ I') as (part2 & ls2 & max2 & m3 & -> & I2 & Hs3).
    { cbn in Hf. lia. }
    exists part2, ls2, max2, m3. split_and!; [done..|]. destruct Hst as [Hp _].
    intros a Ha. rewrite Hs3 by done. rewrite Hp in Ha. rewrite Hs2, Hs1; [done|set_solver..].
Qed.

Lemma join_correct n pre ps ls lst lj m :
  parts m ps ls → (n ≤ length ps)%nat → chain m lst lj → StronglySorted ordered lj →
  NoDup (unstack ls ++ lj) →
  ∃ p m' lj', join_loop cmp n (pre ++ ps) (zlength pre) lst m = Ret (p, m') ∧
    chain m' p lj' ∧ StronglySorted ordered lj' ∧ parts m' (drop n ps) (drop n ls) ∧
    stably (unstack (take n ls) ++ lj) lj' ∧ same_except (unstack ls ++ lj) m m'.
Proof.
  revert pre ps ls lst lj m. induction n as [|n IH]; intros pre ps ls lst lj m Hps Hn Hl Sl Hnd.
  { by exists lst, m, lj. }
  destruct ps as [|p ps]; [cbn in Hn; lia|].
  destruct (parts_cons _ _ _ _ Hps) as (l & ls' & -> & Hp & Sp & Hps').
  cbn [join_loop]. rewrite array_get_middle. cbn [mbind cres_bind].
  rewrite (chain_null _ _ _ Hp). cbn [unstack] in Hnd.
  assert (∀ v, pre ++ v :: ps = (pre ++ [v]) ++ ps ∧ zlength pre + 1 = zlength (pre ++ [v])) as Hpre.
  { intros v. rewrite <- app_assoc. by autorewrite with zlen. }
  destruct (Hpre p) as [-> ->]. destruct l as [|x l].
  - rewrite app_nil_r in Hnd. cbn [unstack take drop]. rewrite !app_nil_r. apply IH; [done|cbn in *; lia|done..].
  - rewrite <- app_assoc in Hnd.
    destruct (merge_part m p lst (x :: l) lj ps ls') as (m1 & r & -> & Hr & Hps1 & Hs & Hnd1); [done..|].
    cbn [mbind cres_bind].
    destruct (IH (pre ++ [p]) ps ls' r (merged (x :: l) lj) m1)
      as (q & m' & lj' & -> & Hq & Sq & Hps2 & Hst & Hs2); [done|cbn in *; lia|done| |done|].
    { by apply merged_sorted. }
    exists q, m', lj'. split_and!; [done..| |].
    + rewrite <- Hst. cbn. rewrite <- app_assoc. f_equiv. by apply merged_stably.
    + intros a Ha. rewrite Hs2, Hs; [done|cbn in Ha; set_solver|].
      rewrite merged_perm. cbn in Ha. set_solver.
Qed.

Lemma start_inv m lst l :
  chain m lst l →
  split_inv l m (replicate (Z.to_nat (MAX_LIST_LENGTH_BITS + 1)) None)
    (replicate (Z.to_nat (MAX_LIST_LENGTH_BITS + 1)) []) 0 lst l.
Proof.
  intros Hc. split; try done.
  - pose proof (parts_cleared (Z.to_nat (MAX_LIST_LENGTH_BITS + 1)) m [] []) as H.
    rewrite !app_nil_r in H. apply H. by split.
  - unfold MAX_LIST_LENGTH_BITS. intros i Hi Hi'. unfold zlookup. rewrite (proj2 (Z.leb_le 0 i)) by lia.
    apply lookup_replicate_2. lia.
Qed.

(** after the joins everything is in the last part and the joined list *)
Lemma last_part orig m part ls max_lev :
  split_inv orig m part ls max_lev None [] →
  ∃ l, ls !! Z.to_nat max_lev = Some l ∧ stably orig (l ++ unstack (take (Z.to_nat max_lev) ls)).
Proof.
  intros [Hps Hlen Hmax Habove _ Hst]. pose proof (parts_length _ _ _ Hps) as Hll.
  unfold MAX_LIST_LENGTH_BITS in *.
  destruct (lookup_lt_is_Some_2 ls (Z.to_nat max_lev)) as [l Hl]; [unfold zlength in Hlen; lia|].
  exists l. split; [done|]. rewrite Hst, app_nil_r, (unstack_split (Z.to_nat max_lev) ls).
  rewrite (drop_S _ l) by done. cbn. rewrite unstack_empty; [done|].
  apply Forall_forall. intros k (i & Hi)%list_elem_of_lookup. rewrite lookup_drop in Hi.
  pose proof (lookup_lt_Some _ _ _ Hi) as Hb.
  specialize (Habove (Z.of_nat (S (Z.to_nat max_lev) + i))). rewrite zlookup_nat in Habove.
  unfold zlength in Hlen. rewrite Habove in Hi by lia. by simplify_eq.
Qed.


(** the joins and the last merge, once everything is in the parts *)
Lemma finish_correct orig head m part ls max_lev :
  NoDup (head :: orig) → orig ≠ [] → is_Some (m !! head) →
  split_inv orig m part ls max_lev None [] →
  ∃ p lst m1 m' l', join_loop cmp (Z.to_nat max_lev) part 0 None m = Ret (lst, m1) ∧
    array_get part max_lev = Ret p ∧
    merge_and_restore_back_links cmp (Some head) p lst m1 = Ret m' ∧ dlist m' head l' ∧
    StronglySorted ordered l' ∧ stably orig l' ∧ same_except (head :: orig) m m'.
Proof.
  intros [Hh Hnd]%NoDup_cons Hne Hhs I. destruct (last_part _ _ _ _ _ I) as (l & Hl & Hst).
  destruct I as [Hps Hlen Hmax _ _ Hst0]. rewrite app_nil_r in Hst0. unfold MAX_LIST_LENGTH_BITS in *.
  destruct (join_correct (Z.to_nat max_lev) [] part ls None [] m)
    as (lst & m1 & lj & E & Hj & Sj & [Hps1 Sps1] & Hstj & Hs1); [done| |done|constructor| |].
  { unfold zlength in Hlen. lia. }
  { rewrite app_nil_r. by eapply stably_nodup. }
  cbn [app] in E. rewrite zlength_nil in E. rewrite app_nil_r in Hstj, Hs1. rewrite Hstj in Hst.
  rewrite (drop_S ls l) in Hps1, Sps1 by done. apply Forall_cons in Sps1 as [Sl _].
  destruct (lookup_lt_is_Some_2 part (Z.to_nat max_lev)) as [p Hp]; [unfold zlength in Hlen; lia|].
  rewrite (drop_S part p) in Hps1 by done. apply Forall2_cons in Hps1 as [Hp1 _].
  pose proof (stably_nodup _ _ Hst Hnd) as Hnd'.
  assert (∀ x, x ∈ l ++ lj ↔ x ∈ orig) as Hel by (intros x; destruct Hst as [-> _]; done).
  assert (∀ x, x ∈ unstack ls ↔ x ∈ orig) as Hel0 by (intros x; destruct Hst0 as [-> _]; done).
  destruct (merge_and_restore_correct head p lst l lj m1) as (m' & E' & Hd & Hs').
  { split_and!; [done..| |].
    - apply NoDup_cons. split; [by rewrite Hel|done].
    - intros x ->%list_elem_of_singleton. rewrite Hs1; [done|]. by rewrite Hel0. }
  { intros [-> ->]%app_eq_nil. destruct Hst as [?%Permutation_nil_r _]. done. }
  exists p, lst, m1, m', (merged l lj). split_and!; [done| |done|done|by apply merged_sorted| |].
  - apply array_get_Ret. unfold zlookup. by rewrite (proj2 (Z.leb_le 0 _)) by lia.
  - rewrite Hst. by apply merged_stably.
  - intros x Hx. rewrite Hs', Hs1; [done| |]; set_solver.
Qed.
End sorting.

(** C10: on a circular doubly linked list of any length (also beyond the
    2^20 nodes the code has levels for), with a comparison that is a total
    preorder, [list_sort] terminates without following a NULL or foreign
    pointer or leaving [part], and leaves a circular doubly linked list of the
    same nodes, sorted and stable, and every other cell as it was. *)
Theorem list_sort_correct cmp head l m :
  cmp_order cmp → dlist m head l →
  ∃ m' l', list_sort cmp head m = Ret m' ∧ dlist m' head l' ∧
    StronglySorted (ordered cmp) l' ∧ stably cmp l l' ∧ same_except (head :: l) m m'.
Proof.
  intros Hcmp Hd. destruct (decide (l = [])) as [->|Hne].
  { exists m, []. pose proof Hd as (_ & u & <- & Hn & _). unfold list_sort.
    destruct (load_nxt _ _ _ Hn) as (h & -> & Eh). cbn [mbind cres_bind].
    rewrite bool_decide_true by done. split_and!; [done|done|constructor|done|done]. }
  pose proof Hd as [Hnd _]. pose proof Hnd as [Hhl Hnd']%NoDup_cons.
  destruct (open_ring m head l Hd Hne) as (h & m1 & h1 & E & Hh & E1 & E2 & Hc & Hs1).
  unfold list_sort. rewrite E. cbn [mbind cres_bind]. rewrite bool_decide_false by done.
  rewrite E1. cbn [mbind cres_bind]. rewrite E2. cbn [mbind cres_bind].
  destruct (split_correct cmp Hcmp (size m1) l (next h1) l _ _ 0 m1 Hnd' (start_inv cmp m1 _ _ Hc))
    as (part & ls & max & m2 & -> & I & Hs2).
  { apply nodup_size; [done|]. intros x Hx. by eapply chain_dom. }
  cbn [mbind cres_bind].
  destruct (finish_correct cmp Hcmp l head m2 part ls max) as (p & lst & m3 & m' & l' & -> & E3 & E4 & ? & ? & ? & Hs3);
    [done|done| |done|].
  { rewrite Hs2 by done. unfold load in E2. by destruct (m1 !! head). }
  cbn [mbind cres_bind]. rewrite E3. cbn [mbind cres_bind]. rewrite E4.
  exists m', l'. split_and!; [done..|]. intros x Hx. rewrite Hs3, Hs2, Hs1; set_solver.
Qed.

(** three nodes compared by a key that makes two of them equivalent *)
Definition ring3 : mem :=
  {[ 1%positive := ListHead (Some 2%positive) (Some 4%positive);
     2%positive := ListHead (Some 3%positive) (Some 1%positive);
     3%positive := ListHead (Some 4%positive) (Some 2%positive);
     4%positive := ListHead (Some 1%positive) (Some 3%positive) ]}.
Definition by_half (a b : positive) : Z := Z.pos b / 2 - Z.pos a / 2.

Lemma list_sort_correct_witness :
  ∃ m' l', list_sort by_half 1 ring3 = Ret m' ∧ dlist m' 1 l' ∧
    StronglySorted (ordered by_half) l' ∧ stably by_half [2; 3; 4]%positive l' ∧
    same_except [1; 2; 3; 4]%positive ring3 m'.
Proof.
  apply list_sort_correct.
  - split; unfold by_half; intros; lia.
  - split; [by apply (bool_decide_unpack _)|]. exists 4%positive. by vm_compute.
Defined.
