(* ===== verification/Sort.v ===== *)
(** * Heap sort and binary search of arrays: lib/sort.c, lib/bsearch.c

    The array is a list of bytes and a pointer into it an offset, as in the
    code, which counts in bytes. [cmp] sees the bytes of the elements it is
    given; it and a caller's [swap_func] are parameters. [int] arithmetic wraps
    (the kernel is compiled with -fno-strict-overflow).

    [sort_correct]: whatever the element size, an array of less than 2^31
    bytes is sorted in place. [sort_bsearch]: the search finds in a sorted
    array what was in it before it was sorted. *)

From stdpp Require Import sorting.
From S2P Require Import Prelude.

(** ** lib/sort.c *)

(** exchange of two 32-bit words; [size] is not looked at *)
Definition u32_swap (m : list Z) (a b size : Z) : cres (list Z) :=
  t ← array_read m a 4;
  x ← array_read m b 4;
  m ← array_write m a x;
  array_write m b t.

(** the [do] loop for the [n] + 1 rounds that remain, [n] = [size - 1] *)
Fixpoint generic_swap_loop (n : nat) (m : list Z) (a b : Z) : cres (list Z) :=
  t ← array_get m a;
  x ← array_get m b;
  m ← array_set m a x;
  m ← array_set m b t;
  match n with
  | O => Ret m
  | S n => generic_swap_loop n m (a + 1) (b + 1)
  end.

Definition generic_swap (m : list Z) (a b size : Z) : cres (list Z) :=
  generic_swap_loop (Z.to_nat (size - 1)) m a b.

(** the loop over [r], which is the same in both phases: [n] is the end of
    the heap *)
Fixpoint sift (cmp_func : list Z → list Z → Z) (swap_func : list Z → Z → Z → Z → cres (list Z))
    (fuel : nat) (base : list Z) (size n r : Z) : cres (list Z) :=
  match fuel with
  | O => UB
  | S fuel =>
      if u32 (r * 2 + size) <? u32 n then
        let c := s32 (r * 2 + size) in
        c ← (if u32 c <? u32 (n - size) then
               x ← array_read base c size;
               y ← array_read base (c + size) size;
               Ret (if cmp_func x y <? 0 then s32 (c + size) else c)
             else Ret c);
        x ← array_read base r size;
        y ← array_read base c size;
        if cmp_func x y >=? 0 then Ret base else
        base ← swap_func base r c size;
        sift cmp_func swap_func fuel base size n c
      else Ret base
  end.

Fixpoint heapify (cmp_func : list Z → list Z → Z) (swap_func : list Z → Z → Z → Z → cres (list Z))
    (fuel : nat) (base : list Z) (size n i : Z) : cres (list Z) :=
  match fuel with
  | O => UB
  | S fuel =>
      if i >=? 0 then
        base ← sift cmp_func swap_func (S (Z.to_nat n)) base size n i;
        heapify cmp_func swap_func fuel base size n (s32 (i - size))
      else Ret base
  end.

Fixpoint sort_loop (cmp_func : list Z → list Z → Z) (swap_func : list Z → Z → Z → Z → cres (list Z))
    (fuel : nat) (base : list Z) (size i : Z) : cres (list Z) :=
  match fuel with
  | O => UB
  | S fuel =>
      if i >? 0 then
        base ← swap_func base 0 i size;
        base ← sift cmp_func swap_func (S (Z.to_nat i)) base size i 0;
        sort_loop cmp_func swap_func fuel base size (s32 (i - size))
      else Ret base
  end.

Definition sort (base : list Z) (num size : Z) (cmp_func : list Z → list Z → Z)
    (swap_func : option (list Z → Z → Z → Z → cres (list Z))) : cres (list Z) :=
  let i := s32 (u32 (num / 2 - 1) * size) in
  let n := s32 (num * size) in
  let swap_func := match swap_func with
    | None => if size =? 4 then u32_swap else generic_swap
    | Some f => f
    end in
  base ← heapify cmp_func swap_func (S (Z.to_nat num)) base size n i;
  sort_loop cmp_func swap_func (S (Z.to_nat num)) base size (s32 (n - size)).

(** ** lib/bsearch.c *)

(** the offset of the element, [None] for NULL *)
Fixpoint bsearch_loop (fuel : nat) (cmp : list Z → Z) (base : list Z) (size start fin : Z) :
    cres (option Z) :=
  match fuel with
  | O => UB
  | S fuel =>
      if start <? fin then
        let mid := u32 (start + u32 (fin - start) / 2) in
        e ← array_read base (u32 (mid * size)) size;
        let result := cmp e in
        if result <? 0 then bsearch_loop fuel cmp base size start mid
        else if result >? 0 then bsearch_loop fuel cmp base size (u32 (mid + 1)) fin
        else Ret (Some (u32 (mid * size)))
      else Ret None
  end.

(** [cmp] has [key] as first argument *)
Definition bsearch (cmp : list Z → Z) (base : list Z) (num size : Z) : cres (option Z) :=
  bsearch_loop (S (Z.to_nat num)) cmp base size 0 num.

(** ** Arrays of elements *)

(** the elements of an array of bytes *)
Definition elements (size : Z) (es : list (list Z)) : Prop := Forall (λ e, zlength e = size) es.

Definition at_ (es : list (list Z)) (k : nat) : list Z := es !!! k.

Definition exchange (es : list (list Z)) (a b : nat) : list (list Z) :=
  <[a := at_ es b]> (<[b := at_ es a]> es).

Lemma length_exchange es a b : length (exchange es a b) = length es.
Proof. unfold exchange. by rewrite !length_insert. Qed.

Lemma at_exchange es a b k : (a < length es)%nat → (b < length es)%nat →
  at_ (exchange es a b) k =
    if decide (k = a) then at_ es b else if decide (k = b) then at_ es a else at_ es k.
Proof.
  intros Ha Hb. unfold at_, exchange. repeat case_decide; subst.
  - by rewrite list_lookup_total_insert_eq by (by rewrite length_insert).
  - by rewrite list_lookup_total_insert_ne, list_lookup_total_insert_eq.
  - by rewrite !list_lookup_total_insert_ne.
Qed.

Lemma at_lookup es k : (k < length es)%nat → es !! k = Some (at_ es k).
Proof. intros Hk. by apply list_lookup_lookup_total_lt. Qed.

Lemma exchange_perm es a b : (a < length es)%nat → (b < length es)%nat → exchange es a b ≡ₚ es.
Proof. intros Ha Hb. by apply Permutation_insert_swap; apply at_lookup. Qed.

Lemma elements_exchange size es a b : elements size es →
  (a < length es)%nat → (b < length es)%nat → elements size (exchange es a b).
Proof. intros He Ha Hb. unfold elements. by rewrite exchange_perm. Qed.

Lemma zlength_concat size es : elements size es → zlength (concat es) = zlength es * size.
Proof.
  induction 1 as [|e es He _ IH]; [done|]. cbn [concat]. autorewrite with zlen. lia.
Qed.

Lemma elements_at size es k : elements size es → (k < length es)%nat → zlength (at_ es k) = size.
Proof. intros He Hk. apply (Forall_lookup_1 _ _ k _ He). by apply at_lookup. Qed.

(** the parts of the array before, between and after two elements *)
Lemma exchange_split size es a b :
  elements size es → (a < b)%nat → (b < length es)%nat →
  ∃ pre mid post,
    concat es = pre ++ at_ es a ++ mid ++ at_ es b ++ post ∧
    concat (exchange es a b) = pre ++ at_ es b ++ mid ++ at_ es a ++ post ∧
    zlength pre = Z.of_nat a * size ∧ zlength (pre ++ at_ es a ++ mid) = Z.of_nat b * size.
Proof.
  intros He Hab Hb. pose proof (at_lookup es a ltac:(lia)) as Ea. pose proof (at_lookup es b Hb) as Eb.
  set (p := take a es). set (m := take (b - S a) (drop (S a) es)). set (q := drop (S b) es).
  assert (es = p ++ at_ es a :: m ++ at_ es b :: q) as Hes.
  { unfold p, m, q. rewrite <- (take_drop_middle es a _ Ea) at 1. f_equal. f_equal.
    rewrite <- (take_drop_middle (drop (S a) es) (b - S a) (at_ es b)) at 1.
    - rewrite drop_drop. do 3 f_equal. lia.
    - rewrite lookup_drop. by replace (S a + (b - S a))%nat with b by lia. }
  assert (length p = a ∧ length m = b - S a)%nat as [Hp Hm].
  { unfold p, m. rewrite !length_take, length_drop. lia. }
  exists (concat p), (concat m), (concat q).
  assert (elements size p ∧ elements size m) as [Hsp Hsm].
  { split; [by apply Forall_take|]. by apply Forall_take, Forall_drop. }
  split_and!.
  - rewrite Hes at 1. rewrite concat_app. cbn. by rewrite concat_app.
  - assert (exchange es a b = p ++ at_ es b :: m ++ at_ es a :: q) as ->; [|rewrite concat_app; cbn; by rewrite concat_app].
    unfold exchange. set (x := at_ es a) in *. set (y := at_ es b) in *. clearbody x y p m q.
    rewrite Hes. replace a with (length p + 0)%nat by lia.
    replace b with (length p + S (length m + 0))%nat by lia.
    rewrite (insert_app_r p). change (<[S (length m + 0) := x]> (x :: m ++ y :: q)) with
      (x :: <[(length m + 0)%nat := x]> (m ++ y :: q)).
    by rewrite (insert_app_r m), (insert_app_r p).
  - rewrite (zlength_concat size) by done. unfold zlength. by rewrite Hp.
  - autorewrite with zlen. rewrite !(zlength_concat size), (elements_at size) by (done || lia).
    unfold zlength. rewrite Hp, Hm.
    replace (Z.of_nat (b - S a)) with (Z.of_nat b - Z.of_nat a - 1) by lia. ring.
Qed.

Lemma read_element size es k : elements size es → (k < length es)%nat →
  array_read (concat es) (Z.of_nat k * size) size = Ret (at_ es k).
Proof.
  intros He Hk. rewrite <- (take_drop_middle es k _ (at_lookup es k Hk)) at 1.
  rewrite concat_app. cbn. apply array_read_mid.
  - rewrite (zlength_concat size) by (by apply Forall_take). unfold zlength. rewrite length_take. lia.
  - by rewrite (elements_at size).
Qed.

(** ** The swap functions *)

(** what a caller's [swap_func] has to do, and what the two of the file do *)
Definition swaps (size : Z) (f : list Z → Z → Z → Z → cres (list Z)) : Prop :=
  ∀ es a b, elements size es → (a < b)%nat → (b < length es)%nat →
    f (concat es) (Z.of_nat a * size) (Z.of_nat b * size) size = Ret (concat (exchange es a b)).

Lemma u32_swap_swaps : swaps 4 u32_swap.
Proof.
  intros es a b He Hab Hb. destruct (exchange_split 4 es a b) as (pre & mid & post & -> & -> & Hp & Hq); [done..|].
  pose proof (elements_at 4 es a He ltac:(lia)) as Ha4. pose proof (elements_at 4 es b He Hb) as Hb4.
  unfold u32_swap. rewrite (array_read_mid pre _ _ (Z.of_nat a * 4)) by lia. cbn [mbind cres_bind].
  rewrite (app_assoc (at_ es a) mid), (app_assoc pre), (array_read_mid (pre ++ at_ es a ++ mid)) by lia. cbn [mbind cres_bind].
  rewrite <- (app_assoc pre), <- (app_assoc (at_ es a) mid), array_write_mid by lia. cbn [mbind cres_bind].
  rewrite (app_assoc (at_ es b) mid), (app_assoc pre), array_write_mid; [by rewrite <- !app_assoc|..|lia].
  rewrite <- Hq. autorewrite with zlen. lia.
Qed.

Lemma generic_swap_byte n pre x ea mid y eb post :
  generic_swap_loop n (pre ++ (x :: ea) ++ mid ++ (y :: eb) ++ post) (zlength pre)
    (zlength (pre ++ (x :: ea) ++ mid)) =
  match n with
  | O => Ret (pre ++ (y :: ea) ++ mid ++ (x :: eb) ++ post)
  | S n => generic_swap_loop n ((pre ++ [y]) ++ ea ++ (mid ++ [x]) ++ eb ++ post)
             (zlength (pre ++ [y])) (zlength ((pre ++ [y]) ++ ea ++ (mid ++ [x])))
  end.
Proof.
  destruct n as [|n]; cbn [generic_swap_loop app];
    rewrite array_get_middle; cbn [mbind cres_bind];
    (replace (pre ++ x :: ea ++ mid ++ y :: eb ++ post) with ((pre ++ (x :: ea) ++ mid) ++ y :: eb ++ post)
      by (by rewrite <- !app_assoc));
    rewrite (array_get_middle (pre ++ (x :: ea) ++ mid)); cbn [mbind cres_bind];
    rewrite <- (app_assoc pre); cbn [app]; rewrite array_set_middle; cbn [mbind cres_bind];
    (replace (pre ++ y :: (ea ++ mid) ++ y :: eb ++ post) with ((pre ++ (y :: ea) ++ mid) ++ y :: eb ++ post)
      by (by rewrite <- !app_assoc));
    (replace (zlength (pre ++ x :: ea ++ mid)) with (zlength (pre ++ (y :: ea) ++ mid))
      by (autorewrite with zlen; lia));
    rewrite array_set_middle; cbn [mbind cres_bind].
  - by rewrite <- !app_assoc.
  - f_equal; [|by autorewrite with zlen|autorewrite with zlen; cbn [app]; autorewrite with zlen; lia].
    by rewrite <- !app_assoc.
Qed.

Lemma generic_swap_bytes n pre ea mid eb post :
  length ea = S n → length eb = S n →
  generic_swap_loop n (pre ++ ea ++ mid ++ eb ++ post) (zlength pre) (zlength (pre ++ ea ++ mid)) =
    Ret (pre ++ eb ++ mid ++ ea ++ post).
Proof.
  revert pre ea mid eb. induction n as [|n IH]; intros pre [|x ea] mid [|y eb] Ha Hb; try done;
    injection Ha as Ha; injection Hb as Hb; rewrite generic_swap_byte.
  - by destruct ea, eb.
  - rewrite IH by done. by rewrite <- !app_assoc.
Qed.

Lemma generic_swap_swaps size : 0 < size → swaps size generic_swap.
Proof.
  intros Hs es a b He Hab Hb.
  destruct (exchange_split size es a b) as (pre & mid & post & -> & -> & <- & <-); [done..|].
  pose proof (elements_at size es a He ltac:(lia)) as Ha4. pose proof (elements_at size es b He Hb) as Hb4.
  unfold zlength in Ha4, Hb4. apply generic_swap_bytes; lia.
Qed.

(** ** Sifting *)
Section heap.
Context (cmp : list Z → list Z → Z) (Hcmp : cmp_order cmp).
Context (size : Z) (Hsize : 0 < size).
Context (swap : list Z → Z → Z → Z → cres (list Z)) (Hswap : swaps size swap).

Definition ge (x y : list Z) : Prop := cmp y x ≤ 0.

Lemma ge_total x y : ge x y ∨ ge y x.
Proof. unfold ge. pose proof (cmp_sym Hcmp x y). lia. Qed.
Lemma ge_refl x : ge x x.
Proof. by destruct (ge_total x x). Qed.
Lemma ge_trans x y z : ge x y → ge y z → ge x z.
Proof. intros H1 H2. by apply (cmp_trans Hcmp _ y). Qed.
Lemma cmp_ge x y : 0 ≤ cmp x y ↔ ge x y.
Proof. unfold ge. pose proof (cmp_sym Hcmp x y). lia. Qed.

Definition child (k j : nat) : Prop := j = (2 * k + 1)%nat ∨ j = (2 * k + 2)%nat.

(** every element from [lo] on is at least its children below [n] *)
Definition heap (es : list (list Z)) (lo n : nat) : Prop :=
  ∀ k j, (lo ≤ k)%nat → child k j → (j < n)%nat → ge (at_ es k) (at_ es j).

(** the same except at [r], whose children its parent is at least *)
Definition almost (es : list (list Z)) (lo n r : nat) : Prop :=
  (∀ k j, (lo ≤ k)%nat → k ≠ r → child k j → (j < n)%nat → ge (at_ es k) (at_ es j)) ∧
  (∀ p j, (lo ≤ p)%nat → child p r → child r j → (j < n)%nat → ge (at_ es p) (at_ es j)).

(** the first [n] elements were permuted *)
Record rearranged (es es' : list (list Z)) (n : nat) : Prop := {
  re_perm : es' ≡ₚ es;
  re_above : ∀ j, (n ≤ j)%nat → at_ es' j = at_ es j;
  re_below : ∀ j, (j < n)%nat → ∃ i, (i < n)%nat ∧ at_ es' j = at_ es i
}.

Lemma re_refl es n : rearranged es es n.
Proof. split; [done..|eauto]. Qed.
Lemma re_trans es1 es2 es3 n : rearranged es1 es2 n → rearranged es2 es3 n → rearranged es1 es3 n.
Proof.
  intros [P1 A1 B1] [P2 A2 B2]. split; [by etrans|intros; by rewrite A2, A1|].
  intros j (i & Hi & ->)%B2. destruct (B1 i Hi) as (i' & ? & ->). eauto.
Qed.
Lemma re_exchange es a b n : (n ≤ length es)%nat → (a < n)%nat → (b < n)%nat → rearranged es (exchange es a b) n.
Proof.
  intros Hn Ha Hb. split.
  - apply exchange_perm; lia.
  - intros j Hj. rewrite at_exchange, !decide_False by lia. done.
  - intros j Hj. rewrite at_exchange by lia. repeat case_decide; eauto.
Qed.
Lemma re_length es es' n : rearranged es es' n → length es' = length es.
Proof. intros [-> _ _]. done. Qed.
Lemma re_elements es es' n : rearranged es es' n → elements size es → elements size es'.
Proof. intros [H _ _]. unfold elements. by rewrite H. Qed.

(** the larger of the children *)
Lemma larger_child es n k c :
  elements size es → (n ≤ length es)%nat → Z.of_nat n * size < 2 ^ 31 → (2 * k + 1 < n)%nat →
  c = Z.of_nat (2 * k + 1) * size →
  ∃ j, (if u32 c <? u32 (Z.of_nat n * size - size) then
          x ← array_read (concat es) c size;
          y ← array_read (concat es) (c + size) size;
          Ret (if cmp x y <? 0 then s32 (c + size) else c)
        else Ret c) = Ret (Z.of_nat j * size) ∧
    child k j ∧ (j < n)%nat ∧ ∀ i, child k i → (i < n)%nat → ge (at_ es j) (at_ es i).
Proof.
  intros He Hn Hb Hk ->. assert (Z.of_nat (2 * k + 1) * size < Z.of_nat n * size) by nia.
  assert (0 ≤ Z.of_nat (2 * k + 1) * size) by nia. rewrite !u32_id by (unfold is_u32; nia).
  destruct (Z.ltb_spec (Z.of_nat (2 * k + 1) * size) (Z.of_nat n * size - size)) as [Hlt|Hge].
  - assert (2 * k + 2 < n)%nat as Hk2 by nia.
    replace (Z.of_nat (2 * k + 1) * size + size) with (Z.of_nat (2 * k + 2) * size) by nia.
    rewrite !read_element by (done || lia). cbn [mbind cres_bind].
    rewrite s32_id by (unfold is_s32; nia).
    destruct (Z.ltb_spec (cmp (at_ es (2 * k + 1)) (at_ es (2 * k + 2))) 0) as [Hc|Hc].
    + exists (2 * k + 2)%nat. split; [done|]. split; [by right|]. split; [lia|].
      intros i [-> | ->] _; [|apply ge_refl]. unfold ge. lia.
    + exists (2 * k + 1)%nat. split; [done|]. split; [by left|]. split; [lia|].
      intros i [-> | ->] _; [apply ge_refl|]. by apply cmp_ge.
  - exists (2 * k + 1)%nat. split; [done|]. split; [by left|]. split; [lia|].
    intros i [-> | ->] Hi; [apply ge_refl|]. nia.
Qed.

(** after the exchange with the larger child the exception is there *)
Lemma almost_down es lo n k j :
  almost es lo n k → (lo ≤ k)%nat → (n ≤ length es)%nat → child k j → (j < n)%nat →
  (∀ i, child k i → (i < n)%nat → ge (at_ es j) (at_ es i)) → ge (at_ es j) (at_ es k) →
  almost (exchange es k j) lo n j.
Proof.
  intros [H1 H2] Hlo Hn Hj Hjn Hmax Hge.
  assert (∀ i, at_ (exchange es k j) i =
    if decide (i = k) then at_ es j else if decide (i = j) then at_ es k else at_ es i) as Hat.
  { intros i. apply at_exchange; unfold child in *; lia. }
  split.
  - intros p i Hp Hpj Hi Hin. rewrite !Hat. rewrite (decide_False (P := p = j)) by done.
    destruct (decide (p = k)) as [->|Hpk].
    + rewrite (decide_False (P := i = k)) by (unfold child in *; lia).
      destruct (decide (i = j)) as [->|]; [done|]. by apply Hmax.
    + destruct (decide (i = k)) as [->|Hik]; [by apply H2|].
      rewrite decide_False by (unfold child in *; lia). by apply H1.
  - intros p i Hp Hpj Hi Hin. assert (p = k) as -> by (unfold child in *; lia).
    rewrite !Hat, decide_True, !decide_False by (unfold child in *; lia).
    apply H1; unfold child in *; lia.
Qed.

Lemma sift_correct fuel es lo n k :
  elements size es → (n ≤ length es)%nat → Z.of_nat n * size < 2 ^ 31 →
  (lo ≤ k < n)%nat → (n - k < fuel)%nat → almost es lo n k →
  ∃ es', sift cmp swap fuel (concat es) size (Z.of_nat n * size) (Z.of_nat k * size) =
      Ret (concat es') ∧ heap es' lo n ∧ rearranged es es' n.
Proof.
  revert es k. induction fuel as [|fuel IH]; intros es k He Hn Hb Hk Hf Ha; [lia|].
  cbn [sift]. replace (Z.of_nat k * size * 2 + size) with (Z.of_nat (2 * k + 1) * size) by nia.
  assert (0 ≤ Z.of_nat (2 * k + 1) * size < 2 ^ 32) by nia. rewrite !u32_id by (unfold is_u32; nia).
  destruct (Z.ltb_spec (Z.of_nat (2 * k + 1) * size) (Z.of_nat n * size)) as [Hlt|Hge].
  - rewrite s32_id by (unfold is_s32; nia).
    destruct (larger_child es n k (Z.of_nat (2 * k + 1) * size)) as (j & -> & Hj & Hjn & Hmax);
      [done|done|done|nia|done|]. cbn [mbind cres_bind].
    rewrite !read_element by (done || lia). cbn [mbind cres_bind]. rewrite Z.geb_leb.
    destruct (Z.leb_spec 0 (cmp (at_ es k) (at_ es j))) as [Hc|Hc].
    + exists es. split; [done|]. split; [|apply re_refl]. destruct Ha as [H1 _].
      intros p i Hp Hi Hin. destruct (decide (p = k)) as [->|]; [|by apply H1].
      apply ge_trans with (at_ es j); [by apply cmp_ge|by apply Hmax].
    + rewrite Hswap by (done || unfold child in *; lia). cbn [mbind cres_bind].
      destruct (IH (exchange es k j) j) as (es' & -> & Hh & Hr).
      * apply elements_exchange; [done|lia..].
      * by rewrite length_exchange.
      * done.
      * unfold child in Hj. lia.
      * unfold child in Hj. lia.
      * apply almost_down; [done|lia|done..|]. unfold ge. lia.
      * exists es'. split; [done|]. split; [done|]. eapply re_trans; [|done]. apply re_exchange; lia.
  - exists es. split; [done|]. split; [|apply re_refl]. destruct Ha as [H1 _].
    intros p i Hp Hi Hin. apply H1; [done| |done..]. intros ->. unfold child in Hi. nia.
Qed.

Lemma heapify_correct fuel es n cnt :
  elements size es → (n ≤ length es)%nat → Z.of_nat n * size < 2 ^ 31 → size < 2 ^ 31 →
  (cnt ≤ n)%nat → (cnt < fuel)%nat → heap es cnt n →
  ∃ es', heapify cmp swap fuel (concat es) size (Z.of_nat n * size) ((Z.of_nat cnt - 1) * size) =
      Ret (concat es') ∧ heap es' 0 n ∧ rearranged es es' n.
Proof.
  intros He Hn Hb Hsz. revert fuel es He Hn. induction cnt as [|k IH]; intros fuel es He Hn Hc Hf Hh;
    (destruct fuel as [|fuel]; [lia|]); cbn [heapify]; rewrite Z.geb_leb.
  - rewrite (proj2 (Z.leb_gt 0 _)) by nia. exists es. split; [done|]. split; [done|]. apply re_refl.
  - replace (Z.of_nat (S k) - 1) with (Z.of_nat k) by lia. rewrite (proj2 (Z.leb_le 0 _)) by nia.
    destruct (sift_correct (S (Z.to_nat (Z.of_nat n * size))) es k n k) as (es1 & -> & Hh1 & Hr1);
      [done|done|done|lia|nia| |].
    { split.
      - intros p j Hp Hpk. apply Hh. lia.
      - intros p j Hp Hpk. unfold child in Hpk. lia. }
    cbn [mbind cres_bind]. replace (Z.of_nat k * size - size) with ((Z.of_nat k - 1) * size) by lia.
    rewrite s32_id by (unfold is_s32; nia).
    destruct (IH fuel es1) as (es' & -> & Hh' & Hr'); [by eapply re_elements|by erewrite re_length|lia|lia|done|].
    exists es'. split; [done|]. split; [done|]. by eapply re_trans.
Qed.

Lemma heap_root es n j : heap es 0 n → (j < n)%nat → ge (at_ es 0) (at_ es j).
Proof.
  intros Hh. induction (lt_wf j) as [j _ IH]. intros Hj. destruct j as [|j]; [apply ge_refl|].
  apply ge_trans with (at_ es (j / 2)).
  - assert (j / 2 ≤ j)%nat by (apply Nat.Div0.div_le_upper_bound; lia). apply IH; lia.
  - apply Hh; [lia| |done]. unfold child. pose proof (Nat.div_mod j 2 ltac:(lia)).
    pose proof (Nat.mod_upper_bound j 2 ltac:(lia)). lia.
Qed.

(** the elements from [m] on are in place *)
Definition placed (es : list (list Z)) (m : nat) : Prop :=
  ∀ a b, (a < b)%nat → (m ≤ b)%nat → (b < length es)%nat → ge (at_ es b) (at_ es a).

(** the largest element moves to the end of the heap, which gets shorter *)
Lemma placed_step es es2 k :
  (S (S k) ≤ length es)%nat → heap es 0 (S (S k)) → placed es (S (S k)) →
  rearranged (exchange es 0 (S k)) es2 (S k) → placed es2 (S k).
Proof.
  intros Hl Hh Hp Hr2 a b Hab Hbk Hbl.
  assert (rearranged es (exchange es 0 (S k)) (S (S k))) as Hr1 by (apply re_exchange; lia).
  erewrite re_length, length_exchange in Hbl by done. rewrite (re_above _ _ _ Hr2 b) by lia.
  destruct (decide (a < S k)%nat) as [Ha|Ha].
  - destruct (re_below _ _ _ Hr2 a Ha) as (i & Hi & ->).
    destruct (re_below _ _ _ Hr1 i ltac:(lia)) as (i' & Hi' & ->). destruct (decide (b = S k)) as [->|].
    + rewrite at_exchange, decide_False, decide_True by lia. by apply (heap_root es (S (S k))).
    + rewrite (re_above _ _ _ Hr1 b) by lia. apply Hp; lia.
  - rewrite (re_above _ _ _ Hr2 a) by lia. rewrite (re_above _ _ _ Hr1 b) by lia.
    rewrite at_exchange, decide_False by lia. case_decide; apply Hp; lia.
Qed.

Lemma almost_root es k :
  (S (S k) ≤ length es)%nat → heap es 0 (S (S k)) → almost (exchange es 0 (S k)) 0 (S k) 0.
Proof.
  intros Hl Hh. split.
  - intros p j _ Hp0 Hj Hjk. rewrite !at_exchange, !decide_False by (unfold child in *; lia).
    by apply Hh; [lia|done|lia].
  - intros p j _ Hp0. unfold child in Hp0. lia.
Qed.

Lemma sort_loop_correct fuel es m :
  elements size es → (m ≤ length es)%nat → Z.of_nat m * size < 2 ^ 31 → size < 2 ^ 31 →
  (m < fuel)%nat → heap es 0 m → placed es m →
  ∃ es', sort_loop cmp swap fuel (concat es) size ((Z.of_nat m - 1) * size) = Ret (concat es') ∧
    es' ≡ₚ es ∧ placed es' 1.
Proof.
  intros He Hm Hb Hsz. revert fuel es He Hm. induction m as [|k IH]; intros fuel es He Hm Hf Hh Hp;
    (destruct fuel as [|fuel]; [lia|]); cbn [sort_loop]; rewrite Z.gtb_ltb.
  - rewrite (proj2 (Z.ltb_ge 0 _)) by nia. exists es. split; [done|]. split; [done|].
    intros a b ???. apply Hp; lia.
  - replace (Z.of_nat (S k) - 1) with (Z.of_nat k) by lia. destruct k as [|k].
    { rewrite (proj2 (Z.ltb_ge 0 _)) by nia. by exists es. }
    rewrite (proj2 (Z.ltb_lt 0 _)) by nia. pose proof (Hswap es 0%nat (S k) He) as E.
    rewrite Z.mul_0_l in E. rewrite E by lia. cbn [mbind cres_bind].
    destruct (sift_correct (S (Z.to_nat (Z.of_nat (S k) * size))) (exchange es 0 (S k)) 0 (S k) 0)
      as (es2 & E2 & Hh2 & Hr2);
      [apply elements_exchange; [done|lia..]|rewrite length_exchange; lia|nia|lia|nia|by apply almost_root|].
    rewrite Z.mul_0_l in E2. rewrite E2. cbn [mbind cres_bind].
    replace (Z.of_nat (S k) * size - size) with ((Z.of_nat (S k) - 1) * size) by lia.
    rewrite s32_id by (unfold is_s32; nia).
    destruct (IH ltac:(nia) fuel es2) as (es' & -> & Hperm & Hp').
    { eapply re_elements; [done|]. apply elements_exchange; [done|lia..]. }
    { erewrite re_length, length_exchange by done. lia. }
    { lia. } { done. } { by apply (placed_step es). }
    exists es'. split; [done|]. split; [|done]. rewrite Hperm, (re_perm _ _ _ Hr2). apply exchange_perm; lia.
Qed.

Lemma placed_sorted es : placed es 1 → StronglySorted (λ x y, cmp x y ≤ 0) es.
Proof.
  intros Hp. assert (∀ a b, (a < b)%nat → (b < length es)%nat → cmp (at_ es a) (at_ es b) ≤ 0) as H.
  { intros a b ??. apply Hp; lia. }
  clear Hp. induction es as [|e es IH]; constructor.
  - apply IH. intros a b ??. apply (H (S a) (S b)); cbn; lia.
  - apply Forall_lookup. intros i x Hi. pose proof (lookup_lt_Some _ _ _ Hi).
    assert (at_ es i = x) as <- by (by apply list_lookup_total_correct).
    apply (H 0%nat (S i)); cbn; lia.
Qed.

Lemma sorted_at es a b :
  StronglySorted (λ x y, cmp x y ≤ 0) es → (a < b)%nat → (b < length es)%nat → cmp (at_ es a) (at_ es b) ≤ 0.
Proof.
  intros Hs. revert a b. induction Hs as [|e es Hs IH Hf]; intros a b Hab Hb; cbn in Hb; [lia|].
  destruct b as [|b]; [lia|]. destruct a as [|a].
  - exact (Forall_lookup_1 _ _ b _ Hf (at_lookup es b ltac:(lia))).
  - apply (IH a b); lia.
Qed.
End heap.

Lemma s32_wrap x k : s32 (x + k * 2 ^ 32) = s32 x.
Proof.
  unfold s32. f_equal. replace (x + k * 2 ^ 32 + 2 ^ 31) with (x + 2 ^ 31 + k * 2 ^ 32) by lia.
  apply Z_mod_plus_full.
Qed.

(** the first index of the heapify loop *)
Lemma last_parent num size :
  0 ≤ num → 0 < size < 2 ^ 31 → num * size < 2 ^ 31 →
  s32 (u32 (num / 2 - 1) * size) = (Z.of_nat (Z.to_nat (num / 2)) - 1) * size.
Proof.
  intros Hn Hs Hb. assert (0 ≤ num / 2 ≤ num) as Hh by (split; [apply Z.div_pos; lia|apply Z.div_le_upper_bound; lia]).
  rewrite Z2Nat.id by lia. destruct (decide (num / 2 = 0)) as [->|Hne].
  - change (u32 (0 - 1)) with (2 ^ 32 - 1). replace ((2 ^ 32 - 1) * size) with ((0 - 1) * size + size * 2 ^ 32) by lia.
    rewrite s32_wrap. apply s32_id. unfold is_s32. lia.
  - rewrite u32_id by (unfold is_u32; nia). apply s32_id. unfold is_s32. nia.
Qed.

Lemma leaves_heap cmp es n : heap cmp es (n / 2) n.
Proof.
  intros k j Hk Hj Hjn. unfold child in Hj. pose proof (Nat.div_mod n 2 ltac:(lia)).
  pose proof (Nat.mod_upper_bound n 2 ltac:(lia)). lia.
Qed.

Definition swap_func_ok (size : Z) (f : option (list Z → Z → Z → Z → cres (list Z))) : Prop :=
  match f with Some f => swaps size f | None => True end.

Lemma sort_sorts es num size cmp f :
  cmp_order cmp → 0 < size < 2 ^ 31 → swap_func_ok size f →
  elements size es → num = zlength es → num * size < 2 ^ 31 →
  ∃ es', sort (concat es) num size cmp f = Ret (concat es') ∧ es' ≡ₚ es ∧
    StronglySorted (λ x y, cmp x y ≤ 0) es'.
Proof.
  intros Hcmp Hs Hf He Hn Hb. pose proof (zlength_nonneg es). unfold sort.
  set (swap := match f with Some f => f | None => if size =? 4 then u32_swap else generic_swap end).
  assert (swaps size swap) as Hswap.
  { subst swap. destruct f as [f|]; [done|]. destruct (Z.eqb_spec size 4) as [->|]; [apply u32_swap_swaps|].
    apply generic_swap_swaps. lia. }
  clearbody swap. rewrite last_parent by lia. rewrite (s32_id (num * size)) by (unfold is_s32; nia).
  assert (num = Z.of_nat (length es)) as Hn' by done.
  replace (Z.to_nat (num / 2)) with (length es / 2)%nat
    by (rewrite Hn', <- (Nat2Z.id (_ / 2)), Nat2Z.inj_div; done).
  rewrite Hn'. destruct (heapify_correct cmp Hcmp size (proj1 Hs) swap Hswap (S (Z.to_nat (Z.of_nat (length es)))) es
    (length es) (length es / 2)) as (es1 & -> & Hh & Hr).
  { done. } { done. } { lia. } { lia. } { apply Nat.Div0.div_le_upper_bound; lia. }
  { rewrite Nat2Z.id. apply Nat.lt_succ_r, Nat.Div0.div_le_upper_bound. lia. }
  { apply leaves_heap. }
  cbn [mbind cres_bind]. pose proof (re_length _ _ _ Hr) as Hl1.
  replace (Z.of_nat (length es) * size - size) with ((Z.of_nat (length es1) - 1) * size) by lia.
  rewrite s32_id by (unfold is_s32; nia).
  destruct (sort_loop_correct cmp Hcmp size (proj1 Hs) swap Hswap (S (Z.to_nat (Z.of_nat (length es)))) es1 (length es1))
    as (es' & -> & Hp & Hpl); [|lia|lia|lia|lia|by rewrite Hl1|intros a b; lia|].
  { by eapply re_elements. }
  exists es'. split; [done|]. split; [rewrite Hp; apply Hr|]. by apply placed_sorted.
Qed.

(** C24: [sort], for every element size, with the swap functions of the file or
    one of the caller that exchanges elements, and a comparison that is a total
    preorder: it terminates without leaving the array and sorts it in place. *)
Theorem sort_correct es num size cmp f :
  cmp_order cmp → 0 < size < 2 ^ 31 → swap_func_ok size f →
  elements size es → num = zlength es → num * size < 2 ^ 31 →
  ∃ es', sort (concat es) num size cmp f = Ret (concat es') ∧ es' ≡ₚ es ∧
    StronglySorted (λ x y, cmp x y ≤ 0) es'.
Proof. apply sort_sorts. Qed.

(** three elements of five bytes, compared by their first byte *)
Definition by_first (x y : list Z) : Z := default 0 (head x) - default 0 (head y).

Lemma by_first_order : cmp_order by_first.
Proof. split; unfold by_first; intros; lia. Qed.

Lemma sort_correct_witness :
  ∃ es', sort [7; 1; 1; 1; 1; 3; 2; 2; 2; 2; 5; 3; 3; 3; 3] 3 5 by_first None = Ret (concat es') ∧
    es' ≡ₚ [[7; 1; 1; 1; 1]; [3; 2; 2; 2; 2]; [5; 3; 3; 3; 3]] ∧
    StronglySorted (λ x y, by_first x y ≤ 0) es'.
Proof.
  apply (sort_correct [[7; 1; 1; 1; 1]; [3; 2; 2; 2; 2]; [5; 3; 3; 3; 3]] 3 5 by_first None);
    [apply by_first_order|done|done|by repeat constructor|done|done].
Defined.

(** ** Binary search *)

Lemma bsearch_loop_correct fuel cmp es size (start fin : nat) :
  elements size es → 0 < size → zlength es * size < 2 ^ 32 → (fin ≤ length es)%nat →
  (∀ a b, (a < b)%nat → (b < length es)%nat →
    (cmp (at_ es a) ≤ 0 → cmp (at_ es b) ≤ 0) ∧ (cmp (at_ es a) < 0 → cmp (at_ es b) < 0)) →
  (∀ k, (k < start)%nat → 0 < cmp (at_ es k)) →
  (∀ k, (fin ≤ k)%nat → (k < length es)%nat → cmp (at_ es k) < 0) →
  (fin - start < fuel)%nat →
  ∃ r, bsearch_loop fuel cmp (concat es) size (Z.of_nat start) (Z.of_nat fin) = Ret r ∧
    match r with
    | Some off => ∃ k, (k < length es)%nat ∧ off = Z.of_nat k * size ∧ cmp (at_ es k) = 0
    | None => ∀ k, (k < length es)%nat → cmp (at_ es k) ≠ 0
    end.
Proof.
  intros He Hs Hb Hle Hmono. unfold zlength in Hb. revert start fin Hle.
  induction fuel as [|fuel IH]; intros start fin Hle Hlo Hhi Hf; [lia|]. cbn [bsearch_loop].
  destruct (Z.ltb_spec (Z.of_nat start) (Z.of_nat fin)) as [Hlt|Hge].
  2: { exists None. split; [done|]. intros k Hk. destruct (decide (k < start)%nat).
       - specialize (Hlo k ltac:(lia)). lia.
       - specialize (Hhi k ltac:(lia) Hk). lia. }
  set (mid := (start + (fin - start) / 2)%nat).
  assert (start ≤ mid < fin)%nat as Hmid.
  { subst mid. assert ((fin - start) / 2 < fin - start)%nat by (apply Nat.div_lt; lia). lia. }
  assert (u32 (Z.of_nat start + u32 (Z.of_nat fin - Z.of_nat start) / 2) = Z.of_nat mid) as ->.
  { rewrite (u32_id (_ - _)) by (unfold is_u32; nia).
    replace (Z.of_nat start + _) with (Z.of_nat mid); [apply u32_id; unfold is_u32; nia|].
    subst mid. rewrite Nat2Z.inj_add, Nat2Z.inj_div, Nat2Z.inj_sub by lia. done. }
  rewrite (u32_id (Z.of_nat mid * size)) by (unfold is_u32; nia).
  rewrite read_element by (done || lia). cbn [mbind cres_bind].
  destruct (Z.ltb_spec (cmp (at_ es mid)) 0) as [Hc|Hc].
  { apply IH; [lia|done| |lia]. intros k Hk Hkl. destruct (decide (k = mid)) as [->|]; [done|].
    apply (Hmono mid k); lia. }
  rewrite Z.gtb_ltb. destruct (Z.ltb_spec 0 (cmp (at_ es mid))) as [Hc'|Hc'].
  - rewrite u32_id by (unfold is_u32; nia). replace (Z.of_nat mid + 1) with (Z.of_nat (S mid)) by lia.
    apply IH; [done| |done|lia]. intros k Hk. destruct (decide (k = mid)) as [->|]; [done|].
    destruct (Z.lt_ge_cases 0 (cmp (at_ es k))); [done|].
    destruct (Hmono k mid) as [Hm _]; [lia|lia|]. specialize (Hm ltac:(lia)). lia.
  - exists (Some (Z.of_nat mid * size)). split; [done|]. exists mid. split; [lia|]. split; [done|lia].
Qed.

(** C25: an array sorted by [sort] is searched by [bsearch] with the same
    comparison function: the search stays inside the array, what it returns is
    an element equivalent to the key, and NULL means that the array the caller
    had before sorting contains none. *)
Theorem sort_bsearch es num size cmp f :
  cmp_order cmp → 0 < size < 2 ^ 31 → swap_func_ok size f →
  elements size es → num = zlength es → num * size < 2 ^ 31 →
  ∃ m, sort (concat es) num size cmp f = Ret m ∧
    ∀ key, ∃ r, bsearch (cmp key) m num size = Ret r ∧
      match r with
      | Some off => ∃ e, array_read m off size = Ret e ∧ e ∈ es ∧ cmp key e = 0
      | None => ∀ e, e ∈ es → cmp key e ≠ 0
      end.
Proof.
  intros Hcmp Hs Hf He Hn Hb.
  destruct (sort_sorts es num size cmp f) as (es' & -> & Hp & Hsorted); [done..|].
  exists (concat es'). split; [done|]. intros key.
  assert (elements size es') as He' by (unfold elements; by rewrite Hp).
  assert (length es' = length es) as Hl by (by rewrite Hp).
  destruct (bsearch_loop_correct (S (Z.to_nat num)) (cmp key) es' size 0 (length es'))
    as (r & E & Hr); [done|lia|unfold zlength in *; lia|done| |lia|lia|unfold zlength in Hn; lia|].
  { intros a b Hab Hb'. pose proof (sorted_at cmp es' a b Hsorted Hab Hb') as Hle.
    split; intros Hk; [by apply (cmp_trans Hcmp _ (at_ es' a)); lia|].
    destruct (Z.lt_ge_cases (cmp key (at_ es' b)) 0) as [|Hge]; [done|].
    pose proof (cmp_sym Hcmp key (at_ es' b)). pose proof (cmp_sym Hcmp key (at_ es' a)).
    pose proof (cmp_trans Hcmp (at_ es' a) (at_ es' b) key Hle ltac:(lia)). lia. }
  unfold bsearch. unfold zlength in Hn. rewrite Hl, <- Hn in E. exists r. split; [exact E|].
  destruct r as [off|].
  - destruct Hr as (k & Hk & -> & Hc). exists (at_ es' k). split; [by apply read_element|].
    split; [|done]. rewrite <- Hp. eapply list_elem_of_lookup_2. by apply at_lookup.
  - intros e He0. rewrite <- Hp in He0. apply list_elem_of_lookup in He0 as [k Hk].
    assert (at_ es' k = e) as <- by (by apply list_lookup_total_correct).
    apply Hr. by eapply lookup_lt_Some.
Qed.

Lemma sort_bsearch_witness :
  ∃ m, sort [7; 1; 1; 1; 1; 3; 2; 2; 2; 2; 5; 3; 3; 3; 3] 3 5 by_first None = Ret m ∧
    ∀ key, ∃ r, bsearch (by_first key) m 3 5 = Ret r ∧
      match r with
      | Some off => ∃ e, array_read m off 5 = Ret e ∧
          e ∈ [[7; 1; 1; 1; 1]; [3; 2; 2; 2; 2]; [5; 3; 3; 3; 3]] ∧ by_first key e = 0
      | None => ∀ e, e ∈ [[7; 1; 1; 1; 1]; [3; 2; 2; 2; 2]; [5; 3; 3; 3; 3]] → by_first key e ≠ 0
      end.
Proof.
  apply (sort_bsearch [[7; 1; 1; 1; 1]; [3; 2; 2; 2; 2]; [5; 3; 3; 3; 3]] 3 5 by_first None);
    [apply by_first_order|done|done|by repeat constructor|done|done].
Defined.
