(* ===== verification/Extable.v ===== *)
(** * Exception tables: lib/extable.c, kernel/extable.c, arch/arm/mm/extable.c

    An exception table is an array of pairs of addresses in memory: an
    instruction that may fault and where to go on when it does. The table of
    the kernel and those of the modules are sorted with [sort] of Sort.v and
    searched when a fault happens; a module loses the entries of its init
    code when that has run. A table is the list of its bytes and a pointer to
    an entry is its number.

    [fixup_exception_correct]: a fault is fixed up exactly when some table has
    an entry for it that is still valid, and goes on where such an entry says. *)

From stdpp Require Import sorting.
From S2P Require Import Prelude Sort.

(** ** The code *)

(** [sizeof(struct exception_table_entry)] *)
Definition entry_size : Z := 8.

(** [p->insn] and [p->fixup] of the entry with number [k] *)
Definition insn_at (m : list Z) (k : Z) : cres Z :=
  w ← array_read m (k * entry_size) 4; le32_to_cpu w.
Definition fixup_at (m : list Z) (k : Z) : cres Z :=
  w ← array_read m (k * entry_size + 4) 4; le32_to_cpu w.

(** [insn] of the entry with the given bytes; entries have eight *)
Definition insn_of (e : list Z) : Z :=
  match le32_to_cpu (take 4 e) with Ret x => x | _ => 0 end.

Definition cmp_ex (x y : list Z) : Z :=
  if insn_of x >? insn_of y then 1 else if insn_of x <? insn_of y then -1 else 0.

(** the table of [num] entries at [start] *)
Definition sort_extable (m : list Z) (num : Z) : cres (list Z) :=
  sort m num entry_size cmp_ex None.

(** the fields of [struct module] the functions use, and the memory of the table *)
Record module := Module_ {
  ex_mem : list Z; extable : Z; num_exentries : Z; module_init : Z; init_size : Z }.

Definition within_module_init (addr : Z) (m : module) : bool :=
  (module_init m <=? addr) && (addr <? u32 (module_init m + init_size m)).

Definition set_extable (m : module) (first num : Z) : module :=
  Module_ (ex_mem m) first num (module_init m) (init_size m).

Fixpoint trim_begin (fuel : nat) (m : module) : cres module :=
  match fuel with
  | O => UB
  | S fuel =>
      if truth (num_exentries m) then
        insn ← insn_at (ex_mem m) (extable m);
        if within_module_init insn m
        then trim_begin fuel (set_extable m (extable m + 1) (num_exentries m - 1))
        else Ret m
      else Ret m
  end.

Fixpoint trim_end (fuel : nat) (m : module) : cres module :=
  match fuel with
  | O => UB
  | S fuel =>
      if truth (num_exentries m) then
        insn ← insn_at (ex_mem m) (extable m + (num_exentries m - 1));
        if within_module_init insn m
        then trim_end fuel (set_extable m (extable m) (num_exentries m - 1))
        else Ret m
      else Ret m
  end.

Definition trim_init_extable (m : module) : cres module :=
  m ← trim_begin (S (Z.to_nat (num_exentries m))) m;
  trim_end (S (Z.to_nat (num_exentries m))) m.

(** what the end of [init_module] does to these fields *)
Definition module_init_done (m : module) : cres module :=
  m ← trim_init_extable m;
  Ret (Module_ (ex_mem m) (extable m) (num_exentries m) 0 0).

Fixpoint search_loop (fuel : nat) (m : list Z) (first last value : Z) : cres (option Z) :=
  match fuel with
  | O => UB
  | S fuel =>
      if first <=? last then
        let mid := Z.shiftr (last - first) 1 + first in
        insn ← insn_at m mid;
        if insn <? value then search_loop fuel m (mid + 1) last value
        else if insn >? value then search_loop fuel m first (mid - 1) value
        else Ret (Some mid)
      else Ret None
  end.

Definition search_extable (m : list Z) (first last value : Z) : cres (option Z) :=
  search_loop (Z.to_nat (last - first + 2)) m first last value.

(** an entry found is a table and a number *)
Fixpoint search_module_extables (modules : list module) (addr : Z) : cres (option (list Z * Z)) :=
  match modules with
  | [] => Ret None
  | m :: modules =>
      if num_exentries m =? 0 then search_module_extables modules addr else
      e ← search_extable (ex_mem m) (extable m) (extable m + num_exentries m - 1) addr;
      match e with
      | Some k => Ret (Some (ex_mem m, k))
      | None => search_module_extables modules addr
      end
  end.

(** the table between __start___ex_table and __stop___ex_table has [num] entries *)
Definition search_exception_tables (main : list Z) (num : Z) (modules : list module) (addr : Z) :
    cres (option (list Z * Z)) :=
  e ← search_extable main 0 (num - 1) addr;
  match e with
  | Some k => Ret (Some (main, k))
  | None => search_module_extables modules addr
  end.

(** the result and the new [ARM_pc] *)
Definition fixup_exception (main : list Z) (num : Z) (modules : list module) (pc : Z) : cres (Z * Z) :=
  fixup ← search_exception_tables main num modules pc;
  match fixup with
  | Some (m, k) => pc' ← fixup_at m k; Ret (1, pc')
  | None => Ret (0, pc)
  end.

(** ** Tables as lists of entries *)

Definition entry : Type := Z * Z.
Definition entry_ok (e : entry) : Prop := is_u32 (fst e) ∧ is_u32 (snd e).
Definition entry_bytes (e : entry) : list Z := cpu_to_le32 (fst e) ++ cpu_to_le32 (snd e).
Definition table (es : list entry) : list Z := concat (entry_bytes <$> es).
Definition sorted (es : list entry) : Prop := StronglySorted (λ a b, fst a ≤ fst b) es.

Lemma table_elements es : elements entry_size (entry_bytes <$> es).
Proof. apply Forall_fmap, Forall_forall. intros [i f] _. done. Qed.

Lemma read_entry_part es k e off w :
  es !! k = Some e → (∀ pre post, array_read (pre ++ entry_bytes e ++ post) (zlength pre + off) 4 = Ret w) →
  array_read (table es) (Z.of_nat k * entry_size + off) 4 = Ret w.
Proof.
  intros Hk Hw. unfold table. rewrite <- (take_drop_middle es k e Hk), fmap_app, concat_app. cbn [fmap list_fmap concat].
  rewrite <- (Hw (concat (entry_bytes <$> take k es)) (concat (entry_bytes <$> drop (S k) es))).
  f_equal. rewrite (zlength_concat entry_size) by apply table_elements.
  autorewrite with zlen. unfold zlength. rewrite length_take. apply lookup_lt_Some in Hk.
  by rewrite Nat.min_l by lia.
Qed.

Lemma insn_at_entry es k e :
  Forall entry_ok es → es !! k = Some e → insn_at (table es) (Z.of_nat k) = Ret (fst e).
Proof.
  intros Hok Hk. pose proof (Forall_lookup_1 _ _ _ _ Hok Hk) as [Hi _].
  unfold insn_at. rewrite <- (Z.add_0_r (_ * _)), (read_entry_part es k e 0 (cpu_to_le32 (fst e))); [|done|].
  - by apply le32_roundtrip.
  - intros pre post. unfold entry_bytes. rewrite <- app_assoc. apply array_read_mid; [lia|done].
Qed.

Lemma fixup_at_entry es k e :
  Forall entry_ok es → es !! k = Some e → fixup_at (table es) (Z.of_nat k) = Ret (snd e).
Proof.
  intros Hok Hk. pose proof (Forall_lookup_1 _ _ _ _ Hok Hk) as [_ Hf].
  unfold fixup_at. rewrite (read_entry_part es k e 4 (cpu_to_le32 (snd e))); [|done|].
  - by apply le32_roundtrip.
  - intros pre post. unfold entry_bytes. rewrite <- app_assoc, app_assoc. apply array_read_mid; [|done].
    by rewrite zlength_app.
Qed.

Lemma insn_of_bytes e : entry_ok e → insn_of (entry_bytes e) = fst e.
Proof. intros [Hi _]. unfold insn_of.
  change (take 4 (entry_bytes e)) with (cpu_to_le32 (fst e)). by rewrite le32_roundtrip. Qed.

(** ** Sorting *)

Lemma cmp_ex_order : cmp_order cmp_ex.
Proof.
  split.
  - intros a b. unfold cmp_ex. rewrite !Z.gtb_ltb.
    destruct (Z.ltb_spec (insn_of a) (insn_of b)), (Z.ltb_spec (insn_of b) (insn_of a)); lia.
  - intros a b c. unfold cmp_ex. rewrite !Z.gtb_ltb.
    destruct (Z.ltb_spec (insn_of b) (insn_of a)), (Z.ltb_spec (insn_of c) (insn_of b)),
      (Z.ltb_spec (insn_of c) (insn_of a)); try lia; repeat case_test; lia.
Qed.

Lemma cmp_ex_le x y : cmp_ex x y ≤ 0 ↔ insn_of x ≤ insn_of y.
Proof.
  unfold cmp_ex. rewrite Z.gtb_ltb. destruct (Z.ltb_spec (insn_of y) (insn_of x)); [lia|].
  case_test; lia.
Qed.

Definition small_table (es : list entry) : Prop := Forall entry_ok es ∧ zlength es * entry_size < 2 ^ 31.

Lemma sort_extable_sorts es :
  small_table es →
  ∃ es', sort_extable (table es) (zlength es) = Ret (table es') ∧ es' ≡ₚ es ∧ sorted es'.
Proof.
  intros [Hok Hs].
  destruct (sort_sorts (entry_bytes <$> es) (zlength es) entry_size cmp_ex None)
    as (bs & E & Hp & Hsort); [apply cmp_ex_order|done|done|apply table_elements|by rewrite zlength_fmap|done|].
  apply (Permutation_map_inv entry_bytes) in Hp as (es' & -> & Hp). symmetry in Hp.
  change (map entry_bytes es') with (entry_bytes <$> es') in *.
  exists es'. split; [exact E|]. split; [done|].
  assert (Forall entry_ok es') as Hok' by (by rewrite Hp). clear -Hsort Hok'.
  induction es' as [|e es' IH]; [constructor|]. cbn in Hsort.
  apply StronglySorted_inv in Hsort as [Hs Hf]. apply Forall_cons in Hok' as [He Hok]. constructor; [by apply IH|].
  rewrite Forall_fmap in Hf. apply Forall_forall. intros x Hx. rewrite Forall_forall in Hf, Hok.
  specialize (Hf x Hx). change (cmp_ex (entry_bytes e) (entry_bytes x) ≤ 0) in Hf.
  apply cmp_ex_le in Hf. rewrite !insn_of_bytes in Hf; auto.
Qed.

(** ** Searching *)

Lemma sorted_lookup es a b x y :
  sorted es → es !! a = Some x → es !! b = Some y → (a ≤ b)%nat → fst x ≤ fst y.
Proof.
  intros Hs. revert a b. induction Hs as [|e es Hs IH Hf]; intros a b Ha Hb Hab; [done|].
  destruct a as [|a], b as [|b]; cbn in *; simplify_eq; [done| |lia|by eapply (IH a b); [..|lia]].
  by apply (Forall_lookup_1 _ _ b _ Hf).
Qed.

(** the result of a search among the entries [lo] to [hi - 1] *)
Definition found (es : list entry) (lo hi : nat) (value : Z) (r : option Z) : Prop :=
  match r with
  | Some k => ∃ i e, k = Z.of_nat i ∧ (lo ≤ i < hi)%nat ∧ es !! i = Some e ∧ fst e = value
  | None => ∀ i e, (lo ≤ i < hi)%nat → es !! i = Some e → fst e ≠ value
  end.

Lemma search_loop_correct fuel es lo hi (first : nat) last value :
  Forall entry_ok es → sorted es → (hi ≤ length es)%nat → (lo ≤ first)%nat → Z.of_nat first - 1 ≤ last < Z.of_nat hi →
  (∀ i e, (lo ≤ i < first)%nat → es !! i = Some e → fst e < value) →
  (∀ i e, last < Z.of_nat i → (i < hi)%nat → es !! i = Some e → value < fst e) →
  last - Z.of_nat first + 1 < Z.of_nat fuel →
  ∃ r, search_loop fuel (table es) (Z.of_nat first) last value = Ret r ∧ found es lo hi value r.
Proof.
  intros Hok Hs Hhi. revert first last. induction fuel as [|fuel IH]; intros first last Hlo Hlast Hl Hh Hf; [lia|].
  cbn [search_loop]. destruct (Z.leb_spec (Z.of_nat first) last) as [Hle|Hgt].
  2: { exists None. split; [done|]. intros i e Hi He. destruct (decide (i < first)%nat).
       - specialize (Hl i e ltac:(lia) He). lia.
       - specialize (Hh i e ltac:(lia) ltac:(lia) He). lia. }
  set (mid := (Z.to_nat (last - Z.of_nat first) / 2 + first)%nat).
  assert (Z.shiftr (last - Z.of_nat first) 1 + Z.of_nat first = Z.of_nat mid) as ->.
  { subst mid. rewrite Z.shiftr_div_pow2, Nat2Z.inj_add, Nat2Z.inj_div, Z2Nat.id by lia. done. }
  assert ((first ≤ mid)%nat ∧ Z.of_nat mid ≤ last) as [Hm1 Hm2].
  { subst mid. assert (Z.to_nat (last - Z.of_nat first) / 2 ≤ Z.to_nat (last - Z.of_nat first))%nat
      by (apply Nat.Div0.div_le_upper_bound; lia). lia. }
  destruct (lookup_lt_is_Some_2 es mid ltac:(lia)) as [e He].
  rewrite (insn_at_entry _ _ _ Hok He). cbn [mbind cres_bind].
  destruct (Z.ltb_spec (fst e) value) as [Hc|Hc].
  { replace (Z.of_nat mid + 1) with (Z.of_nat (S mid)) by lia. apply IH; [lia..| |done|lia].
    intros i x Hi Hx. pose proof (sorted_lookup es i mid x e Hs Hx He ltac:(lia)). lia. }
  rewrite Z.gtb_ltb. destruct (Z.ltb_spec value (fst e)) as [Hc'|Hc'].
  - apply IH; [lia|lia|done| |lia]. intros i x Hi Hih Hx.
    pose proof (sorted_lookup es mid i e x Hs He Hx ltac:(lia)). lia.
  - exists (Some (Z.of_nat mid)). split; [done|]. exists mid, e. split_and!; [done|lia|lia|done|lia].
Qed.

Lemma search_extable_correct es lo n value :
  Forall entry_ok es → sorted es → (lo + n ≤ length es)%nat →
  ∃ r, search_extable (table es) (Z.of_nat lo) (Z.of_nat lo + Z.of_nat n - 1) value = Ret r ∧
    found es lo (lo + n) value r.
Proof. intros Hok Hs Hl. apply search_loop_correct; [done|done|done|lia|lia|lia|lia|lia]. Qed.

(** ** Modules *)

(** a module that has the entries [lo] to [lo + n - 1] of a sorted table *)
Definition has_table (m : module) (es : list entry) (lo n : nat) : Prop :=
  ex_mem m = table es ∧ extable m = Z.of_nat lo ∧ num_exentries m = Z.of_nat n ∧
  (lo + n ≤ length es)%nat.

Definition in_init (init isize : Z) (e : entry) : Prop := init ≤ fst e < init + isize.
#[local] Instance in_init_dec init isize e : Decision (in_init init isize e).
Proof. unfold in_init. apply _. Defined.

Section trim.
Context (es : list entry) (Hok : Forall entry_ok es).
Context (init isize : Z) (Hwrap : is_u32 (init + isize)).

Definition of_init (m : module) : Prop := module_init m = init ∧ init_size m = isize.

Lemma within_iff m e :
  of_init m → within_module_init (fst e) m = bool_decide (in_init init isize e).
Proof.
  intros [Hi Hs]. unfold within_module_init, in_init. rewrite Hi, Hs, u32_id by done.
  symmetry. case_bool_decide; bool_props; [by rewrite (proj2 (Z.leb_le _ _)), (proj2 (Z.ltb_lt _ _)) by lia|].
  destruct (Z.leb_spec init (fst e)), (Z.ltb_spec (fst e) (init + isize)); try done. lia.
Qed.

(** entries before index [b] are of the init code, the one at [b] is not *)
Lemma trim_begin_correct fuel m lo n b :
  has_table m es lo n → of_init m → (lo ≤ b ≤ lo + n)%nat → (n < fuel)%nat →
  (∀ i e, (lo ≤ i < b)%nat → es !! i = Some e → in_init init isize e) →
  (∀ e, (b < lo + n)%nat → es !! b = Some e → ¬ in_init init isize e) →
  ∃ m', trim_begin fuel m = Ret m' ∧ has_table m' es b (lo + n - b) ∧ of_init m'.
Proof.
  revert m lo n. induction fuel as [|fuel IH]; intros m lo n Ht Hi Hb Hf Hin Hout; [lia|].
  pose proof Ht as (Hm & Hx & Hn & Hl). cbn [trim_begin]. rewrite Hn. unfold truth.
  destruct (Z.eqb_spec (Z.of_nat n) 0) as [H0|H0]; cbn [negb].
  { exists m. split; [done|]. replace (lo + n - b)%nat with n by lia. by replace b with lo by lia. }
  destruct (lookup_lt_is_Some_2 es lo ltac:(lia)) as [e He].
  rewrite Hm, Hx, (insn_at_entry _ _ _ Hok He). cbn [mbind cres_bind]. rewrite (within_iff m e Hi).
  destruct (decide (lo = b)) as [->|Hne].
  - rewrite bool_decide_false by (apply Hout; [lia|done]). exists m. split; [done|].
    by replace (b + n - b)%nat with n by lia.
  - rewrite bool_decide_true by (apply (Hin lo e); [lia|done]).
    destruct (IH (set_extable m (Z.of_nat lo + 1) (Z.of_nat n - 1)) (S lo) (n - 1)%nat) as (m' & E & Ht' & Hi');
      [|done|lia|lia| | |].
    + split_and!; [done|cbn; lia..].
    + intros i x Hix. apply Hin. lia.
    + intros x Hx'. apply Hout. lia.
    + exists m'. split; [done|]. by replace (S lo + (n - 1) - b)%nat with (lo + n - b)%nat in Ht' by lia.
Qed.

Lemma trim_end_correct fuel m lo n b :
  has_table m es lo n → of_init m → (b ≤ n)%nat → (n < fuel)%nat →
  (∀ i e, (lo + b ≤ i < lo + n)%nat → es !! i = Some e → in_init init isize e) →
  (∀ e, (0 < b)%nat → es !! (lo + b - 1)%nat = Some e → ¬ in_init init isize e) →
  ∃ m', trim_end fuel m = Ret m' ∧ has_table m' es lo b ∧ of_init m'.
Proof.
  revert m n. induction fuel as [|fuel IH]; intros m n Ht Hi Hb Hf Hin Hout; [lia|].
  pose proof Ht as (Hm & Hx & Hn & Hl). cbn [trim_end]. rewrite Hn. unfold truth.
  destruct (Z.eqb_spec (Z.of_nat n) 0) as [H0|H0]; cbn [negb].
  { exists m. split; [done|]. by replace b with n by lia. }
  destruct (lookup_lt_is_Some_2 es (lo + n - 1) ltac:(lia)) as [e He].
  rewrite Hm, Hx. replace (Z.of_nat lo + (Z.of_nat n - 1)) with (Z.of_nat (lo + n - 1)) by lia.
  rewrite (insn_at_entry _ _ _ Hok He). cbn [mbind cres_bind]. rewrite (within_iff m e Hi).
  destruct (decide (b = n)) as [->|Hne].
  - rewrite bool_decide_false by (apply Hout; [lia|done]). by exists m.
  - rewrite bool_decide_true by (apply (Hin (lo + n - 1)%nat e); [lia|done]).
    destruct (IH (set_extable m (Z.of_nat lo) (Z.of_nat n - 1)) (n - 1)%nat) as (m' & E & Ht' & Hi');
      [|done|lia|lia| |done|by exists m'].
    + split_and!; [done|cbn; lia..].
    + intros i x Hix. apply Hin. lia.
Qed.

(** when the init entries are at one end, exactly they are removed *)
Lemma trim_correct m a b :
  has_table m es 0 (length es) → of_init m →
  (es = a ++ b ∧ Forall (in_init init isize) a ∧ Forall (λ e, ¬ in_init init isize e) b ∨
   es = b ++ a ∧ Forall (in_init init isize) a ∧ Forall (λ e, ¬ in_init init isize e) b) →
  ∃ m' lo, trim_init_extable m = Ret m' ∧ has_table m' es lo (length b) ∧
    take (length b) (drop lo es) = b.
Proof.
  intros Ht Hi Hab. pose proof Ht as (_ & _ & Hn & _). unfold trim_init_extable. rewrite Hn, Nat2Z.id.
  rewrite !Forall_lookup in Hab.
  destruct Hab as [(Hes & Ha & Hb)|(Hes & Ha & Hb)].
  - assert (length es = length a + length b)%nat as Hl by (rewrite Hes; apply length_app).
    destruct (trim_begin_correct (S (length es)) m 0 (length es) (length a)) as (m1 & -> & Ht1 & Hi1);
      [done|done|lia|lia| | |].
    + intros i e Hii He. rewrite Hes, lookup_app_l in He by lia. by apply (Ha i e).
    + intros e _ He. rewrite Hes, lookup_app_r, Nat.sub_diag in He by lia. by apply (Hb 0%nat e).
    + cbn [mbind cres_bind]. replace (0 + length es - length a)%nat with (length b) in Ht1 by lia.
      pose proof Ht1 as (_ & _ & Hn1 & _). rewrite Hn1, Nat2Z.id.
      destruct (trim_end_correct (S (length b)) m1 (length a) (length b) (length b)) as (m' & -> & Ht' & _);
        [done|done|lia|lia|lia| |].
      * intros e Hb0 He. rewrite Hes, lookup_app_r in He by lia. by apply (Hb _ e He).
      * exists m', (length a). split; [done|]. split; [done|]. by rewrite Hes, drop_app_length, take_ge.
  - assert (length es = length b + length a)%nat as Hl by (rewrite Hes; apply length_app).
    set (c := if decide (b = []) then length es else 0%nat).
    destruct (trim_begin_correct (S (length es)) m 0 (length es) c) as (m1 & -> & Ht1 & Hi1);
      [done|done|unfold c; case_decide; lia|lia| | |].
    + intros i e Hii He. unfold c in Hii. case_decide as Hb0; [|lia]. subst b. rewrite Hes in He. by apply (Ha i e).
    + intros e Hcl He. unfold c in *. case_decide as Hb0; [lia|]. destruct b as [|x b]; [done|].
      eapply (Hb 0%nat). by rewrite Hes in He.
    + cbn [mbind cres_bind]. pose proof Ht1 as (_ & _ & Hn1 & _). rewrite Hn1, Nat2Z.id.
      destruct (trim_end_correct (S (0 + length es - c)) m1 c (0 + length es - c) (length b)) as (m' & -> & Ht' & _);
        [done|done|unfold c; case_decide as Hb0; [subst b; cbn; lia|lia]|lia| | |].
      * intros i e Hii He. rewrite Hes, lookup_app_r in He by lia. by apply (Ha _ e He).
      * intros e Hb0 He. unfold c in He. rewrite decide_False in He by (intros ->; cbn in Hb0; lia).
        rewrite Hes, lookup_app_l in He by lia. by apply (Hb _ e He).
      * exists m', c. split; [done|]. split; [done|]. unfold c. case_decide as Hb0; [rewrite Hb0; apply take_0|].
        by rewrite drop_0, Hes, take_app_length.
Qed.
End trim.

(** ** The life of a table *)

(** a module as it is loaded: the entries of its table in any order, its init
    code and its core code, and whether init has finished *)
Record module_load := ModuleLoad {
  l_entries : list entry; l_init : Z; l_init_size : Z; l_core : Z; l_core_size : Z; l_done : bool }.

(** an entry is for an instruction of the module, and init and core code are
    two regions of memory that do not overlap *)
Definition load_ok (l : module_load) : Prop :=
  small_table (l_entries l) ∧
  is_u32 (l_init l) ∧ is_u32 (l_init l + l_init_size l) ∧
  (l_init l + l_init_size l ≤ l_core l ∨ l_core l + l_core_size l ≤ l_init l) ∧
  Forall (λ e, in_init (l_init l) (l_init_size l) e ∨ in_init (l_core l) (l_core_size l) e) (l_entries l).

(** sorting by [post_relocation], and the end of [init_module] *)
Definition loaded_module (l : module_load) : cres module :=
  m ← sort_extable (table (l_entries l)) (zlength (l_entries l));
  let m := Module_ m 0 (zlength (l_entries l)) (l_init l) (l_init_size l) in
  if l_done l then module_init_done m else Ret m.

(** the entries that are valid *)
Definition live (l : module_load) : list entry :=
  if l_done l then filter (λ e, ¬ in_init (l_init l) (l_init_size l) e) (l_entries l) else l_entries l.

Lemma sorted_threshold es t :
  sorted es → ∃ a b, es = a ++ b ∧ Forall (λ e, fst e < t) a ∧ Forall (λ e, t ≤ fst e) b.
Proof.
  induction 1 as [|e es Hs (a & b & -> & Ha & Hb) Hf]; [by exists [], []|].
  destruct (Z.lt_ge_cases (fst e) t) as [Hlt|Hge].
  - exists (e :: a), b. split; [done|]. split; [by constructor|done].
  - exists [], (e :: a ++ b). split; [done|]. split; [done|]. constructor; [done|].
    eapply Forall_impl; [exact Hf|]. cbn. intros; lia.
Qed.

(** the init entries of a sorted table are at one end *)
Lemma init_at_end l es :
  load_ok l → es ≡ₚ l_entries l → sorted es →
  let P := in_init (l_init l) (l_init_size l) in
  ∃ a b, (es = a ++ b ∨ es = b ++ a) ∧ Forall P a ∧ Forall (λ e, ¬ P e) b ∧
    b = filter (λ e, ¬ P e) es.
Proof.
  intros (_ & _ & _ & Hdis & Hin) Hp Hs P. rewrite <- Hp in Hin.
  destruct Hdis as [Hd|Hd].
  - destruct (sorted_threshold es (l_init l + l_init_size l) Hs) as (a & b & -> & Ha & Hb).
    assert (Forall P a ∧ Forall (λ e, ¬ P e) b) as [Ha' Hb'].
    { apply Forall_app in Hin as [Hia Hib]. unfold P, in_init in *. rewrite !Forall_forall in *. split.
      - intros e He. specialize (Ha e He). specialize (Hia e He). cbn in *. lia.
      - intros e He. specialize (Hb e He). cbn in *. lia. }
    exists a, b. split; [by left|]. split_and!; [done..|]. rewrite filter_app, (filter_all _ b), filter_none; [done| |done].
    eapply Forall_impl; [exact Ha'|]. cbn. tauto.
  - destruct (sorted_threshold es (l_init l) Hs) as (b & a & -> & Hb & Ha).
    assert (Forall P a ∧ Forall (λ e, ¬ P e) b) as [Ha' Hb'].
    { apply Forall_app in Hin as [Hib Hia]. unfold P, in_init in *. rewrite !Forall_forall in *. split.
      - intros e He. specialize (Ha e He). specialize (Hia e He). cbn in *. lia.
      - intros e He. specialize (Hb e He). cbn in *. lia. }
    exists a, b. split; [by right|]. split_and!; [done..|]. rewrite filter_app, (filter_all _ b), filter_none, app_nil_r; [done| |done].
    eapply Forall_impl; [exact Ha'|]. cbn. tauto.
Qed.

(** a loaded module has exactly its valid entries, in a sorted table *)
Lemma loaded_module_correct l :
  load_ok l →
  ∃ m es lo n, loaded_module l = Ret m ∧ has_table m es lo n ∧ Forall entry_ok es ∧ sorted es ∧
    take n (drop lo es) ≡ₚ live l.
Proof.
  intros Hl. pose proof Hl as (Hsm & Hi & Hw & _). unfold loaded_module, live.
  destruct (sort_extable_sorts _ Hsm) as (es & -> & Hp & Hs). cbn [mbind cres_bind].
  assert (Forall entry_ok es) as Hok by (rewrite Hp; apply Hsm).
  assert (zlength (l_entries l) = Z.of_nat (length es)) as -> by (unfold zlength; by rewrite Hp).
  set (m := Module_ _ _ _ _ _). assert (has_table m es 0 (length es)) as Ht by (split_and!; done).
  destruct (l_done l).
  - destruct (init_at_end l es Hl Hp Hs) as (a & b & Hab & Ha & Hb & Hbf).
    destruct (trim_correct es Hok (l_init l) (l_init_size l) Hw m a b) as (m' & lo & E & (? & ? & ? & ?) & Hsl);
      [done|done| |].
    { destruct Hab; [by left|by right]. }
    unfold module_init_done. rewrite E. cbn [mbind cres_bind].
    eexists _, es, lo, (length b). split; [done|]. split; [by split_and!|]. split; [done|]. split; [done|].
    rewrite Hsl, Hbf, Hp. done.
  - exists m, es, 0%nat, (length es). split; [done|]. split; [done|]. split; [done|]. split; [done|].
    by rewrite drop_0, take_ge.
Qed.

(** ** Faults *)

(** a search result is the number of an entry for [value], or there is none *)
Definition answers (valid : list entry) (value : Z) (r : option (list Z * Z)) : Prop :=
  match r with
  | Some (m, k) => ∃ fixup, fixup_at m k = Ret fixup ∧ (value, fixup) ∈ valid
  | None => ∀ fixup, (value, fixup) ∉ valid
  end.

Lemma found_answers es lo n value r :
  Forall entry_ok es → found es lo (lo + n) value r →
  answers (take n (drop lo es)) value (match r with Some k => Some (table es, k) | None => None end).
Proof.
  intros Hok Hf. destruct r as [k|]; cbn in *.
  - destruct Hf as (i & [insn fixup] & -> & Hi & He & <-). exists fixup.
    split; [by rewrite (fixup_at_entry _ _ _ Hok He)|]. apply list_elem_of_lookup. exists (i - lo)%nat.
    rewrite lookup_take_lt, lookup_drop by lia. by replace (lo + (i - lo))%nat with i by lia.
  - intros fixup (i & Hi)%list_elem_of_lookup. pose proof (lookup_lt_Some _ _ _ Hi) as Hlt.
    rewrite length_take in Hlt. rewrite lookup_take_lt, lookup_drop in Hi by lia.
    by eapply (Hf (lo + i)%nat); [lia|done|].
Qed.

Lemma answers_perm l l' value r : l ≡ₚ l' → answers l value r → answers l' value r.
Proof.
  intros Hp. destruct r as [[m k]|]; cbn.
  - intros (f & ? & ?). exists f. split; [done|]. by rewrite <- Hp.
  - intros H f. rewrite <- Hp. apply H.
Qed.

Lemma search_modules_correct ls ms addr :
  Forall load_ok ls → mapM loaded_module ls = Ret ms →
  ∃ r, search_module_extables ms addr = Ret r ∧ answers (concat (live <$> ls)) addr r.
Proof.
  intros Hls. revert ms. induction Hls as [|l ls Hl Hls IH]; intros ms; cbn [mapM].
  { intros [= <-]. exists None. split; [done|]. cbn. set_solver. }
  destruct (loaded_module_correct l Hl) as (m & es & lo & n & -> & (Hm & Hx & Hn & Hlen) & Hok & Hs & Hp).
  cbn [mbind cres_bind]. destruct (mapM loaded_module ls) as [ms'| |]; cbn [mbind cres_bind]; [|done|done].
  intros [= <-].
  destruct (IH ms' eq_refl) as (r & Hr & Ha). cbn [search_module_extables].
  destruct (search_extable_correct es lo n addr Hok Hs Hlen) as (r1 & E & Hf).
  apply found_answers in Hf; [|done]. apply (answers_perm _ (live l)) in Hf; [|done].
  rewrite Hm, Hx, Hn, E. destruct (Z.eqb_spec (Z.of_nat n) 0) as [Hz|Hz].
  - exists r. split; [done|]. replace n with 0%nat in Hp by lia. rewrite take_0 in Hp.
    apply Permutation_nil_l in Hp. cbn [fmap list_fmap concat]. by rewrite <- Hp.
  - cbn [mbind cres_bind]. destruct r1 as [k|]; cbn [answers] in Hf.
    + exists (Some (table es, k)). split; [done|]. destruct Hf as (f & ? & ?). exists f. set_solver.
    + exists r. split; [done|]. destruct r as [[m' k']|]; cbn in *.
      * destruct Ha as (f & ? & ?). exists f. set_solver.
      * intros f. specialize (Hf f). specialize (Ha f). set_solver.
Qed.

Lemma loaded_modules_total ls : Forall load_ok ls → ∃ ms, mapM loaded_module ls = Ret ms.
Proof.
  induction 1 as [|l ls Hl _ [ms IH]]; [by exists []|]. cbn [mapM].
  destruct (loaded_module_correct l Hl) as (m & _ & _ & _ & -> & _). rewrite IH. by exists (m :: ms).
Qed.

(** C15: a fault at [pc] in the kernel or a module. The tables may have their
    entries in any order when they are built; they are sorted at boot and when a
    module is loaded, and trimmed when its init code has run. Nothing leaves a
    table; the fault is fixed up exactly when the kernel or a module has a valid
    entry for [pc], those of finished init code being no longer valid, and
    execution goes on where such an entry says. *)
Theorem fixup_exception_correct main mods pc :
  small_table main → Forall load_ok mods →
  ∃ kernel ms r pc', sort_extable (table main) (zlength main) = Ret kernel ∧
    mapM loaded_module mods = Ret ms ∧
    fixup_exception kernel (zlength main) ms pc = Ret (r, pc') ∧
    (r = 1 ∧ (pc, pc') ∈ main ++ concat (live <$> mods) ∨
     r = 0 ∧ pc' = pc ∧ ∀ fixup, (pc, fixup) ∉ main ++ concat (live <$> mods)).
Proof.
  intros Hm Hmods. destruct (sort_extable_sorts main Hm) as (es & E & Hp & Hs).
  assert (Forall entry_ok es) as Hok by (rewrite Hp; apply Hm).
  destruct (loaded_modules_total mods Hmods) as [ms Ems].
  destruct (search_modules_correct mods ms pc Hmods Ems) as (rm & Erm & Hrm).
  destruct (search_extable_correct es 0 (length es) pc Hok Hs) as (r1 & E1 & Hf); [lia|].
  apply found_answers in Hf; [|done]. rewrite drop_0, take_ge in Hf by lia.
  apply (answers_perm _ main) in Hf; [|done].
  assert (zlength main = Z.of_nat (length es)) as Hl by (unfold zlength; by rewrite Hp).
  exists (table es), ms. unfold fixup_exception, search_exception_tables. rewrite Hl in *.
  rewrite Z.add_0_l in E1. change (Z.of_nat 0) with 0 in E1. rewrite E1. cbn [mbind cres_bind].
  destruct r1 as [k|]; cbn [answers] in Hf.
  - destruct Hf as (f & Hfx & Hin). cbn [mbind cres_bind]. rewrite Hfx. exists 1, f.
    split_and!; [done..|]. left. split; [done|]. set_solver.
  - rewrite Erm. cbn [mbind cres_bind]. destruct rm as [[m k]|]; cbn [answers] in Hrm.
    + destruct Hrm as (f & Hfx & Hin). rewrite Hfx. exists 1, f. split_and!; [done..|]. left. set_solver.
    + exists 0, pc. split_and!; [done..|]. right. split_and!; [done..|]. intros f.
      specialize (Hf f). specialize (Hrm f). set_solver.
Qed.

(** a kernel table and a module that has finished its init code *)
Definition main0 : list entry := [(300, 301); (100, 101); (200, 201)].
Definition mod0 : module_load := ModuleLoad [(5000, 5001); (900, 901); (5008, 5009)] 5000 16 800 200 true.

Lemma fixup_exception_correct_witness :
  ∃ kernel ms r pc', sort_extable (table main0) 3 = Ret kernel ∧ mapM loaded_module [mod0] = Ret ms ∧
    fixup_exception kernel 3 ms 900 = Ret (r, pc') ∧
    (r = 1 ∧ (900, pc') ∈ main0 ++ concat (live <$> [mod0]) ∨
     r = 0 ∧ pc' = 900 ∧ ∀ fixup, (900, fixup) ∉ main0 ++ concat (live <$> [mod0])).
Proof.
  apply (fixup_exception_correct main0 [mod0] 900).
  - split; [|done]. by repeat constructor.
  - constructor; [|constructor]. split_and!; cbn; [by repeat constructor| | | |]; unfold is_u32; try lia.
    repeat constructor; unfold in_init; cbn; lia.
Defined.
