(* ===== verification/Buddy.v ===== *)
(** * The buddy allocator: mm/page_alloc.c

    Pages are named by their frame number; [mem_map] holds what the allocator
    keeps in a [struct page]: the PageBuddy mark, [private], the zone. The
    free lists of a zone are lists of page frames; taking a page off "its"
    list, as [list_del] does by the links in the page, removes it from the one
    that contains it. There are 11 orders and 5 migrate types; a page block
    has the size of the largest order (no huge pages), and there are no holes
    inside a zone's largest blocks (no CONFIG_HOLES_IN_ZONE).

    The invariant and the behaviour of the functions are in BuddyInv.v; the
    per-cpu lists on top of them and sequences of calls are in Pcp.v. *)

From stdpp Require Import gmap.
From S2P Require Import Prelude.

Definition MAX_ORDER : Z := 11.
Definition pageblock_order : Z := MAX_ORDER - 1.
Definition pageblock_nr_pages : Z := Z.shiftl 1 pageblock_order.

Definition MIGRATE_UNMOVABLE : Z := 0.
Definition MIGRATE_RECLAIMABLE : Z := 1.
Definition MIGRATE_MOVABLE : Z := 2.
Definition MIGRATE_RESERVE : Z := 3.
Definition MIGRATE_ISOLATE : Z := 4.
Definition MIGRATE_TYPES : Z := 5.

Record page := Page { PageBuddy : bool; page_private : Z; page_zone : Z }.

Record free_area := FreeArea { free_list : list (list Z); nr_free : Z }.

(** [pageblock_mt] is the migrate type of each page block, by the number of the
    block; [page_group_by_mobility_disabled] is a global of the file *)
Record zone := Zone {
  zone_id : Z; zone_start_pfn : Z; spanned_pages : Z;
  mem_map : gmap Z page; free_areas : list free_area;
  pageblock_mt : gmap Z Z; page_group_by_mobility_disabled : bool }.

Definition set_mem_map (m : gmap Z page) (z : zone) : zone :=
  Zone (zone_id z) (zone_start_pfn z) (spanned_pages z) m (free_areas z) (pageblock_mt z)
    (page_group_by_mobility_disabled z).
Definition set_free_areas (a : list free_area) (z : zone) : zone :=
  Zone (zone_id z) (zone_start_pfn z) (spanned_pages z) (mem_map z) a (pageblock_mt z)
    (page_group_by_mobility_disabled z).
Definition set_pageblock_mt (b : gmap Z Z) (z : zone) : zone :=
  Zone (zone_id z) (zone_start_pfn z) (spanned_pages z) (mem_map z) (free_areas z) b
    (page_group_by_mobility_disabled z).

(** ** Pages *)

Definition get_page (z : zone) (p : Z) : cres page :=
  match mem_map z !! p with Some pg => Ret pg | None => UB end.
Definition page_order (pg : page) : Z := page_private pg.

Definition set_page_order (p order : Z) (z : zone) : cres zone :=
  pg ← get_page z p;
  Ret (set_mem_map (<[p := Page true order (page_zone pg)]> (mem_map z)) z).
Definition rmv_page_order (p : Z) (z : zone) : cres zone :=
  pg ← get_page z p;
  Ret (set_mem_map (<[p := Page false 0 (page_zone pg)]> (mem_map z)) z).

(** ** Free lists *)

Definition get_list (z : zone) (order mt : Z) : cres (list Z) :=
  a ← array_get (free_areas z) order; array_get (free_list a) mt.

Definition set_list (order mt : Z) (l : list Z) (z : zone) : cres zone :=
  a ← array_get (free_areas z) order;
  fl ← array_set (free_list a) mt l;
  areas ← array_set (free_areas z) order (FreeArea fl (nr_free a));
  Ret (set_free_areas areas z).

Definition list_add (p order mt : Z) (z : zone) : cres zone :=
  l ← get_list z order mt; set_list order mt (p :: l) z.
Definition list_add_tail (p order mt : Z) (z : zone) : cres zone :=
  l ← get_list z order mt; set_list order mt (l ++ [p]) z.

Definition on_list (p : Z) (z : zone) : bool :=
  existsb (λ a, existsb (existsb (Z.eqb p)) (free_list a)) (free_areas z).
Definition without (p : Z) (a : free_area) : free_area :=
  FreeArea (map (List.filter (λ x, negb (x =? p))) (free_list a)) (nr_free a).
Definition list_del (p : Z) (z : zone) : cres zone :=
  if on_list p z then Ret (set_free_areas (map (without p) (free_areas z)) z) else UB.

Definition list_move (p order mt : Z) (z : zone) : cres zone :=
  z ← list_del p z; list_add p order mt z.

(** [zone->free_area[order].nr_free += d] *)
Definition add_nr_free (order d : Z) (z : zone) : cres zone :=
  a ← array_get (free_areas z) order;
  areas ← array_set (free_areas z) order (FreeArea (free_list a) (nr_free a + d));
  Ret (set_free_areas areas z).

(** ** Freeing *)

Definition __find_buddy_index (page_idx order : Z) : Z := Z.lxor page_idx (Z.shiftl 1 order).

Definition page_is_buddy (z : zone) (p buddy order : Z) : cres bool :=
  pg ← get_page z p;
  b ← get_page z buddy;
  Ret ((page_zone pg =? page_zone b) && PageBuddy b && (page_order b =? order)).

(** the [while] loop; [buddy_idx] is uninitialised before the first round *)
Fixpoint free_loop (fuel : nat) (p page_idx order : Z) (buddy_idx : option Z) (z : zone) :
    cres (Z * Z * Z * option Z * zone) :=
  match fuel with
  | O => UB
  | S fuel =>
      if order <? MAX_ORDER - 1 then
        let buddy_idx := __find_buddy_index page_idx order in
        let buddy := p + (buddy_idx - page_idx) in
        is_buddy ← page_is_buddy z p buddy order;
        if negb is_buddy then Ret (p, page_idx, order, Some buddy_idx, z) else
        z ← list_del buddy z;
        z ← add_nr_free order (-1) z;
        z ← rmv_page_order buddy z;
        let combined_idx := Z.land buddy_idx page_idx in
        free_loop fuel (p + (combined_idx - page_idx)) combined_idx (order + 1) (Some buddy_idx) z
      else Ret (p, page_idx, order, buddy_idx, z)
  end.

(** whether the page goes to the tail of its list *)
Definition to_tail (p page_idx order : Z) (buddy_idx : option Z) (z : zone) : cres bool :=
  if order <? MAX_ORDER - 2 then
    match buddy_idx with
    | None => UB
    | Some buddy_idx =>
        let combined_idx := Z.land buddy_idx page_idx in
        let higher_page := p + (combined_idx - page_idx) in
        let buddy_idx := __find_buddy_index combined_idx (order + 1) in
        let higher_buddy := p + (buddy_idx - combined_idx) in
        page_is_buddy z higher_page higher_buddy (order + 1)
    end
  else Ret false.

Definition __free_one_page (p order mt : Z) (z : zone) : cres zone :=
  let page_idx := Z.land p (Z.shiftl 1 MAX_ORDER - 1) in
  '(p, page_idx, order, buddy_idx, z) ← free_loop (Z.to_nat MAX_ORDER) p page_idx order None z;
  z ← set_page_order p order z;
  tail ← to_tail p page_idx order buddy_idx z;
  z ← (if tail : bool then list_add_tail p order mt z else list_add p order mt z);
  add_nr_free order 1 z.

(** ** Allocating *)

(** [high] goes down to [low] in [n] rounds *)
Fixpoint expand (n : nat) (p high mt : Z) (z : zone) : cres zone :=
  match n with
  | O => Ret z
  | S n =>
      let high := high - 1 in
      let size := Z.shiftl 1 high in
      z ← list_add (p + size) high mt z;
      z ← add_nr_free high 1 z;
      z ← set_page_order (p + size) high z;
      expand n p high mt z
  end.

(** [None] is NULL; [n] orders remain *)
Fixpoint rmqueue_smallest_loop (n : nat) (order current_order mt : Z) (z : zone) :
    cres (option Z * zone) :=
  match n with
  | O => Ret (None, z)
  | S n =>
      l ← get_list z current_order mt;
      match l with
      | [] => rmqueue_smallest_loop n order (current_order + 1) mt z
      | p :: _ =>
          z ← list_del p z;
          z ← rmv_page_order p z;
          z ← add_nr_free current_order (-1) z;
          z ← expand (Z.to_nat (current_order - order)) p current_order mt z;
          Ret (Some p, z)
      end
  end.

Definition __rmqueue_smallest (order mt : Z) (z : zone) : cres (option Z * zone) :=
  rmqueue_smallest_loop (Z.to_nat (MAX_ORDER - order)) order order mt z.

(** the rows have four columns, the last of them zero *)
Definition fallbacks : list (list Z) :=
  [[MIGRATE_RECLAIMABLE; MIGRATE_MOVABLE; MIGRATE_RESERVE; 0];
   [MIGRATE_UNMOVABLE; MIGRATE_MOVABLE; MIGRATE_RESERVE; 0];
   [MIGRATE_RECLAIMABLE; MIGRATE_UNMOVABLE; MIGRATE_RESERVE; 0];
   [MIGRATE_RESERVE; MIGRATE_RESERVE; MIGRATE_RESERVE; 0];
   [0; 0; 0; 0]].

Fixpoint move_loop (fuel : nat) (p end_page mt pages_moved : Z) (z : zone) : cres (Z * zone) :=
  match fuel with
  | O => UB
  | S fuel =>
      if p <=? end_page then
        pg ← get_page z p;
        if negb (PageBuddy pg) then move_loop fuel (p + 1) end_page mt pages_moved z else
        let order := page_order pg in
        z ← list_move p order mt z;
        move_loop fuel (p + Z.shiftl 1 order) end_page mt (pages_moved + Z.shiftl 1 order) z
      else Ret (pages_moved, z)
  end.

Definition move_freepages (start_page end_page mt : Z) (z : zone) : cres (Z * zone) :=
  s ← get_page z start_page;
  e ← get_page z end_page;
  if negb (page_zone s =? page_zone e) then UB else
  move_loop (Z.to_nat (end_page - start_page + 2)) start_page end_page mt 0 z.

Definition move_freepages_block (p mt : Z) (z : zone) : cres (Z * zone) :=
  let start_pfn := Z.land p (Z.lnot (pageblock_nr_pages - 1)) in
  let end_pfn := start_pfn + pageblock_nr_pages - 1 in
  let start_page := if start_pfn <? zone_start_pfn z then p else start_pfn in
  if zone_start_pfn z + spanned_pages z <=? end_pfn then Ret (0, z)
  else move_freepages start_page end_pfn mt z.

Definition set_pageblock_migratetype (p mt : Z) (z : zone) : zone :=
  let mt := if page_group_by_mobility_disabled z then MIGRATE_UNMOVABLE else mt in
  set_pageblock_mt (<[Z.shiftr p pageblock_order := mt]> (pageblock_mt z)) z.
Definition get_pageblock_migratetype (p : Z) (z : zone) : Z :=
  default MIGRATE_UNMOVABLE (pageblock_mt z !! Z.shiftr p pageblock_order).

Fixpoint change_range_loop (n : nat) (p mt : Z) (z : zone) : zone :=
  match n with
  | O => z
  | S n => change_range_loop n (p + pageblock_nr_pages) mt (set_pageblock_migratetype p mt z)
  end.
Definition change_pageblock_range (p start_order mt : Z) (z : zone) : zone :=
  change_range_loop (Z.to_nat (Z.shiftl 1 (start_order - pageblock_order))) p mt z.

(** the move of a whole page block before one of its blocks is taken; gives the
    type of the rest of that block *)
Definition claim_block (current_order mt start_mt p : Z) (z : zone) : cres (Z * zone) :=
  if (Z.shiftr pageblock_order 1 <=? current_order) || (start_mt =? MIGRATE_RECLAIMABLE) ||
     page_group_by_mobility_disabled z then
    '(pages, z) ← move_freepages_block p start_mt z;
    let z := if (Z.shiftl 1 (pageblock_order - 1) <=? pages) || page_group_by_mobility_disabled z
             then set_pageblock_migratetype p start_mt z else z in
    Ret (start_mt, z)
  else Ret (mt, z).

(** the body of the two loops of [__rmqueue_fallback], for a list that is not empty *)
Definition take_fallback (order current_order mt start_mt p : Z) (z : zone) :
    cres (option Z * zone) :=
  z ← add_nr_free current_order (-1) z;
  '(mt, z) ← claim_block current_order mt start_mt p z;
  z ← list_del p z;
  z ← rmv_page_order p z;
  let z := if pageblock_order <=? current_order
           then change_pageblock_range p current_order start_mt z else z in
  z ← expand (Z.to_nat (current_order - order)) p current_order mt z;
  Ret (Some p, z).

(** the inner loop, over the rest [mts] of the row *)
Fixpoint fallback_types (mts : list Z) (order current_order start_mt : Z) (z : zone) :
    cres (option Z * zone) :=
  match mts with
  | [] => Ret (None, z)
  | mt :: mts =>
      if mt =? MIGRATE_RESERVE then fallback_types mts order current_order start_mt z else
      l ← get_list z current_order mt;
      match l with
      | [] => fallback_types mts order current_order start_mt z
      | p :: _ => take_fallback order current_order mt start_mt p z
      end
  end.

(** the outer loop goes down; [n] orders remain *)
Fixpoint fallback_orders (n : nat) (order current_order start_mt : Z) (z : zone) :
    cres (option Z * zone) :=
  match n with
  | O => Ret (None, z)
  | S n =>
      row ← array_get fallbacks start_mt;
      '(r, z) ← fallback_types row order current_order start_mt z;
      match r with
      | Some p => Ret (Some p, z)
      | None => fallback_orders n order (current_order - 1) start_mt z
      end
  end.

Definition __rmqueue_fallback (order start_mt : Z) (z : zone) : cres (option Z * zone) :=
  fallback_orders (Z.to_nat (MAX_ORDER - order)) order (MAX_ORDER - 1) start_mt z.

Definition __rmqueue (order mt : Z) (z : zone) : cres (option Z * zone) :=
  '(p, z) ← __rmqueue_smallest order mt z;
  match p with
  | Some p => Ret (Some p, z)
  | None =>
      if mt =? MIGRATE_RESERVE then Ret (None, z) else
      '(p, z) ← __rmqueue_fallback order mt z;
      match p with
      | Some p => Ret (Some p, z)
      | None => __rmqueue_smallest order MIGRATE_RESERVE z
      end
  end.
