(* ===== verification/BuddyInv.v ===== *)
(** * The buddy allocator: invariant and behaviour of the functions

    [B] maps the first page of each free block to its order. [represents] says
    that the marks in the pages, the free lists and the counters all describe
    [B]; [blocks_ok] that the blocks are aligned, inside the zone, disjoint and
    coalesced: of two buddies never both are free. [free_one_page_correct] and
    [rmqueue_correct] say what freeing and allocating do to the free pages. *)

From stdpp Require Import gmap.
From S2P Require Import Prelude Buddy.

(** ** Buddies *)

(** the other half of the block of twice the size, and that block *)
Definition buddy (p o : Z) : Z := if Z.testbit p o then p - 2 ^ o else p + 2 ^ o.
Definition parent (p o : Z) : Z := if Z.testbit p o then p - 2 ^ o else p.

Definition aligned (o p : Z) : Prop := (2 ^ o | p).

Lemma testbit_mul q o : 0 ≤ o → Z.testbit (2 ^ o * q) o = Z.odd q.
Proof.
  intros Ho. rewrite Z.mul_comm. rewrite Z.mul_pow2_bits by lia. by rewrite Z.sub_diag, Z.bit0_odd.
Qed.

(** an aligned page is the lower or the upper half *)
Lemma aligned_cases p o : 0 ≤ o → aligned o p →
  ∃ q, (p = 2 ^ (o + 1) * q ∧ Z.testbit p o = false) ∨
       (p = 2 ^ (o + 1) * q + 2 ^ o ∧ Z.testbit p o = true).
Proof.
  intros Ho [k ->]. rewrite (Z.mul_comm k), testbit_mul by done.
  rewrite Z.pow_add_r by lia. exists (k / 2). pose proof (Z.div_mod k 2 ltac:(lia)) as Hk.
  rewrite Zmod_odd in Hk. destruct (Z.odd k); [right|left]; (split; [|done]); rewrite Hk at 1; ring.
Qed.

Lemma pow_pos o : 0 ≤ o → 0 < 2 ^ o.
Proof. intros. apply Z.pow_pos_nonneg; lia. Qed.
Lemma pow_succ o : 0 ≤ o → 2 ^ (o + 1) = 2 * 2 ^ o.
Proof. intros. rewrite Z.pow_add_r by lia. lia. Qed.

Lemma aligned_weaken o o' p : 0 ≤ o ≤ o' → aligned o' p → aligned o p.
Proof.
  intros Ho [k ->]. exists (k * 2 ^ (o' - o)). rewrite <- Z.mul_assoc, <- Z.pow_add_r by lia.
  do 2 f_equal. lia.
Qed.

Lemma aligned_parent p o : 0 ≤ o → aligned o p → aligned (o + 1) (parent p o).
Proof.
  intros Ho Ha. destruct (aligned_cases p o Ho Ha) as (q & [[Hp Ht]|[Hp Ht]]); unfold parent; rewrite Ht;
    exists q; lia.
Qed.

Lemma aligned_buddy p o : 0 ≤ o → aligned o p → aligned o (buddy p o).
Proof.
  intros Ho [k ->]. unfold buddy. case_test; [exists (k - 1)|exists (k + 1)]; lia.
Qed.

Lemma parent_halves p o :
  0 ≤ o → aligned o p →
  ∀ x, parent p o ≤ x < parent p o + 2 ^ (o + 1) ↔
    p ≤ x < p + 2 ^ o ∨ buddy p o ≤ x < buddy p o + 2 ^ o.
Proof.
  intros Ho Ha x. pose proof (pow_pos o Ho). rewrite pow_succ by done.
  unfold parent, buddy. case_test; lia.
Qed.

Lemma buddy_involutive p o : 0 ≤ o → aligned o p → buddy (buddy p o) o = p.
Proof.
  intros Ho Ha. destruct (aligned_cases p o Ho Ha) as (q & [[Hp Ht]|[Hp Ht]]); unfold buddy; rewrite Ht.
  - assert (Z.testbit (p + 2 ^ o) o = true) as ->; [|lia].
    replace (p + 2 ^ o) with (2 ^ o * (2 * q + 1)) by (rewrite Hp, pow_succ by done; lia).
    rewrite testbit_mul by done. rewrite Z.odd_add, Z.odd_mul. done.
  - assert (Z.testbit (p - 2 ^ o) o = false) as ->; [|lia].
    replace (p - 2 ^ o) with (2 ^ o * (2 * q)) by (rewrite Hp, pow_succ by done; lia).
    rewrite testbit_mul by done. by rewrite Z.odd_mul.
Qed.

Lemma buddy_upper p o : 0 ≤ o → aligned (o + 1) p → buddy (p + 2 ^ o) o = p ∧ buddy p o = p + 2 ^ o.
Proof.
  intros Ho Ha. assert (aligned o p) as Ha' by (apply (aligned_weaken o (o + 1)); [lia|done]).
  assert (buddy p o = p + 2 ^ o) as Hb.
  { destruct Ha as [k ->]. unfold buddy. rewrite pow_succ by done.
    replace (k * (2 * 2 ^ o)) with (2 ^ o * (2 * k)) by lia. rewrite testbit_mul by done.
    by rewrite Z.odd_mul. }
  split; [|done]. rewrite <- Hb. by apply buddy_involutive.
Qed.

(** the index arithmetic of the code *)
Lemma lxor_pow x o : 0 ≤ o → Z.lxor x (Z.shiftl 1 o) = if Z.testbit x o then x - 2 ^ o else x + 2 ^ o.
Proof.
  intros Ho. rewrite Z.shiftl_1_l. destruct (Z.testbit x o) eqn:Ht.
  - rewrite Z.sub_nocarry_ldiff.
    + apply Z.bits_inj'. intros i Hi. rewrite Z.lxor_spec, Z.ldiff_spec, Z.pow2_bits_eqb by lia.
      destruct (Z.eqb_spec o i) as [<-|]; [by rewrite Ht|by rewrite andb_true_r, xorb_false_r].
    + apply Z.bits_inj'. intros i Hi. rewrite Z.ldiff_spec, Z.pow2_bits_eqb, Z.bits_0 by lia.
      destruct (Z.eqb_spec o i) as [<-|]; [by rewrite Ht|done].
  - symmetry. apply Z.add_nocarry_lxor. apply Z.bits_inj'. intros i Hi.
    rewrite Z.land_spec, Z.pow2_bits_eqb, Z.bits_0 by lia.
    destruct (Z.eqb_spec o i) as [<-|]; [by rewrite Ht|by rewrite andb_false_r].
Qed.

Lemma land_buddy x o : 0 ≤ o →
  Z.land (Z.lxor x (Z.shiftl 1 o)) x = if Z.testbit x o then x - 2 ^ o else x.
Proof.
  intros Ho. pose proof (lxor_pow x o Ho) as Hx. destruct (Z.testbit x o) eqn:Ht.
  - rewrite <- Hx. apply Z.bits_inj'. intros i Hi. rewrite Z.land_spec, Z.lxor_spec, Z.shiftl_1_l, Z.pow2_bits_eqb by lia.
    destruct (Z.eqb_spec o i) as [<-|]; [by rewrite Ht|]. rewrite xorb_false_r. by destruct (Z.testbit x i).
  - apply Z.bits_inj'. intros i Hi. rewrite Z.land_spec, Z.lxor_spec, Z.shiftl_1_l, Z.pow2_bits_eqb by lia.
    destruct (Z.eqb_spec o i) as [<-|]; [by rewrite Ht|]. rewrite xorb_false_r. by destruct (Z.testbit x i).
Qed.

Definition index (p : Z) : Z := Z.land p (Z.shiftl 1 MAX_ORDER - 1).

Lemma index_mod p : index p = p `mod` 2 ^ MAX_ORDER.
Proof. unfold index. rewrite Z.shiftl_1_l, Z.sub_1_r, <- Z.ones_equiv. by apply Z.land_ones. Qed.

Lemma index_bit p o : 0 ≤ o < MAX_ORDER → Z.testbit (index p) o = Z.testbit p o.
Proof. intros Ho. rewrite index_mod. apply Z.mod_pow2_bits_low. lia. Qed.

Lemma find_buddy p o : 0 ≤ o < MAX_ORDER →
  p + (__find_buddy_index (index p) o - index p) = buddy p o.
Proof.
  intros Ho. unfold __find_buddy_index, buddy. rewrite lxor_pow, index_bit by lia. case_test; lia.
Qed.

Lemma find_parent p o : 0 ≤ o < MAX_ORDER →
  p + (Z.land (__find_buddy_index (index p) o) (index p) - index p) = parent p o ∧
  Z.land (__find_buddy_index (index p) o) (index p) = index (parent p o).
Proof.
  intros Ho. unfold __find_buddy_index, parent. rewrite land_buddy, index_bit by lia.
  destruct (Z.testbit p o) eqn:Ht; split; try lia.
  rewrite !index_mod. assert (2 ^ o ≤ p `mod` 2 ^ MAX_ORDER) as Hle.
  { assert (Z.testbit (p `mod` 2 ^ MAX_ORDER) o = true) as Hb by (rewrite <- index_mod, index_bit; done).
    destruct (Z.lt_ge_cases (p `mod` 2 ^ MAX_ORDER) (2 ^ o)) as [Hlt|]; [|done].
    rewrite (bits_above o) in Hb; [done| |lia]. split; [apply Z.mod_pos_bound; done|done]. }
  rewrite (Z.div_mod p (2 ^ MAX_ORDER)) at 2 by done.
  replace (2 ^ MAX_ORDER * (p / 2 ^ MAX_ORDER) + p `mod` 2 ^ MAX_ORDER - 2 ^ o)
    with ((p `mod` 2 ^ MAX_ORDER - 2 ^ o) + (p / 2 ^ MAX_ORDER) * 2 ^ MAX_ORDER) by lia.
  rewrite Z_mod_plus_full. symmetry. apply Z.mod_small.
  pose proof (Z.mod_pos_bound p (2 ^ MAX_ORDER) ltac:(done)). pose proof (pow_pos o). lia.
Qed.

(** ** What the zone represents *)

Definition in_zone (z : zone) (p : Z) : Prop :=
  zone_start_pfn z ≤ p < zone_start_pfn z + spanned_pages z.

(** every page of the zone has its [struct page], and so have the other pages
    of its largest block *)
Record zone_ok (z : zone) : Prop := {
  zone_pages : ∀ p, in_zone z p → ∃ pg, mem_map z !! p = Some pg ∧ page_zone pg = zone_id z;
  zone_others : ∀ p pg, mem_map z !! p = Some pg → page_zone pg = zone_id z → in_zone z p;
  zone_whole : ∀ p x, in_zone z p → p / pageblock_nr_pages = x / pageblock_nr_pages →
    is_Some (mem_map z !! x)
}.

Definition flags_ok (z : zone) (B : gmap Z Z) : Prop :=
  ∀ p pg, mem_map z !! p = Some pg → page_zone pg = zone_id z →
    match B !! p with
    | Some o => PageBuddy pg = true ∧ page_private pg = o
    | None => PageBuddy pg = false
    end.

Definition lists_ok (areas : list free_area) (B : gmap Z Z) : Prop :=
  zlength areas = MAX_ORDER ∧
  ∀ o a, zlookup areas o = Some a →
    zlength (free_list a) = MIGRATE_TYPES ∧ NoDup (concat (free_list a)) ∧
    ∀ p, p ∈ concat (free_list a) ↔ B !! p = Some o.

Definition of_order (o : Z) (B : gmap Z Z) : gmap Z Z := filter (λ kv, kv.2 = o) B.

Definition counts_ok (areas : list free_area) (B : gmap Z Z) : Prop :=
  ∀ o a, zlookup areas o = Some a → nr_free a = Z.of_nat (size (of_order o B)).

(** the lists, the counters and the marks, each for its own set of blocks,
    because the code changes them one after the other *)
Record rep (z : zone) (BL BC BF : gmap Z Z) : Prop := {
  rep_zone : zone_ok z;
  rep_lists : lists_ok (free_areas z) BL;
  rep_counts : counts_ok (free_areas z) BC;
  rep_flags : flags_ok z BF;
  rep_types : ∀ b mt, pageblock_mt z !! b = Some mt → 0 ≤ mt < MIGRATE_TYPES
}.

Definition represents (z : zone) (B : gmap Z Z) : Prop := rep z B B B.

(** what the functions leave alone: the place of the zone, and the
    [struct page] of pages they have nothing to do with *)
Record same_zone (z z' : zone) : Prop := {
  same_id : zone_id z' = zone_id z;
  same_start : zone_start_pfn z' = zone_start_pfn z;
  same_span : spanned_pages z' = spanned_pages z
}.

Record changes (P : Z → Prop) (z z' : zone) : Prop := {
  changes_zone :> same_zone z z';
  changes_frame : ∀ x, ¬ P x → mem_map z' !! x = mem_map z !! x
}.

#[global] Instance changes_preorder P : PreOrder (changes P).
Proof.
  split; [done|]. intros a b c [[? ? ?] Hab] [[? ? ?] Hbc].
  split; [split; congruence|]. intros x Hx. by rewrite Hbc, Hab.
Qed.
Lemma changes_weaken (P Q : Z → Prop) z z' : changes P z z' → (∀ x, P x → Q x) → changes Q z z'.
Proof. intros [? H] HPQ. split; [done|]. intros x Hx. apply H. auto. Qed.

Lemma same_in_zone z z' p : same_zone z z' → in_zone z' p ↔ in_zone z p.
Proof. intros [_ H1 H2]. unfold in_zone. by rewrite H1, H2. Qed.

(** *** Marks *)

Lemma set_mark z BL BC BF p buddy priv (BF' : gmap Z Z) :
  rep z BL BC BF → in_zone z p → (∀ q, q ≠ p → BF' !! q = BF !! q) →
  match BF' !! p with Some o => buddy = true ∧ priv = o | None => buddy = false end →
  ∃ pg, get_page z p = Ret pg ∧
    rep (set_mem_map (<[p := Page buddy priv (page_zone pg)]> (mem_map z)) z) BL BC BF'.
Proof.
  intros [[Z1 Z2 Z3] HL HC HF HT] Hp Hne Hm. destruct (Z1 p Hp) as (pg & Hpg & Hz).
  exists pg. unfold get_page. rewrite Hpg. split; [done|]. split; [split| | | |]; cbn; try done.
  - intros q Hq. destruct (decide (q = p)) as [->|Hqp].
    + eexists. rewrite lookup_insert_eq. done.
    + rewrite lookup_insert_ne by done. by apply Z1.
  - intros q qg Hq Hqz. destruct (decide (q = p)) as [->|Hqp]; [done|].
    rewrite lookup_insert_ne in Hq by done. by eapply Z2.
  - intros q x Hq Hx. destruct (decide (x = p)) as [->|Hxp]; [rewrite lookup_insert_eq; by eexists|].
    rewrite lookup_insert_ne by done. by apply (Z3 q).
  - intros q qg Hq Hqz. cbn in Hq. destruct (decide (q = p)) as [->|Hqp].
    + rewrite lookup_insert_eq in Hq. simplify_eq. cbn in *. by destruct (BF' !! p).
    + rewrite lookup_insert_ne in Hq by done. rewrite Hne by done. by apply HF.
Qed.

Lemma changes_mark (P : Z → Prop) z p pg : P p → changes P z (set_mem_map (<[p := pg]> (mem_map z)) z).
Proof. intros Hp. split; [done|]. intros x Hx. cbn. apply lookup_insert_ne. congruence. Qed.

Lemma set_page_order_rep (P : Z → Prop) z BL BC BF p o :
  rep z BL BC BF → in_zone z p → P p →
  ∃ z', set_page_order p o z = Ret z' ∧ rep z' BL BC (<[p := o]> BF) ∧ changes P z z'.
Proof.
  intros HR Hp HP. destruct (set_mark z BL BC BF p true o (<[p := o]> BF) HR Hp) as (pg & E & HR').
  - intros q Hq. by apply lookup_insert_ne.
  - by rewrite lookup_insert_eq.
  - unfold set_page_order. rewrite E. cbn. eexists. split; [done|]. split; [done|]. by apply changes_mark.
Qed.

Lemma rmv_page_order_rep (P : Z → Prop) z BL BC BF p :
  rep z BL BC BF → in_zone z p → P p →
  ∃ z', rmv_page_order p z = Ret z' ∧ rep z' BL BC (delete p BF) ∧ changes P z z'.
Proof.
  intros HR Hp HP. destruct (set_mark z BL BC BF p false 0 (delete p BF) HR Hp) as (pg & E & HR').
  - intros q Hq. by apply lookup_delete_ne.
  - by rewrite lookup_delete_eq.
  - unfold rmv_page_order. rewrite E. cbn. eexists. split; [done|]. split; [done|]. by apply changes_mark.
Qed.

(** *** Lists *)

Lemma rep_areas z BL BC BF areas BL' BC' :
  rep z BL BC BF → lists_ok areas BL' → counts_ok areas BC' → rep (set_free_areas areas z) BL' BC' BF.
Proof. intros [[Z1 Z2 Z3] HL HC HF HT] HL' HC'. by split. Qed.

Lemma get_list_ok z BL BC BF o mt :
  rep z BL BC BF → 0 ≤ o < MAX_ORDER → 0 ≤ mt < MIGRATE_TYPES →
  ∃ a l, get_list z o mt = Ret l ∧ zlookup (free_areas z) o = Some a ∧ zlookup (free_list a) mt = Some l.
Proof.
  intros [_ [HL1 HL2] _ _ _] Ho Hm. destruct (array_get_in (free_areas z) o) as (a & E & Ha); [lia|].
  destruct (HL2 o a Ha) as (Hlen & _). destruct (array_get_in (free_list a) mt) as (l & E' & Hl); [lia|].
  exists a, l. unfold get_list. by rewrite E.
Qed.

Lemma concat_insert {A} (ll : list (list A)) i l l' p :
  ll !! i = Some l → l' ≡ₚ p :: l → concat (<[i := l']> ll) ≡ₚ p :: concat ll.
Proof.
  revert i. induction ll as [|k ll IH]; intros [|i] Hi Hl; cbn in *; simplify_eq.
  - by rewrite Hl.
  - rewrite (IH i) by done. by rewrite Permutation_middle.
Qed.

Lemma elem_of_list_at (fl : list (list Z)) mt l p : zlookup fl mt = Some l → p ∈ l → p ∈ concat fl.
Proof.
  unfold zlookup. case_test; [|done]. intros Hl Hp. apply list_elem_of_In, in_concat. exists l.
  split; [|by apply list_elem_of_In]. apply list_elem_of_In. by eapply list_elem_of_lookup_2.
Qed.

Lemma array_set_lookup {A} (l : list A) i (a b : A) :
  zlookup l i = Some a →
  ∃ l', array_set l i b = Ret l' ∧ l' = <[Z.to_nat i := b]> l ∧
    (∀ j, zlookup l' j = if decide (j = i) then Some b else zlookup l j).
Proof.
  intros Hi. pose proof (zlookup_Some _ _ _ Hi). rewrite array_set_in by done. eexists. split; [done|].
  split; [done|]. intros j. case_decide as Hj; [subst; by rewrite zlookup_insert_eq|].
  apply zlookup_insert_ne; lia.
Qed.

(** a page put on a list, at either end *)
Lemma set_list_rep (P : Z → Prop) z BL BC BF o mt l l' p :
  rep z BL BC BF → 0 ≤ o < MAX_ORDER → 0 ≤ mt < MIGRATE_TYPES → BL !! p = None →
  get_list z o mt = Ret l → l' ≡ₚ p :: l →
  ∃ z', set_list o mt l' z = Ret z' ∧ rep z' (<[p := o]> BL) BC BF ∧ changes P z z'.
Proof.
  intros HR Ho Hm Hp Hl Hperm. destruct (get_list_ok z BL BC BF o mt) as (a & l0 & E & Ha & Hl0); [done..|].
  rewrite E in Hl. simplify_eq. pose proof HR as [_ [HL1 HL2] HC _ _]. unfold set_list, array_get. rewrite Ha.
  cbn [mbind cres_bind]. destruct (array_set_lookup (free_list a) mt l l' Hl0) as (fl & -> & Hfl & _).
  cbn [mbind cres_bind].
  destruct (array_set_lookup (free_areas z) o a (FreeArea fl (nr_free a)) Ha) as (areas & -> & Hareas & Hlook).
  cbn [mbind cres_bind]. eexists. split; [done|]. split; [|done].
  destruct (HL2 o a Ha) as (Hlen & Hnd & Hin).
  assert (concat fl ≡ₚ p :: concat (free_list a)) as Hcat.
  { rewrite Hfl. apply concat_insert with l; [|done]. unfold zlookup in Hl0. by destruct (0 <=? mt). }
  eapply rep_areas; [done|split|].
  - subst areas. by rewrite zlength_insert.
  - intros o' a' Ha'. rewrite Hlook in Ha'. case_decide as Ho'.
    + subst o'. simplify_eq. cbn. split; [by rewrite zlength_insert|]. split.
      * rewrite Hcat. apply NoDup_cons. split; [|done]. rewrite Hin. congruence.
      * intros q. rewrite Hcat, elem_of_cons, Hin. destruct (decide (q = p)) as [->|];
          [rewrite lookup_insert_eq; tauto|rewrite lookup_insert_ne by done; naive_solver].
    + destruct (HL2 o' a' Ha') as (? & ? & Hin'). split; [done|]. split; [done|].
      intros q. rewrite Hin'. destruct (decide (q = p)) as [->|].
      * rewrite lookup_insert_eq. rewrite Hp. split; [done|]. intros [= <-]. done.
      * by rewrite lookup_insert_ne.
  - intros o' a' Ha'. rewrite Hlook in Ha'. case_decide; [simplify_eq; by apply (HC o a)|by apply HC].
Qed.

Lemma list_add_rep (P : Z → Prop) (tail : bool) z BL BC BF o mt p :
  rep z BL BC BF → 0 ≤ o < MAX_ORDER → 0 ≤ mt < MIGRATE_TYPES → BL !! p = None →
  ∃ z', (if tail then list_add_tail p o mt z else list_add p o mt z) = Ret z' ∧
    rep z' (<[p := o]> BL) BC BF ∧ changes P z z'.
Proof.
  intros HR Ho Hm Hp. destruct (get_list_ok z BL BC BF o mt) as (a & l & E & _); [done..|].
  destruct tail; [unfold list_add_tail|unfold list_add]; rewrite E; cbn [mbind cres_bind];
    eapply set_list_rep; try done. by rewrite Permutation_app_comm.
Qed.

Lemma concat_filter (f : Z → bool) ll : concat (map (List.filter f) ll) = List.filter f (concat ll).
Proof. induction ll as [|l ll IH]; [done|]. cbn. by rewrite IH, List.filter_app. Qed.

Lemma on_list_true z BL BC BF p o :
  rep z BL BC BF → BL !! p = Some o → 0 ≤ o < MAX_ORDER → on_list p z = true.
Proof.
  intros [_ [HL1 HL2] _ _ _] Hp Ho. destruct (zlookup_is_Some (free_areas z) o) as [a Ha]; [lia|].
  destruct (HL2 o a Ha) as (_ & _ & Hin). apply Hin, list_elem_of_In, in_concat in Hp as (l & Hl & Hpl).
  unfold on_list. apply existsb_exists. exists a. split.
  - unfold zlookup in Ha. destruct (0 <=? o); [|done]. apply list_elem_of_In. by eapply list_elem_of_lookup_2.
  - apply existsb_exists. exists l. split; [done|]. apply existsb_exists. exists p. split; [done|]. apply Z.eqb_refl.
Qed.

Lemma zlookup_map {A B} (f : A → B) l i : zlookup (map f l) i = f <$> zlookup l i.
Proof. unfold zlookup. case_test; [|done]. apply list_lookup_fmap. Qed.

Lemma list_del_rep (P : Z → Prop) z BL BC BF p o :
  rep z BL BC BF → BL !! p = Some o → 0 ≤ o < MAX_ORDER →
  ∃ z', list_del p z = Ret z' ∧ rep z' (delete p BL) BC BF ∧ changes P z z'.
Proof.
  intros HR Hp Ho. unfold list_del. rewrite (on_list_true z BL BC BF p o) by done.
  eexists. split; [done|]. split; [|done]. pose proof HR as [_ [HL1 HL2] HC _ _].
  eapply rep_areas; [done|split|].
  - rewrite <- HL1. apply zlength_fmap.
  - intros o' a' Ha'. rewrite zlookup_map in Ha'. destruct (zlookup (free_areas z) o') as [a|] eqn:Ha; [|done].
    cbn in Ha'. simplify_eq. destruct (HL2 o' a Ha) as (Hlen & Hnd & Hin). cbn.
    split; [rewrite <- Hlen; apply zlength_fmap|]. rewrite concat_filter. split.
    + apply NoDup_ListNoDup, List.NoDup_filter. by apply NoDup_ListNoDup.
    + intros q. rewrite list_elem_of_In, filter_In, <- list_elem_of_In, Hin, negb_true_iff, Z.eqb_neq.
      destruct (decide (q = p)) as [->|]; [rewrite lookup_delete_eq|rewrite lookup_delete_ne by done]; naive_solver.
  - intros o' a' Ha'. rewrite zlookup_map in Ha'. destruct (zlookup (free_areas z) o') as [a|] eqn:Ha; [|done].
    cbn in Ha'. simplify_eq. cbn. by apply HC.
Qed.

(** *** Counters *)

Lemma add_nr_free_rep (P : Z → Prop) z BL BC BF o d (BC' : gmap Z Z) :
  rep z BL BC BF → 0 ≤ o < MAX_ORDER →
  Z.of_nat (size (of_order o BC')) = Z.of_nat (size (of_order o BC)) + d →
  (∀ o', o' ≠ o → size (of_order o' BC') = size (of_order o' BC)) →
  ∃ z', add_nr_free o d z = Ret z' ∧ rep z' BL BC' BF ∧ changes P z z'.
Proof.
  intros HR Ho Hd Hne. pose proof HR as [_ [HL1 HL2] HC _ _].
  destruct (zlookup_is_Some (free_areas z) o) as [a Ha]; [lia|]. unfold add_nr_free, array_get. rewrite Ha.
  cbn [mbind cres_bind].
  destruct (array_set_lookup (free_areas z) o a (FreeArea (free_list a) (nr_free a + d)) Ha) as (areas & -> & Hareas & Hlook).
  cbn [mbind cres_bind]. eexists. split; [done|]. split; [|done]. eapply rep_areas; [done|split|].
  - subst areas. by rewrite zlength_insert.
  - intros o' a' Ha'. rewrite Hlook in Ha'. case_decide; [simplify_eq; exact (HL2 o a Ha)|by apply HL2].
  - intros o' a' Ha'. rewrite Hlook in Ha'. case_decide as Ho'; simplify_eq.
    + cbn. rewrite (HC o a Ha). lia.
    + rewrite (HC o' a' Ha'). by rewrite Hne.
Qed.

Lemma size_of_order_insert B p o o' : B !! p = None →
  size (of_order o' (<[p := o]> B)) = (size (of_order o' B) + if decide (o = o') then 1 else 0)%nat.
Proof.
  intros Hp. unfold of_order. case_decide as Ho.
  - rewrite map_filter_insert_True by done. rewrite map_size_insert_None; [lia|].
    apply map_lookup_filter_None. by left.
  - rewrite map_filter_insert_False by done. rewrite delete_id by done. lia.
Qed.

Lemma nr_free_inc (P : Z → Prop) z BL BC BF p o :
  rep z BL BC BF → 0 ≤ o < MAX_ORDER → BC !! p = None →
  ∃ z', add_nr_free o 1 z = Ret z' ∧ rep z' BL (<[p := o]> BC) BF ∧ changes P z z'.
Proof.
  intros HR Ho Hp. apply (add_nr_free_rep P z BL BC BF o 1); [done..| |].
  - rewrite size_of_order_insert, decide_True by done. lia.
  - intros o' Ho'. rewrite size_of_order_insert, decide_False by done. lia.
Qed.

Lemma nr_free_dec (P : Z → Prop) z BL BC BF p o :
  rep z BL BC BF → 0 ≤ o < MAX_ORDER → BC !! p = Some o →
  ∃ z', add_nr_free o (-1) z = Ret z' ∧ rep z' BL (delete p BC) BF ∧ changes P z z'.
Proof.
  intros HR Ho Hp. rewrite <- (insert_delete_id BC p o Hp) in HR.
  assert (delete p BC !! p = None) as Hd by apply lookup_delete_eq.
  apply (add_nr_free_rep P z BL _ BF o (-1) (delete p BC)) in HR; [done..| |].
  - rewrite size_of_order_insert, decide_True by done. lia.
  - intros o' Ho'. rewrite size_of_order_insert, decide_False by done. lia.
Qed.

(** ** The free blocks *)

Definition in_block (p o x : Z) : Prop := p ≤ x < p + 2 ^ o.

Record blocks_ok (z : zone) (B : gmap Z Z) : Prop := {
  block_order : ∀ p o, B !! p = Some o → 0 ≤ o < MAX_ORDER ∧ aligned o p;
  block_zone : ∀ p o x, B !! p = Some o → in_block p o x → in_zone z x;
  block_disjoint : ∀ p o q o' x, B !! p = Some o → B !! q = Some o' →
    in_block p o x → in_block q o' x → p = q;
  block_coalesced : ∀ p o, B !! p = Some o → o < MAX_ORDER - 1 → B !! buddy p o ≠ Some o
}.

(** page [x] is free *)
Definition covered (B : gmap Z Z) (x : Z) : Prop := ∃ p o, B !! p = Some o ∧ in_block p o x.

(** the number of free pages *)
Definition total (B : gmap Z Z) : Z := map_fold (λ _ o n, n + 2 ^ o) 0 B.

Lemma total_insert B p o : B !! p = None → total (<[p := o]> B) = total B + 2 ^ o.
Proof. intros Hp. unfold total. rewrite map_fold_insert_L; [done|intros; lia|done]. Qed.
Lemma total_delete B p o : B !! p = Some o → total (delete p B) = total B - 2 ^ o.
Proof.
  intros Hp. rewrite <- (insert_delete_id B p o Hp) at 2. rewrite total_insert by apply lookup_delete_eq. lia.
Qed.

(** a block that may be freed *)
Record unused (z : zone) (B : gmap Z Z) (p o : Z) : Prop := {
  unused_order : 0 ≤ o < MAX_ORDER;
  unused_aligned : aligned o p;
  unused_zone : ∀ x, in_block p o x → in_zone z x;
  unused_free : ∀ x, in_block p o x → ¬ covered B x
}.

Lemma block_first p o : 0 ≤ o → in_block p o p.
Proof. intros Ho. unfold in_block. pose proof (pow_pos o Ho). lia. Qed.

Lemma blocks_same_zone P z z' B : changes P z z' → blocks_ok z B → blocks_ok z' B.
Proof.
  intros Hz [H1 H2 H3 H4]. split; [done| |done|done]. intros p o x Hp Hx. apply (same_in_zone z z'); [apply Hz|by eapply H2].
Qed.
Lemma unused_same_zone P z z' B p o : changes P z z' → unused z B p o → unused z' B p o.
Proof. intros Hz [H1 H2 H3 H4]. split; [done|done| |done]. intros x Hx. apply (same_in_zone z z'); [apply Hz|auto]. Qed.

Lemma unused_none z B p o : blocks_ok z B → unused z B p o → B !! p = None.
Proof.
  intros HB HU. destruct (B !! p) as [o'|] eqn:E; [|done]. exfalso.
  destruct (block_order _ _ HB _ _ E) as [Ho' _]. pose proof (unused_order _ _ _ _ HU).
  apply (unused_free _ _ _ _ HU p); [apply block_first; lia|]. exists p, o'. split; [done|]. apply block_first. lia.
Qed.
Lemma unused_in_zone z B p o : unused z B p o → in_zone z p.
Proof. intros HU. apply HU, block_first. apply HU. Qed.

Lemma blocks_delete z B p : blocks_ok z B → blocks_ok z (delete p B).
Proof.
  intros [H1 H2 H3 H4]. split.
  - intros q o [_ Hq]%lookup_delete_Some. by apply H1.
  - intros q o x [_ Hq]%lookup_delete_Some Hx. by eapply H2.
  - intros q o q' o' x [_ Hq]%lookup_delete_Some [_ Hq']%lookup_delete_Some Hx Hx'. by eapply H3.
  - intros q o [_ Hq]%lookup_delete_Some Ho [_ Hb]%lookup_delete_Some. by apply (H4 q o).
Qed.

Lemma covered_delete z B p o x :
  blocks_ok z B → B !! p = Some o → covered (delete p B) x ↔ covered B x ∧ ¬ in_block p o x.
Proof.
  intros HB Hp. split.
  - intros (q & o' & [Hne Hq]%lookup_delete_Some & Hx). split; [by exists q, o'|].
    intros Hx'. apply Hne. by eapply (block_disjoint _ _ HB p o q o' x).
  - intros [(q & o' & Hq & Hx) Hx']. exists q, o'. split; [|done]. apply lookup_delete_Some.
    split; [|done]. intros <-. congruence.
Qed.

Lemma covered_insert B p o x :
  B !! p = None → covered (<[p := o]> B) x ↔ covered B x ∨ in_block p o x.
Proof.
  intros Hp. split.
  - intros (q & o' & [[<- <-]|[Hne Hq]]%lookup_insert_Some & Hx); [by right|left; by exists q, o'].
  - intros [(q & o' & Hq & Hx)|Hx].
    + exists q, o'. split; [|done]. rewrite lookup_insert_ne; [done|]. congruence.
    + exists p, o. by rewrite lookup_insert_eq.
Qed.

Lemma blocks_insert z B p o :
  blocks_ok z B → unused z B p o → (o < MAX_ORDER - 1 → B !! buddy p o ≠ Some o) →
  blocks_ok z (<[p := o]> B).
Proof.
  intros HB HU Hb. pose proof HB as [H1 H2 H3 H4]. pose proof HU as [U1 U2 U3 U4]. split.
  - intros q o' [[<- <-]|[_ Hq]]%lookup_insert_Some; [done|by apply H1].
  - intros q o' x [[<- <-]|[_ Hq]]%lookup_insert_Some Hx; [by apply U3|by eapply H2].
  - intros q o1 q' o2 x [[<- <-]|[Hne Hq]]%lookup_insert_Some [[<- <-]|[Hne' Hq']]%lookup_insert_Some Hx Hx'.
    + done.
    + exfalso. apply (U4 x Hx). by exists q', o2.
    + exfalso. apply (U4 x Hx'). by exists q, o1.
    + by eapply H3.
  - intros q o' [[<- <-]|[Hne Hq]]%lookup_insert_Some Ho'.
    + rewrite lookup_insert_ne; [by apply Hb|]. unfold buddy. pose proof (pow_pos o). case_test; lia.
    + intros [[Hqp Hoo]|[_ Hqb]]%lookup_insert_Some; [|by apply (H4 q o')]. subst o'.
      destruct (H1 _ _ Hq) as [? ?]. apply Hb; [done|]. rewrite Hqp, buddy_involutive by (done || lia). done.
Qed.

(** two pages of one largest block *)
Lemma same_pageblock k q x y :
  0 ≤ k ≤ pageblock_order → aligned k q → in_block q k x → in_block q k y →
  x / pageblock_nr_pages = y / pageblock_nr_pages.
Proof.
  intros Hk [m ->] Hx Hy. unfold in_block in *. assert (0 < 2 ^ k) by (apply pow_pos; lia).
  assert (pageblock_nr_pages = 2 ^ k * 2 ^ (pageblock_order - k)) as ->.
  { unfold pageblock_nr_pages. rewrite Z.shiftl_1_l, <- Z.pow_add_r by lia. f_equal. lia. }
  assert (0 < 2 ^ (pageblock_order - k)) by (apply pow_pos; lia).
  rewrite <- !Z.div_div by lia. f_equal.
  trans m; [symmetry; apply (Z.div_unique x _ _ (x - m * 2 ^ k))|apply (Z.div_unique y _ _ (y - m * 2 ^ k))]; lia.
Qed.

Lemma page_is_buddy_ok z BL BC BF p b o :
  rep z BL BC BF → (∀ q o', BF !! q = Some o' → in_zone z q) → in_zone z p →
  is_Some (mem_map z !! b) →
  page_is_buddy z p b o = Ret (bool_decide (BF !! b = Some o)).
Proof.
  intros [HZ _ _ HF _] HB Hp [bg Hb]. destruct (zone_pages _ HZ p Hp) as (pg & Hpg & Hz).
  unfold page_is_buddy, get_page. rewrite Hpg, Hb. cbn [mbind cres_bind]. f_equal.
  destruct (Z.eqb_spec (page_zone pg) (page_zone bg)) as [Heq|Hne]; cbn.
  - specialize (HF b bg Hb ltac:(congruence)). destruct (BF !! b) as [o'|] eqn:E.
    + destruct HF as [-> Hpr]. unfold page_order. rewrite Hpr. cbn.
      destruct (Z.eqb_spec o' o); case_bool_decide; congruence.
    + rewrite HF. cbn. case_bool_decide; congruence.
  - case_bool_decide as Hbo; [|done]. exfalso. apply Hne. destruct (zone_pages _ HZ b (HB _ _ Hbo)) as (bg' & ? & ?).
    congruence.
Qed.

(** ** Freeing *)

Lemma halves_in_parent p o x :
  0 ≤ o → aligned o p → in_block p o x ∨ in_block (buddy p o) o x → in_block (parent p o) (o + 1) x.
Proof. intros Ho Ha. apply parent_halves; [done..]. Qed.

(** pages in the same block of twice the size have their [struct page] *)
Lemma near_mapped z p o x :
  zone_ok z → in_zone z p → 0 ≤ o < pageblock_order → aligned o p →
  in_block (parent p o) (o + 1) x → is_Some (mem_map z !! x).
Proof.
  intros HZ Hp Ho Ha Hx. apply (zone_whole _ HZ p); [done|].
  apply (same_pageblock (o + 1) (parent p o)); [lia|by apply aligned_parent; [lia|]| |done].
  apply halves_in_parent; [lia|done|]. left. apply block_first. lia.
Qed.

Lemma buddy_mapped z p o :
  zone_ok z → in_zone z p → 0 ≤ o < pageblock_order → aligned o p → is_Some (mem_map z !! buddy p o).
Proof.
  intros. apply (near_mapped z p o); [done..|]. apply halves_in_parent; [lia|done|].
  right. apply block_first. lia.
Qed.

Lemma merge_unused z B p o :
  blocks_ok z B → unused z B p o → o < MAX_ORDER - 1 → B !! buddy p o = Some o →
  unused z (delete (buddy p o) B) (parent p o) (o + 1) ∧
  ∀ x, covered (delete (buddy p o) B) x ∨ in_block (parent p o) (o + 1) x ↔ covered B x ∨ in_block p o x.
Proof.
  intros HB [U1 U2 U3 U4] Ho Hb. unfold MAX_ORDER in *.
  pose proof (parent_halves p o ltac:(lia) U2) as Hh. change (∀ x, in_block (parent p o) (o + 1) x ↔
    in_block p o x ∨ in_block (buddy p o) o x) in Hh.
  assert (∀ x, in_block (buddy p o) o x → covered B x) as Hbc by (intros x Hx; by exists (buddy p o), o).
  split; [split|].
  - unfold MAX_ORDER. lia.
  - apply aligned_parent; [lia|done].
  - intros x [Hx|Hx]%Hh; [by apply U3|by eapply (block_zone _ _ HB)].
  - intros x Hx. rewrite (covered_delete z B (buddy p o) o) by done. intros [Hc Hn].
    apply Hh in Hx as [Hx|Hx]; [by apply (U4 x)|done].
  - intros x. rewrite (covered_delete z B (buddy p o) o), Hh by done.
    assert (in_block (buddy p o) o x ∨ ¬ in_block (buddy p o) o x) by (unfold in_block; lia).
    specialize (Hbc x). tauto.
Qed.

(** the order in which the loop stops and what it leaves *)
Record merged_block (z : zone) (B : gmap Z Z) (p o : Z) (buddy_idx : option Z) : Prop := {
  mb_rep : represents z B;
  mb_blocks : blocks_ok z B;
  mb_unused : unused z B p o;
  mb_buddy : o < MAX_ORDER - 1 →
    B !! buddy p o ≠ Some o ∧ buddy_idx = Some (__find_buddy_index (index p) o)
}.

Lemma represents_buddies z B q o : blocks_ok z B → B !! q = Some o → in_zone z q.
Proof.
  intros HB Hq. apply (block_zone _ _ HB q o); [done|]. apply block_first.
  destruct (block_order _ _ HB _ _ Hq). lia.
Qed.

(** taking the buddy out of the lists *)
Lemma take_buddy (P : Z → Prop) z B b o :
  represents z B → blocks_ok z B → B !! b = Some o → P b →
  ∃ z1 z2 z3, list_del b z = Ret z1 ∧ add_nr_free o (-1) z1 = Ret z2 ∧ rmv_page_order b z2 = Ret z3 ∧
    represents z3 (delete b B) ∧ changes P z z3.
Proof.
  intros HR HB Hb HP. destruct (block_order _ _ HB _ _ Hb) as [Ho _].
  destruct (list_del_rep P z B B B b o) as (z1 & E1 & R1 & S1); [done..|].
  destruct (nr_free_dec P z1 (delete b B) B B b o) as (z2 & E2 & R2 & S2); [done..|].
  destruct (rmv_page_order_rep P z2 (delete b B) (delete b B) B b) as (z3 & E3 & R3 & S3); [done| |done|].
  { apply (same_in_zone z1 z2); [by eapply changes_zone|]. apply (same_in_zone z z1); [by eapply changes_zone|]. by eapply represents_buddies. }
  exists z1, z2, z3. split_and!; [done..|]. etrans; [done|]. by etrans.
Qed.

Lemma free_loop_correct (P : Z → Prop) fuel p o bi z B :
  represents z B → blocks_ok z B → unused z B p o → MAX_ORDER - o ≤ Z.of_nat fuel → (0 < fuel)%nat →
  (∀ x, covered B x ∨ in_block p o x → P x) →
  ∃ p' o' bi' z' B', free_loop fuel p (index p) o bi z = Ret (p', index p', o', bi', z') ∧
    merged_block z' B' p' o' bi' ∧ changes P z z' ∧
    (∀ x, covered B' x ∨ in_block p' o' x ↔ covered B x ∨ in_block p o x) ∧
    total B' + 2 ^ o' = total B + 2 ^ o.
Proof.
  revert p o bi z B. induction fuel as [|fuel IH]; intros p o bi z B HR HB HU Hf Hf0 HP; [lia|].
  cbn [free_loop]. pose proof (unused_order _ _ _ _ HU) as Ho.
  destruct (Z.ltb_spec o (MAX_ORDER - 1)) as [Hlt|Hge].
  2: { exists p, o, bi, z, B. split; [done|]. split; [|done]. split; [done..|]. lia. }
  rewrite find_buddy by done.
  rewrite (page_is_buddy_ok z B B B) by
    (done || (by apply (unused_in_zone _ B _ o)) || (intros; by eapply represents_buddies) ||
     (apply buddy_mapped; [apply HR|by apply (unused_in_zone _ B _ o)|unfold pageblock_order; lia|apply HU])).
  cbn [mbind cres_bind]. case_bool_decide as Hb; cbn [negb].
  - destruct (take_buddy P z B (buddy p o) o) as (z1 & z2 & z3 & -> & E2 & E3 & R3 & S3); [done..| |].
    { apply HP. left. exists (buddy p o), o. split; [done|]. apply block_first. lia. }
    cbn [mbind cres_bind]. rewrite E2. cbn [mbind cres_bind]. rewrite E3. cbn [mbind cres_bind].
    destruct (find_parent p o Ho) as [Hp1 Hp2]. rewrite Hp1, Hp2.
    destruct (merge_unused z B p o) as [HU' Hcov]; [done..|].
    destruct (IH (parent p o) (o + 1) (Some (__find_buddy_index (index p) o)) z3 (delete (buddy p o) B))
      as (p' & o' & bi' & z' & B' & -> & Hm & Hs & Hc & Ht).
    + done.
    + eapply blocks_same_zone; [done|]. by apply blocks_delete.
    + by eapply unused_same_zone.
    + lia.
    + lia.
    + intros x Hx. by apply HP, Hcov.
    + exists p', o', bi', z', B'. split; [done|]. split; [done|]. split; [by etrans|]. split.
      * intros x. rewrite Hc. apply Hcov.
      * rewrite Ht, (total_delete B (buddy p o) o), pow_succ by (done || lia). lia.
  - exists p, o, (Some (__find_buddy_index (index p) o)), z, B. split; [done|]. split; [|done]. by split.
Qed.

(** the page the code takes for the buddy of the block one order higher: its
    distance is counted from [page], not from the first page of that block *)
Definition looked_at (p o : Z) : Z := p + (buddy (parent p o) (o + 1) - parent p o).

(** the choice between head and tail of the list is made without leaving the
    page map *)
Lemma to_tail_safe z p o bi :
  zone_ok z → in_zone z p → aligned o p → 0 ≤ o →
  (o < MAX_ORDER - 1 → bi = Some (__find_buddy_index (index p) o)) →
  ∃ b, to_tail p (index p) o bi z = Ret b.
Proof.
  intros HZ Hp Ha Ho Hbi. unfold to_tail. destruct (Z.ltb_spec o (MAX_ORDER - 2)) as [Hlt|]; [|by eexists].
  rewrite Hbi by lia. unfold MAX_ORDER in Hlt.
  destruct (find_parent p o) as [Hp1 Hp2]; [unfold MAX_ORDER; lia|]. rewrite Hp1, Hp2.
  pose proof (find_buddy (parent p o) (o + 1) ltac:(unfold MAX_ORDER; lia)) as Hfb.
  assert (aligned (o + 1) (parent p o)) as Ha' by (by apply aligned_parent).
  assert (in_block (parent p o) (o + 1) p) as Hpp by (apply halves_in_parent; [done..|]; left; by apply block_first).
  set (hb := p + _). assert (hb = looked_at p o) as -> by (unfold looked_at, hb; lia).
  assert (∀ x, in_block (parent p o) (o + 1) x ∨ in_block (buddy (parent p o) (o + 1)) (o + 1) x → is_Some (mem_map z !! x)) as Hmap.
  { intros x Hx. apply (zone_whole _ HZ p); [done|].
    apply (same_pageblock (o + 1 + 1) (parent (parent p o) (o + 1))).
    - unfold pageblock_order, MAX_ORDER. lia.
    - apply aligned_parent; [lia|done].
    - apply halves_in_parent; [lia|done|by left].
    - apply halves_in_parent; [lia|done|done]. }
  destruct (Hmap (parent p o)) as [pg Hpg]; [left; apply block_first; lia|].
  destruct (Hmap (looked_at p o)) as [bg Hbg]; [right; unfold looked_at, in_block in *; lia|].
  unfold page_is_buddy, get_page. rewrite Hpg, Hbg. by eexists.
Qed.

Lemma free_one_page_ok z B p o mt :
  represents z B → blocks_ok z B → unused z B p o → 0 ≤ mt < MIGRATE_TYPES →
  ∃ z' B', __free_one_page p o mt z = Ret z' ∧ represents z' B' ∧ blocks_ok z' B' ∧
    (∀ x, covered B' x ↔ covered B x ∨ in_block p o x) ∧ total B' = total B + 2 ^ o ∧
    changes (λ x, covered B x ∨ in_block p o x) z z'.
Proof.
  intros HR HB HU Hmt. set (P := λ x, covered B x ∨ in_block p o x). unfold __free_one_page. change (Z.land p (Z.shiftl 1 MAX_ORDER - 1)) with (index p).
  destruct (free_loop_correct P (Z.to_nat MAX_ORDER) p o None z B)
    as (p' & o' & bi & z1 & B1 & -> & [R1 B1ok U1 Hbud] & S1 & Hcov & Htot); [done..| |unfold MAX_ORDER; lia|done|].
  { pose proof (unused_order _ _ _ _ HU). unfold MAX_ORDER in *. lia. }
  cbn [mbind cres_bind]. pose proof (unused_none _ _ _ _ B1ok U1) as Hnone.
  pose proof (unused_in_zone _ _ _ _ U1) as Hpz. pose proof (unused_order _ _ _ _ U1) as Ho'.
  assert (P p') as HPp by (apply Hcov; right; apply block_first; lia).
  destruct (set_page_order_rep P z1 B1 B1 B1 p' o') as (z2 & -> & R2 & S2); [done..|]. cbn [mbind cres_bind].
  destruct (to_tail_safe z2 p' o' bi) as [b ->].
  { apply R2. } { by apply (same_in_zone z1 z2); [eapply changes_zone|]. } { apply U1. } { lia. } { intros. by apply Hbud. }
  cbn [mbind cres_bind]. destruct (list_add_rep P b z2 B1 B1 (<[p' := o']> B1) o' mt p') as (z3 & -> & R3 & S3); [done..|].
  cbn [mbind cres_bind].
  destruct (nr_free_inc P z3 (<[p' := o']> B1) B1 (<[p' := o']> B1) p' o') as (z4 & -> & R4 & S4); [done..|].
  exists z4, (<[p' := o']> B1). split; [done|]. split; [done|].
  assert (changes P z1 z4) as S14 by (etrans; [done|]; by etrans). split_and!.
  - eapply blocks_same_zone; [done|]. apply blocks_insert; [done..|]. intros. by apply Hbud.
  - intros x. rewrite covered_insert by done. apply Hcov.
  - rewrite total_insert by done. done.
  - by etrans.
Qed.

(** the comparison with the next higher order never succeeds for the upper half
    of a pair, even when the buddy one order higher is free *)
Lemma upper_half_not_tail z BL BC BF p o :
  rep z BL BC BF → (∀ q o', BF !! q = Some o' → in_zone z q ∧ aligned o' q) →
  in_zone z p → in_zone z (parent p o) → aligned o p → 0 ≤ o → Z.testbit p o = true →
  to_tail p (index p) o (Some (__find_buddy_index (index p) o)) z = Ret false.
Proof.
  intros HR HB Hp Hpp Ha Ho Ht.
  destruct (to_tail_safe z p o (Some (__find_buddy_index (index p) o))) as [b Hb]; [apply HR|done..|].
  rewrite Hb. f_equal. destruct b; [exfalso|done]. unfold to_tail in Hb.
  destruct (Z.ltb_spec o (MAX_ORDER - 2)) as [Hlt|]; [|done]. unfold MAX_ORDER in Hlt.
  destruct (find_parent p o) as [Hp1 Hp2]; [unfold MAX_ORDER; lia|]. rewrite Hp1, Hp2 in Hb.
  pose proof (find_buddy (parent p o) (o + 1) ltac:(unfold MAX_ORDER; lia)) as Hfb.
  replace (p + _) with (looked_at p o) in Hb by (unfold looked_at; lia).
  assert (is_Some (mem_map z !! looked_at p o)) as Hm.
  { unfold page_is_buddy, get_page in Hb. destruct (mem_map z !! parent p o); [|done].
    destruct (mem_map z !! looked_at p o); [by eexists|done]. }
  rewrite (page_is_buddy_ok z BL BC BF) in Hb by (done || (intros; by eapply HB)).
  injection Hb as Hb. apply bool_decide_eq_true in Hb. destruct (HB _ _ Hb) as [_ [k Hk]].
  assert (aligned (o + 1) (buddy (parent p o) (o + 1))) as [k' Hk'].
  { apply aligned_buddy; [lia|]. by apply aligned_parent. }
  unfold looked_at in Hk. rewrite Hk' in Hk. unfold parent in Hk. rewrite Ht, pow_succ in Hk by lia.
  pose proof (pow_pos o Ho). assert ((2 * k' + 1 - 2 * k) * 2 ^ o = 0) as Hz by lia.
  apply Z.mul_eq_0 in Hz. lia.
Qed.

(** ** Allocating *)

Lemma split_unused z B p o :
  0 ≤ o → unused z B p (o + 1) →
  unused z B (p + 2 ^ o) o ∧ unused z (<[p + 2 ^ o := o]> B) p o.
Proof.
  intros Ho [U1 U2 U3 U4]. pose proof (pow_pos o Ho) as Hpos. pose proof (pow_succ o Ho) as Hs.
  assert (∀ x, in_block p (o + 1) x ↔ in_block p o x ∨ in_block (p + 2 ^ o) o x) as Hh.
  { intros x. unfold in_block. rewrite Hs. lia. }
  assert (aligned o p) as Ha by (apply (aligned_weaken o (o + 1)); [lia|done]).
  split; split; try lia; try done.
  - destruct Ha as [k ->]. exists (k + 1). lia.
  - intros x Hx. apply U3, Hh. by right.
  - intros x Hx. apply U4, Hh. by right.
  - intros x Hx. apply U3, Hh. by left.
  - intros x Hx (q & o' & [[<- <-]|[_ Hq]]%lookup_insert_Some & Hq').
    + unfold in_block in *. lia.
    + apply (U4 x); [apply Hh; by left|]. by exists q, o'.
Qed.

Lemma expand_correct (P : Z → Prop) n p high mt z B :
  represents z B → blocks_ok z B → unused z B p high → Z.of_nat n ≤ high → 0 ≤ mt < MIGRATE_TYPES →
  (∀ x, in_block p high x → P x) →
  ∃ z' B', expand n p high mt z = Ret z' ∧ represents z' B' ∧ blocks_ok z' B' ∧
    unused z' B' p (high - Z.of_nat n) ∧ changes P z z' ∧
    (∀ x, covered B' x ∨ in_block p (high - Z.of_nat n) x ↔ covered B x ∨ in_block p high x) ∧
    total B' + 2 ^ (high - Z.of_nat n) = total B + 2 ^ high.
Proof.
  intros HR HB HU Hn Hmt. revert high z B HR HB HU Hn.
  induction n as [|n IH]; intros high z B HR HB HU Hn HP.
  { exists z, B. rewrite Z.sub_0_r. by split_and!. }
  assert (∃ o, high = o + 1) as [o ->] by (exists (high - 1); lia).
  cbn [expand]. rewrite Z.shiftl_1_l, Z.add_simpl_r. set (q := p + 2 ^ o). destruct (split_unused z B p o) as [Uq Up]; [lia|done|].
  fold q in Uq, Up. pose proof (unused_none _ _ _ _ HB Uq) as Hq. pose proof (unused_order _ _ _ _ Uq) as Ho.
  destruct (list_add_rep P false z B B B o mt q) as (z1 & -> & R1 & S1); [done..|]. cbn [mbind cres_bind].
  destruct (nr_free_inc P z1 (<[q := o]> B) B B q o) as (z2 & -> & R2 & S2); [done..|]. cbn [mbind cres_bind].
  assert (changes P z z2) as S02 by (by etrans).
  destruct (set_page_order_rep P z2 (<[q := o]> B) (<[q := o]> B) B q o) as (z3 & -> & R3 & S3); [done| | |].
  { apply (same_in_zone z z2); [by eapply changes_zone|]. by eapply unused_in_zone. }
  { apply HP. unfold in_block, q. pose proof (pow_pos o). rewrite pow_succ; lia. }
  cbn [mbind cres_bind]. assert (changes P z z3) as S03 by (by etrans).
  destruct (IH o z3 (<[q := o]> B)) as (z' & B' & E & R' & B'ok & U' & S' & Hc & Ht).
  - done.
  - eapply blocks_same_zone; [done|]. apply blocks_insert; [done..|]. intros _.
    destruct (buddy_upper p o) as [Hbp _]; [lia|apply HU|]. fold q in Hbp. rewrite Hbp, (unused_none _ _ _ _ HB HU). done.
  - by eapply unused_same_zone.
  - lia.
  - intros x Hx. apply HP. unfold in_block in *. pose proof (pow_pos o). rewrite pow_succ; lia.
  - exists z', B'. replace (o + 1 - Z.of_nat (S n)) with (o - Z.of_nat n) by lia.
    split_and!; [done..|by etrans| |].
    2: { rewrite Ht, total_insert, pow_succ by (done || lia). lia. }
    intros x. rewrite Hc, covered_insert by done. unfold in_block, q. rewrite pow_succ by lia. pose proof (pow_pos o). split; [|intros [?|?]; [by auto|]].
    + intros [[?|?]|?]; [by left|right; lia|right; lia].
    + destruct (Z.lt_ge_cases x (p + 2 ^ o)); [right; lia|left; right; lia].
Qed.

(** what an allocation does *)
Definition allocated (z : zone) (B : gmap Z Z) (order : Z) (p : Z) (z' : zone) : Prop :=
  ∃ B', represents z' B' ∧ blocks_ok z' B' ∧ unused z' B' p order ∧
    (∀ x, covered B x ↔ covered B' x ∨ in_block p order x) ∧
    total B = total B' + 2 ^ order ∧ changes (covered B) z z'.

(** after the first page of a free block was taken off its list *)
Lemma expand_taken z0 z B p order cur mt :
  blocks_ok z0 B → changes (covered B) z0 z → B !! p = Some cur → represents z (delete p B) →
  0 ≤ order ≤ cur → 0 ≤ mt < MIGRATE_TYPES →
  ∃ z', expand (Z.to_nat (cur - order)) p cur mt z = Ret z' ∧ allocated z0 B order p z'.
Proof.
  intros HB Hs Hp HR Ho Hmt. destruct (block_order _ _ HB _ _ Hp) as [Hcur Ha].
  destruct (expand_correct (covered B) (Z.to_nat (cur - order)) p cur mt z (delete p B))
    as (z' & B' & -> & R' & B'ok & U' & S' & Hc & Ht); [done| | |lia|done| |].
  - eapply blocks_same_zone; [done|]. by apply blocks_delete.
  - eapply unused_same_zone; [done|]. split; [done|done| |].
    + intros x Hx. by eapply (block_zone _ _ HB).
    + intros x Hx. rewrite (covered_delete z0 B p cur) by done. tauto.
  - intros x Hx. by exists p, cur.
  - exists z'. split; [done|]. replace (cur - Z.of_nat (Z.to_nat (cur - order))) with order in * by lia.
    exists B'. split_and!; [done..| |rewrite Ht, (total_delete B p cur) by done; lia|by etrans].
    intros x. rewrite Hc, (covered_delete z0 B p cur) by done. assert (in_block p cur x → covered B x) by (intros; by exists p, cur).
    assert (in_block p cur x ∨ ¬ in_block p cur x) by (unfold in_block; lia). tauto.
Qed.

Definition list_empty_at (z : zone) (o mt : Z) : Prop := get_list z o mt = Ret [].

Lemma get_list_block z B o mt l p :
  represents z B → 0 ≤ o < MAX_ORDER → 0 ≤ mt < MIGRATE_TYPES → get_list z o mt = Ret l → p ∈ l →
  B !! p = Some o.
Proof.
  intros HR Ho Hm Hl Hp. destruct (get_list_ok z B B B o mt) as (a & l' & E & Ha & Hl'); [done..|].
  rewrite E in Hl. simplify_eq. destruct HR as [_ [_ HL] _ _ _]. destruct (HL o a Ha) as (_ & _ & Hin).
  apply Hin. by eapply elem_of_list_at.
Qed.

Lemma rmqueue_smallest_ok z B order mt n cur :
  represents z B → blocks_ok z B → 0 ≤ mt < MIGRATE_TYPES → 0 ≤ order ≤ cur → cur + Z.of_nat n = MAX_ORDER →
  ∃ r z', rmqueue_smallest_loop n order cur mt z = Ret (r, z') ∧
    match r with
    | Some p => allocated z B order p z'
    | None => z' = z ∧ ∀ o, cur ≤ o < MAX_ORDER → list_empty_at z o mt
    end.
Proof.
  intros HR HB Hmt. revert cur. induction n as [|n IH]; intros cur Ho Hn; cbn [rmqueue_smallest_loop].
  { exists None, z. split; [done|]. split; [done|]. lia. }
  destruct (get_list_ok z B B B cur mt) as (a & l & E & _); [done|lia|done|]. rewrite E. cbn [mbind cres_bind].
  destruct l as [|p l].
  - destruct (IH (cur + 1)) as (r & z' & -> & Hr); [lia|lia|]. exists r, z'. split; [done|].
    destruct r; [done|]. destruct Hr as [-> Hr]. split; [done|]. intros o Ho'.
    destruct (decide (o = cur)) as [->|]; [done|]. apply Hr. lia.
  - assert (B !! p = Some cur) as Hp by (apply (get_list_block z B cur mt (p :: l)); [done|lia|done|done|set_solver]).
    destruct (list_del_rep (covered B) z B B B p cur) as (z1 & -> & R1 & S1); [done|done|lia|]. cbn [mbind cres_bind].
    assert (covered B p) as Hcov by (exists p, cur; split; [done|]; apply block_first; lia).
    destruct (rmv_page_order_rep (covered B) z1 (delete p B) B B p) as (z2 & -> & R2 & S2); [done| |done|].
    { apply (same_in_zone z z1); [by eapply changes_zone|]. by eapply represents_buddies. }
    cbn [mbind cres_bind].
    destruct (nr_free_dec (covered B) z2 (delete p B) B (delete p B) p cur) as (z3 & -> & R3 & S3); [done|lia|done|].
    cbn [mbind cres_bind].
    destruct (expand_taken z z3 B p order cur mt) as (z' & -> & Hal); [done| |done|done|lia|done|].
    { etrans; [done|]. by etrans. }
    exists (Some p), z'. done.
Qed.

(** *** Moving free pages to the list of another type *)

Lemma list_move_rep (P : Z → Prop) z B BC p o mt :
  rep z B BC B → B !! p = Some o → 0 ≤ o < MAX_ORDER → 0 ≤ mt < MIGRATE_TYPES →
  ∃ z', list_move p o mt z = Ret z' ∧ rep z' B BC B ∧ changes P z z'.
Proof.
  intros HR Hp Ho Hmt. unfold list_move.
  destruct (list_del_rep P z B BC B p o) as (z1 & -> & R1 & S1); [done..|]. cbn [mbind cres_bind].
  destruct (list_add_rep P false z1 (delete p B) BC B o mt p) as (z2 & E & R2 & S2); [done..|by apply lookup_delete_eq|].
  rewrite insert_delete_id in R2 by done. exists z2. split; [done|]. split; [done|]. by etrans.
Qed.

Lemma move_loop_rep (P : Z → Prop) fuel z B BC p e mt moved :
  rep z B BC B → blocks_ok z B → 0 ≤ mt < MIGRATE_TYPES → (∀ x, p ≤ x ≤ e → in_zone z x) →
  e - p + 1 < Z.of_nat fuel → (0 < fuel)%nat →
  ∃ n z', move_loop fuel p e mt moved z = Ret (n, z') ∧ rep z' B BC B ∧ changes P z z'.
Proof.
  intros HR HB Hmt. revert p moved z HR HB.
  induction fuel as [|fuel IH]; intros p moved z HR HB Hz Hf Hf0; [lia|]. cbn [move_loop].
  destruct (Z.leb_spec p e) as [Hle|Hgt]; [|by exists moved, z].
  destruct (zone_pages z (rep_zone _ _ _ _ HR) p) as (pg & Hpg & Hpz); [apply Hz; lia|].
  unfold get_page. rewrite Hpg. cbn [mbind cres_bind].
  pose proof (rep_flags _ _ _ _ HR p pg Hpg Hpz) as Hfl. destruct (B !! p) as [o|] eqn:Ho.
  - destruct Hfl as [-> Hpr]. cbn [negb]. unfold page_order. rewrite Hpr.
    destruct (block_order _ _ HB _ _ Ho) as [Hob _]. pose proof (pow_pos o ltac:(lia)).
    destruct (list_move_rep P z B BC p o mt) as (z1 & -> & R1 & S1); [done..|]. cbn [mbind cres_bind].
    rewrite Z.shiftl_1_l. destruct (IH (p + 2 ^ o) (moved + 2 ^ o) z1) as (n & z' & -> & R' & S'); [done| | |lia|lia|].
    + by eapply blocks_same_zone.
    + intros x Hx. apply (same_in_zone z z1); [by eapply changes_zone|]. apply Hz. lia.
    + exists n, z'. split; [done|]. split; [done|]. by etrans.
  - rewrite Hfl. cbn [negb]. apply IH; [done|done| |lia|lia]. intros x Hx. apply Hz. lia.
Qed.

Lemma pageblock_start p :
  let s := Z.land p (Z.lnot (pageblock_nr_pages - 1)) in s ≤ p < s + pageblock_nr_pages.
Proof.
  cbn zeta. change (pageblock_nr_pages - 1) with (Z.ones pageblock_order).
  change pageblock_nr_pages with (2 ^ pageblock_order).
  rewrite <- Z.ldiff_land, Z.ldiff_ones_r by done. rewrite Z.shiftl_mul_pow2, Z.shiftr_div_pow2 by done.
  pose proof (Z.div_mod p (2 ^ pageblock_order) ltac:(done)).
  pose proof (Z.mod_pos_bound p (2 ^ pageblock_order) ltac:(done)). lia.
Qed.

Lemma move_block_rep (P : Z → Prop) z B BC p mt :
  rep z B BC B → blocks_ok z B → in_zone z p → 0 ≤ mt < MIGRATE_TYPES →
  ∃ n z', move_freepages_block p mt z = Ret (n, z') ∧ rep z' B BC B ∧ changes P z z'.
Proof.
  intros HR HB Hp Hmt. unfold move_freepages_block. pose proof (pageblock_start p) as Hs. cbn zeta in Hs.
  set (s := Z.land p _) in *. set (start := if s <? _ then _ else _).
  destruct (Z.leb_spec (zone_start_pfn z + spanned_pages z) (s + pageblock_nr_pages - 1)) as [|Hend]; [by exists 0, z|].
  assert (zone_start_pfn z ≤ start ≤ p) as Hst.
  { unfold start, in_zone in *. destruct (Z.ltb_spec s (zone_start_pfn z)); lia. }
  assert (∀ x, start ≤ x ≤ s + pageblock_nr_pages - 1 → in_zone z x) as Hz by (unfold in_zone; lia).
  unfold move_freepages, get_page.
  destruct (zone_pages z (rep_zone _ _ _ _ HR) start) as (pg & -> & Hpg); [apply Hz; lia|].
  destruct (zone_pages z (rep_zone _ _ _ _ HR) (s + pageblock_nr_pages - 1)) as (eg & -> & Heg); [apply Hz; lia|].
  cbn [mbind cres_bind]. rewrite Hpg, Heg, Z.eqb_refl. cbn [negb].
  apply move_loop_rep; [done|done|done|done|lia|lia].
Qed.

(** *** Falling back to other types *)

Lemma set_migratetype_rep (P : Z → Prop) z BL BC BF p mt :
  rep z BL BC BF → 0 ≤ mt < MIGRATE_TYPES →
  rep (set_pageblock_migratetype p mt z) BL BC BF ∧ changes P z (set_pageblock_migratetype p mt z).
Proof.
  intros [[Z1 Z2 Z3] HL HC HF HT] Hmt. split; [|done]. split; [by split|done|done|done|].
  intros b mt'. cbn. intros [[_ <-]|[_ Hb]]%lookup_insert_Some; [by case_test|by eapply HT].
Qed.

Lemma change_range_rep (P : Z → Prop) n z BL BC BF p mt :
  rep z BL BC BF → 0 ≤ mt < MIGRATE_TYPES →
  rep (change_range_loop n p mt z) BL BC BF ∧ changes P z (change_range_loop n p mt z).
Proof.
  intros HR Hmt. revert p z HR. induction n as [|n IH]; intros p z HR; [done|]. cbn.
  destruct (set_migratetype_rep P z BL BC BF p mt HR Hmt) as [R1 S1].
  destruct (IH (p + pageblock_nr_pages) _ R1) as [R2 S2]. split; [done|]. by etrans.
Qed.

(** the move that may happen before the block is taken *)
Lemma claim_rep (P : Z → Prop) z B BC p mt start_mt cur :
  rep z B BC B → blocks_ok z B → in_zone z p → 0 ≤ mt < MIGRATE_TYPES → 0 ≤ start_mt < MIGRATE_TYPES →
  ∃ mt' z', claim_block cur mt start_mt p z = Ret (mt', z') ∧
    0 ≤ mt' < MIGRATE_TYPES ∧ rep z' B BC B ∧ changes P z z'.
Proof.
  intros HR HB Hp Hmt Hst. unfold claim_block. destruct (_ || _).
  - destruct (move_block_rep P z B BC p start_mt) as (n & z1 & -> & R1 & S1); [done..|]. cbn [mbind cres_bind].
    exists start_mt. destruct (_ || _); eexists; (split; [done|]); (split; [done|]); [|done].
    destruct (set_migratetype_rep P z1 B BC B p start_mt R1 Hst). split; [done|]. by etrans.
  - exists mt, z. done.
Qed.

Lemma take_fallback_ok z B order cur mt start_mt p :
  represents z B → blocks_ok z B → B !! p = Some cur → 0 ≤ order ≤ cur →
  0 ≤ mt < MIGRATE_TYPES → 0 ≤ start_mt < MIGRATE_TYPES →
  ∃ z', take_fallback order cur mt start_mt p z = Ret (Some p, z') ∧ allocated z B order p z'.
Proof.
  intros HR HB Hp Ho Hmt Hst. destruct (block_order _ _ HB _ _ Hp) as [Hcur _].
  pose proof (represents_buddies _ _ _ _ HB Hp) as Hpz. set (P := covered B).
  assert (P p) as HP by (exists p, cur; split; [done|]; apply block_first; lia). unfold take_fallback.
  destruct (nr_free_dec P z B B B p cur) as (z1 & -> & R1 & S1); [done..|]. cbn [mbind cres_bind].
  destruct (claim_rep P z1 B (delete p B) p mt start_mt cur) as (mt' & z2 & -> & Hmt' & R2 & S2);
    [done|by eapply blocks_same_zone|by apply (same_in_zone z z1); [eapply changes_zone|]|done|done|].
  cbn [mbind cres_bind]. assert (changes P z z2) as S02 by (by etrans).
  destruct (list_del_rep P z2 B (delete p B) B p cur) as (z3 & -> & R3 & S3); [done..|]. cbn [mbind cres_bind].
  assert (changes P z z3) as S03 by (by etrans).
  destruct (rmv_page_order_rep P z3 (delete p B) (delete p B) B p) as (z4 & -> & R4 & S4); [done|by apply (same_in_zone z z3); [eapply changes_zone|]|done|].
  cbn [mbind cres_bind]. assert (changes P z z4) as S04 by (by etrans).
  set (z5 := if pageblock_order <=? cur then _ else z4).
  assert (represents z5 (delete p B) ∧ changes P z z5) as [R5 S5].
  { unfold z5, change_pageblock_range. destruct (pageblock_order <=? cur); [|done].
    destruct (change_range_rep P (Z.to_nat (Z.shiftl 1 (cur - pageblock_order))) z4 _ _ _ p start_mt R4 Hst). split; [done|]. by etrans. }
  destruct (expand_taken z z5 B p order cur mt') as (z' & -> & Hal); [done..|]. by exists z'.
Qed.

Lemma fallback_types_ok mts z B order cur start_mt :
  represents z B → blocks_ok z B → 0 ≤ order ≤ cur → cur < MAX_ORDER →
  Forall (λ mt, 0 ≤ mt < MIGRATE_TYPES) mts → 0 ≤ start_mt < MIGRATE_TYPES →
  ∃ r z', fallback_types mts order cur start_mt z = Ret (r, z') ∧
    match r with
    | Some p => allocated z B order p z'
    | None => z' = z ∧ ∀ mt, mt ∈ mts → mt ≠ MIGRATE_RESERVE → list_empty_at z cur mt
    end.
Proof.
  intros HR HB Ho Hcur Hmts Hst. induction Hmts as [|mt mts Hmt Hmts IH]; cbn [fallback_types].
  { exists None, z. split; [done|]. split; [done|]. set_solver. }
  destruct (Z.eqb_spec mt MIGRATE_RESERVE) as [Hr|Hr].
  { destruct IH as (r & z' & -> & Hrz). exists r, z'. split; [done|]. destruct r; [done|].
    destruct Hrz as [-> He]. split; [done|]. intros mt' [->|?]%elem_of_cons ?; [done|by apply He]. }
  destruct (get_list_ok z B B B cur mt) as (a & l & E & _); [done|lia|done|]. rewrite E. cbn [mbind cres_bind].
  destruct l as [|p l].
  - destruct IH as (r & z' & -> & Hrz). exists r, z'. split; [done|]. destruct r; [done|].
    destruct Hrz as [-> He]. split; [done|]. intros mt' [->|?]%elem_of_cons ?; [done|by apply He].
  - assert (B !! p = Some cur) as Hp by (apply (get_list_block z B cur mt (p :: l)); [done|lia|done|done|set_solver]).
    destruct (take_fallback_ok z B order cur mt start_mt p) as (z' & -> & Hal); [done..|]. by exists (Some p), z'.
Qed.

Lemma fallback_row start_mt :
  0 ≤ start_mt < MIGRATE_TYPES →
  ∃ row, array_get fallbacks start_mt = Ret row ∧ Forall (λ mt, 0 ≤ mt < MIGRATE_TYPES) row ∧
    (start_mt < MIGRATE_RESERVE → ∀ mt, 0 ≤ mt < MIGRATE_RESERVE → mt = start_mt ∨ mt ∈ row).
Proof.
  intros H. unfold MIGRATE_TYPES, MIGRATE_RESERVE in *.
  assert (start_mt = 0 ∨ start_mt = 1 ∨ start_mt = 2 ∨ start_mt = 3 ∨ start_mt = 4) as Hc by lia.
  destruct Hc as [-> |[-> |[-> |[-> | ->]]]]; (eexists; split; [done|]);
    (split; [by repeat constructor|]); intros Hlt mt Hmt; try lia;
    (assert (mt = 0 ∨ mt = 1 ∨ mt = 2) as [-> |[-> | ->]] by lia);
    solve [by left|right; cbv; set_solver].
Qed.

Lemma fallback_orders_ok n z B order cur start_mt :
  represents z B → blocks_ok z B → 0 ≤ order → cur < MAX_ORDER → cur - order + 1 = Z.of_nat n →
  0 ≤ start_mt < MIGRATE_TYPES →
  ∃ r z', fallback_orders n order cur start_mt z = Ret (r, z') ∧
    match r with
    | Some p => allocated z B order p z'
    | None => z' = z ∧ (start_mt < MIGRATE_RESERVE → ∀ o mt, order ≤ o ≤ cur → 0 ≤ mt < MIGRATE_RESERVE →
        mt = start_mt ∨ list_empty_at z o mt)
    end.
Proof.
  intros HR HB Ho Hcur Hn Hst. revert cur Hcur Hn. induction n as [|n IH]; intros cur Hcur Hn; cbn [fallback_orders].
  { exists None, z. split; [done|]. split; [done|]. lia. }
  destruct (fallback_row start_mt Hst) as (row & -> & Hrow & Hall). cbn [mbind cres_bind].
  destruct (fallback_types_ok row z B order cur start_mt) as (r & z1 & -> & Hr); [done|done|lia|done..|].
  cbn [mbind cres_bind]. destruct r as [p|]; [by exists (Some p), z1|]. destruct Hr as [-> He].
  destruct (IH (cur - 1)) as (r & z' & -> & Hr); [lia|lia|]. exists r, z'. split; [done|].
  destruct r; [done|]. destruct Hr as [-> Hr]. split; [done|]. intros Hlt o mt Ho' Hmt.
  destruct (decide (o = cur)) as [->|]; [|apply Hr; [done|lia|done]].
  destruct (Hall Hlt mt Hmt) as [|Hin]; [by left|right]. apply He; [done|lia].
Qed.

(** *** [__rmqueue] *)

(** a block on a list nothing is allocated from *)
Definition isolated (z : zone) (p o : Z) : Prop := ∃ l, get_list z o MIGRATE_ISOLATE = Ret l ∧ p ∈ l.

Lemma block_on_list z B p o :
  represents z B → blocks_ok z B → B !! p = Some o →
  ∃ mt l, 0 ≤ mt < MIGRATE_TYPES ∧ get_list z o mt = Ret l ∧ p ∈ l.
Proof.
  intros HR HB Hp. destruct (block_order _ _ HB _ _ Hp) as [Ho _]. destruct HR as [_ [HL1 HL2] _ _ _].
  destruct (array_get_in (free_areas z) o) as (a & E & Ha); [lia|]. destruct (HL2 o a Ha) as (Hlen & _ & Hin).
  apply Hin, list_elem_of_In, in_concat in Hp as (l & Hl%list_elem_of_In & Hpl%list_elem_of_In).
  apply list_elem_of_lookup in Hl as [i Hi]. exists (Z.of_nat i), l. split; [|split; [|done]].
  - apply lookup_lt_Some in Hi. unfold zlength in Hlen. lia.
  - unfold get_list. rewrite E. cbn [mbind cres_bind]. apply array_get_Ret. by rewrite zlookup_nat.
Qed.

Lemma smallest_ok z B order mt :
  represents z B → blocks_ok z B → 0 ≤ order < MAX_ORDER → 0 ≤ mt < MIGRATE_TYPES →
  ∃ r z', __rmqueue_smallest order mt z = Ret (r, z') ∧
    match r with
    | Some p => allocated z B order p z'
    | None => z' = z ∧ ∀ o, order ≤ o < MAX_ORDER → list_empty_at z o mt
    end.
Proof. intros HR HB Ho Hmt. apply rmqueue_smallest_ok; [done|done|done|lia|lia]. Qed.

Lemma rmqueue_ok z B order mt :
  represents z B → blocks_ok z B → 0 ≤ order < MAX_ORDER → 0 ≤ mt < MIGRATE_RESERVE →
  ∃ r z', __rmqueue order mt z = Ret (r, z') ∧
    match r with
    | Some p => allocated z B order p z'
    | None => z' = z ∧ ∀ p o, B !! p = Some o → order ≤ o → isolated z p o
    end.
Proof.
  intros HR HB Ho Hmt. unfold MIGRATE_RESERVE in Hmt. unfold __rmqueue.
  destruct (smallest_ok z B order mt) as (r1 & z1 & -> & H1); [done|done|done|unfold MIGRATE_TYPES; lia|].
  cbn [mbind cres_bind]. destruct r1 as [p|]; [by exists (Some p), z1|]. destruct H1 as [-> H1].
  rewrite (proj2 (Z.eqb_neq mt MIGRATE_RESERVE)) by (unfold MIGRATE_RESERVE; lia). unfold __rmqueue_fallback.
  destruct (fallback_orders_ok (Z.to_nat (MAX_ORDER - order)) z B order (MAX_ORDER - 1) mt) as (r2 & z2 & -> & H2);
    [done|done|lia|lia|lia|unfold MIGRATE_TYPES; lia|].
  cbn [mbind cres_bind]. destruct r2 as [p|]; [by exists (Some p), z2|]. destruct H2 as [-> H2].
  destruct (smallest_ok z B order MIGRATE_RESERVE) as (r3 & z3 & -> & H3); [done..|].
  destruct r3 as [p|]; [by exists (Some p), z3|]. destruct H3 as [-> H3].
  exists None, z. split; [done|]. split; [done|]. intros p o Hp Hoo.
  destruct (block_order _ _ HB _ _ Hp) as [Hob _].
  destruct (block_on_list z B p o) as (mt' & l & Hmt' & Hl & Hpl); [done..|]. exists l. split; [|done].
  unfold MIGRATE_TYPES, MIGRATE_ISOLATE, MIGRATE_RESERVE, list_empty_at in *.
  assert (get_list z o mt' ≠ Ret []) as Hne by (rewrite Hl; intros [= ->]; set_solver).
  destruct (decide (mt' = 4)) as [->|]; [done|]. exfalso. apply Hne. destruct (decide (mt' = 3)) as [->|].
  { apply H3. lia. }
  destruct (H2 ltac:(lia) o mt' ltac:(lia) ltac:(lia)) as [->|He]; [|done]. apply H1. lia.
Qed.

(** ** Free pages and free blocks *)

Lemma block_nested p o q o' x :
  0 ≤ o ≤ o' → aligned o p → aligned o' q → in_block p o x → in_block q o' x →
  ∀ y, in_block p o y → in_block q o' y.
Proof.
  intros Ho [k ->] Ha [Hx1 Hx2] [Hx3 Hx4] y [Hy1 Hy2]. unfold in_block in *.
  apply (aligned_weaken o o') in Ha as [j ->]; [|done].
  assert (∃ d, 0 < d ∧ 2 ^ o' = d * 2 ^ o) as (d & Hd & Hd').
  { exists (2 ^ (o' - o)). split; [apply pow_pos; lia|]. rewrite <- Z.pow_add_r by lia. f_equal. lia. }
  rewrite Hd' in *. pose proof (pow_pos o ltac:(lia)).
  assert (j ≤ k) by (apply Z.lt_succ_r, (Z.mul_lt_mono_pos_r (2 ^ o)); lia).
  assert (k < j + d) by (apply (Z.mul_lt_mono_pos_r (2 ^ o)); lia).
  split; [apply Z.le_trans with (k * 2 ^ o); [apply Z.mul_le_mono_nonneg_r|]; lia|].
  apply Z.lt_le_trans with ((k + 1) * 2 ^ o); [lia|]. rewrite <- Z.mul_add_distr_r. apply Z.mul_le_mono_nonneg_r; lia.
Qed.

(** in coalesced blocks an aligned run of free pages lies in one of them *)
Lemma free_run z B o p :
  blocks_ok z B → 0 ≤ o < MAX_ORDER → aligned o p → (∀ x, in_block p o x → covered B x) →
  ∃ q o', B !! q = Some o' ∧ o ≤ o' ∧ ∀ x, in_block p o x → in_block q o' x.
Proof.
  intros HB [Ho Hmax]. revert p Hmax. pattern o. apply natlike_ind; [| |done]; clear o Ho.
  - intros p _ _ Hc. destruct (Hc p) as (q & o' & Hq & Hx); [by apply block_first|].
    destruct (block_order _ _ HB _ _ Hq). exists q, o'. split; [done|]. split; [lia|].
    intros x Hx'. unfold in_block in *. assert (x = p) as -> by lia. done.
  - intros o Ho IH p Hmax Ha Hc. unfold Z.succ in *. pose proof (pow_pos o Ho) as Hpos. pose proof (pow_succ o Ho) as Hs.
    assert (aligned o p) as Ha' by (apply (aligned_weaken o (o + 1)); [lia|done]).
    assert (aligned o (p + 2 ^ o)) as Ha2 by (destruct Ha' as [k ->]; exists (k + 1); lia).
    destruct (IH p) as (q1 & o1 & Hq1 & Ho1 & Hi1); [lia|done|intros x Hx; apply Hc; unfold in_block in *; lia|].
    destruct (IH (p + 2 ^ o)) as (q2 & o2 & Hq2 & Ho2 & Hi2); [lia|done|intros x Hx; apply Hc; unfold in_block in *; lia|].
    destruct (block_order _ _ HB _ _ Hq1) as [Hb1 Hal1]. destruct (block_order _ _ HB _ _ Hq2) as [Hb2 Hal2].
    assert (in_block (p + 2 ^ o) o (p + 2 ^ o)) as Hm by (by apply block_first).
    destruct (decide (o + 1 ≤ o1)).
    { exists q1, o1. split; [done|]. split; [done|]. apply (block_nested _ _ _ _ p); [lia|done|done| |apply Hi1; by apply block_first].
      apply block_first. lia. }
    destruct (decide (o + 1 ≤ o2)).
    { exists q2, o2. split; [done|]. split; [done|].
      apply (block_nested _ _ _ _ (p + 2 ^ o)); [lia|done|done| |by apply Hi2]. unfold in_block. lia. }
    assert (o1 = o) as -> by lia. assert (o2 = o) as -> by lia. exfalso.
    assert (q1 = p) as ->.
    { pose proof (Hi1 p ltac:(by apply block_first)). pose proof (Hi1 (p + 2 ^ o - 1) ltac:(unfold in_block; lia)).
      unfold in_block in *. lia. }
    assert (q2 = p + 2 ^ o) as ->.
    { pose proof (Hi2 _ Hm). pose proof (Hi2 (p + 2 ^ o + 2 ^ o - 1) ltac:(unfold in_block; lia)).
      unfold in_block in *. lia. }
    apply (block_coalesced _ _ HB p o Hq1); [lia|]. by destruct (buddy_upper p o Ho Ha) as [_ ->].
Qed.

(** ** The functions under the zone lock *)

(** C14: [__free_one_page] on a block that is not free and inside the zone, with
    all its merges: it returns, never touches a page outside the page map or
    one that is on no list, leaves marks, lists and counters consistent with
    aligned, disjoint and completely coalesced free blocks, and makes exactly
    the pages of the block free. *)
Theorem free_one_page_correct z B p o mt :
  represents z B → blocks_ok z B → unused z B p o → 0 ≤ mt < MIGRATE_TYPES →
  ∃ z' B', __free_one_page p o mt z = Ret z' ∧ represents z' B' ∧ blocks_ok z' B' ∧
    (∀ x, covered B' x ↔ covered B x ∨ in_block p o x) ∧ total B' = total B + 2 ^ o ∧
    changes (λ x, covered B x ∨ in_block p o x) z z'.
Proof. apply free_one_page_ok. Qed.

(** C13: [__rmqueue], with the search through the orders, the split of a larger
    block, the fallback to other migrate types and the moves that come with it.
    It returns an aligned block of pages that were free and are not free any more,
    everything else being as it was; or it returns NULL, and then there is no
    aligned run of free pages of that size, outside blocks that are isolated from
    allocation. *)
Theorem rmqueue_correct z B order mt :
  represents z B → blocks_ok z B → 0 ≤ order < MAX_ORDER → 0 ≤ mt < MIGRATE_RESERVE →
  ∃ r z', __rmqueue order mt z = Ret (r, z') ∧
    match r with
    | Some p => ∃ B', represents z' B' ∧ blocks_ok z' B' ∧ unused z' B' p order ∧
        (∀ x, covered B x ↔ covered B' x ∨ in_block p order x) ∧
        total B = total B' + 2 ^ order ∧ changes (covered B) z z'
    | None => z' = z ∧ ∀ p, aligned order p → (∀ x, in_block p order x → covered B x) →
        ∃ q o, isolated z q o ∧ ∀ x, in_block p order x → in_block q o x
    end.
Proof.
  intros HR HB Ho Hmt. destruct (rmqueue_ok z B order mt) as (r & z' & -> & Hr); [done..|].
  exists r, z'. split; [done|]. destruct r as [p|]; [done|]. destruct Hr as [-> Hr]. split; [done|].
  intros p Ha Hc. destruct (free_run z B order p) as (q & o & Hq & Hoo & Hin); [done..|].
  exists q, o. split; [by apply Hr|done].
Qed.

(** *** A zone of 1024 pages, empty and as one free block *)

Definition area0 : free_area := FreeArea [[]; []; []; []; []] 0.
Definition map0 : gmap Z page := gset_to_gmap (Page false 0 7) (list_to_set (seqZ 0 1024)).
Definition zone0 : zone := Zone 7 0 1024 map0 (replicate 11 area0) ∅ false.
Definition zone1 : zone :=
  Zone 7 0 1024 (<[0 := Page true 10 7]> map0)
    (replicate 10 area0 ++ [FreeArea [[]; []; [0]; []; []] 1]) ∅ false.

Lemma map0_lookup p pg : map0 !! p = Some pg ↔ 0 ≤ p < 1024 ∧ pg = Page false 0 7.
Proof.
  unfold map0. rewrite lookup_gset_to_gmap_Some, elem_of_list_to_set, elem_of_seqZ. naive_solver lia.
Qed.

Lemma pageblock0 p x : 0 ≤ p < 1024 → p / pageblock_nr_pages = x / pageblock_nr_pages → 0 ≤ x < 1024.
Proof.
  intros Hp. change pageblock_nr_pages with 1024. rewrite (Z.div_small p) by done. intros Hx.
  pose proof (Z.div_mod x 1024 ltac:(done)). pose proof (Z.mod_pos_bound x 1024 ltac:(done)). lia.
Qed.

Lemma zone0_ok : represents zone0 ∅ ∧ blocks_ok zone0 ∅.
Proof.
  split; [split; [split| | | |]|split]; try (intros *; by rewrite lookup_empty).
  - intros p Hp. eexists. by rewrite map0_lookup.
  - intros p pg [? _]%map0_lookup _. done.
  - intros p x Hp Hx. eexists. apply map0_lookup. split; [by eapply pageblock0|done].
  - split; [done|]. intros o a Ha. unfold zlookup in Ha. case_test; [|done].
    apply lookup_replicate in Ha as [-> _]. split; [done|]. split; [constructor|]. cbn. set_solver.
  - intros o a Ha. unfold zlookup in Ha. case_test; [|done]. apply lookup_replicate in Ha as [-> _]. done.
  - intros p pg [_ ->]%map0_lookup _. by rewrite lookup_empty.
  - intros b mt. cbn. by rewrite lookup_empty.
Qed.

Lemma zone1_ok : represents zone1 {[0 := 10]} ∧ blocks_ok zone1 {[0 := 10]}.
Proof.
  assert (∀ o a, zlookup (free_areas zone1) o = Some a →
    o ≠ 10 ∧ a = area0 ∨ o = 10 ∧ a = FreeArea [[]; []; [0]; []; []] 1) as Hareas.
  { intros o a Ha. pose proof (zlookup_Some _ _ _ Ha) as Ho. unfold zlookup in Ha. case_test; [|done].
    cbn [free_areas zone1] in *. destruct (decide (o = 10)) as [->|]; [right; split; [done|]; vm_compute in Ha; congruence|left].
    change (zlength (replicate 10 area0 ++ [FreeArea [[]; []; [0]; []; []] 1])) with 11 in Ho.
    split; [done|]. rewrite lookup_app_l in Ha by (rewrite length_replicate; lia).
    by apply lookup_replicate in Ha as [-> _]. }
  split; [split; [split| | | |]|split].
  - intros p Hp. cbn. destruct (decide (p = 0)) as [->|]; [eexists; by rewrite lookup_insert_eq|].
    eexists. by rewrite lookup_insert_ne, map0_lookup by done.
  - intros p pg Hp _. cbn in Hp. apply lookup_insert_Some in Hp as [[<- <-]|[_ Hp%map0_lookup]]; [done|]. apply Hp.
  - intros p x Hp Hx. cbn. apply lookup_insert_is_Some'. right. eexists. apply map0_lookup.
    split; [by eapply pageblock0|done].
  - split; [done|]. intros o a [[Ho ->]|[-> ->]]%Hareas; (split; [done|]); split;
      try (by repeat constructor; set_solver); intros p; cbn; rewrite lookup_singleton_Some; set_solver.
  - intros o a [[Ho ->]|[-> ->]]%Hareas; cbn; unfold of_order.
    + by rewrite map_filter_singleton, decide_False by (cbn; congruence).
    + rewrite map_filter_singleton, decide_True by done. by rewrite map_size_singleton.
  - intros p pg Hp _. cbn in Hp. destruct (decide (p = 0)) as [->|].
    + rewrite lookup_insert_eq in Hp. simplify_eq. by rewrite lookup_singleton_eq.
    + rewrite lookup_insert_ne in Hp by done. apply map0_lookup in Hp as [_ ->]. by rewrite lookup_singleton_ne.
  - intros b mt. cbn. by rewrite lookup_empty.
  - intros p o [<- <-]%lookup_singleton_Some. split; [done|]. by exists 0.
  - intros p o x [<- <-]%lookup_singleton_Some. done.
  - by intros p o q o' x [<- <-]%lookup_singleton_Some [<- <-]%lookup_singleton_Some.
  - intros p o [<- <-]%lookup_singleton_Some. unfold MAX_ORDER. lia.
Qed.

Lemma free_one_page_correct_witness :
  ∃ z' B', __free_one_page 8 3 MIGRATE_MOVABLE zone0 = Ret z' ∧ represents z' B' ∧ blocks_ok z' B' ∧
    (∀ x, covered B' x ↔ covered ∅ x ∨ in_block 8 3 x) ∧ total B' = total ∅ + 2 ^ 3 ∧
    changes (λ x, covered ∅ x ∨ in_block 8 3 x) zone0 z'.
Proof.
  apply (free_one_page_correct zone0 ∅ 8 3 MIGRATE_MOVABLE); [apply zone0_ok|apply zone0_ok| |done].
  split; [done|by exists 1|intros x [? ?]; split; cbn in *; lia|].
  intros x _ (p & o & Hp & _). by rewrite lookup_empty in Hp.
Defined.

Lemma rmqueue_correct_witness :
  ∃ r z', __rmqueue 3 MIGRATE_UNMOVABLE zone1 = Ret (r, z') ∧
    match r with
    | Some p => ∃ B', represents z' B' ∧ blocks_ok z' B' ∧ unused z' B' p 3 ∧
        (∀ x, covered {[0 := 10]} x ↔ covered B' x ∨ in_block p 3 x) ∧
        total {[0 := 10]} = total B' + 2 ^ 3 ∧ changes (covered {[0 := 10]}) zone1 z'
    | None => z' = zone1 ∧ ∀ p, aligned 3 p → (∀ x, in_block p 3 x → covered {[0 := 10]} x) →
        ∃ q o, isolated zone1 q o ∧ ∀ x, in_block p 3 x → in_block q o x
    end.
Proof. apply rmqueue_correct; [apply zone1_ok|apply zone1_ok|done|done]. Defined.
