(* ===== verification/Pcp.v ===== *)
(** * Page allocation: the per-cpu lists on top of the buddy system

    [buffered_rmqueue] and [__free_pages] of mm/page_alloc.c. Single pages go
    through three lists of the processor, which are filled and emptied in
    batches; larger blocks go to the buddy system of Buddy.v directly. The
    checks for corrupted pages ([check_new_page], [free_pages_check]) are taken
    to succeed, and a page is freed when its last reference is dropped.

    [page_allocator_correct]: over every sequence of allocations, frees and
    drains, whatever the owners do to [page->private] meanwhile, the blocks handed
    out are aligned, disjoint and not free, no page is lost, and the
    statistics are right. *)

From stdpp Require Import gmap.
From S2P Require Import Prelude Buddy BuddyInv.

Definition MIGRATE_PCPTYPES : Z := 3.

Record per_cpu_pages := Pcp {
  pcp_count : Z; pcp_high : Z; pcp_batch : Z; pcp_lists : list (list Z) }.

(** a zone with the lists of the processor and its NR_FREE_PAGES *)
Record allocator := Allocator { a_zone : zone; a_pcp : per_cpu_pages; nr_free_pages : Z }.

Definition set_page_private (p v : Z) (z : zone) : cres zone :=
  pg ← get_page z p;
  Ret (set_mem_map (<[p := Page (PageBuddy pg) v (page_zone pg)]> (mem_map z)) z).

(** ** Filling *)

(** the loop of [rmqueue_bulk] for order 0: gives the pages in the order in which
    they were taken *)
Fixpoint bulk_loop (n : nat) (mt : Z) (z : zone) : cres (list Z * zone) :=
  match n with
  | O => Ret ([], z)
  | S n =>
      '(p, z) ← __rmqueue 0 mt z;
      match p with
      | None => Ret ([], z)
      | Some p =>
          z ← set_page_private p mt z;
          '(ps, z) ← bulk_loop n mt z;
          Ret (p :: ps, z)
      end
  end.

(** each page is linked behind the last one, or before it when [cold] *)
Definition rmqueue_bulk (count mt : Z) (l : list Z) (cold : bool) (z : zone) (nr_free : Z) :
    cres (Z * list Z * zone * Z) :=
  '(ps, z) ← bulk_loop (Z.to_nat count) mt z;
  Ret (zlength ps, if cold then l ++ rev ps else ps ++ l, z, nr_free - zlength ps).

(** ** Emptying *)

(** [do ... while (list_empty(list))] *)
Fixpoint next_list (fuel : nat) (lists : list (list Z)) (mt batch_free : Z) : cres (Z * Z) :=
  match fuel with
  | O => UB
  | S fuel =>
      let batch_free := batch_free + 1 in
      let mt := if mt + 1 =? MIGRATE_PCPTYPES then 0 else mt + 1 in
      l ← array_get lists mt;
      match l with
      | [] => next_list fuel lists mt batch_free
      | _ :: _ => Ret (mt, batch_free)
      end
  end.

(** the last page of a list, and the list without it *)
Definition list_prev (l : list Z) : cres (Z * list Z) :=
  match last l with
  | Some p => Ret (p, removelast l)
  | None => UB
  end.

(** [do ... while (--to_free && --batch_free && !list_empty(list))] *)
Fixpoint batch_loop (fuel : nat) (lists : list (list Z)) (mt to_free batch_free : Z) (z : zone) :
    cres (list (list Z) * Z * Z * zone) :=
  match fuel with
  | O => UB
  | S fuel =>
      l ← array_get lists mt;
      '(p, l) ← list_prev l;
      lists ← array_set lists mt l;
      pg ← get_page z p;
      z ← __free_one_page p 0 (page_private pg) z;
      let to_free := to_free - 1 in
      if to_free =? 0 then Ret (lists, to_free, batch_free, z) else
      let batch_free := batch_free - 1 in
      if batch_free =? 0 then Ret (lists, to_free, batch_free, z) else
      match l with
      | [] => Ret (lists, to_free, batch_free, z)
      | _ :: _ => batch_loop fuel lists mt to_free batch_free z
      end
  end.

(** [while (to_free)] *)
Fixpoint drain_loop (fuel : nat) (lists : list (list Z)) (mt to_free batch_free : Z) (z : zone) :
    cres (list (list Z) * zone) :=
  match fuel with
  | O => UB
  | S fuel =>
      if truth to_free then
        '(mt, batch_free) ← next_list (Z.to_nat MIGRATE_PCPTYPES) lists mt batch_free;
        let batch_free := if batch_free =? MIGRATE_PCPTYPES then to_free else batch_free in
        '(lists, to_free, batch_free, z) ← batch_loop (Z.to_nat to_free) lists mt to_free batch_free z;
        drain_loop fuel lists mt to_free batch_free z
      else Ret (lists, z)
  end.

Definition free_pcppages_bulk (count : Z) (a : allocator) : cres allocator :=
  let pcp := a_pcp a in
  '(lists, z) ← drain_loop (S (Z.to_nat count)) (pcp_lists pcp) 0 count 0 (a_zone a);
  Ret (Allocator z (Pcp (pcp_count pcp) (pcp_high pcp) (pcp_batch pcp) lists) (nr_free_pages a + count)).

Definition set_pcp_count (n : Z) (a : allocator) : allocator :=
  let pcp := a_pcp a in
  Allocator (a_zone a) (Pcp n (pcp_high pcp) (pcp_batch pcp) (pcp_lists pcp)) (nr_free_pages a).

(** of [drain_pages], for the zone *)
Definition drain_pages (a : allocator) : cres allocator :=
  if truth (pcp_count (a_pcp a)) then
    a ← free_pcppages_bulk (pcp_count (a_pcp a)) a;
    Ret (set_pcp_count 0 a)
  else Ret a.

(** ** Freeing *)

Definition free_one_page (p order mt : Z) (a : allocator) : cres allocator :=
  z ← __free_one_page p order mt (a_zone a);
  Ret (Allocator z (a_pcp a) (nr_free_pages a + Z.shiftl 1 order)).

(** the page goes to a list of the processor, which gives back a batch when it has
    too many *)
Definition free_to_pcp (p mt : Z) (cold : bool) (a : allocator) : cres allocator :=
  let pcp := a_pcp a in
  l ← array_get (pcp_lists pcp) mt;
  lists ← array_set (pcp_lists pcp) mt (if cold then l ++ [p] else p :: l);
  let a := Allocator (a_zone a) (Pcp (pcp_count pcp + 1) (pcp_high pcp) (pcp_batch pcp) lists)
             (nr_free_pages a) in
  if pcp_high pcp <=? pcp_count pcp + 1 then
    a ← free_pcppages_bulk (pcp_batch pcp) a;
    Ret (set_pcp_count (pcp_count (a_pcp a) - pcp_batch pcp) a)
  else Ret a.

Definition free_hot_cold_page (p : Z) (cold : bool) (a : allocator) : cres allocator :=
  let mt := get_pageblock_migratetype p (a_zone a) in
  z ← set_page_private p mt (a_zone a);
  let a := Allocator z (a_pcp a) (nr_free_pages a) in
  if (MIGRATE_PCPTYPES <=? mt) && (mt =? MIGRATE_ISOLATE) then free_one_page p 0 mt a
  else free_to_pcp p (if MIGRATE_PCPTYPES <=? mt then MIGRATE_MOVABLE else mt) cold a.

Definition __free_pages (p order : Z) (a : allocator) : cres allocator :=
  if order =? 0 then free_hot_cold_page p false a
  else free_one_page p order (get_pageblock_migratetype p (a_zone a)) a.

(** ** Allocating *)

(** the page that is taken from a list, and the rest *)
Definition take_page (cold : bool) (l : list Z) : cres (Z * list Z) :=
  if cold then list_prev l
  else match l with p :: l => Ret (p, l) | [] => UB end.

(** [None] is NULL *)
Definition buffered_rmqueue (order mt : Z) (cold : bool) (a : allocator) :
    cres (option Z * allocator) :=
  if order =? 0 then
    let pcp := a_pcp a in
    l ← array_get (pcp_lists pcp) mt;
    '(count, l, z, nr_free) ←
      (match l with
       | [] => '(i, l, z, nr_free) ← rmqueue_bulk (pcp_batch pcp) mt l cold (a_zone a) (nr_free_pages a);
               Ret (pcp_count pcp + i, l, z, nr_free)
       | _ :: _ => Ret (pcp_count pcp, l, a_zone a, nr_free_pages a)
       end);
    match l with
    | [] =>
        lists ← array_set (pcp_lists pcp) mt l;
        Ret (None, Allocator z (Pcp count (pcp_high pcp) (pcp_batch pcp) lists) nr_free)
    | _ :: _ =>
        '(p, l) ← take_page cold l;
        lists ← array_set (pcp_lists pcp) mt l;
        z ← set_page_private p 0 z;
        Ret (Some p, Allocator z (Pcp (count - 1) (pcp_high pcp) (pcp_batch pcp) lists) nr_free)
    end
  else
    '(p, z) ← __rmqueue order mt (a_zone a);
    match p with
    | None => Ret (None, Allocator z (a_pcp a) (nr_free_pages a))
    | Some p =>
        z ← set_page_private p 0 z;
        Ret (Some p, Allocator z (a_pcp a) (nr_free_pages a - Z.shiftl 1 order))
    end.

(** ** Sequences of calls *)

(** the allocator and the blocks handed out, with their orders *)
Record system := System { s_alloc : allocator; s_out : gmap Z Z }.

Inductive call :=
  | AllocPages (order mt : Z) (cold : bool)
  | FreePages (p : Z)
  | DrainPages
  | UsePage (p x v : Z).

(** requests have an order and a migrate type that exist; a block is freed by who
    has it; and an owner may write the [private] of the pages it has *)
Definition system_step (c : call) (s : system) : cres system :=
  match c with
  | AllocPages order mt cold =>
      if (0 <=? order) && (order <? MAX_ORDER) && (0 <=? mt) && (mt <? MIGRATE_PCPTYPES) then
        '(p, a) ← buffered_rmqueue order mt cold (s_alloc s);
        Ret (System a (match p with Some p => <[p := order]> (s_out s) | None => s_out s end))
      else Ret s
  | FreePages p =>
      match s_out s !! p with
      | Some order =>
          a ← __free_pages p order (s_alloc s);
          Ret (System a (delete p (s_out s)))
      | None => Ret s
      end
  | DrainPages => a ← drain_pages (s_alloc s); Ret (System a (s_out s))
  | UsePage p x v =>
      match s_out s !! p with
      | Some order =>
          if (p <=? x) && (x <? p + Z.shiftl 1 order) then
            let a := s_alloc s in
            z ← set_page_private x v (a_zone a);
            Ret (System (Allocator z (a_pcp a) (nr_free_pages a)) (s_out s))
          else Ret s
      | None => Ret s
      end
  end.

Fixpoint system_run (l : list call) (s : system) : cres system :=
  match l with [] => Ret s | c :: l => s ← system_step c s; system_run l s end.

(** ** The zone and the pages on the lists *)

Lemma block_single p x : in_block p 0 x ↔ x = p.
Proof. unfold in_block. lia. Qed.

Definition good_private (z : zone) (p : Z) : Prop :=
  ∃ pg, mem_map z !! p = Some pg ∧ 0 ≤ page_private pg < MIGRATE_TYPES.

(** [B] are the free blocks and [L] the pages kept back; these have a migrate
    type in [private] *)
Record zone_inv (z : zone) (B : gmap Z Z) (L : list Z) : Prop := {
  zi_rep : represents z B;
  zi_blocks : blocks_ok z B;
  zi_nodup : NoDup L;
  zi_kept : ∀ p, p ∈ L → in_zone z p ∧ ¬ covered B p ∧ good_private z p
}.

Lemma zone_inv_perm z B L L' : L ≡ₚ L' → zone_inv z B L → zone_inv z B L'.
Proof. intros HL [? ? ? H]. split; [done|done|by rewrite <- HL|]. intros p Hp. apply H. by rewrite HL. Qed.

Lemma good_frame P z z' p : changes P z z' → ¬ P p → good_private z p → good_private z' p.
Proof. intros [_ Hf] HP (pg & Hpg & ?). exists pg. by rewrite Hf. Qed.

Lemma set_private_rep (P : Z → Prop) z B p v :
  represents z B → in_zone z p → B !! p = None → P p →
  ∃ z', set_page_private p v z = Ret z' ∧ represents z' B ∧ changes P z z' ∧
    ∃ pg, mem_map z' !! p = Some pg ∧ page_private pg = v.
Proof.
  intros HR Hp Hn HP. destruct (zone_pages z (rep_zone _ _ _ _ HR) p Hp) as (pg & Hpg & Hpz).
  pose proof (rep_flags _ _ _ _ HR p pg Hpg Hpz) as Hfl. rewrite Hn in Hfl.
  destruct (set_mark z B B B p false v B) as (pg' & E & HR'); [done..|by rewrite Hn|].
  unfold set_page_private. rewrite E. cbn [mbind cres_bind]. unfold get_page in E. rewrite Hpg in E. simplify_eq. rewrite Hfl.
  eexists. split; [done|]. split; [done|]. split; [by apply changes_mark|].
  eexists. cbn. by rewrite lookup_insert_eq.
Qed.

(** ** Filling *)

Lemma bulk_loop_ok n mt z B L :
  zone_inv z B L → 0 ≤ mt < MIGRATE_PCPTYPES →
  ∃ ps z' B', bulk_loop n mt z = Ret (ps, z') ∧ zone_inv z' B' (ps ++ L) ∧
    (∀ x, covered B x ↔ covered B' x ∨ x ∈ ps) ∧ total B = total B' + zlength ps ∧
    changes (covered B) z z'.
Proof.
  intros HI Hmt. revert z B L HI. induction n as [|n IH]; intros z B L HI; cbn [bulk_loop].
  { exists [], z, B. split; [done|]. split; [done|]. split; [set_solver|]. rewrite zlength_nil. split; [lia|done]. }
  destruct (rmqueue_ok z B 0 mt) as (r & z1 & -> & Hr); [apply HI|apply HI|done|exact Hmt|]. cbn [mbind cres_bind].
  destruct r as [p|]; [|destruct Hr as [-> _]].
  2: { exists [], z, B. split; [done|]. split; [done|]. split; [set_solver|]. rewrite zlength_nil. split; [lia|done]. }
  destruct Hr as (B1 & R1 & B1ok & U1 & Hc1 & Ht1 & S1). destruct HI as [HR HB Hnd Hk].
  assert (covered B p) as Hp by (apply Hc1; right; by apply block_single).
  destruct (set_private_rep (covered B) z1 B1 p mt) as (z2 & -> & R2 & S2 & pg & Hpg & Hv);
    [done|by eapply unused_in_zone|by eapply unused_none|done|]. cbn [mbind cres_bind].
  assert (changes (covered B) z z2) as S02 by (by etrans).
  assert (zone_inv z2 B1 (p :: L)) as HI2.
  { split; [done|apply (blocks_same_zone _ _ _ _ S2 B1ok)| |].
    - apply NoDup_cons. split; [|done]. intros HpL. by destruct (Hk p HpL) as (_ & ? & _).
    - intros q [->|Hq]%elem_of_cons.
      + split; [apply (same_in_zone z1 z2); [apply S2|by eapply unused_in_zone]|].
        split; [apply U1; by apply block_single|]. exists pg. unfold MIGRATE_PCPTYPES, MIGRATE_TYPES in *. split; [done|lia].
      + destruct (Hk q Hq) as (? & Hnc & ?). split; [apply (same_in_zone z z2); [apply S02|done]|].
        split; [rewrite Hc1 in Hnc; tauto|]. by eapply good_frame. }
  destruct (IH z2 B1 (p :: L) HI2) as (ps & z' & B' & -> & HI' & Hc' & Ht' & S').
  cbn [mbind cres_bind]. exists (p :: ps), z', B'. split; [done|]. split_and!.
  - apply (zone_inv_perm _ _ (ps ++ p :: L)); [|done]. by rewrite <- Permutation_middle.
  - intros x. rewrite Hc1, Hc', block_single, elem_of_cons. tauto.
  - rewrite zlength_cons, Ht1, Ht'. change (2 ^ 0) with 1. lia.
  - etrans; [done|]. eapply changes_weaken; [done|]. intros x Hx. apply Hc1. by left.
Qed.

(** ** Emptying *)

(** [k] pages went from the lists to the buddy system *)
Record drained (z : zone) (B : gmap Z Z) (lists : list (list Z)) (k : Z)
    (z' : zone) (B' : gmap Z Z) (lists' : list (list Z)) : Prop := {
  dr_inv : zone_inv z' B' (concat lists');
  dr_lists : zlength lists' = zlength lists;
  dr_count : zlength (concat lists) = zlength (concat lists') + k;
  dr_pages : ∀ x, covered B' x ∨ x ∈ concat lists' ↔ covered B x ∨ x ∈ concat lists;
  dr_total : total B' = total B + k;
  dr_changes : changes (λ x, covered B x ∨ x ∈ concat lists) z z'
}.

Lemma drained_refl z B lists : zone_inv z B (concat lists) → drained z B lists 0 z B lists.
Proof. intros HI. split; [done|done|lia|done|lia|done]. Qed.

Lemma drained_trans z B l k z1 B1 l1 k1 z2 B2 l2 :
  drained z B l k z1 B1 l1 → drained z1 B1 l1 k1 z2 B2 l2 → drained z B l (k + k1) z2 B2 l2.
Proof.
  intros [I1 L1 C1 P1 T1 S1] [I2 L2 C2 P2 T2 S2]. split; [done|lia|lia| |lia|].
  - intros x. by rewrite P2, P1.
  - etrans; [done|]. eapply changes_weaken; [done|]. cbn. intros x Hx. by apply P1.
Qed.

(** one page of a list is freed *)
Lemma drain_page z B lists mt l p l' :
  zone_inv z B (concat lists) → zlookup lists mt = Some l → l ≡ₚ p :: l' →
  ∃ pg z' B', get_page z p = Ret pg ∧ __free_one_page p 0 (page_private pg) z = Ret z' ∧
    drained z B lists 1 z' B' (<[Z.to_nat mt := l']> lists).
Proof.
  intros [HR HB Hnd Hk] Hl Hperm. set (lists' := <[Z.to_nat mt := l']> lists).
  assert (concat lists ≡ₚ p :: concat lists') as Hcat.
  { assert (lists = <[Z.to_nat mt := l]> lists') as Hback.
    { unfold lists', zlookup in *. destruct (0 <=? mt); [|done]. by rewrite list_insert_insert_eq, list_insert_id. }
    rewrite Hback at 1. apply concat_insert with l'; [|done]. pose proof (zlookup_Some _ _ _ Hl). unfold zlength in *.
    unfold lists'. apply list_lookup_insert_eq. lia. }
  assert (p ∈ concat lists) as Hp by (rewrite Hcat; set_solver).
  destruct (Hk p Hp) as (Hpz & Hpc & pg & Hpg & Hpr).
  exists pg. unfold get_page. rewrite Hpg.
  destruct (free_one_page_ok z B p 0 (page_private pg)) as (z' & B' & E & R' & B'ok & Hc & Ht & S');
    [done|done| |done|].
  { split; [done|by exists p; lia|intros x ->%block_single; done|intros x ->%block_single; done]. }
  exists z', B'. split; [done|]. split; [done|].
  assert (∀ x, covered B' x ↔ covered B x ∨ x = p) as Hc' by (intros x; by rewrite Hc, block_single).
  assert (NoDup (p :: concat lists')) as [Hpn Hnd']%NoDup_cons by (by rewrite <- Hcat). split.
  - split; [done|done|done|]. intros q Hq. destruct (Hk q) as (? & ? & ?); [rewrite Hcat; set_solver|].
    assert (¬ (covered B q ∨ in_block p 0 q)) as HnP by (rewrite block_single; set_solver).
    split; [apply (same_in_zone z z'); [apply S'|done]|]. split; [by rewrite Hc|]. by eapply good_frame.
  - unfold lists'. by rewrite zlength_insert.
  - unfold zlength. rewrite Hcat. cbn. lia.
  - intros x. rewrite Hc', Hcat, elem_of_cons. tauto.
  - done.
  - eapply changes_weaken; [done|]. cbn. intros x [?|Hx%block_single]; [by left|right]. subst. done.
Qed.

Lemma list_prev_ok l : l ≠ [] → ∃ p l', list_prev l = Ret (p, l') ∧ l ≡ₚ p :: l'.
Proof.
  intros Hl. destruct l as [|p l _] using rev_ind; [done|]. exists p, l. unfold list_prev.
  rewrite last_snoc, removelast_last. split; [done|]. by rewrite Permutation_app_comm.
Qed.

Lemma batch_loop_ok fuel lists mt l to_free batch z B :
  zone_inv z B (concat lists) → zlookup lists mt = Some l → l ≠ [] → 0 < to_free ≤ Z.of_nat fuel →
  ∃ lists' to' batch' z' B', batch_loop fuel lists mt to_free batch z = Ret (lists', to', batch', z') ∧
    0 ≤ to' < to_free ∧ drained z B lists (to_free - to') z' B' lists'.
Proof.
  revert lists l to_free batch z B. induction fuel as [|fuel IH]; intros lists l to_free batch z B HI Hl Hne Hto; [lia|].
  cbn [batch_loop]. unfold array_get. rewrite Hl. cbn [mbind cres_bind].
  destruct (list_prev_ok l Hne) as (p & l' & -> & Hperm). cbn [mbind cres_bind].
  destruct (array_set_lookup lists mt l l' Hl) as (lists' & -> & -> & Hlook). cbn [mbind cres_bind].
  destruct (drain_page z B lists mt l p l') as (pg & z1 & B1 & -> & E1 & D1); [done..|].
  cbn [mbind cres_bind]. rewrite E1. cbn [mbind cres_bind].
  assert (∃ lists' to' batch' z' B',
    Ret (<[Z.to_nat mt := l']> lists, to_free - 1, batch, z1) = Ret (lists', to', batch', z') ∧
    0 ≤ to' < to_free ∧ drained z B lists (to_free - to') z' B' lists') as Hstop.
  { eexists _, _, _, _, B1. split; [done|]. split; [lia|]. by replace (to_free - (to_free - 1)) with 1 by lia. }
  destruct (Z.eqb_spec (to_free - 1) 0) as [|Hto1]; [done|].
  assert (∃ lists' to' batch' z' B',
    Ret (<[Z.to_nat mt := l']> lists, to_free - 1, batch - 1, z1) = Ret (lists', to', batch', z') ∧
    0 ≤ to' < to_free ∧ drained z B lists (to_free - to') z' B' lists') as Hstop'.
  { eexists _, _, _, _, B1. split; [done|]. split; [lia|]. by replace (to_free - (to_free - 1)) with 1 by lia. }
  destruct (batch - 1 =? 0); [done|]. destruct l' as [|y l']; [done|]. clear Hstop Hstop'.
  destruct (IH (<[Z.to_nat mt := y :: l']> lists) (y :: l') (to_free - 1) (batch - 1) z1 B1)
    as (lists2 & to' & batch' & z2 & B2 & -> & Hto' & D2); [apply D1|by rewrite Hlook, decide_True|done|lia|].
  exists lists2, to', batch', z2, B2. split; [done|]. split; [lia|].
  replace (to_free - to') with (1 + (to_free - 1 - to')) by lia. by eapply drained_trans.
Qed.

Lemma next_list_ok lists mt batch :
  zlength lists = MIGRATE_PCPTYPES → 0 ≤ mt < MIGRATE_PCPTYPES → concat lists ≠ [] →
  ∃ mt' batch' l, next_list (Z.to_nat MIGRATE_PCPTYPES) lists mt batch = Ret (mt', batch') ∧
    0 ≤ mt' < MIGRATE_PCPTYPES ∧ zlookup lists mt' = Some l ∧ l ≠ [].
Proof.
  intros Hlen Hmt Hne. unfold MIGRATE_PCPTYPES, zlength in *.
  destruct lists as [|l0 [|l1 [|l2 [|]]]]; cbn in Hlen; try lia.
  assert (mt = 0 ∨ mt = 1 ∨ mt = 2) as [-> |[-> | ->]] by lia;
    destruct l0 as [|x0 l0], l1 as [|x1 l1], l2 as [|x2 l2]; try done;
    (eexists _, _, _; split; [vm_compute; reflexivity|split; [lia|split; [vm_compute; reflexivity|done]]]).
Qed.

Lemma drain_loop_ok fuel lists mt to_free batch z B :
  zone_inv z B (concat lists) → zlength lists = MIGRATE_PCPTYPES → 0 ≤ mt < MIGRATE_PCPTYPES →
  0 ≤ to_free ≤ zlength (concat lists) → to_free < Z.of_nat fuel →
  ∃ lists' z' B', drain_loop fuel lists mt to_free batch z = Ret (lists', z') ∧
    drained z B lists to_free z' B' lists'.
Proof.
  revert lists mt to_free batch z B. induction fuel as [|fuel IH]; intros lists mt to_free batch z B HI Hlen Hmt Hto Hf; [lia|].
  cbn [drain_loop]. unfold truth. destruct (Z.eqb_spec to_free 0) as [->|Hto0]; cbn [negb].
  { exists lists, z, B. split; [done|]. by apply drained_refl. }
  destruct (next_list_ok lists mt batch) as (mt' & batch' & l & -> & Hmt' & Hl & Hne); [done|done| |].
  { intros E. assert (zlength (concat lists) = 0) by (by rewrite E). lia. }
  cbn [mbind cres_bind].
  destruct (batch_loop_ok (Z.to_nat to_free) lists mt' l to_free
    (if batch' =? MIGRATE_PCPTYPES then to_free else batch') z B) as (lists1 & to1 & batch1 & z1 & B1 & -> & Hto1 & D1);
    [done|done|done|lia|].
  cbn [mbind cres_bind]. pose proof (dr_count _ _ _ _ _ _ _ D1). pose proof (dr_lists _ _ _ _ _ _ _ D1).
  destruct (IH lists1 mt' to1 batch1 z1 B1) as (lists2 & z2 & B2 & -> & D2); [apply D1|lia|done|lia|lia|].
  exists lists2, z2, B2. split; [done|]. replace to_free with (to_free - to1 + to1) by lia. by eapply drained_trans.
Qed.

(** ** The whole system *)

(** [B]: free blocks, [pool]: the pages the allocator was started with *)
Record system_inv (pool : Z → Prop) (s : system) (B : gmap Z Z) : Prop := {
  si_zone : zone_inv (a_zone (s_alloc s)) B (concat (pcp_lists (a_pcp (s_alloc s))));
  si_lists : zlength (pcp_lists (a_pcp (s_alloc s))) = MIGRATE_PCPTYPES;
  si_count : pcp_count (a_pcp (s_alloc s)) = zlength (concat (pcp_lists (a_pcp (s_alloc s))));
  si_batch : 0 < pcp_batch (a_pcp (s_alloc s)) ≤ pcp_high (a_pcp (s_alloc s));
  si_free : nr_free_pages (s_alloc s) = total B;
  si_out : ∀ p o, s_out s !! p = Some o → unused (a_zone (s_alloc s)) B p o ∧
    ∀ x, in_block p o x → x ∉ concat (pcp_lists (a_pcp (s_alloc s)));
  si_disjoint : ∀ p o q o' x, s_out s !! p = Some o → s_out s !! q = Some o' →
    in_block p o x → in_block q o' x → p = q;
  si_pages : ∀ x, covered B x ∨ x ∈ concat (pcp_lists (a_pcp (s_alloc s))) ∨ covered (s_out s) x ↔ pool x
}.

(** *** The blocks handed out *)

Lemma out_delete (out : gmap Z Z) p o x :
  (∀ p o q o' x, out !! p = Some o → out !! q = Some o' → in_block p o x → in_block q o' x → p = q) →
  out !! p = Some o → covered out x ↔ covered (delete p out) x ∨ in_block p o x.
Proof.
  intros Hd Hp. split.
  - intros (q & o' & Hq & Hx). destruct (decide (p = q)) as [->|]; [right; congruence|left].
    exists q, o'. by rewrite lookup_delete_ne.
  - intros [(q & o' & [_ Hq]%lookup_delete_Some & Hx)|Hx]; [by exists q, o'|by exists p, o].
Qed.

(** a block that came from the free pages or the lists was not handed out *)
Lemma out_insert pool s B p o :
  system_inv pool s B →
  (∀ x, in_block p o x → covered B x ∨ x ∈ concat (pcp_lists (a_pcp (s_alloc s)))) → 0 ≤ o →
  s_out s !! p = None ∧
  (∀ q o' x, s_out s !! q = Some o' → in_block p o x → ¬ in_block q o' x).
Proof.
  intros HI Hsrc Ho. assert (∀ q o' x, s_out s !! q = Some o' → in_block p o x → ¬ in_block q o' x) as Hno.
  { intros q o' x Hq Hx Hx'. destruct (si_out _ _ _ HI q o' Hq) as [HU HnL].
    destruct (Hsrc x Hx); [by apply (unused_free _ _ _ _ HU x)|by apply (HnL x)]. }
  split; [|done]. destruct (s_out s !! p) as [o'|] eqn:E; [|done]. exfalso.
  destruct (si_out _ _ _ HI p o' E) as [HU _]. pose proof (unused_order _ _ _ _ HU).
  apply (Hno p o' p E); apply block_first; lia.
Qed.

Lemma disjoint_insert (out : gmap Z Z) p o :
  (∀ p o q o' x, out !! p = Some o → out !! q = Some o' → in_block p o x → in_block q o' x → p = q) →
  (∀ q o' x, out !! q = Some o' → in_block p o x → ¬ in_block q o' x) →
  ∀ q1 o1 q2 o2 x, <[p := o]> out !! q1 = Some o1 → <[p := o]> out !! q2 = Some o2 →
    in_block q1 o1 x → in_block q2 o2 x → q1 = q2.
Proof.
  intros Hd Hn q1 o1 q2 o2 x [[<- <-]|[_ H1]]%lookup_insert_Some [[<- <-]|[_ H2]]%lookup_insert_Some Hx1 Hx2.
  - done.
  - exfalso. by eapply (Hn q2 o2 x).
  - exfalso. by eapply (Hn q1 o1 x).
  - by eapply Hd.
Qed.

(** *** The steps *)

(** a change of [private] in a block handed out *)
Lemma use_page_ok pool s B p o x v :
  system_inv pool s B → s_out s !! p = Some o → in_block p o x →
  ∃ z', set_page_private x v (a_zone (s_alloc s)) = Ret z' ∧
    system_inv pool (System (Allocator z' (a_pcp (s_alloc s)) (nr_free_pages (s_alloc s))) (s_out s)) B.
Proof.
  intros HI Hp Hx. pose proof HI as [[HR HB Hnd Hk] HL HC Hb Hf Ho Hd Hpg].
  destruct (Ho p o Hp) as [HU HnL].
  assert (B !! x = None) as Hn.
  { destruct (B !! x) as [o'|] eqn:E; [|done]. exfalso. apply (unused_free _ _ _ _ HU x Hx).
    exists x, o'. split; [done|]. destruct (block_order _ _ HB _ _ E). apply block_first. lia. }
  destruct (set_private_rep (eq x) (a_zone (s_alloc s)) B x v) as (z' & -> & R' & S' & _);
    [done|by apply (unused_zone _ _ _ _ HU)|done|done|].
  exists z'. split; [done|]. split; try done; cbn.
  - split; [done|by eapply blocks_same_zone|done|]. intros q Hq. destruct (Hk q Hq) as (? & ? & ?).
    split; [apply (same_in_zone _ _ q S'); done|]. split; [done|].
    eapply good_frame; [done| |done]. intros <-. by apply (HnL x).
  - intros q o' Hq. destruct (Ho q o' Hq) as [? ?]. split; [by eapply unused_same_zone|done].
Qed.

(** pages moved between the lists and the buddy system *)
Lemma system_drained pool s B k z' B' lists' count :
  system_inv pool s B → drained (a_zone (s_alloc s)) B (pcp_lists (a_pcp (s_alloc s))) k z' B' lists' →
  count = pcp_count (a_pcp (s_alloc s)) - k →
  system_inv pool (System (Allocator z' (Pcp count (pcp_high (a_pcp (s_alloc s))) (pcp_batch (a_pcp (s_alloc s))) lists')
    (nr_free_pages (s_alloc s) + k)) (s_out s)) B'.
Proof.
  intros [HZ HL HC Hb Hf Ho Hd Hpg] [DI DL DC DP DT DS] Hcount. split; try done; cbn.
  - by rewrite DL.
  - lia.
  - lia.
  - intros p o Hp. destruct (Ho p o Hp) as [[U1 U2 U3 U4] HnL]. split; [split; [done|done| |]|].
    + intros x Hx. apply (same_in_zone (a_zone (s_alloc s)) z'); [apply DS|by apply U3].
    + intros x Hx Hc. destruct (proj1 (DP x) (or_introl Hc)); [by apply (U4 x)|by apply (HnL x)].
    + intros x Hx Hc. destruct (proj1 (DP x) (or_intror Hc)); [by apply (U4 x)|by apply (HnL x)].
  - intros x. rewrite <- (Hpg x). specialize (DP x). tauto.
Qed.

Lemma free_bulk_ok pool s B n count :
  system_inv pool s B → 0 ≤ n ≤ pcp_count (a_pcp (s_alloc s)) → count = pcp_count (a_pcp (s_alloc s)) - n →
  ∃ a B', free_pcppages_bulk n (s_alloc s) = Ret a ∧ pcp_count (a_pcp a) = pcp_count (a_pcp (s_alloc s)) ∧
    system_inv pool (System (set_pcp_count count a) (s_out s)) B'.
Proof.
  intros HI Hn Hcount. unfold free_pcppages_bulk. pose proof (si_count _ _ _ HI) as Hc.
  destruct (drain_loop_ok (S (Z.to_nat n)) (pcp_lists (a_pcp (s_alloc s))) 0 n 0 (a_zone (s_alloc s)) B)
    as (lists' & z' & B' & -> & D); [apply HI|apply HI|done|lia|lia|].
  cbn [mbind cres_bind]. eexists _, B'. split; [done|]. split; [done|]. cbn. by eapply system_drained.
Qed.

Lemma drain_pages_ok pool s B :
  system_inv pool s B →
  ∃ a B', drain_pages (s_alloc s) = Ret a ∧ system_inv pool (System a (s_out s)) B'.
Proof.
  intros HI. unfold drain_pages, truth. destruct (Z.eqb_spec (pcp_count (a_pcp (s_alloc s))) 0) as [H0|H0]; cbn [negb].
  - exists (s_alloc s), B. split; [done|]. by destruct s.
  - destruct (free_bulk_ok pool s B (pcp_count (a_pcp (s_alloc s))) 0) as (a & B' & -> & _ & HI'); [done| |lia|].
    { rewrite (si_count _ _ _ HI) in *. pose proof (zlength_nonneg (concat (pcp_lists (a_pcp (s_alloc s))))). lia. }
    cbn [mbind cres_bind]. eexists _, B'. done.
Qed.

(** **** Freeing *)

Lemma free_block_ok pool s B p o mt :
  system_inv pool s B → s_out s !! p = Some o → 0 ≤ mt < MIGRATE_TYPES →
  ∃ a B', free_one_page p o mt (s_alloc s) = Ret a ∧ system_inv pool (System a (delete p (s_out s))) B'.
Proof.
  intros [[HR HB Hnd Hk] HL HC Hb Hf Ho Hd Hpg] Hp Hmt. destruct (Ho p o Hp) as [HU HnL].
  unfold free_one_page.
  destruct (free_one_page_ok (a_zone (s_alloc s)) B p o mt) as (z' & B' & -> & R' & B'ok & Hc & Ht & S'); [done..|].
  cbn [mbind cres_bind]. eexists _, B'. split; [done|]. pose proof (unused_order _ _ _ _ HU).
  split; try done; cbn.
  - split; [done|done|done|]. intros q Hq. destruct (Hk q Hq) as (? & ? & ?).
    assert (¬ (covered B q ∨ in_block p o q)) as HnP by (intros [?|Hx]; [done|by apply (HnL q Hx)]).
    split; [apply (same_in_zone _ _ q (changes_zone _ _ _ S')); done|]. split; [by rewrite Hc|]. by eapply good_frame.
  - rewrite Ht, Hf, Z.shiftl_1_l. lia.
  - intros q o' [Hne Hq]%lookup_delete_Some. destruct (Ho q o' Hq) as [[U1 U2 U3 U4] ?]. split; [|done].
    split; [done|done| |].
    + intros x Hx. apply (same_in_zone _ _ x (changes_zone _ _ _ S')). by apply U3.
    + intros x Hx [?|Hx']%Hc; [by apply (U4 x)|]. apply Hne. by eapply (Hd p o q o' x).
  - intros q o1 q' o2 x [_ Hq]%lookup_delete_Some [_ Hq']%lookup_delete_Some. by apply Hd.
  - intros x. rewrite <- (Hpg x), Hc, (out_delete (s_out s) p o x Hd Hp). tauto.
Qed.

Lemma concat_add (lists : list (list Z)) mt l l' p :
  zlookup lists mt = Some l → l' ≡ₚ p :: l → concat (<[Z.to_nat mt := l']> lists) ≡ₚ p :: concat lists.
Proof. intros Hl. apply concat_insert. unfold zlookup in Hl. by destruct (0 <=? mt). Qed.

Lemma keep_page_ok pool s B p mt l l' :
  system_inv pool s B → s_out s !! p = Some 0 → good_private (a_zone (s_alloc s)) p →
  zlookup (pcp_lists (a_pcp (s_alloc s))) mt = Some l → l' ≡ₚ p :: l →
  system_inv pool (System (Allocator (a_zone (s_alloc s))
    (Pcp (pcp_count (a_pcp (s_alloc s)) + 1) (pcp_high (a_pcp (s_alloc s))) (pcp_batch (a_pcp (s_alloc s)))
       (<[Z.to_nat mt := l']> (pcp_lists (a_pcp (s_alloc s))))) (nr_free_pages (s_alloc s)))
    (delete p (s_out s))) B.
Proof.
  intros [[HR HB Hnd Hk] HL HC Hb Hf Ho Hd Hpg] Hp Hg Hl Hperm. destruct (Ho p 0 Hp) as [HU HnL].
  pose proof (concat_add _ _ _ _ _ Hl Hperm) as Hcat.
  assert (in_block p 0 p) as Hpp by (by apply block_single).
  split; try done; cbn.
  - split; [done|done| |].
    + rewrite Hcat. apply NoDup_cons. split; [by apply HnL|done].
    + intros q. rewrite Hcat, elem_of_cons. intros [->|Hq]; [|by apply Hk].
      split; [by eapply unused_in_zone|]. split; [by apply (unused_free _ _ _ _ HU)|done].
  - by rewrite zlength_insert.
  - unfold zlength in *. rewrite Hcat. cbn. lia.
  - intros q o' [Hne Hq]%lookup_delete_Some. destruct (Ho q o' Hq) as [HU' HnL']. split; [done|].
    intros x Hx. rewrite Hcat, elem_of_cons. intros [->|?]; [|by apply (HnL' x)].
    apply Hne. by eapply (Hd p 0 q o' p).
  - intros q o1 q' o2 x [_ Hq]%lookup_delete_Some [_ Hq']%lookup_delete_Some. by apply Hd.
  - intros x. rewrite <- (Hpg x), Hcat, elem_of_cons, (out_delete (s_out s) p 0 x Hd Hp), block_single. tauto.
Qed.

Lemma pageblock_type pool s B p :
  system_inv pool s B → 0 ≤ get_pageblock_migratetype p (a_zone (s_alloc s)) < MIGRATE_TYPES.
Proof.
  intros HI. unfold get_pageblock_migratetype. destruct (_ !! _) as [mt|] eqn:E; [|done].
  by apply (rep_types _ _ _ _ (zi_rep _ _ _ (si_zone _ _ _ HI)) _ _ E).
Qed.

Lemma free_to_pcp_ok pool s B p mt cold :
  system_inv pool s B → s_out s !! p = Some 0 → good_private (a_zone (s_alloc s)) p →
  0 ≤ mt < MIGRATE_PCPTYPES →
  ∃ a B', free_to_pcp p mt cold (s_alloc s) = Ret a ∧ system_inv pool (System a (delete p (s_out s))) B'.
Proof.
  intros HI Hp Hg Hmt. unfold free_to_pcp.
  destruct (array_get_in (pcp_lists (a_pcp (s_alloc s))) mt) as (l & El & Hl); [by rewrite (si_lists _ _ _ HI)|].
  rewrite El. cbn [mbind cres_bind]. set (l' := if cold then l ++ [p] else p :: l).
  destruct (array_set_lookup (pcp_lists (a_pcp (s_alloc s))) mt l l' Hl) as (lists' & -> & -> & _).
  cbn [mbind cres_bind].
  assert (l' ≡ₚ p :: l) as Hperm by (unfold l'; destruct cold; [by rewrite Permutation_app_comm|done]).
  pose proof (keep_page_ok pool s B p mt l l' HI Hp Hg Hl Hperm) as HI2. set (s2 := System _ _) in HI2.
  destruct (Z.leb_spec (pcp_high (a_pcp (s_alloc s))) (pcp_count (a_pcp (s_alloc s)) + 1)) as [Hhigh|_];
    [|by eexists _, B].
  pose proof (si_batch _ _ _ HI) as Hbatch.
  destruct (free_bulk_ok pool s2 B (pcp_batch (a_pcp (s_alloc s2)))
    (pcp_count (a_pcp (s_alloc s2)) - pcp_batch (a_pcp (s_alloc s2)))) as (a & B' & Ea & Hcnt & HI3);
    [done|cbn; lia|done|].
  change (Allocator (a_zone (s_alloc s)) _ _) with (s_alloc s2).
  change (pcp_batch (a_pcp (s_alloc s))) with (pcp_batch (a_pcp (s_alloc s2))).
  rewrite Ea. cbn [mbind cres_bind]. rewrite Hcnt. by eexists _, B'.
Qed.

Lemma free_hot_cold_ok pool s B p cold :
  system_inv pool s B → s_out s !! p = Some 0 →
  ∃ a B', free_hot_cold_page p cold (s_alloc s) = Ret a ∧ system_inv pool (System a (delete p (s_out s))) B'.
Proof.
  intros HI Hp. unfold free_hot_cold_page. pose proof (pageblock_type pool s B p HI) as Hmt.
  set (mt := get_pageblock_migratetype p (a_zone (s_alloc s))) in *. clearbody mt.
  destruct (si_out _ _ _ HI p 0 Hp) as [HU _].
  destruct (set_private_rep (eq p) (a_zone (s_alloc s)) B p mt) as (z1 & E0 & _ & _ & pg & Hpg & Hv);
    [apply HI|by eapply unused_in_zone|eapply unused_none; [apply HI|done]|done|].
  destruct (use_page_ok pool s B p 0 p mt) as (z1' & E & HI1); [done|done|by apply block_single|].
  assert (z1' = z1) as -> by congruence. rewrite E0. cbn [mbind cres_bind].
  set (s1 := System _ _) in HI1. change (Allocator z1 _ _) with (s_alloc s1).
  assert (good_private (a_zone (s_alloc s1)) p) as Hg by (exists pg; split; [done|by rewrite Hv]).
  destruct (_ && _); [by apply (free_block_ok pool s1 B p 0 mt)|].
  apply (free_to_pcp_ok pool s1 B); [done..|].
  destruct (Z.leb_spec MIGRATE_PCPTYPES mt); unfold MIGRATE_MOVABLE, MIGRATE_PCPTYPES in *; lia.
Qed.

Lemma free_pages_ok pool s B p o :
  system_inv pool s B → s_out s !! p = Some o →
  ∃ a B', __free_pages p o (s_alloc s) = Ret a ∧ system_inv pool (System a (delete p (s_out s))) B'.
Proof.
  intros HI Hp. unfold __free_pages. destruct (Z.eqb_spec o 0) as [->|].
  - by apply (free_hot_cold_ok pool s B).
  - apply (free_block_ok pool s B); [done|done|by eapply pageblock_type].
Qed.

(** **** Allocating *)

Lemma hand_out_block pool s B order p z' :
  system_inv pool s B → allocated (a_zone (s_alloc s)) B order p z' →
  ∃ B', system_inv pool (System (Allocator z' (a_pcp (s_alloc s)) (nr_free_pages (s_alloc s) - Z.shiftl 1 order))
    (<[p := order]> (s_out s))) B'.
Proof.
  intros HI (B' & R' & B'ok & U' & Hc & Ht & S'). pose proof (unused_order _ _ _ _ U') as Hord.
  destruct (out_insert pool s B p order HI) as [Hnone Hno]; [intros x Hx; left; apply Hc; by right|lia|].
  destruct HI as [[HR HB Hnd Hk] HL HC Hb Hf Ho Hd Hpg]. exists B'. split; try done; cbn.
  - split; [done|done|done|]. intros q Hq. destruct (Hk q Hq) as (? & Hq' & ?).
    split; [apply (same_in_zone _ _ q (changes_zone _ _ _ S')); done|].
    split; [rewrite Hc in Hq'; tauto|]. by eapply good_frame.
  - rewrite Hf, Ht, Z.shiftl_1_l. lia.
  - intros q o' [[<- <-]|[Hne Hq]]%lookup_insert_Some.
    + split; [done|]. intros x Hx HxL. destruct (Hk x HxL) as (_ & Hn & _). apply Hn, Hc. by right.
    + destruct (Ho q o' Hq) as [[U1 U2 U3 U4] HnL]. split; [split; [done|done| |]|done].
      * intros x Hx. apply (same_in_zone _ _ x (changes_zone _ _ _ S')). by apply U3.
      * intros x Hx Hx'. apply (U4 x Hx), Hc. by left.
  - by apply disjoint_insert.
  - intros x. rewrite <- (Hpg x), Hc, (covered_insert (s_out s)) by done. tauto.
Qed.

Lemma hand_out_page pool s B p mt l l' :
  system_inv pool s B → zlookup (pcp_lists (a_pcp (s_alloc s))) mt = Some l → l ≡ₚ p :: l' →
  system_inv pool (System (Allocator (a_zone (s_alloc s))
    (Pcp (pcp_count (a_pcp (s_alloc s)) - 1) (pcp_high (a_pcp (s_alloc s))) (pcp_batch (a_pcp (s_alloc s)))
       (<[Z.to_nat mt := l']> (pcp_lists (a_pcp (s_alloc s))))) (nr_free_pages (s_alloc s)))
    (<[p := 0]> (s_out s))) B.
Proof.
  intros HI Hl Hperm. set (lists := pcp_lists (a_pcp (s_alloc s))) in *.
  assert (concat lists ≡ₚ p :: concat (<[Z.to_nat mt := l']> lists)) as Hcat.
  { pose proof (zlookup_Some _ _ _ Hl) as Hb. rewrite <- (concat_add (<[Z.to_nat mt := l']> lists) mt l' l p);
      [|by rewrite zlookup_insert_eq|done].
    unfold zlookup in Hl. destruct (0 <=? mt); [|done]. by rewrite list_insert_insert_eq, list_insert_id. }
  destruct (out_insert pool s B p 0 HI) as [Hnone Hno]; [intros x ->%block_single; right; fold lists; rewrite Hcat; set_solver|done|].
  destruct HI as [[HR HB Hnd Hk] HL HC Hb Hf Ho Hd Hpg]. fold lists in Hnd, Hk, HL, HC, Ho, Hpg.
  destruct (Hk p) as (Hpz & Hpc & _); [rewrite Hcat; set_solver|].
  assert (NoDup (p :: concat (<[Z.to_nat mt := l']> lists))) as [Hpn Hnd']%NoDup_cons by (by rewrite <- Hcat).
  split; try done; cbn.
  - split; [done|done|done|]. intros q Hq. apply Hk. rewrite Hcat. set_solver.
  - by rewrite zlength_insert.
  - unfold zlength in *. rewrite HC, Hcat. cbn. lia.
  - intros q o' [[<- <-]|[Hne Hq]]%lookup_insert_Some.
    + split; [split; [done|by exists p; lia|intros x ->%block_single; done|intros x ->%block_single; done]|].
      intros x ->%block_single. done.
    + destruct (Ho q o' Hq) as [HU HnL]. split; [done|]. intros x Hx Hx'. apply (HnL x Hx). rewrite Hcat. set_solver.
  - by apply disjoint_insert.
  - intros x. rewrite <- (Hpg x), Hcat, elem_of_cons, (covered_insert (s_out s)), block_single by done. tauto.
Qed.

Lemma refill_ok pool s B mt cold :
  system_inv pool s B → 0 ≤ mt < MIGRATE_PCPTYPES → zlookup (pcp_lists (a_pcp (s_alloc s))) mt = Some [] →
  ∃ i l' z' nr B',
    rmqueue_bulk (pcp_batch (a_pcp (s_alloc s))) mt [] cold (a_zone (s_alloc s)) (nr_free_pages (s_alloc s)) =
      Ret (i, l', z', nr) ∧
    system_inv pool (System (Allocator z'
      (Pcp (pcp_count (a_pcp (s_alloc s)) + i) (pcp_high (a_pcp (s_alloc s))) (pcp_batch (a_pcp (s_alloc s)))
         (<[Z.to_nat mt := l']> (pcp_lists (a_pcp (s_alloc s))))) nr) (s_out s)) B'.
Proof.
  intros [HZ HL HC Hb Hf Ho Hd Hpg] Hmt Hl. unfold rmqueue_bulk.
  destruct (bulk_loop_ok (Z.to_nat (pcp_batch (a_pcp (s_alloc s)))) mt _ _ _ HZ Hmt)
    as (ps & z' & B' & -> & HZ' & Hc & Ht & S'). cbn [mbind cres_bind].
  set (l' := if cold then [] ++ rev ps else ps ++ []). set (lists := pcp_lists (a_pcp (s_alloc s))) in *.
  assert (concat (<[Z.to_nat mt := l']> lists) ≡ₚ ps ++ concat lists) as Hcat.
  { assert (l' ≡ₚ ps) as Hl' by (unfold l'; destruct cold; [by rewrite <- Permutation_rev|by rewrite app_nil_r]).
    unfold zlookup in Hl. destruct (0 <=? mt); [|done].
    rewrite <- (take_drop_middle lists (Z.to_nat mt) [] Hl) at 2. rewrite insert_take_drop by (by eapply lookup_lt_Some).
    rewrite !concat_app. cbn. rewrite Hl', !app_assoc. by rewrite (Permutation_app_comm (concat _) ps). }
  eexists _, _, z', _, B'. split; [done|]. split; try done; cbn.
  - by eapply zone_inv_perm.
  - by rewrite zlength_insert.
  - unfold zlength in *. rewrite Hcat, length_app. lia.
  - lia.
  - intros q o Hq. destruct (Ho q o Hq) as [[U1 U2 U3 U4] HnL]. split; [split; [done|done| |]|].
    + intros x Hx. apply (same_in_zone _ _ x (changes_zone _ _ _ S')). by apply U3.
    + intros x Hx Hx'. apply (U4 x Hx), Hc. by left.
    + intros x Hx. rewrite Hcat, elem_of_app. intros [?|?]; [apply (U4 x Hx), Hc; by right|by apply (HnL x)].
  - intros x. rewrite <- (Hpg x), Hcat, elem_of_app, Hc. tauto.
Qed.

Lemma take_page_ok cold l : l ≠ [] → ∃ p l', take_page cold l = Ret (p, l') ∧ l ≡ₚ p :: l'.
Proof. intros Hl. destruct cold; [by apply list_prev_ok|]. destruct l as [|p l]; [done|]. by exists p, l. Qed.

(** a page of a list that is not empty is handed out *)
Lemma take_from_list pool s B mt l cold :
  system_inv pool s B → zlookup (pcp_lists (a_pcp (s_alloc s))) mt = Some l → l ≠ [] →
  ∃ p l' z' B', take_page cold l = Ret (p, l') ∧ set_page_private p 0 (a_zone (s_alloc s)) = Ret z' ∧
    system_inv pool (System (Allocator z'
      (Pcp (pcp_count (a_pcp (s_alloc s)) - 1) (pcp_high (a_pcp (s_alloc s))) (pcp_batch (a_pcp (s_alloc s)))
         (<[Z.to_nat mt := l']> (pcp_lists (a_pcp (s_alloc s))))) (nr_free_pages (s_alloc s)))
      (<[p := 0]> (s_out s))) B'.
Proof.
  intros HI Hl Hne. destruct (take_page_ok cold l Hne) as (p & l' & E & Hperm).
  pose proof (hand_out_page pool s B p mt l l' HI Hl Hperm) as HI1. set (s1 := System _ _) in HI1.
  destruct (use_page_ok pool s1 B p 0 p 0 HI1) as (z' & E' & HI2);
    [apply lookup_insert_eq|by apply block_single|].
  by exists p, l', z', B.
Qed.

Lemma buffered_rmqueue_ok pool s B order mt cold :
  system_inv pool s B → 0 ≤ order < MAX_ORDER → 0 ≤ mt < MIGRATE_PCPTYPES →
  ∃ r a B', buffered_rmqueue order mt cold (s_alloc s) = Ret (r, a) ∧
    system_inv pool (System a (match r with Some p => <[p := order]> (s_out s) | None => s_out s end)) B'.
Proof.
  intros HI Hord Hmt. unfold buffered_rmqueue. destruct (Z.eqb_spec order 0) as [->|Hne].
  - destruct (array_get_in (pcp_lists (a_pcp (s_alloc s))) mt) as (l & -> & Hl); [by rewrite (si_lists _ _ _ HI)|].
    cbn [mbind cres_bind]. destruct l as [|x l].
    + destruct (refill_ok pool s B mt cold HI Hmt Hl) as (i & l1 & z1 & nr & B1 & -> & HI1). cbn [mbind cres_bind].
      set (s1 := System _ _) in HI1. pose proof (zlookup_Some _ _ _ Hl) as Hb.
      destruct l1 as [|y l1].
      { rewrite array_set_in by done. by eexists None, _, B1. }
      destruct (take_from_list pool s1 B1 mt (y :: l1) cold HI1) as (p & l' & z' & B' & -> & E & HI2);
        [by apply zlookup_insert_eq|done|].
      cbn [mbind cres_bind]. rewrite array_set_in by done. cbn [mbind cres_bind].
      change z1 with (a_zone (s_alloc s1)). rewrite E. cbn [mbind cres_bind].
      eexists (Some p), _, B'. split; [done|]. cbn in HI2. by rewrite list_insert_insert_eq in HI2.
    + cbn [mbind cres_bind]. destruct (take_from_list pool s B mt (x :: l) cold HI Hl) as (p & l' & z' & B' & -> & E & HI2); [done|].
      cbn [mbind cres_bind]. rewrite array_set_in by (by eapply zlookup_Some). cbn [mbind cres_bind].
      rewrite E. cbn [mbind cres_bind]. by eexists (Some p), _, B'.
  - destruct (rmqueue_ok (a_zone (s_alloc s)) B order mt) as (r & z1 & -> & Hr); [apply HI|apply HI|done|done|].
    cbn [mbind cres_bind]. destruct r as [p|].
    + destruct (hand_out_block pool s B order p z1 HI Hr) as (B1 & HI1). set (s1 := System _ _) in HI1.
      destruct (use_page_ok pool s1 B1 p order p 0 HI1) as (z' & E & HI2);
        [apply lookup_insert_eq|apply block_first; lia|].
      change z1 with (a_zone (s_alloc s1)). rewrite E. cbn [mbind cres_bind]. by eexists (Some p), _, B1.
    + destruct Hr as [-> _]. eexists None, _, B. split; [done|]. by destruct s as [[z pcp nr] out].
Qed.

(** *** Every sequence *)

Lemma system_step_ok pool c s B :
  system_inv pool s B → ∃ s' B', system_step c s = Ret s' ∧ system_inv pool s' B'.
Proof.
  intros HI. destruct c as [order mt cold|p| |p x v]; cbn [system_step].
  - destruct (_ && _) eqn:E; [|by exists s, B]. bprop.
    destruct (buffered_rmqueue_ok pool s B order mt cold) as (r & a & B' & -> & HI'); [done|lia|lia|].
    cbn [mbind cres_bind]. by eexists _, B'.
  - destruct (s_out s !! p) as [o|] eqn:Hp; [|by exists s, B].
    destruct (free_pages_ok pool s B p o) as (a & B' & -> & HI'); [done..|]. cbn [mbind cres_bind]. by eexists _, B'.
  - destruct (drain_pages_ok pool s B HI) as (a & B' & -> & HI'). cbn [mbind cres_bind]. by eexists _, B'.
  - destruct (s_out s !! p) as [o|] eqn:Hp; [|by exists s, B]. destruct (_ && _) eqn:E; [|by exists s, B]. bprop.
    rewrite Z.shiftl_1_l in *. destruct (use_page_ok pool s B p o x v) as (z' & -> & HI'); [done|done|by split|].
    cbn [mbind cres_bind]. by eexists _, B.
Qed.

Lemma system_run_ok pool l s B :
  system_inv pool s B → ∃ s' B', system_run l s = Ret s' ∧ system_inv pool s' B'.
Proof.
  revert s B. induction l as [|c l IH]; intros s B HI; cbn [system_run]; [by exists s, B|].
  destruct (system_step_ok pool c s B HI) as (s1 & B1 & -> & HI1). cbn [mbind cres_bind]. by eapply IH.
Qed.

(** the allocator at boot, with empty per-cpu lists *)
Definition at_boot (z : zone) (high batch nr : Z) : system :=
  System (Allocator z (Pcp 0 high batch [[]; []; []]) nr) ∅.

(** C2: the page allocator, from boot, over every sequence of allocations of any
    order and migrate type, frees, drains and uses of the pages handed out. No
    call leaves the page map or a list or loops for ever; blocks handed out are
    aligned to their size, inside the zone, disjoint, and contain no free
    page; every page is either free, on a per-cpu list or handed out and none is
    lost or created; free blocks are completely coalesced; and NR_FREE_PAGES and the
    count of the per-cpu lists are exact. *)
Theorem page_allocator_correct z B0 high batch l :
  represents z B0 → blocks_ok z B0 → 0 < batch ≤ high →
  ∃ s B, system_run l (at_boot z high batch (total B0)) = Ret s ∧
    represents (a_zone (s_alloc s)) B ∧ blocks_ok (a_zone (s_alloc s)) B ∧
    (∀ p o, s_out s !! p = Some o → aligned o p ∧
      ∀ x, in_block p o x → in_zone z x ∧ ¬ covered B x ∧ x ∉ concat (pcp_lists (a_pcp (s_alloc s)))) ∧
    (∀ p o q o' x, s_out s !! p = Some o → s_out s !! q = Some o' →
      in_block p o x → in_block q o' x → p = q) ∧
    (∀ x, covered B0 x ↔
      covered B x ∨ x ∈ concat (pcp_lists (a_pcp (s_alloc s))) ∨ covered (s_out s) x) ∧
    nr_free_pages (s_alloc s) = total B ∧
    pcp_count (a_pcp (s_alloc s)) = zlength (concat (pcp_lists (a_pcp (s_alloc s)))).
Proof.
  intros HR HB Hbatch. assert (system_inv (covered B0) (at_boot z high batch (total B0)) B0) as HI.
  { split; try done; cbn.
    - split; [done|done|constructor|set_solver].
    - intros x. split; [|by left]. intros [?|[?|(p & o & Hp & _)]]; [done|set_solver|].
      by rewrite lookup_empty in Hp. }
  destruct (system_run_ok _ l _ _ HI) as (s & B & -> & [[R' B' _ _] _ HC _ Hf Ho Hd Hpg]).
  exists s, B. split_and!; try done.
  - intros p o Hp. destruct (Ho p o Hp) as [[U1 U2 U3 U4] HnL]. split; [done|]. intros x Hx.
    split; [|split; [by apply U4|by apply HnL]]. assert (covered B0 x) as (q & o' & Hq & Hx').
    { apply Hpg. right. right. by exists p, o. }
    by eapply (block_zone _ _ HB).
Qed.

Lemma page_allocator_correct_witness :
  ∃ s B, system_run [AllocPages 0 2 false; AllocPages 3 1 false; FreePages 0; DrainPages]
      (at_boot zone1 6 2 (total {[0 := 10]})) = Ret s ∧
    represents (a_zone (s_alloc s)) B ∧ blocks_ok (a_zone (s_alloc s)) B ∧
    (∀ p o, s_out s !! p = Some o → aligned o p ∧
      ∀ x, in_block p o x → in_zone zone1 x ∧ ¬ covered B x ∧ x ∉ concat (pcp_lists (a_pcp (s_alloc s)))) ∧
    (∀ p o q o' x, s_out s !! p = Some o → s_out s !! q = Some o' →
      in_block p o x → in_block q o' x → p = q) ∧
    (∀ x, covered {[0 := 10]} x ↔
      covered B x ∨ x ∈ concat (pcp_lists (a_pcp (s_alloc s))) ∨ covered (s_out s) x) ∧
    nr_free_pages (s_alloc s) = total B ∧
    pcp_count (a_pcp (s_alloc s)) = zlength (concat (pcp_lists (a_pcp (s_alloc s)))).
Proof. apply page_allocator_correct; [apply zone1_ok|apply zone1_ok|done]. Defined.

(** a block of 16 pages: two single pages and four pages are split off it; when all of it is free again the block is whole *)
Definition map64 : gmap Z page := list_to_map ((λ p, (p, Page (p =? 0) 4 7)) <$> seqZ 0 64).
Definition zone16 : zone :=
  Zone 7 0 64 map64
    (replicate 4 area0 ++ [FreeArea [[]; []; [0]; []; []] 1] ++ replicate 6 area0) ∅ false.

Example split_and_merge :
  (s ← system_run [AllocPages 0 2 false; AllocPages 2 2 false] (at_boot zone16 6 2 16);
   Ret (map_to_list (s_out s), nr_free_pages (s_alloc s))) = Ret ([(4, 2); (0, 0)], 10) ∧
  (s ← system_run [AllocPages 0 2 false; AllocPages 2 2 false; FreePages 0; FreePages 4; DrainPages]
         (at_boot zone16 6 2 16);
   l ← get_list (a_zone (s_alloc s)) 4 0;
   Ret (map_to_list (s_out s), nr_free_pages (s_alloc s), l)) = Ret ([], 16, [0]).
Proof. vm_compute. done. Qed.
