(* ===== verification/Rbtree.v ===== *)
(** * Red-black trees (lib/rbtree.c, include/linux/rbtree.h)

    The nodes are in a memory indexed by their addresses, with the parent pointer
    and the colour packed into one word as in the code; NULL is 0. Callers search
    by themselves, link a new node at the leaf they found and let
    [rb_insert_color] restore the balance; so the functions say nothing about keys,
    and what they promise is about the order of the nodes. RbtreeInv.v shows it. *)
From S2P Require Import Prelude.

(** ** Memory *)
Record rb_node := RbNode { rb_parent_color : Z; rb_right_ : Z; rb_left_ : Z }.

(** the memory and [root->rb_node] *)
Record rb_state := RbState { nodes : gmap Z rb_node; rb_root : Z }.

Definition rbM (A : Type) : Type := rb_state → cres (A * rb_state).
#[global] Instance rbM_ret : MRet rbM := λ A a s, Ret (a, s).
#[global] Instance rbM_bind : MBind rbM := λ A B f m s,
  match m s with Ret (a, s) => f a s | Err e => Err e | UB => UB end.

(** dereferencing NULL or a pointer to no node is undefined *)
Definition load (p : Z) : rbM rb_node := λ s,
  match nodes s !! p with Some n => Ret (n, s) | None => UB end.
Definition store (p : Z) (n : rb_node) : rbM unit := λ s,
  match nodes s !! p with
  | Some _ => Ret (tt, RbState (<[p := n]> (nodes s)) (rb_root s))
  | None => UB
  end.
Definition no_fuel {A} : rbM A := λ s, UB.

Definition get_root : rbM Z := λ s, Ret (rb_root s, s).
Definition set_root (p : Z) : rbM unit := λ s, Ret (tt, RbState (nodes s) p).

Definition rb_left (p : Z) : rbM Z := n ← load p; mret (rb_left_ n).
Definition rb_right (p : Z) : rbM Z := n ← load p; mret (rb_right_ n).
Definition set_left (p v : Z) : rbM unit :=
  n ← load p; store p (RbNode (rb_parent_color n) (rb_right_ n) v).
Definition set_right (p v : Z) : rbM unit :=
  n ← load p; store p (RbNode (rb_parent_color n) v (rb_left_ n)).
Definition set_parent_color (p w : Z) : rbM unit :=
  n ← load p; store p (RbNode w (rb_right_ n) (rb_left_ n)).

(** ** Parent and colour *)
Definition RB_RED : Z := 0.
Definition RB_BLACK : Z := 1.

Definition rb_parent (r : Z) : rbM Z :=
  n ← load r; mret (Z.land (rb_parent_color n) 0xfffffffc).
Definition rb_color (r : Z) : rbM Z := n ← load r; mret (Z.land (rb_parent_color n) 1).
Definition rb_is_red (r : Z) : rbM bool := c ← rb_color r; mret (negb (truth c)).
Definition rb_is_black (r : Z) : rbM bool := c ← rb_color r; mret (truth c).
Definition rb_set_red (r : Z) : rbM unit :=
  n ← load r; set_parent_color r (Z.land (rb_parent_color n) 0xfffffffe).
Definition rb_set_black (r : Z) : rbM unit :=
  n ← load r; set_parent_color r (Z.lor (rb_parent_color n) 1).
Definition rb_set_parent (rb p : Z) : rbM unit :=
  n ← load rb; set_parent_color rb (Z.lor (Z.land (rb_parent_color n) 3) p).
Definition rb_set_color (rb color : Z) : rbM unit :=
  n ← load rb; set_parent_color rb (Z.lor (Z.land (rb_parent_color n) 0xfffffffe) color).

Definition rb_init_node (rb : Z) : rbM unit :=
  set_parent_color rb 0;; set_right rb 0;; set_left rb 0;; rb_set_parent rb rb.

(** [rb_link] points to [root->rb_node] or to a child pointer of a node *)
Inductive rb_link := LinkRoot | LinkLeft (p : Z) | LinkRight (p : Z).
Definition set_link (l : rb_link) (v : Z) : rbM unit :=
  match l with
  | LinkRoot => set_root v
  | LinkLeft p => set_left p v
  | LinkRight p => set_right p v
  end.

Definition rb_link_node (node parent : Z) (l : rb_link) : rbM unit :=
  set_parent_color node parent;;
  set_right node 0;; set_left node 0;;
  set_link l node.

Definition when (b : bool) (m : rbM unit) : rbM unit := if b then m else mret tt.

(** ** Rotations *)
Definition __rb_rotate_left (node : Z) : rbM unit :=
  right ← rb_right node;
  parent ← rb_parent node;
  rl ← rb_left right;
  set_right node rl;;
  when (truth rl) (rl ← rb_left right; rb_set_parent rl node);;
  set_left right node;;
  rb_set_parent right parent;;
  (if truth parent then
     pl ← rb_left parent;
     if node =? pl then set_left parent right else set_right parent right
   else set_root right);;
  rb_set_parent node right.

Definition __rb_rotate_right (node : Z) : rbM unit :=
  left ← rb_left node;
  parent ← rb_parent node;
  lr ← rb_right left;
  set_left node lr;;
  when (truth lr) (lr ← rb_right left; rb_set_parent lr node);;
  set_right left node;;
  rb_set_parent left parent;;
  (if truth parent then
     pr ← rb_right parent;
     if node =? pr then set_right parent left else set_left parent left
   else set_root left);;
  rb_set_parent node left.

(** ** Insertion *)

(** [uncle && rb_is_red(uncle)] *)
Definition is_red_node (p : Z) : rbM bool := if truth p then rb_is_red p else mret false.
(** [!p || rb_is_black(p)] *)
Definition is_black_node (p : Z) : rbM bool := if truth p then rb_is_black p else mret true.

(** the body of the loop when [parent == gparent->rb_left], and the next [node] *)
Definition insert_left (node parent gparent : Z) : rbM Z :=
  uncle ← rb_right gparent;
  red ← is_red_node uncle;
  if red : bool then
    rb_set_black uncle;; rb_set_black parent;; rb_set_red gparent;;
    mret gparent
  else
    pr ← rb_right parent;
    '(parent, node) ←
      (if pr =? node then __rb_rotate_left parent;; mret (node, parent)
       else mret (parent, node));
    rb_set_black parent;; rb_set_red gparent;;
    __rb_rotate_right gparent;;
    mret node.

Definition insert_right (node parent gparent : Z) : rbM Z :=
  uncle ← rb_left gparent;
  red ← is_red_node uncle;
  if red : bool then
    rb_set_black uncle;; rb_set_black parent;; rb_set_red gparent;;
    mret gparent
  else
    pl ← rb_left parent;
    '(parent, node) ←
      (if pl =? node then __rb_rotate_right parent;; mret (node, parent)
       else mret (parent, node));
    rb_set_black parent;; rb_set_red gparent;;
    __rb_rotate_left gparent;;
    mret node.

Fixpoint insert_loop (fuel : nat) (node : Z) : rbM unit :=
  match fuel with
  | O => no_fuel
  | S fuel =>
      parent ← rb_parent node;
      red ← is_red_node parent;
      if red : bool then
        gparent ← rb_parent parent;
        gl ← rb_left gparent;
        node ← (if parent =? gl then insert_left node parent gparent
                else insert_right node parent gparent);
        insert_loop fuel node
      else mret tt
  end.

Definition rb_insert_color (node : Z) : rbM unit := λ s,
  (insert_loop (S (size (nodes s))) node;;
   root ← get_root;
   rb_set_black root) s.

(** ** Removal *)

(** the body of the loop when [parent->rb_left == node]: the next [node] and
    [parent], and whether the loop is left with [break] *)
Definition erase_left (node parent : Z) : rbM (Z * Z * bool) :=
  other ← rb_right parent;
  red ← rb_is_red other;
  other ← (if red : bool then
             rb_set_black other;; rb_set_red parent;;
             __rb_rotate_left parent;;
             rb_right parent
           else mret other);
  ol ← rb_left other; bl ← is_black_node ol;
  both ← (if bl : bool then r ← rb_right other; is_black_node r else mret false);
  if both : bool then
    rb_set_red other;;
    p ← rb_parent parent;
    mret (parent, p, false)
  else
    r ← rb_right other; br ← is_black_node r;
    other ← (if br : bool then
               l ← rb_left other; rb_set_black l;; rb_set_red other;;
               __rb_rotate_right other;;
               rb_right parent
             else mret other);
    c ← rb_color parent; rb_set_color other c;;
    rb_set_black parent;;
    r ← rb_right other; rb_set_black r;;
    __rb_rotate_left parent;;
    root ← get_root;
    mret (root, parent, true).

Definition erase_right (node parent : Z) : rbM (Z * Z * bool) :=
  other ← rb_left parent;
  red ← rb_is_red other;
  other ← (if red : bool then
             rb_set_black other;; rb_set_red parent;;
             __rb_rotate_right parent;;
             rb_left parent
           else mret other);
  ol ← rb_left other; bl ← is_black_node ol;
  both ← (if bl : bool then r ← rb_right other; is_black_node r else mret false);
  if both : bool then
    rb_set_red other;;
    p ← rb_parent parent;
    mret (parent, p, false)
  else
    l ← rb_left other; bl ← is_black_node l;
    other ← (if bl : bool then
               r ← rb_right other; rb_set_black r;; rb_set_red other;;
               __rb_rotate_left other;;
               rb_left parent
             else mret other);
    c ← rb_color parent; rb_set_color other c;;
    rb_set_black parent;;
    l ← rb_left other; rb_set_black l;;
    __rb_rotate_right parent;;
    root ← get_root;
    mret (root, parent, true).

(** the [while] loop; gives the last [node] *)
Fixpoint erase_loop (fuel : nat) (node parent : Z) : rbM Z :=
  match fuel with
  | O => no_fuel
  | S fuel =>
      black ← is_black_node node;
      root ← get_root;
      if (black : bool) && negb (node =? root) then
        pl ← rb_left parent;
        '(node, parent, stop) ←
          (if pl =? node then erase_left node parent else erase_right node parent);
        if stop : bool then mret node else erase_loop fuel node parent
      else mret node
  end.

Definition __rb_erase_color (node parent : Z) : rbM unit := λ s,
  (node ← erase_loop (S (size (nodes s))) node parent;
   when (truth node) (rb_set_black node)) s.

(** [while ((left = node->rb_left) != NULL) node = left;], also the loops of
    [rb_first] and [rb_next] *)
Fixpoint leftmost (fuel : nat) (node : Z) : rbM Z :=
  match fuel with
  | O => no_fuel
  | S fuel =>
      left ← rb_left node;
      if truth left then leftmost fuel left else mret node
  end.

Fixpoint rightmost (fuel : nat) (node : Z) : rbM Z :=
  match fuel with
  | O => no_fuel
  | S fuel =>
      right ← rb_right node;
      if truth right then rightmost fuel right else mret node
  end.

(** a node with two children: its successor takes its place. Gives the child and
    the parent from where the balance is restored, and the colour that was lost. *)
Definition erase_inner (old : Z) : rbM (Z * Z * Z) := λ s,
  (node ← rb_right old;
   node ← leftmost (S (size (nodes s))) node;
   op ← rb_parent old;
   (if truth op then
      opl ← rb_left op;
      if opl =? old then set_left op node else set_right op node
    else set_root node);;
   child ← rb_right node;
   parent ← rb_parent node;
   color ← rb_color node;
   parent ←
     (if parent =? old then mret node
      else
        when (truth child) (rb_set_parent child parent);;
        set_left parent child;;
        or ← rb_right old;
        set_right node or;;
        rb_set_parent or node;;
        mret parent);
   o ← load old;
   set_parent_color node (rb_parent_color o);;
   ol ← rb_left old;
   set_left node ol;;
   rb_set_parent ol node;;
   mret (child, parent, color)) s.

(** a node with at most one child *)
Definition erase_outer (node child : Z) : rbM (Z * Z * Z) :=
  parent ← rb_parent node;
  color ← rb_color node;
  when (truth child) (rb_set_parent child parent);;
  (if truth parent then
     pl ← rb_left parent;
     if pl =? node then set_left parent child else set_right parent child
   else set_root child);;
  mret (child, parent, color).

Definition rb_erase (node : Z) : rbM unit :=
  left ← rb_left node;
  right ← rb_right node;
  '(child, parent, color) ←
    (if negb (truth left) then erase_outer node right
     else if negb (truth right) then erase_outer node left
     else erase_inner node);
  when (color =? RB_BLACK) (__rb_erase_color child parent).

(** ** Replacement *)
Definition rb_replace_node (victim new : Z) : rbM unit :=
  parent ← rb_parent victim;
  (if truth parent then
     pl ← rb_left parent;
     if victim =? pl then set_left parent new else set_right parent new
   else set_root new);;
  vl ← rb_left victim;
  when (truth vl) (rb_set_parent vl new);;
  vr ← rb_right victim;
  when (truth vr) (rb_set_parent vr new);;
  n ← load victim;
  store new n.

(** ** Walking *)
Definition rb_first : rbM Z := λ s,
  (n ← get_root;
   if truth n then leftmost (S (size (nodes s))) n else mret 0) s.

Definition rb_last : rbM Z := λ s,
  (n ← get_root;
   if truth n then rightmost (S (size (nodes s))) n else mret 0) s.

(** [while ((parent = rb_parent(node)) && node == parent->rb_right) node = parent;] *)
Fixpoint up_right (fuel : nat) (node : Z) : rbM Z :=
  match fuel with
  | O => no_fuel
  | S fuel =>
      parent ← rb_parent node;
      if truth parent then
        pr ← rb_right parent;
        if node =? pr then up_right fuel parent else mret parent
      else mret parent
  end.

Fixpoint up_left (fuel : nat) (node : Z) : rbM Z :=
  match fuel with
  | O => no_fuel
  | S fuel =>
      parent ← rb_parent node;
      if truth parent then
        pl ← rb_left parent;
        if node =? pl then up_left fuel parent else mret parent
      else mret parent
  end.

Definition rb_next (node : Z) : rbM Z := λ s,
  (parent ← rb_parent node;
   if parent =? node then mret 0 else
   right ← rb_right node;
   if truth right then leftmost (S (size (nodes s))) right
   else up_right (S (size (nodes s))) node) s.

Definition rb_prev (node : Z) : rbM Z := λ s,
  (parent ← rb_parent node;
   if parent =? node then mret 0 else
   left ← rb_left node;
   if truth left then rightmost (S (size (nodes s))) left
   else up_left (S (size (nodes s))) node) s.
