(* ===== verification/RbtreeInv.v ===== *)
(** * Red-black trees: the memory as a tree (continues Rbtree.v)

    A zipper describes a place in a tree: the subtree there and the frames above
    it. [holds] says that a memory represents a tree; each primitive and each
    rotation is then a rule on trees, and the loops are reasoned about on zippers.
    The two mirrored halves of the code are instances of one generic form. *)
From S2P Require Import Prelude Rbtree.

(** ** Running a function *)
Definition wp {A} (m : rbM A) (Q : A → rb_state → Prop) (s : rb_state) : Prop :=
  match m s with Ret (a, s') => Q a s' | _ => False end.

Lemma rb_bind {A B} (m : rbM A) (f : A → rbM B) Q s :
  wp m (λ a s', wp (f a) Q s') s → wp (m ≫= f) Q s.
Proof.
  unfold wp, mbind, rbM_bind. by destruct (m s) as [[a s']| |].
Qed.

Lemma rb_ret {A} (a : A) (Q : A → rb_state → Prop) s : Q a s → wp (mret a) Q s.
Proof. done. Qed.

Lemma rb_mono {A} (m : rbM A) (Q Q' : A → rb_state → Prop) s :
  wp m Q s → (∀ a s', Q a s' → Q' a s') → wp m Q' s.
Proof. unfold wp. destruct (m s) as [[a s']| |]; auto. Qed.

Lemma wp_run {A} (m : rbM A) (Q : A → rb_state → Prop) s :
  wp m Q s ↔ ∃ a s', m s = Ret (a, s') ∧ Q a s'.
Proof. unfold wp. destruct (m s) as [[a s']| |]; naive_solver. Qed.

Lemma wp_if {A} (b : bool) (m1 m2 : rbM A) Q s :
  (if b then wp m1 Q s else wp m2 Q s) → wp (if b then m1 else m2) Q s.
Proof. by destruct b. Qed.

(** a function whose fuel depends on the state it is called in *)
Ltac wp_self :=
  lazymatch goal with
  | |- wp ?f ?Q ?s =>
      let r := eval cbv beta in (f s) in
      lazymatch r with ?m s => change (wp m Q s) end
  end.

(** ** Pointers and colours *)
Definition is_ptr (p : Z) : Prop := 0 < p < 2 ^ 32 ∧ (4 | p).

Inductive color := Red | Black.
Definition cbit (c : color) : Z := match c with Red => RB_RED | Black => RB_BLACK end.

(** the word for a parent and a colour *)
Definition pack (p : Z) (c : color) : Z := p + cbit c.

Lemma ptr_bits p i : p = 0 ∨ is_ptr p → 0 ≤ i < 2 ∨ 32 ≤ i → Z.testbit p i = false.
Proof.
  intros [->|[Hp [q ->]]] Hi; [apply Z.bits_0|].
  destruct Hi as [Hi|Hi].
  - change 4 with (2 ^ 2). apply Z.mul_pow2_bits_low. lia.
  - apply (bits_above 32); lia.
Qed.

Lemma cbit_bits c i : 0 < i → Z.testbit (cbit c) i = false.
Proof. intros. destruct c; cbn [cbit RB_RED RB_BLACK]; [apply Z.bits_0|by apply Z.bits_above_log2]. Qed.

Lemma pack_lor p c : p = 0 ∨ is_ptr p → pack p c = Z.lor p (cbit c).
Proof.
  intros Hp. unfold pack. symmetry. rewrite <- Z.lxor_lor; [symmetry; apply Z.add_nocarry_lxor|].
  all: apply Z.bits_inj'; intros i Hi; rewrite Z.land_spec, Z.bits_0;
    destruct (decide (i = 0)) as [->|]; [rewrite (ptr_bits p) by (done || lia); done|
    rewrite cbit_bits by lia; apply andb_false_r].
Qed.

Lemma mask_bits k i : 0 ≤ k ≤ 32 → 0 ≤ i →
  Z.testbit (2 ^ 32 - 2 ^ k) i = (k <=? i) && (i <? 32).
Proof.
  intros Hk Hi. replace (2 ^ 32 - 2 ^ k) with (Z.shiftl (Z.ones (32 - k)) k).
  - rewrite Z.shiftl_spec by done. destruct (Z.leb_spec k i).
    + rewrite Z.testbit_ones_nonneg by lia. destruct (Z.ltb_spec i 32), (Z.ltb_spec (i - k) (32 - k)); lia || done.
    + by rewrite Z.testbit_neg_r by lia.
  - rewrite Z.shiftl_mul_pow2, Z.ones_equiv by lia. rewrite Z.mul_pred_l, <- Z.pow_add_r by lia.
    do 2 f_equal. lia.
Qed.

Lemma bit1 i : 0 ≤ i → Z.testbit 1 i = (i =? 0).
Proof. intros. change 1 with (2 ^ 0). rewrite Z.pow2_bits_eqb by lia. apply Z.eqb_sym. Qed.

Lemma bit3 i : 0 ≤ i → Z.testbit 3 i = (i <? 2).
Proof. intros. change 3 with (Z.ones 2). rewrite Z.testbit_ones_nonneg by lia. done. Qed.

Lemma mask_parent i : 0 ≤ i → Z.testbit 0xfffffffc i = (2 <=? i) && (i <? 32).
Proof. apply (mask_bits 2). lia. Qed.

Lemma mask_color i : 0 ≤ i → Z.testbit 0xfffffffe i = (1 <=? i) && (i <? 32).
Proof. apply (mask_bits 1). lia. Qed.

(** compares words bit by bit: the two low bits, the others, and those above *)
Ltac word_eq p p' c c' :=
  apply Z.bits_inj'; intros i Hi;
  repeat (rewrite Z.lor_spec || rewrite Z.land_spec);
  rewrite ?bit1, ?bit3, ?mask_parent, ?mask_color by done;
  assert (i = 0 ∨ i = 1 ∨ 2 ≤ i < 32 ∨ 32 ≤ i) as [->|[->|[Hr|Hr]]] by lia;
  [rewrite ?(ptr_bits p), ?(ptr_bits p') by (done || lia); first [reflexivity | destruct c, c'; reflexivity]
  |rewrite ?(ptr_bits p), ?(ptr_bits p'), ?cbit_bits by (done || lia); reflexivity
  |rewrite ?cbit_bits by lia;
   repeat match goal with
   | |- context [2 <=? i] => rewrite (proj2 (Z.leb_le 2 i)) by lia
   | |- context [1 <=? i] => rewrite (proj2 (Z.leb_le 1 i)) by lia
   | |- context [i <? 32] => rewrite (proj2 (Z.ltb_lt i 32)) by lia
   | |- context [i <? 2] => rewrite (proj2 (Z.ltb_ge i 2)) by lia
   | |- context [i =? 0] => rewrite (proj2 (Z.eqb_neq i 0)) by lia
   end;
   rewrite ?andb_true_r, ?andb_false_r, ?orb_false_r, ?orb_false_l; reflexivity
  |rewrite ?(ptr_bits p), ?(ptr_bits p'), ?cbit_bits by (done || lia);
   rewrite ?(proj2 (Z.eqb_neq i 0)) by lia; reflexivity].

Section words.
Variables (p p' : Z) (c c' : color).
Hypothesis Hp : p = 0 ∨ is_ptr p.
Hypothesis Hp' : p' = 0 ∨ is_ptr p'.

Lemma pack_parent : Z.land (pack p c) 0xfffffffc = p.
Proof. rewrite pack_lor by done. word_eq p p' c c'. Qed.
Lemma pack_color : Z.land (pack p c) 1 = cbit c.
Proof. rewrite pack_lor by done. word_eq p p' c c'. Qed.
Lemma pack_red : Z.land (pack p c) 0xfffffffe = pack p Red.
Proof. rewrite !pack_lor by done. word_eq p p' c c'. Qed.
Lemma pack_black : Z.lor (pack p c) 1 = pack p Black.
Proof. rewrite !pack_lor by done. word_eq p p' c c'. Qed.
Lemma pack_set_parent : Z.lor (Z.land (pack p c) 3) p' = pack p' c.
Proof. rewrite !pack_lor by done. word_eq p p' c c'. Qed.
Lemma pack_set_color : Z.lor (Z.land (pack p c) 0xfffffffe) (cbit c') = pack p c'.
Proof. rewrite !pack_lor by done. word_eq p p' c c'. Qed.
End words.

(** ** Trees and places in them *)
Inductive tree := E | T (c : color) (l : tree) (x : Z) (r : tree).

#[global] Instance color_eq_dec : EqDecision color.
Proof. solve_decision. Defined.
#[global] Instance tree_eq_dec : EqDecision tree.
Proof. solve_decision. Defined.

Fixpoint inorder (t : tree) : list Z :=
  match t with E => [] | T _ l x r => inorder l ++ x :: inorder r end.
Definition addr (t : tree) : Z := match t with E => 0 | T _ _ x _ => x end.

(** a node with its child on side [d] ([true] is left) and the other child *)
Definition node (d : bool) (c : color) (t : tree) (x : Z) (sib : tree) : tree :=
  if d then T c t x sib else T c sib x t.

Record frame := Frame { f_side : bool; f_color : color; f_node : Z; f_sib : tree }.

(** the innermost frame comes first *)
Fixpoint plug (k : list frame) (t : tree) : tree :=
  match k with
  | [] => t
  | f :: k => plug k (node (f_side f) (f_color f) t (f_node f) (f_sib f))
  end.

Definition parent_of (par : Z) (k : list frame) : Z :=
  match k with [] => par | f :: _ => f_node f end.

Fixpoint frame_nodes (k : list frame) : list Z :=
  match k with [] => [] | f :: k => f_node f :: inorder (f_sib f) ++ frame_nodes k end.

(** what comes before and after the place in order *)
Fixpoint before (k : list frame) : list Z :=
  match k with
  | [] => []
  | f :: k => before k ++ (if f_side f then [] else inorder (f_sib f) ++ [f_node f])
  end.
Fixpoint after (k : list frame) : list Z :=
  match k with
  | [] => []
  | f :: k => (if f_side f then f_node f :: inorder (f_sib f) else []) ++ after k
  end.

Lemma inorder_plug k t : inorder (plug k t) = before k ++ inorder t ++ after k.
Proof.
  revert t. induction k as [|f k IH]; intros t; cbn; [by rewrite app_nil_r|].
  rewrite IH. destruct (f_side f); cbn; simplify_list_eq; done.
Qed.

Lemma plug_app j k t : plug (j ++ k) t = plug k (plug j t).
Proof. revert t. induction j as [|f j IH]; intros t; [done|]. apply IH. Qed.

Lemma frame_nodes_perm k : before k ++ after k ≡ₚ frame_nodes k.
Proof.
  induction k as [|f k IH]; [done|]. cbn. rewrite <- IH. destruct (f_side f); solve_Permutation.
Qed.

Lemma inorder_perm k t : inorder (plug k t) ≡ₚ inorder t ++ frame_nodes k.
Proof. rewrite inorder_plug, <- frame_nodes_perm. solve_Permutation. Qed.

Lemma inorder_node d c t x sib : inorder (node d c t x sib) ≡ₚ x :: inorder t ++ inorder sib.
Proof. destruct d; cbn; solve_Permutation. Qed.

(** ** The memory of a tree *)
Fixpoint shape (m : gmap Z rb_node) (par : Z) (t : tree) : Prop :=
  match t with
  | E => True
  | T c l x r =>
      m !! x = Some (RbNode (pack par c) (addr r) (addr l)) ∧ shape m x l ∧ shape m x r
  end.

(** a node with the address of its child on side [d] *)
Definition cell (d : bool) (w h o : Z) : rb_node :=
  if d then RbNode w o h else RbNode w h o.

(** the frames above a place at which [h] is; [top] is the address of the whole *)
Fixpoint fshape (m : gmap Z rb_node) (par top h : Z) (k : list frame) : Prop :=
  match k with
  | [] => top = h
  | f :: k =>
      m !! f_node f = Some (cell (f_side f) (pack (parent_of par k) (f_color f)) h (addr (f_sib f))) ∧
      shape m (f_node f) (f_sib f) ∧ fshape m par top (f_node f) k
  end.

Lemma addr_node d c t x sib : addr (node d c t x sib) = x.
Proof. by destruct d. Qed.

Lemma shape_node m par d c t x sib :
  shape m par (node d c t x sib) ↔
  m !! x = Some (cell d (pack par c) (addr t) (addr sib)) ∧ shape m x t ∧ shape m x sib.
Proof. destruct d; cbn; tauto. Qed.

Lemma shape_plug m par k t top :
  shape m par (plug k t) ∧ top = addr (plug k t) ↔
  shape m (parent_of par k) t ∧ fshape m par top (addr t) k.
Proof.
  revert t. induction k as [|f k IH]; intros t; cbn; [done|].
  rewrite IH, shape_node, addr_node. tauto.
Qed.

(** memories that agree on the nodes *)
Lemma shape_same m m' par t :
  (∀ a, a ∈ inorder t → m' !! a = m !! a) → shape m par t → shape m' par t.
Proof.
  revert par. induction t as [|c l IHl x r IHr]; intros par; cbn; [done|].
  intros Hm (Hx & Hl & Hr). rewrite Hm by set_solver.
  split; [done|]. split; [apply IHl|apply IHr]; set_solver.
Qed.

Lemma fshape_same m m' par top h k :
  (∀ a, a ∈ frame_nodes k → m' !! a = m !! a) → fshape m par top h k → fshape m' par top h k.
Proof.
  revert h. induction k as [|f k IH]; intros h; cbn; [done|].
  intros Hm (Hx & Hl & Hr). rewrite Hm by set_solver.
  split; [done|]. split; [eapply shape_same, Hl|apply IH]; set_solver.
Qed.

(** the tree is in memory; everything outside of it is as in [m0] *)
Record holds (m0 : gmap Z rb_node) (s : rb_state) (t : tree) : Prop := {
  h_shape : shape (nodes s) 0 t;
  h_root : rb_root s = addr t;
  h_nodup : NoDup (inorder t);
  h_ptrs : Forall is_ptr (inorder t);
  h_rest : ∀ a, a ∉ inorder t → nodes s !! a = m0 !! a
}.

(** ** Rules for the primitives *)
Definition upd (p : Z) (n : rb_node) (s : rb_state) : rb_state :=
  RbState (<[p := n]> (nodes s)) (rb_root s).

(** the child on side [d], and the other one *)
Definition get_near (d : bool) (p : Z) : rbM Z := if d then rb_left p else rb_right p.
Definition get_far (d : bool) : Z → rbM Z := get_near (negb d).
Definition set_near (d : bool) (p v : Z) : rbM unit := if d then set_left p v else set_right p v.
Definition set_far (d : bool) : Z → Z → rbM unit := set_near (negb d).

Section primitives.
Context {s : rb_state} {p : Z} {d : bool} {w h o : Z}.

Lemma wp_near Q : nodes s !! p = Some (cell d w h o) → Q h s → wp (get_near d p) Q s.
Proof. intros Hp HQ. destruct d; unfold wp, get_near, rb_left, rb_right, mbind, rbM_bind, load; by rewrite Hp. Qed.
Lemma wp_far Q : nodes s !! p = Some (cell d w h o) → Q o s → wp (get_far d p) Q s.
Proof. intros Hp HQ. destruct d; unfold wp, get_far, get_near, rb_left, rb_right, mbind, rbM_bind, load; cbn; by rewrite Hp. Qed.
Lemma wp_set_near v Q :
  nodes s !! p = Some (cell d w h o) → Q tt (upd p (cell d w v o) s) → wp (set_near d p v) Q s.
Proof.
  intros Hp HQ. destruct d; unfold wp, set_near, set_left, set_right, mbind, rbM_bind, load, store;
    rewrite Hp; cbn; by rewrite Hp.
Qed.
Lemma wp_set_far v Q :
  nodes s !! p = Some (cell d w h o) → Q tt (upd p (cell d w h v) s) → wp (set_far d p v) Q s.
Proof.
  intros Hp HQ. destruct d; unfold wp, set_far, set_near, set_left, set_right, mbind, rbM_bind, load, store;
    cbn; rewrite Hp; cbn; by rewrite Hp.
Qed.

Lemma wp_word w' Q :
  nodes s !! p = Some (cell d w h o) → Q tt (upd p (cell d w' h o) s) → wp (set_parent_color p w') Q s.
Proof.
  intros Hp HQ. unfold wp, set_parent_color, mbind, rbM_bind, load, store.
  rewrite Hp. cbn. rewrite Hp. by destruct d.
Qed.

Lemma wp_load Q : nodes s !! p = Some (cell d w h o) → Q (cell d w h o) s → wp (load p) Q s.
Proof. intros Hp HQ. unfold wp, load. by rewrite Hp. Qed.

End primitives.

Section words_of_nodes.
Context {s : rb_state} {p par : Z} {d : bool} {h o : Z} {c : color}.
Hypothesis Hpar : par = 0 ∨ is_ptr par.
Hypothesis Hp : nodes s !! p = Some (cell d (pack par c) h o).

Lemma cell_word : rb_parent_color (cell d (pack par c) h o) = pack par c.
Proof. by destruct d. Qed.

Lemma wp_parent Q : Q par s → wp (rb_parent p) Q s.
Proof.
  intros HQ. eapply rb_bind, wp_load; [done|]. rewrite cell_word, pack_parent by done. done.
Qed.
Lemma wp_color Q : Q (cbit c) s → wp (rb_color p) Q s.
Proof.
  intros HQ. eapply rb_bind, wp_load; [done|]. rewrite cell_word, pack_color by done. done.
Qed.
Lemma wp_set_red Q : Q tt (upd p (cell d (pack par Red) h o) s) → wp (rb_set_red p) Q s.
Proof.
  intros HQ. eapply rb_bind, wp_load; [done|]. rewrite cell_word, pack_red by done. by eapply wp_word.
Qed.
Lemma wp_set_black Q : Q tt (upd p (cell d (pack par Black) h o) s) → wp (rb_set_black p) Q s.
Proof.
  intros HQ. eapply rb_bind, wp_load; [done|]. rewrite cell_word, pack_black by done. by eapply wp_word.
Qed.
Lemma wp_set_color c' Q :
  Q tt (upd p (cell d (pack par c') h o) s) → wp (rb_set_color p (cbit c')) Q s.
Proof.
  intros HQ. eapply rb_bind, wp_load; [done|]. rewrite cell_word, pack_set_color by done. by eapply wp_word.
Qed.
Lemma wp_set_parent p' Q : p' = 0 ∨ is_ptr p' →
  Q tt (upd p (cell d (pack p' c) h o) s) → wp (rb_set_parent p p') Q s.
Proof.
  intros Hp' HQ. eapply rb_bind, wp_load; [done|]. rewrite cell_word, pack_set_parent by done.
  by eapply wp_word.
Qed.
End words_of_nodes.

(** memory after a write to the node [x] *)
Lemma upd_other x n s a : a ≠ x → nodes (upd x n s) !! a = nodes s !! a.
Proof. intros. cbn. by rewrite lookup_insert_ne. Qed.
Lemma upd_this x n s : nodes (upd x n s) !! x = Some n.
Proof. apply lookup_insert_eq. Qed.

(** ** Moving subtrees *)

(** a new parent for a subtree, if there is one *)
Definition reparent (t p : Z) : rbM unit := when (truth t) (rb_set_parent t p).

Lemma ptr_truth p : is_ptr p → truth p = true.
Proof. intros [Hp _]. unfold truth. by rewrite (proj2 (Z.eqb_neq p 0)) by lia. Qed.

Lemma wp_reparent p p' t s Q :
  shape (nodes s) p t → NoDup (inorder t) → Forall is_ptr (inorder t) →
  p = 0 ∨ is_ptr p → p' = 0 ∨ is_ptr p' →
  (∀ s', shape (nodes s') p' t → rb_root s' = rb_root s →
     (∀ a, a ∉ inorder t → nodes s' !! a = nodes s !! a) → Q tt s') →
  wp (reparent (addr t) p') Q s.
Proof.
  intros Hsh Hnd Hptr Hp Hp' HQ. unfold reparent. destruct t as [|c l x r]; [by apply HQ|].
  cbn [addr inorder] in *. destruct Hsh as (Hx & Hl & Hr).
  rewrite ptr_truth by (rewrite Forall_app, Forall_cons in Hptr; tauto).
  eapply (wp_set_parent (d := true)); [exact Hp|exact Hx|exact Hp'|].
  assert ((x ∉ inorder l) ∧ (x ∉ inorder r)) as [Hxl Hxr].
  { rewrite NoDup_app, NoDup_cons in Hnd. set_solver. }
  apply HQ; cbn; [|done|].
  - rewrite lookup_insert_eq. split; [done|].
    split; (eapply shape_same; [|done]); intros a Ha; rewrite lookup_insert_ne by set_solver; done.
  - intros a Ha. rewrite lookup_insert_ne by set_solver. done.
Qed.

(** the pointer to [old] in its parent, or the root, is set to [new] *)
Definition relink (d : bool) (parent old new : Z) : rbM unit :=
  if truth parent then
    pn ← get_near d parent;
    if old =? pn then set_near d parent new else set_far d parent new
  else set_root new.

(** another subtree below a frame *)
Lemma fshape_hole f k par top h h' s :
  fshape (nodes s) par top h (f :: k) → NoDup (frame_nodes (f :: k)) →
  fshape (nodes (upd (f_node f) (cell (f_side f) (pack (parent_of par k) (f_color f)) h' (addr (f_sib f))) s))
    par top h' (f :: k).
Proof.
  cbn. intros (_ & Hs & Hk) Hnd. rewrite NoDup_cons, NoDup_app in Hnd.
  rewrite lookup_insert_eq. split; [done|].
  split; [eapply shape_same; [|exact Hs]|eapply fshape_same; [|exact Hk]];
    intros a Ha; rewrite lookup_insert_ne; set_solver.
Qed.

Lemma wp_relink d k h h' s Q :
  fshape (nodes s) 0 (rb_root s) h k → NoDup (h :: frame_nodes k) → Forall is_ptr (h :: frame_nodes k) →
  (∀ s', fshape (nodes s') 0 (rb_root s') h' k →
     (∀ a, a ∉ frame_nodes k → nodes s' !! a = nodes s !! a) → Q tt s') →
  wp (relink d (parent_of 0 k) h h') Q s.
Proof.
  intros Hf Hnd Hptr HQ. unfold relink. destruct k as [|f k]; [by apply HQ|].
  pose proof (fshape_hole f k 0 _ h h' s Hf) as Hf'. pose proof Hnd as [Hh Hnd']%NoDup_cons.
  specialize (Hf' Hnd'). destruct Hf as (Hp & _). cbn [parent_of].
  cbn [frame_nodes] in Hptr. rewrite !Forall_cons in Hptr. destruct Hptr as (Ph & Hfp & _).
  rewrite ptr_truth by done.
  assert (h ≠ addr (f_sib f)) as Hne.
  { destruct (f_sib f) as [|c l x r] eqn:Ef; cbn; [destruct Ph; lia|]. cbn in Hh. rewrite Ef in Hh.
    cbn in Hh. set_solver. }
  assert (∀ s', s' = upd (f_node f) (cell (f_side f) (pack (parent_of 0 k) (f_color f)) h' (addr (f_sib f))) s →
    Q tt s') as Hdone.
  { intros s' ->. apply HQ; [exact Hf'|]. intros a Ha. apply upd_other. cbn in Ha. set_solver. }
  apply rb_bind. destruct (decide (d = f_side f)) as [->|Hd].
  - eapply wp_near; [done|]. rewrite Z.eqb_refl. eapply wp_set_near; [done|]. by apply Hdone.
  - assert (f_side f = negb d) as Hd' by (by destruct d, (f_side f)). rewrite Hd' in *.
    assert (cell (negb d) (pack (parent_of 0 k) (f_color f)) h (addr (f_sib f)) =
      cell d (pack (parent_of 0 k) (f_color f)) (addr (f_sib f)) h) as Hc by (by destruct d).
    eapply wp_near; [by rewrite <- Hc|]. rewrite (proj2 (Z.eqb_neq _ _)) by done.
    eapply wp_set_far; [by rewrite <- Hc|]. apply Hdone. f_equal. by destruct d.
Qed.

(** as written where a node is taken out *)
Lemma wp_relink_left parent old new s Q :
  wp (relink true parent old new) Q s →
  wp (if truth parent then
        pl ← rb_left parent;
        if pl =? old then set_left parent new else set_right parent new
      else set_root new) Q s.
Proof.
  unfold relink, get_near, set_far, set_near, wp, mbind, rbM_bind. cbn. destruct (truth parent); [|done].
  destruct (rb_left parent s) as [[pl s']| |]; [|done..]. by rewrite Z.eqb_sym.
Qed.

(** ** Rotations *)
Definition rotate (d : bool) : Z → rbM unit := if d then __rb_rotate_left else __rb_rotate_right.

Lemma rotate_generic d x :
  rotate d x =
    (right ← get_far d x;
     parent ← rb_parent x;
     rl ← get_near d right;
     set_far d x rl;;
     when (truth rl) (rl ← get_near d right; rb_set_parent rl x);;
     set_near d right x;;
     rb_set_parent right parent;;
     relink d parent x right;;
     rb_set_parent x right).
Proof. by destruct d. Qed.

(** the nodes of two trees and some frames are different *)
Ltac nodup_facts H :=
  rewrite ?NoDup_cons, ?NoDup_app in H; repeat setoid_rewrite elem_of_app in H;
  repeat setoid_rewrite elem_of_cons in H.

(** a node is not among others *)
Ltac apart :=
  repeat match goal with H : context [nodes _] |- _ => clear H end; set_solver.

Lemma wp_when_near d y w b o x s Q :
  nodes s !! y = Some (cell d w b o) → wp (reparent b x) Q s →
  wp (when (truth b) (rl ← get_near d y; rb_set_parent rl x)) Q s.
Proof.
  unfold reparent, when. destruct (truth b); [|done]. intros Hy HQ.
  apply rb_bind. by eapply wp_near.
Qed.

Lemma wp_rotate_mem d c c' a b e x y k s Q :
  nodes s !! x = Some (cell d (pack (parent_of 0 k) c) (addr a) y) →
  nodes s !! y = Some (cell d (pack x c') (addr b) (addr e)) →
  shape (nodes s) x a → shape (nodes s) y b → shape (nodes s) y e →
  fshape (nodes s) 0 (rb_root s) x k →
  NoDup (x :: y :: inorder a ++ inorder b ++ inorder e ++ frame_nodes k) →
  Forall is_ptr (x :: y :: inorder a ++ inorder b ++ inorder e ++ frame_nodes k) →
  (∀ s', nodes s' !! x = Some (cell d (pack y c) (addr a) (addr b)) →
     nodes s' !! y = Some (cell d (pack (parent_of 0 k) c') x (addr e)) →
     shape (nodes s') x a → shape (nodes s') x b → shape (nodes s') y e →
     fshape (nodes s') 0 (rb_root s') y k →
     (∀ z, z ∉ x :: y :: inorder a ++ inorder b ++ inorder e ++ frame_nodes k →
       nodes s' !! z = nodes s !! z) → Q tt s') →
  wp (rotate d x) Q s.
Proof.
  intros Hx Hy Ha Hb He Hk Hnd Hptr HQ. rewrite rotate_generic. set (par := parent_of 0 k) in *.
  assert (par = 0 ∨ is_ptr par) as Hpar.
  { subst par. destruct k; [by left|right]. rewrite Forall_forall in Hptr. apply Hptr. apart. }
  rewrite !Forall_cons, !Forall_app in Hptr. destruct Hptr as (Px & Py & Pa & Pb & Pe & Pk).
  nodup_facts Hnd.
  apply rb_bind. eapply wp_far; [done|]. apply rb_bind. eapply wp_parent; [done|done|].
  apply rb_bind. eapply wp_near; [done|].
  apply rb_bind. eapply wp_set_far; [done|]. set (s1 := upd _ _ _).
  apply rb_bind. eapply (wp_when_near d y); [unfold s1; rewrite upd_other by apart; done|].
  eapply wp_reparent; [|tauto|done|by right|by right|].
  { eapply shape_same; [|exact Hb]. intros z Hz. apply upd_other. apart. }
  intros s2 Hb2 R2 F2. assert (∀ z, z ∉ x :: inorder b → nodes s2 !! z = nodes s !! z) as G2.
  { intros z Hz. rewrite F2 by apart. apply upd_other. apart. }
  assert (nodes s2 !! x = Some (cell d (pack par c) (addr a) (addr b))) as Hx2.
  { rewrite F2 by apart. apply upd_this. }
  apply rb_bind. eapply wp_set_near; [rewrite G2 by apart; exact Hy|]. set (s3 := upd _ _ _).
  apply rb_bind. eapply (wp_set_parent (d := d) (c := c')); [right; exact Px|apply upd_this|done|]. set (s4 := upd _ _ _).
  assert (∀ z, z ≠ y → nodes s4 !! z = nodes s2 !! z) as G4.
  { intros z Hz. unfold s4, s3. by rewrite !upd_other. }
  apply rb_bind. eapply (wp_relink d k x y); [| |by constructor|].
  { cbn. rewrite R2. eapply fshape_same; [|exact Hk]. intros z Hz. cbn. rewrite G4, G2 by apart. done. }
  { constructor; [apart|tauto]. }
  intros s5 Hk5 F5. eapply wp_set_parent; [exact Hpar| |by right|].
  { rewrite F5, G4 by apart. exact Hx2. }
  set (s6 := upd _ _ _).
  assert (∀ z, z ≠ x → z ≠ y → z ∉ frame_nodes k → nodes s6 !! z = nodes s2 !! z) as G6.
  { intros z Hz1 Hz2 Hz3. unfold s6. rewrite upd_other, F5, G4 by done. done. }
  apply HQ.
  - apply upd_this.
  - unfold s6. rewrite upd_other, F5 by apart. apply upd_this.
  - eapply shape_same; [|exact Ha]. intros z Hz. rewrite G6, G2 by apart. done.
  - eapply shape_same; [|exact Hb2]. intros z Hz. apply G6; apart.
  - eapply shape_same; [|exact He]. intros z Hz. rewrite G6, G2 by apart. done.
  - eapply fshape_same; [|exact Hk5]. intros z Hz. apply upd_other. apart.
  - intros z Hz. rewrite G6, G2 by apart. done.
Qed.

(** ** Rules on trees *)
Lemma holds_focus m0 s k t :
  holds m0 s (plug k t) ↔
  shape (nodes s) (parent_of 0 k) t ∧ fshape (nodes s) 0 (rb_root s) (addr t) k ∧
  NoDup (inorder t ++ frame_nodes k) ∧ Forall is_ptr (inorder t ++ frame_nodes k) ∧
  ∀ a, a ∉ inorder t ++ frame_nodes k → nodes s !! a = m0 !! a.
Proof.
  pose proof (shape_plug (nodes s) 0 k t (rb_root s)) as Hp.
  pose proof (inorder_perm k t) as Hi. split.
  - intros [H1 H2 H3 H4 H5]. rewrite Hi in H3, H4. setoid_rewrite Hi in H5. tauto.
  - intros (H1 & H2 & H3 & H4 & H5). destruct (proj2 Hp (conj H1 H2)).
    split; [done|done| | |]; [by rewrite Hi|by rewrite Hi|]. by setoid_rewrite Hi.
Qed.

Definition is_red (t : tree) : bool := match t with T Red _ _ _ => true | _ => false end.

Section tree_rules.
Context {m0 : gmap Z rb_node} {s : rb_state} {k : list frame}.

Section at_node.
Context {d : bool} {c : color} {t : tree} {x : Z} {sib : tree}.
Hypothesis H : holds m0 s (plug k (node d c t x sib)).

Lemma node_cell : nodes s !! x = Some (cell d (pack (parent_of 0 k) c) (addr t) (addr sib)).
Proof. apply holds_focus in H as [Hs _]. by apply shape_node in Hs as [? _]. Qed.

Lemma node_ptr : is_ptr x.
Proof.
  apply holds_focus in H as (_ & _ & _ & Hp & _). rewrite inorder_node in Hp.
  rewrite Forall_forall in Hp. apply Hp. set_solver.
Qed.

Lemma node_parent : parent_of 0 k = 0 ∨ is_ptr (parent_of 0 k).
Proof.
  destruct k as [|f k']; [by left|right]. apply holds_focus in H as (_ & _ & _ & Hp & _).
  rewrite Forall_forall in Hp. apply Hp. set_solver.
Qed.

Lemma tr_near Q : Q (addr t) s → wp (get_near d x) Q s.
Proof. eapply wp_near, node_cell. Qed.
Lemma tr_far Q : Q (addr sib) s → wp (get_far d x) Q s.
Proof. eapply wp_far, node_cell. Qed.
Lemma tr_parent Q : Q (parent_of 0 k) s → wp (rb_parent x) Q s.
Proof. eapply wp_parent; [apply node_parent|apply node_cell]. Qed.
Lemma tr_color Q : Q (cbit c) s → wp (rb_color x) Q s.
Proof. eapply wp_color; [apply node_parent|apply node_cell]. Qed.

(** a node whose word is replaced *)
Lemma holds_upd c' :
  holds m0 (upd x (cell d (pack (parent_of 0 k) c') (addr t) (addr sib)) s) (plug k (node d c' t x sib)).
Proof.
  apply holds_focus in H as (Hs & Hf & Hnd & Hp & Ho). apply holds_focus.
  rewrite addr_node in *. rewrite shape_node in *. rewrite inorder_node in *.
  setoid_rewrite inorder_node in Ho. setoid_rewrite inorder_node.
  destruct Hs as (_ & Ht & Hsib). pose proof Hnd as Hnd0. cbn [app] in Hnd. nodup_facts Hnd.
  split_and!; [apply upd_this| | | |exact Hnd0|done|].
  - eapply shape_same; [|exact Ht]. intros a Ha. apply upd_other. apart.
  - eapply shape_same; [|exact Hsib]. intros a Ha. apply upd_other. apart.
  - eapply fshape_same; [|exact Hf]. intros a Ha. apply upd_other. apart.
  - intros a Ha. rewrite <- Ho by done. apply upd_other. apart.
Qed.
End at_node.

Lemma tr_is_red t Q : holds m0 s (plug k t) → Q (is_red t) s → wp (is_red_node (addr t)) Q s.
Proof.
  intros H HQ. unfold is_red_node. destruct t as [|c l x r]; [done|].
  change (T c l x r) with (node true c l x r) in H. cbn [addr]. rewrite ptr_truth by apply (node_ptr H).
  apply rb_bind, (tr_color H), rb_ret. by destruct c.
Qed.

Lemma tr_is_black t Q : holds m0 s (plug k t) → Q (negb (is_red t)) s → wp (is_black_node (addr t)) Q s.
Proof.
  intros H HQ. unfold is_black_node. destruct t as [|c l x r]; [done|].
  change (T c l x r) with (node true c l x r) in H. cbn [addr]. rewrite ptr_truth by apply (node_ptr H).
  apply rb_bind, (tr_color H), rb_ret. by destruct c.
Qed.

Lemma tr_root t Q : holds m0 s t → Q (addr t) s → wp get_root Q s.
Proof. intros [_ Hr _ _ _] HQ. unfold wp, get_root. by rewrite Hr. Qed.
End tree_rules.

Section tree_writes.
Context {m0 : gmap Z rb_node} {s : rb_state} {k : list frame}.
Context {d : bool} {c : color} {t : tree} {x : Z} {sib : tree}.
Hypothesis H : holds m0 s (plug k (node d c t x sib)).

Lemma tr_set_red Q :
  (∀ s', holds m0 s' (plug k (node d Red t x sib)) → Q tt s') → wp (rb_set_red x) Q s.
Proof.
  intros HQ. eapply wp_set_red; [apply (node_parent H)|apply (node_cell H)|]. apply HQ, (holds_upd H).
Qed.
Lemma tr_set_black Q :
  (∀ s', holds m0 s' (plug k (node d Black t x sib)) → Q tt s') → wp (rb_set_black x) Q s.
Proof.
  intros HQ. eapply wp_set_black; [apply (node_parent H)|apply (node_cell H)|]. apply HQ, (holds_upd H).
Qed.
Lemma tr_set_color c' Q :
  (∀ s', holds m0 s' (plug k (node d c' t x sib)) → Q tt s') → wp (rb_set_color x (cbit c')) Q s.
Proof.
  intros HQ. eapply wp_set_color; [apply (node_parent H)|apply (node_cell H)|]. apply HQ, (holds_upd H).
Qed.
End tree_writes.

Lemma rotate_inorder d c c' a x b y e :
  inorder (node d c' (node d c a x b) y e) = inorder (node d c a x (node d c' b y e)).
Proof. destruct d; cbn; simplify_list_eq; done. Qed.

Lemma tr_rotate {m0 s k d c c' a x b y e} Q :
  holds m0 s (plug k (node d c a x (node d c' b y e))) →
  (∀ s', holds m0 s' (plug k (node d c' (node d c a x b) y e)) → Q tt s') →
  wp (rotate d x) Q s.
Proof.
  intros H HQ. apply holds_focus in H as (Hs & Hf & Hnd & Hp & Ho).
  rewrite !shape_node, !addr_node in *. destruct Hs as (Hx & Ha & Hy & Hb & He).
  assert (inorder (node d c a x (node d c' b y e)) ++ frame_nodes k ≡ₚ
    x :: y :: inorder a ++ inorder b ++ inorder e ++ frame_nodes k) as Hperm.
  { rewrite !inorder_node. solve_Permutation. }
  eapply (wp_rotate_mem d c c' a b e x y k); [done..|by rewrite <- Hperm|by rewrite <- Hperm|].
  intros s' Hx' Hy' Ha' Hb' He' Hf' Ho'. apply HQ, holds_focus.
  rewrite !shape_node, !addr_node, rotate_inorder. split_and!; [done..|].
  intros z Hz. rewrite Ho' by (by rewrite <- Hperm). by apply Ho.
Qed.
