(* ===== verification/RbtreeBal.v ===== *)
(** * Red-black trees: balance (continues RbtreeInv.v)

    The colour rules of red-black trees, and that inserting and erasing restore
    them and keep the order of the nodes. *)
From S2P Require Import Prelude Rbtree RbtreeInv.

(** ** The colour rules *)

(** every path down has [n] black nodes and no red node has a red child *)
Inductive rb : tree → nat → Prop :=
  | rb_E : rb E 0
  | rb_R l x r n : rb l n → rb r n → is_red l = false → is_red r = false → rb (T Red l x r) n
  | rb_B l x r n : rb l n → rb r n → rb (T Black l x r) (S n).

Lemma rb_red d t x sib n :
  rb (node d Red t x sib) n ↔ rb t n ∧ rb sib n ∧ is_red t = false ∧ is_red sib = false.
Proof.
  destruct d; cbn; (split; [inversion 1; subst; tauto|intros (? & ? & ? & ?); by constructor]).
Qed.

Lemma rb_black d t x sib n : rb (node d Black t x sib) (S n) ↔ rb t n ∧ rb sib n.
Proof.
  destruct d; cbn; (split; [inversion 1; subst; tauto|intros (? & ?); by constructor]).
Qed.

Definition blacken (t : tree) : tree :=
  match t with E => E | T _ l x r => T Black l x r end.

(** a red-black tree *)
Definition rb_tree (t : tree) : Prop := is_red t = false ∧ ∃ n, rb t n.

(** the frames above a place that is to have [n] black nodes on its paths *)
Definition black_top (k : list frame) : Prop :=
  match k with Frame _ Black _ _ :: _ => True | _ => False end.

Inductive frames_ok : list frame → nat → Prop :=
  | fo_nil n : frames_ok [] n
  | fo_B d x sib k n : rb sib n → frames_ok k (S n) → frames_ok (Frame d Black x sib :: k) n
  | fo_R d x sib k n : rb sib n → is_red sib = false → frames_ok k n → black_top k →
      frames_ok (Frame d Red x sib :: k) n.

Lemma is_red_node_eq d c t x sib : is_red (node d c t x sib) = match c with Red => true | Black => false end.
Proof. by destruct d, c. Qed.

Lemma plug_rb k t n :
  frames_ok k n → rb t n → (is_red t = false ∨ black_top k) → rb_tree (plug k t).
Proof.
  intros Hk. revert t. induction Hk as [n|d x sib k n Hs Hk IH|d x sib k n Hs Hb Hk IH Ht];
    intros t Hr Hor; cbn in *.
  - split; [tauto|by exists n].
  - apply IH; [by apply rb_black|left]. by rewrite is_red_node_eq.
  - destruct Hor as [Hor|[]]. apply IH; [by apply rb_red|by right].
Qed.

Lemma plug_inv k t :
  rb_tree (plug k t) → ∃ n, frames_ok k n ∧ rb t n ∧ (is_red t = false ∨ black_top k).
Proof.
  revert t. induction k as [|[d c x sib] k IH]; intros t; cbn.
  - intros [Hb [n Hn]]. exists n. split_and!; [constructor|done|by left].
  - intros H. destruct (IH _ H) as (n & Hk & Hn & Hor). rewrite is_red_node_eq in Hor.
    destruct c.
    + apply rb_red in Hn as (Ht & Hs & Rt & Rs). exists n.
      split_and!; [constructor; try done; by destruct Hor|done|by left].
    + destruct n as [|n]; [destruct d; inversion Hn|]. apply rb_black in Hn as [Ht Hs].
      exists n. split_and!; [by constructor|done|by right].
Qed.

(** ** Insertion *)
Definition insert_side (d : bool) (node parent gparent : Z) : rbM Z :=
  uncle ← get_far d gparent;
  red ← is_red_node uncle;
  if red : bool then
    rb_set_black uncle;; rb_set_black parent;; rb_set_red gparent;;
    mret gparent
  else
    pf ← get_far d parent;
    '(parent, node) ←
      (if pf =? node then rotate d parent;; mret (node, parent)
       else mret (parent, node));
    rb_set_black parent;; rb_set_red gparent;;
    rotate (negb d) gparent;;
    mret node.

Lemma insert_sides : insert_left = insert_side true ∧ insert_right = insert_side false.
Proof. done. Qed.

Lemma node_flip d c t x sib : node (negb d) c sib x t = node d c t x sib.
Proof. by destruct d. Qed.

(** the addresses of the parts of a node are different *)
Lemma addr_in t : t = E ∧ addr t = 0 ∨ addr t ∈ inorder t.
Proof. destruct t; [by left|right]. cbn. set_solver. Qed.

Lemma addr_ne m0 s k d c t x sib :
  holds m0 s (plug k (node d c t x sib)) → (t ≠ E ∨ sib ≠ E) → addr t ≠ addr sib.
Proof.
  intros H Hor Heq. apply holds_focus in H as (_ & _ & Hnd & Hp & _).
  rewrite inorder_node in Hnd, Hp. cbn [app] in Hnd, Hp. rewrite Forall_forall in Hp.
  assert (0 ∉ inorder t ++ inorder sib) as H0.
  { intros Hz. destruct (Hp 0) as [? _]; [set_solver|lia]. }
  rewrite NoDup_cons, !NoDup_app in Hnd. destruct Hnd as (_ & (_ & Hd & _) & _).
  destruct (addr_in t) as [[-> E1]|H1], (addr_in sib) as [[-> E2]|H2].
  - tauto.
  - rewrite <- Heq, E1 in H2. set_solver.
  - rewrite Heq, E2 in H1. set_solver.
  - apply (Hd _ H1). by rewrite Heq.
Qed.

(** one round of the loop, when [parent] is red: [x] moves up or the tree is mended *)
Definition red_node (m0 : gmap Z rb_node) (s : rb_state) (k : list frame) (d : bool) (t : tree) (x : Z)
    (sib : tree) (n : nat) : Prop :=
  holds m0 s (plug k (node d Red t x sib)) ∧
  rb t n ∧ rb sib n ∧ is_red t = false ∧ is_red sib = false ∧ frames_ok k n.

Lemma insert_recolor m0 s d d1 d2 t x sib p ps g u k n Q :
  red_node m0 s (Frame d1 Red p ps :: Frame d Black g u :: k) d2 t x sib n → is_red u = true →
  (∀ s', red_node m0 s' k d (node d1 Black (node d2 Red t x sib) p ps) g (blacken u) (S n) → Q g s') →
  wp (insert_side d x p g) Q s.
Proof.
  intros (H & Ht & Hsib & Rt & Rs & Hk) Hu HQ. cbn [plug f_side f_color f_node f_sib] in H.
  inversion Hk as [| |? ? ? ? ? Hps Rps Hk' _]; subst. inversion Hk' as [|? ? ? ? ? Hru Hk''|]; subst.
  destruct u as [|[] ul ux ur]; try done. cbn [blacken] in HQ. unfold insert_side.
  apply rb_bind. eapply (tr_far (k := k) (d := d) (c := Black)); [exact H|].
  apply rb_bind. eapply (tr_is_red (k := Frame (negb d) Black g (node d1 Red (node d2 Red t x sib) p ps) :: k));
    [cbn; rewrite node_flip; exact H|]. cbn [is_red].
  apply rb_bind.
  eapply (tr_set_black (d := true) (k := Frame (negb d) Black g (node d1 Red (node d2 Red t x sib) p ps) :: k));
    [cbn; rewrite node_flip; exact H|].
  intros s1 H1. cbn in H1. rewrite node_flip in H1.
  apply rb_bind. eapply (tr_set_black (k := Frame d Black g (T Black ul ux ur) :: k)); [exact H1|].
  intros s2 H2. apply rb_bind. eapply (tr_set_red (k := k) (d := d) (c := Black)); [exact H2|].
  intros s3 H3. apply rb_ret, HQ. split_and!; [exact H3| | |by rewrite is_red_node_eq|done|done].
  - apply rb_black. split; [|done]. by apply rb_red.
  - inversion Hru; subst. by constructor.
Qed.

Lemma insert_mend m0 s d d1 d2 t x sib p ps g u k n Q :
  red_node m0 s (Frame d1 Red p ps :: Frame d Black g u :: k) d2 t x sib n → is_red u = false →
  (∀ s' f d' t' x' sib', red_node m0 s' (f :: k) d' t' x' sib' n → f_color f = Black →
     inorder (plug (f :: k) (node d' Red t' x' sib')) =
     inorder (plug (Frame d1 Red p ps :: Frame d Black g u :: k) (node d2 Red t x sib)) → Q x' s') →
  wp (insert_side d x p g) Q s.
Proof.
  intros (H & Ht & Hsib & Rt & Rs & Hk) Hu HQ. cbn [plug f_side f_color f_node f_sib] in H.
  inversion Hk as [| |? ? ? ? ? Hps Rps Hk' _]; subst. inversion Hk' as [|? ? ? ? ? Hru Hk''|]; subst.
  unfold insert_side.
  apply rb_bind. eapply (tr_far (k := k) (d := d) (c := Black)); [exact H|].
  apply rb_bind. eapply (tr_is_red (k := Frame (negb d) Black g (node d1 Red (node d2 Red t x sib) p ps) :: k));
    [cbn; rewrite node_flip; exact H|]. rewrite Hu.
  apply rb_bind. destruct (decide (d1 = d)) as [->|Hd1].
  - (* [x] is on the outer side *)
    eapply (tr_far (k := Frame d Black g u :: k)); [exact H|].
    pose proof (addr_ne _ _ (Frame d Black g u :: k) _ _ _ _ _ H) as Hne. rewrite addr_node in Hne.
    rewrite (proj2 (Z.eqb_neq _ _)) by (intros Heq; apply Hne; [left; by destruct d2|done]).
    apply rb_bind, rb_ret, rb_bind.
    eapply (tr_set_black (k := Frame d Black g u :: k)); [exact H|]. intros s1 H1.
    apply rb_bind. eapply (tr_set_red (k := k) (d := d) (c := Black)); [exact H1|]. intros s2 H2.
    apply rb_bind. cbn in H2. rewrite <- !(node_flip d) in H2.
    eapply tr_rotate; [exact H2|]. intros s3 H3. apply rb_ret.
    eapply (HQ s3 (Frame d Black p (node (negb d) Red u g ps)) d2 t x sib); [|done|].
    + split_and!; [cbn; rewrite <- (node_flip d); exact H3|done..|].
      constructor; [by apply rb_red|done].
    + cbn. rewrite !inorder_plug. destruct d; cbn; by simplify_list_eq.
  - (* on the inner side: it takes the place of [p] *)
    assert (d1 = negb d) as -> by (by destruct d, d1). rewrite node_flip in H.
    eapply (tr_far (k := Frame d Black g u :: k)); [exact H|]. rewrite addr_node, Z.eqb_refl.
    assert (∃ a b, node d2 Red t x sib = node d Red a x b ∧ rb a n ∧ rb b n ∧
      is_red a = false ∧ is_red b = false) as (a & b & E & Ha & Hb & Ra & Rb).
    { destruct d, d2; [exists t, sib|exists sib, t|exists sib, t|exists t, sib]; done. }
    rewrite E in H, HQ. do 2 apply rb_bind.
    eapply (tr_rotate (k := Frame d Black g u :: k)); [exact H|]. intros s1 H1. apply rb_ret, rb_bind.
    eapply (tr_set_black (k := Frame d Black g u :: k)); [exact H1|]. intros s2 H2.
    apply rb_bind. eapply (tr_set_red (k := k) (d := d) (c := Black)); [exact H2|]. intros s3 H3.
    apply rb_bind. cbn in H3. rewrite <- (node_flip d Red _ g), <- (node_flip d Black _ x) in H3.
    eapply tr_rotate; [exact H3|]. intros s4 H4. apply rb_ret.
    eapply (HQ s4 (Frame d Black x (node (negb d) Red u g b)) d ps p a); [|done|].
    + split_and!; [cbn; rewrite <- (node_flip d); exact H4|done..|].
      constructor; [by apply rb_red|done].
    + cbn. rewrite !inorder_plug. destruct d; cbn; by simplify_list_eq.
Qed.

Lemma tr_left {m0 s k d c t x sib} Q :
  holds m0 s (plug k (node d c t x sib)) → Q (if d then addr t else addr sib) s → wp (rb_left x) Q s.
Proof. intros H. destruct d; [apply (tr_near (d := true) H)|apply (tr_far (d := false) H)]. Qed.

Lemma tr_right {m0 s k d c t x sib} Q :
  holds m0 s (plug k (node d c t x sib)) → Q (if d then addr sib else addr t) s → wp (rb_right x) Q s.
Proof. intros H. destruct d; [apply (tr_far (d := true) H)|apply (tr_near (d := false) H)]. Qed.

Lemma blacken_black t : is_red t = false → blacken t = t.
Proof. by destruct t as [|[]]. Qed.

Lemma plug_not_E k t : t ≠ E → plug k t ≠ E.
Proof.
  revert t. induction k as [|f k IH]; intros t Ht; [done|]. apply IH. by destruct (f_side f).
Qed.

Lemma insert_loop_ok m0 fuel k d t x sib n s :
  red_node m0 s k d t x sib n → (length k < fuel)%nat →
  wp (insert_loop fuel x) (λ _ s', ∃ t', holds m0 s' t' ∧ t' ≠ E ∧
    inorder t' = inorder (plug k (node d Red t x sib)) ∧ rb_tree (blacken t')) s.
Proof.
  revert k d t x sib n s. induction fuel as [|fuel IH]; intros k d t x sib n s HR Hf; [lia|].
  cbn [insert_loop]. pose proof HR as (H & Ht & Hsib & Rt & Rs & Hk).
  apply rb_bind, (tr_parent H), rb_bind.
  destruct k as [|[d1 c1 p ps] k]; cbn [parent_of f_node].
  { apply rb_ret, rb_ret. eexists. split_and!; [exact H|by destruct d|done|].
    split; [by destruct d|]. exists (S n). destruct d; by constructor. }
  cbn [plug f_side f_color f_node f_sib] in H.
  rewrite <- (addr_node d1 c1 (node d Red t x sib) p ps) at 1.
  apply (tr_is_red _ _ H). rewrite is_red_node_eq. destruct c1; cycle 1.
  { apply rb_ret. eexists. split_and!; [exact H| |done|].
    - apply plug_not_E. by destruct d1.
    - assert (rb_tree (plug (Frame d1 Black p ps :: k) (node d Red t x sib))) as Hrb.
      { eapply plug_rb; [exact Hk|by apply rb_red|by right]. }
      cbn [plug f_side f_color f_node f_sib] in Hrb. destruct Hrb as [Hb ?]. rewrite blacken_black by done.
      done. }
  inversion Hk as [| |? ? ? ? ? Hps Rps Hk' Htop]; subst.
  destruct k as [|[d' [] g u] k]; [done|done|]. apply rb_bind, (tr_parent H). cbn [parent_of f_node].
  cbn [plug f_side f_color f_node f_sib] in H.
  apply rb_bind, (tr_left _ H), rb_bind.
  pose proof (addr_ne _ _ _ _ _ _ _ _ H) as Hne. rewrite addr_node in *.
  assert (wp (insert_side d' x p g) (λ nd s', wp (insert_loop fuel nd) (λ _ s', ∃ t',
    holds m0 s' t' ∧ t' ≠ E ∧ inorder t' = inorder (plug (Frame d1 Red p ps :: Frame d' Black g u :: k)
      (node d Red t x sib)) ∧ rb_tree (blacken t')) s') s) as Hgoal.
  { destruct (is_red u) eqn:Hu.
    - eapply insert_recolor; [exact HR|done|]. intros s' HR'.
      eapply rb_mono; [eapply IH; [exact HR'|cbn in Hf; lia]|].
      intros _ s'' (t' & ? & ? & Ei & ?). exists t'. split_and!; [done..| |done].
      rewrite Ei. cbn [plug f_side f_color f_node f_sib]. rewrite !inorder_plug.
      destruct u; destruct d', d1; done.
    - eapply insert_mend; [exact HR|done|]. intros s' f d2 t2 x2 sib2 HR' _ Ei2.
      eapply rb_mono; [eapply IH; [exact HR'|cbn in *; lia]|].
      intros _ s'' (t' & ? & ? & Ei & ?). exists t'. split_and!; [done..| |done]. by rewrite Ei. }
  destruct d'.
  - rewrite Z.eqb_refl. exact Hgoal.
  - rewrite (proj2 (Z.eqb_neq _ _)) by (apply Hne; left; by destruct d1). exact Hgoal.
Qed.

(** the nodes of a tree are in memory, so no path is longer than the memory *)
Lemma shape_dom m par t : shape m par t → ∀ x, x ∈ inorder t → is_Some (m !! x).
Proof.
  revert par. induction t as [|c l IHl y r IHr]; intros par; cbn; [set_solver|].
  intros (Hy & Hl & Hr) x. rewrite elem_of_app, elem_of_cons. intros [Hx|[->|Hx]]; eauto.
Qed.

Lemma holds_size m0 s t : holds m0 s t → (length (inorder t) ≤ size (nodes s))%nat.
Proof. intros [Hs _ Hnd _ _]. apply nodup_size; [done|]. by eapply shape_dom. Qed.

Lemma frame_nodes_length k : (length k ≤ length (frame_nodes k))%nat.
Proof. induction k as [|f k IH]; cbn; [lia|]. rewrite length_app. lia. Qed.

Lemma holds_depth m0 s k t : holds m0 s (plug k t) → (length k ≤ size (nodes s))%nat.
Proof.
  intros H%holds_size. rewrite inorder_perm, length_app in H. pose proof (frame_nodes_length k). lia.
Qed.

Lemma rb_insert_color_ok m0 k d t x sib n s :
  red_node m0 s k d t x sib n →
  wp (rb_insert_color x) (λ _ s', ∃ t', holds m0 s' t' ∧ rb_tree t' ∧
    inorder t' = inorder (plug k (node d Red t x sib))) s.
Proof.
  intros HR. unfold rb_insert_color. pose proof (holds_depth _ _ _ _ (proj1 HR)) as Hd.
  wp_self.
  apply rb_bind. eapply rb_mono; [eapply insert_loop_ok; [exact HR|lia]|].
  intros _ s' (t' & H' & Hne & Hi & Hrb). apply rb_bind. apply (tr_root _ _ H').
  destruct t' as [|c l y r]; [done|]. cbn [addr].
  apply (tr_set_black (k := []) (d := true) H'). intros s'' H''. exists (T Black l y r).
  split_and!; [exact H''|exact Hrb|by rewrite <- Hi].
Qed.

(** *** Linking a new node at a leaf *)
Definition link_of (k : list frame) : rb_link :=
  match k with
  | [] => LinkRoot
  | f :: _ => if f_side f then LinkLeft (f_node f) else LinkRight (f_node f)
  end.

Lemma rb_link_node_ok m0 k x s :
  holds m0 s (plug k E) → is_ptr x → is_Some (nodes s !! x) → x ∉ inorder (plug k E) →
  wp (rb_link_node x (parent_of 0 k) (link_of k)) (λ _ s', holds m0 s' (plug k (T Red E x E))) s.
Proof.
  intros H Hx [[w r0 l0] Hm] Hout. apply holds_focus in H as (_ & Hf & Hnd & Hp & Ho). cbn in Hnd, Hp, Ho, Hf.
  rewrite inorder_perm in Hout. cbn in Hout. unfold rb_link_node.
  apply rb_bind. eapply (wp_word (d := true)); [exact Hm|].
  apply rb_bind. eapply (wp_set_near (d := false)); [apply upd_this|].
  apply rb_bind. eapply (wp_set_near (d := true)); [apply upd_this|].
  match goal with |- wp _ _ (upd _ ?n _) => set (nx := n) end. set (s3 := upd _ _ _).
  assert (∀ a, a ≠ x → nodes s3 !! a = nodes s !! a) as G by (intros a Ha; unfold s3; by rewrite !upd_other).
  assert (∀ s', (∀ a, a ∉ frame_nodes k → nodes s' !! a = nodes s3 !! a) →
    fshape (nodes s') 0 (rb_root s') x k → holds m0 s' (plug k (T Red E x E))) as Hdone.
  { intros s' G' Hf'. apply holds_focus. cbn. split_and!; try done.
    - rewrite G' by done. unfold s3. rewrite upd_this. subst nx. unfold cell, pack, cbit, RB_RED. by rewrite Z.add_0_r.
    - by constructor.
    - by constructor.
    - intros a Ha. rewrite G', G by set_solver. apply Ho. set_solver. }
  destruct k as [|f k]; [by apply Hdone|]. cbn [link_of].
  assert (fshape (nodes s3) 0 (rb_root s3) 0 (f :: k)) as Hf3.
  { eapply fshape_same; [|exact Hf]. intros a Ha. apply G. set_solver. }
  assert (wp (set_near (f_side f) (f_node f) x) (λ _ s', holds m0 s' (plug (f :: k) (T Red E x E))) s3) as Hw.
  { eapply wp_set_near; [exact (proj1 Hf3)|]. apply Hdone.
    - intros a Ha. apply upd_other. cbn in Ha. set_solver.
    - by eapply (fshape_hole f k 0 _ 0 x s3). }
  by destruct (f_side f).
Qed.

(** *** Linking and rebalancing *)
Lemma insert_ok m0 k x s :
  holds m0 s (plug k E) → rb_tree (plug k E) →
  is_ptr x → is_Some (nodes s !! x) → x ∉ inorder (plug k E) →
  wp (rb_link_node x (parent_of 0 k) (link_of k);; rb_insert_color x) (λ _ s', ∃ t',
    holds m0 s' t' ∧ rb_tree t' ∧ inorder t' = before k ++ x :: after k) s.
Proof.
  intros H Hrb Hx Hm Hout. apply rb_bind. eapply rb_mono; [by apply rb_link_node_ok|].
  intros [] s' H'. destruct (plug_inv _ _ Hrb) as (n & Hk & Hn & _). inversion Hn; subst.
  eapply rb_mono; [eapply (rb_insert_color_ok m0 k true E x E 0)|].
  { split_and!; [exact H'|done..]. }
  intros _ s'' (t' & ? & ? & Hi). exists t'. split_and!; [done..|]. by rewrite Hi, inorder_plug.
Qed.

(** ** Removal: restoring the balance *)

(** the part of a round after the sibling was made black *)
Definition erase_rest (d : bool) (parent other : Z) : rbM (Z * Z * bool) :=
  ol ← rb_left other; bl ← is_black_node ol;
  both ← (if bl : bool then r ← rb_right other; is_black_node r else mret false);
  if both : bool then
    rb_set_red other;;
    p ← rb_parent parent;
    mret (parent, p, false)
  else
    f ← get_far d other; bf ← is_black_node f;
    other ← (if bf : bool then
               n ← get_near d other; rb_set_black n;; rb_set_red other;;
               rotate (negb d) other;;
               get_far d parent
             else mret other);
    c ← rb_color parent; rb_set_color other c;;
    rb_set_black parent;;
    f ← get_far d other; rb_set_black f;;
    rotate d parent;;
    root ← get_root;
    mret (root, parent, true).

Definition erase_side (d : bool) (parent : Z) : rbM (Z * Z * bool) :=
  other ← get_far d parent;
  red ← rb_is_red other;
  other ← (if red : bool then
             rb_set_black other;; rb_set_red parent;;
             rotate d parent;;
             get_far d parent
           else mret other);
  erase_rest d parent other.

Lemma erase_sides x : erase_left x = erase_side true ∧ erase_right x = erase_side false.
Proof. done. Qed.

(** a subtree that is a proper one up to the colour of its root *)
Definition weak (t : tree) (n : nat) : Prop :=
  match t with T Red l x r => rb l n ∧ rb r n | _ => rb t n end.

Lemma weak_blacken t n : weak t n → is_red t = true → rb (blacken t) (S n).
Proof. destruct t as [|[] l x r]; try done. intros [??] _. by constructor. Qed.

(** the tests of both children *)
Lemma tr_both_black {m0 s k d c a o b} {A} (rest : bool → rbM A) Q :
  holds m0 s (plug k (node d c a o b)) →
  wp (rest (negb (is_red a || is_red b))) Q s →
  wp (ol ← rb_left o; bl ← is_black_node ol;
      both ← (if bl : bool then r ← rb_right o; is_black_node r else mret false);
      rest both) Q s.
Proof.
  intros H HQ.
  assert (∃ l r, holds m0 s (plug k (node true c l o r)) ∧ is_red l || is_red r = is_red a || is_red b)
    as (l & r & H' & E).
  { destruct d; [by exists a, b|]. exists b, a. split; [exact H|apply orb_comm]. }
  rewrite <- E in HQ. apply rb_bind, (tr_left _ H'), rb_bind.
  eapply (tr_is_black (k := Frame true c o r :: k)); [exact H'|]. apply rb_bind.
  destruct (is_red l) eqn:El; cbn; [exact HQ|].
  apply rb_bind, (tr_right _ H').
  eapply (tr_is_black (k := Frame false c o l :: k)); [exact H'|]. exact HQ.
Qed.

(** the black child moves up *)
Lemma erase_recolor m0 s d c p ol o or k t Q :
  holds m0 s (plug (Frame d c p (node d Black ol o or) :: k) t) →
  is_red ol = false → is_red or = false →
  (∀ s', holds m0 s' (plug k (node d c t p (node d Red ol o or))) → Q (p, parent_of 0 k, false) s') →
  wp (erase_rest d p o) Q s.
Proof.
  intros H R1 R2 HQ. cbn [plug f_side f_color f_node f_sib] in H.
  assert (holds m0 s (plug (Frame (negb d) c p t :: k) (node d Black ol o or))) as H'.
  { cbn. by rewrite node_flip. }
  apply (tr_both_black _ _ H'). rewrite R1, R2. apply rb_bind, (tr_set_red H'). intros s1 H1.
  cbn [plug f_side f_color f_node f_sib] in H1. rewrite node_flip in H1.
  apply rb_bind, (tr_parent H1), rb_ret, HQ, H1.
Qed.

(** the end of a round: the far child of the sibling is red *)
Lemma erase_last m0 s d c p a o x b e k t n Q :
  holds m0 s (plug k (node d c t p (node d Black a o (node d Red b x e)))) →
  rb t n → rb a n → rb b n → rb e n →
  frames_ok k (match c with Black => S (S n) | Red => S n end) → (c = Red → black_top k) →
  (∀ s' t' q, holds m0 s' t' → t' ≠ E → rb_tree (blacken t') →
     inorder t' = inorder (plug k (node d c t p (node d Black a o (node d Red b x e)))) →
     Q (addr t', q, true) s') →
  wp (c ← rb_color p; rb_set_color o c;; rb_set_black p;; f ← get_far d o; rb_set_black f;;
      rotate d p;; root ← get_root; mret (root, p, true)) Q s.
Proof.
  intros H Ht Ha Hb He Hk Htop HQ. apply rb_bind, (tr_color H), rb_bind.
  eapply (tr_set_color (k := Frame (negb d) c p t :: k) (d := d)); [cbn; rewrite node_flip; exact H|].
  intros s2 H2. cbn in H2. rewrite node_flip in H2.
  apply rb_bind, (tr_set_black H2). intros s3 H3. apply rb_bind.
  eapply (tr_far (k := Frame (negb d) Black p t :: k) (d := d)); [cbn; rewrite node_flip; exact H3|].
  rewrite addr_node. apply rb_bind.
  eapply (tr_set_black (k := Frame (negb d) c o a :: Frame (negb d) Black p t :: k) (d := d));
    [cbn; rewrite !node_flip; exact H3|].
  intros s4 H4. cbn in H4. rewrite !node_flip in H4. apply rb_bind, (tr_rotate _ H4). intros s5 H5.
  apply rb_bind, (tr_root _ _ H5), rb_ret. apply HQ; [exact H5|apply plug_not_E; by destruct d| |].
  - assert (rb_tree (plug k (node d c (node d Black t p a) o (node d Black b x e)))) as Hrb.
    { destruct c.
      - eapply plug_rb; [done| |right; by apply Htop]. apply rb_red. rewrite !rb_black, !is_red_node_eq. tauto.
      - eapply plug_rb; [done| |left; by rewrite is_red_node_eq]. apply rb_black. rewrite !rb_black. tauto. }
    rewrite blacken_black; [done|apply Hrb].
  - rewrite !inorder_plug. do 2 f_equal. destruct d; cbn; by simplify_list_eq.
Qed.

(** a red child of the sibling makes up for the loss *)
Lemma erase_mend m0 s d c p ol o or k t n Q :
  holds m0 s (plug (Frame d c p (node d Black ol o or) :: k) t) →
  is_red ol || is_red or = true → rb t n → is_red t = false →
  frames_ok (Frame d c p (node d Black ol o or) :: k) (S n) →
  (∀ s' t' q, holds m0 s' t' → t' ≠ E → rb_tree (blacken t') →
     inorder t' = inorder (plug (Frame d c p (node d Black ol o or) :: k) t) → Q (addr t', q, true) s') →
  wp (erase_rest d p o) Q s.
Proof.
  intros H Hor Ht Rt Hk HQ. cbn [plug f_side f_color f_node f_sib] in H.
  assert (rb (node d Black ol o or) (S n)) as [Hol Hor']%rb_black by (by inversion Hk; subst).
  assert (holds m0 s (plug (Frame (negb d) c p t :: k) (node d Black ol o or))) as H'.
  { cbn. by rewrite node_flip. }
  apply (tr_both_black _ _ H'). rewrite Hor. cbn [negb].
  apply rb_bind, (tr_far H'), rb_bind.
  eapply (tr_is_black (k := Frame (negb d) Black o ol :: Frame (negb d) c p t :: k)).
  { cbn. rewrite !node_flip. exact H. }
  apply rb_bind.
  assert (frames_ok k (match c with Black => S (S n) | Red => S n end) ∧ (c = Red → black_top k)) as [Hk' Htop].
  { by inversion Hk; subst. }
  cbn [plug f_side f_color f_node f_sib] in HQ.
  destruct (is_red or) eqn:Eor; cbn [negb].
  - apply rb_ret. assert (∃ b1 x e1, or = node d Red b1 x e1) as (b1 & x & e1 & ->).
    { destruct or as [|[] l x r]; try done. destruct d; [by exists l, x, r|by exists r, x, l]. }
    apply rb_red in Hor' as (Hb1 & He1 & _ & _). by eapply erase_last.
  - rewrite orb_false_r in Hor. assert (∃ a x b1, ol = node d Red a x b1) as (a & x & b1 & ->).
    { destruct ol as [|[] l x r]; try done. destruct d; [by exists l, x, r|by exists r, x, l]. }
    apply rb_red in Hol as (Ha & Hb1 & _ & _).
    apply rb_bind, (tr_near H'). rewrite addr_node. apply rb_bind.
    eapply (tr_set_black (k := Frame d Black o or :: Frame (negb d) c p t :: k) (d := d)); [exact H'|].
    intros s1 H1. apply rb_bind.
    eapply (tr_set_red (k := Frame (negb d) c p t :: k) (d := d) (c := Black)); [exact H1|].
    intros s2 H2. apply rb_bind.
    cbn in H2. rewrite <- (node_flip d Red _ o), <- (node_flip d Black _ x) in H2.
    eapply (tr_rotate (k := Frame (negb d) c p t :: k)); [exact H2|]. intros s3 H3.
    cbn in H3. rewrite !node_flip in H3.
    apply (tr_far H3). rewrite addr_node. eapply erase_last; [exact H3|done..|].
    intros s' t' q ? ? ? Ei. apply HQ; [done..|]. rewrite Ei, !inorder_plug. do 2 f_equal.
    destruct d; cbn; by simplify_list_eq.
Qed.

(** *** The loop *)
Lemma rb_split d t n : rb t (S n) → is_red t = false → ∃ a o b, t = node d Black a o b ∧ rb a n ∧ rb b n.
Proof.
  intros Ht Hr. inversion Ht as [|l x r ? Hl Hr'|l x r ? Hl Hr']; subst; try done.
  destruct d; [by exists l, x, r|by exists r, x, l].
Qed.

(** what a round leaves: done, or the same problem at the parent *)
Lemma erase_rest_ok m0 s d c p a o b k t n nds Q :
  holds m0 s (plug k (node d c t p (node d Black a o b))) → rb t n → is_red t = false →
  frames_ok (Frame d c p (node d Black a o b) :: k) (S n) →
  inorder (plug k (node d c t p (node d Black a o b))) = nds →
  (∀ s' t' q, holds m0 s' t' → t' ≠ E → rb_tree (blacken t') → inorder t' = nds → Q (addr t', q, true) s') →
  (∀ s' t' n', holds m0 s' (plug k t') → weak t' n' → frames_ok k (S n') →
     (c = Red → is_red t' = true) → inorder (plug k t') = nds → Q (addr t', parent_of 0 k, false) s') →
  wp (erase_rest d p o) Q s.
Proof.
  intros H Ht Rt Hk Hi HQ1 HQ2.
  assert (rb (node d Black a o b) (S n)) as [Ha Hb]%rb_black by (by inversion Hk; subst).
  destruct (is_red a || is_red b) eqn:Er.
  - eapply erase_mend; [exact H|done..|]. intros s' t' q ? ? ? Ei. apply HQ1; [done..|]. by rewrite Ei.
  - apply orb_false_iff in Er as [Er1 Er2]. eapply erase_recolor; [exact H|done|done|]. intros s' H'.
    assert (rb (node d Red a o b) n) as Hred by (by apply rb_red).
    rewrite <- (addr_node d c t p (node d Red a o b)).
    eapply (HQ2 s' _ (match c with Red => n | Black => S n end)); [exact H'| | | |].
    + destruct c; [by destruct d|]. assert (rb (node d Black t p (node d Red a o b)) (S n)) as Hrb by (by apply rb_black).
      destruct d; exact Hrb.
    + by inversion Hk; subst.
    + intros ->. apply is_red_node_eq.
    + rewrite <- Hi, !inorder_plug. do 2 f_equal. destruct d; cbn; by simplify_list_eq.
Qed.

Lemma erase_side_ok m0 s d c p sib k t n Q :
  holds m0 s (plug (Frame d c p sib :: k) t) → rb t n → is_red t = false →
  frames_ok (Frame d c p sib :: k) (S n) →
  (∀ s' t' q, holds m0 s' t' → t' ≠ E → rb_tree (blacken t') →
     inorder t' = inorder (plug (Frame d c p sib :: k) t) → Q (addr t', q, true) s') →
  (∀ s' k' t' n', holds m0 s' (plug k' t') → weak t' n' → frames_ok k' (S n') →
     (k' = k ∨ is_red t' = true) →
     inorder (plug k' t') = inorder (plug (Frame d c p sib :: k) t) →
     Q (addr t', parent_of 0 k', false) s') →
  wp (erase_side d p) Q s.
Proof.
  intros H Ht Rt Hk HQ1 HQ2. unfold erase_side.
  assert (rb sib (S n)) as Hsib by (by inversion Hk).
  cbn [plug f_side f_color f_node f_sib] in H.
  apply rb_bind, (tr_far H), rb_bind.
  assert (∃ cs a o b, sib = node d cs a o b) as (cs & a & o & b & ->).
  { destruct sib as [|cs l x r]; [inversion Hsib|]. exists cs. destruct d; [by exists l, x, r|by exists r, x, l]. }
  rewrite addr_node. apply rb_bind.
  eapply (tr_color (k := Frame (negb d) c p t :: k) (d := d)); [cbn; rewrite node_flip; exact H|].
  apply rb_ret, rb_bind. destruct cs; cycle 1.
  { apply rb_ret. eapply erase_rest_ok; [exact H|done..|exact HQ1|].
    intros s' t' n' ? ? ? _ ?. eapply HQ2; [done..|by left|done]. }
  (* a red sibling: it becomes the grandparent, and one of its children the sibling *)
  assert (c = Black) as ->.
  { inversion Hk as [| |? ? ? ? ? _ Hr]; subst; [done|]. by rewrite is_red_node_eq in Hr. }
  apply rb_red in Hsib as (Ha & Hb & Ra & Rb). destruct (rb_split d a n Ha Ra) as (a1 & o1 & b1 & -> & Ha1 & Hb1).
  cbn [cbit truth negb]. apply rb_bind.
  eapply (tr_set_black (k := Frame (negb d) Black p t :: k) (d := d)); [cbn; rewrite node_flip; exact H|].
  intros s1 H1. cbn in H1. rewrite node_flip in H1.
  apply rb_bind, (tr_set_red H1). intros s2 H2. apply rb_bind, (tr_rotate _ H2). intros s3 H3.
  apply (tr_far (k := Frame d Black o b :: k) H3). rewrite addr_node.
  assert (frames_ok k (S (S n))) as Hk' by (by inversion Hk).
  eapply (erase_rest_ok _ _ _ _ _ _ _ _ (Frame d Black o b :: k)); [exact H3|done|done| |reflexivity| |].
  - constructor; [by apply rb_black|by rewrite is_red_node_eq|by constructor|done].
  - intros s' t' q ? ? ? Ei. apply HQ1; [done..|]. rewrite Ei. cbn. rewrite !inorder_plug. do 2 f_equal.
    destruct d; cbn; by simplify_list_eq.
  - intros s' t' n' ? ? ? Hred Ei. eapply HQ2; [done..|right; by apply Hred|]. rewrite Ei. cbn.
    rewrite !inorder_plug. do 2 f_equal. destruct d; cbn; by simplify_list_eq.
Qed.

(** the root is not below a frame *)
Lemma root_in_frames k t : k ≠ [] → addr (plug k t) ∈ frame_nodes k.
Proof.
  revert t. induction k as [|f k IH]; intros t Hk; [done|]. cbn [plug frame_nodes].
  destruct k as [|f' k]; [cbn; rewrite addr_node; set_solver|].
  specialize (IH (node (f_side f) (f_color f) t (f_node f) (f_sib f)) ltac:(done)). set_solver.
Qed.

Lemma root_ne m0 s k t : holds m0 s (plug k t) → k ≠ [] → addr t ≠ addr (plug k t).
Proof.
  intros H Hk Heq. pose proof (root_in_frames k t Hk) as Hin.
  apply holds_focus in H as (_ & _ & Hnd & Hp & _). rewrite NoDup_app in Hnd.
  rewrite Forall_forall in Hp. rewrite <- Heq in Hin. destruct (addr_in t) as [[_ Ez]|Ht].
  - rewrite Ez in Hin. destruct (Hp 0) as [? _]; [set_solver|lia].
  - destruct Hnd as (_ & Hd & _). by apply (Hd _ Ht).
Qed.

Lemma erase_loop_ok m0 fuel k t n s :
  holds m0 s (plug k t) → weak t n → frames_ok k (S n) →
  ((if is_red t then 0 else length k) < fuel)%nat →
  wp (erase_loop fuel (addr t) (parent_of 0 k)) (λ nd s', ∃ k' t', holds m0 s' (plug k' t') ∧
    nd = addr t' ∧ rb_tree (plug k' (blacken t')) ∧ inorder (plug k' t') = inorder (plug k t)) s.
Proof.
  revert k t n s. induction fuel as [|fuel IH]; intros k t n s H Ht Hk Hf; [lia|].
  cbn [erase_loop]. apply rb_bind, (tr_is_black _ _ H), rb_bind, (tr_root _ _ H).
  destruct (is_red t) eqn:Er; cbn [negb andb].
  { apply rb_ret. exists k, t. split_and!; [done..| |done].
    eapply plug_rb; [done|by apply weak_blacken|left]. by destruct t as [|[]]. }
  assert (rb t n) as Ht' by (by destruct t as [|[]]).
  destruct k as [|[d c p sib] k].
  { cbn [plug]. rewrite Z.eqb_refl. apply rb_ret. exists [], t. rewrite blacken_black by done.
    split_and!; [done..| |done]. split; [done|by exists n]. }
  rewrite (proj2 (Z.eqb_neq _ _)) by (by eapply root_ne). cbn [negb parent_of f_node].
  apply rb_bind. cbn [plug f_side f_color f_node f_sib] in H. apply (tr_left _ H), rb_bind.
  assert (sib ≠ E) as Hne by (intros ->; inversion Hk as [|? ? ? ? ? Hr|? ? ? ? ? Hr]; inversion Hr).
  assert (wp (erase_side d p) (λ '(nd, parent, stop) s', wp (if stop : bool then mret nd else erase_loop fuel nd parent)
    (λ nd s', ∃ k' t', holds m0 s' (plug k' t') ∧ nd = addr t' ∧ rb_tree (plug k' (blacken t')) ∧
      inorder (plug k' t') = inorder (plug (Frame d c p sib :: k) t)) s') s) as Hgoal.
  { eapply erase_side_ok; [exact H|done..| |].
    - intros s' t' q ? ? ? Ei. apply rb_ret. exists [], t'. by split_and!.
    - intros s' k' t' n' ? ? ? Hor Ei. eapply rb_mono; [eapply IH; [done..|]|].
      + destruct Hor as [->| ->]; [destruct (is_red t')|]; cbn in Hf; lia.
      + intros nd s'' (k2 & t2 & ? & ? & ? & E2). exists k2, t2. split_and!; [done..|]. by rewrite E2. }
  pose proof (addr_ne _ _ _ _ _ _ _ _ H) as Hd.
  eapply rb_mono with (Q := λ '(nd, parent, stop) s', _); [|intros [[nd par] stop] s'; exact id].
  destruct d.
  - rewrite Z.eqb_refl. exact Hgoal.
  - rewrite (proj2 (Z.eqb_neq _ _)) by (intros Heq; apply Hd; [by right|by symmetry]). exact Hgoal.
Qed.

Lemma rb_erase_color_ok m0 k t n s :
  holds m0 s (plug k t) → weak t n → frames_ok k (S n) →
  wp (__rb_erase_color (addr t) (parent_of 0 k)) (λ _ s', ∃ t', holds m0 s' t' ∧ rb_tree t' ∧
    inorder t' = inorder (plug k t)) s.
Proof.
  intros H Ht Hk. pose proof (holds_depth _ _ _ _ H) as Hd.
  unfold __rb_erase_color. wp_self.
  apply rb_bind. eapply rb_mono; [eapply erase_loop_ok; [done..|destruct (is_red t); lia]|].
  intros nd s' (k' & t' & H' & -> & Hrb & Ei). destruct t' as [|c l x r]; cbn [addr].
  - apply rb_ret. by exists (plug k' E).
  - rewrite ptr_truth by (by eapply (node_ptr (d := true))).
    apply (tr_set_black (d := true) H'). intros s'' H''. eexists. split_and!; [exact H''|done|].
    by rewrite <- Ei, !inorder_plug.
Qed.

(** ** Removal: taking the node out *)

(** the places with at most one child *)
Lemma erase_outer_ok m0 s k d c t x Q :
  holds m0 s (plug k (node d c t x E)) → m0 !! x = nodes s !! x →
  (∀ s', holds m0 s' (plug k t) → Q (addr t, parent_of 0 k, cbit c) s') →
  wp (erase_outer x (addr t)) Q s.
Proof.
  intros H Hx0 HQ. apply rb_bind, (tr_parent H), rb_bind, (tr_color H), rb_bind.
  pose proof (node_parent H) as Hpar. pose proof (node_ptr H) as Hxp.
  apply holds_focus in H as (Hs & Hf & Hnd & Hp & Ho). rewrite addr_node in Hf.
  apply shape_node in Hs as (_ & Ht & _). rewrite inorder_node in Hnd, Hp.
  setoid_rewrite inorder_node in Ho. cbn in Hnd, Hp, Ho. rewrite app_nil_r in Hnd, Hp.
  pose proof Hnd as [_ Hnd0]%NoDup_cons. nodup_facts Hnd.
  rewrite !Forall_cons in Hp. destruct Hp as (_ & Hp). pose proof Hp as [Pt Pk]%Forall_app.
  eapply wp_reparent; [exact Ht|tauto|done|by right|done|]. intros s1 Ht1 R1 G1.
  apply rb_bind, wp_relink_left, wp_relink.
  - rewrite R1. eapply fshape_same; [|exact Hf]. intros a Ha. apply G1. apart.
  - constructor; [apart|tauto].
  - by constructor.
  - intros s2 Hf2 G2. apply rb_ret, HQ, holds_focus. split_and!; [|done..|].
    + eapply shape_same; [|exact Ht1]. intros a Ha. apply G2. apart.
    + intros a Ha. rewrite G2, G1 by set_solver. destruct (decide (a = x)) as [->|]; [done|].
      apply Ho. set_solver.
Qed.

(** *** Going down on one side *)
Definition descend (d : bool) : nat → Z → rbM Z := if d then leftmost else rightmost.

Lemma descend_S d fuel x :
  descend d (S fuel) x = (c ← get_near d x; if truth c then descend d fuel c else mret x).
Proof. by destruct d. Qed.

Lemma descend_split d t :
  t ≠ E → ∃ j c y sib, t = plug j (node d c E y sib) ∧ Forall (λ f, f_side f = d) j.
Proof.
  induction t as [|c l IHl x r IHr]; intros Ht; [done|].
  set (child := if d then l else r). destruct (decide (child = E)) as [He|He].
  { exists [], c, x, (if d then r else l). split; [|done]. destruct d; subst child; cbn; by rewrite He. }
  assert (∃ j c y sib, child = plug j (node d c E y sib) ∧ Forall (λ f, f_side f = d) j)
    as (j & c' & y & sib & E & Hj) by (destruct d; auto).
  exists (j ++ [Frame d c x (if d then r else l)]), c', y, sib. split.
  - rewrite plug_app, <- E. by destruct d.
  - apply Forall_app. split; [done|by constructor].
Qed.

Lemma wp_descend m0 s d fuel j k c y sib Q :
  holds m0 s (plug (j ++ k) (node d c E y sib)) → Forall (λ f, f_side f = d) j →
  (length j < fuel)%nat → Q y s →
  wp (descend d fuel (addr (plug j (node d c E y sib)))) Q s.
Proof.
  revert fuel k. induction j as [|f j IH] using rev_ind; intros [|fuel] k H Hj Hf HQ; try lia.
  - cbn [plug]. rewrite addr_node, descend_S. apply rb_bind, (tr_near H). done.
  - apply Forall_app in Hj as [Hj [Hf' _]%Forall_cons]. cbn in Hf'. rewrite plug_app. cbn [plug]. rewrite addr_node.
    rewrite <- app_assoc in H. rewrite descend_S. apply rb_bind.
    pose proof H as H'. rewrite plug_app in H'. cbn in H'. rewrite Hf' in H'.
    apply (tr_near H').
    rewrite length_app in Hf. cbn in Hf.
    assert (plug j (node d c E y sib) ≠ E) as Hne by (apply plug_not_E; by destruct d).
    destruct (plug j (node d c E y sib)) as [|c1 l1 x1 r1] eqn:Ep; [done|]. cbn [addr].
    rewrite ptr_truth; [|by eapply (node_ptr (d := true) (k := Frame d (f_color f) (f_node f) (f_sib f) :: k))].
    eapply IH; [exact H|done|lia|done].
Qed.

(** *** A node with two children *)

(** [y] takes the word and the left child of [x]; its right subtree is in place *)
Lemma erase_inner_end {A} (rest : rbM A) m0 s x y c cy l r w k v Q :
  nodes s !! x = Some (cell true (pack (parent_of 0 k) c) (addr l) w) →
  nodes s !! y = Some (cell true (pack v cy) 0 (addr r)) →
  shape (nodes s) x l → shape (nodes s) y r → fshape (nodes s) 0 (rb_root s) y k → l ≠ E →
  NoDup (x :: y :: inorder l ++ inorder r ++ frame_nodes k) →
  Forall is_ptr (x :: y :: inorder l ++ inorder r ++ frame_nodes k) →
  (∀ a, a ∉ y :: inorder l ++ inorder r ++ frame_nodes k → nodes s !! a = m0 !! a) →
  (∀ s', holds m0 s' (plug k (T c l y r)) → wp rest Q s') →
  wp (o ← load x; set_parent_color y (rb_parent_color o);;
      ol ← rb_left x; set_left y ol;; rb_set_parent ol y;; rest) Q s.
Proof.
  intros Hx Hy Hl Hr Hk Hne Hnd Hp Ho HQ. rewrite !Forall_cons in Hp. destruct Hp as (Px & Py & Pp).
  pose proof Pp as (Pl & _)%Forall_app. pose proof Hnd as [_ Hnd0]%NoDup_cons. nodup_facts Hnd.
  apply rb_bind. eapply wp_load; [exact Hx|]. apply rb_bind. eapply wp_word; [exact Hy|]. cbn [rb_parent_color cell].
  apply rb_bind. eapply (wp_near (d := true)); [rewrite upd_other by apart; exact Hx|].
  apply rb_bind. eapply (wp_set_near (d := true)); [apply upd_this|]. set (s1 := upd _ _ _).
  assert (∀ a, a ≠ y → nodes s1 !! a = nodes s !! a) as G1 by (intros a Ha; unfold s1; by rewrite !upd_other).
  apply rb_bind. assert (rb_set_parent (addr l) y = reparent (addr l) y) as ->.
  { unfold reparent. destruct l as [|cl ll xl rl]; [done|]. cbn. cbn in Pl. rewrite ptr_truth; [done|].
    rewrite Forall_app, Forall_cons in Pl. tauto. }
  eapply (wp_reparent x y); [|tauto|done|by right|by right|].
  { eapply shape_same; [|exact Hl]. intros a Ha. apply G1. apart. }
  intros s2 Hl2 R2 G2. apply HQ, holds_focus. cbn [addr shape]. split_and!.
  - rewrite G2 by apart. apply upd_this.
  - done.
  - eapply shape_same; [|exact Hr]. intros a Ha. rewrite G2, G1 by apart. done.
  - rewrite R2. eapply fshape_same; [|exact Hk]. intros a Ha. rewrite G2, G1 by apart. done.
  - rewrite (inorder_node true c l y r). cbn. by rewrite <- app_assoc.
  - rewrite (inorder_node true c l y r). cbn. rewrite <- app_assoc. by constructor.
  - intros a Ha. cbn in Ha. rewrite G2, G1 by apart. apply Ho. apart.
Qed.

(** the successor [y] is taken out from below [f] *)
Lemma wp_unhook {A} (rest : rbM A) s x y cy ry f j Q :
  shape (nodes s) x (plug (f :: j) (T cy E y ry)) → f_side f = true →
  NoDup (y :: inorder ry ++ frame_nodes (f :: j)) → Forall is_ptr (y :: inorder ry ++ frame_nodes (f :: j)) →
  (∀ s', shape (nodes s') x (plug (f :: j) ry) → rb_root s' = rb_root s →
     addr (plug (f :: j) (T cy E y ry)) = addr (plug (f :: j) ry) →
     (∀ a, a ∉ inorder ry ++ frame_nodes (f :: j) → nodes s' !! a = nodes s !! a) → wp rest Q s') →
  wp (when (truth (addr ry)) (rb_set_parent (addr ry) (f_node f));;
      set_left (f_node f) (addr ry);; rest) Q s.
Proof.
  intros Hr Hf Hnd Hp HQ.
  destruct (proj1 (shape_plug _ _ _ _ _) (conj Hr eq_refl)) as [(_ & _ & Hry) Hfj]. cbn [addr] in Hfj.
  apply NoDup_cons in Hnd as [Hy (Hndr & Hdis & Hndf)%NoDup_app].
  apply Forall_cons in Hp as [Py [Pr Pf]%Forall_app].
  assert (f_node f ∈ frame_nodes (f :: j)) as Hfin by (cbn; set_solver).
  apply rb_bind. eapply (wp_reparent y (f_node f)); [exact Hry|done|done|by right| |].
  { right. rewrite Forall_forall in Pf. by apply Pf. }
  intros s1 Hry1 R1 G1. apply rb_bind.
  assert (fshape (nodes s1) x (addr (plug (f :: j) (T cy E y ry))) y (f :: j)) as Hfj1.
  { eapply fshape_same; [|exact Hfj]. intros a Ha. apply G1. set_solver. }
  pose proof (fshape_hole f j x _ y (addr ry) s1 Hfj1 Hndf) as Hfj2.
  eapply (wp_set_near (d := true)); [rewrite <- Hf; exact (proj1 Hfj1)|]. rewrite <- Hf.
  set (s2 := upd _ _ _) in *.
  assert (shape (nodes s2) (f_node f) ry) as Hry2.
  { eapply shape_same; [|exact Hry1]. intros a Ha. apply upd_other. intros ->. by apply (Hdis _ Ha). }
  destruct (proj2 (shape_plug (nodes s2) x (f :: j) ry _) (conj Hry2 Hfj2)) as [Hr2 Etop].
  apply HQ; [done..|]. intros a Ha. unfold s2. rewrite upd_other, G1 by set_solver. done.
Qed.

(** the subtree of the successor without it *)
Lemma erase_inner_middle m0 s x y c cy l ry j k Q :
  nodes s !! x = Some (cell true (pack (parent_of 0 k) c) (addr l) (addr (plug j (T cy E y ry)))) →
  shape (nodes s) x l → shape (nodes s) x (plug j (T cy E y ry)) → fshape (nodes s) 0 (rb_root s) y k →
  l ≠ E → Forall (λ f, f_side f = true) j →
  NoDup (x :: y :: inorder l ++ inorder (plug j ry) ++ frame_nodes k) →
  Forall is_ptr (x :: y :: inorder l ++ inorder (plug j ry) ++ frame_nodes k) →
  (∀ a, a ∉ y :: inorder l ++ inorder (plug j ry) ++ frame_nodes k → nodes s !! a = m0 !! a) →
  (∀ s', holds m0 s' (plug k (T c l y (plug j ry))) →
     Q (addr ry, parent_of y j, cbit cy) s') →
  wp (child ← rb_right y;
      parent ← rb_parent y;
      color ← rb_color y;
      parent ← (if parent =? x then mret y
                else
                  when (truth child) (rb_set_parent child parent);;
                  set_left parent child;;
                  or ← rb_right x;
                  set_right y or;;
                  rb_set_parent or y;;
                  mret parent);
      o ← load x; set_parent_color y (rb_parent_color o);;
      ol ← rb_left x; set_left y ol;; rb_set_parent ol y;;
      mret (child, parent, color)) Q s.
Proof.
  intros Hx Hl Hr Hk Hne Hj Hnd Hp Ho HQ.
  destruct (proj1 (shape_plug _ _ _ _ _) (conj Hr eq_refl)) as [(Hy & _ & Hry) Hfj]. cbn [addr] in *.
  change (RbNode (pack (parent_of x j) cy) (addr ry) 0) with (cell true (pack (parent_of x j) cy) 0 (addr ry)) in Hy.
  assert (is_ptr x ∧ is_ptr y ∧ Forall is_ptr (inorder ry ++ frame_nodes j)) as (Px & Py & Pj).
  { rewrite !Forall_cons, !Forall_app, inorder_perm in Hp. tauto. }
  assert (parent_of x j = 0 ∨ is_ptr (parent_of x j)) as Hpj.
  { right. destruct j as [|f j]; [done|]. rewrite Forall_forall in Pj. apply Pj. cbn. set_solver. }
  apply rb_bind. eapply (wp_far (d := true)); [exact Hy|].
  apply rb_bind. eapply wp_parent; [exact Hpj|exact Hy|].
  apply rb_bind. eapply wp_color; [exact Hpj|exact Hy|]. apply rb_bind.
  destruct j as [|f j].
  { cbn [parent_of]. rewrite Z.eqb_refl. apply rb_ret. by eapply erase_inner_end. }
  apply Forall_cons in Hj as [Hf _]. cbn [parent_of] in *. set (r' := plug (f :: j) ry) in *.
  pose proof Hnd as Hnd0. pose proof (inorder_perm (f :: j) ry : inorder r' ≡ₚ _) as Hr'.
  assert (Forall is_ptr (inorder r')) as Pr by (rewrite !Forall_cons, !Forall_app in Hp; tauto).
  nodup_facts Hnd.
  rewrite (proj2 (Z.eqb_neq _ _)).
  2: { intros <-. assert (f_node f ∈ inorder r') by (rewrite Hr'; cbn; set_solver). apart. }
  eapply (wp_unhook _ s x y cy ry f j); [exact Hr|done| | |].
  { constructor; rewrite <- Hr'; tauto. }
  { constructor; [done|]. by rewrite <- Hr'. }
  fold r'. intros s2 Hr2 R2 Etop G2. setoid_rewrite <- Hr' in G2.
  assert (nodes s2 !! x = Some (cell true (pack (parent_of 0 k) c) (addr l) (addr r'))) as Hx2.
  { rewrite G2, <- Etop by apart. exact Hx. }
  apply rb_bind. eapply (wp_far (d := true)); [exact Hx2|].
  apply rb_bind. eapply (wp_set_far (d := true)); [rewrite G2 by apart; exact Hy|]. set (s3 := upd y _ _).
  assert (rb_set_parent (addr r') y = reparent (addr r') y) as ->.
  { unfold reparent. rewrite ptr_truth; [done|]. destruct (addr_in r') as [[E0 _]|Ha].
    - exfalso. revert E0. apply (plug_not_E j). by destruct (f_side f).
    - rewrite Forall_forall in Pr. by apply Pr. }
  apply rb_bind. eapply (wp_reparent x y r'); [|tauto|done|by right|by right|].
  { eapply shape_same; [|exact Hr2]. intros a Ha. apply upd_other. apart. }
  intros s4 Hr4 R4 G4. apply rb_ret.
  assert (∀ a, a ≠ y → a ∉ inorder r' → nodes s4 !! a = nodes s !! a) as G5.
  { intros a Ha1 Ha2. rewrite G4 by done. unfold s3. rewrite upd_other, G2 by done. done. }
  eapply (erase_inner_end _ m0 s4 x y c cy l r'); [| | |exact Hr4| |done|exact Hnd0|done| |].
  - rewrite G4 by apart. unfold s3. rewrite upd_other by apart. exact Hx2.
  - rewrite G4 by apart. apply upd_this.
  - eapply shape_same; [|exact Hl]. intros a Ha. apply G5; apart.
  - rewrite R4. cbn. rewrite R2. eapply fshape_same; [|exact Hk]. intros a Ha. apply G5; apart.
  - intros a Ha. rewrite G5 by apart. by apply Ho.
  - intros s' H'. by apply rb_ret, HQ.
Qed.

Lemma erase_inner_ok m0 s k c l x j cy y ry Q :
  holds m0 s (plug k (T c l x (plug j (T cy E y ry)))) → m0 !! x = nodes s !! x → l ≠ E →
  Forall (λ f, f_side f = true) j →
  (∀ s', holds m0 s' (plug k (T c l y (plug j ry))) → Q (addr ry, parent_of y j, cbit cy) s') →
  wp (erase_inner x) Q s.
Proof.
  intros H Hx0 Hne Hj HQ. set (r := plug j (T cy E y ry)) in *.
  assert (holds m0 s (plug (j ++ Frame false c x l :: k) (T cy E y ry))) as Hr.
  { rewrite plug_app. exact H. }
  pose proof (holds_depth _ _ _ _ Hr) as Hdep. rewrite length_app in Hdep.
  assert (inorder r ≡ₚ y :: inorder (plug j ry)) as Hperm.
  { unfold r. rewrite !inorder_perm. cbn. done. }
  change (holds m0 s (plug k (node true c l x r))) in H.
  unfold erase_inner. wp_self.
  apply rb_bind. eapply (tr_right _ H). apply rb_bind.
  eapply (wp_descend m0 s true _ j (Frame false c x l :: k) cy y ry); [exact Hr|done|lia|].
  apply rb_bind, (tr_parent H).
  apply holds_focus in H as (Hs & Hf & Hnd & Hp & Ho).
  apply shape_node in Hs as (Hx & Hl & Hshr). rewrite addr_node in Hf. rewrite inorder_node in Hnd, Hp.
  setoid_rewrite inorder_node in Ho. cbn [app] in *. rewrite Hperm in Hnd, Hp. setoid_rewrite Hperm in Ho.
  assert (x :: (inorder l ++ y :: inorder (plug j ry)) ++ frame_nodes k ≡ₚ
    x :: y :: inorder l ++ inorder (plug j ry) ++ frame_nodes k) as Hperm' by solve_Permutation.
  rewrite Hperm' in Hnd, Hp. setoid_rewrite Hperm' in Ho.
  pose proof Hnd as Hnd'. nodup_facts Hnd.
  apply rb_bind, wp_relink_left, wp_relink; [exact Hf| | |].
  { constructor; [apart|tauto]. }
  { rewrite !Forall_cons, !Forall_app in *. tauto. }
  intros s1 Hf1 G1.
  eapply (erase_inner_middle m0 s1 x y c cy l ry j k); [| | |exact Hf1|done|done|done|done| |done].
  - rewrite G1 by apart. exact Hx.
  - eapply shape_same; [|exact Hl]. intros a Ha. apply G1. apart.
  - eapply shape_same; [|exact Hshr]. intros a Ha. apply G1.
    assert (a ∈ y :: inorder (plug j ry)) by (by rewrite <- Hperm). apart.
  - intros a Ha. rewrite G1 by apart. destruct (decide (a = x)) as [->|]; [done|]. apply Ho. apart.
Qed.

Lemma rb_weak t n : rb t n → weak t n.
Proof. destruct t as [|[] l x r]; cbn; [done| |done]. by inversion 1. Qed.

Lemma frames_rename j d c x y sib k n :
  frames_ok (j ++ Frame d c x sib :: k) n → frames_ok (j ++ Frame d c y sib :: k) n.
Proof.
  revert n. induction j as [|f j IH]; intros n; cbn.
  - inversion 1; subst; by constructor.
  - inversion 1; subst; constructor; auto. by destruct j as [|[? [] ? ?]].
Qed.

(** a red-black tree of these nodes *)
Definition balanced (m0 : gmap Z rb_node) (nds : list Z) (u : unit) (s : rb_state) : Prop :=
  ∃ t, holds m0 s t ∧ rb_tree t ∧ inorder t = nds.

(** the balance after a node of colour [c] was taken out above [t] *)
Definition finish (r : Z * Z * Z) : rbM unit :=
  let '(child, parent, color) := r in when (color =? RB_BLACK) (__rb_erase_color child parent).

Lemma erase_finish m0 s k t c n :
  holds m0 s (plug k t) → rb t n →
  match c with Red => frames_ok k n ∧ is_red t = false | Black => frames_ok k (S n) end →
  wp (finish (addr t, parent_of 0 k, cbit c)) (balanced m0 (inorder (plug k t))) s.
Proof.
  intros H Ht Hk. destruct c; cbn.
  - destruct Hk as [Hk Hb]. apply rb_ret. exists (plug k t). split_and!; [done| |done]. eapply plug_rb; eauto.
  - eapply rb_erase_color_ok; [exact H|by apply rb_weak|done].
Qed.

Lemma rb_erase_outer m0 s k d c t x :
  holds m0 s (plug k (node d c t x E)) → rb_tree (plug k (node d c t x E)) → m0 !! x = nodes s !! x →
  wp (erase_outer x (addr t)) (λ r, wp (finish r) (balanced m0 (before k ++ inorder t ++ after k))) s.
Proof.
  intros H Hrb Hx. destruct (plug_inv _ _ Hrb) as (n & Hk & Hn & _). rewrite <- inorder_plug.
  eapply erase_outer_ok; [exact H|done|]. intros s' H'.
  eapply (erase_finish _ _ _ _ _ (match c with Red => n | Black => pred n end)); [exact H'| |].
  - destruct c; [apply rb_red in Hn; tauto|]. destruct n; [by destruct d; inversion Hn|].
    apply rb_black in Hn; tauto.
  - destruct c; [split; [done|apply rb_red in Hn; tauto]|]. by destruct n; [destruct d; inversion Hn|].
Qed.

Lemma rb_erase_inner m0 s k c l x r :
  holds m0 s (plug k (T c l x r)) → rb_tree (plug k (T c l x r)) → m0 !! x = nodes s !! x →
  l ≠ E → r ≠ E →
  wp (erase_inner x) (λ o, wp (finish o) (balanced m0 (before k ++ inorder l ++ inorder r ++ after k))) s.
Proof.
  intros H Hrb Hx Hl Hr. destruct (descend_split true r Hr) as (j & cy & y & ry & -> & Hj).
  cbn [node] in *. eapply erase_inner_ok; [exact H|done..|]. intros s' H'.
  assert (rb_tree (plug (j ++ Frame false c x l :: k) (T cy E y ry))) as Hrb2 by (by rewrite plug_app).
  destruct (plug_inv _ _ Hrb2) as (n & Hk%(frames_rename _ _ _ x y) & Hn & _).
  assert (holds m0 s' (plug (j ++ Frame false c y l :: k) ry)) as H2 by (by rewrite plug_app).
  assert (before k ++ inorder l ++ inorder (plug j (T cy E y ry)) ++ after k =
    inorder (plug (j ++ Frame false c y l :: k) ry)) as ->.
  { rewrite plug_app, !inorder_plug.
    assert (before j = []) as -> by (clear -Hj; induction Hj as [|f j Hf ? IH]; cbn; [done|by rewrite IH, Hf]).
    cbn. by simplify_list_eq. }
  assert (parent_of y j = parent_of 0 (j ++ Frame false c y l :: k)) as -> by (by destruct j).
  change (T cy E y ry) with (node true cy E y ry) in Hn.
  eapply (erase_finish _ _ _ _ _ (match cy with Red => n | Black => pred n end)); [exact H2| |].
  - destruct cy; [apply rb_red in Hn; tauto|]. destruct n; [by inversion Hn|]. apply rb_black in Hn; tauto.
  - destruct cy; [split; [done|apply rb_red in Hn; tauto]|]. by destruct n; [inversion Hn|].
Qed.

Lemma rb_erase_ok m0 s k c l x r :
  holds m0 s (plug k (T c l x r)) → rb_tree (plug k (T c l x r)) → m0 !! x = nodes s !! x →
  wp (rb_erase x) (balanced m0 (before k ++ inorder l ++ inorder r ++ after k)) s.
Proof.
  intros H Hrb Hx. change (T c l x r) with (node true c l x r) in H.
  apply rb_bind, (tr_left _ H), rb_bind, (tr_right _ H), rb_bind.
  eapply rb_mono with (Q := λ o, wp (finish o) (balanced m0 (before k ++ inorder l ++ inorder r ++ after k)));
    [|intros [[??]?] ?; exact id].
  destruct (decide (l = E)) as [->|Hl].
  { change (truth (addr E)) with false. cbn [negb inorder app]. by apply (rb_erase_outer m0 s k false c). }
  rewrite ptr_truth by (destruct l; [done|]; eapply (node_ptr (d := true) (k := Frame true c x r :: k)), H).
  cbn [negb].
  destruct (decide (r = E)) as [->|Hr].
  { change (truth (addr E)) with false. cbn [negb inorder app]. by apply (rb_erase_outer m0 s k true c). }
  rewrite ptr_truth by (destruct r; [done|]; eapply (node_ptr (d := true) (k := Frame false c x l :: k)), H).
  cbn [negb]. apply (rb_erase_inner _ _ _ c); [exact H|exact Hrb|done..].
Qed.
