(* ===== verification/RbtreeList.v ===== *)
(** * Red-black trees: the nodes in order (continues RbtreeBal.v)

    Walking, replacing and the depth; and what the functions promise their users:
    the tree is the list of its nodes in order, every operation is the operation on
    this list, and no search is longer than twice the logarithm of its length. *)
From S2P Require Import Prelude Rbtree RbtreeInv RbtreeBal.

(** ** Walking *)
Definition ascend (d : bool) : nat → Z → rbM Z := if d then up_left else up_right.

Lemma ascend_S d fuel x :
  ascend d (S fuel) x =
    (parent ← rb_parent x;
     if truth parent then
       pn ← get_near d parent;
       if x =? pn then ascend d fuel parent else mret parent
     else mret parent).
Proof. by destruct d. Qed.

(** the first frame in which the place is not on side [d] *)
Fixpoint turn (d : bool) (k : list frame) : Z :=
  match k with
  | [] => 0
  | f :: k => if Bool.eqb (f_side f) d then turn d k else f_node f
  end.

Lemma turn_right k : turn false k = default 0 (head (after k)).
Proof. induction k as [|[[] c x sib] k IH]; cbn; [done|done|exact IH]. Qed.

Lemma turn_left k : turn true k = default 0 (last (before k)).
Proof.
  induction k as [|[[] c x sib] k IH]; cbn; [done|by rewrite app_nil_r|].
  by rewrite app_assoc, last_snoc.
Qed.

Lemma wp_ascend m0 s d fuel k t Q :
  holds m0 s (plug k t) → t ≠ E → (length k < fuel)%nat → Q (turn d k) s →
  wp (ascend d fuel (addr t)) Q s.
Proof.
  revert k t. induction fuel as [|fuel IH]; intros k t H Ht Hf HQ; [lia|].
  rewrite ascend_S. destruct t as [|c l x r]; [done|]. cbn [addr].
  change (T c l x r) with (node true c l x r) in H. apply rb_bind, (tr_parent H).
  destruct k as [|[d' c' p sib] k]; cbn [parent_of f_node turn f_side] in *; [exact HQ|].
  cbn [plug f_side f_color f_node f_sib] in H. rewrite ptr_truth by apply (node_ptr H). apply rb_bind.
  destruct (Bool.eqb d' d) eqn:Ed; rewrite ?eqb_true_iff, ?eqb_false_iff in Ed.
  - subst d'. apply (tr_near H). rewrite addr_node, Z.eqb_refl.
    rewrite <- (addr_node d c' (node true c l x r) p sib). eapply IH; [exact H|by destruct d|cbn in Hf; lia|done].
  - assert (d' = negb d) as -> by (by destruct d, d').
    pose proof (addr_ne _ _ _ _ _ _ _ _ H ltac:(by left)) as Hne.
    rewrite node_flip in H. apply (tr_near H). rewrite (proj2 (Z.eqb_neq _ _)) by exact Hne. exact HQ.
Qed.

Definition walk (d : bool) : Z → rbM Z := if d then rb_prev else rb_next.

Lemma walk_generic d x s :
  walk d x s =
    (parent ← rb_parent x;
     if parent =? x then mret 0 else
     c ← get_near d x;
     if truth c then descend (negb d) (S (size (nodes s))) c
     else ascend d (S (size (nodes s))) x) s.
Proof. by destruct d. Qed.

(** the first node of a tree from side [d] *)
Definition outmost (d : bool) (t : tree) : option Z := if d then head (inorder t) else last (inorder t).

Lemma descend_end d j c y sib :
  Forall (λ f, f_side f = d) j → outmost d (plug j (node d c E y sib)) = Some y.
Proof.
  intros Hj. unfold outmost. rewrite inorder_plug.
  destruct d; cbn.
  - assert (before j = []) as -> by (induction Hj as [|f j Hf ? IH]; cbn; [done|by rewrite IH, Hf]). done.
  - assert (after j = []) as -> by (induction Hj as [|f j Hf ? IH]; cbn; [done|by rewrite IH, Hf]).
    by rewrite app_nil_r, app_assoc, last_snoc.
Qed.

Lemma descend_ok m0 s d k t Q :
  holds m0 s (plug k t) → t ≠ E → (∀ y, outmost d t = Some y → Q y s) →
  wp (descend d (S (size (nodes s))) (addr t)) Q s.
Proof.
  intros H Ht HQ. destruct (descend_split d t Ht) as (j & c & y & sib & -> & Hj).
  rewrite <- plug_app in H. pose proof (holds_depth _ _ _ _ H) as Hd. rewrite length_app in Hd.
  eapply wp_descend; [exact H|done|lia|]. apply HQ. by apply descend_end.
Qed.

Lemma rb_walk_ok m0 s d k c t x sib Q :
  holds m0 s (plug k (node d c t x sib)) →
  Q (if decide (t = E) then turn d k else default 0 (outmost (negb d) t)) s →
  wp (walk d x) Q s.
Proof.
  intros H HQ. unfold wp. rewrite walk_generic. fold (wp (A := Z)).
  lazymatch goal with |- match ?m s with _ => _ end => change (wp m Q s) end.
  pose proof (holds_depth _ _ _ _ H) as Hd. pose proof H as (_ & _ & Hnd & Hp & _)%holds_focus.
  rewrite inorder_node in Hnd, Hp. cbn in Hnd, Hp. apply NoDup_cons in Hnd as [Hx _].
  apply rb_bind, (tr_parent H). rewrite (proj2 (Z.eqb_neq _ _)).
  2: { apply Forall_cons in Hp as [[Px _] _]. destruct k as [|f k]; cbn; [lia|]. cbn in Hx. set_solver. }
  apply rb_bind, (tr_near H). case_decide as He.
  - subst t. cbn. rewrite <- (addr_node d c E x sib). eapply wp_ascend; [exact H|by destruct d|lia|done].
  - rewrite ptr_truth.
    2: { destruct t; [done|]. cbn. rewrite Forall_forall in Hp. apply Hp. cbn. set_solver. }
    eapply (descend_ok m0 s (negb d) (Frame d c x sib :: k)); [exact H|done|].
    intros y Hy. by rewrite Hy in HQ.
Qed.

(** ** Replacing a node *)
Lemma rb_replace_node_ok m0 s k c l v r x Q :
  holds m0 s (plug k (T c l v r)) → m0 !! v = nodes s !! v →
  is_ptr x → is_Some (nodes s !! x) → x ∉ inorder (plug k (T c l v r)) →
  (∀ s', holds m0 s' (plug k (T c l x r)) → Q tt s') →
  wp (rb_replace_node v x) Q s.
Proof.
  intros H Hv0 Hx [nx Hm] Hout HQ. change (T c l v r) with (node true c l v r) in *.
  apply rb_bind, (tr_parent H). rewrite inorder_perm, inorder_node in Hout.
  apply holds_focus in H as (Hs & Hf & Hnd & Hp & Ho). apply shape_node in Hs as (Hv & Hl & Hr).
  rewrite addr_node in Hf. rewrite inorder_node in Hnd, Hp. setoid_rewrite inorder_node in Ho. cbn [app] in *.
  rewrite <- app_assoc in Hnd, Hp, Hout.
  assert ((x ∉ frame_nodes k) ∧ (x ∉ inorder l) ∧ (x ∉ inorder r) ∧ x ≠ v) as (Hxk & Hxl & Hxr & Hxv) by set_solver.
  pose proof Hnd as [_ Hnd0]%NoDup_cons. nodup_facts Hnd. rewrite !Forall_cons in Hp. destruct Hp as [Pv Hp].
  pose proof Hp as [Pl [Pr Pk]%Forall_app]%Forall_app.
  apply rb_bind, (wp_relink true); [exact Hf| |by constructor|].
  { constructor; [apart|tauto]. }
  intros s1 Hf1 G1. apply rb_bind. eapply (wp_near (d := true)); [rewrite G1 by apart; exact Hv|].
  apply rb_bind. eapply (wp_reparent v x); [|tauto|done|by right|by right|].
  { eapply shape_same; [|exact Hl]. intros a Ha. apply G1. apart. }
  intros s2 Hl2 R2 G2. apply rb_bind. eapply (wp_far (d := true)); [rewrite G2, G1 by apart; exact Hv|].
  apply rb_bind. eapply (wp_reparent v x); [|tauto|done|by right|by right|].
  { eapply shape_same; [|exact Hr]. intros a Ha. rewrite G2, G1 by apart. done. }
  intros s3 Hr3 R3 G3. apply rb_bind. eapply wp_load; [rewrite G3, G2, G1 by apart; exact Hv|].
  assert (wp (store x (cell true (pack (parent_of 0 k) c) (addr l) (addr r)))
    (λ _ s', s' = upd x (cell true (pack (parent_of 0 k) c) (addr l) (addr r)) s3) s3) as Hst.
  { unfold wp, store. rewrite G3, G2, G1, Hm by apart. done. }
  eapply rb_mono; [exact Hst|]. intros [] s4 ->. apply HQ, holds_focus.
  change (T c l x r) with (node true c l x r). rewrite addr_node, shape_node, inorder_node.
  setoid_rewrite inorder_node. cbn [app]. rewrite <- app_assoc. split_and!.
  - apply upd_this.
  - eapply shape_same; [|exact Hl2]. intros a Ha. rewrite upd_other, G3 by apart. done.
  - eapply shape_same; [|exact Hr3]. intros a Ha. apply upd_other. apart.
  - cbn. rewrite R3, R2. eapply fshape_same; [|exact Hf1]. intros a Ha.
    change (nodes (upd x (cell true (pack (parent_of 0 k) c) (addr l) (addr r)) s3) !! a = nodes s1 !! a).
    rewrite upd_other, G3, G2 by apart. done.
  - constructor; [rewrite !elem_of_app; tauto|done].
  - by constructor.
  - intros a Ha. rewrite upd_other, G3, G2, G1 by apart. destruct (decide (a = v)) as [->|]; [done|].
    apply Ho. apart.
Qed.

(** ** The depth *)
Lemma rb_size t n : rb t n → 2 ^ Z.of_nat n ≤ zlength (inorder t) + 1.
Proof.
  unfold zlength. induction 1 as [|l x r n _ IHl _ IHr _ _|l x r n _ IHl _ IHr]; cbn [inorder].
  - done.
  - rewrite length_app. cbn. lia.
  - rewrite length_app, Nat2Z.inj_succ, Z.pow_succ_r by lia. cbn. lia.
Qed.

Lemma frames_depth k n t :
  frames_ok k n → rb t n → (is_red t = false ∨ black_top k) →
  ∃ N, rb (plug k t) N ∧ (length k + 2 * n + (if is_red t then 1 else 0) ≤ 2 * N)%nat.
Proof.
  intros Hk. revert t. induction Hk as [n|d x sib k n Hs Hk IH|d x sib k n Hs Hb Hk IH Ht];
    intros t Hr Hor; cbn [plug f_side f_color f_node f_sib length].
  - destruct Hor as [->|[]]. exists n. split; [done|]. lia.
  - destruct (IH (node d Black t x sib)) as (N & HN & Hle).
    { by apply rb_black. } { left. apply is_red_node_eq. }
    exists N. rewrite is_red_node_eq in Hle. split; [done|]. destruct (is_red t); lia.
  - destruct Hor as [Hor|[]]. destruct (IH (node d Red t x sib)) as (N & HN & Hle).
    { by apply rb_red. } { by right. }
    exists N. rewrite is_red_node_eq in Hle. split; [done|]. rewrite Hor. lia.
Qed.

Lemma place_depth k t :
  rb_tree (plug k t) → Z.of_nat (length k) ≤ 2 * Z.log2 (zlength (inorder (plug k t)) + 1).
Proof.
  intros Hrb. destruct (plug_inv _ _ Hrb) as (n & Hk & Hn & Hor).
  destruct (frames_depth k n t Hk Hn Hor) as (N & HN & Hle). apply rb_size in HN.
  apply Z.log2_le_mono in HN. rewrite Z.log2_pow2 in HN by lia. lia.
Qed.

(** ** The nodes in order *)
Definition is_tree (s : rb_state) (nds : list Z) : Prop := balanced (nodes s) nds tt s.

Lemma balanced_is_tree m0 s nds : balanced m0 nds tt s → is_tree s nds.
Proof. intros (t & [] & ? & ?). exists t. split; [by split|done]. Qed.

Lemma is_tree_facts s nds :
  is_tree s nds → NoDup nds ∧ Forall is_ptr nds ∧ ∀ x, x ∈ nds → is_Some (nodes s !! x).
Proof. intros (t & [] & _ & <-). split_and!; [done..|]. by eapply shape_dom. Qed.

Lemma find_place t x : x ∈ inorder t → ∃ k c l r, t = plug k (T c l x r).
Proof.
  induction t as [|c l IHl y r IHr]; cbn; [set_solver|]. rewrite elem_of_app, elem_of_cons.
  intros [Hx|[->|Hx]].
  - destruct (IHl Hx) as (k & c' & l' & r' & ->). exists (k ++ [Frame true c y r]), c', l', r'.
    by rewrite plug_app.
  - by exists [], c, l, r.
  - destruct (IHr Hx) as (k & c' & l' & r' & ->). exists (k ++ [Frame false c y l]), c', l', r'.
    by rewrite plug_app.
Qed.

Lemma nodup_split {A} (a a' b b' : list A) x :
  NoDup (a ++ x :: b) → a ++ x :: b = a' ++ x :: b' → a = a' ∧ b = b'.
Proof.
  revert a'. induction a as [|y a IH]; intros [|y' a'] Hnd Heq; cbn in *; simplify_eq; [done|..].
  - apply NoDup_cons in Hnd as [Hn _]. set_solver.
  - apply NoDup_cons in Hnd as [Hn _]. set_solver.
  - apply NoDup_cons in Hnd as [_ Hnd]. destruct (IH a' Hnd) as [-> ->]; [done|]. done.
Qed.

(** a node of the tree, with what comes before and after it *)
Lemma tree_place s a x b :
  is_tree s (a ++ x :: b) →
  ∃ k c l r, holds (nodes s) s (plug k (T c l x r)) ∧ rb_tree (plug k (T c l x r)) ∧
    a = before k ++ inorder l ∧ b = inorder r ++ after k.
Proof.
  intros (t & H & Hrb & Hi). destruct (find_place t x) as (k & c & l & r & ->); [rewrite Hi; set_solver +|].
  exists k, c, l, r. split_and!; [done..| |];
    pose proof (h_nodup _ _ _ H) as Hnd; rewrite Hi in Hnd; rewrite inorder_plug in Hi; cbn in Hi;
    simplify_list_eq; rewrite app_assoc in Hi; destruct (nodup_split _ _ _ _ _ Hnd (eq_sym Hi)); done.
Qed.

(** what the functions promise about the order *)
Lemma rb_next_list s a x b : is_tree s (a ++ x :: b) → rb_next x s = Ret (default 0 (head b), s).
Proof.
  intros (k & c & l & r & H & _ & -> & ->)%tree_place.
  assert (wp (walk false x) (λ y s', y = default 0 (head (inorder r ++ after k)) ∧ s' = s) s) as Hw.
  { eapply (rb_walk_ok _ _ false k c r x l); [exact H|]. split; [|done]. case_decide as He.
    - subst r. by rewrite turn_right.
    - unfold outmost, negb. destruct r as [|c' l' y r']; [done|]. cbn. by destruct (inorder l'). }
  apply wp_run in Hw as (y & s' & E & -> & ->). exact E.
Qed.

Lemma rb_prev_list s a x b : is_tree s (a ++ x :: b) → rb_prev x s = Ret (default 0 (last a), s).
Proof.
  intros (k & c & l & r & H & _ & -> & ->)%tree_place.
  assert (wp (walk true x) (λ y s', y = default 0 (last (before k ++ inorder l)) ∧ s' = s) s) as Hw.
  { eapply (rb_walk_ok _ _ true k c l x r); [exact H|]. split; [|done]. case_decide as He.
    - subst l. by rewrite turn_left, app_nil_r.
    - unfold outmost, negb. destruct l as [|c' l' y r']; [done|]. rewrite last_app.
      cbn. by destruct (last (inorder l' ++ y :: inorder r')) eqn:El; [|apply last_None in El; destruct (inorder l')]. }
  apply wp_run in Hw as (y & s' & E & -> & ->). exact E.
Qed.

Lemma rb_first_list s nds : is_tree s nds → rb_first s = Ret (default 0 (head nds), s).
Proof.
  intros (t & H & _ & <-).
  assert (wp rb_first (λ y s', y = default 0 (head (inorder t)) ∧ s' = s) s) as Hw.
  { unfold rb_first. wp_self. apply rb_bind, (tr_root _ _ H). destruct t as [|c l x r]; [done|]. cbn [addr].
    rewrite ptr_truth by (by eapply (node_ptr (d := true) (k := []))).
    eapply (descend_ok _ _ true [] (T c l x r)); [exact H|done|]. intros y Hy. cbn in Hy. cbn. by rewrite Hy. }
  apply wp_run in Hw as (y & s' & E & -> & ->). exact E.
Qed.

Lemma rb_last_list s nds : is_tree s nds → rb_last s = Ret (default 0 (last nds), s).
Proof.
  intros (t & H & _ & <-).
  assert (wp rb_last (λ y s', y = default 0 (last (inorder t)) ∧ s' = s) s) as Hw.
  { unfold rb_last. wp_self. apply rb_bind, (tr_root _ _ H). destruct t as [|c l x r]; [done|]. cbn [addr].
    rewrite ptr_truth by (by eapply (node_ptr (d := true) (k := []))).
    eapply (descend_ok _ _ false [] (T c l x r)); [exact H|done|]. intros y Hy. cbn in Hy. cbn. by rewrite Hy. }
  apply wp_run in Hw as (y & s' & E & -> & ->). exact E.
Qed.

Lemma rb_erase_list s a x b :
  is_tree s (a ++ x :: b) → ∃ s', rb_erase x s = Ret (tt, s') ∧ balanced (nodes s) (a ++ b) tt s'.
Proof.
  intros (k & c & l & r & H & Hrb & -> & ->)%tree_place.
  pose proof (rb_erase_ok _ _ _ _ _ _ _ H Hrb eq_refl) as ([] & s' & E & Hb)%wp_run.
  exists s'. split; [done|]. by rewrite <- app_assoc.
Qed.

Lemma rb_rename k c l v x r : rb_tree (plug k (T c l v r)) → rb_tree (plug k (T c l x r)).
Proof.
  intros (n & Hk & Hn & Hor)%plug_inv. eapply plug_rb; [done| |exact Hor]. inversion Hn; subst; by constructor.
Qed.

Lemma rb_replace_list s a v x b :
  is_tree s (a ++ v :: b) → is_ptr x → is_Some (nodes s !! x) → x ∉ a ++ v :: b →
  ∃ s', rb_replace_node v x s = Ret (tt, s') ∧ balanced (nodes s) (a ++ x :: b) tt s'.
Proof.
  intros (k & c & l & r & H & Hrb & -> & ->)%tree_place Hx Hm Hout.
  assert (wp (rb_replace_node v x) (balanced (nodes s) ((before k ++ inorder l) ++ x :: inorder r ++ after k)) s) as Hw.
  { eapply rb_replace_node_ok; [exact H|done..| |].
    - rewrite inorder_plug. cbn. by simplify_list_eq.
    - intros s' H'. exists (plug k (T c l x r)). split_and!; [done|by eapply rb_rename|].
      rewrite inorder_plug. cbn. by simplify_list_eq. }
  apply wp_run in Hw as ([] & s' & E & Hb). by exists s'.
Qed.

(** [parent] and [link] are the NULL pointer between [a] and [b] *)
Definition leaf (s : rb_state) (a b : list Z) (parent : Z) (l : rb_link) : Prop :=
  ∃ k, holds (nodes s) s (plug k E) ∧ rb_tree (plug k E) ∧ before k = a ∧ after k = b ∧
    parent = parent_of 0 k ∧ l = link_of k.

Lemma rb_insert_list s a b parent l x :
  leaf s a b parent l → is_ptr x → is_Some (nodes s !! x) → x ∉ a ++ b →
  ∃ s', (rb_link_node x parent l;; rb_insert_color x) s = Ret (tt, s') ∧
    balanced (nodes s) (a ++ x :: b) tt s'.
Proof.
  intros (k & H & Hrb & <- & <- & -> & ->) Hx Hm Hout.
  assert (x ∉ inorder (plug k E)) as Hout' by (by rewrite inorder_plug).
  pose proof (insert_ok _ _ _ _ H Hrb Hx Hm Hout') as ([] & s' & E & t' & ?)%wp_run.
  exists s'. split; [done|]. by exists t'.
Qed.

Lemma before_app j k : before (j ++ k) = before k ++ before j.
Proof. induction j as [|f j IH]; cbn; [by rewrite app_nil_r|]. by rewrite IH, app_assoc. Qed.

Lemma after_app j k : after (j ++ k) = after j ++ after k.
Proof. induction j as [|f j IH]; cbn; [done|]. by rewrite IH, app_assoc. Qed.

(** every gap has its leaf *)
Lemma gap_place t a b : inorder t = a ++ b → ∃ k, t = plug k E ∧ before k = a ∧ after k = b.
Proof.
  revert a b. induction t as [|c l IHl x r IHr]; intros a b Heq; cbn in Heq.
  - symmetry in Heq. apply app_eq_nil in Heq as [-> ->]. by exists [].
  - apply app_eq_inv in Heq as [(b1 & Ha & ->)|(a2 & -> & Hb)].
    + destruct (IHl a b1 Ha) as (k & -> & <- & <-). exists (k ++ [Frame true c x r]). rewrite plug_app.
      split_and!; [done|..]; rewrite ?before_app, ?after_app; cbn; by rewrite ?app_nil_r.
    + destruct a2 as [|x' a2]; cbn in Hb.
      * subst b. destruct (IHl (inorder l) []) as (k & Ek & Hbk & Hak); [by rewrite app_nil_r|].
        exists (k ++ [Frame true c x r]). rewrite plug_app, <- Ek, before_app, after_app, Hbk, Hak.
        split_and!; cbn; by rewrite ?app_nil_r.
      * injection Hb as <- Hb. destruct (IHr a2 b Hb) as (k & -> & <- & <-). exists (k ++ [Frame false c x l]). rewrite plug_app.
        split_and!; [done|..]; rewrite ?before_app, ?after_app; cbn; by simplify_list_eq.
Qed.

Lemma leaf_exists s a b : is_tree s (a ++ b) → ∃ parent l, leaf s a b parent l.
Proof.
  intros (t & H & Hrb & Hi). destruct (gap_place t a b Hi) as (k & -> & <- & <-).
  exists (parent_of 0 k), (link_of k). by exists k.
Qed.

Lemma leaf_depth s a b parent l :
  leaf s a b parent l → ∃ k, parent = parent_of 0 k ∧ l = link_of k ∧ before k = a ∧ after k = b ∧
    Z.of_nat (length k) ≤ 2 * Z.log2 (zlength (a ++ b) + 1).
Proof.
  intros (k & H & Hrb & <- & <- & -> & ->). exists k. split_and!; [done..|].
  pose proof (place_depth k E Hrb) as Hd. by rewrite inorder_plug in Hd.
Qed.

(** C6: a red-black tree in memory is the list of its nodes in order. Between any
    two neighbours there is a NULL pointer at which a new node can be linked, and
    [rb_insert_color] then puts it there; [rb_erase] removes exactly its node,
    [rb_replace_node] exchanges it; [rb_first], [rb_last], [rb_next] and [rb_prev]
    walk the list. Every call returns, the result is again a red-black tree with
    parent pointers, and no other memory changes. *)
Theorem rbtree_correct s nds :
  is_tree s nds →
  (∀ a b x, nds = a ++ b → is_ptr x → is_Some (nodes s !! x) → x ∉ nds →
     ∃ parent l s', leaf s a b parent l ∧
       (rb_link_node x parent l;; rb_insert_color x) s = Ret (tt, s') ∧
       balanced (nodes s) (a ++ x :: b) tt s') ∧
  (∀ a x b, nds = a ++ x :: b →
     rb_next x s = Ret (default 0 (head b), s) ∧ rb_prev x s = Ret (default 0 (last a), s) ∧
     (∃ s', rb_erase x s = Ret (tt, s') ∧ balanced (nodes s) (a ++ b) tt s') ∧
     ∀ y, is_ptr y → is_Some (nodes s !! y) → y ∉ nds →
       ∃ s', rb_replace_node x y s = Ret (tt, s') ∧ balanced (nodes s) (a ++ y :: b) tt s') ∧
  rb_first s = Ret (default 0 (head nds), s) ∧ rb_last s = Ret (default 0 (last nds), s).
Proof.
  intros Ht. split_and!; [| |by apply rb_first_list|by apply rb_last_list].
  - intros a b x -> Hx Hm Hout. destruct (leaf_exists s a b Ht) as (parent & l & Hl).
    destruct (rb_insert_list s a b parent l x Hl Hx Hm Hout) as (s' & ? & ?). by exists parent, l, s'.
  - intros a x b ->. split_and!; [by eapply rb_next_list|by eapply rb_prev_list|by apply rb_erase_list|].
    intros y Hy Hm Hout. by apply rb_replace_list.
Qed.

(** a black node with a red left child, and a node outside *)
Definition two_nodes : rb_state :=
  RbState (list_to_map [(8, RbNode (pack 0 Black) 0 4); (4, RbNode (pack 8 Red) 0 0); (12, RbNode 12 0 0)]) 8.

Lemma two_nodes_tree : is_tree two_nodes [4; 8].
Proof.
  exists (T Black (T Red E 4 E) 8 E). split_and!; [|split; [done|]; exists 1%nat; by repeat constructor|done].
  split; [done|done| | |done].
  - repeat constructor; set_solver.
  - apply Forall_forall. intros x Hx. cbn in Hx. apply elem_of_cons in Hx as [->|[->|[]%elem_of_nil]%elem_of_cons];
      (split; [lia|]); [by exists 1|by exists 2].
Qed.

Lemma rbtree_correct_witness :
  rb_next 4 two_nodes = Ret (8, two_nodes) ∧
  (∃ s', rb_erase 8 two_nodes = Ret (tt, s') ∧ balanced (nodes two_nodes) [4] tt s') ∧
  ∃ s', rb_replace_node 8 12 two_nodes = Ret (tt, s') ∧ balanced (nodes two_nodes) [4; 12] tt s'.
Proof.
  destruct (rbtree_correct two_nodes [4; 8] two_nodes_tree) as (_ & H & _).
  destruct (H [] 4 [8] eq_refl) as (H1 & _). destruct (H [4] 8 [] eq_refl) as (_ & _ & H2 & H3).
  split; [exact H1|]. split; [exact H2|]. apply H3.
  - split; [lia|by exists 3].
  - by eexists.
  - intros [|[|[]%elem_of_nil]%elem_of_cons]%elem_of_cons; lia.
Defined.

(** *** A run: the keys 1 to 7 in order, then the root is erased *)
Definition empty7 : rb_state :=
  RbState (list_to_map ((λ i, (4 * i, RbNode 0 0 0)) <$> seqZ 1 7)) 0.

Fixpoint append_all (l : list Z) : rbM unit :=
  match l with
  | [] => mret tt
  | x :: l =>
      p ← rb_last;
      rb_link_node x p (if truth p then LinkRight p else LinkRoot);;
      rb_insert_color x;; append_all l
  end.

Fixpoint in_order_from (n : nat) (x : Z) : rbM (list Z) :=
  match n with
  | O => mret []
  | S n => if truth x then y ← rb_next x; l ← in_order_from n y; mret (x :: l) else mret []
  end.

Example seven_nodes :
  (append_all ((λ i, 4 * i) <$> seqZ 1 7);;
   r ← get_root; rb_erase r;;
   r' ← get_root; f ← rb_first; l ← in_order_from 8 f; mret (r, r', l)) empty7
  ≫= (λ p, Ret (fst p)) = Ret (8, 12, [4; 12; 16; 20; 24; 28]).
Proof. vm_compute. reflexivity. Qed.
