(* ===== verification/Timerqueue.v ===== *)
(** * Timer queues (lib/timerqueue.c, include/linux/timerqueue.h)

    A red-black tree of timers in the order in which they expire, with a pointer to
    the first one; high resolution timers and the RTC core use it. A client of the
    trees: what is proved here rests on what RbtreeList.v says about them. The
    [rb_node] is the first member of a timer, so both have the same address. *)
From stdpp Require Import sorting.
From S2P Require Import Prelude Rbtree RbtreeInv RbtreeBal RbtreeList.

(** the tree, [head->next] and the expiry times of the timers in memory *)
Record timerqueue := Timerqueue { tq_head : rb_state; tq_next : Z; expires : gmap Z Z }.

Definition tqM (A : Type) : Type := timerqueue → cres (A * timerqueue).
#[global] Instance tqM_ret : MRet tqM := λ A a q, Ret (a, q).
#[global] Instance tqM_bind : MBind tqM := λ A B f m q,
  match m q with Ret (a, q) => f a q | Err e => Err e | UB => UB end.

(** a function of the tree *)
Definition on_tree {A} (m : rbM A) : tqM A := λ q,
  match m (tq_head q) with
  | Ret (a, s) => Ret (a, Timerqueue s (tq_next q) (expires q))
  | Err e => Err e
  | UB => UB
  end.
Definition get_next : tqM Z := λ q, Ret (tq_next q, q).
Definition set_next (x : Z) : tqM unit := λ q, Ret (tt, Timerqueue (tq_head q) x (expires q)).
Definition get_expires (x : Z) : tqM Z := λ q,
  match expires q !! x with Some e => Ret (e, q) | None => UB end.

Definition RB_EMPTY_NODE (x : Z) : rbM bool := p ← rb_parent x; mret (p =? x).
Definition RB_CLEAR_NODE (x : Z) : rbM unit := rb_set_parent x x.

Definition get_link (l : rb_link) : rbM Z :=
  match l with
  | LinkRoot => get_root
  | LinkLeft p => rb_left p
  | LinkRight p => rb_right p
  end.

Definition timerqueue_init (x : Z) : tqM unit := on_tree (rb_init_node x).
Definition timerqueue_init_head : tqM unit := on_tree (set_root 0);; set_next 0.
Definition timerqueue_getnext : tqM Z := get_next.

(** [while ( *p )]: [p] is a link; gives the last link and its parent *)
Fixpoint add_search (fuel : nat) (node : Z) (p : rb_link) (parent : Z) : tqM (Z * rb_link) :=
  match fuel with
  | O => λ q, UB
  | S fuel =>
      v ← on_tree (get_link p);
      if truth v then
        e ← get_expires node;
        e' ← get_expires v;
        if e <? e' then add_search fuel node (LinkLeft v) v
        else add_search fuel node (LinkRight v) v
      else mret (parent, p)
  end.

(** the result is the condition of [WARN_ON_ONCE] *)
Definition timerqueue_add (node : Z) : tqM bool := λ q,
  (empty ← on_tree (RB_EMPTY_NODE node);
   '(parent, p) ← add_search (S (size (nodes (tq_head q)))) node LinkRoot 0;
   on_tree (rb_link_node node parent p;; rb_insert_color node);;
   next ← get_next;
   first ← (if truth next then
              e ← get_expires node;
              e' ← get_expires next;
              mret (e <? e')
            else mret true);
   (if first : bool then set_next node else mret tt);;
   mret (negb empty)) q.

Definition timerqueue_del (node : Z) : tqM bool :=
  empty ← on_tree (RB_EMPTY_NODE node);
  next ← get_next;
  (if next =? node then rbn ← on_tree (rb_next node); set_next rbn else mret tt);;
  on_tree (rb_erase node);;
  on_tree (RB_CLEAR_NODE node);;
  mret (empty : bool).

Definition timerqueue_iterate_next (node : Z) : tqM Z :=
  if truth node then on_tree (rb_next node) else mret 0.

(** ** The order of a queue *)

(** behind the timers that expire before it or at the same time *)
Fixpoint enqueue {A} (ex : A → Z) (x : A) (l : list A) : list A :=
  match l with
  | [] => [x]
  | y :: l => if ex x <? ex y then x :: y :: l else y :: enqueue ex x l
  end.

Definition sorted {A} (ex : A → Z) (l : list A) : Prop := StronglySorted (λ x y, ex x ≤ ex y) l.

Lemma enqueue_split {A} (ex : A → Z) x a b :
  Forall (λ y, ex y ≤ ex x) a → Forall (λ y, ex x < ex y) b → enqueue ex x (a ++ b) = a ++ x :: b.
Proof.
  intros Ha Hb. induction Ha as [|y a Hy _ IH]; cbn.
  - destruct Hb as [|y b Hy _]; cbn; [done|]. by rewrite (proj2 (Z.ltb_lt _ _)).
  - rewrite (proj2 (Z.ltb_ge _ _)) by done. by rewrite IH.
Qed.

Lemma enqueue_elem {A} (ex : A → Z) x l y : y ∈ enqueue ex x l ↔ y = x ∨ y ∈ l.
Proof. induction l as [|z l IH]; cbn; [set_solver|]. destruct (ex x <? ex z); set_solver. Qed.

Lemma enqueue_sorted {A} (ex : A → Z) x l : sorted ex l → sorted ex (enqueue ex x l).
Proof.
  unfold sorted. induction 1 as [|y l Hl IH Hy]; cbn; [by repeat constructor|].
  destruct (Z.ltb_spec (ex x) (ex y)) as [Hlt|Hge].
  - constructor; [by constructor|]. constructor; [lia|]. eapply Forall_impl; [exact Hy|]. cbn. lia.
  - constructor; [done|]. apply Forall_forall. intros z [->|Hz]%enqueue_elem; [done|].
    rewrite Forall_forall in Hy. by apply Hy.
Qed.

Lemma sorted_mid {A} (ex : A → Z) a v b :
  sorted ex (a ++ v :: b) → Forall (λ y, ex y ≤ ex v) a ∧ Forall (λ y, ex v ≤ ex y) b.
Proof.
  unfold sorted. induction a as [|y a IH]; cbn; intros [Hs Hy]%StronglySorted_inv; [done|].
  destruct (IH Hs) as [??]. split; [|done]. constructor; [|done].
  apply Forall_app in Hy as [_ Hy]. by apply Forall_cons in Hy as [? _].
Qed.

(** ** The search for the place of a new timer *)
Definition ex_of (q : timerqueue) (x : Z) : Z := default 0 (expires q !! x).

Fixpoint height (t : tree) : nat :=
  match t with E => 0 | T _ l _ r => S (Nat.max (height l) (height r)) end.

Lemma height_place t : ∃ k, t = plug k E ∧ length k = height t.
Proof.
  induction t as [|c l (kl & El & Hl) x r (kr & Er & Hr)]; [by exists []|]. cbn.
  destruct (Nat.max_spec (height l) (height r)) as [[_ ->]|[_ ->]].
  - exists (kr ++ [Frame false c x l]). rewrite plug_app, length_app, <- Er. cbn. split; [done|lia].
  - exists (kl ++ [Frame true c x r]). rewrite plug_app, length_app, <- El. cbn. split; [done|lia].
Qed.

Lemma rb_height t : rb_tree t → Z.of_nat (height t) ≤ 2 * Z.log2 (zlength (inorder t) + 1).
Proof. destruct (height_place t) as (k & -> & <-). apply place_depth. Qed.

Lemma link_value m0 s k t : holds m0 s (plug k t) → get_link (link_of k) s = Ret (addr t, s).
Proof.
  intros H. assert (wp (get_link (link_of k)) (λ v s', v = addr t ∧ s' = s) s) as Hw.
  { destruct k as [|[d c p sib] k]; cbn [link_of get_link]; [by apply (tr_root _ _ H)|].
    cbn [plug f_side f_color f_node f_sib] in *.
    destruct d; [by apply (tr_left _ H)|by apply (tr_right _ H)]. }
  apply wp_run in Hw as (v & s' & E & -> & ->). exact E.
Qed.

(** [k] is above [t], all before it expires no later than [x] and all after it later *)
Lemma add_search_ok q x k t fuel e :
  holds (nodes (tq_head q)) (tq_head q) (plug k t) → rb_tree (plug k t) →
  (∀ y, y ∈ inorder (plug k t) → is_Some (expires q !! y)) → expires q !! x = Some e →
  sorted (ex_of q) (inorder (plug k t)) →
  Forall (λ y, ex_of q y ≤ ex_of q x) (before k) → Forall (λ y, ex_of q x < ex_of q y) (after k) →
  (height t < fuel)%nat →
  ∃ a b parent p, add_search fuel x (link_of k) (parent_of 0 k) q = Ret ((parent, p), q) ∧
    leaf (tq_head q) a b parent p ∧ a ++ b = inorder (plug k t) ∧
    Forall (λ y, ex_of q y ≤ ex_of q x) a ∧ Forall (λ y, ex_of q x < ex_of q y) b.
Proof.
  intros H Hrb Hex Hx Hs. revert k fuel H Hrb Hex Hs.
  induction t as [|c l IHl v r IHr]; intros k [|fuel] H Hrb Hex Hs Hb Ha Hf; cbn [height] in Hf; try lia;
    cbn [add_search]; unfold mbind, tqM_bind; unfold on_tree at 1; rewrite (link_value _ _ _ _ H); cbn [addr].
  { exists (before k), (after k), (parent_of 0 k), (link_of k). split_and!; [by destruct q| |by rewrite inorder_plug|done..].
    by exists k. }
  rewrite ptr_truth by (by eapply (node_ptr (d := true))).
  assert (∀ q', q' = Timerqueue (tq_head q) (tq_next q) (expires q) → q' = q) as Hq by (by destruct q; intros ? ->).
  rewrite (Hq _ eq_refl). unfold get_expires at 1. rewrite Hx.
  destruct (Hex v) as [ev Hv]; [rewrite inorder_plug; set_solver +|]. unfold get_expires. rewrite Hv.
  assert (ex_of q x = e ∧ ex_of q v = ev) as [Ex Ev] by (unfold ex_of; by rewrite Hx, Hv).
  assert (sorted (ex_of q) ((before k ++ inorder l) ++ v :: inorder r ++ after k)) as
    [[_ Hl]%Forall_app [Hr _]%Forall_app]%sorted_mid.
  { rewrite inorder_plug in Hs. cbn in Hs. by simplify_list_eq. }
  destruct (Z.ltb_spec e ev) as [Hlt|Hge].
  - apply (IHl (Frame true c v r :: k) fuel); [done..|cbn; by rewrite app_nil_r| |lia].
    cbn. constructor; [lia|]. apply Forall_app. split; [|done]. eapply Forall_impl; [exact Hr|]. cbn. lia.
  - apply (IHr (Frame false c v l :: k) fuel); [done..| |done|lia].
    cbn. rewrite !Forall_app. split_and!; [done| |by repeat constructor; lia].
    eapply Forall_impl; [exact Hl|]. cbn. lia.
Qed.

(** ** The invariant *)

(** the timers [U] are in memory, those in [l] are queued in this order *)
Record tq_inv (U : gset Z) (q : timerqueue) (l : list Z) : Prop := {
  tq_tree : is_tree (tq_head q) l;
  tq_sorted : sorted (ex_of q) l;
  tq_first : tq_next q = default 0 (head l);
  tq_known : ∀ x, x ∈ l → x ∈ U;
  tq_timer : ∀ x, x ∈ U → is_ptr x ∧ is_Some (expires q !! x) ∧ is_Some (nodes (tq_head q) !! x);
  tq_idle : ∀ x n, x ∈ U → x ∉ l → nodes (tq_head q) !! x = Some n →
    Z.land (rb_parent_color n) 0xfffffffc = x
}.

Lemma tq_bind {A B} (m : tqM A) (f : A → tqM B) q a q' :
  m q = Ret (a, q') → (m ≫= f) q = f a q'.
Proof. unfold mbind, tqM_bind. by intros ->. Qed.

Lemma on_tree_run {A} (m : rbM A) q a s :
  m (tq_head q) = Ret (a, s) → on_tree m q = Ret (a, Timerqueue s (tq_next q) (expires q)).
Proof. unfold on_tree. by intros ->. Qed.

Lemma on_tree_read {A} (m : rbM A) q a : m (tq_head q) = Ret (a, tq_head q) → on_tree m q = Ret (a, q).
Proof. intros H%on_tree_run. rewrite H. by destruct q. Qed.

Lemma empty_node U q l x :
  tq_inv U q l → x ∈ U → RB_EMPTY_NODE x (tq_head q) = Ret (bool_decide (x ∉ l), tq_head q).
Proof.
  intros I Hx. assert (wp (RB_EMPTY_NODE x) (λ b s', b = bool_decide (x ∉ l) ∧ s' = tq_head q) (tq_head q)) as Hw.
  { apply rb_bind. destruct (decide (x ∈ l)) as [Hin|Hout].
    - apply list_elem_of_split in Hin as (a & b & ->). pose proof (tq_tree _ _ _ I) as Ht.
      apply tree_place in Ht as (k & c & t & r & H & _). change (T c t x r) with (node true c t x r) in H.
      apply (tr_parent H), rb_ret. split; [|done]. rewrite bool_decide_false by set_solver.
      apply Z.eqb_neq. apply holds_focus in H as (_ & _ & Hnd & Hp & _).
      rewrite inorder_node in Hnd, Hp. cbn in Hnd, Hp. apply NoDup_cons in Hnd as [Hn _].
      apply Forall_cons in Hp as [[Px _] _]. destruct k as [|f k]; cbn; [lia|]. cbn in Hn. set_solver.
    - destruct (tq_timer _ _ _ I x Hx) as (_ & _ & [n Hn]). unfold wp, rb_parent, mbind, rbM_bind, load.
      rewrite Hn. cbn. rewrite bool_decide_true by done. split; [|done]. apply Z.eqb_eq.
      by apply (tq_idle _ _ _ I). }
  apply wp_run in Hw as (b & s' & E & -> & ->). exact E.
Qed.

Lemma ptr_self x w : is_ptr x → Z.land (Z.lor (Z.land w 3) x) 0xfffffffc = x.
Proof.
  intros Hx. apply Z.bits_inj'. intros i Hi.
  rewrite Z.land_spec, Z.lor_spec, Z.land_spec, bit3, mask_parent by done.
  destruct (Z.leb_spec 2 i), (Z.ltb_spec i 32), (Z.ltb_spec i 2); try lia; cbn;
    rewrite ?andb_false_r, ?andb_true_r, ?orb_false_l; try done;
    symmetry; apply ptr_bits; (by right) || lia.
Qed.

Lemma clear_node s x n :
  nodes s !! x = Some n → ∃ w,
    RB_CLEAR_NODE x s = Ret (tt, upd x (RbNode w (rb_right_ n) (rb_left_ n)) s) ∧
    (is_ptr x → Z.land w 0xfffffffc = x).
Proof.
  intros Hn. eexists. split; [|apply ptr_self].
  unfold RB_CLEAR_NODE, rb_set_parent, set_parent_color, mbind, rbM_bind, load, store.
  rewrite Hn. cbn. rewrite Hn. cbn. by rewrite Hn.
Qed.

(** a node outside the tree may change *)
Lemma is_tree_upd s l x n : is_tree s l → x ∉ l → is_tree (upd x n s) l.
Proof.
  intros (t & [Hs Hr Hnd Hp _] & Hrb & <-) Hx. exists t. split_and!; [|done..]. split; [|done..].
  eapply shape_same; [|exact Hs]. intros a Ha. apply upd_other. by intros ->.
Qed.

(** the memory outside a tree, after a change of the tree *)
Lemma balanced_some m0 l s x : balanced m0 l tt s → is_Some (m0 !! x) → is_Some (nodes s !! x).
Proof.
  intros (t & [Hs _ _ _ Ho] & _ & <-) Hx. destruct (decide (x ∈ inorder t)) as [Hin|Hout].
  - by eapply shape_dom.
  - by rewrite Ho.
Qed.

Lemma balanced_out m0 l s x : balanced m0 l tt s → x ∉ l → nodes s !! x = m0 !! x.
Proof. intros (t & [_ _ _ _ Ho] & _ & <-) Hx. by apply Ho. Qed.

Lemma height_length t : (height t ≤ length (inorder t))%nat.
Proof. induction t; cbn; [lia|]. rewrite length_app. cbn. lia. Qed.

Lemma search_start U q l x fuel :
  tq_inv U q l → x ∈ U →
  (length l < fuel)%nat ∨ 2 * Z.log2 (zlength l + 1) < Z.of_nat fuel →
  ∃ a b parent p, add_search fuel x LinkRoot 0 q = Ret ((parent, p), q) ∧
    leaf (tq_head q) a b parent p ∧ l = a ++ b ∧ enqueue (ex_of q) x l = a ++ x :: b.
Proof.
  intros I Hx Hf. destruct (tq_tree _ _ _ I) as (t & H & Hrb & Ht).
  destruct (tq_timer _ _ _ I x Hx) as (_ & [e He] & _).
  destruct (add_search_ok q x [] t fuel e) as (a & b & parent & p & E & Hl & Hab & Ha & Hb); try done.
  - intros y Hy. cbn in Hy. rewrite Ht in Hy. by apply (tq_timer _ _ _ I), (tq_known _ _ _ I).
  - cbn. rewrite Ht. apply I.
  - pose proof (rb_height t Hrb) as Hh. pose proof (height_length t) as Hl. rewrite Ht in Hh, Hl. lia.
  - exists a, b, parent, p. cbn in Hab. rewrite Ht in Hab. split_and!; [done..|]. rewrite <- Hab. by apply enqueue_split.
Qed.

Lemma is_tree_size s l : is_tree s l → (length l ≤ size (nodes s))%nat.
Proof. intros (t & H & _ & <-). by eapply holds_size. Qed.

Lemma ex_of_known U q l x : tq_inv U q l → x ∈ U → get_expires x q = Ret (ex_of q x, q).
Proof.
  intros I Hx. destruct (tq_timer _ _ _ I x Hx) as (_ & [e He] & _). unfold get_expires, ex_of. by rewrite He.
Qed.

(** a new order of the same timers; the memory of those left outside is as it was or cleared *)
Lemma tq_inv_change U q l q' l' :
  tq_inv U q l → expires q' = expires q → is_tree (tq_head q') l' → sorted (ex_of q) l' →
  tq_next q' = default 0 (head l') → (∀ x, x ∈ l' → x ∈ U) →
  (∀ x, is_Some (nodes (tq_head q) !! x) → is_Some (nodes (tq_head q') !! x)) →
  (∀ x n, x ∈ U → x ∉ l' → nodes (tq_head q') !! x = Some n →
     (nodes (tq_head q) !! x = Some n ∧ (x ∉ l)) ∨ Z.land (rb_parent_color n) 0xfffffffc = x) →
  tq_inv U q' l'.
Proof.
  intros I He Ht Hs Hn Hk Hd Hi. split; [done|unfold ex_of in *; by rewrite He|done|done| |].
  - intros x Hx. destruct (tq_timer _ _ _ I x Hx) as (?&?&?). rewrite He. auto.
  - intros x n Hx Hout Hm. destruct (Hi x n Hx Hout Hm) as [[? ?]|?]; [|done]. by apply (tq_idle _ _ _ I).
Qed.

(** [timerqueue_add] moves [head->next] when the new timer is the first to expire *)
Definition goes_first (q : timerqueue) (x : Z) (l : list Z) : bool :=
  match l with y :: _ => ex_of q x <? ex_of q y | [] => true end.

Lemma enqueue_head q x l :
  head (enqueue (ex_of q) x l) = if goes_first q x l then Some x else head l.
Proof. destruct l as [|y l]; [done|]. cbn. by destruct (_ <? _). Qed.

Lemma goes_first_ok U q l x s :
  tq_inv U q l → x ∈ U → let q1 := Timerqueue s (tq_next q) (expires q) in
  (next ← get_next;
   if truth next then e ← get_expires x; e' ← get_expires next; mret (e <? e') else mret true) q1 =
  Ret (goes_first q x l, q1).
Proof.
  intros I Hx q1.
  assert (∀ y, y ∈ U → get_expires y q1 = Ret (ex_of q y, q1)) as Hge.
  { intros y Hy. destruct (tq_timer _ _ _ I y Hy) as (_ & [e He] & _). unfold get_expires, ex_of. cbn. by rewrite He. }
  assert (get_next q1 = Ret (default 0 (head l), q1)) as En.
  { unfold get_next. cbn. by rewrite (tq_first _ _ _ I). }
  rewrite (tq_bind _ _ _ _ _ En). destruct l as [|y l]; [done|]. cbn [head default goes_first from_option id].
  assert (y ∈ U) as Hy by (apply (tq_known _ _ _ I); set_solver +).
  rewrite ptr_truth by (by apply (tq_timer _ _ _ I)).
  by rewrite (tq_bind _ _ _ _ _ (Hge x Hx)), (tq_bind _ _ _ _ _ (Hge y Hy)).
Qed.

Lemma timerqueue_add_ok U q l x :
  tq_inv U q l → x ∈ U → x ∉ l →
  ∃ q', timerqueue_add x q = Ret (false, q') ∧ expires q' = expires q ∧
    (∀ y, is_Some (nodes (tq_head q) !! y) → is_Some (nodes (tq_head q') !! y)) ∧
    tq_inv U q' (enqueue (ex_of q) x l).
Proof.
  intros I Hx Hout. destruct (tq_timer _ _ _ I x Hx) as (Px & _ & Hm).
  destruct (search_start U q l x (S (size (nodes (tq_head q))))) as (a & b & parent & p & E & Hleaf & Hab & Henq);
    [done|done|left; apply Nat.lt_succ_r, is_tree_size, I|].
  destruct (rb_insert_list (tq_head q) a b parent p x) as (s' & Es & Hb); [done|done|done|by rewrite <- Hab|].
  exists (Timerqueue s' (if goes_first q x l then x else tq_next q) (expires q)).
  assert (∀ y, is_Some (nodes (tq_head q) !! y) → is_Some (nodes s' !! y)) as Hmem by (intros y; by apply (balanced_some _ _ _ _ Hb)).
  split_and!; [|done|done|].
  - unfold timerqueue_add.
    rewrite (tq_bind _ _ _ _ _ (on_tree_read _ _ _ (empty_node U q l x I Hx))), bool_decide_true by done.
    rewrite (tq_bind _ _ _ _ _ E), (tq_bind _ _ _ _ _ (on_tree_run _ _ _ _ Es)).
    pose proof (goes_first_ok U q l x s' I Hx) as Eg. cbn zeta in Eg.
    unfold mbind at 1, tqM_bind at 1 in Eg. cbn [get_next tq_next] in Eg.
    unfold mbind at 1, tqM_bind at 1. cbn [get_next tq_next]. rewrite (tq_bind _ _ _ _ _ Eg).
    by destruct (goes_first q x l).
  - apply (tq_inv_change U q l); [done..| | | | | |]; cbn [tq_head tq_next].
    + rewrite Henq. by eapply balanced_is_tree.
    + apply enqueue_sorted, I.
    + rewrite enqueue_head, (tq_first _ _ _ I). by destruct (goes_first q x l).
    + intros y [->|Hy]%enqueue_elem; [done|]. by apply (tq_known _ _ _ I).
    + done.
    + intros y n Hy Hny Hn. left. rewrite enqueue_elem in Hny. split; [|tauto]. rewrite <- Hn. symmetry.
      apply (balanced_out _ _ _ _ Hb). rewrite <- Henq, enqueue_elem. tauto.
Qed.

Lemma sorted_delete {A} (ex : A → Z) a x b : sorted ex (a ++ x :: b) → sorted ex (a ++ b).
Proof.
  unfold sorted. induction a as [|y a IH]; cbn; intros [Hs Hy]%StronglySorted_inv; [done|].
  constructor; [by apply IH|]. rewrite Forall_app, Forall_cons in Hy. rewrite Forall_app. tauto.
Qed.

Lemma timerqueue_del_ok U q a x b :
  tq_inv U q (a ++ x :: b) →
  ∃ q', timerqueue_del x q = Ret (false, q') ∧ expires q' = expires q ∧ tq_inv U q' (a ++ b).
Proof.
  intros I. assert (x ∈ U) as Hx by (apply (tq_known _ _ _ I); set_solver +).
  pose proof (tq_tree _ _ _ I) as Ht. destruct (is_tree_facts _ _ Ht) as (Hnd & _ & _).
  assert (x ∉ a ++ b) as Hout.
  { rewrite <- Permutation_middle in Hnd. by apply NoDup_cons in Hnd as [? _]. }
  destruct (rb_erase_list _ _ _ _ Ht) as (s1 & E1 & Hb).
  destruct (tq_timer _ _ _ I x Hx) as (Px & _ & Hm).
  destruct (balanced_some _ _ _ x Hb Hm) as [n Hn]. destruct (clear_node s1 x n Hn) as (w & E2 & Hw).
  set (n' := RbNode w (rb_right_ n) (rb_left_ n)) in *.
  set (nx := default 0 (head (a ++ b))).
  exists (Timerqueue (upd x n' s1) nx (expires q)). split_and!; [|done|].
  - unfold timerqueue_del.
    rewrite (tq_bind _ _ _ _ _ (on_tree_read _ _ _ (empty_node U q _ x I Hx))), bool_decide_false by set_solver +.
    assert ((next ← get_next; if next =? x then rbn ← on_tree (rb_next x); set_next rbn else mret tt) q =
      Ret (tt, Timerqueue (tq_head q) nx (expires q))) as En.
    { unfold get_next, mbind, tqM_bind. rewrite (tq_first _ _ _ I). destruct a as [|y a]; cbn [app head default from_option id].
      - rewrite Z.eqb_refl, (on_tree_read _ _ _ (rb_next_list _ [] x b Ht)). done.
      - rewrite (proj2 (Z.eqb_neq y x)) by set_solver.
        unfold nx. destruct q as [h nxt ex]. pose proof (tq_first _ _ _ I) as Hf. cbn in Hf. by subst nxt. }
    unfold mbind at 1, tqM_bind at 1 in En. cbn [get_next] in En.
    unfold mbind at 1, tqM_bind at 1. cbn [get_next]. rewrite (tq_bind _ _ _ _ _ En).
    rewrite (tq_bind _ _ _ _ _ (on_tree_run _ (Timerqueue (tq_head q) nx (expires q)) _ _ E1)).
    by rewrite (tq_bind _ _ _ _ _ (on_tree_run _ (Timerqueue s1 nx (expires q)) _ _ E2)).
  - apply (tq_inv_change U q (a ++ x :: b)); [done..| | |done| | |]; cbn [tq_head].
    + apply is_tree_upd; [by eapply balanced_is_tree|done].
    + eapply sorted_delete, I.
    + intros y Hy. apply (tq_known _ _ _ I). set_solver.
    + intros y Hy. destruct (decide (y = x)) as [->|Hne]; [cbn; rewrite lookup_insert_eq; by eexists|].
      rewrite upd_other by done. by apply (balanced_some _ _ _ _ Hb).
    + intros y m Hy Hny Hmy. destruct (decide (y = x)) as [->|Hne].
      * right. cbn in Hmy. rewrite lookup_insert_eq in Hmy. injection Hmy as <-. by apply Hw.
      * left. rewrite upd_other in Hmy by done. split; [|set_solver]. by rewrite <- (balanced_out _ _ _ y Hb).
Qed.

(** ** Clients *)

(** [hrtimer_set_expires], or the assignment of the RTC core *)
Definition set_expires (x e : Z) : tqM unit := λ q,
  Ret (tt, Timerqueue (tq_head q) (tq_next q) (<[x := e]> (expires q))).

Inductive tq_call := TqAdd (x e : Z) | TqDel (x : Z).

Definition tq_step (c : tq_call) : tqM bool :=
  match c with
  | TqAdd x e => set_expires x e;; timerqueue_add x
  | TqDel x => timerqueue_del x
  end.

(** the calls in turn; whether one of them warned *)
Fixpoint tq_run (cs : list tq_call) : tqM bool :=
  match cs with
  | [] => mret false
  | c :: cs => w ← tq_step c; w' ← tq_run cs; mret (w || w')
  end.

(** a queue and its timers, set up in arbitrary memory *)
Fixpoint init_timers (xs : list Z) : tqM unit :=
  match xs with
  | [] => mret tt
  | x :: xs => timerqueue_init x;; init_timers xs
  end.
Definition tq_setup (xs : list Z) : tqM unit := init_timers xs;; timerqueue_init_head.

(** *** What a queue promises: pairs of a timer and its expiry time, in the order of
    expiry and, at the same time, of arrival. A client adds timers that are not
    queued and deletes timers that are. *)
Definition spec_step (U : gset Z) (l : list (Z * Z)) (c : tq_call) : option (list (Z * Z)) :=
  match c with
  | TqAdd x e => if bool_decide (x ∈ U ∧ (x ∉ l.*1)) then Some (enqueue snd (x, e) l) else None
  | TqDel x => if bool_decide (x ∈ l.*1) then Some (filter (λ p, p.1 ≠ x) l) else None
  end.

Fixpoint spec_run (U : gset Z) (l : list (Z * Z)) (cs : list tq_call) : option (list (Z * Z)) :=
  match cs with
  | [] => Some l
  | c :: cs => l' ← spec_step U l c; spec_run U l' cs
  end.

Record tq_abs (U : gset Z) (q : timerqueue) (l : list (Z * Z)) : Prop := {
  abs_inv : tq_inv U q l.*1;
  abs_expires : ∀ x e, (x, e) ∈ l → expires q !! x = Some e
}.

Lemma enqueue_fst (ex : Z → Z) x e l :
  ex x = e → (∀ y d, (y, d) ∈ l → ex y = d) → (enqueue snd (x, e) l).*1 = enqueue ex x l.*1.
Proof.
  intros Hx. induction l as [|[y d] l IH]; cbn; intros Hl; [done|].
  rewrite Hx, (Hl y d) by set_solver +. destruct (e <? d); [done|]. cbn. f_equal. apply IH. set_solver.
Qed.

Lemma abs_set_expires U q l x e :
  tq_abs U q l → x ∉ l.*1 → tq_abs U (Timerqueue (tq_head q) (tq_next q) (<[x := e]> (expires q))) l.
Proof.
  intros [[Ht Hs Hf Hk Hm Hi] He] Hx. split; [split; [done| |done|done| |done]|]; cbn.
  - clear -Hs Hx. unfold sorted in *. induction Hs as [|y l' Hs IH Hy]; [constructor|]. constructor; [set_solver|].
    rewrite Forall_forall in Hy |- *. intros z Hz. specialize (Hy z Hz). unfold ex_of in *. cbn.
    by rewrite !lookup_insert_ne by set_solver.
  - intros y Hy. destruct (Hm y Hy) as (?&?&?). split_and!; [done| |done].
    destruct (decide (y = x)) as [->|]; [rewrite lookup_insert_eq; by eexists|by rewrite lookup_insert_ne].
  - intros y d Hy. rewrite lookup_insert_ne; [by apply He|]. intros ->.
    by apply Hx, (list_elem_of_fmap_2 fst _ (y, d)).
Qed.

Lemma abs_add U q l x e :
  tq_abs U q l → x ∈ U → x ∉ l.*1 → expires q !! x = Some e →
  ∃ q', timerqueue_add x q = Ret (false, q') ∧ expires q' = expires q ∧
    (∀ y, is_Some (nodes (tq_head q) !! y) → is_Some (nodes (tq_head q') !! y)) ∧ tq_abs U q' (enqueue snd (x, e) l).
Proof.
  intros [I He] Hx Hout Hex. destruct (timerqueue_add_ok U q l.*1 x) as (q' & E & Ee & Hm & I'); [done..|].
  exists q'. split_and!; [done..|]. split.
  - rewrite (enqueue_fst (ex_of q)); [done| |]; [unfold ex_of; by rewrite Hex|].
    intros y d Hy. unfold ex_of. by rewrite (He y d Hy).
  - intros y d [[= -> ->]|Hy]%enqueue_elem; rewrite Ee; [done|by apply He].
Qed.

Lemma filter_out (l : list (Z * Z)) x : x ∉ l.*1 → filter (λ p, p.1 ≠ x) l = l.
Proof.
  intros Hx. apply filter_all, Forall_forall. intros [y d] Hy Hyx. cbn in Hyx. subst y.
  by apply Hx, (list_elem_of_fmap_2 fst _ (x, d)).
Qed.

Lemma abs_nodup U q l : tq_abs U q l → NoDup l.*1.
Proof. intros [I _]. by destruct (is_tree_facts _ _ (tq_tree _ _ _ I)) as (? & _). Qed.

Lemma abs_del U q l x :
  tq_abs U q l → x ∈ l.*1 →
  ∃ q', timerqueue_del x q = Ret (false, q') ∧ expires q' = expires q ∧ tq_abs U q' (filter (λ p, p.1 ≠ x) l).
Proof.
  intros HA Hx. pose proof (abs_nodup _ _ _ HA) as Hnd. destruct HA as [I He].
  apply list_elem_of_fmap in Hx as ([y e] & Hxy & (a & b & ->)%list_elem_of_split). cbn in Hxy. subst y.
  rewrite fmap_app, fmap_cons in I, Hnd. cbn in I, Hnd.
  destruct (timerqueue_del_ok U q a.*1 x b.*1 I) as (q' & E & Ee & I').
  rewrite <- Permutation_middle in Hnd. apply NoDup_cons in Hnd as [Hn _].
  exists q'. split_and!; [done..|]. rewrite filter_app, filter_cons_False by (cbn; tauto).
  rewrite !filter_out by set_solver. split; [by rewrite fmap_app|].
  intros y d Hy. rewrite Ee. apply He. set_solver.
Qed.

(** a step of the code follows the step of the specification, without a warning *)
Lemma tq_step_ok U q l c l' :
  tq_abs U q l → spec_step U l c = Some l' →
  ∃ q', tq_step c q = Ret (false, q') ∧ tq_abs U q' l'.
Proof.
  intros HA. destruct c as [x e|x]; cbn; case_bool_decide as Hg; intros [= <-].
  - destruct Hg as [Hx Hout]. pose proof (abs_set_expires U q l x e HA Hout) as HA'.
    destruct (abs_add U _ l x e HA') as (q' & E & _ & _ & ?); [done..|cbn; by rewrite lookup_insert_eq|by exists q'].
  - destruct (abs_del U q l x HA Hg) as (q' & E & _ & ?). by exists q'.
Qed.

Lemma tq_run_ok U cs q l l' :
  tq_abs U q l → spec_run U l cs = Some l' → ∃ q', tq_run cs q = Ret (false, q') ∧ tq_abs U q' l'.
Proof.
  revert q l. induction cs as [|c cs IH]; intros q l HA; cbn; [intros [= <-]; by exists q|].
  destruct (spec_step U l c) as [l1|] eqn:Hc; cbn; [|done]. intros Hr.
  destruct (tq_step_ok U q l c l1 HA Hc) as (q1 & E1 & HA1). destruct (IH q1 l1 HA1 Hr) as (q2 & E2 & HA2).
  exists q2. by rewrite (tq_bind _ _ _ _ _ E1), (tq_bind _ _ _ _ _ E2).
Qed.

(** *** Set-up *)
Lemma init_node s x n :
  nodes s !! x = Some n → ∃ n', rb_init_node x s = Ret (tt, upd x n' s) ∧
    (is_ptr x → Z.land (rb_parent_color n') 0xfffffffc = x).
Proof.
  intros Hn. exists (RbNode (Z.lor (Z.land 0 3) x) 0 0). split; [|apply (ptr_self x 0)].
  unfold rb_init_node, rb_set_parent, set_parent_color, set_left, set_right, mbind, rbM_bind, load, store, upd.
  repeat (rewrite Hn || rewrite lookup_insert_eq || rewrite insert_insert_eq || cbn). done.
Qed.

(** the state when the timers [D] have been initialised *)
Record set_up (U D : gset Z) (q : timerqueue) : Prop := {
  su_timer : ∀ x, x ∈ U → is_ptr x ∧ is_Some (expires q !! x) ∧ is_Some (nodes (tq_head q) !! x);
  su_idle : ∀ x n, x ∈ D → nodes (tq_head q) !! x = Some n → Z.land (rb_parent_color n) 0xfffffffc = x
}.

Lemma timerqueue_init_ok U D x q :
  set_up U D q → x ∈ U →
  ∃ q', timerqueue_init x q = Ret (tt, q') ∧ set_up U (D ∪ {[x]}) q' ∧
    rb_root (tq_head q') = rb_root (tq_head q) ∧ tq_next q' = tq_next q ∧ expires q' = expires q.
Proof.
  intros [Ht Hi] Hx. destruct (Ht x Hx) as (Px & _ & [n Hn]). destruct (init_node _ x n Hn) as (n' & E & Hn').
  exists (Timerqueue (upd x n' (tq_head q)) (tq_next q) (expires q)).
  split; [by apply on_tree_run|]. split; [|done]. split; cbn.
  - intros y Hy. destruct (Ht y Hy) as (?&?&?). split_and!; [done..|].
    destruct (decide (y = x)) as [->|]; [rewrite lookup_insert_eq; by eexists|by rewrite lookup_insert_ne].
  - intros y m Hy. destruct (decide (y = x)) as [->|].
    + rewrite lookup_insert_eq. intros [= <-]. by apply Hn'.
    + rewrite lookup_insert_ne by done. apply Hi. set_solver.
Qed.

(** a timer outside the queue is initialised and joins the known ones *)
Lemma abs_init U q l x :
  tq_abs U q l → x ∉ l.*1 → is_ptr x → is_Some (expires q !! x) → is_Some (nodes (tq_head q) !! x) →
  ∃ q', timerqueue_init x q = Ret (tt, q') ∧ expires q' = expires q ∧
    (∀ y, is_Some (nodes (tq_head q) !! y) → is_Some (nodes (tq_head q') !! y)) ∧ tq_abs (U ∪ {[x]}) q' l.
Proof.
  intros [[Ht Hs Hf Hk Hm Hi] He] Hx Px Hex [n Hn]. destruct (init_node _ x n Hn) as (n' & E & Hn').
  exists (Timerqueue (upd x n' (tq_head q)) (tq_next q) (expires q)).
  assert (∀ y, is_Some (nodes (tq_head q) !! y) → is_Some (nodes (upd x n' (tq_head q)) !! y)) as Hmem.
  { intros y Hy. cbn. destruct (decide (y = x)) as [->|]; [rewrite lookup_insert_eq; by eexists|by rewrite lookup_insert_ne]. }
  split; [by apply on_tree_run|]. split_and!; [done..|]. split; [|done]. split; cbn [tq_head tq_next expires].
  - by apply is_tree_upd.
  - done.
  - done.
  - set_solver.
  - intros y [Hy|Hy%elem_of_singleton]%elem_of_union; [destruct (Hm y Hy) as (?&?&?); auto|subst y].
    split_and!; [done..|]. apply Hmem. by eexists.
  - intros y m Hy Hout Hmy. cbn in Hmy. destruct (decide (y = x)) as [->|Hne].
    + rewrite lookup_insert_eq in Hmy. injection Hmy as <-. by apply Hn'.
    + rewrite lookup_insert_ne in Hmy by done. apply (Hi y m); [set_solver|done..].
Qed.

Lemma init_timers_ok U D xs q :
  set_up U D q → (∀ x, x ∈ xs → x ∈ U) →
  ∃ q', init_timers xs q = Ret (tt, q') ∧ set_up U (D ∪ list_to_set xs) q'.
Proof.
  revert D q. induction xs as [|x xs IH]; intros D q HS Hxs.
  { exists q. split; [done|]. cbn. by rewrite union_empty_r_L. }
  destruct (timerqueue_init_ok U D x q HS) as (q1 & E & HS1 & _); [apply Hxs; set_solver +|].
  destruct (IH (D ∪ {[x]}) q1 HS1) as (q' & E' & HS'); [set_solver|].
  exists q'. cbn [init_timers]. rewrite (tq_bind _ _ _ _ _ E).
  split; [done|]. cbn [list_to_set]. by rewrite union_assoc_L.
Qed.

(** an empty queue *)
Lemma set_up_empty U q :
  set_up U U q → rb_root (tq_head q) = 0 → tq_next q = 0 → tq_abs U q [].
Proof.
  intros [Ht Hi] Hr Hn. split; [|intros x e []%elem_of_nil]. split; cbn; [|constructor|done|set_solver|done|].
  - exists E. split_and!; [|split; [done|exists 0%nat; constructor]|done]. by split; try constructor.
  - intros x n Hx _. by apply Hi.
Qed.

Lemma tq_setup_ok U q :
  set_up U ∅ q → ∃ q', tq_setup (elements U) q = Ret (tt, q') ∧ tq_abs U q' [].
Proof.
  intros HS. destruct (init_timers_ok U ∅ (elements U) q HS) as (q1 & E1 & HS1); [set_solver|].
  rewrite union_empty_l_L, list_to_set_elements_L in HS1.
  eexists. split; [unfold tq_setup; by rewrite (tq_bind _ _ _ _ _ E1)|].
  apply set_up_empty; [|done|done]. by destruct HS1.
Qed.

Lemma sorted_filter {A} (ex : A → Z) (P : A → Prop) `{!∀ x, Decision (P x)} l :
  sorted ex l → sorted ex (filter P l).
Proof.
  unfold sorted. induction 1 as [|x l _ IH Hx]; [constructor|]. rewrite filter_cons. destruct (decide (P x)); [|done].
  constructor; [done|]. rewrite Forall_forall in Hx |- *. intros y [_ Hy]%list_elem_of_filter. by apply Hx.
Qed.

Lemma spec_run_sorted U cs l l' : sorted snd l → spec_run U l cs = Some l' → sorted snd l'.
Proof.
  revert l. induction cs as [|c cs IH]; intros l Hs; cbn; [by intros [= <-]|].
  destruct (spec_step U l c) as [l1|] eqn:Hc; cbn; [|done]. apply IH.
  destruct c as [x e|x]; cbn in Hc; case_bool_decide; simplify_eq; [by apply enqueue_sorted|].
  by apply sorted_filter.
Qed.

(** C12: timer queues. A queue is set up in arbitrary memory for the timers [U], and
    then timers are added, each with its expiry time and while not queued, and
    deleted while queued, in any order. Then no call fails or warns, and the queue is the
    list of the timers in the order of their expiry times, those of the same time in
    the order in which they were added: [timerqueue_getnext] is its first timer,
    [timerqueue_iterate_next] follows it, and [RB_EMPTY_NODE] tells which timers are
    queued. The search for the place of the next timer ends after at most
    2 log2 (n + 1) steps down the tree. *)
Theorem timerqueue_refines U q0 cs l :
  (∀ x, x ∈ U → is_ptr x ∧ is_Some (expires q0 !! x) ∧ is_Some (nodes (tq_head q0) !! x)) →
  spec_run U [] cs = Some l →
  ∃ q, (tq_setup (elements U);; tq_run cs) q0 = Ret (false, q) ∧
    sorted snd l ∧ (∀ x e, (x, e) ∈ l → expires q !! x = Some e) ∧
    timerqueue_getnext q = Ret (default 0 (head l.*1), q) ∧
    (∀ a x b, l.*1 = a ++ x :: b → timerqueue_iterate_next x q = Ret (default 0 (head b), q)) ∧
    (∀ x, x ∈ U → RB_EMPTY_NODE x (tq_head q) = Ret (bool_decide (x ∉ l.*1), tq_head q)) ∧
    ∀ x fuel, x ∈ U → 2 * Z.log2 (zlength l + 1) < Z.of_nat fuel →
      ∃ parent p, add_search fuel x LinkRoot 0 q = Ret ((parent, p), q).
Proof.
  intros HU Hr. destruct (tq_setup_ok U q0) as (q1 & E1 & A1); [split; [done|set_solver]|].
  destruct (tq_run_ok U cs q1 [] l A1 Hr) as (q & E & [I He]). exists q.
  split_and!; [by rewrite (tq_bind _ _ _ _ _ E1)|by eapply spec_run_sorted; [constructor|]|done| | | |].
  - unfold timerqueue_getnext, get_next. by rewrite (tq_first _ _ _ I).
  - intros a x b Hl. pose proof (tq_tree _ _ _ I) as Ht. rewrite Hl in Ht. unfold timerqueue_iterate_next.
    assert (x ∈ U) as Hx by (apply (tq_known _ _ _ I); rewrite Hl; set_solver +).
    rewrite ptr_truth by (by apply (tq_timer _ _ _ I)). eapply on_tree_read, rb_next_list, Ht.
  - intros x Hx. by apply (empty_node U).
  - intros x fuel Hx Hf. destruct (search_start U q l.*1 x fuel) as (a & b & parent & p & E' & _); [done..| |by exists parent, p].
    right. unfold zlength in *. by rewrite length_fmap.
Qed.

(** three timers, two of the same time, the first one deleted *)
Definition three_timers : timerqueue :=
  Timerqueue (RbState (list_to_map [(8, RbNode 1 2 3); (16, RbNode 0 0 0); (32, RbNode 0 0 16)]) 99) 7
    (list_to_map [(8, 0); (16, 0); (32, 0)]).

Lemma timerqueue_refines_witness :
  ∃ q, (tq_setup (elements ({[8; 16; 32]} : gset Z));;
        tq_run [TqAdd 16 50; TqAdd 8 40; TqAdd 32 50; TqDel 8]) three_timers = Ret (false, q) ∧
    timerqueue_getnext q = Ret (16, q) ∧ timerqueue_iterate_next 16 q = Ret (32, q).
Proof.
  destruct (timerqueue_refines {[8; 16; 32]} three_timers
    [TqAdd 16 50; TqAdd 8 40; TqAdd 32 50; TqDel 8] [(16, 50); (32, 50)]) as (q & E & _ & _ & Hn & Hi & _).
  - intros x Hx. assert (x = 8 ∨ x = 16 ∨ x = 32) as [->|[->| ->]] by set_solver;
      (split; [split; [lia|]|split; by eexists]); [by exists 2|by exists 4|by exists 8].
  - vm_compute. reflexivity.
  - exists q. split; [exact E|]. split; [exact Hn|]. apply (Hi [] 16 [32]). reflexivity.
Defined.
