(* ===== verification/RtcLib.v ===== *)
(** * Calendar dates (drivers/rtc/rtc-lib.c, include/linux/rtc.h, kernel/time.c)

    Seconds since 1970 as an [unsigned long] of 32 bits, dates as [struct rtc_time],
    and [ktime_t] as the 64-bit scalar that ARM configures. *)
From S2P Require Import Prelude.

Record rtc_time := RtcTime {
  tm_sec : Z; tm_min : Z; tm_hour : Z; tm_mday : Z; tm_mon : Z; tm_year : Z;
  tm_wday : Z; tm_yday : Z; tm_isdst : Z
}.

Definition rtc_days_in_month : list Z := [31; 28; 31; 30; 31; 30; 31; 31; 30; 31; 30; 31].
Definition rtc_ydays : list (list Z) :=
  [[0; 31; 59; 90; 120; 151; 181; 212; 243; 273; 304; 334; 365];
   [0; 31; 60; 91; 121; 152; 182; 213; 244; 274; 305; 335; 366]].

Definition is_leap_year (year : Z) : bool :=
  (negb (truth (year `mod` 4)) && truth (year `mod` 100)) || negb (truth (year `mod` 400)).

Definition LEAPS_THRU_END_OF (y : Z) : Z := u32 (y / 4 - y / 100 + y / 400).

Definition rtc_month_days (month year : Z) : cres Z :=
  d ← array_get rtc_days_in_month month;
  Ret (d + c_bool (is_leap_year year && (month =? 1))).

Definition rtc_year_days (day month year : Z) : cres Z :=
  t ← array_get rtc_ydays (c_bool (is_leap_year year));
  d ← array_get t month;
  Ret (s32 (u32 (d + day - 1))).

(** [for (month = 0; month < 11; month++)] *)
Fixpoint month_loop (n : nat) (month days year : Z) : cres (Z * Z) :=
  match n with
  | O => Ret (month, days)
  | S n =>
      d ← rtc_month_days month year;
      let newdays := days - d in
      if newdays <? 0 then Ret (month, days) else month_loop n (month + 1) newdays year
  end.

(** the year of a day, and the day of that year *)
Definition find_year (days : Z) : Z * Z :=
  let year := u32 (1970 + Z.quot days 365) in
  let days := s32 (u32 (days - u32 (u32 (u32 (year - 1970) * 365)
                                    + LEAPS_THRU_END_OF (u32 (year - 1))
                                    - LEAPS_THRU_END_OF (1970 - 1)))) in
  if days <? 0 then let year := u32 (year - 1) in (year, days + (365 + c_bool (is_leap_year year)))
  else (year, days).

Definition rtc_time_to_tm (time : Z) : cres rtc_time :=
  let days := s32 (time / 86400) in
  let time := u32 (time - u32 (u32 days * 86400)) in
  let wday := Z.rem (days + 4) 7 in
  let '(year, days) := find_year days in
  let yday := days + 1 in
  '(month, days) ← month_loop 11 0 days year;
  let hour := time / 3600 in
  let time := u32 (time - hour * 3600) in
  let min := time / 60 in
  Ret (RtcTime (s32 (u32 (time - min * 60))) min hour (days + 1) month (s32 (u32 (year - 1900))) wday yday 0).

Definition rtc_valid_tm (tm : rtc_time) : cres Z :=
  if (tm_year tm <? 70) || (12 <=? u32 (tm_mon tm)) || (tm_mday tm <? 1) then Ret (- EINVAL)
  else
    d ← rtc_month_days (u32 (tm_mon tm)) (u32 (tm_year tm + 1900));
    if (d <? tm_mday tm) || (24 <=? u32 (tm_hour tm)) || (60 <=? u32 (tm_min tm)) || (60 <=? u32 (tm_sec tm))
    then Ret (- EINVAL) else Ret 0.

Definition mktime (year0 mon0 day hour min sec : Z) : Z :=
  let mon := u32 (mon0 - 2) in
  let '(mon, year) := if s32 mon <=? 0 then (u32 (mon + 12), u32 (year0 - 1)) else (mon, year0) in
  u32 ((((u32 (year / 4 - year / 100 + year / 400 + u32 (367 * mon) / 12 + day)
         + year * 365 - 719499) * 24 + hour) * 60 + min) * 60 + sec).

Definition rtc_tm_to_time (tm : rtc_time) : Z :=
  mktime (u32 (tm_year tm + 1900)) (u32 (tm_mon tm + 1)) (u32 (tm_mday tm)) (u32 (tm_hour tm))
    (u32 (tm_min tm)) (u32 (tm_sec tm)).

(** ** [ktime_t] *)
Definition NSEC_PER_SEC : Z := 1000000000.
Definition ktime_set (secs nsecs : Z) : Z := s64 (secs * NSEC_PER_SEC + nsecs).
Definition ktime_add (a b : Z) : Z := s64 (a + b).

(** [tv_sec] and [tv_nsec]; [div_s64_rem] truncates towards zero *)
Definition ns_to_timespec (nsec : Z) : Z * Z :=
  if nsec =? 0 then (0, 0)
  else
    let rem := s32 (Z.rem nsec NSEC_PER_SEC) in
    let sec := s32 (Z.quot nsec NSEC_PER_SEC) in
    if rem <? 0 then (s32 (sec - 1), rem + NSEC_PER_SEC) else (sec, rem).

(** [time_t] is a 32-bit [long] *)
Definition rtc_tm_to_ktime (tm : rtc_time) : Z := ktime_set (s32 (rtc_tm_to_time tm)) 0.

Definition rtc_ktime_to_tm (kt : Z) : cres rtc_time :=
  let '(sec, nsec) := ns_to_timespec kt in
  let sec := if truth nsec then s32 (sec + 1) else sec in
  rtc_time_to_tm (u32 sec).

(** ** The Gregorian calendar *)
Definition leap (y : Z) : Z :=
  if bool_decide (y `mod` 400 = 0 ∨ (y `mod` 4 = 0 ∧ y `mod` 100 ≠ 0)) then 1 else 0.

(** the days of the years from 1970 to 1970 + n *)
Fixpoint year_start (n : nat) : Z :=
  match n with O => 0 | S n => year_start n + 365 + leap (1970 + Z.of_nat n) end.

Definition month_len (y : Z) (m : nat) : Z :=
  match m with
  | 1%nat => 28 + leap y
  | 3%nat | 5%nat | 8%nat | 10%nat => 30
  | _ => 31
  end.

Fixpoint month_start (y : Z) (m : nat) : Z :=
  match m with O => 0 | S m => month_start y m + month_len y m end.

(** seconds since the beginning of 1970 *)
Definition days_of (tm : rtc_time) : Z :=
  year_start (Z.to_nat (tm_year tm - 70)) + month_start (tm_year tm + 1900) (Z.to_nat (tm_mon tm)) + tm_mday tm - 1.
Definition secs_of (tm : rtc_time) : Z :=
  ((days_of tm * 24 + tm_hour tm) * 60 + tm_min tm) * 60 + tm_sec tm.

Record valid_date (tm : rtc_time) : Prop := {
  vd_year : 70 ≤ tm_year tm < 2 ^ 31 - 1900;
  vd_mon : 0 ≤ tm_mon tm < 12;
  vd_mday : 1 ≤ tm_mday tm ≤ month_len (tm_year tm + 1900) (Z.to_nat (tm_mon tm));
  vd_hour : 0 ≤ tm_hour tm < 24;
  vd_min : 0 ≤ tm_min tm < 60;
  vd_sec : 0 ≤ tm_sec tm < 60
}.

Definition is_int_tm (tm : rtc_time) : Prop :=
  is_s32 (tm_sec tm) ∧ is_s32 (tm_min tm) ∧ is_s32 (tm_hour tm) ∧ is_s32 (tm_mday tm) ∧
  is_s32 (tm_mon tm) ∧ is_s32 (tm_year tm) ∧ tm_year tm < 2 ^ 31 - 1900.

Definition leaps (y : Z) : Z := y / 4 - y / 100 + y / 400.

Lemma leap_01 y : 0 ≤ leap y ≤ 1.
Proof. unfold leap. case_bool_decide; lia. Qed.

Lemma leap_ok y : leap y = c_bool (is_leap_year y).
Proof.
  unfold leap, is_leap_year, truth.
  destruct (Z.eqb_spec (y `mod` 4) 0), (Z.eqb_spec (y `mod` 100) 0), (Z.eqb_spec (y `mod` 400) 0);
    cbn [negb andb orb c_bool]; case_bool_decide; tauto.
Qed.

Lemma div_step y k : 0 < k → y / k = (y - 1) / k + c_bool (y `mod` k =? 0).
Proof. intros Hk. destruct (Z.eqb_spec (y `mod` k) 0); cbn [c_bool]; Z.div_mod_to_equations; nia. Qed.

Lemma leaps_step y : leaps y = leaps (y - 1) + leap y.
Proof.
  unfold leaps. rewrite (div_step y 4), (div_step y 100), (div_step y 400) by lia.
  assert (y `mod` 400 = 0 → y `mod` 100 = 0) as H1.
  { intros H%Z.mod_divide; [|lia]. apply Z.mod_divide; [lia|]. transitivity 400; [by exists 4|done]. }
  assert (y `mod` 100 = 0 → y `mod` 4 = 0) as H2.
  { intros H%Z.mod_divide; [|lia]. apply Z.mod_divide; [lia|]. transitivity 100; [by exists 25|done]. }
  unfold leap. case_bool_decide;
    destruct (Z.eqb_spec (y `mod` 4) 0), (Z.eqb_spec (y `mod` 100) 0), (Z.eqb_spec (y `mod` 400) 0);
    cbn [c_bool]; try lia; tauto.
Qed.

Lemma year_start_closed n : year_start n = 365 * Z.of_nat n + leaps (1969 + Z.of_nat n) - 477.
Proof.
  induction n as [|n IH]; [reflexivity|]. cbn [year_start]. rewrite IH.
  pose proof (leaps_step (1970 + Z.of_nat n)) as Hl.
  replace (1970 + Z.of_nat n - 1) with (1969 + Z.of_nat n) in Hl by lia.
  replace (1969 + Z.of_nat (S n)) with (1970 + Z.of_nat n) by lia. lia.
Qed.

Lemma leaps_range n : (n ≤ 137)%nat → 0 ≤ leaps (1969 + Z.of_nat n) - 477 ≤ 34.
Proof. intros Hn. unfold leaps. Z.div_mod_to_equations. lia. Qed.

Lemma find_year_ok D n :
  (n ≤ 136)%nat → year_start n ≤ D < year_start (S n) →
  find_year D = (1970 + Z.of_nat n, D - year_start n).
Proof.
  intros Hn HD. rewrite !year_start_closed in HD. rewrite year_start_closed.
  pose proof (leaps_range n) as Hr. pose proof (leaps_range (S n)) as Hr'.
  pose proof (leaps_step (1970 + Z.of_nat n)) as Hs.
  replace (1970 + Z.of_nat n - 1) with (1969 + Z.of_nat n) in Hs by lia.
  replace (1969 + Z.of_nat (S n)) with (1970 + Z.of_nat n) in * by lia.
  assert (∃ g, Z.quot D 365 = g ∧ (g = Z.of_nat n ∨ g = Z.of_nat n + 1)) as (g & Hg & Hgn).
  { eexists. split; [reflexivity|]. rewrite Z.quot_div_nonneg by lia. Z.div_mod_to_equations. lia. }
  assert (∀ g, g = Z.of_nat n ∨ g = Z.of_nat n + 1 → LEAPS_THRU_END_OF (u32 (1970 + g - 1)) = leaps (1969 + g)) as HL.
  { intros g' Hg'. unfold LEAPS_THRU_END_OF. rewrite (u32_id (_ - _)) by (unfold_ranges; lia).
    replace (1970 + g' - 1) with (1969 + g') by lia. apply u32_id. unfold_ranges.
    destruct Hg' as [->| ->]; [lia|]. replace (1969 + (Z.of_nat n + 1)) with (1970 + Z.of_nat n) by lia. lia. }
  unfold find_year. rewrite Hg, (u32_id (1970 + g)) by (unfold_ranges; lia). rewrite HL by done.
  rewrite s32_u32, (u32_id (1970 + g - 1970)) by (unfold_ranges; lia).
  replace (LEAPS_THRU_END_OF (1970 - 1)) with 477 by reflexivity.
  destruct Hgn as [-> | ->]; [|replace (1969 + (Z.of_nat n + 1)) with (1970 + Z.of_nat n) by lia];
    rewrite (u32_id ((_ - _) * 365)), (u32_id (_ + _ - 477)), s32_id by (unfold_ranges; lia);
    match goal with |- context [?d <? 0] => destruct (Z.ltb_spec d 0) end; try lia; cbn zeta.
  - f_equal; lia.
  - rewrite u32_id by (unfold_ranges; lia). replace (1970 + (Z.of_nat n + 1) - 1) with (1970 + Z.of_nat n) by lia.
    rewrite <- leap_ok. f_equal; lia.
Qed.

Lemma month_days_ok m y :
  (m < 12)%nat → rtc_month_days (Z.of_nat m) y = Ret (month_len y m).
Proof.
  intros Hm. unfold rtc_month_days, month_len. rewrite leap_ok.
  do 12 (destruct m as [|m]; [cbn; by destruct (is_leap_year y)|]). lia.
Qed.

Lemma month_len_range m y : (m < 12)%nat → 28 ≤ month_len y m ≤ 31.
Proof.
  intros Hm. pose proof (leap_01 y). unfold month_len.
  do 12 (destruct m as [|m]; [cbn -[leap]; lia|]). lia.
Qed.

(** the days of [k] months from [m] on *)
Lemma month_loop_ok y k m r n :
  (m + k < 12)%nat → 0 ≤ r < month_len y (m + k) → (k ≤ n)%nat → (n = 11 - m)%nat →
  month_loop n (Z.of_nat m) (month_start y (m + k) - month_start y m + r) y = Ret (Z.of_nat (m + k), r).
Proof.
  revert m n. induction k as [|k IH]; intros m n Hm Hr Hk Hn.
  - rewrite Nat.add_0_r, Z.sub_diag in *. destruct n as [|n]; cbn [month_loop]; [done|].
    rewrite month_days_ok by lia. cbn [mbind cres_bind]. by rewrite (proj2 (Z.ltb_lt _ _)) by lia.
  - destruct n as [|n]; [lia|]. cbn [month_loop]. rewrite month_days_ok by lia. cbn [mbind cres_bind].
    assert (month_start y (S m) ≤ month_start y (m + S k)) as Hle.
    { clear -Hm. replace (m + S k)%nat with (k + S m)%nat in * by lia. revert Hm.
      induction k as [|k IH]; intros Hm; [done|]. cbn [Nat.add month_start].
      pose proof (month_len_range (k + S m) y). cbn [month_start] in IH. lia. }
    cbn [month_start] in Hle. rewrite (proj2 (Z.ltb_ge _ _)) by lia.
    replace (Z.of_nat m + 1) with (Z.of_nat (S m)) by lia.
    replace (m + S k)%nat with (S m + k)%nat in * by lia. rewrite <- (IH (S m) n) by (done || lia).
    f_equal. cbn [month_start]. lia.
Qed.

Lemma leaps_bound y : 0 ≤ y → 0 ≤ leaps y ≤ y.
Proof. intros Hy. unfold leaps. Z.div_mod_to_equations. lia. Qed.

(** the days before a month, counted as [mktime] does: March first, February last *)
Definition gauss_days (y : Z) (m : nat) : Z :=
  let '(mon, y) := if (m <? 2)%nat then (Z.of_nat m + 11, y - 1) else (Z.of_nat m - 1, y) in
  leaps y + 367 * mon / 12 + 365 * y - 719499.

Lemma gauss_days_ok y m :
  1970 ≤ y → (m < 12)%nat → gauss_days y m = year_start (Z.to_nat (y - 1970)) + month_start y m - 1.
Proof.
  intros Hy Hm. rewrite year_start_closed, Z2Nat.id by lia.
  replace (1969 + (y - 1970)) with (y - 1) by lia. pose proof (leaps_step y) as Hs. unfold gauss_days.
  do 12 (destruct m as [|m]; [cbn -[leap leaps Z.mul Z.add Z.sub]; unfold month_len; cbn -[leap leaps]; Z.div_mod_to_equations; lia|]). lia.
Qed.

Lemma mktime_ok y m day hour min sec :
  1970 ≤ y < 2 ^ 31 → (m < 12)%nat → 0 ≤ day < 2 ^ 8 →
  mktime y (Z.of_nat m + 1) day hour min sec =
  u32 ((((gauss_days y m + day) * 24 + hour) * 60 + min) * 60 + sec).
Proof.
  intros Hy Hm Hd. unfold mktime, gauss_days. fold (leaps y).
  pose proof (leaps_bound y). pose proof (leaps_bound (y - 1)).
  destruct (Nat.ltb_spec m 2).
  - replace (s32 (u32 (Z.of_nat m + 1 - 2)) <=? 0) with true
      by (rewrite s32_u32, s32_id by (unfold_ranges; lia); symmetry; apply Z.leb_le; lia).
    assert (u32 (u32 (Z.of_nat m + 1 - 2) + 12) = Z.of_nat m + 11) as ->.
    { unfold u32. rewrite Zplus_mod_idemp_l. rewrite Z.mod_small; lia. }
    rewrite (u32_id (y - 1)), (u32_id (367 * _)) by (unfold_ranges; lia).
    fold (leaps (y - 1)). rewrite (u32_id (leaps _ + _ + _)) by (unfold_ranges; Z.div_mod_to_equations; lia).
    f_equal. lia.
  - rewrite s32_u32, s32_id, (proj2 (Z.leb_gt _ _)), (u32_id (_ - 2)) by (unfold_ranges; lia).
    rewrite (u32_id (367 * _)) by (unfold_ranges; lia).
    fold (leaps y). rewrite (u32_id (leaps _ + _ + _)) by (unfold_ranges; Z.div_mod_to_equations; lia).
    replace (Z.of_nat m + 1 - 2) with (Z.of_nat m - 1) by lia. f_equal. lia.
Qed.

Lemma rtc_tm_to_time_ok tm : valid_date tm → rtc_tm_to_time tm = u32 (secs_of tm).
Proof.
  intros [Hy Hm Hd Hh Hmi Hs]. pose proof (month_len_range (Z.to_nat (tm_mon tm)) (tm_year tm + 1900)).
  unfold rtc_tm_to_time. rewrite !u32_id by (unfold_ranges; lia).
  rewrite <- (Z2Nat.id (tm_mon tm)) at 1 by lia. rewrite mktime_ok, gauss_days_ok by lia.
  unfold secs_of, days_of. replace (tm_year tm + 1900 - 1970) with (tm_year tm - 70) by lia. f_equal. lia.
Qed.

Lemma u32_below x n : is_s32 x → 0 ≤ n < 2 ^ 31 → (n <=? u32 x) = negb ((0 <=? x) && (x <? n)).
Proof. unfold_ranges. intros Hx Hn. unfold u32. bprop; Z.div_mod_to_equations; lia. Qed.

Lemma rtc_valid_tm_ok tm :
  is_int_tm tm →
  (rtc_valid_tm tm = Ret 0 ∧ valid_date tm) ∨ (rtc_valid_tm tm = Ret (- EINVAL) ∧ ¬ valid_date tm).
Proof.
  intros (Hs & Hmi & Hh & Hd & Hm & Hy & Hy'). unfold rtc_valid_tm. rewrite !u32_below by (done || lia).
  destruct (Z.ltb_spec (tm_year tm) 70); cbn [orb]; [right; split; [done|intros []; lia]|].
  destruct (Z.leb_spec 0 (tm_mon tm)), (Z.ltb_spec (tm_mon tm) 12); cbn [andb negb orb];
    try (right; split; [done|intros []; lia]).
  destruct (Z.ltb_spec (tm_mday tm) 1); [right; split; [done|intros []; lia]|].
  rewrite !(u32_id) by (unfold_ranges; lia).
  rewrite <- (Z2Nat.id (tm_mon tm)) at 1 2 by lia. rewrite month_days_ok by lia. cbn [mbind cres_bind].
  destruct (Z.ltb_spec (month_len (tm_year tm + 1900) (Z.to_nat (tm_mon tm))) (tm_mday tm)); cbn [orb];
    [right; split; [done|intros []; lia]|].
  destruct (Z.leb_spec 0 (tm_hour tm)), (Z.ltb_spec (tm_hour tm) 24),
    (Z.leb_spec 0 (tm_min tm)), (Z.ltb_spec (tm_min tm) 60),
    (Z.leb_spec 0 (tm_sec tm)), (Z.ltb_spec (tm_sec tm) 60); cbn [andb negb orb];
    first [right; split; [done|intros []; lia]|left; split; [done|split; lia]].
Qed.

(** *** From seconds to dates *)
Lemma year_start_mono n k : (n ≤ k)%nat → year_start n ≤ year_start k.
Proof. induction 1 as [|k _ IH]; [done|]. cbn [year_start]. pose proof (leap_01 (1970 + Z.of_nat k)). lia. Qed.

Lemma month_start_mono y m k : (m ≤ k ≤ 12)%nat → month_start y m ≤ month_start y k.
Proof.
  intros [Hm Hk]. induction Hm as [|k _ IH]; [done|]. cbn [month_start].
  pose proof (month_len_range k y). lia.
Qed.

Lemma month_start_12 y : month_start y 12 = 365 + leap y.
Proof. cbn. unfold month_len. cbn -[leap]. lia. Qed.

Lemma rtc_time_to_tm_ok tm :
  valid_date tm → secs_of tm < 2 ^ 32 →
  rtc_time_to_tm (secs_of tm) =
  Ret (RtcTime (tm_sec tm) (tm_min tm) (tm_hour tm) (tm_mday tm) (tm_mon tm) (tm_year tm)
    ((days_of tm + 4) `mod` 7) (month_start (tm_year tm + 1900) (Z.to_nat (tm_mon tm)) + tm_mday tm) 0).
Proof.
  intros [Hy Hm Hd Hh Hmi Hs] Hlt. set (n := Z.to_nat (tm_year tm - 70)). set (m := Z.to_nat (tm_mon tm)).
  set (y := tm_year tm + 1900). set (D := days_of tm). fold y m in Hd.
  assert (y = 1970 + Z.of_nat n) as Hyn by lia.
  pose proof (month_start_mono y 0 m) as Hm0. pose proof (month_start_mono y (S m) 12) as Hm12.
  rewrite month_start_12 in Hm12. cbn [month_start] in Hm0, Hm12.
  assert (D = year_start n + month_start y m + (tm_mday tm - 1)) as HD by (unfold D, days_of; fold n m y; lia).
  assert (0 ≤ year_start n) as Hy0 by apply (year_start_mono 0 n), Nat.le_0_l.
  unfold secs_of in *. fold D in Hlt |- *.
  assert (n ≤ 136)%nat as Hn.
  { destruct (Nat.le_gt_cases n 136) as [|Hgt]; [done|]. pose proof (year_start_mono 137 n Hgt) as H137.
    assert (year_start 137 = 50038) as E137 by reflexivity. lia. }
  assert (find_year D = (y, D - year_start n)) as Hfy.
  { rewrite Hyn. apply find_year_ok; [done|]. cbn [year_start]. rewrite <- Hyn. lia. }
  assert (month_loop 11 0 (D - year_start n) y = Ret (tm_mon tm, tm_mday tm - 1)) as Hml.
  { replace (D - year_start n) with (month_start y (0 + m) - month_start y 0 + (tm_mday tm - 1)) by (cbn; lia).
    rewrite (month_loop_ok y m 0 _ 11 : _ → _ → _ → _ → month_loop 11 0 _ y = _) by (cbn [Nat.add]; lia).
    unfold m. by rewrite Nat.add_0_l, Z2Nat.id by lia. }
  unfold rtc_time_to_tm.
  assert (((((D * 24 + tm_hour tm) * 60 + tm_min tm) * 60 + tm_sec tm) / 86400) = D) as ->
    by (symmetry; apply (Z.div_unique _ _ _ (tm_hour tm * 3600 + tm_min tm * 60 + tm_sec tm)); lia).
  rewrite s32_id by (unfold_ranges; lia). rewrite Hfy, Hml. cbn [mbind cres_bind].
  rewrite (u32_id D), (u32_id (D * 86400)), (u32_id (_ - D * 86400)) by (unfold_ranges; lia).
  assert ((((D * 24 + tm_hour tm) * 60 + tm_min tm) * 60 + tm_sec tm - D * 86400) / 3600 = tm_hour tm) as ->
    by (symmetry; apply (Z.div_unique _ _ _ (tm_min tm * 60 + tm_sec tm)); lia).
  rewrite (u32_id (_ - _ * 3600)) by (unfold_ranges; lia).
  assert ((((D * 24 + tm_hour tm) * 60 + tm_min tm) * 60 + tm_sec tm - D * 86400 - tm_hour tm * 3600) / 60 = tm_min tm) as ->
    by (symmetry; apply (Z.div_unique _ _ _ (tm_sec tm)); lia).
  rewrite !s32_u32, !s32_id, Z.rem_mod_nonneg by (unfold_ranges; lia).
  assert (y = tm_year tm + 1900) by done. do 2 f_equal; lia.
Qed.

(** every second belongs to a date *)
Lemma year_of D : 0 ≤ D → ∃ n, year_start n ≤ D < year_start (S n).
Proof.
  intros HD. assert (∃ k, D < year_start k) as [k Hk].
  { exists (S (Z.to_nat D)). rewrite year_start_closed. pose proof (leaps_range 0).
    assert (477 ≤ leaps (1969 + Z.of_nat (S (Z.to_nat D)))); [unfold leaps; Z.div_mod_to_equations; lia|lia]. }
  induction k as [|k IH]; [cbn in Hk; lia|].
  destruct (Z.lt_ge_cases D (year_start k)) as [Hlt|Hge]; [by apply IH|by exists k].
Qed.

Lemma month_of y d : 0 ≤ d < 365 + leap y → ∃ m, (m < 12)%nat ∧ month_start y m ≤ d < month_start y (S m).
Proof.
  rewrite <- month_start_12. generalize 12%nat. intros k [Hd Hk]. induction k as [|k IH]; [cbn in Hk; lia|].
  destruct (Z.lt_ge_cases d (month_start y k)) as [Hlt|Hge].
  - destruct (IH Hlt) as (m & ? & ?). exists m. split; [lia|done].
  - exists k. split; [lia|done].
Qed.

Lemma date_exists t : is_u32 t → ∃ tm, valid_date tm ∧ secs_of tm = t.
Proof.
  intros Ht. unfold_ranges. destruct (year_of (t / 86400)) as (n & Hn); [apply Z.div_pos; lia|].
  cbn [year_start] in Hn. destruct (month_of (1970 + Z.of_nat n) (t / 86400 - year_start n)) as (m & Hm & Hd); [lia|].
  cbn [month_start] in Hd. set (s := t `mod` 86400).
  assert (n ≤ 136)%nat as Hn136.
  { destruct (Nat.le_gt_cases n 136) as [|Hgt]; [done|]. pose proof (year_start_mono 137 n Hgt) as H137.
    assert (year_start 137 = 50038) as E137 by reflexivity. Z.div_mod_to_equations. lia. }
  exists (RtcTime (s `mod` 60) ((s / 60) `mod` 60) (s / 3600) (t / 86400 - year_start n - month_start (1970 + Z.of_nat n) m + 1)
    (Z.of_nat m) (70 + Z.of_nat n) 0 0 0).
  unfold secs_of, days_of. split; [split|]; cbn [tm_sec tm_min tm_hour tm_mday tm_mon tm_year];
    replace (70 + Z.of_nat n + 1900) with (1970 + Z.of_nat n) by lia;
    replace (70 + Z.of_nat n - 70) with (Z.of_nat n) by lia; rewrite ?Nat2Z.id; try lia.
  - subst s. Z.div_mod_to_equations. lia.
  - by apply Z.mod_pos_bound.
  - by apply Z.mod_pos_bound.
  - assert (s = t - 86400 * (t / 86400)) by (apply Z.mod_eq; lia). pose proof (Z.div_mod s 60). pose proof (Z.div_mod (s / 60) 60).
    assert (s / 60 / 60 = s / 3600) by (by rewrite Z.div_div by lia). lia.
Qed.

Lemma valid_date_int tm : valid_date tm → is_int_tm tm.
Proof.
  intros [Hy Hm Hd Hh Hmi Hs]. pose proof (month_len_range (Z.to_nat (tm_mon tm)) (tm_year tm + 1900)).
  unfold is_int_tm. unfold_ranges. lia.
Qed.

Lemma rtc_ydays_ok y m :
  (m < 12)%nat →
  (t ← array_get rtc_ydays (c_bool (is_leap_year y)); array_get t (Z.of_nat m)) = Ret (month_start y m).
Proof.
  intros Hm. do 12 (destruct m as [|m]; [cbn; unfold month_len; rewrite ?leap_ok; by destruct (is_leap_year y)|]). lia.
Qed.

Lemma rtc_year_days_ok tm :
  valid_date tm → rtc_year_days (tm_mday tm) (tm_mon tm) (tm_year tm + 1900) =
  Ret (month_start (tm_year tm + 1900) (Z.to_nat (tm_mon tm)) + tm_mday tm - 1).
Proof.
  intros [Hy Hm Hd Hh Hmi Hs]. set (y := tm_year tm + 1900) in *. set (m := Z.to_nat (tm_mon tm)) in *.
  pose proof (month_len_range m y). pose proof (month_start_mono y 0 m) as H0.
  pose proof (month_start_mono y m 12) as H1. rewrite month_start_12 in H1. cbn [month_start] in H0.
  pose proof (leap_01 y). pose proof (rtc_ydays_ok y m) as Ht. unfold rtc_year_days.
  replace (tm_mon tm) with (Z.of_nat m) by lia.
  destruct (array_get rtc_ydays _) as [t| |]; cbn [mbind cres_bind] in *; try (by discriminate Ht; lia).
  rewrite Ht by lia. cbn [mbind cres_bind]. rewrite s32_u32, s32_id by (unfold_ranges; lia). done.
Qed.

Lemma secs_of_nonneg tm : valid_date tm → 0 ≤ secs_of tm.
Proof.
  intros [Hy Hm Hd Hh Hmi Hs]. pose proof (year_start_mono 0 (Z.to_nat (tm_year tm - 70))) as H0. cbn in H0.
  pose proof (month_start_mono (tm_year tm + 1900) 0 (Z.to_nat (tm_mon tm))) as H1. cbn in H1.
  unfold secs_of, days_of. lia.
Qed.

Lemma time_date t : is_u32 t → ∃ tm, rtc_time_to_tm t = Ret tm ∧
  valid_date tm ∧ secs_of tm = t ∧ tm_wday tm = (t / 86400 + 4) `mod` 7 ∧
  tm_yday tm = month_start (tm_year tm + 1900) (Z.to_nat (tm_mon tm)) + tm_mday tm.
Proof.
  intros Ht. destruct (date_exists t Ht) as (tm & Hv & <-). destruct Ht as [H0 Hlt].
  eexists. split; [by apply rtc_time_to_tm_ok|]. split_and!; [by destruct Hv|done| |done].
  cbn [tm_wday]. do 2 f_equal. destruct Hv. unfold secs_of.
  apply (Z.div_unique _ _ _ (tm_hour tm * 3600 + tm_min tm * 60 + tm_sec tm)); lia.
Qed.

(** C20: the calendar of the real-time clocks. Every number of seconds of 32 bits is the
    time of exactly one valid date, which [rtc_time_to_tm] finds and from which
    [rtc_tm_to_time] gives the seconds back; [rtc_valid_tm] accepts exactly the dates of
    the Gregorian calendar, and on those before 2106-02-07 06:28:16 the two conversions are
    inverse to each other. [tm_wday] counts from Sunday, and [tm_yday] is one more than
    [rtc_year_days] gives for the same day. *)
Theorem rtc_calendar_correct :
  (∀ t, is_u32 t → ∃ tm, rtc_time_to_tm t = Ret tm ∧
     valid_date tm ∧ rtc_valid_tm tm = Ret 0 ∧ secs_of tm = t ∧ rtc_tm_to_time tm = t ∧
     tm_wday tm = (t / 86400 + 4) `mod` 7 ∧
     rtc_year_days (tm_mday tm) (tm_mon tm) (tm_year tm + 1900) = Ret (tm_yday tm - 1)) ∧
  (∀ tm, is_int_tm tm →
     (rtc_valid_tm tm = Ret 0 ∧ valid_date tm) ∨ (rtc_valid_tm tm = Ret (- EINVAL) ∧ ¬ valid_date tm)) ∧
  (∀ tm, valid_date tm → rtc_tm_to_time tm = u32 (secs_of tm)) ∧
  (∀ tm, valid_date tm → secs_of tm < 2 ^ 32 → ∃ tm', rtc_time_to_tm (rtc_tm_to_time tm) = Ret tm' ∧
     tm_sec tm' = tm_sec tm ∧ tm_min tm' = tm_min tm ∧ tm_hour tm' = tm_hour tm ∧
     tm_mday tm' = tm_mday tm ∧ tm_mon tm' = tm_mon tm ∧ tm_year tm' = tm_year tm).
Proof.
  split_and!.
  - intros t Ht. destruct (time_date t Ht) as (tm & E & Hv & Hs & Hw & Hyd). exists tm.
    split_and!; [done..| |done|by rewrite rtc_tm_to_time_ok, Hs, u32_id|done|].
    + by destruct (rtc_valid_tm_ok tm (valid_date_int tm Hv)) as [[? _]|[_ ?]].
    + rewrite rtc_year_days_ok by done. f_equal. lia.
  - apply rtc_valid_tm_ok.
  - apply rtc_tm_to_time_ok.
  - intros tm Hv Hlt. rewrite rtc_tm_to_time_ok, u32_id by (done || by split; [apply secs_of_nonneg|]).
    eexists. split; [by apply rtc_time_to_tm_ok|done].
Qed.

(** 2000-02-29 00:00:00 *)
Lemma rtc_calendar_witness :
  (∃ tm, rtc_time_to_tm 951782400 = Ret tm ∧ rtc_tm_to_time tm = 951782400) ∧
  rtc_tm_to_time (RtcTime 0 0 0 29 1 100 0 0 0) = 951782400.
Proof.
  destruct rtc_calendar_correct as (H & _ & Hv & _). split.
  - destruct (H 951782400) as (tm & E & _ & _ & _ & Ht & _); [by split|]. exists tm. split; [exact E|exact Ht].
  - rewrite Hv; [vm_compute; reflexivity|]. split; vm_compute; intuition discriminate.
Defined.

(** ** Dates as [ktime_t] *)
Lemma rtc_tm_to_ktime_ok tm :
  valid_date tm → secs_of tm < 2 ^ 31 → rtc_tm_to_ktime tm = secs_of tm * NSEC_PER_SEC.
Proof.
  intros Hv Hlt. pose proof (secs_of_nonneg tm Hv). unfold rtc_tm_to_ktime, ktime_set, NSEC_PER_SEC.
  rewrite rtc_tm_to_time_ok, u32_id, s32_id by (done || (unfold_ranges; lia)). rewrite s64_id; lia.
Qed.

(** the first full second that is not before [kt] *)
Definition sec_up (kt : Z) : Z := (kt + NSEC_PER_SEC - 1) / NSEC_PER_SEC.

Lemma rtc_ktime_to_tm_ok kt :
  0 ≤ kt ≤ (2 ^ 31 - 1) * NSEC_PER_SEC → ∃ tm,
    rtc_ktime_to_tm kt = Ret tm ∧ valid_date tm ∧ secs_of tm = sec_up kt.
Proof.
  intros Hkt. assert (0 ≤ sec_up kt ≤ 2 ^ 31 - 1) as Hs.
  { unfold sec_up, NSEC_PER_SEC in *. Z.div_mod_to_equations. lia. }
  destruct (time_date (sec_up kt)) as (tm & E & Hv & Hsec & _); [unfold_ranges; lia|].
  exists tm. split_and!; [|done..]. rewrite <- E. unfold rtc_ktime_to_tm, ns_to_timespec.
  destruct (Z.eqb_spec kt 0) as [->|Hne]; [done|].
  assert (∃ q r, kt = NSEC_PER_SEC * q + r ∧ 0 ≤ r < NSEC_PER_SEC ∧ Z.quot kt NSEC_PER_SEC = q ∧ Z.rem kt NSEC_PER_SEC = r)
    as (q & r & Hqr & Hr & -> & ->).
  { exists (kt / NSEC_PER_SEC), (kt `mod` NSEC_PER_SEC). unfold NSEC_PER_SEC in *.
    rewrite Z.quot_div_nonneg, Z.rem_mod_nonneg by lia. split_and!; [by apply Z.div_mod|apply Z.mod_pos_bound; lia..|done|done]. }
  assert (sec_up kt = if truth r then q + 1 else q) as Hup.
  { unfold sec_up, truth, NSEC_PER_SEC in *. destruct (Z.eqb_spec r 0); cbn [negb]; symmetry.
    - apply (Z.div_unique _ _ _ (1000000000 - 1)); lia.
    - apply (Z.div_unique _ _ _ (r - 1)); lia. }
  unfold NSEC_PER_SEC in *. rewrite (s32_id r), (s32_id q), (proj2 (Z.ltb_ge r 0)) by (unfold_ranges; lia).
  rewrite Hup in *. destruct (truth r); rewrite ?(s32_id (q + 1)), u32_id by (unfold_ranges; lia); done.
Qed.
