(* ===== verification/RtcCore.v ===== *)
(** * The RTC core (drivers/rtc/interface.c, include/linux/rtc.h)

    Timers of a real-time clock in a timer queue (Timerqueue.v) and the one alarm of
    the chip, which has to be set for the first of them. All functions run under
    [ops_lock], so a call is one step; [lck] is what [mutex_lock_interruptible] gives. The
    chip is known through the methods of its driver, [rtc_class_ops]. *)
From S2P Require Import Prelude RtcLib Rbtree RbtreeInv RbtreeBal RbtreeList Timerqueue.

Definition ETIME : Z := 62.
Definition RTC_IRQF : Z := 0x80.
Definition RTC_AF : Z := 0x20.
Definition RTC_UF : Z := 0x10.

(** a member that was not assigned is [None] *)
Record rtc_wkalrm := RtcWkalrm { al_enabled : Z; al_pending : option Z; al_time : rtc_time }.

(** methods on the device [H]; a NULL pointer is [None] *)
Record rtc_class_ops (H : Type) := RtcClassOps {
  ops_read_time : option (rtc_time → H → cres (Z * rtc_time * H));
  ops_set_time : option (rtc_time → H → cres (Z * H));
  ops_read_alarm : option (rtc_wkalrm → H → cres (Z * rtc_wkalrm * H));
  ops_set_alarm : option (rtc_wkalrm → H → cres (Z * H));
  ops_set_mmss : option (Z → H → cres (Z * H));
  ops_alarm_irq_enable : option (Z → H → cres (Z * H))
}.
Arguments RtcClassOps {H}.
Arguments ops_read_time {H}.
Arguments ops_set_time {H}.
Arguments ops_read_alarm {H}.
Arguments ops_set_alarm {H}.
Arguments ops_set_mmss {H}.
Arguments ops_alarm_irq_enable {H}.

(** the hooks of the core, or a function of another driver *)
Inductive rtc_func := AieUpdateIrq | UieUpdateIrq | OtherFunc.
Record rtc_timer := RtcTimer { task_func : option rtc_func; period : Z; enabled : Z }.

(** a timer is known by the address of its [node]; [calls] are the timers whose function
    was called, in order *)
Record rtc_device (H : Type) := RtcDevice {
  rtc_ops : option (rtc_class_ops H);
  rtc_queue : timerqueue;
  rtc_timers : gmap Z rtc_timer;
  aie_timer : Z;
  uie_rtctimer : Z;
  irqwork : bool;
  irq_data : Z;
  chip : H;
  calls : list Z;
  warned : bool
}.
Arguments RtcDevice {H}.
Arguments rtc_ops {H}.
Arguments rtc_queue {H}.
Arguments rtc_timers {H}.
Arguments aie_timer {H}.
Arguments uie_rtctimer {H}.
Arguments irqwork {H}.
Arguments irq_data {H}.
Arguments chip {H}.
Arguments calls {H}.
Arguments warned {H}.

Section Device.
Context {H : Type}.

Definition with_queue (q : timerqueue) (d : rtc_device H) : rtc_device H :=
  RtcDevice (rtc_ops d) q (rtc_timers d) (aie_timer d) (uie_rtctimer d) (irqwork d) (irq_data d) (chip d) (calls d) (warned d).
Definition with_timers (t : gmap Z rtc_timer) (d : rtc_device H) : rtc_device H :=
  RtcDevice (rtc_ops d) (rtc_queue d) t (aie_timer d) (uie_rtctimer d) (irqwork d) (irq_data d) (chip d) (calls d) (warned d).
Definition with_work (w : bool) (d : rtc_device H) : rtc_device H :=
  RtcDevice (rtc_ops d) (rtc_queue d) (rtc_timers d) (aie_timer d) (uie_rtctimer d) w (irq_data d) (chip d) (calls d) (warned d).
Definition with_data (v : Z) (d : rtc_device H) : rtc_device H :=
  RtcDevice (rtc_ops d) (rtc_queue d) (rtc_timers d) (aie_timer d) (uie_rtctimer d) (irqwork d) v (chip d) (calls d) (warned d).
Definition with_chip (h : H) (d : rtc_device H) : rtc_device H :=
  RtcDevice (rtc_ops d) (rtc_queue d) (rtc_timers d) (aie_timer d) (uie_rtctimer d) (irqwork d) (irq_data d) h (calls d) (warned d).
Definition with_calls (c : list Z) (d : rtc_device H) : rtc_device H :=
  RtcDevice (rtc_ops d) (rtc_queue d) (rtc_timers d) (aie_timer d) (uie_rtctimer d) (irqwork d) (irq_data d) (chip d) c (warned d).
Definition with_warned (w : bool) (d : rtc_device H) : rtc_device H :=
  RtcDevice (rtc_ops d) (rtc_queue d) (rtc_timers d) (aie_timer d) (uie_rtctimer d) (irqwork d) (irq_data d) (chip d) (calls d) w.

End Device.

Definition rtcM (H A : Type) : Type := rtc_device H → cres (A * rtc_device H).
#[global] Instance rtcM_ret H : MRet (rtcM H) := λ A a d, Ret (a, d).
#[global] Instance rtcM_bind H : MBind (rtcM H) := λ A B f m d,
  match m d with Ret (a, d) => f a d | Err e => Err e | UB => UB end.

Section Core.
Context {H : Type}.

(** ** Access *)
Definition lift {A} (m : cres A) : rtcM H A := λ d,
  match m with Ret a => Ret (a, d) | Err e => Err e | UB => UB end.
Definition on_queue {A} (m : tqM A) : rtcM H A := λ d,
  match m (rtc_queue d) with Ret (a, q) => Ret (a, with_queue q d) | Err e => Err e | UB => UB end.
Definition on_chip {A} (m : H → cres (A * H)) : rtcM H A := λ d,
  match m (chip d) with Ret (a, h) => Ret (a, with_chip h d) | Err e => Err e | UB => UB end.
Definition get_ops : rtcM H (option (rtc_class_ops H)) := λ d, Ret (rtc_ops d, d).
Definition get_timer (x : Z) : rtcM H rtc_timer := λ d,
  match rtc_timers d !! x with Some t => Ret (t, d) | None => UB end.
Definition set_timer (x : Z) (t : rtc_timer) : rtcM H unit := λ d,
  Ret (tt, with_timers (<[x := t]> (rtc_timers d)) d).
Definition set_enabled (x : Z) (v : Z) : rtcM H unit :=
  t ← get_timer x; set_timer x (RtcTimer (task_func t) (period t) v).
Definition set_period (x : Z) (v : Z) : rtcM H unit :=
  t ← get_timer x; set_timer x (RtcTimer (task_func t) v (enabled t)).
Definition schedule_work : rtcM H unit := λ d, Ret (tt, with_work true d).
Definition clear_work : rtcM H unit := λ d, Ret (tt, with_work false d).
Definition log_call (x : Z) : rtcM H unit := λ d, Ret (tt, with_calls (calls d ++ [x]) d).
Definition get_aie : rtcM H Z := λ d, Ret (aie_timer d, d).
Definition get_uie : rtcM H Z := λ d, Ret (uie_rtctimer d, d).
(** [WARN_ON_ONCE] of the timer queue *)
Definition add_warning (w : bool) : rtcM H unit := λ d, Ret (tt, with_warned (warned d || w) d).
Definition warn_on (m : tqM bool) : rtcM H unit := w ← on_queue m; add_warning w.

(** ** Reading and setting the time *)
Definition zero_tm : rtc_time := RtcTime 0 0 0 0 0 0 0 0 0.

(** [None]: [tm] was not written *)
Definition __rtc_read_time : rtcM H (Z * option rtc_time) :=
  ops ← get_ops;
  match ops with
  | None => mret (- ENODEV, None)
  | Some ops =>
      match ops_read_time ops with
      | None => mret (- EINVAL, None)
      | Some f => '(err, tm) ← on_chip (f zero_tm); mret (err, Some tm)
      end
  end.

(** a variable that was not written must not be read *)
Definition written {A} (o : option A) : rtcM H A :=
  match o with Some a => mret a | None => λ _, UB end.

Definition rtc_read_time (lck : Z) : rtcM H (Z * option rtc_time) :=
  if truth lck then mret (lck, None) else __rtc_read_time.

Definition rtc_set_time (lck : Z) (tm : rtc_time) : rtcM H Z :=
  err ← lift (rtc_valid_tm tm);
  if truth err then mret err
  else if truth lck then mret lck
  else
    ops ← get_ops;
    match ops with
    | None => mret (- ENODEV)
    | Some ops =>
        match ops_set_time ops, ops_set_mmss ops with
        | Some f, _ => on_chip (f tm)
        | None, Some f => on_chip (f (rtc_tm_to_time tm))
        | None, None => mret (- EINVAL)
        end
    end.

(** [old] is not initialised before [read_time] writes it *)
Definition rtc_set_mmss (lck secs : Z) : rtcM H Z :=
  if truth lck then mret lck
  else
    ops ← get_ops;
    match ops with
    | None => mret (- ENODEV)
    | Some ops =>
        match ops_set_mmss ops, ops_read_time ops, ops_set_time ops with
        | Some f, _, _ => on_chip (f secs)
        | None, Some rd, Some st =>
            '(err, old) ← on_chip (rd zero_tm);
            if truth err then mret err
            else
              new ← lift (rtc_time_to_tm secs);
              if negb (((tm_hour old =? 23) && (tm_min old =? 59)) || ((tm_hour new =? 23) && (tm_min new =? 59)))
              then on_chip (st new) else mret err
        | _, _, _ => mret (- EINVAL)
        end
    end.

(** ** The alarm of the chip *)
Definition __rtc_set_alarm (alarm : rtc_wkalrm) : rtcM H Z :=
  err ← lift (rtc_valid_tm (al_time alarm));
  if truth err then mret err
  else
    let scheduled := s32 (rtc_tm_to_time (al_time alarm)) in
    '(_, otm) ← __rtc_read_time;
    tm ← written otm;
    let now := s32 (rtc_tm_to_time tm) in
    if scheduled <=? now then mret (- ETIME)
    else
      ops ← get_ops;
      match ops with
      | None => mret (- ENODEV)
      | Some ops =>
          match ops_set_alarm ops with
          | None => mret (- EINVAL)
          | Some f => on_chip (f alarm)
          end
      end.

(** ** Timers *)
Definition alarm_for (e : Z) : rtcM H rtc_wkalrm :=
  tm ← lift (rtc_ktime_to_tm e); mret (RtcWkalrm 1 None tm).

Definition rtc_timer_enqueue (timer : Z) : rtcM H Z :=
  set_enabled timer 1;;
  warn_on (timerqueue_add timer);;
  next ← on_queue timerqueue_getnext;
  if timer =? next then
    e ← on_queue (get_expires timer);
    alarm ← alarm_for e;
    err ← __rtc_set_alarm alarm;
    if err =? - ETIME then schedule_work;; mret 0
    else if truth err then
      warn_on (timerqueue_del timer);;
      set_enabled timer 0;;
      mret err
    else mret 0
  else mret 0.

Definition rtc_timer_remove (timer : Z) : rtcM H unit :=
  next ← on_queue timerqueue_getnext;
  warn_on (timerqueue_del timer);;
  set_enabled timer 0;;
  if next =? timer then
    next ← on_queue timerqueue_getnext;
    if truth next then
      e ← on_queue (get_expires next);
      alarm ← alarm_for e;
      err ← __rtc_set_alarm alarm;
      if err =? - ETIME then schedule_work else mret tt
    else mret tt
  else mret tt.

Definition rtc_timer_init (timer : Z) (f : option rtc_func) : rtcM H unit :=
  on_queue (timerqueue_init timer);;
  t ← get_timer timer;
  set_timer timer (RtcTimer f (period t) 0).

Definition rtc_timer_start (timer expires period : Z) : rtcM H Z :=
  t ← get_timer timer;
  (if truth (enabled t) then rtc_timer_remove timer else mret tt);;
  on_queue (set_expires timer expires);;
  set_period timer period;;
  rtc_timer_enqueue timer.

Definition rtc_timer_cancel (timer : Z) : rtcM H Z :=
  t ← get_timer timer;
  (if truth (enabled t) then rtc_timer_remove timer else mret tt);;
  mret 0.

(** ** Interrupts *)
Definition rtc_handle_legacy_irq (num mode : Z) : rtcM H unit := λ d,
  Ret (tt, with_data (Z.lor (u32 (irq_data d + Z.shiftl num 8)) (Z.lor RTC_IRQF mode)) d).
Definition rtc_aie_update_irq : rtcM H unit := rtc_handle_legacy_irq 1 RTC_AF.
Definition rtc_uie_update_irq : rtcM H unit := rtc_handle_legacy_irq 1 RTC_UF.
Definition rtc_update_irq : rtcM H unit := schedule_work.

Definition call_func (timer : Z) (f : rtc_func) : rtcM H unit :=
  log_call timer;;
  match f with
  | AieUpdateIrq => rtc_aie_update_irq
  | UieUpdateIrq => rtc_uie_update_irq
  | OtherFunc => mret tt
  end.

(** [while ((next = timerqueue_getnext(&rtc->timerqueue)))]; the result is the last [next] *)
Fixpoint expire_loop (fuel : nat) (now : Z) : rtcM H Z :=
  match fuel with
  | O => λ _, UB
  | S fuel =>
      next ← on_queue timerqueue_getnext;
      if truth next then
        e ← on_queue (get_expires next);
        if now <? e then mret next
        else
          warn_on (timerqueue_del next);;
          set_enabled next 0;;
          t ← get_timer next;
          (match task_func t with Some f => call_func next f | None => mret tt end);;
          t ← get_timer next;
          (if truth (period t) then
             e ← on_queue (get_expires next);
             on_queue (set_expires next (ktime_add e (period t)));;
             set_enabled next 1;;
             warn_on (timerqueue_add next)
           else mret tt);;
          expire_loop fuel now
      else mret next
  end.

(** [again:] *)
Fixpoint work_loop (rounds fuel : nat) : rtcM H unit :=
  match rounds with
  | O => λ _, UB
  | S rounds =>
      '(_, otm) ← __rtc_read_time;
      tm ← written otm;
      let now := rtc_tm_to_ktime tm in
      next ← expire_loop fuel now;
      if truth next then
        e ← on_queue (get_expires next);
        alarm ← alarm_for e;
        err ← __rtc_set_alarm alarm;
        if err =? - ETIME then work_loop rounds fuel else mret tt
      else mret tt
  end.

(** the work queue clears the pending bit before it calls the function *)
Definition rtc_timer_do_work (rounds fuel : nat) : rtcM H unit :=
  clear_work;; work_loop rounds fuel.

(** ** The calls of the character device *)
Definition rtc_read_alarm (lck : Z) : rtcM H (Z * option rtc_wkalrm) :=
  if truth lck then mret (lck, None)
  else
    ops ← get_ops;
    match ops with
    | None => mret (- ENODEV, None)
    | Some ops =>
        match ops_read_alarm ops with
        | None => mret (- EINVAL, None)
        | Some _ =>
            aie ← get_aie;
            t ← get_timer aie;
            e ← on_queue (get_expires aie);
            tm ← lift (rtc_ktime_to_tm e);
            mret (0, Some (RtcWkalrm (u8 (enabled t)) (Some 0) tm))
        end
    end.

Definition rtc_read_alarm_internal (lck : Z) : rtcM H (Z * option rtc_wkalrm) :=
  if truth lck then mret (lck, None)
  else
    ops ← get_ops;
    match ops with
    | None => mret (- ENODEV, None)
    | Some ops =>
        match ops_read_alarm ops with
        | None => mret (- EINVAL, None)
        | Some f => '(err, a) ← on_chip (f (RtcWkalrm 0 (Some 0) zero_tm)); mret (err, Some a)
        end
    end.

(** the [do] loop of [__rtc_read_alarm]; [lcks] are what the attempts to lock give, of which
    [i] were made. The result is what the function returns, or the alarm that lacks members
    and the time. *)
Fixpoint read_alarm_loop (fuel : nat) (lcks : nat → Z) (i : nat) (before : rtc_time) :
    rtcM H (Z * option rtc_wkalrm + rtc_wkalrm * rtc_time) :=
  match fuel with
  | O => λ _, UB
  | S fuel =>
      '(err, oa) ← rtc_read_alarm_internal (lcks i);
      if truth err then mret (inl (err, oa))
      else
        alarm ← written oa;
        v ← lift (rtc_valid_tm (al_time alarm));
        if v =? 0 then mret (inl (0, Some alarm))
        else
          '(err, onow) ← rtc_read_time (lcks (S i));
          if err <? 0 then mret (inl (err, Some alarm))
          else
            now ← written onow;
            if negb (tm_min before =? tm_min now) || negb (tm_hour before =? tm_hour now)
               || negb (tm_mon before =? tm_mon now) || negb (tm_year before =? tm_year now)
            then read_alarm_loop fuel lcks (S (S i)) now
            else mret (inr (alarm, now))
  end.

Inductive missing := MissNone | MissDay | MissMonth | MissYear.

(** the members that are -1 are taken from the present time *)
Definition fill_alarm (t now : rtc_time) : missing * rtc_time :=
  let f v w := if v =? -1 then w else v in
  let miss := if tm_mday t =? -1 then MissDay else if tm_mon t =? -1 then MissMonth
              else if tm_year t =? -1 then MissYear else MissNone in
  (miss, RtcTime (f (tm_sec t) (tm_sec now)) (f (tm_min t) (tm_min now)) (f (tm_hour t) (tm_hour now))
           (f (tm_mday t) (tm_mday now)) (f (tm_mon t) (tm_mon now)) (f (tm_year t) (tm_year now))
           (tm_wday t) (tm_yday t) (tm_isdst t)).

Definition with_month (mon year : Z) (t : rtc_time) : rtc_time :=
  RtcTime (tm_sec t) (tm_min t) (tm_hour t) (tm_mday t) mon year (tm_wday t) (tm_yday t) (tm_isdst t).

(** the month is looked up with the year since 1900, as the source has it *)
Fixpoint roll_month (fuel : nat) (t : rtc_time) : cres rtc_time :=
  match fuel with
  | O => UB
  | S fuel =>
      let t := if tm_mon t <? 11 then with_month (tm_mon t + 1) (tm_year t) t
               else with_month 0 (s32 (tm_year t + 1)) t in
      days ← rtc_month_days (u32 (tm_mon t)) (u32 (tm_year t));
      if days <? u32 (tm_mday t) then roll_month fuel t else Ret t
  end.

Fixpoint roll_year (fuel : nat) (t : rtc_time) : cres rtc_time :=
  match fuel with
  | O => UB
  | S fuel =>
      let t := with_month (tm_mon t) (s32 (tm_year t + 1)) t in
      v ← rtc_valid_tm t;
      if negb (v =? 0) then roll_year fuel t else Ret t
  end.

Definition __rtc_read_alarm (fuel : nat) (lcks : nat → Z) : rtcM H (Z * option rtc_wkalrm) :=
  '(err, obefore) ← rtc_read_time (lcks 0%nat);
  if err <? 0 then mret (err, None)
  else
    before ← written obefore;
    r ← read_alarm_loop fuel lcks 1 before;
    match r with
    | inl res => mret res
    | inr (alarm, now) =>
        let '(miss, t) := fill_alarm (al_time alarm) now in
        let t_now := rtc_tm_to_time now in
        let t_alm := rtc_tm_to_time t in
        t ← (if t_now <? t_alm then mret t
             else match miss with
                  | MissDay => lift (rtc_time_to_tm (u32 (t_alm + 24 * 60 * 60)))
                  | MissMonth => lift (roll_month fuel t)
                  | MissYear => lift (roll_year fuel t)
                  | MissNone => mret t
                  end);
        mret (0, Some (RtcWkalrm (al_enabled alarm) (al_pending alarm) t))
    end.

Definition rtc_set_alarm (lck : Z) (alarm : rtc_wkalrm) : rtcM H Z :=
  aie ← get_aie;
  err ← lift (rtc_valid_tm (al_time alarm));
  if truth err then mret err
  else if truth lck then mret lck
  else
    t ← get_timer aie;
    (if truth (enabled t) then rtc_timer_remove aie else mret tt);;
    on_queue (set_expires aie (rtc_tm_to_ktime (al_time alarm)));;
    set_period aie (ktime_set 0 0);;
    if truth (al_enabled alarm) then rtc_timer_enqueue aie else mret 0.

Definition rtc_initialize_alarm (lck : Z) (alarm : rtc_wkalrm) : rtcM H Z :=
  aie ← get_aie;
  err ← lift (rtc_valid_tm (al_time alarm));
  if truth err then mret err
  else if truth lck then mret lck
  else
    on_queue (set_expires aie (rtc_tm_to_ktime (al_time alarm)));;
    set_period aie (ktime_set 0 0);;
    if truth (al_enabled alarm) then
      set_enabled aie 1;; warn_on (timerqueue_add aie);; mret 0
    else mret 0.

Definition rtc_alarm_irq_enable (lck enabled' : Z) : rtcM H Z :=
  aie ← get_aie;
  if truth lck then mret lck
  else
    t ← get_timer aie;
    err ← (if negb (enabled t =? enabled') then
             if truth enabled' then rtc_timer_enqueue aie else rtc_timer_remove aie;; mret 0
           else mret 0);
    if truth err then mret err
    else
      ops ← get_ops;
      match ops with
      | None => mret (- ENODEV)
      | Some ops =>
          match ops_alarm_irq_enable ops with
          | None => mret (- EINVAL)
          | Some f => on_chip (f enabled')
          end
      end.

(** without CONFIG_RTC_INTF_DEV_UIE_EMUL *)
Definition rtc_update_irq_enable (lck enabled' : Z) : rtcM H Z :=
  uie ← get_uie;
  if truth lck then mret lck
  else
    t ← get_timer uie;
    if enabled t =? enabled' then mret 0
    else if truth enabled' then
      '(_, otm) ← __rtc_read_time;
      tm ← written otm;
      let onesec := ktime_set 1 0 in
      let now := rtc_tm_to_ktime tm in
      on_queue (set_expires uie (ktime_add now onesec));;
      set_period uie (ktime_set 1 0);;
      rtc_timer_enqueue uie
    else rtc_timer_remove uie;; mret 0.

End Core.
