(* ===== verification/RtcInv.v ===== *)
(** * The invariant of the RTC core, and what its functions do

    The chip is any device that meets the laws of the class [rtc_chip]; RtcOmap.v
    shows that the driver of the AM335x does. *)
From S2P Require Import Prelude RtcLib Rbtree RbtreeInv RbtreeBal RbtreeList Timerqueue RtcCore.

(** ** A chip and its driver *)

(** what the core relies on: the time is a valid date and goes back only when it is set, an
    alarm at or after the present time is set unless it lies beyond the last second that
    the clock can show, a call that fails leaves the alarm alone, and the alarm is read back
    as it is ([alarm_valid]: the chip holds a date for it) *)
Class rtc_chip {H : Type} (ops : rtc_class_ops H) (horizon : Z) := {
  chip_ok : H → Prop;
  clock : H → Z;
  alarm_at : H → Z;
  alarm_on : H → bool;
  alarm_valid : H → Prop;
  clock_range h : chip_ok h → 0 ≤ clock h ≤ horizon;
  read_time_law : ∃ f, ops_read_time ops = Some f ∧ ∀ tm h, chip_ok h →
    ∃ tm' h', f tm h = Ret (0, tm', h') ∧ chip_ok h' ∧ clock h ≤ clock h' ∧
      valid_date tm' ∧ secs_of tm' = clock h' ∧ alarm_at h' = alarm_at h ∧ alarm_on h' = alarm_on h ∧
      (alarm_valid h → alarm_valid h');
  set_alarm_law : ∃ f, ops_set_alarm ops = Some f ∧ ∀ a h, chip_ok h →
    al_enabled a = 1 → valid_date (al_time a) → clock h ≤ secs_of (al_time a) →
    ∃ err h', f a h = Ret (err, h') ∧ chip_ok h' ∧ clock h ≤ clock h' ∧
      ((err = 0 ∧ alarm_at h' = secs_of (al_time a) ∧ alarm_on h' = true) ∨
       (err < 0 ∧ err ≠ - ETIME ∧ horizon < secs_of (al_time a) ∧
        alarm_at h' = alarm_at h ∧ alarm_on h' = alarm_on h));
  alarm_irq_law : ∃ f, ops_alarm_irq_enable ops = Some f ∧ ∀ v h, chip_ok h →
    ∃ h', f v h = Ret (0, h') ∧ chip_ok h' ∧ clock h ≤ clock h' ∧
      alarm_at h' = alarm_at h ∧ alarm_on h' = truth v;
  set_time_law : ∃ f, ops_set_time ops = Some f ∧ ∀ tm h, chip_ok h → valid_date tm → secs_of tm ≤ horizon →
    ∃ err h', f tm h = Ret (err, h') ∧ chip_ok h' ∧ err ≤ 0 ∧ (err = 0 → clock h' = secs_of tm) ∧
      alarm_at h' = alarm_at h ∧ alarm_on h' = alarm_on h;
  read_alarm_law : ∃ f, ops_read_alarm ops = Some f ∧ ∀ a h, chip_ok h → alarm_valid h →
    ∃ a' h', f a h = Ret (0, a', h') ∧ chip_ok h' ∧ clock h ≤ clock h' ∧
      valid_date (al_time a') ∧ secs_of (al_time a') = alarm_at h ∧ al_enabled a' = c_bool (alarm_on h) ∧
      alarm_at h' = alarm_at h ∧ alarm_on h' = alarm_on h
}.

(** the last second that a [ktime_t] made from a 32-bit [time_t] reaches *)
Definition KMAX : Z := (2 ^ 31 - 1) * NSEC_PER_SEC.

Section Inv.
Context {H : Type} (ops : rtc_class_ops H) (horizon : Z) `{!rtc_chip ops horizon}.
Hypothesis horizon_small : horizon < 2 ^ 31 - 1.

(** a period after which a due timer is still within reach *)
Definition PMAX : Z := KMAX - horizon * NSEC_PER_SEC.

(** ** Total correctness *)
Definition rwp {A} (m : rtcM H A) (Q : A → rtc_device H → Prop) (d : rtc_device H) : Prop :=
  match m d with Ret (a, d') => Q a d' | _ => False end.

Lemma rwp_bind {A B} (m : rtcM H A) (f : A → rtcM H B) Q d :
  rwp m (λ a, rwp (f a) Q) d → rwp (m ≫= f) Q d.
Proof. unfold rwp, mbind, rtcM_bind. by destruct (m d) as [[a d']| |]. Qed.
Lemma rwp_ret {A} (a : A) Q d : Q a d → rwp (mret a) Q d.
Proof. done. Qed.
Lemma rwp_mono {A} (m : rtcM H A) (P Q : A → rtc_device H → Prop) d :
  rwp m P d → (∀ a d', P a d' → Q a d') → rwp m Q d.
Proof. unfold rwp. destruct (m d) as [[a d']| |]; auto. Qed.
Lemma rwp_run {A} (m : rtcM H A) Q d : rwp m Q d → ∃ a d', m d = Ret (a, d') ∧ Q a d'.
Proof. unfold rwp. destruct (m d) as [[a d']| |]; [|done..]. intros ?. by exists a, d'. Qed.
Lemma rwp_lift {A} (m : cres A) a Q d : m = Ret a → Q a d → rwp (lift m) Q d.
Proof. by intros ->. Qed.
Lemma rwp_queue {A} (m : tqM A) a q Q d :
  m (rtc_queue d) = Ret (a, q) → Q a (with_queue q d) → rwp (on_queue m) Q d.
Proof. unfold rwp, on_queue. by intros ->. Qed.
Lemma rwp_chip {A} (m : H → cres (A * H)) a h Q d :
  m (chip d) = Ret (a, h) → Q a (with_chip h d) → rwp (on_chip m) Q d.
Proof. unfold rwp, on_chip. by intros ->. Qed.
Lemma with_queue_same (d : rtc_device H) : with_queue (rtc_queue d) d = d.
Proof. by destruct d. Qed.

(** ** The invariant *)
Definition queued (l : list (Z * Z)) (x : Z) : bool := bool_decide (x ∈ l.*1).

(** [l] is the queue of the timers [U]; a timer is enabled when it is queued *)
Record core_inv (U : gset Z) (d : rtc_device H) (l : list (Z * Z)) : Prop := {
  ci_ops : rtc_ops d = Some ops;
  ci_chip : chip_ok (chip d);
  ci_queue : tq_abs U (rtc_queue d) l;
  ci_timer : ∀ x, x ∈ U → ∃ t e, rtc_timers d !! x = Some t ∧ enabled t = c_bool (queued l x) ∧
    0 ≤ period t ≤ PMAX ∧ expires (rtc_queue d) !! x = Some e ∧ 0 ≤ e ≤ KMAX;
  ci_warned : warned d = false;
  ci_aie : aie_timer d ∈ U;
  ci_uie : uie_rtctimer d ∈ U
}.

(** the first timer will be looked at: the work is scheduled, or the alarm of the chip is
    on and set to its time, or the clock never gets there *)
Definition armed (d : rtc_device H) (l : list (Z * Z)) : Prop :=
  match l with
  | [] => True
  | (x, e) :: _ =>
      irqwork d = true ∨ (alarm_on (chip d) = true ∧ alarm_at (chip d) = sec_up e) ∨ horizon < sec_up e
  end.

(** [b]: the alarm was not taken away from the queue *)
Definition rtc_inv (b : bool) (U : gset Z) (d : rtc_device H) (l : list (Z * Z)) : Prop :=
  core_inv U d l ∧ (b = true → armed d l).

Lemma armed_same d l d' l' :
  armed d l → head l' = head l → alarm_at (chip d') = alarm_at (chip d) →
  alarm_on (chip d') = alarm_on (chip d) → irqwork d' = irqwork d → armed d' l'.
Proof.
  unfold armed. intros HA Hh Ha Ho Hw. rewrite Ha, Ho, Hw. by destruct l as [|[]], l' as [|[]]; simplify_eq/=.
Qed.

Definition period_of (d : rtc_device H) (x : Z) : option Z := period <$> rtc_timers d !! x.
Definition func_of (d : rtc_device H) (x : Z) : option rtc_func := rtc_timers d !! x ≫= task_func.

(** what a function leaves alone that only moves timers in and out of the queue *)
Record still (d d' : rtc_device H) : Prop := {
  st_calls : calls d' = calls d;
  st_expires : expires (rtc_queue d') = expires (rtc_queue d);
  st_period : ∀ x, period_of d' x = period_of d x;
  st_func : ∀ x, func_of d' x = func_of d x;
  st_aie : aie_timer d' = aie_timer d;
  st_uie : uie_rtctimer d' = uie_rtctimer d
}.
Record quiet (d d' : rtc_device H) : Prop := {
  qu_still : still d d';
  qu_chip : chip d' = chip d;
  qu_work : irqwork d' = irqwork d
}.

Lemma still_refl d : still d d.
Proof. by split. Qed.
Lemma still_trans d1 d2 d3 : still d1 d2 → still d2 d3 → still d1 d3.
Proof. intros [] []. split; intros; etrans; eauto. Qed.

Lemma in_unique (l : list (Z * Z)) x e e' : NoDup l.*1 → (x, e) ∈ l → (x, e') ∈ l → e = e'.
Proof.
  induction l as [|[y d] l IH]; cbn; intros Hnd; [intros []%elem_of_nil|].
  apply NoDup_cons in Hnd as [Hn Hnd]. intros [[= -> ->]|Hx]%elem_of_cons [[= ]|Hx']%elem_of_cons; subst; try done.
  - destruct Hn. by apply (list_elem_of_fmap_2 fst _ (y, e')).
  - destruct Hn. by apply (list_elem_of_fmap_2 fst _ (y, e)).
  - by apply IH.
Qed.

Lemma ci_timer_get U d l x :
  core_inv U d l → x ∈ U → ∃ t, get_timer x d = Ret (t, d) ∧ rtc_timers d !! x = Some t ∧
    enabled t = c_bool (queued l x) ∧ 0 ≤ period t ≤ PMAX.
Proof.
  intros I Hx. destruct (ci_timer _ _ _ I x Hx) as (t & e & Ht & He & Hp & _). exists t.
  unfold get_timer. by rewrite Ht.
Qed.

Lemma ci_expires U d l x e :
  core_inv U d l → (x, e) ∈ l → expires (rtc_queue d) !! x = Some e ∧ 0 ≤ e ≤ KMAX ∧ x ∈ U.
Proof.
  intros I Hx. pose proof (abs_expires _ _ _ (ci_queue _ _ _ I) x e Hx) as He.
  assert (x ∈ U) as HxU.
  { apply (tq_known _ _ _ (abs_inv _ _ _ (ci_queue _ _ _ I))). by apply (list_elem_of_fmap_2 fst _ (x, e)). }
  destruct (ci_timer _ _ _ I x HxU) as (t & e' & _ & _ & _ & He' & Hr). rewrite He in He'. injection He' as <-. done.
Qed.

Lemma core_inv_chip U d l h : core_inv U d l → chip_ok h → core_inv U (with_chip h d) l.
Proof. intros [] ?. by split. Qed.
Lemma core_inv_work U d l w : core_inv U d l → core_inv U (with_work w d) l.
Proof. intros []. by split. Qed.

(** ** The queue and the enabled bit change together *)
Lemma enlist U d l x e {A} (k : rtcM H A) Q :
  core_inv U d l → x ∈ U → x ∉ l.*1 → expires (rtc_queue d) !! x = Some e →
  (∀ d', core_inv U d' (enqueue snd (x, e) l) → quiet d d' →
     (∀ y, is_Some (nodes (tq_head (rtc_queue d)) !! y) → is_Some (nodes (tq_head (rtc_queue d')) !! y)) →
     (∀ y, y ≠ x → rtc_timers d' !! y = rtc_timers d !! y) → rwp k Q d') →
  rwp (set_enabled x 1;; warn_on (timerqueue_add x);; k) Q d.
Proof.
  intros I Hx Hout He Hk. destruct (ci_timer_get _ _ _ _ I Hx) as (t & Eg & Ht & _ & _).
  destruct (abs_add U (rtc_queue d) l x e) as (q' & E & Ee & Hmem & HA); [by apply I|done..|].
  set (t' := RtcTimer (task_func t) (period t) 1).
  set (d1 := with_timers (<[x := t']> (rtc_timers d)) d).
  assert (warn_on (timerqueue_add x) d1 = Ret (tt, with_queue q' d1)) as Ew.
  { unfold warn_on, add_warning, on_queue, mbind, rtcM_bind. cbn [rtc_queue d1 with_timers]. rewrite E. cbn.
    by rewrite orb_false_r. }
  unfold rwp. unfold set_enabled, mbind, rtcM_bind. rewrite Eg. cbn [set_timer]. fold t' d1. rewrite Ew.
  apply Hk.
  - destruct I as [Ho Hc Hq Htm Hw Ha Hu]. split; cbn; try done.
    intros y Hy. rewrite Ee. destruct (Htm y Hy) as (ty & ey & Hty & Hen & Hrest).
    destruct (decide (y = x)) as [->|Hne].
    + rewrite Ht in Hty. injection Hty as <-. exists t', ey. rewrite lookup_insert_eq. split; [done|]. split; [|exact Hrest].
      unfold queued. rewrite bool_decide_true; [done|]. apply list_elem_of_fmap. exists (x, e).
      split; [done|]. apply enqueue_elem. by left.
    + exists ty, ey. rewrite lookup_insert_ne by done. split; [done|]. split; [|exact Hrest]. rewrite Hen. unfold queued.
      do 2 f_equal. apply bool_decide_ext. rewrite !list_elem_of_fmap. split; intros ([z c] & Hz & Hin); cbn in Hz; subst z.
      * exists (y, c). split; [done|]. apply enqueue_elem. by right.
      * exists (y, c). split; [done|]. apply enqueue_elem in Hin as [[= ]|]; done.
  - split; [split|..]; cbn; try done; intros y; unfold period_of, func_of; cbn;
      (destruct (decide (y = x)) as [->|]; [by rewrite lookup_insert_eq, Ht|by rewrite lookup_insert_ne]).
  - exact Hmem.
  - intros y Hy. cbn. by rewrite lookup_insert_ne.
Qed.

Lemma delist U d l x {A} (k : rtcM H A) Q :
  core_inv U d l → x ∈ l.*1 →
  (∀ d', core_inv U d' (filter (λ p, p.1 ≠ x) l) → quiet d d' → rwp k Q d') →
  rwp (warn_on (timerqueue_del x);; set_enabled x 0;; k) Q d.
Proof.
  intros I Hin Hk. assert (x ∈ U) as Hx.
  { apply (tq_known _ _ _ (abs_inv _ _ _ (ci_queue _ _ _ I))). done. }
  destruct (abs_del U (rtc_queue d) l x) as (q' & E & Ee & HA); [by apply I|done..|].
  destruct (ci_timer_get _ _ _ _ I Hx) as (t & _ & Ht & _ & _).
  set (t' := RtcTimer (task_func t) (period t) 0).
  assert (warn_on (timerqueue_del x) d = Ret (tt, with_queue q' d)) as Ew.
  { unfold warn_on, add_warning, on_queue, mbind, rtcM_bind. rewrite E. cbn. rewrite orb_false_r. by destruct d. }
  unfold rwp, mbind, rtcM_bind. rewrite Ew. unfold set_enabled, get_timer, mbind, rtcM_bind. cbn [rtc_timers with_queue].
  rewrite Ht. cbn [set_timer]. fold t'. apply Hk.
  - destruct I as [Ho Hc Hq Htm Hw Ha Hu]. split; cbn; try done.
    intros y Hy. rewrite Ee. destruct (Htm y Hy) as (ty & ey & Hty & Hen & Hrest).
    destruct (decide (y = x)) as [->|Hne].
    + rewrite Ht in Hty. injection Hty as <-. exists t', ey. rewrite lookup_insert_eq. split; [done|]. split; [|exact Hrest].
      unfold queued. rewrite bool_decide_false; [done|]. intros ([z c] & Hz & [Hf _]%list_elem_of_filter)%list_elem_of_fmap.
      cbn in Hz, Hf. by subst z.
    + exists ty, ey. rewrite lookup_insert_ne by done. split; [done|]. split; [|exact Hrest]. rewrite Hen. unfold queued.
      do 2 f_equal. apply bool_decide_ext. rewrite !list_elem_of_fmap. split; intros ([z c] & Hz & Hin'); cbn in Hz; subst z.
      * exists (y, c). split; [done|]. by apply list_elem_of_filter.
      * exists (y, c). split; [done|]. by apply list_elem_of_filter in Hin' as [_ ?].
  - split; [split|..]; cbn; try done; intros y; unfold period_of, func_of; cbn;
      (destruct (decide (y = x)) as [->|]; [by rewrite lookup_insert_eq, Ht|by rewrite lookup_insert_ne]).
Qed.

(** ** The time and the alarm *)
Lemma rwp_read_time U d l Q :
  core_inv U d l →
  (∀ tm h', chip_ok h' → clock (chip d) ≤ clock h' → valid_date tm → secs_of tm = clock h' →
     alarm_at h' = alarm_at (chip d) → alarm_on h' = alarm_on (chip d) → Q (0, Some tm) (with_chip h' d)) →
  rwp __rtc_read_time Q d.
Proof.
  intros I HQ. destruct read_time_law as (f & Ef & Hf).
  destruct (Hf zero_tm (chip d)) as (tm & h' & E & ?); [by apply I|].
  unfold rwp, __rtc_read_time, get_ops, on_chip, mbind, rtcM_bind. rewrite (ci_ops _ _ _ I), Ef, E.
  apply HQ; tauto.
Qed.

(** an alarm for the second [s]: refused because it is not later than the time, set, or
    beyond the clock *)
Definition outcome (s : Z) (h : H) (err : Z) (h' : H) : Prop :=
  (err = - ETIME ∧ s ≤ clock h' ∧ alarm_at h' = alarm_at h ∧ alarm_on h' = alarm_on h) ∨
  (err = 0 ∧ alarm_at h' = s ∧ alarm_on h' = true) ∨
  (err < 0 ∧ err ≠ - ETIME ∧ horizon < s ∧ alarm_at h' = alarm_at h ∧ alarm_on h' = alarm_on h).

Lemma small_secs tm : valid_date tm → secs_of tm < 2 ^ 31 → s32 (rtc_tm_to_time tm) = secs_of tm.
Proof.
  intros Hv Hs. pose proof (secs_of_nonneg tm Hv). rewrite rtc_tm_to_time_ok, u32_id, s32_id by (done || (unfold_ranges; lia)).
  done.
Qed.

Lemma rwp_set_alarm U d l tm Q :
  core_inv U d l → valid_date tm → secs_of tm < 2 ^ 31 →
  (∀ err h', chip_ok h' → clock (chip d) ≤ clock h' → outcome (secs_of tm) (chip d) err h' →
     Q err (with_chip h' d)) →
  rwp (__rtc_set_alarm (RtcWkalrm 1 None tm)) Q d.
Proof.
  intros I Hv Hs HQ. unfold __rtc_set_alarm. cbn [al_time].
  apply rwp_bind. eapply rwp_lift.
  { destruct (rtc_valid_tm_ok tm (valid_date_int tm Hv)) as [[E _]|[_ ?]]; [exact E|done]. }
  cbn [truth negb Z.eqb]. apply rwp_bind, (rwp_read_time U d l); [done|]. intros now h1 Hok Hle Hvn Hsn Ha Ho.
  apply rwp_bind, rwp_ret. pose proof (clock_range h1 Hok) as Hr.
  rewrite !small_secs by (done || lia). destruct (Z.leb_spec (secs_of tm) (secs_of now)) as [Hpast|Hfut].
  - apply rwp_ret, HQ; [done..|]. left. split_and!; [done|lia|done..].
  - destruct set_alarm_law as (f & Ef & Hf).
    destruct (Hf (RtcWkalrm 1 None tm) h1) as (err & h2 & E & Hok2 & Hle2 & Hc); [done|done|done|cbn [al_time]; lia|].
    unfold rwp, get_ops, on_chip, mbind, rtcM_bind. cbn [rtc_ops with_chip]. rewrite (ci_ops _ _ _ I), Ef.
    cbn [chip with_chip]. rewrite E. apply (HQ err h2); [done|lia|]. cbn [al_time] in Hc.
    destruct Hc as [Hc|(?&?&?&Ea&Eo)]; [right; left; done|]. right; right. split_and!; try done; congruence.
Qed.

Lemma sec_up_range e : 0 ≤ e ≤ KMAX → 0 ≤ sec_up e < 2 ^ 31.
Proof. unfold sec_up, KMAX, NSEC_PER_SEC. intros He. Z.div_mod_to_equations. lia. Qed.

Lemma set_for U d l e {A} (k : Z → rtcM H A) Q :
  core_inv U d l → 0 ≤ e ≤ KMAX →
  (∀ err h', chip_ok h' → clock (chip d) ≤ clock h' → outcome (sec_up e) (chip d) err h' →
     rwp (k err) Q (with_chip h' d)) →
  rwp (a ← alarm_for e; err ← __rtc_set_alarm a; k err) Q d.
Proof.
  intros I He HQ. destruct (rtc_ktime_to_tm_ok e He) as (tm & E & Hv & Hs). pose proof (sec_up_range e He).
  apply rwp_bind. unfold alarm_for. apply rwp_bind, (rwp_lift _ _ _ _ E), rwp_ret.
  apply rwp_bind, (rwp_set_alarm U d l); [done|done|lia|]. by rewrite Hs.
Qed.

(** ** Adding and removing a timer *)
Lemma queue_next U d l :
  core_inv U d l → on_queue timerqueue_getnext d = Ret (default 0 (head l.*1), d).
Proof.
  intros I. unfold on_queue, timerqueue_getnext, get_next.
  rewrite (tq_first _ _ _ (abs_inv _ _ _ (ci_queue _ _ _ I))), with_queue_same. done.
Qed.

Lemma queue_expires (d : rtc_device H) x e :
  expires (rtc_queue d) !! x = Some e → on_queue (get_expires x) d = Ret (e, d).
Proof. intros He. unfold on_queue, get_expires. by rewrite He, with_queue_same. Qed.

Lemma rwp_eq {A B} (m : rtcM H A) (f : A → rtcM H B) a d Q :
  m d = Ret (a, d) → rwp (f a) Q d → rwp (m ≫= f) Q d.
Proof. intros E. unfold rwp, mbind, rtcM_bind. by rewrite E. Qed.

Lemma ci_ptr U d l x : core_inv U d l → x ∈ U → truth x = true.
Proof.
  intros I Hx. apply ptr_truth. by apply (tq_timer _ _ _ (abs_inv _ _ _ (ci_queue _ _ _ I))).
Qed.

Lemma enqueue_not_first (x : Z) e (l : list (Z * Z)) :
  x ∉ l.*1 → default 0 (head (enqueue snd (x, e) l).*1) ≠ x → head (enqueue snd (x, e) l) = head l.
Proof. destruct l as [|[y c] l]; cbn; [done|]. by destruct (e <? c). Qed.

Lemma enqueue_first (x : Z) e (l : list (Z * Z)) :
  truth x = true → x ∉ l.*1 → default 0 (head (enqueue snd (x, e) l).*1) = x →
  head (enqueue snd (x, e) l) = Some (x, e).
Proof.
  destruct l as [|[y c] l]; cbn; [done|]. destruct (e <? c); [done|]. cbn. intros _ Hout ->. set_solver.
Qed.

Lemma filter_enqueue (x : Z) e (l : list (Z * Z)) :
  x ∉ l.*1 → filter (λ p, p.1 ≠ x) (enqueue snd (x, e) l) = l.
Proof.
  induction l as [|[y c] l IH]; intros Hout.
  - cbn [enqueue]. by rewrite filter_cons_False by (cbn; tauto).
  - rewrite fmap_cons in Hout. cbn in Hout. cbn [enqueue]. cbn [snd]. destruct (e <? c).
    + rewrite filter_cons_False by (cbn; tauto). apply filter_out. rewrite fmap_cons. cbn. set_solver.
    + rewrite filter_cons_True by (cbn; set_solver). f_equal. apply IH. set_solver.
Qed.

Lemma rtc_timer_enqueue_ok b U d l x e :
  rtc_inv b U d l → x ∈ U → x ∉ l.*1 → expires (rtc_queue d) !! x = Some e →
  rwp (rtc_timer_enqueue x) (λ err d', still d d' ∧
    ((err = 0 ∧ rtc_inv b U d' (enqueue snd (x, e) l)) ∨ (err < 0 ∧ horizon < sec_up e ∧ rtc_inv b U d' l))) d.
Proof.
  intros [I HA] Hx Hout He. unfold rtc_timer_enqueue. apply (enlist U d l x e); [done..|]. intros d1 I1 [Hst Hc Hw] _ _.
  pose proof (ci_ptr _ _ _ _ I Hx) as Hp. eapply rwp_eq; [by apply (queue_next U)|].
  destruct (Z.eqb_spec x (default 0 (head (enqueue snd (x, e) l).*1))) as [Hf|Hnf].
  2: { apply rwp_ret. split; [done|]. left. split; [done|]. split; [done|]. intros Hb.
    apply (armed_same d l); [by apply HA|by apply enqueue_not_first|by rewrite Hc..|done]. }
  symmetry in Hf. apply enqueue_first in Hf; [|done..]. set (l1 := enqueue snd (x, e) l) in *.
  assert ((x, e) ∈ l1) as Hin by (by apply enqueue_elem; left).
  destruct (ci_expires _ _ _ _ _ I1 Hin) as (He1 & Hr & _).
  eapply rwp_eq; [by apply queue_expires|]. apply (set_for U d1 l1); [done..|]. intros err h' Hok Hle Hout'.
  pose proof (core_inv_chip _ _ _ _ I1 Hok) as I2.
  destruct Hout' as [(-> & Hs & Ea & Eo)|[(-> & Ea & Eo)|(Hneg & Hnt & Hh & Ea & Eo)]].
  - cbn. split; [destruct Hst; by split|]. left. split; [done|]. split; [by apply core_inv_work|]. intros _.
    unfold armed. rewrite (surjective_pairing (x, e)) in Hf. destruct l1 as [|[y c] l2]; [done|]. by left.
  - cbn. split; [destruct Hst; by split|]. left. split; [done|]. split; [done|]. intros _.
    unfold armed. destruct l1 as [|[y c] l2]; [done|]. injection Hf as -> ->. right; left. done.
  - rewrite (proj2 (Z.eqb_neq _ _)) by done. unfold truth. rewrite (proj2 (Z.eqb_neq err 0)) by lia. cbn [negb].
    apply (delist U _ l1); [done|by apply (list_elem_of_fmap_2 fst _ (x, e))|]. intros d3 I3 [Hst3 Hc3 Hw3].
    unfold l1 in I3. rewrite filter_enqueue in I3 by done. apply rwp_ret.
    split; [apply (still_trans _ d1); [done|]; destruct Hst3; by split|]. right. split; [done|]. split; [done|]. split; [done|]. intros Hb.
    apply (armed_same d l); [by apply HA|done|..]; rewrite ?Hc3, ?Hw3; cbn; congruence.
Qed.

Lemma filter_first (x : Z) (l : list (Z * Z)) :
  default 0 (head l.*1) ≠ x → head (filter (λ p, p.1 ≠ x) l) = head l ∨ l = [].
Proof.
  destruct l as [|[y c] l]; [by right|]. cbn [fmap list_fmap head default from_option id fst]. intros Hne. left.
  by rewrite filter_cons_True.
Qed.

Lemma rtc_timer_remove_ok b U d l x :
  rtc_inv b U d l → x ∈ l.*1 →
  rwp (rtc_timer_remove x) (λ _ d', still d d' ∧ rtc_inv b U d' (filter (λ p, p.1 ≠ x) l)) d.
Proof.
  intros [I HA] Hin. unfold rtc_timer_remove. eapply rwp_eq; [by apply (queue_next U)|].
  apply (delist U d l); [done..|]. intros d1 I1 [Hst Hc Hw]. set (l1 := filter (λ p, p.1 ≠ x) l) in *.
  destruct (Z.eqb_spec (default 0 (head l.*1)) x) as [Hf|Hnf].
  2: { apply rwp_ret. split; [done|]. split; [done|]. intros Hb.
    destruct (filter_first x l Hnf) as [Hh| ->]; [|done]. by apply (armed_same d l); rewrite ?Hc; [apply HA|..]. }
  eapply rwp_eq; [by apply (queue_next U)|]. destruct l1 as [|[y e] l2] eqn:Hl1; [by apply rwp_ret|].
  cbn [fmap list_fmap head default from_option id fst].
  destruct (ci_expires _ _ _ y e I1) as (He1 & Hr & Hy); [set_solver +|]. rewrite (ci_ptr _ _ _ _ I1 Hy).
  eapply rwp_eq; [by apply queue_expires|]. apply (set_for U d1 ((y, e) :: l2)); [done..|]. intros err h' Hok Hle Hout'.
  pose proof (core_inv_chip _ _ _ _ I1 Hok) as I2.
  destruct Hout' as [(-> & Hs & Ea & Eo)|[(-> & Ea & Eo)|(Hneg & Hnt & Hh & Ea & Eo)]].
  - cbn. split; [destruct Hst; by split|]. split; [by apply core_inv_work|by left].
  - cbn. split; [destruct Hst; by split|]. split; [done|]. intros _. right; left. done.
  - rewrite (proj2 (Z.eqb_neq _ _)) by done. apply rwp_ret. split; [destruct Hst; by split|]. split; [done|].
    intros _. right; right. done.
Qed.

End Inv.
