(* ===== verification/RtcWork.v ===== *)
(** * The work of the RTC core: which timers expire, and the calls in any order *)
From stdpp Require Import sorting.
From S2P Require Import Prelude RtcLib Rbtree RbtreeInv RbtreeBal RbtreeList Timerqueue RtcCore RtcInv.

(** ** What the work has to do *)

(** how often a timer due at [e] with period [p] expires by [now] *)
Definition due (now e p : Z) : nat :=
  if now <? e then 0 else if p =? 0 then 1 else S (Z.to_nat ((now - e) / p)).

Definition times (x : Z) (l : list Z) : nat := length (filter (λ y, y = x) l).

(** from [l] to [l'] with the calls [fired]: each timer with a function is called as often
    as it is due, and stays queued at its first time after [now] if it is periodic *)
Record expired (now : Z) (per : Z → Z) (hasf : Z → bool) (l l' : list (Z * Z)) (fired : list Z) : Prop := {
  exp_later : ∀ x e, (x, e) ∈ l' → now < e;
  exp_fired : ∀ x e, (x, e) ∈ l → times x fired = if hasf x then due now e (per x) else 0%nat;
  exp_quiet : ∀ x, x ∉ l.*1 → times x fired = 0%nat;
  exp_queue : ∀ x e', (x, e') ∈ l' ↔ ∃ e, (x, e) ∈ l ∧ (due now e (per x) = 0%nat ∨ per x ≠ 0) ∧
    e' = e + Z.of_nat (due now e (per x)) * per x
}.

Lemma times_app x a b : times x (a ++ b) = (times x a + times x b)%nat.
Proof. unfold times. by rewrite filter_app, length_app. Qed.

Lemma due_later now e p : now < e → due now e p = 0%nat.
Proof. intros. unfold due. by rewrite (proj2 (Z.ltb_lt _ _)). Qed.

Lemma due_once now e : e ≤ now → due now e 0 = 1%nat.
Proof. intros. unfold due. by rewrite (proj2 (Z.ltb_ge _ _)). Qed.

Lemma due_again now e p : e ≤ now → 0 < p → due now e p = S (due now (e + p) p).
Proof.
  intros He Hp. unfold due. rewrite (proj2 (Z.ltb_ge now e)), (proj2 (Z.eqb_neq p 0)) by lia. f_equal.
  replace (now - (e + p)) with (now - e + -1 * p) by lia. rewrite Z.div_add by lia.
  destruct (Z.ltb_spec now (e + p)).
  - rewrite Z.div_small by lia. done.
  - assert (1 ≤ (now - e) / p) by (apply Z.div_le_lower_bound; lia). lia.
Qed.

Lemma expired_done now per hasf l :
  (∀ x e, (x, e) ∈ l → now < e) → expired now per hasf l l [].
Proof.
  intros Hl. split; [done| |done|].
  - intros x e Hx. rewrite due_later by (by apply (Hl x)). by destruct (hasf x).
  - intros x e. split.
    + intros Hx. exists e. rewrite due_later by (by apply (Hl x)). split_and!; [done|by left|lia].
    + intros (e' & Hx & _ & ->). rewrite due_later by (by apply (Hl x)). by rewrite Z.add_0_r.
Qed.

(** the first timer expires; [r1] is the rest with the timer added again *)
Definition expire_first (per : Z → Z) (x e : Z) (r : list (Z * Z)) : list (Z * Z) :=
  if per x =? 0 then r else enqueue snd (x, e + per x) r.

Lemma expired_step now per hasf x e r l' fired :
  NoDup ((x, e) :: r).*1 → e ≤ now → 0 ≤ per x →
  expired now per hasf (expire_first per x e r) l' fired →
  expired now per hasf ((x, e) :: r) l' ((if hasf x then [x] else []) ++ fired).
Proof.
  intros Hnd He Hp [Hl Hf Hq Hqu]. cbn in Hnd. apply NoDup_cons in Hnd as [Hx Hnd].
  assert (∀ y c, y ≠ x → (y, c) ∈ expire_first per x e r ↔ (y, c) ∈ r) as Hother.
  { intros y c Hne. unfold expire_first. destruct (per x =? 0); [done|]. rewrite enqueue_elem. naive_solver. }
  assert (∀ c, (x, c) ∈ r → False) as Hnot.
  { intros c Hc. by apply Hx, (list_elem_of_fmap_2 fst _ (x, c)). }
  assert (∀ y, y ≠ x → times y (if hasf x then [x] else []) = 0%nat) as Hty.
  { intros y Hne. unfold times. destruct (hasf x); [|done]. by rewrite filter_cons_False by done. }
  assert (times x (if hasf x then [x] else []) = if hasf x then 1%nat else 0%nat) as Htx.
  { unfold times. destruct (hasf x); [|done]. by rewrite filter_cons_True by done. }
  assert (∀ y, y ∉ (expire_first per x e r).*1 → times y fired = 0%nat) as Hq' by done.
  split; [done|..].
  - intros y c [[= -> ->]|Hy]%elem_of_cons; rewrite times_app.
    + rewrite Htx. unfold expire_first in *. destruct (Z.eqb_spec (per x) 0) as [Hp0|Hp0].
      * rewrite Hp0, due_once, Hq' by done. by destruct (hasf x).
      * rewrite due_again by lia. rewrite (Hf x (e + per x)) by (apply enqueue_elem; by left). by destruct (hasf x).
    + rewrite Hty by (intros ->; by eapply Hnot). apply Hf, Hother; [|done]. intros ->. by eapply Hnot.
  - intros y Hy. rewrite fmap_cons in Hy. cbn in Hy. assert (y ≠ x) by set_solver. rewrite times_app, Hty by done.
    apply Hq'. intros ([z c] & Hz & Hin)%list_elem_of_fmap. cbn in Hz. subst z. apply Hother in Hin; [|done].
    apply Hy, elem_of_cons. right. by apply (list_elem_of_fmap_2 fst _ (y, c)).
  - intros y e'. rewrite Hqu. destruct (decide (y = x)) as [->|Hne].
    + unfold expire_first. destruct (Z.eqb_spec (per x) 0) as [Hp0|Hp0].
      * split; [intros (c & Hc & _); by destruct (Hnot c)|]. intros (c & [[= ->]|Hc]%elem_of_cons & [Hd|?] & _); try done.
        -- rewrite Hp0, due_once in Hd by done. done.
        -- by destruct (Hnot c).
      * split.
        -- intros (c & [[= ->]|Hc]%enqueue_elem & _ & ->); [|by destruct (Hnot c)].
           exists e. rewrite (due_again now e) by lia. split_and!; [set_solver +|by right|lia].
        -- intros (c & [[= ->]|Hc]%elem_of_cons & _ & ->); [|by destruct (Hnot c)].
           exists (e + per x). rewrite (due_again now e) by lia. split_and!; [apply enqueue_elem; by left|by right|lia].
    + split; intros (c & Hc & ?); exists c; (split; [|done]).
      * apply Hother in Hc; [|done]. set_solver.
      * apply elem_of_cons in Hc as [[= ]|Hc]; [done|]. by apply Hother.
Qed.

(** the timers that are still to expire *)
Definition total_due (now : Z) (per : Z → Z) (l : list (Z * Z)) : nat :=
  sum_list_with (λ p, due now p.2 (per p.1)) l.

Lemma enqueue_cons_perm {A} (ex : A → Z) x l : enqueue ex x l ≡ₚ x :: l.
Proof.
  induction l as [|y l IH]; cbn; [done|]. destruct (ex x <? ex y); [done|]. rewrite IH. apply Permutation_swap.
Qed.

Lemma total_due_first now per x e r :
  e ≤ now → 0 ≤ per x → total_due now per ((x, e) :: r) = S (total_due now per (expire_first per x e r)).
Proof.
  intros He Hp. unfold expire_first. destruct (Z.eqb_spec (per x) 0) as [Hp0|Hp0]; cbn.
  - by rewrite Hp0, due_once.
  - rewrite due_again by lia. unfold total_due.
    by rewrite (enqueue_cons_perm snd).
Qed.

(** rounds of the work add up *)
Lemma due_split now now' e p :
  now ≤ now' → 0 ≤ p → due now e p = 0%nat ∨ p ≠ 0 →
  due now' e p = (due now e p + due now' (e + Z.of_nat (due now e p) * p) p)%nat.
Proof.
  intros Hn Hp Hd. destruct (Z.lt_ge_cases now e) as [Hlt|Hge].
  { rewrite (due_later now) by done. cbn. by rewrite Z.add_0_r. }
  assert (0 < p) as Hp0. { destruct Hd as [Hd|]; [|lia]. destruct (decide (p = 0)) as [->|]; [|lia]. by rewrite due_once in Hd. }
  assert (due now e p = S (Z.to_nat ((now - e) / p))) as ->.
  { unfold due. by rewrite (proj2 (Z.ltb_ge _ _)), (proj2 (Z.eqb_neq _ _)) by lia. }
  assert (0 ≤ (now - e) / p) as Hk by (apply Z.div_pos; lia).
  rewrite Nat2Z.inj_succ, Z2Nat.id by done. set (k := (now - e) / p) in *.
  unfold due. rewrite (proj2 (Z.ltb_ge now' e)), (proj2 (Z.eqb_neq p 0)) by lia.
  replace (now' - (e + Z.succ k * p)) with (now' - e + - Z.succ k * p) by lia. rewrite Z.div_add by lia.
  destruct (Z.ltb_spec now' (e + Z.succ k * p)) as [Hs|Hs].
  - assert (k ≤ (now' - e) / p) by (apply Z.div_le_mono; lia).
    assert ((now' - e) / p < Z.succ k) by (apply Z.div_lt_upper_bound; lia). lia.
  - assert (Z.succ k ≤ (now' - e) / p) by (apply Z.div_le_lower_bound; lia). lia.
Qed.

Lemma expired_trans now now' per hasf l l1 l2 f1 f2 :
  NoDup l.*1 → now ≤ now' → (∀ x e, (x, e) ∈ l → 0 ≤ per x) →
  expired now per hasf l l1 f1 → expired now' per hasf l1 l2 f2 → expired now' per hasf l l2 (f1 ++ f2).
Proof.
  intros Hnd Hn Hp [Hl1 Hf1 Hq1 Hqu1] [Hl2 Hf2 Hq2 Hqu2].
  assert (∀ x e, (x, e) ∈ l → due now e (per x) ≠ 0%nat → per x = 0 → x ∉ l1.*1) as Hgone.
  { intros x e Hx Hd H0 ([y c] & Hy & (e1 & He1 & [Hd1|?] & _)%Hqu1)%list_elem_of_fmap; cbn in Hy; subst y; [|done].
    by rewrite (in_unique l x e e1) in Hd. }
  split; [done|..].
  - intros x e Hx. rewrite times_app, (Hf1 x e Hx).
    destruct (decide (due now e (per x) = 0%nat ∨ per x ≠ 0)) as [Hs|Hs].
    + rewrite (Hf2 x (e + Z.of_nat (due now e (per x)) * per x)) by (apply Hqu1; by exists e).
      rewrite (due_split now now' e (per x)) by (done || by eapply Hp). by destruct (hasf x).
    + assert (per x = 0) as H0 by lia. rewrite Hq2 by (apply (Hgone x e); [done|tauto|done]).
      rewrite H0 in *. destruct (Z.lt_ge_cases now e) as [Hlt|Hge]; [rewrite due_later in Hs by done; tauto|].
      rewrite !due_once by lia. by destruct (hasf x).
  - intros x Hx. rewrite times_app, Hq1, Hq2 by (done || intros ([y c] & Hy & (e1 & He1 & _)%Hqu1)%list_elem_of_fmap;
      cbn in Hy; subst y; by apply Hx, (list_elem_of_fmap_2 fst _ (x, e1))). done.
  - intros x e'. rewrite Hqu2. split.
    + intros (e1 & (e & He & Hd & ->)%Hqu1 & Hd' & ->). exists e. split; [done|].
      rewrite (due_split now now' e (per x)) by (done || by eapply Hp). split; [|lia].
      destruct Hd' as [->|?]; [|by right]. destruct Hd as [->|?]; [by left|by right].
    + intros (e & He & Hd & ->). destruct (decide (due now e (per x) = 0%nat ∨ per x ≠ 0)) as [Hs|Hs].
      * exists (e + Z.of_nat (due now e (per x)) * per x). split; [apply Hqu1; by exists e|].
        rewrite (due_split now now' e (per x)) in Hd |- * by (done || by eapply Hp). split; [|lia].
        destruct Hd as [Hd|?]; [left; lia|by right].
      * exfalso. destruct Hd as [Hd|?]; [|tauto]. assert (per x = 0) as H0 by lia. rewrite H0 in *.
        destruct (Z.lt_ge_cases now e) as [Hlt|Hge]; [rewrite due_later in Hs by done; tauto|].
        rewrite due_once in Hd by lia. done.
Qed.

Section Work.
Context {H : Type} (ops : rtc_class_ops H) (horizon : Z) `{!rtc_chip ops horizon}.
Hypothesis horizon_small : horizon < 2 ^ 31 - 1.

#[local] Abbreviation core_inv := (core_inv ops horizon).
#[local] Abbreviation rtc_inv := (rtc_inv ops horizon).

(** a queue of the same timers with new times *)
Lemma rwp_set_expires U d l x e {A} (k : rtcM H A) Q :
  core_inv U d l → x ∈ U → x ∉ l.*1 → 0 ≤ e ≤ KMAX →
  (∀ d', core_inv U d' l → expires (rtc_queue d') = <[x := e]> (expires (rtc_queue d)) →
     rtc_timers d' = rtc_timers d → chip d' = chip d → irqwork d' = irqwork d → calls d' = calls d →
     aie_timer d' = aie_timer d → uie_rtctimer d' = uie_rtctimer d →
     tq_head (rtc_queue d') = tq_head (rtc_queue d) → rwp k Q d') →
  rwp (on_queue (set_expires x e);; k) Q d.
Proof.
  intros [Ho Hc Hq Ht Hw Ha Hu] Hx Hout He Hk. apply rwp_bind. unfold rwp at 1, on_queue. cbn [set_expires].
  apply Hk; try done. split; try done; cbn.
  - by apply abs_set_expires.
  - intros y Hy. destruct (Ht y Hy) as (t & ey & ? & ? & ? & ? & ?).
    destruct (decide (y = x)) as [->|]; [exists t, e; rewrite lookup_insert_eq|exists t, ey; rewrite lookup_insert_ne by done]; done.
Qed.

Lemma rwp_set_period U d l x p {A} (k : rtcM H A) Q :
  core_inv U d l → x ∈ U → 0 ≤ p ≤ PMAX horizon →
  (∀ d', core_inv U d' l → rtc_queue d' = rtc_queue d → chip d' = chip d → irqwork d' = irqwork d →
     calls d' = calls d → aie_timer d' = aie_timer d → uie_rtctimer d' = uie_rtctimer d →
     (∀ y, y ≠ x → rtc_timers d' !! y = rtc_timers d !! y) → rwp k Q d') →
  rwp (set_period x p;; k) Q d.
Proof.
  intros I Hx Hp Hk. destruct (ci_timer_get _ _ _ _ _ _ I Hx) as (t & Eg & Ht & He & _).
  unfold rwp, set_period, mbind, rtcM_bind. rewrite Eg. cbn [set_timer]. apply Hk; try done.
  2: { intros y Hy. cbn. by rewrite lookup_insert_ne. }
  destruct I as [Ho Hc Hq Htm Hw Ha Hu]. split; try done; cbn.
  intros y Hy. destruct (Htm y Hy) as (ty & ey & Hty & Hen & Hpe & Hrest).
  destruct (decide (y = x)) as [->|]; [|exists ty, ey; by rewrite lookup_insert_ne].
  exists (RtcTimer (task_func t) p (enabled t)), ey. rewrite lookup_insert_eq. done.
Qed.

(** the function of a timer *)
Definition calls_of (hasf : Z → bool) (x : Z) : list Z := if hasf x then [x] else [].
Definition has_func (d : rtc_device H) (x : Z) : bool := bool_decide (is_Some (func_of d x)).

Lemma rwp_call U d l x t {A} (k : rtcM H A) Q :
  core_inv U d l → rtc_timers d !! x = Some t →
  (∀ d', core_inv U d' l → rtc_queue d' = rtc_queue d → rtc_timers d' = rtc_timers d → chip d' = chip d →
     irqwork d' = irqwork d → calls d' = calls d ++ calls_of (has_func d) x →
     aie_timer d' = aie_timer d → uie_rtctimer d' = uie_rtctimer d → rwp k Q d') →
  rwp ((match task_func t with Some f => call_func x f | None => mret tt end);; k) Q d.
Proof.
  intros I Ht Hk. apply rwp_bind.
  assert (calls_of (has_func d) x = match task_func t with Some _ => [x] | None => [] end) as Hc.
  { unfold calls_of, has_func, func_of. rewrite Ht. cbn. by destruct (task_func t). }
  rewrite Hc in Hk. destruct (task_func t) as [[]|]; cbn; apply Hk; try done; try (by destruct I; split);
    by rewrite app_nil_r.
Qed.

(** what the work leaves alone *)
Record kept (d d' : rtc_device H) : Prop := {
  ke_work : irqwork d' = irqwork d;
  ke_period : ∀ x, period_of d' x = period_of d x;
  ke_func : ∀ x, func_of d' x = func_of d x;
  ke_aie : aie_timer d' = aie_timer d;
  ke_uie : uie_rtctimer d' = uie_rtctimer d
}.

Lemma keeps_trans d1 d2 d3 : kept d1 d2 → kept d2 d3 → kept d1 d3.
Proof. intros [] []. split; intros; etrans; eauto. Qed.

Lemma kept_quiet d d' : quiet d d' → kept d d'.
Proof. intros [[] ? ?]. by split. Qed.

(** the latest time that the clock can show *)
Definition top : Z := horizon * NSEC_PER_SEC.

Section Loop.
Context (U : gset Z) (per : Z → Z) (hasf : Z → bool).

(** the periods and functions of the timers do not change *)
Definition fits (d : rtc_device H) : Prop :=
  ∀ x, x ∈ U → period_of d x = Some (per x) ∧ has_func d x = hasf x.

Lemma fits_kept d d' : fits d → kept d d' → fits d'.
Proof.
  intros Hf K x Hx. destruct (Hf x Hx) as [Hp Hh]. unfold has_func in *. by rewrite (ke_period _ _ K), (ke_func _ _ K).
Qed.

Lemma fits_period d l x : core_inv U d l → fits d → x ∈ U → 0 ≤ per x ≤ PMAX horizon.
Proof.
  intros I Hf Hx. destruct (ci_timer _ _ _ _ _ I x Hx) as (t & e & Ht & _ & Hp & _).
  destruct (Hf x Hx) as [Hpx _]. unfold period_of in Hpx. rewrite Ht in Hpx. by injection Hpx as <-.
Qed.

(** the first timer expires *)
Lemma expire_round d l x e {A} (k : rtcM H A) Q now :
  core_inv U d ((x, e) :: l) → fits d → e ≤ now → now ≤ top →
  (∀ d', core_inv U d' (expire_first per x e l) → kept d d' → chip d' = chip d →
     calls d' = calls d ++ calls_of hasf x → rwp k Q d') →
  rwp (warn_on (timerqueue_del x);; set_enabled x 0;;
       t ← get_timer x;
       (match task_func t with Some f => call_func x f | None => mret tt end);;
       t ← get_timer x;
       (if truth (period t) then
          e ← on_queue (get_expires x);
          on_queue (set_expires x (ktime_add e (period t)));;
          set_enabled x 1;;
          warn_on (timerqueue_add x)
        else mret tt);; k) Q d.
Proof.
  intros I Hfit He Hnow Hk. destruct (ci_expires _ _ _ _ _ x e I) as (Hex & Hr & Hx); [set_solver +|].
  pose proof (abs_nodup _ _ _ (ci_queue _ _ _ _ _ I)) as Hnd. cbn in Hnd. apply NoDup_cons in Hnd as [Hout _].
  pose proof (fits_period _ _ _ I Hfit Hx) as Hp.
  apply (delist ops horizon U d ((x, e) :: l)); [done|set_solver +|]. intros d1 I1 Qu1.
  rewrite filter_cons_False, filter_out in I1 by (cbn; tauto || done).
  pose proof (kept_quiet _ _ Qu1) as K1. pose proof (fits_kept _ _ Hfit K1) as Hf1.
  destruct (ci_timer_get _ _ _ _ _ _ I1 Hx) as (t & Eg & Ht & _).
  eapply rwp_eq; [exact Eg|]. apply (rwp_call U d1 l x t); [done..|].
  intros d2 I2 Eq2 Et2 Ec2 Ew2 Ecalls2 Ea2 Eu2.
  assert (kept d1 d2) as K2 by (split; unfold period_of, func_of; by rewrite ?Et2).
  assert (calls d2 = calls d ++ calls_of hasf x) as Hcalls.
  { rewrite Ecalls2, (st_calls _ _ (qu_still _ _ Qu1)). unfold calls_of. by rewrite (proj2 (Hf1 x Hx)). }
  assert (period t = per x) as Hpt.
  { destruct (Hf1 x Hx) as [Hpx _]. unfold period_of in Hpx. rewrite Ht in Hpx. by injection Hpx as <-. }
  eapply rwp_eq; [unfold get_timer; by rewrite Et2, Ht|]. rewrite Hpt. apply rwp_bind.
  unfold expire_first in Hk. unfold truth. destruct (Z.eqb_spec (per x) 0) as [H0|H0]; cbn [negb].
  { apply rwp_ret, Hk; [done|by eapply keeps_trans| |done]. by rewrite Ec2, (qu_chip _ _ Qu1). }
  assert (expires (rtc_queue d2) !! x = Some e) as Hex2 by (by rewrite Eq2, (st_expires _ _ (qu_still _ _ Qu1))).
  eapply rwp_eq; [by apply queue_expires|]. unfold ktime_add.
  assert (0 ≤ e + per x ≤ KMAX) as Hr' by (unfold PMAX, top in *; lia).
  rewrite s64_id by (unfold KMAX, NSEC_PER_SEC in *; lia).
  apply (rwp_set_expires U d2 l); [done..|]. intros d3 I3 Ex3 Et3 Ec3 Ew3 Ecalls3 Ea3 Eu3 _.
  assert (kept d2 d3) as K3 by (split; unfold period_of, func_of; by rewrite ?Et3).
  assert (rwp (set_enabled x 1;; warn_on (timerqueue_add x);; mret tt) (λ _, rwp k Q) d3) as Hw.
  { apply (enlist ops horizon U d3 l x (e + per x)); [done..|by rewrite Ex3, lookup_insert_eq|].
    intros d4 I4 Qu4 _ _. apply rwp_ret, Hk; [done|do 3 (eapply keeps_trans; [eassumption|]); by apply kept_quiet| |].
    - by rewrite (qu_chip _ _ Qu4), Ec3, Ec2, (qu_chip _ _ Qu1).
    - by rewrite (st_calls _ _ (qu_still _ _ Qu4)), Ecalls3. }
  unfold rwp, mbind, rtcM_bind in Hw |- *. destruct (set_enabled x 1 d3) as [[[] d4]| |]; [|done..].
  by destruct (warn_on (timerqueue_add x) d4) as [[[] d5]| |].
Qed.

Lemma keeps_refl d : kept d d.
Proof. by split. Qed.

Lemma sorted_later (l : list (Z * Z)) x e now y c :
  sorted snd ((x, e) :: l) → now < e → (y, c) ∈ (x, e) :: l → now < c.
Proof.
  intros [_ Hs]%StronglySorted_inv Hlt [[= -> ->]|Hy]%elem_of_cons; [done|].
  rewrite Forall_forall in Hs. specialize (Hs (y, c) Hy). cbn in Hs. lia.
Qed.

Lemma core_sorted d l : core_inv U d l → sorted snd l.
Proof.
  intros I. pose proof (ci_queue _ _ _ _ _ I) as [J He]. pose proof (tq_sorted _ _ _ J) as Hs. clear I J.
  unfold sorted in *. induction l as [|[x e] l IH]; [constructor|]. cbn in Hs.
  apply StronglySorted_inv in Hs as [Hs Hx]. constructor; [apply IH; [|done]; set_solver|].
  apply Forall_forall. intros [y c] Hy. rewrite Forall_forall in Hx.
  specialize (Hx y (list_elem_of_fmap_2 fst _ _ Hy)). unfold ex_of in Hx.
  rewrite (He x e), (He y c) in Hx by set_solver. done.
Qed.

Lemma expire_loop_ok now fuel d l :
  core_inv U d l → fits d → now ≤ top → (total_due now per l < fuel)%nat →
  rwp (expire_loop fuel now) (λ next d', ∃ l' fired,
    core_inv U d' l' ∧ next = default 0 (head l'.*1) ∧ expired now per hasf l l' fired ∧
    calls d' = calls d ++ fired ∧ chip d' = chip d ∧ kept d d' ∧
    (total_due top per l' ≤ total_due top per l)%nat) d.
Proof.
  intros I Hfit Hnow. revert d l I Hfit. induction fuel as [|fuel IH]; intros d l I Hfit Hf; [lia|].
  cbn [expire_loop]. eapply rwp_eq; [by apply (queue_next ops horizon U)|].
  destruct l as [|[x e] l].
  { apply rwp_ret. exists [], []. split_and!; [done|done|apply expired_done; set_solver|by rewrite app_nil_r|done|apply keeps_refl|done]. }
  destruct (ci_expires _ _ _ _ _ x e I) as (Hex & Hr & Hx); [set_solver +|].
  cbn [fmap list_fmap head default from_option id fst]. rewrite (ci_ptr _ _ _ _ _ _ I Hx).
  eapply rwp_eq; [by apply queue_expires|]. destruct (Z.ltb_spec now e) as [Hlt|Hge].
  { apply rwp_ret. exists ((x, e) :: l), []. split_and!; [done|done| |by rewrite app_nil_r|done|apply keeps_refl|done].
    apply expired_done. intros y c. eapply sorted_later; [by eapply core_sorted|done]. }
  pose proof (fits_period _ _ _ I Hfit Hx) as Hp. rewrite total_due_first in Hf by lia.
  apply (expire_round d l x e _ _ now); [done..|]. intros d1 I1 K1 Ec1 Ecalls1.
  eapply rwp_mono; [apply (IH d1 (expire_first per x e l)); [done|by eapply fits_kept|lia]|].
  intros next d2 (l' & fired & I2 & Hn & Hexp & Ecalls2 & Ec2 & K2 & Hle). exists l', (calls_of hasf x ++ fired).
  split_and!; [done|done| |by rewrite Ecalls2, Ecalls1, app_assoc|by rewrite Ec2|by eapply keeps_trans|].
  - apply expired_step; [by apply (abs_nodup _ _ _ (ci_queue _ _ _ _ _ I))|lia|lia|done].
  - rewrite (total_due_first top) by lia. lia.
Qed.

Lemma due_mono now now' e p : now ≤ now' → 0 ≤ p → (due now e p ≤ due now' e p)%nat.
Proof.
  intros Hn Hp. unfold due. destruct (Z.ltb_spec now e); [lia|]. rewrite (proj2 (Z.ltb_ge now' e)) by lia.
  destruct (Z.eqb_spec p 0); [done|]. assert ((now - e) / p ≤ (now' - e) / p) by (apply Z.div_le_mono; lia). lia.
Qed.

Lemma total_due_mono d l now : core_inv U d l → fits d → now ≤ top → (total_due now per l ≤ total_due top per l)%nat.
Proof.
  intros I Hfit Hn. assert (∀ x e, (x, e) ∈ l → 0 ≤ per x) as Hp.
  { intros x e Hx. destruct (ci_expires _ _ _ _ _ x e I Hx) as (_ & _ & HxU). by apply (fits_period _ _ _ I Hfit). }
  clear I. induction l as [|[x e] l IH]; [done|]. cbn.
  pose proof (due_mono now top e (per x) Hn (Hp x e ltac:(set_solver +))).
  assert (total_due now per l ≤ total_due top per l)%nat by (apply IH; set_solver). unfold total_due in *. lia.
Qed.

(** the alarm of the first timer is set, and its time has not come *)
Definition waiting (now : Z) (d : rtc_device H) (l : list (Z * Z)) : Prop :=
  match l with
  | [] => True
  | (x, e) :: _ => now < e ∧
      ((alarm_on (chip d) = true ∧ alarm_at (chip d) = sec_up e) ∨ horizon < sec_up e)
  end.

Lemma sec_up_later now e : now * NSEC_PER_SEC < e → now < sec_up e.
Proof. unfold sec_up, NSEC_PER_SEC. intros He. apply Z.lt_le_trans with (now + 1); [lia|]. apply Z.div_le_lower_bound; lia. Qed.

Lemma work_loop_ok rounds fuel d l :
  core_inv U d l → fits d → horizon - clock (chip d) < Z.of_nat rounds → (total_due top per l < fuel)%nat →
  rwp (work_loop rounds fuel) (λ _ d', ∃ now l' fired,
    core_inv U d' l' ∧ clock (chip d) ≤ now ≤ clock (chip d') ∧ expired (now * NSEC_PER_SEC) per hasf l l' fired ∧
    calls d' = calls d ++ fired ∧ kept d d' ∧ waiting (now * NSEC_PER_SEC) d' l') d.
Proof.
  revert d l. induction rounds as [|rounds IH]; intros d l I Hfit Hr Hf.
  { pose proof (clock_range _ (ci_chip _ _ _ _ _ I)). lia. }
  cbn [work_loop]. apply rwp_bind, (rwp_read_time ops horizon U d l); [done|]. intros tm h1 Hok1 Hle1 Hv Hs _ _.
  apply rwp_bind, rwp_ret. set (d1 := with_chip h1 d). pose proof (core_inv_chip _ _ _ _ _ h1 I Hok1) as I1. fold d1 in I1.
  pose proof (clock_range _ Hok1) as Hc1. rewrite rtc_tm_to_ktime_ok, Hs by (done || lia).
  assert (kept d d1) as K1 by (by split). pose proof (fits_kept _ _ Hfit K1) as Hfit1.
  assert (clock h1 * NSEC_PER_SEC ≤ top) as Htop by (unfold top, NSEC_PER_SEC; lia).
  apply rwp_bind. eapply rwp_mono; [apply (expire_loop_ok (clock h1 * NSEC_PER_SEC) fuel d1 l);
    [done..|]; pose proof (total_due_mono d l _ I Hfit Htop); lia|].
  intros next d2 (l2 & f2 & I2 & -> & Hexp & Ecalls & Ec2 & K2 & Hle2).
  assert (kept d d2) as K by (by eapply keeps_trans). cbn [chip with_chip d1] in Ec2.
  destruct l2 as [|[x e] l2].
  { apply rwp_ret. exists (clock h1), [], f2. rewrite Ec2. split_and!; try done; lia. }
  destruct (ci_expires _ _ _ _ _ x e I2) as (Hex & Hre & Hx); [set_solver +|].
  cbn [fmap list_fmap head default from_option id fst]. rewrite (ci_ptr _ _ _ _ _ _ I2 Hx).
  assert (clock h1 * NSEC_PER_SEC < e) as Hlate by (apply (exp_later _ _ _ _ _ _ Hexp x); set_solver +).
  eapply rwp_eq; [by apply queue_expires|]. apply (set_for ops horizon horizon_small U d2 ((x, e) :: l2)); [done..|].
  intros err h3 Hok3 Hle3 Hout. rewrite Ec2 in Hle3. set (d3 := with_chip h3 d2).
  assert (kept d d3) as K3 by (eapply keeps_trans; [exact K|by split]).
  pose proof (core_inv_chip _ _ _ _ _ h3 I2 Hok3) as I3. fold d3 in I3.
  assert ((alarm_on h3 = true ∧ alarm_at h3 = sec_up e) ∨ horizon < sec_up e →
    rwp (mret tt) (λ _ d', ∃ now l' fired, core_inv U d' l' ∧ clock (chip d) ≤ now ≤ clock (chip d') ∧
      expired (now * NSEC_PER_SEC) per hasf l l' fired ∧ calls d' = calls d ++ fired ∧ kept d d' ∧
      waiting (now * NSEC_PER_SEC) d' l') d3) as Hend.
  { intros Ha. apply rwp_ret. exists (clock h1), ((x, e) :: l2), f2. cbn [chip with_chip d3]. split_and!; try done; lia. }
  destruct Hout as [(-> & Hpast & _ & _)|[(-> & Ea & Eo)|(Hneg & Hnt & Hh & _ & _)]].
  - cbn [Z.eqb]. rewrite Z.eqb_refl. pose proof (sec_up_later _ _ Hlate).
    eapply rwp_mono; [apply (IH d3 ((x, e) :: l2)); [done|by apply (fits_kept d)|cbn [chip with_chip d3]; lia|lia]|].
    intros _ d4 (now & l' & f4 & I4 & Hnow & Hexp4 & Ecalls4 & K4 & Hw4). cbn [chip with_chip d3] in Hnow.
    exists now, l', (f2 ++ f4). split_and!; [done|lia|lia| |rewrite Ecalls4, app_assoc; cbn [calls with_chip d3]; by rewrite Ecalls|by eapply keeps_trans|done].
    eapply expired_trans; [by apply (abs_nodup _ _ _ (ci_queue _ _ _ _ _ I))| | |exact Hexp|exact Hexp4].
    + unfold NSEC_PER_SEC. lia.
    + intros y c Hy. destruct (ci_expires _ _ _ _ _ y c I Hy) as (_ & _ & HyU). by apply (fits_period _ _ _ I Hfit).
  - apply Hend. by left.
  - rewrite (proj2 (Z.eqb_neq _ _)) by done. apply Hend. by right.
Qed.

End Loop.
End Work.
