(* ===== verification/RtcSteps.v ===== *)
(** * Sequences of calls of the RTC core *)
From stdpp Require Import sorting.
From S2P Require Import Prelude RtcLib Rbtree RbtreeInv RbtreeBal RbtreeList Timerqueue RtcCore RtcInv RtcWork.

(** switching the alarm interrupt off is [RtcAieOff] *)
Inductive rtc_call :=
  | RtcStart (x e p : Z)
  | RtcCancel (x : Z)
  | RtcSetAlarm (lck : Z) (alarm : rtc_wkalrm)
  | RtcAieOn (lck : Z)
  | RtcAieOff (lck : Z)
  | RtcUie (lck : Z) (on : bool)
  | RtcSetTime (lck : Z) (tm : rtc_time)
  | RtcIrq
  | RtcWork.

Section Steps.
Context {H : Type} (ops : rtc_class_ops H) (horizon : Z) `{!rtc_chip ops horizon}.
Hypothesis horizon_small : horizon < 2 ^ 31 - 1.

#[local] Abbreviation core_inv := (core_inv ops horizon).
#[local] Abbreviation rtc_inv := (rtc_inv ops horizon).

(** enough rounds of the loops of the work: the clock ticks at most [horizon] times, and
    each timer expires at most so often by then *)
Definition work_rounds : nat := S (Z.to_nat horizon).
Definition due_at (d : rtc_device H) (x : Z) : nat :=
  due (top horizon) (ex_of (rtc_queue d) x) (default 0 (period_of d x)).
Definition work_fuel (d : rtc_device H) : nat :=
  S (sum_list_with (due_at d) (map_to_list (rtc_timers d)).*1).

Definition rtc_do (c : rtc_call) : rtcM H Z :=
  match c with
  | RtcStart x e p => rtc_timer_start x e p
  | RtcCancel x => rtc_timer_cancel x
  | RtcSetAlarm lck a => rtc_set_alarm lck a
  | RtcAieOn lck => rtc_alarm_irq_enable lck 1
  | RtcAieOff lck => rtc_alarm_irq_enable lck 0
  | RtcUie lck on => rtc_update_irq_enable lck (c_bool on)
  | RtcSetTime lck tm => rtc_set_time lck tm
  | RtcIrq => rtc_update_irq;; mret 0
  | RtcWork => (λ d, rtc_timer_do_work work_rounds (work_fuel d) d);; mret 0
  end.

Fixpoint rtc_run (cs : list rtc_call) : rtcM H (list Z) :=
  match cs with
  | [] => mret []
  | c :: cs => r ← rtc_do c; rs ← rtc_run cs; mret (r :: rs)
  end.

(** ** What the calls promise *)
Definition without (x : Z) (l : list (Z * Z)) : list (Z * Z) := filter (λ p, p.1 ≠ x) l.

(** the timer is queued, unless it is the first and its time is beyond the clock *)
Definition added (x e : Z) (l : list (Z * Z)) (err : Z) (l' : list (Z * Z)) : Prop :=
  (err = 0 ∧ l' = enqueue snd (x, e) l) ∨ (err < 0 ∧ horizon < sec_up e ∧ l' = l).

Definition rtc_spec (aie uie : Z) (c : rtc_call) (l : list (Z * Z)) (err : Z) (l' : list (Z * Z)) : Prop :=
  match c with
  | RtcStart x e _ => added x e (without x l) err l'
  | RtcCancel x => err = 0 ∧ l' = without x l
  | RtcSetAlarm lck a =>
      (¬ valid_date (al_time a) ∧ err = - EINVAL ∧ l' = l) ∨
      (valid_date (al_time a) ∧
       if truth lck then err = lck ∧ l' = l
       else if truth (al_enabled a) then added aie (secs_of (al_time a) * NSEC_PER_SEC) (without aie l) err l'
       else err = 0 ∧ l' = without aie l)
  | RtcAieOn lck =>
      if truth lck then err = lck ∧ l' = l
      else if queued l aie then err = 0 ∧ l' = l
      else ∃ e, added aie e l err l'
  | RtcAieOff lck => if truth lck then err = lck ∧ l' = l else err = 0 ∧ l' = without aie l
  | RtcUie lck on =>
      if truth lck then err = lck ∧ l' = l
      else if Bool.eqb (queued l uie) on then err = 0 ∧ l' = l
      else if on then ∃ now, 0 ≤ now ≤ horizon ∧ added uie ((now + 1) * NSEC_PER_SEC) l err l'
      else err = 0 ∧ l' = without uie l
  | RtcSetTime lck tm =>
      l' = l ∧ ((¬ valid_date tm ∧ err = - EINVAL) ∨ (valid_date tm ∧ if truth lck then err = lck else err ≤ 0))
  | RtcIrq => err = 0 ∧ l' = l
  | RtcWork => err = 0 ∧ ∃ now per hasf fired, 0 ≤ now ≤ horizon ∧ expired (now * NSEC_PER_SEC) per hasf l l' fired
  end.

(** whether the alarm still serves the queue ([b]) after a call: switching the alarm
    interrupt off takes it away from the other timers; an interrupt or the work gives it back *)
Definition serves (aie : Z) (b : bool) (c : rtc_call) (l : list (Z * Z)) : bool :=
  match c with
  | RtcAieOff lck => b && (truth lck || bool_decide (without aie l = []))
  | RtcIrq | RtcWork => true
  | _ => b
  end.

(** the arguments of a call: known timers, times before 2038, and a new time that the clock
    can show *)
Definition call_ok (U : gset Z) (c : rtc_call) : Prop :=
  match c with
  | RtcStart x e p => x ∈ U ∧ 0 ≤ e ≤ KMAX ∧ 0 ≤ p ≤ PMAX horizon
  | RtcCancel x => x ∈ U
  | RtcSetAlarm _ a => is_int_tm (al_time a) ∧ (valid_date (al_time a) → secs_of (al_time a) < 2 ^ 31)
  | RtcSetTime _ tm => is_int_tm tm ∧ (valid_date tm → secs_of tm ≤ horizon)
  | _ => True
  end.

Lemma without_out x l : x ∉ (without x l).*1.
Proof. intros ([y c] & Hy & [Hf _]%list_elem_of_filter)%list_elem_of_fmap. cbn in *. by subst y. Qed.

Lemma PMAX_pos : NSEC_PER_SEC ≤ PMAX horizon.
Proof. unfold PMAX, KMAX, NSEC_PER_SEC. lia. Qed.

(** ** A timer is taken out if it is in *)
Lemma rwp_take_out b U d l x {A} (k : rtcM H A) Q :
  rtc_inv b U d l → x ∈ U →
  (∀ d', rtc_inv b U d' (without x l) → still d d' → rwp k Q d') →
  rwp (t ← get_timer x; (if truth (enabled t) then rtc_timer_remove x else mret tt);; k) Q d.
Proof.
  intros [I HA] Hx Hk. destruct (ci_timer_get _ _ _ _ _ _ I Hx) as (t & Eg & _ & He & _).
  eapply rwp_eq; [exact Eg|]. apply rwp_bind. rewrite He. unfold queued. case_bool_decide as Hin; cbn [c_bool truth Z.eqb negb].
  - eapply rwp_mono; [by apply (rtc_timer_remove_ok ops horizon horizon_small b U d l)|]. intros _ d' [Hst HI]. by apply Hk.
  - apply rwp_ret, Hk; [|apply still_refl]. unfold without. by rewrite filter_out.
Qed.

(** ... and put in with a new time *)
Lemma rwp_put_in b U d l x e p :
  rtc_inv b U d l → x ∈ U → x ∉ l.*1 → 0 ≤ e ≤ KMAX → 0 ≤ p ≤ PMAX horizon →
  rwp (on_queue (set_expires x e);; set_period x p;; rtc_timer_enqueue x)
    (λ err d', ∃ l', rtc_inv b U d' l' ∧ added x e l err l' ∧ aie_timer d' = aie_timer d ∧ uie_rtctimer d' = uie_rtctimer d) d.
Proof.
  intros [I HA] Hx Hout He Hp. apply (rwp_set_expires ops horizon U d l); [done..|].
  intros d1 I1 Ex1 Et1 Ec1 Ew1 _ Ea1 Eu1 _. apply (rwp_set_period ops horizon U d1 l); [done..|].
  intros d2 I2 Eq2 Ec2 Ew2 _ Ea2 Eu2 _.
  assert (b = true → armed ops horizon d2 l) as HA2.
  { intros Hb. apply (armed_same ops horizon d l); rewrite ?Ec2, ?Ec1, ?Ew2, ?Ew1; auto. }
  eapply rwp_mono; [apply (rtc_timer_enqueue_ok ops horizon horizon_small b U d2 l x e); [done..|by rewrite Eq2, Ex1, lookup_insert_eq]|].
  intros err d3 [Hst Hc]. destruct Hst as [_ _ _ _ Ea3 Eu3].
  destruct Hc as [[-> HI]|(? & ? & HI)]; eexists; (split; [exact HI|]); (split; [by (by left) || by right|split; congruence]).
Qed.

(** the call [c] keeps the invariant and does what it promises *)
Definition step_ok (b : bool) (U : gset Z) (c : rtc_call) (d : rtc_device H) (l : list (Z * Z)) (m : rtcM H Z) : Prop :=
  rwp m (λ err d', ∃ l', rtc_inv (serves (aie_timer d) b c l) U d' l' ∧ rtc_spec (aie_timer d) (uie_rtctimer d) c l err l' ∧
    aie_timer d' = aie_timer d ∧ uie_rtctimer d' = uie_rtctimer d) d.

Lemma start_ok b U d l x e p :
  rtc_inv b U d l → call_ok U (RtcStart x e p) → step_ok b U (RtcStart x e p) d l (rtc_timer_start x e p).
Proof.
  intros HI (Hx & He & Hp). apply (rwp_take_out b U d l); [done..|]. intros d1 I1 Hst.
  eapply rwp_mono; [apply (rwp_put_in b U d1 (without x l)); [done|done|apply without_out|done..]|].
  intros err d2 (l' & I2 & Hadd & Ea & Eu). exists l'. rewrite Ea, Eu, (st_aie _ _ Hst), (st_uie _ _ Hst). done.
Qed.

Lemma cancel_ok b U d l x :
  rtc_inv b U d l → x ∈ U → step_ok b U (RtcCancel x) d l (rtc_timer_cancel x).
Proof.
  intros HI Hx. apply (rwp_take_out b U d l); [done..|]. intros d1 I1 [_ _ _ _ Ea Eu]. apply rwp_ret. by eexists.
Qed.

Lemma set_alarm_ok b U d l lck a :
  rtc_inv b U d l → call_ok U (RtcSetAlarm lck a) →
  step_ok b U (RtcSetAlarm lck a) d l (rtc_set_alarm lck a).
Proof.
  intros HI [Hint Hs]. unfold step_ok, rtc_set_alarm. eapply rwp_eq; [done|]. apply rwp_bind.
  destruct (rtc_valid_tm_ok _ Hint) as [[E Hv]|[E Hv]]; eapply rwp_lift; try exact E.
  2: { apply rwp_ret. exists l. split_and!; [done|by left|done|done]. }
  cbn [truth Z.eqb negb]. destruct (truth lck) eqn:El.
  { apply rwp_ret. exists l. split_and!; [done|right; by rewrite El|done|done]. }
  assert (aie_timer d ∈ U) as Ha by exact (ci_aie _ _ _ _ _ (proj1 HI)). pose proof (secs_of_nonneg _ Hv). specialize (Hs Hv).
  apply (rwp_take_out b U d l); [done..|]. intros d1 I1 Hst.
  rewrite rtc_tm_to_ktime_ok by done. set (e := secs_of (al_time a) * NSEC_PER_SEC).
  assert (0 ≤ e ≤ KMAX) as He by (unfold e, KMAX, NSEC_PER_SEC; lia).
  assert (0 ≤ ktime_set 0 0 ≤ PMAX horizon) as Hp by (pose proof PMAX_pos; replace (ktime_set 0 0) with 0 by reflexivity; unfold NSEC_PER_SEC in *; lia).
  destruct (truth (al_enabled a)) eqn:Een.
  - eapply rwp_mono; [apply (rwp_put_in b U d1 (without (aie_timer d) l)); [done|done|apply without_out|done..]|].
    intros err d2 (l' & I2 & Hadd & Ea & Eu). exists l'. rewrite Ea, Eu, (st_aie _ _ Hst), (st_uie _ _ Hst).
    split_and!; [done| |done|done]. right. rewrite El, Een. done.
  - destruct I1 as [I1 HA1]. apply (rwp_set_expires ops horizon U d1 (without (aie_timer d) l)); [done|done|apply without_out|done|].
    intros d2 I2 _ _ Ec2 Ew2 _ Ea2 Eu2 _. apply (rwp_set_period ops horizon U d2 (without (aie_timer d) l)); [done..|].
    intros d3 I3 _ Ec3 Ew3 _ Ea3 Eu3 _. apply rwp_ret. exists (without (aie_timer d) l).
    destruct Hst as [_ _ _ _ Ea Eu]. split_and!; [split; [done|]| |congruence|congruence].
    + intros Hb. apply (armed_same ops horizon d1 (without (aie_timer d) l)); rewrite ?Ec3, ?Ec2, ?Ew3, ?Ew2; auto.
    + right. by rewrite El, Een.
Qed.

Lemma chip_irq U d l v Q :
  core_inv U d l →
  (∀ h', chip_ok h' → alarm_at h' = alarm_at (chip d) → alarm_on h' = truth v → Q 0 (with_chip h' d)) →
  rwp (ops ← get_ops;
       match ops with
       | None => mret (- ENODEV)
       | Some ops => match ops_alarm_irq_enable ops with None => mret (- EINVAL) | Some f => on_chip (f v) end
       end) Q d.
Proof.
  intros I HQ. destruct alarm_irq_law as (f & Ef & Hf). destruct (Hf v (chip d)) as (h' & E & ?&?&?&?); [by apply I|].
  unfold rwp, get_ops, on_chip, mbind, rtcM_bind. rewrite (ci_ops _ _ _ _ _ I), Ef, E. by apply HQ.
Qed.

Lemma armed_on d l h :
  armed ops horizon d l → alarm_at h = alarm_at (chip d) → alarm_on h = true → armed ops horizon (with_chip h d) l.
Proof. unfold armed. destruct l as [|[x e] l]; [done|]. cbn. intros [?|[[_ ?]|?]] Ha Ho; [by left|right; left|by right; right]. split; congruence. Qed.

Lemma aie_on_ok b U d l lck : rtc_inv b U d l → step_ok b U (RtcAieOn lck) d l (rtc_alarm_irq_enable lck 1).
Proof.
  intros [I HA]. unfold step_ok, rtc_alarm_irq_enable. cbn [rtc_spec]. eapply rwp_eq; [done|].
  destruct (truth lck) eqn:El; [apply rwp_ret; by exists l|].
  assert (aie_timer d ∈ U) as Ha by exact (ci_aie _ _ _ _ _ I). destruct (ci_timer_get _ _ _ _ _ _ I Ha) as (t & Eg & _ & He & _).
  eapply rwp_eq; [exact Eg|]. rewrite He. destruct (queued l (aie_timer d)) eqn:Hq; cbn [c_bool Z.eqb Pos.eqb negb truth].
  - apply rwp_bind, rwp_ret. cbn [truth Z.eqb negb]. apply (chip_irq U d l); [done|]. intros h' Hok Eat Eon.
    exists l. split_and!; [split; [by apply core_inv_chip|intros Hb; apply armed_on; auto]|done..].
  - apply bool_decide_eq_false in Hq. destruct (ci_timer _ _ _ _ _ I _ Ha) as (_ & e & _ & _ & _ & Hex & _).
    apply rwp_bind. eapply rwp_mono; [by apply (rtc_timer_enqueue_ok ops horizon horizon_small b U d l _ e)|].
    intros err d1 [[_ _ _ _ Ea Eu] [[-> [I1 HA1]]|(Hneg & Hh & I1)]].
    + cbn [truth Z.eqb negb]. apply (chip_irq U d1 _ _ _ I1). intros h' Hok Eat Eon. eexists.
      split_and!; [split; [by apply core_inv_chip|intros Hb; apply armed_on; auto]|exists e; by left|done|done].
    + unfold truth. rewrite (proj2 (Z.eqb_neq err 0)) by lia. apply rwp_ret. exists l. split_and!; [done| |done|done].
      exists e. by right.
Qed.

Lemma aie_off_ok b U d l lck :
  rtc_inv b U d l → step_ok b U (RtcAieOff lck) d l (rtc_alarm_irq_enable lck 0).
Proof.
  intros [I HA]. unfold step_ok, rtc_alarm_irq_enable. cbn [rtc_spec serves]. eapply rwp_eq; [done|].
  destruct (truth lck) eqn:El; [apply rwp_ret; exists l; by rewrite andb_true_r|].
  assert (aie_timer d ∈ U) as Ha by exact (ci_aie _ _ _ _ _ I). destruct (ci_timer_get _ _ _ _ _ _ I Ha) as (t & Eg & _ & He & _).
  set (l1 := without (aie_timer d) l).
  assert (∀ d1, core_inv U d1 l1 → aie_timer d1 = aie_timer d → uie_rtctimer d1 = uie_rtctimer d →
    rwp (ops ← get_ops;
       match ops with
       | None => mret (- ENODEV)
       | Some ops => match ops_alarm_irq_enable ops with None => mret (- EINVAL) | Some f => on_chip (f 0) end
       end) (λ err d', ∃ l', rtc_inv (b && (false || bool_decide (l1 = []))) U d' l' ∧ (err = 0 ∧ l' = l1) ∧
         aie_timer d' = aie_timer d ∧ uie_rtctimer d' = uie_rtctimer d) d1) as Hend.
  { intros d1 I1 Ea Eu. apply (chip_irq U d1 _ _ _ I1). intros h' Hok Eat Eon. exists l1.
    split; [|done]. split; [by apply core_inv_chip|]. intros [_ Hn]%andb_prop. cbn [orb] in Hn.
    apply bool_decide_eq_true in Hn. by rewrite Hn. }
  eapply rwp_eq; [exact Eg|]. rewrite He. unfold queued.
  destruct (bool_decide_reflect (aie_timer d ∈ l.*1)) as [Hq|Hq]; cbn [c_bool Z.eqb negb truth].
  - apply rwp_bind, rwp_bind. eapply rwp_mono; [by apply (rtc_timer_remove_ok ops horizon horizon_small b U d l)|].
    intros _ d1 [[_ _ _ _ Ea Eu] [I1 _]]. apply rwp_ret. cbn [truth Z.eqb negb]. by apply Hend.
  - apply rwp_bind, rwp_ret. cbn [truth Z.eqb negb]. apply Hend; [|done..]. unfold l1, without. by rewrite filter_out.
Qed.

Lemma uie_ok b U d l lck on : rtc_inv b U d l → step_ok b U (RtcUie lck on) d l (rtc_update_irq_enable lck (c_bool on)).
Proof.
  intros [I HA]. unfold step_ok, rtc_update_irq_enable. cbn [rtc_spec]. eapply rwp_eq; [done|].
  destruct (truth lck) eqn:El; [apply rwp_ret; by exists l|].
  assert (uie_rtctimer d ∈ U) as Hu by exact (ci_uie _ _ _ _ _ I).
  destruct (ci_timer_get _ _ _ _ _ _ I Hu) as (t & Eg & _ & He & _).
  eapply rwp_eq; [exact Eg|]. rewrite He. unfold queued.
  case_bool_decide as Hq; destruct on; cbn [c_bool Z.eqb Pos.eqb negb truth Bool.eqb]; try (apply rwp_ret; by exists l).
  - apply rwp_bind. eapply rwp_mono; [by apply (rtc_timer_remove_ok ops horizon horizon_small b U d l)|].
    intros _ d1 [[_ _ _ _ Ea Eu] I1]. apply rwp_ret. by eexists.
  - apply rwp_bind, (rwp_read_time ops horizon U d l); [done|]. intros tm h1 Hok Hle Hv Hs Eat Eon.
    apply rwp_bind, rwp_ret. pose proof (clock_range h1 Hok) as Hc. pose proof PMAX_pos as Hp.
    rewrite rtc_tm_to_ktime_ok, Hs by (done || lia).
    replace (ktime_set 1 0) with NSEC_PER_SEC by reflexivity. unfold ktime_add.
    replace (clock h1 * NSEC_PER_SEC + NSEC_PER_SEC) with ((clock h1 + 1) * NSEC_PER_SEC) by lia.
    rewrite s64_id by (unfold NSEC_PER_SEC; lia).
    eapply rwp_mono; [apply (rwp_put_in b U (with_chip h1 d) l); try done|].
    + split; [by apply core_inv_chip|]. intros Hb. apply (armed_same ops horizon d l); auto.
    + unfold KMAX, NSEC_PER_SEC in *. lia.
    + intros err d2 (l' & I2 & Hadd & Ea & Eu). exists l'. split_and!; [done| |done|done]. exists (clock h1). by split.
Qed.

Lemma irq_ok b U d l : rtc_inv b U d l → step_ok b U RtcIrq d l (rtc_do RtcIrq).
Proof.
  intros [I HA]. unfold step_ok, rwp. cbn. exists l. split; [|done]. split; [by apply core_inv_work|].
  intros _. destruct l as [|[x e] l]; [done|by left].
Qed.

Lemma set_time_ok b U d l lck tm :
  rtc_inv b U d l → call_ok U (RtcSetTime lck tm) → step_ok b U (RtcSetTime lck tm) d l (rtc_set_time lck tm).
Proof.
  intros [I HA] [Hint Hs]. unfold step_ok, rtc_set_time. cbn [rtc_spec serves]. apply rwp_bind.
  destruct (rtc_valid_tm_ok _ Hint) as [[E Hv]|[E Hv]]; eapply rwp_lift; try exact E.
  2: { apply rwp_ret. exists l. split; [done|]. split; [|done]. split; [done|by left]. }
  cbn [truth Z.eqb negb]. destruct (truth lck) eqn:El.
  { apply rwp_ret. exists l. split; [done|]. split; [|done]. split; [done|by right]. }
  destruct set_time_law as (f & Ef & Hf). destruct (Hf tm (chip d)) as (err & h' & Eh & Hok & He & _ & Eat & Eon); [apply I|done|auto|].
  unfold rwp, get_ops, on_chip, mbind, rtcM_bind. rewrite (ci_ops _ _ _ _ _ I), Ef, Eh. exists l.
  split; [split; [by apply core_inv_chip|]|].
  - intros Hb. apply (armed_same ops horizon d l); auto.
  - split; [|done]. split; [done|by right].
Qed.

(** ** The work *)
Definition per_of (d : rtc_device H) (x : Z) : Z := default 0 (period_of d x).

Lemma sum_sub (g : Z → nat) (a b : list Z) :
  NoDup a → (∀ x, x ∈ a → x ∈ b) → (sum_list_with g a ≤ sum_list_with g b)%nat.
Proof.
  intros Hnd Hin. apply NoDup_submseteq in Hin; [|done]. apply submseteq_Permutation in Hin as [k Hk].
  rewrite Hk, sum_list_with_app. lia.
Qed.

Lemma work_fuel_enough U d l :
  core_inv U d l → (total_due (top horizon) (per_of d) l < work_fuel d)%nat.
Proof.
  intros I. pose proof (abs_nodup _ _ _ (ci_queue _ _ _ _ _ I)) as Hnd. unfold work_fuel. apply Nat.lt_succ_r.
  transitivity (sum_list_with (due_at d) l.*1).
  - assert (∀ x e, (x, e) ∈ l → ex_of (rtc_queue d) x = e) as He.
    { intros x e Hx. unfold ex_of. by rewrite (abs_expires _ _ _ (ci_queue _ _ _ _ _ I) x e Hx). }
    clear -He. unfold total_due. induction l as [|[x e] l IH]; [done|]. cbn. unfold due_at at 1.
    rewrite (He x e) by set_solver +. apply Nat.add_le_mono_l, IH. set_solver.
  - apply sum_sub; [done|]. intros x Hx.
    assert (x ∈ U) as HxU by (by apply (tq_known _ _ _ (abs_inv _ _ _ (ci_queue _ _ _ _ _ I)))).
    destruct (ci_timer _ _ _ _ _ I x HxU) as (t & _ & Ht & _). apply list_elem_of_fmap. exists (x, t).
    split; [done|]. by apply elem_of_map_to_list.
Qed.

Lemma fits_self U d l : core_inv U d l → fits U (per_of d) (has_func d) d.
Proof.
  intros I x Hx. split; [|done]. destruct (ci_timer _ _ _ _ _ I x Hx) as (t & _ & Ht & _).
  unfold per_of, period_of. by rewrite Ht.
Qed.

(** what the work does, and that it ends *)
Definition worked (U : gset Z) (d : rtc_device H) (l : list (Z * Z)) (d' : rtc_device H) : Prop :=
  ∃ now l' fired, rtc_inv true U d' l' ∧ clock (chip d) ≤ now ≤ clock (chip d') ∧
    expired (now * NSEC_PER_SEC) (per_of d) (has_func d) l l' fired ∧ calls d' = calls d ++ fired ∧
    waiting ops horizon (now * NSEC_PER_SEC) d' l' ∧ aie_timer d' = aie_timer d ∧ uie_rtctimer d' = uie_rtctimer d.

Lemma work_ok U d l :
  core_inv U d l → rwp (λ d, rtc_timer_do_work work_rounds (work_fuel d) d) (λ _, worked U d l) d.
Proof.
  intros I. set (d1 := with_work false d). assert (core_inv U d1 l) as I1 by (by apply core_inv_work).
  pose proof (work_loop_ok ops horizon horizon_small U (per_of d) (has_func d) work_rounds (work_fuel d) d1 l I1) as Hw.
  assert (rwp (work_loop work_rounds (work_fuel d)) (λ _, worked U d l) d1) as Hw1; [|exact Hw1].
  eapply rwp_mono; [apply Hw|].
  - apply (fits_self _ _ _ I1).
  - pose proof (clock_range _ (ci_chip _ _ _ _ _ I1)). unfold work_rounds. lia.
  - by apply (work_fuel_enough U).
  - intros _ d2 (now & l' & fired & I2 & Hn & Hexp & Ecalls & [_ _ _ Ea Eu] & Hwait). exists now, l', fired.
    split; [split; [done|]|split_and!; try done; apply Hn]. intros _. unfold armed, waiting in *.
    destruct l' as [|[x e] l']; [done|]. right. tauto.
Qed.

Lemma rtc_do_ok b U c d l :
  rtc_inv b U d l → call_ok U c → step_ok b U c d l (rtc_do c).
Proof.
  intros HI Hc. destruct c; cbn [rtc_do].
  - by apply start_ok.
  - by apply cancel_ok.
  - by apply set_alarm_ok.
  - by apply aie_on_ok.
  - by apply aie_off_ok.
  - by apply uie_ok.
  - by apply set_time_ok.
  - by apply irq_ok.
  - apply rwp_bind. eapply rwp_mono; [by apply (work_ok U d l), HI|].
    intros _ d' (now & l' & fired & I2 & Hn & Hexp & _ & _ & Ea & Eu). apply rwp_ret. exists l'.
    split; [exact I2|]. split; [|done]. split; [done|]. exists now, (per_of d), (has_func d), fired. split; [|done].
    pose proof (clock_range _ (ci_chip _ _ _ _ _ (proj1 HI))). pose proof (clock_range _ (ci_chip _ _ _ _ _ (proj1 I2))). lia.
Qed.

(** the queues in the course of the calls, with their results, and whether the alarm serves
    the queue *)
Inductive rtc_trace (aie uie : Z) : bool → list (Z * Z) → list rtc_call → list Z → bool → list (Z * Z) → Prop :=
  | rtc_trace_nil b l : rtc_trace aie uie b l [] [] b l
  | rtc_trace_cons b b' l c cs err errs l1 l2 :
      rtc_spec aie uie c l err l1 → rtc_trace aie uie (serves aie b c l) l1 cs errs b' l2 →
      rtc_trace aie uie b l (c :: cs) (err :: errs) b' l2.

Lemma rtc_run_ok b U cs d l :
  rtc_inv b U d l → Forall (call_ok U) cs →
  rwp (rtc_run cs) (λ errs d', ∃ b' l', rtc_inv b' U d' l' ∧
    rtc_trace (aie_timer d) (uie_rtctimer d) b l cs errs b' l') d.
Proof.
  intros HI Hc. revert b d l HI. induction Hc as [|c cs Hc _ IH]; intros b d l HI; cbn [rtc_run].
  { apply rwp_ret. exists b, l. split; [done|constructor]. }
  apply rwp_bind. eapply rwp_mono; [by apply (rtc_do_ok b U c d l)|].
  intros err d1 (l1 & I1 & Hspec & Ea & Eu). apply rwp_bind.
  eapply rwp_mono; [by apply (IH _ d1 l1 I1)|]. rewrite Ea, Eu.
  intros errs d2 (b2 & l2 & I2 & Htr). apply rwp_ret. exists b2, l2. split; [done|]. by econstructor.
Qed.

End Steps.
