(* ===== verification/RtcOmap.v ===== *)
(** * The real-time clock of the AM335x (drivers/rtc/rtc-omap.c, lib/bcd.c)

    The driver of the BCD clock, on the byte registers of the device, and the proof that
    it meets the laws of [rtc_chip]. What the hardware does by itself between two
    accesses is the parameter [elapse]; that it is a clock is the hypothesis
    [elapse_clock]. *)
From S2P Require Import Prelude RtcLib Rbtree RbtreeInv RbtreeBal RbtreeList Timerqueue RtcCore RtcInv.

(** ** lib/bcd.c *)
Definition bcd2bin (val : Z) : Z := Z.land val 0x0f + Z.shiftr val 4 * 10.
Definition bin2bcd (val : Z) : Z := u8 (Z.shiftl (val / 10) 4 + val `mod` 10).

(** ** Registers *)
Definition OMAP_RTC_SECONDS_REG : Z := 0x00.
Definition OMAP_RTC_MINUTES_REG : Z := 0x04.
Definition OMAP_RTC_HOURS_REG : Z := 0x08.
Definition OMAP_RTC_DAYS_REG : Z := 0x0c.
Definition OMAP_RTC_MONTHS_REG : Z := 0x10.
Definition OMAP_RTC_YEARS_REG : Z := 0x14.
Definition OMAP_RTC_ALARM_SECONDS_REG : Z := 0x20.
Definition OMAP_RTC_ALARM_MINUTES_REG : Z := 0x24.
Definition OMAP_RTC_ALARM_HOURS_REG : Z := 0x28.
Definition OMAP_RTC_ALARM_DAYS_REG : Z := 0x2c.
Definition OMAP_RTC_ALARM_MONTHS_REG : Z := 0x30.
Definition OMAP_RTC_ALARM_YEARS_REG : Z := 0x34.
Definition OMAP_RTC_STATUS_REG : Z := 0x44.
Definition OMAP_RTC_INTERRUPTS_REG : Z := 0x48.
Definition OMAP_RTC_IRQWAKEEN : Z := 0x7c.

Definition OMAP_RTC_STATUS_ALARM : Z := Z.shiftl 1 6.
Definition OMAP_RTC_STATUS_1S_EVENT : Z := Z.shiftl 1 2.
Definition OMAP_RTC_STATUS_BUSY : Z := Z.shiftl 1 0.
Definition OMAP_RTC_INTERRUPTS_IT_ALARM : Z := Z.shiftl 1 3.
Definition OMAP_RTC_IRQWAKEEN_ALARM_WAKEEN : Z := Z.shiftl 1 1.

(** the bytes of the registers, and how often the hardware moved on; [irqstat] is the
    variable of the driver *)
Record omap_rtc := OmapRtc { regs : gmap Z Z; moment : nat; irqstat : Z }.

Definition omM (A : Type) : Type := omap_rtc → cres (A * omap_rtc).
#[global] Instance omM_ret : MRet omM := λ A a h, Ret (a, h).
#[global] Instance omM_bind : MBind omM := λ A B f m h,
  match m h with Ret (a, h) => f a h | Err e => Err e | UB => UB end.

Definition reg (r : gmap Z Z) (addr : Z) : Z := default 0 (r !! addr).
Definition rtc_read (addr : Z) : omM Z := λ h, Ret (reg (regs h) addr, h).

(** a byte is written; the status bits are cleared by writing ones *)
Definition rtc_write (val addr : Z) : omM unit := λ h,
  let v := if addr =? OMAP_RTC_STATUS_REG then Z.land (reg (regs h) addr) (Z.lnot (u8 val)) else u8 val in
  Ret (tt, OmapRtc (<[addr := v]> (regs h)) (moment h) (irqstat h)).

Section Driver.
Context (elapse : nat → gmap Z Z → gmap Z Z).

(** [udelay], and the time that an access takes *)
Definition pass : omM unit := λ h, Ret (tt, OmapRtc (elapse (moment h) (regs h)) (S (moment h)) (irqstat h)).

Fixpoint busy_loop (count : nat) : omM unit :=
  match count with
  | O => mret tt
  | S count =>
      pass;;
      status ← rtc_read OMAP_RTC_STATUS_REG;
      if Z.land status OMAP_RTC_STATUS_BUSY =? 0 then mret tt else busy_loop count
  end.
Definition rtc_wait_not_busy : omM unit := busy_loop 50.

(** the events for [rtc_update_irq] *)
Definition rtc_irq : omM Z :=
  irq_data ← rtc_read OMAP_RTC_STATUS_REG;
  events ← (if truth (Z.land irq_data OMAP_RTC_STATUS_ALARM) then
              rtc_write OMAP_RTC_STATUS_ALARM OMAP_RTC_STATUS_REG;; mret (Z.lor 0 (Z.lor RTC_IRQF RTC_AF))
            else mret 0);
  mret (if truth (Z.land irq_data OMAP_RTC_STATUS_1S_EVENT) then Z.lor events (Z.lor RTC_IRQF RTC_UF) else events).

Definition set_int (enabled reg : Z) : Z :=
  if truth enabled then Z.lor reg OMAP_RTC_INTERRUPTS_IT_ALARM
  else Z.land reg (u8 (Z.lnot OMAP_RTC_INTERRUPTS_IT_ALARM)).

Definition omap_rtc_alarm_irq_enable (enabled : Z) : omM Z :=
  rtc_wait_not_busy;;
  r ← rtc_read OMAP_RTC_INTERRUPTS_REG;
  rtc_wait_not_busy;;
  rtc_write (set_int enabled r) OMAP_RTC_INTERRUPTS_REG;;
  mret 0.

(** the result, and the date as it is left behind *)
Definition tm2bcd (tm : rtc_time) : cres (Z * rtc_time) :=
  err ← rtc_valid_tm tm;
  if truth err then Ret (- EINVAL, tm)
  else
    let tm1 := RtcTime (bin2bcd (tm_sec tm)) (bin2bcd (tm_min tm)) (bin2bcd (tm_hour tm)) (bin2bcd (tm_mday tm))
      (bin2bcd (tm_mon tm + 1)) (tm_year tm) (tm_wday tm) (tm_yday tm) (tm_isdst tm) in
    if (tm_year tm1 <? 100) || (199 <? tm_year tm1) then Ret (- EINVAL, tm1)
    else Ret (0, RtcTime (tm_sec tm1) (tm_min tm1) (tm_hour tm1) (tm_mday tm1) (tm_mon tm1)
           (bin2bcd (tm_year tm1 - 100)) (tm_wday tm1) (tm_yday tm1) (tm_isdst tm1)).

Definition bcd2tm (tm : rtc_time) : rtc_time :=
  RtcTime (bcd2bin (tm_sec tm)) (bcd2bin (tm_min tm)) (bcd2bin (tm_hour tm)) (bcd2bin (tm_mday tm))
    (bcd2bin (tm_mon tm) - 1) (bcd2bin (tm_year tm) + 100) (tm_wday tm) (tm_yday tm) (tm_isdst tm).

(** the six registers from [base] on, into [tm] *)
Definition read_tm (base : Z) (tm : rtc_time) : omM rtc_time :=
  sec ← rtc_read (base + OMAP_RTC_SECONDS_REG);
  min ← rtc_read (base + OMAP_RTC_MINUTES_REG);
  hour ← rtc_read (base + OMAP_RTC_HOURS_REG);
  mday ← rtc_read (base + OMAP_RTC_DAYS_REG);
  mon ← rtc_read (base + OMAP_RTC_MONTHS_REG);
  year ← rtc_read (base + OMAP_RTC_YEARS_REG);
  mret (RtcTime sec min hour mday mon year (tm_wday tm) (tm_yday tm) (tm_isdst tm)).

Definition write_tm (base : Z) (tm : rtc_time) : omM unit :=
  rtc_write (tm_year tm) (base + OMAP_RTC_YEARS_REG);;
  rtc_write (tm_mon tm) (base + OMAP_RTC_MONTHS_REG);;
  rtc_write (tm_mday tm) (base + OMAP_RTC_DAYS_REG);;
  rtc_write (tm_hour tm) (base + OMAP_RTC_HOURS_REG);;
  rtc_write (tm_min tm) (base + OMAP_RTC_MINUTES_REG);;
  rtc_write (tm_sec tm) (base + OMAP_RTC_SECONDS_REG).

Definition omap_rtc_read_time (tm : rtc_time) : omM (Z * rtc_time) :=
  rtc_wait_not_busy;;
  tm ← read_tm OMAP_RTC_SECONDS_REG tm;
  mret (0, bcd2tm tm).

Definition omap_rtc_set_time (tm : rtc_time) : omM Z := λ h,
  '(err, tm) ← tm2bcd tm;
  if err <? 0 then Ret (- EINVAL, h)
  else (rtc_wait_not_busy;; write_tm OMAP_RTC_SECONDS_REG tm;; mret 0) h.

Definition omap_rtc_read_alarm (alm : rtc_wkalrm) : omM (Z * rtc_wkalrm) :=
  rtc_wait_not_busy;;
  tm ← read_tm OMAP_RTC_ALARM_SECONDS_REG (al_time alm);
  r ← rtc_read OMAP_RTC_INTERRUPTS_REG;
  mret (0, RtcWkalrm (c_bool (truth (Z.land r OMAP_RTC_INTERRUPTS_IT_ALARM))) (al_pending alm) (bcd2tm tm)).

Definition omap_rtc_set_alarm (alm : rtc_wkalrm) : omM Z := λ h,
  '(err, tm) ← tm2bcd (al_time alm);
  if err <? 0 then Ret (- EINVAL, h)
  else
    (rtc_wait_not_busy;;
     write_tm OMAP_RTC_ALARM_SECONDS_REG tm;;
     r ← rtc_read OMAP_RTC_INTERRUPTS_REG;
     rtc_write (set_int (al_enabled alm) r) OMAP_RTC_INTERRUPTS_REG;;
     mret 0) h.

Definition omap_rtc_ops : rtc_class_ops omap_rtc :=
  RtcClassOps (Some omap_rtc_read_time) (Some omap_rtc_set_time) (Some omap_rtc_read_alarm)
    (Some omap_rtc_set_alarm) None (Some omap_rtc_alarm_irq_enable).

(** ** Power management *)
Definition save_irqstat (v : Z) : omM unit := λ h, Ret (tt, OmapRtc (regs h) (moment h) v).
Definition get_irqstat : omM Z := λ h, Ret (irqstat h, h).

(** [wake]: [device_may_wakeup]; [has]: the device has OMAP_RTC_HAS_IRQWAKEEN *)
Definition omap_rtc_suspend (wake has : bool) : omM Z :=
  r ← rtc_read OMAP_RTC_INTERRUPTS_REG;
  save_irqstat r;;
  (if wake then
     if has then
       w ← rtc_read OMAP_RTC_IRQWAKEEN;
       rtc_write (Z.lor w OMAP_RTC_IRQWAKEEN_ALARM_WAKEEN) OMAP_RTC_IRQWAKEEN
     else mret tt
   else rtc_write 0 OMAP_RTC_INTERRUPTS_REG);;
  mret 0.

Definition omap_rtc_resume (wake has : bool) : omM Z :=
  (if wake then
     if has then
       w ← rtc_read OMAP_RTC_IRQWAKEEN;
       rtc_write (Z.land w (u8 (Z.lnot OMAP_RTC_IRQWAKEEN_ALARM_WAKEEN))) OMAP_RTC_IRQWAKEEN
     else mret tt
   else irqstat ← get_irqstat; rtc_write irqstat OMAP_RTC_INTERRUPTS_REG);;
  mret 0.

Definition omap_rtc_shutdown : omM unit := rtc_write 0 OMAP_RTC_INTERRUPTS_REG.

End Driver.

(** ** Binary coded decimals *)
Lemma bcd_round v : 0 ≤ v < 100 → bcd2bin (bin2bcd v) = v ∧ 0 ≤ bin2bcd v < 256.
Proof.
  intros Hv. unfold bcd2bin, bin2bcd. rewrite u8_id.
  - change 0x0f with (Z.ones 4). rewrite Z.land_ones, Z.shiftr_div_pow2, Z.shiftl_mul_pow2 by lia.
    change (2 ^ 4) with 16.
    assert ((v / 10 * 16 + v `mod` 10) / 16 = v / 10) as -> by (symmetry; apply (Z.div_unique _ _ _ (v `mod` 10)); Z.div_mod_to_equations; lia).
    assert ((v / 10 * 16 + v `mod` 10) `mod` 16 = v `mod` 10) as ->
      by (symmetry; apply (Z.mod_unique _ _ (v / 10)); Z.div_mod_to_equations; lia).
    Z.div_mod_to_equations. lia.
  - unfold_ranges. rewrite Z.shiftl_mul_pow2 by lia. Z.div_mod_to_equations. lia.
Qed.

(** the date in six registers *)
Definition raw_date (r : gmap Z Z) (base : Z) : rtc_time :=
  RtcTime (reg r base) (reg r (base + 4)) (reg r (base + 8)) (reg r (base + 12)) (reg r (base + 16)) (reg r (base + 20)) 0 0 0.
Definition date_at (r : gmap Z Z) (base : Z) : rtc_time := bcd2tm (raw_date r base).

(** the six numbers of a date *)
Definition same_date (a b : rtc_time) : Prop :=
  tm_sec a = tm_sec b ∧ tm_min a = tm_min b ∧ tm_hour a = tm_hour b ∧ tm_mday a = tm_mday b ∧
  tm_mon a = tm_mon b ∧ tm_year a = tm_year b.

Lemma same_date_secs a b : same_date a b → secs_of a = secs_of b.
Proof. intros (E1 & E2 & E3 & E4 & E5 & E6). unfold secs_of, days_of. by rewrite E1, E2, E3, E4, E5, E6. Qed.

Lemma same_date_valid a b : same_date a b → valid_date b → valid_date a.
Proof. intros (E1 & E2 & E3 & E4 & E5 & E6) []. split; by rewrite ?E1, ?E2, ?E3, ?E4, ?E5, ?E6. Qed.

(** [tm2bcd] on the dates of the century, and the way back *)
Lemma tm2bcd_ok tm :
  valid_date tm → 100 ≤ tm_year tm ≤ 199 → ∃ tm', tm2bcd tm = Ret (0, tm') ∧ same_date (bcd2tm tm') tm ∧
    (is_u8 (tm_sec tm') ∧ is_u8 (tm_min tm') ∧ is_u8 (tm_hour tm') ∧ is_u8 (tm_mday tm') ∧
     is_u8 (tm_mon tm') ∧ is_u8 (tm_year tm')).
Proof.
  intros Hv Hy. unfold tm2bcd.
  destruct (rtc_valid_tm_ok tm (valid_date_int tm Hv)) as [[-> _]|[_ ?]]; [|done]. cbn [mbind cres_bind truth Z.eqb negb tm_year].
  rewrite (proj2 (Z.ltb_ge (tm_year tm) 100)), (proj2 (Z.ltb_ge 199 (tm_year tm))) by lia. cbn [orb].
  destruct Hv as [_ Hm Hd Hh Hmi Hs]. pose proof (month_len_range (Z.to_nat (tm_mon tm)) (tm_year tm + 1900)).
  destruct (bcd_round (tm_sec tm)), (bcd_round (tm_min tm)), (bcd_round (tm_hour tm)), (bcd_round (tm_mday tm)),
    (bcd_round (tm_mon tm + 1)), (bcd_round (tm_year tm - 100)); try lia.
  eexists. split; [reflexivity|]. unfold_ranges. split; [|cbn; lia].
  unfold same_date, bcd2tm. cbn [tm_sec tm_min tm_hour tm_mday tm_mon tm_year]. split_and!; lia.
Qed.

Lemma tm2bcd_late tm :
  valid_date tm → ¬ (100 ≤ tm_year tm ≤ 199) → ∃ tm', tm2bcd tm = Ret (- EINVAL, tm').
Proof.
  intros Hv Hy. unfold tm2bcd.
  destruct (rtc_valid_tm_ok tm (valid_date_int tm Hv)) as [[-> _]|[_ ?]]; [|done]. cbn [mbind cres_bind truth Z.eqb negb tm_year].
  destruct (Z.ltb_spec (tm_year tm) 100), (Z.ltb_spec 199 (tm_year tm)); cbn [orb]; try (by eexists). lia.
Qed.

(** the years of the clock, in seconds *)
Lemma year_secs tm n :
  valid_date tm → 70 ≤ n → (tm_year tm < n ↔ secs_of tm < year_start (Z.to_nat (n - 70)) * 86400).
Proof.
  intros Hv Hn. set (k := Z.to_nat (tm_year tm - 70)). destruct Hv as [Hy Hm Hd Hh Hmi Hs].
  pose proof (month_start_mono (tm_year tm + 1900) 0 (Z.to_nat (tm_mon tm))) as H0.
  pose proof (month_start_mono (tm_year tm + 1900) (S (Z.to_nat (tm_mon tm))) 12) as H1.
  rewrite month_start_12 in H1. cbn [month_start] in H0, H1.
  assert (tm_year tm + 1900 = 1970 + Z.of_nat k) as Hk by lia. rewrite Hk in *.
  assert (year_start k ≤ days_of tm < year_start (S k)) as Hday.
  { unfold days_of. fold k. rewrite Hk. cbn [year_start]. lia. }
  assert (days_of tm * 86400 ≤ secs_of tm < (days_of tm + 1) * 86400) as Hsec by (unfold secs_of; lia).
  split; intros Hlt.
  - pose proof (year_start_mono (S k) (Z.to_nat (n - 70))). lia.
  - destruct (Z.lt_ge_cases (tm_year tm) n) as [|Hge]; [done|].
    pose proof (year_start_mono (Z.to_nat (n - 70)) k). lia.
Qed.

(** ** The hardware *)

(** the clock shows the valid date [tm] of this century *)
Definition shows (r : gmap Z Z) (tm : rtc_time) : Prop :=
  same_date (date_at r OMAP_RTC_SECONDS_REG) tm ∧ valid_date tm ∧ 100 ≤ tm_year tm ≤ 199.

(** registers that only the driver changes *)
Definition own_reg (a : Z) : Prop := 0x18 ≤ a ∧ a ≠ OMAP_RTC_STATUS_REG.

Section Laws.
Context (elapse : nat → gmap Z Z → gmap Z Z) (horizon : Z).
Hypothesis horizon_small : horizon < 2 ^ 31 - 1.
(** the hardware counts the seconds up to [horizon] and leaves the other registers alone *)
Hypothesis elapse_clock : ∀ n r tm, shows r tm → secs_of tm ≤ horizon → ∃ tm',
  shows (elapse n r) tm' ∧ secs_of tm ≤ secs_of tm' ≤ horizon ∧
  ∀ a, own_reg a → elapse n r !! a = r !! a.

Definition omap_clock (h : omap_rtc) : Z := secs_of (date_at (regs h) OMAP_RTC_SECONDS_REG).
Definition omap_alarm_at (h : omap_rtc) : Z := secs_of (date_at (regs h) OMAP_RTC_ALARM_SECONDS_REG).
Definition omap_alarm_on (h : omap_rtc) : bool :=
  truth (Z.land (reg (regs h) OMAP_RTC_INTERRUPTS_REG) OMAP_RTC_INTERRUPTS_IT_ALARM).
Definition omap_ok (h : omap_rtc) : Prop := ∃ tm, shows (regs h) tm ∧ secs_of tm ≤ horizon.

(** time passes *)
Definition later (h h' : omap_rtc) : Prop :=
  omap_ok h' ∧ omap_clock h ≤ omap_clock h' ∧ ∀ a, own_reg a → regs h' !! a = regs h !! a.

Lemma shows_clock h tm : shows (regs h) tm → omap_clock h = secs_of tm.
Proof. intros (Hs & _). by apply same_date_secs. Qed.

Lemma later_trans h1 h2 h3 : later h1 h2 → later h2 h3 → later h1 h3.
Proof. intros (_ & ? & E1) (? & ? & E2). split_and!; [done|lia|]. intros a Ha. by rewrite E2, E1. Qed.

Lemma pass_ok h : omap_ok h → ∃ h', pass elapse h = Ret (tt, h') ∧ later h h'.
Proof.
  intros (tm & Hs & Hh). destruct (elapse_clock (moment h) (regs h) tm Hs Hh) as (tm' & Hs' & Hle & Hown).
  eexists. split; [reflexivity|]. split_and!; [exists tm'; split; [exact Hs'|lia]| |done].
  rewrite (shows_clock h tm Hs), (shows_clock (OmapRtc _ _ _) tm' Hs'). lia.
Qed.

Lemma busy_loop_ok n h : omap_ok h → ∃ h', busy_loop elapse n h = Ret (tt, h') ∧ (h' = h ∨ later h h').
Proof.
  revert h. induction n as [|n IH]; intros h Hok; cbn [busy_loop]; [exists h; by split; [|left]|].
  destruct (pass_ok h Hok) as (h1 & E1 & L1). unfold mbind, omM_bind. rewrite E1. cbn [rtc_read].
  destruct (Z.eqb _ _); [exists h1; by split; [|right]|].
  destruct (IH h1) as (h2 & E2 & L2); [by destruct L1|]. exists h2. split; [done|]. right.
  destruct L2 as [->|L2]; [done|]. by eapply later_trans.
Qed.

Lemma wait_ok h : omap_ok h → ∃ h', rtc_wait_not_busy elapse h = Ret (tt, h') ∧ later h h'.
Proof.
  intros Hok. destruct (busy_loop_ok 50 h Hok) as (h' & E & Hl). exists h'. split; [done|].
  destruct Hl as [->|L]; [by split_and!|done].
Qed.

(** the alarm registers hold a date *)
Definition omap_alarm_valid (h : omap_rtc) : Prop := valid_date (date_at (regs h) OMAP_RTC_ALARM_SECONDS_REG).

Lemma own_date h h' : (∀ a, own_reg a → regs h' !! a = regs h !! a) →
  date_at (regs h') OMAP_RTC_ALARM_SECONDS_REG = date_at (regs h) OMAP_RTC_ALARM_SECONDS_REG.
Proof.
  intros Hown. unfold date_at, raw_date, reg.
  by rewrite !Hown by (unfold own_reg, OMAP_RTC_ALARM_SECONDS_REG, OMAP_RTC_STATUS_REG; lia).
Qed.

Lemma own_alarm h h' : (∀ a, own_reg a → regs h' !! a = regs h !! a) →
  omap_alarm_at h' = omap_alarm_at h ∧ omap_alarm_on h' = omap_alarm_on h.
Proof.
  intros Hown. unfold omap_alarm_at, omap_alarm_on, date_at, raw_date, reg.
  rewrite !Hown by (unfold own_reg, OMAP_RTC_ALARM_SECONDS_REG, OMAP_RTC_INTERRUPTS_REG, OMAP_RTC_STATUS_REG; lia). done.
Qed.
(** a write to an alarm register or to the interrupt register *)
Definition wrote (h : omap_rtc) (a v : Z) : omap_rtc := OmapRtc (<[a := u8 v]> (regs h)) (moment h) (irqstat h).

Lemma write_ok h a v : own_reg a → rtc_write v a h = Ret (tt, wrote h a v).
Proof. intros [_ Ha]. unfold rtc_write. by rewrite (proj2 (Z.eqb_neq _ _)). Qed.

Lemma wrote_later h a v : omap_ok h → own_reg a → omap_ok (wrote h a v) ∧ omap_clock (wrote h a v) = omap_clock h.
Proof.
  intros (tm & (Hs & Hv & Hy) & Hh) [Ha _].
  assert (date_at (regs (wrote h a v)) OMAP_RTC_SECONDS_REG = date_at (regs h) OMAP_RTC_SECONDS_REG) as E.
  { unfold date_at, raw_date, reg, OMAP_RTC_SECONDS_REG. cbn [wrote regs]. by rewrite !lookup_insert_ne by lia. }
  split; [exists tm; split; [split; [by rewrite E|done]|done]|]. unfold omap_clock. by rewrite E.
Qed.

Lemma bit_3 x : truth (Z.land x OMAP_RTC_INTERRUPTS_IT_ALARM) = Z.testbit x 3.
Proof.
  unfold truth, OMAP_RTC_INTERRUPTS_IT_ALARM. destruct (Z.testbit x 3) eqn:Hb.
  - apply negb_true_iff, Z.eqb_neq. intros H0. apply (f_equal (λ z, Z.testbit z 3)) in H0.
    by rewrite Z.land_spec, Hb in H0.
  - apply negb_false_iff, Z.eqb_eq, Z.bits_inj'. intros i Hi. rewrite Z.land_spec, Z.bits_0, Z.shiftl_spec by done.
    destruct (decide (i = 3)) as [->|]; [by rewrite Hb|]. replace (Z.testbit 1 (i - 3)) with false; [apply andb_false_r|].
    destruct (Z.lt_ge_cases i 3); [by rewrite Z.testbit_neg_r by lia|].
    symmetry. apply (bits_above 1); lia.
Qed.

Lemma int_bit v r : Z.testbit (u8 (set_int v r)) 3 = truth v.
Proof.
  unfold u8. rewrite Z.mod_pow2_bits_low by lia. unfold set_int. destruct (truth v).
  - by rewrite Z.lor_spec, orb_true_r.
  - by rewrite Z.land_spec, andb_false_r.
Qed.

(** the alarm registers after [write_tm] *)
Definition alarm_written (h : omap_rtc) (tm : rtc_time) : omap_rtc :=
  wrote (wrote (wrote (wrote (wrote (wrote h 0x34 (tm_year tm)) 0x30 (tm_mon tm)) 0x2c (tm_mday tm))
    0x28 (tm_hour tm)) 0x24 (tm_min tm)) 0x20 (tm_sec tm).

Lemma write_alarm_ok h tm : write_tm OMAP_RTC_ALARM_SECONDS_REG tm h = Ret (tt, alarm_written h tm).
Proof.
  unfold write_tm, mbind, omM_bind.
  repeat (rewrite write_ok by (split; by vm_compute)). done.
Qed.

Lemma alarm_written_ok h tm :
  omap_ok h → is_u8 (tm_sec tm) ∧ is_u8 (tm_min tm) ∧ is_u8 (tm_hour tm) ∧ is_u8 (tm_mday tm) ∧
    is_u8 (tm_mon tm) ∧ is_u8 (tm_year tm) →
  omap_ok (alarm_written h tm) ∧ omap_clock (alarm_written h tm) = omap_clock h ∧
  same_date (date_at (regs (alarm_written h tm)) OMAP_RTC_ALARM_SECONDS_REG) (bcd2tm tm) ∧
  regs (alarm_written h tm) !! OMAP_RTC_INTERRUPTS_REG = regs h !! OMAP_RTC_INTERRUPTS_REG.
Proof.
  intros Hok (H1 & H2 & H3 & H4 & H5 & H6).
  assert (∀ h a v, omap_ok h → own_reg a → omap_ok (wrote h a v)) as Hw by (intros; by apply wrote_later).
  assert (∀ h a v, omap_ok h → own_reg a → omap_clock (wrote h a v) = omap_clock h) as Hc by (intros; by apply wrote_later).
  unfold alarm_written. split; [repeat (apply Hw; [|split; by vm_compute]); done|].
  split; [repeat (rewrite Hc; [|repeat (apply Hw; [|split; by vm_compute]); done|split; by vm_compute]); done|].
  split; [|cbn [wrote regs]; by rewrite !lookup_insert_ne by (by vm_compute)].
  unfold same_date, date_at, raw_date, bcd2tm, reg. cbn [wrote regs tm_sec tm_min tm_hour tm_mday tm_mon tm_year].
  unfold OMAP_RTC_ALARM_SECONDS_REG. cbn [Z.add Pos.add Pos.succ].
  repeat (rewrite lookup_insert_eq || rewrite lookup_insert_ne by lia). cbn [default from_option id].
  rewrite !u8_id by done. done.
Qed.

(** ** The methods *)
Lemma omap_read_time_law tm h :
  omap_ok h → ∃ tm' h', omap_rtc_read_time elapse tm h = Ret (0, tm', h') ∧ omap_ok h' ∧ omap_clock h ≤ omap_clock h' ∧
    valid_date tm' ∧ secs_of tm' = omap_clock h' ∧ omap_alarm_at h' = omap_alarm_at h ∧ omap_alarm_on h' = omap_alarm_on h ∧
    (omap_alarm_valid h → omap_alarm_valid h').
Proof.
  intros Hok. destruct (wait_ok h Hok) as (h1 & E1 & Hok1 & Hle & Hown). destruct (own_alarm h h1 Hown) as [Ea Eo].
  unfold omap_rtc_read_time, mbind, omM_bind. rewrite E1. cbn [read_tm rtc_read mbind omM_bind].
  eexists _, h1. split; [reflexivity|]. destruct Hok1 as (tm1 & Hs & Hh). destruct Hs as (Hd & Hv & Hy).
  match goal with |- context [bcd2tm ?t] => assert (same_date (bcd2tm t) (date_at (regs h1) OMAP_RTC_SECONDS_REG)) as Hsame by done end.
  split; [by exists tm1|]. split; [done|]. split_and!; [|exact (same_date_secs _ _ Hsame)|done|done|unfold omap_alarm_valid; by rewrite (own_date h h1)].
  eapply same_date_valid; [exact Hsame|]. exact (same_date_valid _ _ Hd Hv).
Qed.

Lemma omap_set_alarm_law a h :
  omap_ok h → al_enabled a = 1 → valid_date (al_time a) → omap_clock h ≤ secs_of (al_time a) →
  ∃ err h', omap_rtc_set_alarm elapse a h = Ret (err, h') ∧ omap_ok h' ∧ omap_clock h ≤ omap_clock h' ∧
    ((err = 0 ∧ omap_alarm_at h' = secs_of (al_time a) ∧ omap_alarm_on h' = true) ∨
     (err < 0 ∧ err ≠ - ETIME ∧ horizon < secs_of (al_time a) ∧
      omap_alarm_at h' = omap_alarm_at h ∧ omap_alarm_on h' = omap_alarm_on h)).
Proof.
  intros Hok He Hv Hle. unfold omap_rtc_set_alarm.
  assert (100 ≤ tm_year (al_time a)) as Hlow.
  { destruct Hok as (tm & Hs & _). rewrite (shows_clock h tm Hs) in Hle. destruct Hs as (_ & Hvt & Hyt).
    destruct (Z.lt_ge_cases (tm_year (al_time a)) 100) as [Hlt|]; [|done].
    apply (year_secs (al_time a) 100) in Hlt; [|done..].
    assert (¬ tm_year tm < 100) as Hn by lia. rewrite (year_secs tm 100) in Hn by done. lia. }
  destruct (Z.le_gt_cases (tm_year (al_time a)) 199) as [Hin|Hout].
  - destruct (tm2bcd_ok (al_time a) Hv) as (tm' & -> & Hsame & Hu8); [lia|]. cbn [mbind cres_bind Z.ltb Z.compare].
    destruct (wait_ok h Hok) as (h1 & E1 & Hok1 & Hle1 & Hown). unfold mbind, omM_bind. rewrite E1, write_alarm_ok.
    destruct (alarm_written_ok h1 tm' Hok1 Hu8) as (Hok2 & Hc2 & Hd2 & Hi2). set (h2 := alarm_written h1 tm') in *.
    cbn [rtc_read]. rewrite write_ok by (split; by vm_compute). eexists _, _. split; [reflexivity|].
    destruct (wrote_later h2 OMAP_RTC_INTERRUPTS_REG (set_int (al_enabled a) (reg (regs h2) OMAP_RTC_INTERRUPTS_REG)))
      as [Hok3 Hc3]; [done|split; by vm_compute|].
    split; [done|]. split; [lia|]. left. split; [done|]. split.
    + rewrite <- (same_date_secs _ _ Hsame), <- (same_date_secs _ _ Hd2). unfold omap_alarm_at. f_equal.
      unfold date_at, raw_date, reg, OMAP_RTC_INTERRUPTS_REG, OMAP_RTC_ALARM_SECONDS_REG. cbn [wrote regs].
      by rewrite !lookup_insert_ne by lia.
    + unfold omap_alarm_on. rewrite bit_3. unfold reg at 1. cbn [wrote regs]. rewrite lookup_insert_eq.
      cbn [default from_option id]. rewrite int_bit, He. done.
  - destruct (tm2bcd_late (al_time a) Hv) as (tm' & ->); [lia|]. cbn.
    exists (- EINVAL), h. split; [done|]. split; [done|]. split; [lia|]. right. split_and!; [done|done| |done|done].
    destruct (Z.lt_ge_cases horizon (secs_of (al_time a))) as [|Hge]; [done|].
    assert (tm_year (al_time a) < 200) as Hy; [|lia]. apply (year_secs (al_time a) 200 Hv); [lia|].
    assert (year_start (Z.to_nat (200 - 70)) = 47482) as -> by reflexivity. lia.
Qed.

Lemma omap_alarm_irq_law v h :
  omap_ok h → ∃ h', omap_rtc_alarm_irq_enable elapse v h = Ret (0, h') ∧ omap_ok h' ∧ omap_clock h ≤ omap_clock h' ∧
    omap_alarm_at h' = omap_alarm_at h ∧ omap_alarm_on h' = truth v.
Proof.
  intros Hok. destruct (wait_ok h Hok) as (h1 & E1 & L1). destruct (wait_ok h1) as (h2 & E2 & L2); [by destruct L1|].
  destruct (later_trans _ _ _ L1 L2) as (Hok2 & Hle & Hown). destruct (own_alarm h h2 Hown) as [Ea _].
  unfold omap_rtc_alarm_irq_enable, mbind, omM_bind. rewrite E1. cbn [rtc_read]. rewrite E2.
  rewrite write_ok by (split; by vm_compute). eexists. split; [reflexivity|].
  destruct (wrote_later h2 OMAP_RTC_INTERRUPTS_REG (set_int v (reg (regs h1) OMAP_RTC_INTERRUPTS_REG))) as [Hok3 Hc3];
    [done|split; by vm_compute|].
  split; [done|]. split; [lia|]. split.
  - rewrite <- Ea. unfold omap_alarm_at. f_equal.
    unfold date_at, raw_date, reg, OMAP_RTC_INTERRUPTS_REG, OMAP_RTC_ALARM_SECONDS_REG. cbn [wrote regs].
    by rewrite !lookup_insert_ne by lia.
  - unfold omap_alarm_on. rewrite bit_3. unfold reg at 1. cbn [wrote regs]. rewrite lookup_insert_eq.
    cbn [default from_option id]. by rewrite int_bit.
Qed.

Lemma omap_clock_range h : omap_ok h → 0 ≤ omap_clock h ≤ horizon.
Proof.
  intros (tm & Hs & Hh). rewrite (shows_clock h tm Hs). destruct Hs as (_ & Hv & _).
  pose proof (secs_of_nonneg tm Hv). lia.
Qed.

(** setting the clock: a date of this century is shown afterwards, the alarm stays *)
Lemma omap_set_time_ok tm h :
  omap_ok h → valid_date tm → 100 ≤ tm_year tm ≤ 199 → ∃ h', omap_rtc_set_time elapse tm h = Ret (0, h') ∧
    shows (regs h') tm ∧ omap_alarm_at h' = omap_alarm_at h ∧ omap_alarm_on h' = omap_alarm_on h.
Proof.
  intros Hok Hv Hy. unfold omap_rtc_set_time.
  destruct (tm2bcd_ok tm Hv Hy) as (tm' & -> & Hsame & H1 & H2 & H3 & H4 & H5 & H6). cbn [mbind cres_bind Z.ltb Z.compare].
  destruct (wait_ok h Hok) as (h1 & E1 & _ & _ & Hown). destruct (own_alarm h h1 Hown) as [Ea Eo].
  unfold mbind, omM_bind. rewrite E1. unfold write_tm, mbind, omM_bind, rtc_write. cbn -[insert lookup u8 bin2bcd].
  eexists. split; [reflexivity|]. rewrite !u8_id by done. rewrite <- Ea, <- Eo. split; [split; [|done]|].
  - unfold date_at, raw_date, reg. cbn [regs].
    unfold OMAP_RTC_SECONDS_REG, OMAP_RTC_MINUTES_REG, OMAP_RTC_HOURS_REG, OMAP_RTC_DAYS_REG, OMAP_RTC_MONTHS_REG, OMAP_RTC_YEARS_REG.
    cbn [Z.add Pos.add Pos.succ]. repeat (rewrite lookup_insert_eq || rewrite lookup_insert_ne by lia). exact Hsame.
  - apply own_alarm. intros a [Ha _]. cbn [regs]. by rewrite !lookup_insert_ne by
      (unfold OMAP_RTC_SECONDS_REG, OMAP_RTC_MINUTES_REG, OMAP_RTC_HOURS_REG, OMAP_RTC_DAYS_REG, OMAP_RTC_MONTHS_REG, OMAP_RTC_YEARS_REG; lia).
Qed.

Lemma omap_set_time_law tm h :
  omap_ok h → valid_date tm → secs_of tm ≤ horizon →
  ∃ err h', omap_rtc_set_time elapse tm h = Ret (err, h') ∧ omap_ok h' ∧ err ≤ 0 ∧
    (err = 0 → omap_clock h' = secs_of tm) ∧ omap_alarm_at h' = omap_alarm_at h ∧ omap_alarm_on h' = omap_alarm_on h.
Proof.
  intros Hok Hv Hs. assert (tm_year tm < 200) as Hy.
  { apply (year_secs tm 200 Hv); [lia|]. assert (year_start (Z.to_nat (200 - 70)) = 47482) as -> by reflexivity. lia. }
  destruct (Z.lt_ge_cases (tm_year tm) 100) as [Hlow|Hin].
  - unfold omap_rtc_set_time. destruct (tm2bcd_late tm Hv) as (tm' & ->); [lia|]. cbn. by exists (- EINVAL), h.
  - destruct (omap_set_time_ok tm h Hok Hv) as (h' & E & Hsh & Ea & Eo); [lia|]. exists 0, h'.
    split_and!; [done|by exists tm|done| |done|done]. intros _. by apply shows_clock.
Qed.

Lemma omap_read_alarm_law a h :
  omap_ok h → omap_alarm_valid h →
  ∃ a' h', omap_rtc_read_alarm elapse a h = Ret (0, a', h') ∧ omap_ok h' ∧ omap_clock h ≤ omap_clock h' ∧
    valid_date (al_time a') ∧ secs_of (al_time a') = omap_alarm_at h ∧ al_enabled a' = c_bool (omap_alarm_on h) ∧
    omap_alarm_at h' = omap_alarm_at h ∧ omap_alarm_on h' = omap_alarm_on h.
Proof.
  intros Hok Hv. destruct (wait_ok h Hok) as (h1 & E1 & Hok1 & Hle & Hown). destruct (own_alarm h h1 Hown) as [Ea Eo].
  unfold omap_rtc_read_alarm, mbind, omM_bind. rewrite E1. cbn [read_tm rtc_read mbind omM_bind].
  eexists _, h1. split; [reflexivity|]. cbn [al_time al_enabled].
  match goal with |- context [bcd2tm ?t] =>
    assert (same_date (bcd2tm t) (date_at (regs h1) OMAP_RTC_ALARM_SECONDS_REG)) as Hsame by done end.
  rewrite (own_date h h1 Hown) in Hsame. split; [done|]. split; [done|]. split; [exact (same_date_valid _ _ Hsame Hv)|].
  split; [exact (same_date_secs _ _ Hsame)|]. split; [|done]. by rewrite <- Eo.
Qed.

(** the driver meets the laws that the core relies on *)
#[global] Instance omap_rtc_chip : rtc_chip (omap_rtc_ops elapse) horizon.
Proof.
  refine {| chip_ok := omap_ok; clock := omap_clock; alarm_at := omap_alarm_at; alarm_on := omap_alarm_on;
    alarm_valid := omap_alarm_valid |}.
  - apply omap_clock_range.
  - eexists. split; [reflexivity|apply omap_read_time_law].
  - eexists. split; [reflexivity|apply omap_set_alarm_law].
  - eexists. split; [reflexivity|apply omap_alarm_irq_law].
  - eexists. split; [reflexivity|apply omap_set_time_law].
  - eexists. split; [reflexivity|apply omap_read_alarm_law].
Defined.

(** suspending and resuming brings the alarm interrupt back; while suspended it is on only
    if the device may wake the system *)
Lemma omap_suspend_resume wake has h :
  omap_ok h → ∃ h1 h2, omap_rtc_suspend wake has h = Ret (0, h1) ∧ omap_rtc_resume wake has h1 = Ret (0, h2) ∧
    omap_alarm_on h1 = wake && omap_alarm_on h ∧ omap_alarm_on h2 = omap_alarm_on h ∧ omap_clock h2 = omap_clock h.
Proof.
  intros Hok.
  assert (∀ h a v, omap_ok h → own_reg a → omap_ok (wrote h a v)) as Hw by (intros; by apply wrote_later).
  assert (∀ h a v, omap_ok h → own_reg a → omap_clock (wrote h a v) = omap_clock h) as Hc by (intros; by apply wrote_later).
  set (h0 := OmapRtc (regs h) (moment h) (reg (regs h) OMAP_RTC_INTERRUPTS_REG)).
  assert (omap_ok h0) as Hok0 by done. assert (own_reg OMAP_RTC_IRQWAKEEN) as Ow by (split; by vm_compute).
  assert (own_reg OMAP_RTC_INTERRUPTS_REG) as Oi by (split; by vm_compute).
  assert (∀ h v, omap_alarm_on (wrote h OMAP_RTC_IRQWAKEEN v) = omap_alarm_on h) as Hon.
  { intros h' v. unfold omap_alarm_on, reg. cbn [wrote regs]. by rewrite lookup_insert_ne by (by vm_compute). }
  assert (∀ h v, omap_alarm_on (wrote h OMAP_RTC_INTERRUPTS_REG v) = Z.testbit v 3) as Hint.
  { intros h' v. unfold omap_alarm_on, reg. cbn [wrote regs]. rewrite lookup_insert_eq, bit_3. cbn [default from_option id].
    unfold u8. by rewrite Z.mod_pow2_bits_low by lia. }
  assert (omap_alarm_on h0 = omap_alarm_on h ∧ omap_clock h0 = omap_clock h) as [E0 C0] by done.
  unfold omap_rtc_suspend, omap_rtc_resume, save_irqstat, get_irqstat, mbind, omM_bind. cbn [rtc_read]. fold h0.
  destruct wake, has; cbn [andb].
  - rewrite write_ok by done. eexists _, _. split; [reflexivity|]. rewrite write_ok by done. split; [reflexivity|].
    rewrite !Hon, !Hc by auto. done.
  - exists h0, h0. done.
  - rewrite write_ok by done. eexists _, _. split; [reflexivity|]. cbn [wrote irqstat]. rewrite write_ok by done.
    split; [reflexivity|]. rewrite !Hint, !Hc by auto. split; [done|]. split; [|done]. unfold omap_alarm_on. by rewrite bit_3.
  - rewrite write_ok by done. eexists _, _. split; [reflexivity|]. cbn [wrote irqstat]. rewrite write_ok by done.
    split; [reflexivity|]. rewrite !Hint, !Hc by auto. split; [done|]. split; [|done]. unfold omap_alarm_on. by rewrite bit_3.
Qed.

End Laws.
