(* ===== verification/RtcDevice.v ===== *)
(** * A real-time clock from its registration on (drivers/rtc/class.c)

    The theorems of the RTC core for every chip that meets the laws, and runs on the
    clock of the AM335x. *)
From S2P Require Import Prelude RtcLib Rbtree RbtreeInv RbtreeBal RbtreeList Timerqueue RtcCore RtcInv RtcWork RtcSteps RtcOmap.

Section Setup.
Context {H : Type}.

(** [rtc_device_register]: the queue and its two timers, *)
Definition rtc_register_timers : rtcM H unit :=
  on_queue timerqueue_init_head;;
  aie ← get_aie;
  rtc_timer_init aie (Some AieUpdateIrq);;
  uie ← get_uie;
  rtc_timer_init uie (Some UieUpdateIrq).

(** and the alarm that the chip holds. [lcks] and [lck] are what the attempts to lock give;
    [fuel] is for the loops of [__rtc_read_alarm]. *)
Definition rtc_register_alarm (fuel : nat) (lcks : nat → Z) (lck : Z) : rtcM H unit :=
  '(err, oalrm) ← __rtc_read_alarm fuel lcks;
  if truth err then mret tt
  else
    alrm ← written oalrm;
    v ← lift (rtc_valid_tm (al_time alrm));
    if truth v then mret tt else rtc_initialize_alarm lck alrm;; mret tt.

(** the timers of other drivers are initialised by their owners *)
Fixpoint init_others (xs : list Z) : rtcM H unit :=
  match xs with
  | [] => mret tt
  | x :: xs => rtc_timer_init x (Some OtherFunc);; init_others xs
  end.

Definition rtc_setup (fuel : nat) (lcks : nat → Z) (lck : Z) (others : list Z) : rtcM H unit :=
  rtc_register_timers;; rtc_register_alarm fuel lcks lck;; init_others others.

Context (ops : rtc_class_ops H) (horizon : Z) `{!rtc_chip ops horizon}.
Hypothesis horizon_small : horizon < 2 ^ 31 - 1.

(** the timers [U] are there, with times and periods in range *)
Definition in_memory (U : gset Z) (d : rtc_device H) : Prop :=
  ∀ x, x ∈ U → is_ptr x ∧ is_Some (nodes (tq_head (rtc_queue d)) !! x) ∧
    ∃ t e, rtc_timers d !! x = Some t ∧ 0 ≤ period t ≤ PMAX horizon ∧
      expires (rtc_queue d) !! x = Some e ∧ 0 ≤ e ≤ KMAX.

(** a device in fresh memory; the chip holds an alarm before 2038 *)
Record fresh (U : gset Z) (d : rtc_device H) : Prop := {
  fr_ops : rtc_ops d = Some ops;
  fr_chip : chip_ok (chip d);
  fr_alarm : alarm_valid (chip d) ∧ alarm_at (chip d) < 2 ^ 31;
  fr_timer : in_memory U d;
  fr_warned : warned d = false;
  fr_aie : aie_timer d ∈ U;
  fr_uie : uie_rtctimer d ∈ U
}.

(** the timers [D] are initialised *)
Record setting_up (U D : gset Z) (d : rtc_device H) : Prop := {
  se_fresh : fresh U d;
  se_queue : set_up U D (rtc_queue d);
  se_root : rb_root (tq_head (rtc_queue d)) = 0;
  se_next : tq_next (rtc_queue d) = 0;
  se_off : ∀ x t, x ∈ D → rtc_timers d !! x = Some t → enabled t = 0
}.

Lemma timer_init_ok U D d x f :
  setting_up U D d → x ∈ U →
  rwp (rtc_timer_init x f) (λ _ d', setting_up U (D ∪ {[x]}) d' ∧ chip d' = chip d ∧
    aie_timer d' = aie_timer d ∧ uie_rtctimer d' = uie_rtctimer d) d.
Proof.
  intros [[Ho Hc Hal Ht Hw Ha Hu] Hq Hr Hn Hoff] Hx. unfold rtc_timer_init.
  destruct (timerqueue_init_ok U D x (rtc_queue d) Hq Hx) as (q' & E & Hq' & Er & En & Ee).
  apply rwp_bind, (rwp_queue _ _ _ _ _ E). destruct (Ht x Hx) as (_ & _ & t & e & Htx & Hp & He & Hre).
  eapply rwp_eq; [unfold get_timer; cbn; by rewrite Htx|]. unfold rwp, set_timer. split; [|done].
  split; cbn; [|done|by rewrite Er|by rewrite En|].
  - split; cbn; try done. intros y Hy. cbn. destruct (su_timer _ _ _ Hq' y Hy) as (Hpy & _ & Hny).
    destruct (Ht y Hy) as (_ & _ & ty & ey & Hty & Hpy' & Hey & Hrey). split_and!; [done..|]. rewrite Ee.
    destruct (decide (y = x)) as [->|]; [|exists ty, ey; by rewrite lookup_insert_ne].
    exists (RtcTimer f (period t) 0), ey. rewrite lookup_insert_eq. done.
  - intros y ty Hy. destruct (decide (y = x)) as [->|].
    + rewrite lookup_insert_eq. by intros [= <-].
    + rewrite lookup_insert_ne by done. apply Hoff. set_solver.
Qed.

(** *** The alarm of the chip *)

(** an attempt to lock succeeds or is interrupted *)
Definition lock_result (lck : Z) : Prop := lck ≤ 0.

Lemma lock_test lck : lock_result lck → (lck = 0 ∧ truth lck = false) ∨ (lck < 0 ∧ truth lck = true).
Proof. unfold lock_result, truth. intros Hl. destruct (Z.eqb_spec lck 0) as [->|]; [by left|right]. split; [lia|done]. Qed.

(** the same alarm in another state of the chip *)
Definition same_alarm (h h' : H) : Prop :=
  chip_ok h' ∧ alarm_at h' = alarm_at h ∧ alarm_on h' = alarm_on h.

Lemma read_time_alarm d :
  rtc_ops d = Some ops → chip_ok (chip d) → alarm_valid (chip d) →
  rwp __rtc_read_time (λ r d', ∃ tm h', r = (0, Some tm) ∧ d' = with_chip h' d ∧ same_alarm (chip d) h' ∧ alarm_valid h') d.
Proof.
  intros Ho Hc Hav. destruct read_time_law as (f & Ef & Hf).
  destruct (Hf zero_tm (chip d) Hc) as (tm & h1 & E & Hok1 & _ & _ & _ & Ea1 & Eo1 & Hav1).
  unfold rwp, __rtc_read_time, get_ops, on_chip, mbind, rtcM_bind. rewrite Ho, Ef, E. exists tm, h1.
  split_and!; [done..|]. by apply Hav1.
Qed.

Lemma read_alarm_internal_ok d :
  rtc_ops d = Some ops → chip_ok (chip d) → alarm_valid (chip d) →
  rwp (rtc_read_alarm_internal 0) (λ r d', ∃ a h', r = (0, Some a) ∧ d' = with_chip h' d ∧ same_alarm (chip d) h' ∧
    valid_date (al_time a) ∧ secs_of (al_time a) = alarm_at (chip d) ∧ al_enabled a = c_bool (alarm_on (chip d))) d.
Proof.
  intros Ho Hc Hav. destruct read_alarm_law as (f & Ef & Hf).
  destruct (Hf (RtcWkalrm 0 (Some 0) zero_tm) (chip d) Hc Hav) as (a & h1 & E & Hok1 & _ & Hv & Hs & He & Ea & Eo).
  unfold rwp, rtc_read_alarm_internal, get_ops, on_chip, mbind, rtcM_bind. cbn [truth Z.eqb negb].
  rewrite Ho, Ef, E. exists a, h1. done.
Qed.

Lemma valid_tm_ok tm {A} (k : Z → rtcM H A) Q d : valid_date tm → rwp (k 0) Q d → rwp (v ← lift (rtc_valid_tm tm); k v) Q d.
Proof.
  intros Hv Hk. apply rwp_bind. eapply rwp_lift; [|exact Hk].
  by destruct (rtc_valid_tm_ok tm (valid_date_int tm Hv)) as [[E _]|[_ ?]].
Qed.

(** [__rtc_read_alarm] gives the alarm of the chip, or is interrupted *)
Lemma read_alarm_ok n lcks d :
  rtc_ops d = Some ops → chip_ok (chip d) → alarm_valid (chip d) → (∀ i, lock_result (lcks i)) →
  rwp (__rtc_read_alarm (S n) lcks) (λ r d', ∃ h', d' = with_chip h' d ∧ same_alarm (chip d) h' ∧
    ((r.1 < 0 ∧ (lcks 0%nat ≠ 0 ∨ lcks 1%nat ≠ 0)) ∨
     (lcks 0%nat = 0 ∧ lcks 1%nat = 0 ∧ ∃ a, r = (0, Some a) ∧ valid_date (al_time a) ∧
       secs_of (al_time a) = alarm_at (chip d) ∧ al_enabled a = c_bool (alarm_on (chip d))))) d.
Proof.
  intros Ho Hc Hav Hl. unfold __rtc_read_alarm, rtc_read_time. apply rwp_bind.
  destruct (lock_test (lcks 0%nat) (Hl 0%nat)) as [[L0 T0]|[L0 T0]]; rewrite T0.
  2: { apply rwp_ret. rewrite (proj2 (Z.ltb_lt _ _)) by done. apply rwp_ret. exists (chip d).
    split; [by destruct d|]. split; [done|]. left. cbn. split; [done|left; lia]. }
  eapply rwp_mono; [by apply read_time_alarm|]. intros r d1 (tm & h1 & -> & -> & (Hok1 & Ea1 & Eo1) & Hav1).
  cbn [Z.ltb Z.compare written]. apply rwp_bind, rwp_ret, rwp_bind. cbn [read_alarm_loop].
  destruct (lock_test (lcks 1%nat) (Hl 1%nat)) as [[L1 T1]|[L1 T1]].
  - rewrite L1. apply rwp_bind. eapply rwp_mono; [by apply (read_alarm_internal_ok (with_chip h1 d))|].
    intros r d2 (a & h2 & -> & -> & (Hok2 & Ea2 & Eo2) & Hv & Hs & He). cbn [truth Z.eqb negb written chip with_chip] in *.
    apply rwp_bind, rwp_ret, valid_tm_ok; [done|]. cbn [Z.eqb]. apply rwp_ret, rwp_ret. exists h2.
    split; [done|]. split; [split_and!; [done|congruence..]|]. right. split_and!; [done..|]. exists a.
    split_and!; [done|done|congruence|congruence].
  - unfold rtc_read_alarm_internal. rewrite T1. apply rwp_bind, rwp_ret. rewrite T1. apply rwp_ret, rwp_ret. exists h1.
    split; [done|]. split; [done|]. left. cbn. split; [done|right; lia].
Qed.

(** the queue after the registration *)
Definition first_queue (lcks : nat → Z) (lck : Z) (d : rtc_device H) : list (Z * Z) :=
  if (lcks 0%nat =? 0) && (lcks 1%nat =? 0) && (lck =? 0) && alarm_on (chip d)
  then [(aie_timer d, alarm_at (chip d) * NSEC_PER_SEC)] else [].

(** the timers [D] are initialised, the others of [U] are there *)
Record joined (U D : gset Z) (d : rtc_device H) (l : list (Z * Z)) : Prop := {
  jo_inv : rtc_inv ops horizon true D d l;
  jo_mem : in_memory U d
}.

Lemma sec_up_whole n : sec_up (n * NSEC_PER_SEC) = n.
Proof. unfold sec_up, NSEC_PER_SEC. Z.div_mod_to_equations. lia. Qed.

Lemma initialize_alarm_ok U D d lck a :
  joined U D d [] → valid_date (al_time a) → secs_of (al_time a) < 2 ^ 31 → lock_result lck →
  alarm_at (chip d) = secs_of (al_time a) → al_enabled a = c_bool (alarm_on (chip d)) →
  rwp (rtc_initialize_alarm lck a) (λ _ d', joined U D d'
      (if (lck =? 0) && alarm_on (chip d) then [(aie_timer d, alarm_at (chip d) * NSEC_PER_SEC)] else []) ∧
    aie_timer d' = aie_timer d ∧ uie_rtctimer d' = uie_rtctimer d) d.
Proof.
  intros [[I _] Hmem] Hv Hs Hl Hat Hen. unfold rtc_initialize_alarm. eapply rwp_eq; [done|].
  apply valid_tm_ok; [done|]. cbn [truth Z.eqb negb].
  destruct (lock_test lck Hl) as [[-> T]|[Hneg T]]; rewrite T.
  2: { apply rwp_ret. rewrite (proj2 (Z.eqb_neq lck 0)) by lia. split; [|done]. by split. }
  pose proof (ci_aie _ _ _ _ _ I) as Ha. pose proof (secs_of_nonneg _ Hv). cbn [Z.eqb andb].
  rewrite rtc_tm_to_ktime_ok, <- Hat by (done || lia). set (e := alarm_at (chip d) * NSEC_PER_SEC).
  apply (rwp_set_expires ops horizon D d []); [done|done|set_solver +|unfold e, KMAX, NSEC_PER_SEC; lia|].
  intros d1 I1 Ex1 Et1 Ec1 Ew1 _ Ea1 Eu1 En1.
  apply (rwp_set_period ops horizon D d1 []); [done|done| |].
  { pose proof (clock_range _ (ci_chip _ _ _ _ _ I)). unfold PMAX, KMAX, NSEC_PER_SEC. replace (ktime_set 0 0) with 0 by done. lia. }
  intros d2 I2 Eq2 Ec2 Ew2 _ Ea2 Eu2 Et2.
  assert (∀ d' l, core_inv ops horizon D d' l → expires (rtc_queue d') = <[aie_timer d := e]> (expires (rtc_queue d)) →
    (∀ y, is_Some (nodes (tq_head (rtc_queue d)) !! y) → is_Some (nodes (tq_head (rtc_queue d')) !! y)) →
    (∀ y, y ≠ aie_timer d → rtc_timers d' !! y = rtc_timers d !! y) → in_memory U d') as Hkeep.
  { intros d' l I' Ex' Em' Et' x Hx. destruct (Hmem x Hx) as (Px & Hn & t & e' & Ht & Hp & He' & Hr').
    split; [done|]. split; [by apply Em'|]. destruct (decide (x = aie_timer d)) as [->|Hne].
    - destruct (ci_timer _ _ _ _ _ I' _ Ha) as (t2 & e2 & ? & _ & ? & ? & ?). by exists t2, e2.
    - exists t, e'. rewrite Et', Ex', lookup_insert_ne by done. done. }
  rewrite Hen. destruct (alarm_on (chip d)) eqn:Hon; cbn [c_bool truth Z.eqb negb].
  - apply (enlist ops horizon D d2 [] _ e); [done|done|set_solver +|by rewrite Eq2, Ex1, lookup_insert_eq|].
    intros d3 I3 [[_ Ex3 _ _ Ea3 Eu3] Ec3 Ew3] Em3 Et3. apply rwp_ret. split; [|split; congruence]. split; [split; [done|]|].
    + intros _. right; left. cbn. rewrite Ec3, Ec2, Ec1. unfold e. by rewrite sec_up_whole.
    + apply (Hkeep d3 _ I3); [congruence| |].
      * intros y Hy. apply Em3. by rewrite Eq2, En1.
      * intros y Hy. by rewrite Et3, Et2, Et1.
  - apply rwp_ret. split; [|split; congruence]. split; [by split|].
    apply (Hkeep d2 _ I2); [congruence| |]; [by rewrite Eq2, En1|]. intros y Hy. by rewrite Et2, Et1.
Qed.

Lemma join_timer U D d l x f :
  joined U D d l → x ∈ U → x ∉ l.*1 →
  rwp (rtc_timer_init x f) (λ _ d', joined U (D ∪ {[x]}) d' l ∧
    aie_timer d' = aie_timer d ∧ uie_rtctimer d' = uie_rtctimer d) d.
Proof.
  intros [[I HA] Hmem] Hx Hout. destruct (Hmem x Hx) as (Px & Hn & t & e & Ht & Hp & He & Hr). destruct I as [Ho Hc Hq Htm Hw Ha Hu].
  destruct (abs_init D (rtc_queue d) l x Hq Hout Px) as (q' & E & Ee & Em & Hq'); [by eexists|done|].
  unfold rtc_timer_init. apply rwp_bind, (rwp_queue _ _ _ _ _ E).
  eapply rwp_eq; [unfold get_timer; cbn; by rewrite Ht|]. unfold rwp, set_timer. split; [|done].
  split; [split; [split|]|]; cbn; try done; [|set_solver|set_solver|].
  - intros y Hy. rewrite Ee. destruct (decide (y = x)) as [->|Hne].
    + exists (RtcTimer f (period t) 0), e. rewrite lookup_insert_eq. unfold queued. by rewrite bool_decide_false.
    + rewrite lookup_insert_ne by done. apply Htm. set_solver.
  - intros y Hy. cbn. rewrite Ee. destruct (Hmem y Hy) as (Py & Hny & ty & ey & Hty & Hpy & Hey & Hry).
    split; [done|]. split; [by apply Em|]. destruct (decide (y = x)) as [->|Hne].
    + exists (RtcTimer f (period t) 0), e. by rewrite lookup_insert_eq.
    + exists ty, ey. by rewrite lookup_insert_ne.
Qed.

Lemma init_others_ok U D d l xs :
  joined U D d l → (∀ x, x ∈ xs → x ∈ U ∧ (x ∉ l.*1)) →
  rwp (init_others xs) (λ _ d', joined U (D ∪ list_to_set xs) d' l ∧
    aie_timer d' = aie_timer d ∧ uie_rtctimer d' = uie_rtctimer d) d.
Proof.
  revert D d. induction xs as [|x xs IH]; intros D d HJ Hxs; cbn [init_others list_to_set].
  { apply rwp_ret. by rewrite union_empty_r_L. }
  destruct (Hxs x) as [Hx Hout]; [set_solver +|].
  apply rwp_bind. eapply rwp_mono; [by apply (join_timer U D d l x)|].
  intros _ d1 (HJ1 & Ea & Eu). eapply rwp_mono; [apply (IH _ d1 HJ1); set_solver|].
  intros _ d2 (HJ2 & Ea2 & Eu2). rewrite union_assoc_L. split_and!; [done|congruence..].
Qed.

Lemma register_timers_ok U d :
  fresh U d →
  rwp rtc_register_timers (λ _ d', joined U {[aie_timer d; uie_rtctimer d]} d' [] ∧ chip d' = chip d ∧
    aie_timer d' = aie_timer d ∧ uie_rtctimer d' = uie_rtctimer d) d.
Proof.
  intros Hf. unfold rtc_register_timers. pose proof Hf as [Ho Hc Hal Ht Hw Ha Hu].
  set (q0 := Timerqueue (RbState (nodes (tq_head (rtc_queue d))) 0) 0 (expires (rtc_queue d))).
  assert (setting_up U ∅ (with_queue q0 d)) as HS0.
  { split; [by split|split|done|done|set_solver]; [|set_solver].
    intros x Hx. destruct (Ht x Hx) as (? & ? & t & e & _ & _ & He & _). split_and!; [done|by exists e|done]. }
  apply rwp_bind. eapply rwp_queue; [reflexivity|]. fold q0.
  eapply rwp_eq; [reflexivity|]. apply rwp_bind. cbn [aie_timer with_queue].
  eapply rwp_mono; [by apply (timer_init_ok U ∅)|]. intros _ d1 (HS1 & Ec1 & Ea1 & Eu1).
  eapply rwp_eq; [reflexivity|]. cbn [aie_timer uie_rtctimer chip with_queue] in *. rewrite Eu1.
  eapply rwp_mono; [by apply (timer_init_ok U (∅ ∪ {[aie_timer d]}) d1)|]. intros _ d2 (HS2 & Ec2 & Ea2 & Eu2).
  split; [|split_and!; congruence]. rewrite union_empty_l_L in HS2. set (D := {[aie_timer d; uie_rtctimer d]} : gset Z) in *.
  destruct HS2 as [[Ho3 Hc3 Hal3 Ht3 Hw3 Ha3 Hu3] [Hq3 Hi3] Hr3 Hn3 Hoff3].
  assert (D ⊆ U) as HD by set_solver. split; [split; [split|done]|done]; try done.
  - apply set_up_empty; [|done..]. split; [|done]. intros x Hx. apply Hq3. by apply HD.
  - intros x Hx. destruct (Ht3 x) as (_ & _ & t & e & Htx & Hp & He & Hre); [by apply HD|]. exists t, e.
    split_and!; try done; try lia. by apply (Hoff3 x).
  - rewrite Ea2, Ea1. set_solver +.
  - rewrite Eu2, Eu1. set_solver +.
Qed.

Lemma register_alarm_ok U D d n lcks lck :
  joined U D d [] → alarm_valid (chip d) → alarm_at (chip d) < 2 ^ 31 → (∀ i, lock_result (lcks i)) → lock_result lck →
  rwp (rtc_register_alarm (S n) lcks lck) (λ _ d', joined U D d' (first_queue lcks lck d) ∧
    aie_timer d' = aie_timer d ∧ uie_rtctimer d' = uie_rtctimer d) d.
Proof.
  intros [[I HA] Hmem] Hav Hat Hls Hl. unfold rtc_register_alarm, first_queue. apply rwp_bind.
  eapply rwp_mono; [apply read_alarm_ok; [apply I|apply I|done|done]|].
  intros [err oa] d1 (h' & -> & (Hok & Eat & Eon) & Hor).
  assert (joined U D (with_chip h' d) []) as HJ1 by (split; [split; [by apply core_inv_chip|done]|done]).
  destruct Hor as [[Hneg Hint]|(L0 & L1 & a & [= -> ->] & Hv & Hs & He)].
  - cbn in Hneg. unfold truth. rewrite (proj2 (Z.eqb_neq err 0)) by lia. apply rwp_ret. split; [|done].
    replace ((lcks 0%nat =? 0) && (lcks 1%nat =? 0)) with false; [done|].
    destruct (Z.eqb_spec (lcks 0%nat) 0), (Z.eqb_spec (lcks 1%nat) 0); tauto.
  - cbn [truth Z.eqb negb written]. apply rwp_bind, rwp_ret, valid_tm_ok; [done|]. cbn [truth Z.eqb negb]. apply rwp_bind.
    eapply rwp_mono; [apply (initialize_alarm_ok U D (with_chip h' d)); try done; cbn [chip with_chip]; rewrite ?Eat, ?Eon; try done; lia|].
    cbn [chip with_chip aie_timer uie_rtctimer]. rewrite Eat, Eon, L0, L1. intros _ d2 HJ2. by apply rwp_ret.
Qed.

Lemma rtc_setup_ok U d n lcks lck others :
  fresh U d → U = {[aie_timer d; uie_rtctimer d]} ∪ list_to_set others → aie_timer d ∉ others →
  (∀ i, lock_result (lcks i)) → lock_result lck →
  rwp (rtc_setup (S n) lcks lck others) (λ _ d', rtc_inv ops horizon true U d' (first_queue lcks lck d) ∧
    aie_timer d' = aie_timer d ∧ uie_rtctimer d' = uie_rtctimer d) d.
Proof.
  intros Hf HU Hoth Hls Hl. unfold rtc_setup. apply rwp_bind. eapply rwp_mono; [by apply register_timers_ok|].
  intros _ d1 (HJ1 & Ec1 & Ea1 & Eu1). destruct (fr_alarm _ _ Hf) as [Hav Hat].
  apply rwp_bind. eapply rwp_mono; [apply (register_alarm_ok U {[aie_timer d; uie_rtctimer d]} d1); [done|by rewrite Ec1..|done|done]|].
  intros _ d2 (HJ2 & Ea2 & Eu2).
  assert (first_queue lcks lck d1 = first_queue lcks lck d) as Efq by (unfold first_queue; by rewrite Ec1, Ea1).
  rewrite Efq in HJ2. eapply rwp_mono; [apply (init_others_ok U {[aie_timer d; uie_rtctimer d]} d2 (first_queue lcks lck d) others HJ2)|].
  - intros x Hx. split; [set_solver|]. unfold first_queue. case_match; cbn; [|set_solver +]. intros ->%list_elem_of_singleton. done.
  - intros _ d3 ([HJ3 _] & Ea3 & Eu3). rewrite <- HU in HJ3. split_and!; [done|congruence..].
Qed.

End Setup.

(** what holds of a chip, a fresh device and the calls made on it *)
Definition rtc_use {H} (ops : rtc_class_ops H) (horizon : Z) `{!rtc_chip ops horizon}
    (U : gset Z) (d : rtc_device H) (lcks : nat → Z) (lck : Z) (others : list Z) (cs : list rtc_call) : Prop :=
  horizon < 2 ^ 31 - 1 ∧ fresh ops horizon U d ∧ U = {[aie_timer d; uie_rtctimer d]} ∪ list_to_set others ∧
  (aie_timer d ∉ others) ∧ (∀ i, lock_result (lcks i)) ∧ lock_result lck ∧ Forall (call_ok horizon U) cs.

Lemma rtc_use_ok {H} (ops : rtc_class_ops H) (horizon : Z) `{!rtc_chip ops horizon} U d n lcks lck others cs :
  rtc_use ops horizon U d lcks lck others cs →
  rwp (rtc_setup (S n) lcks lck others;; rtc_run horizon cs) (λ errs d', ∃ b l, rtc_inv ops horizon b U d' l ∧
    rtc_trace horizon (aie_timer d) (uie_rtctimer d) true (first_queue ops horizon lcks lck d) cs errs b l) d.
Proof.
  intros (Hh & Hf & HU & Hoth & Hls & Hl & Hc). apply rwp_bind. eapply rwp_mono; [by apply (rtc_setup_ok ops horizon Hh U d)|].
  intros _ d1 (I1 & Ea & Eu). rewrite <- Ea, <- Eu. by apply (rtc_run_ok ops horizon Hh).
Qed.

(** C5: the timers of a real-time clock, whatever the chip, as long as its driver meets
    the laws of [rtc_chip] and the chip holds an alarm before 2038 ([fresh]). The device is
    registered, which takes over the alarm of the chip if it is on ([first_queue]); then timers
    are started and cancelled, the alarm and the update interrupt are switched on and off, the
    clock is set, interrupts come and the work runs, in any order, with times before 2038,
    periods that do not pass it, and a clock that is not set beyond [horizon]. Then every call
    returns, the queue holds exactly the timers that the calls put there, in the order of their
    times ([rtc_trace]), no warning of the timer queue is raised and a timer is marked enabled
    exactly when it is queued. As for the first timer: the work is scheduled, or the alarm of
    the chip is on and set to its time, or its time is beyond [horizon]; except ([serves]) after
    [rtc_alarm_irq_enable] has switched the interrupt off with other timers in the queue, until
    the next interrupt or run of the work. Setting the clock leaves the alarm where it is, be it
    in the past. *)
Theorem rtc_core_correct {H} (ops : rtc_class_ops H) (horizon : Z) `{!rtc_chip ops horizon} U d n lcks lck others cs :
  rtc_use ops horizon U d lcks lck others cs →
  ∃ errs d' b l, (rtc_setup (S n) lcks lck others;; rtc_run horizon cs) d = Ret (errs, d') ∧
    rtc_trace horizon (aie_timer d) (uie_rtctimer d) true (first_queue ops horizon lcks lck d) cs errs b l ∧
    warned d' = false ∧
    (∀ x, x ∈ U → ∃ t, rtc_timers d' !! x = Some t ∧ enabled t = c_bool (queued l x)) ∧
    timerqueue_getnext (rtc_queue d') = Ret (default 0 (head l.*1), rtc_queue d') ∧
    (b = true → armed ops horizon d' l).
Proof.
  intros (errs & d' & E & b & l & [I HA] & Htr)%(rtc_use_ok ops horizon U d n)%rwp_run.
  exists errs, d', b, l. split; [done|]. split; [done|]. split; [apply I|]. split_and!; [| |done].
  - intros x Hx. destruct (ci_timer _ _ _ _ _ I x Hx) as (t & _ & Ht & He & _). by exists t.
  - unfold timerqueue_getnext, get_next. by rewrite (tq_first _ _ _ (abs_inv _ _ _ (ci_queue _ _ _ _ _ I))).
Qed.

(** C11: the work of a real-time clock, after any such calls. [rtc_timer_do_work] ends: it
    repeats only when the clock has ticked meanwhile. At the last time [now] that it read, each
    queued timer was called as often as it was due, once or once for every period since its
    time; no other timer was called; a timer that was due is queued again at its first time
    after [now] if it is periodic and not at all otherwise, the others are where they were. The
    alarm is set to the first timer left, whose time has not come. *)
Theorem rtc_work_correct {H} (ops : rtc_class_ops H) (horizon : Z) `{!rtc_chip ops horizon} U d n lcks lck others cs :
  rtc_use ops horizon U d lcks lck others cs →
  ∃ errs d1 b l d2 now l' fired, (rtc_setup (S n) lcks lck others;; rtc_run horizon cs) d = Ret (errs, d1) ∧
    rtc_trace horizon (aie_timer d) (uie_rtctimer d) true (first_queue ops horizon lcks lck d) cs errs b l ∧
    rtc_timer_do_work (work_rounds horizon) (work_fuel horizon d1) d1 = Ret (tt, d2) ∧
    clock (chip d1) ≤ now ≤ clock (chip d2) ∧
    expired (now * NSEC_PER_SEC) (per_of d1) (has_func d1) l l' fired ∧ calls d2 = calls d1 ++ fired ∧
    (∀ x, x ∈ U → RB_EMPTY_NODE x (tq_head (rtc_queue d2)) = Ret (bool_decide (x ∉ l'.*1), tq_head (rtc_queue d2))) ∧
    (∀ x e, (x, e) ∈ l' → expires (rtc_queue d2) !! x = Some e) ∧
    waiting ops horizon (now * NSEC_PER_SEC) d2 l'.
Proof.
  intros Huse. pose proof Huse as (Hh & _).
  apply (rtc_use_ok ops horizon U d n) in Huse as (errs & d1 & E & b & l & [I _] & Htr)%rwp_run.
  pose proof (work_ok ops horizon Hh U d1 l I) as ([] & d2 & E2 & now & l' & fired & [I2 _] & Hn & Hexp & Ecalls & Hwait & _)%rwp_run.
  exists errs, d1, b, l, d2, now, l', fired. split_and!; try done; try lia.
  - intros x Hx. apply (empty_node U); [apply I2|done].
  - apply I2.
Qed.

(** ** The clock of the AM335x *)

(** a hardware that ticks at every access *)
Definition put_date (tm : rtc_time) (r : gmap Z Z) : gmap Z Z :=
  <[0x00 := bin2bcd (tm_sec tm)]> (<[0x04 := bin2bcd (tm_min tm)]> (<[0x08 := bin2bcd (tm_hour tm)]>
  (<[0x0c := bin2bcd (tm_mday tm)]> (<[0x10 := bin2bcd (tm_mon tm + 1)]> (<[0x14 := bin2bcd (tm_year tm - 100)]> r))))).

Definition tick (horizon : Z) (n : nat) (r : gmap Z Z) : gmap Z Z :=
  let s := secs_of (date_at r OMAP_RTC_SECONDS_REG) + 1 in
  if s <=? horizon then match rtc_time_to_tm s with Ret tm => put_date tm r | _ => r end else r.

Lemma put_date_shows tm r : valid_date tm → 100 ≤ tm_year tm ≤ 199 → shows (put_date tm r) tm.
Proof.
  intros Hv Hy. split; [|done]. pose proof Hv as [_ Hm Hd Hh Hmi Hs].
  pose proof (month_len_range (Z.to_nat (tm_mon tm)) (tm_year tm + 1900)).
  unfold same_date, date_at, raw_date, bcd2tm, reg, put_date, OMAP_RTC_SECONDS_REG.
  cbn [tm_sec tm_min tm_hour tm_mday tm_mon tm_year Z.add].
  repeat (rewrite lookup_insert_eq || rewrite lookup_insert_ne by lia). cbn [default from_option id].
  assert (∀ v, 0 ≤ v < 100 → bcd2bin (bin2bcd v) = v) as Hb by (intros v Hv'; by apply bcd_round).
  rewrite !Hb by lia. split_and!; lia.
Qed.

Lemma tick_clock horizon n r tm :
  horizon < 2 ^ 31 - 1 → shows r tm → secs_of tm ≤ horizon → ∃ tm',
    shows (tick horizon n r) tm' ∧ secs_of tm ≤ secs_of tm' ≤ horizon ∧
    ∀ a, own_reg a → tick horizon n r !! a = r !! a.
Proof.
  intros Hh Hs Hle. unfold tick. pose proof Hs as (Hd & Hv & Hy). rewrite (same_date_secs _ _ Hd).
  destruct (Z.leb_spec (secs_of tm + 1) horizon) as [Hin|Hout]; [|exists tm; by split_and!].
  pose proof (secs_of_nonneg tm Hv) as H0.
  destruct (time_date (secs_of tm + 1)) as (tm' & E & Hv' & Hs' & _); [unfold_ranges; lia|]. rewrite E.
  assert (100 ≤ tm_year tm') as Hlow.
  { destruct (Z.lt_ge_cases (tm_year tm') 100) as [Hlt|]; [|done]. apply (year_secs tm' 100) in Hlt; [|done..].
    assert (¬ tm_year tm < 100) as Hn by lia. rewrite (year_secs tm 100) in Hn by done. lia. }
  assert (tm_year tm' < 200) as Hhigh.
  { apply (year_secs tm' 200 Hv'); [lia|]. assert (year_start (Z.to_nat (200 - 70)) = 47482) as -> by reflexivity. lia. }
  exists tm'. split; [apply put_date_shows; [done|lia]|]. split; [lia|].
  intros a [Ha _]. unfold put_date. by rewrite !lookup_insert_ne by lia.
Qed.

(** until 2036-12-31 23:59:59 *)
Definition horizon36 : Z := 2114380799.
Definition am335x_ops : rtc_class_ops omap_rtc := omap_rtc_ops (tick horizon36).

#[local] Instance am335x_chip : rtc_chip am335x_ops horizon36.
Proof.
  apply omap_rtc_chip; [done|]. intros n r tm. by apply tick_clock.
Defined.

(** 2012-06-15 12:00:00, an alarm at 12:00:08 that is on, and timers at three addresses *)
Definition put_alarm (tm : rtc_time) (r : gmap Z Z) : gmap Z Z :=
  <[0x20 := bin2bcd (tm_sec tm)]> (<[0x24 := bin2bcd (tm_min tm)]> (<[0x28 := bin2bcd (tm_hour tm)]>
  (<[0x2c := bin2bcd (tm_mday tm)]> (<[0x30 := bin2bcd (tm_mon tm + 1)]> (<[0x34 := bin2bcd (tm_year tm - 100)]> r))))).
Definition am335x_regs (int : Z) : gmap Z Z :=
  put_date (RtcTime 0 0 12 15 5 112 0 0 0)
    (put_alarm (RtcTime 8 0 12 15 5 112 0 0 0) {[OMAP_RTC_INTERRUPTS_REG := int]}).

Definition am335x : rtc_device omap_rtc :=
  RtcDevice (Some am335x_ops)
    (Timerqueue (RbState (list_to_map [(64, RbNode 0 0 0); (128, RbNode 0 0 0); (192, RbNode 0 0 0)]) 0) 0
       (list_to_map [(64, 0); (128, 0); (192, 0)]))
    (list_to_map [(64, RtcTimer None 0 0); (128, RtcTimer None 0 0); (192, RtcTimer None 0 0)]) 64 128 false 0
    (OmapRtc (am335x_regs 8) 0 0) [] false.

(** a timer every three seconds, the update interrupt, a new time, an alarm, the alarm
    interrupt switched off, and the work *)
Definition some_calls : list rtc_call :=
  [RtcStart 192 (1339761605 * NSEC_PER_SEC) (3 * NSEC_PER_SEC); RtcUie 0 true;
   RtcSetTime 0 (RtcTime 5 0 12 15 5 112 0 0 0);
   RtcSetAlarm 0 (RtcWkalrm 1 None (RtcTime 20 0 12 15 5 112 0 0 0)); RtcAieOff 0; RtcIrq; RtcWork; RtcCancel 192].

Lemma am335x_fresh : fresh am335x_ops horizon36 {[64; 128; 192]} am335x.
Proof.
  split; [done| | | |done|set_solver|set_solver].
  - exists (RtcTime 0 0 12 15 5 112 0 0 0). split; [apply put_date_shows|]; [split|..]; vm_compute; intuition discriminate.
  - split; [|by vm_compute]. split; vm_compute; intuition discriminate.
  - intros x Hx. assert (x = 64 ∨ x = 128 ∨ x = 192) as Hx' by set_solver.
    assert (is_ptr x) as Hp.
    { destruct Hx' as [->|[->| ->]]; (split; [lia|]); [by exists 16|by exists 32|by exists 48]. }
    split; [done|]. destruct Hx' as [->|[->| ->]]; (split; [by eexists|]); eexists _, 0;
      (split; [reflexivity|]); (split; [vm_compute; intuition discriminate|]); (split; [reflexivity|]); vm_compute; intuition discriminate.
Qed.

Lemma some_calls_ok : Forall (call_ok horizon36 {[64; 128; 192]}) some_calls.
Proof.
  repeat constructor; cbn; try set_solver; vm_compute; intuition discriminate.
Qed.

Lemma am335x_use : rtc_use am335x_ops horizon36 {[64; 128; 192]} am335x (λ _, 0) 0 [192] some_calls.
Proof.
  split; [done|]. split; [exact am335x_fresh|]. split; [set_solver|]. split; [set_solver|].
  split; [done|]. split; [done|exact some_calls_ok].
Qed.

Lemma rtc_core_correct_witness :
  ∃ errs d' b l, (rtc_setup 1 (λ _, 0) 0 [192];; rtc_run horizon36 some_calls) am335x = Ret (errs, d') ∧
    first_queue am335x_ops horizon36 (λ _, 0) 0 am335x = [(64, 1339761608 * NSEC_PER_SEC)] ∧
    warned d' = false ∧ (b = true → armed am335x_ops horizon36 d' l).
Proof.
  destruct (rtc_core_correct am335x_ops horizon36 {[64; 128; 192]} am335x 0 (λ _, 0) 0 [192] some_calls am335x_use)
    as (errs & d' & b & l & E & _ & Hw & _ & _ & HA).
  exists errs, d', b, l. split; [exact E|]. split; [vm_compute; reflexivity|]. split; [exact Hw|exact HA].
Defined.

Lemma rtc_work_correct_witness :
  ∃ errs d1 d2 fired, (rtc_setup 1 (λ _, 0) 0 [192];; rtc_run horizon36 some_calls) am335x = Ret (errs, d1) ∧
    rtc_timer_do_work (work_rounds horizon36) (work_fuel horizon36 d1) d1 = Ret (tt, d2) ∧
    calls d2 = calls d1 ++ fired.
Proof.
  destruct (rtc_work_correct am335x_ops horizon36 {[64; 128; 192]} am335x 0 (λ _, 0) 0 [192] some_calls am335x_use)
    as (errs & d1 & b & l & d2 & now & l' & fired & E & _ & E2 & _ & _ & Ec & _).
  exists errs, d1, d2, fired. split; [exact E|]. split; [exact E2|exact Ec].
Defined.

(** *** What can go wrong *)

(** the same device with a clock that stands still and an alarm that is off *)
Definition still_ops : rtc_class_ops omap_rtc := omap_rtc_ops (λ _ r, r).
Definition am335x_still : rtc_device omap_rtc :=
  RtcDevice (Some still_ops) (rtc_queue am335x) (rtc_timers am335x) 64 128 false 0
    (OmapRtc (am335x_regs 0) 0 0) [] false.

Definition look (m : rtcM omap_rtc Z) : cres (bool * bool * bool * Z) :=
  '(_, d) ← (rtc_setup 1 (λ _, 0) 0 [192];; m) am335x_still;
  Ret (bool_decide (tq_next (rtc_queue d) = 0), irqwork d, omap_alarm_on (chip d), omap_alarm_at (chip d) - omap_clock (chip d)).

(** a started timer: queued, no work, the interrupt on, the alarm in 5 seconds *)
Definition start5 : rtcM omap_rtc Z := rtc_timer_start 192 (1339761605 * NSEC_PER_SEC) 0.
Example started : look start5 = Ret (false, false, true, 5).
Proof. vm_compute. reflexivity. Qed.

(** switching the alarm interrupt off also stops the timers of others *)
Example aie_off_stops_others : look (start5;; rtc_alarm_irq_enable 0 0) = Ret (false, false, false, 5).
Proof. vm_compute. reflexivity. Qed.

(** the last timer is cancelled, and the interrupt stays on *)
Example cancel_leaves_alarm : look (start5;; rtc_timer_cancel 192) = Ret (true, false, true, 5).
Proof. vm_compute. reflexivity. Qed.

(** the clock is set past the alarm, and nobody looks at the timers *)
Example set_time_skips_alarm :
  look (start5;; rtc_set_time 0 (RtcTime 10 0 12 15 5 112 0 0 0)) = Ret (false, false, true, -5).
Proof. vm_compute. reflexivity. Qed.
